(* ===== verification/_CoqProject ===== *)
-Q . S2P
Prelude.v
TypeMap.v
HashMap.v
DoubleMap.v
DoubleMapFacts.v
DoubleMapSpec.v
DoubleMapTheorems.v
Tokio.v
ActorTypes.v
UserCode.v
Context.v
Lifecycle.v
ContextFacts.v
LifecycleFacts.v
ContextLoop.v
ContextTheorems.v
LifecycleTheorems.v
Cron.v
CronFacts.v
Observer.v
Address.v
AddressTheorems.v
CallTheorems.v
Response.v
WireLibs.v
Codec.v
DefaultCodec.v
CodecTheorems.v
CodecTyping.v
ProstCodec.v
ProstTheorems.v
ControlCodec.v
Registry.v
RegistryTheorems.v
ErrorReport.v
IpcMessages.v
Session.v
SessionNet.v
SessionTheorems.v
SessionLoop.v
Node.v
NodeTheorems.v
NodeCall.v
NodeSystem.v
Remote.v
SessionProxy.v
RemoteAddressable.v
RemoteTheorems.v
Senders.v
SenderTheorems.v
IpcMethod.v
IpcMethodTheorems.v
LinkNet.v
Adaptor.v
AdaptorTheorems.v
AdaptorNet.v
StableId.v
StableIdTheorems.v
DeriveCodec.v
DeriveMessage.v
