(* ===== verification/Prelude.v ===== *)
(** * A verification library for the acktor actor framework

    ** The program

    acktor is an actor framework on tokio. The crate acktor (acktor/src) has the actors of
    one process: an actor is started with a context that owns its mailbox, runs its hooks
    and its message loop, and tells its supervisor and observers what became of it;
    addresses and recipients put envelopes into mailboxes and get responses over one-shot
    channels. The crate acktor-ipc (acktor-ipc/src) connects processes: a node owns
    listeners, connections and an actor manager; each connection belongs to a session,
    which tags requests, routes frames to local actors and finds the channel of each
    response. acktor-ipc-proto has the messages of that protocol, acktor-derive the macros
    that generate codecs, ids and the handler of binary messages.

    ** The files

    The order is that of _CoqProject; a file requires the files of the components it calls.

    - Foundations. Prelude.v: Rust results, panics, mutable borrows, machine integers, the
      notations [let?] and [let!], tactics, hint databases, lemmas on lists, maps, strings.
      TypeMap.v: the hasher of type maps. HashMap.v: std's hash map and its entries.
      Tokio.v: the channels of tokio, as classes with the laws their documentation states.
      WireLibs.v: the crates bytes, zerocopy and prost, likewise.
    - Two-key map (acktor-ipc/src/double_map). DoubleMap.v: every operation, entries and
      iterators. DoubleMapFacts.v: the invariant that keeps both halves in sync.
      DoubleMapSpec.v: the reachable maps and the reference specification, a list of
      triples. DoubleMapTheorems.v: the refinement, for any iteration order of the hash map,
      no panic, retain.
    - Actors (acktor/src/actor.rs, context.rs, drain.rs, signal.rs, supervisor.rs,
      envelope). ActorTypes.v: ids, states, signals, errors. UserCode.v: hooks and handlers
      as trees of effects, envelopes, mailbox. Context.v: the default context, its loop and
      the drains. Lifecycle.v: start, run, spawn, for any context and loop. ContextFacts.v
      and LifecycleFacts.v: the interfaces [ContextLaws] and [LoopLaws] and the invariant
      [good]. ContextLoop.v: the default loop meets them. ContextTheorems.v,
      LifecycleTheorems.v: order of hooks and messages, termination, errors, drains,
      reports. Cron.v, CronFacts.v (cron.rs): a second context that meets the same
      interfaces. Observer.v (observer.rs).
    - Sending in one process (address.rs and address, channel, message). Address.v: local
      addresses, permits, the response channel. AddressTheorems.v. Response.v: what a
      handler's result does with the channel. CallTheorems.v: what becomes of every envelope
      over the life of an actor, and what the caller receives.
    - Codecs (acktor/src/codec). Codec.v: the traits, addresses on the wire. DefaultCodec.v,
      CodecTheorems.v, CodecTyping.v: the default codec, its round trips, and what a buffer
      must hold for a value to be decoded from it. ProstCodec.v, ProstTheorems.v: the protobuf codec. ControlCodec.v:
      signals, supervisors, observers, events.
    - Between processes (acktor-ipc/src, acktor-ipc-proto/src). Registry.v,
      RegistryTheorems.v: the shared registry and the labels of the manager. ErrorReport.v: what
      errors say, and the report that travels in place of an error. IpcMessages.v: the
      frames. Session.v: the session and its loop. SessionNet.v: two sessions that ask
      each other and the link between them as a step relation. SessionTheorems.v,
      SessionLoop.v: answers find their requests, requests are resolved once and in time; the
      invariant is of one peer. Node.v, NodeTheorems.v: the node, its sessions and accept
      tasks. NodeCall.v: what a node that asks another one for an actor gets. NodeSystem.v:
      the node, its mailbox and the tasks of its sessions as one step relation.
    - Remote addresses (address/remote.rs, codec/table.rs, session/proxy.rs,
      acktor-derive/src/remote_addressable.rs). Remote.v: addresses and typed recipients of
      another process. SessionProxy.v: the proxy of a session, with the laws clients use.
      RemoteAddressable.v: the derived codec table, handler and uniqueness check.
      RemoteTheorems.v: a call through two sessions runs the handler of its message.
      Senders.v, SenderTheorems.v: the trait [Sender] as an interface, met by all senders.
    - Transports (acktor-ipc/src/ipc_method). IpcMethod.v: [IpcConnection] as an interface,
      WebSocket and pipe. IpcMethodTheorems.v: framing and pings. LinkNet.v: two sessions,
      each over its end of a connection, refine the two sessions of SessionNet.v.
    - Adaptor.v, AdaptorTheorems.v (acktor-ipc-proto/src/adaptor.rs): the stand-in for a
      session in WebAssembly. AdaptorNet.v: an adaptor and the session it talks to.
    - Generated code (acktor-derive/src). StableId.v, StableIdTheorems.v: stable type ids
      and message ids. DeriveCodec.v: derived codecs for four libraries. DeriveMessage.v:
      which attributes the other macros read, and what they generate.

    ** How the code is modelled

    Each operation is a function with the source's name, prefixed with its type:
    [DoubleMap_insert], [Session_handle_message_response]. State is passed explicitly;
    [result] is Rust's [Result], [outcome] a computation that may panic. An asynchronous
    function is given what happens at its awaits: the loops of actors, sessions and nodes
    take the list of their inputs (a schedule: what arrives, which timer fires, what the
    connection answers), sends take the steps of the other tasks between two polls. The loop
    of a session also takes the time at which each iteration starts. Blocking calls depend on
    [CallContext], whether the caller is inside the runtime, where they panic. A response
    channel is closed when its sender is dropped with the envelope that held it. A theorem that holds for every schedule holds for every interleaving of the awaits. The
    schedule also bounds a run: a loop whose inputs are used up still waits
    ([LoopWaiting], [RunWaiting], [None]), so the loops need no fuel. Fuel occurs where a
    list is walked in steps, and is a length that suffices: the chunks of a buffer
    ([chunks], its length), an iterator run to its end ([collect], one more than its
    entries), a varint (ten bytes hold 64 bits). [SessionNet.net_step], [LinkNet.link_step],
    [AdaptorNet.ad_net_step], [NodeSystem.sys_step] and [Registry.mgr_step] are step
    relations, explored by [rtc]. Effects on the outside are events of a trace.

    Code the framework calls but does not contain (hooks, handlers, factories) is a
    parameter, quantified over. Crates that are not in the repository are classes with
    laws; each class has an instance, so the hypotheses can be met. Integers are [Z], with
    their width in [wrap_u], [wrap_s], [in_u], [in_s] and [in_range]. A vector of bytes is a
    [list Z]; a buffer that was received also has an address.

    ** What the theorems show

    - Life cycle: hooks run in order and in the documented states, post_stop exactly when
      the loop returned; the supervisor hears the outcome last.
    - Loop: envelopes are served in the order they were accepted, each once, and answered
      with what the handler returned for them; nothing is handled after Terminate; a queued
      Terminate ends the loop; a saved error is returned or reported, unless the stopping
      hook fails, whose error then replaces it; when no error was saved the error of that
      hook is lost, against the comment in context.rs; a drain
      discards what was there and nothing else; the cron task never overlaps its timer, and a Resume that was queued
      before a pause undoes the pause.
    - Sending: a send hands its message back when it fails and queues it once when it
      succeeds, for all eight methods of all senders; only the blocking ones panic, and only
      inside the runtime; permits are honoured; responses arrive; the caller of a local actor
      receives what its handler returned, or that the channel is closed, when the handler
      panicked or the envelope was dropped.
    - Codecs: round trips (the protobuf codec loses the sign of a negative zero that is not
      in a vector), announced lengths, no panic on any bytes, and no value but the one the
      bytes hold; where alignment makes the default codec refuse its own output.
    - Processes: an answer belongs to the request it is given to and every request is
      resolved at most once, by either of two sessions, also over connections that fail and
      by an adaptor; one that is too old is resolved by the next sweep, which runs as
      soon as the message of the cleanup timer was handled; a remote call runs
      the handler of its message; an address asked of another node is one that node knows,
      and a failure arrives as the report of the error there; labels lead to running
      actors; sessions and accept tasks of a node match its tables: a session outside the
      table has ended, one in the table runs, or its report is queued, or was lost because
      the mailbox of the node had no room for it.
    - Transports: one recv per send under cancellation; a ping is answered before the next
      frame is read.
    - Ids: two message types share an id only through a collision between inputs that are
      hashed for them.

    ** What is not modelled

    Debug output, tracing, the capacities of collections, the parsing of macro input,
    re-exports, test utilities. System calls (sockets, accept, connect), timers and the
    scheduler are inputs. Of the futures that addresses box, their polls or the result of
    awaiting them is modelled, not dropping one half way. Cloning an address shares its
    mailbox; the counts of senders that clones keep are left out. An error of the outside
    world is its text, and a boxed error is its report. The indices of new actors, which a
    global counter hands out, are parameters, as is the order in which a hash map is walked. In NodeSystem.v the accept
    tasks of the node are among the inputs of its loop, and the commands it gets are those
    its users send; the time-outs of those commands belong to the callers. *)

From stdpp Require Export base gmap strings list fin_maps sets.
From stdpp Require Import pretty.
From stdpp Require Export options.

(** ** Rust results, panics and mutable borrows *)

Declare Scope rust_scope.
Delimit Scope rust_scope with rust.
#[global] Open Scope rust_scope.

(** [Result<T, E>]. *)
Inductive result (A E : Type) : Type :=
| Ok (a : A)
| Err (e : E).
Arguments Ok {A E} _.
Arguments Err {A E} _.

(** A computation which returns, or panics with a message (a failed [expect], an
    [unreachable!], an explicit [panic!]). *)
Inductive outcome (A : Type) : Type :=
| Done (a : A)
| Panicked (info : string).
Arguments Done {A} _.
Arguments Panicked {A} _.

Definition is_done {A} (o : outcome A) : Prop :=
  match o with Done _ => True | Panicked _ => False end.

#[global] Instance is_done_dec {A} (o : outcome A) : Decision (is_done o).
Proof. destruct o; simpl; apply _. Defined.

Definition outcome_bind {A B} (o : outcome A) (k : A -> outcome B) : outcome B :=
  match o with Done a => k a | Panicked i => Panicked i end.

Definition result_bind {A B E} (r : result A E) (k : A -> result B E) : result B E :=
  match r with Ok a => k a | Err e => Err e end.

Definition result_map {A B E} (f : A -> B) (r : result A E) : result B E :=
  match r with Ok a => Ok (f a) | Err e => Err e end.

Definition result_map_err {A E F} (f : E -> F) (r : result A E) : result A F :=
  match r with Ok a => Ok a | Err e => Err (f e) end.

Definition ok_or {A E} (o : option A) (e : E) : result A E :=
  match o with Some a => Ok a | None => Err e end.

(** [Result::or]: the argument when the result is an error, the result itself when it is a
    success. *)
Definition result_or {A E F} (r : result A E) (res : result A F) : result A F :=
  match r with Ok a => Ok a | Err _ => res end.

Definition is_ok {A E} (r : result A E) : bool :=
  match r with Ok _ => true | Err _ => false end.

Definition is_some {A} (o : option A) : bool :=
  match o with Some _ => true | None => false end.

(** The [?] operator on [Result], and sequencing of computations that may panic. *)
Notation "'let?' x ':=' c 'in' k" := (result_bind c (fun x => k))
  (at level 10, x pattern, c at level 100, k at level 200) : rust_scope.
Notation "'let!' x ':=' c 'in' k" := (outcome_bind c (fun x => k))
  (at level 10, x pattern, c at level 100, k at level 200) : rust_scope.

(** [opt.expect(msg)]. *)
Definition expect {A} (o : option A) (msg : string) : outcome A :=
  match o with Some a => Done a | None => Panicked msg end.

(** A mutable borrow [&'a mut T] into a structure of type [S]: the value that is
    borrowed and the structure that results when the borrow ends with a final value. *)
Record mut_ref (T S : Type) : Type := MutRef {
  deref : T;
  write_back : T -> S;
}.
Arguments MutRef {T S} _ _.
Arguments deref {T S} _.
Arguments write_back {T S} _ _.

(** ** Machine integers *)

(** The [w]-bit unsigned and two's complement readings of an integer. *)
Definition wrap_u (w : Z) (z : Z) : Z := (z `mod` 2 ^ w)%Z.

Definition wrap_s (w : Z) (z : Z) : Z :=
  ((z + 2 ^ (w - 1)) `mod` 2 ^ w - 2 ^ (w - 1))%Z.

Definition in_u (w : Z) (z : Z) : Prop := (0 ≤ z < 2 ^ w)%Z.

Definition in_s (w : Z) (z : Z) : Prop := (- 2 ^ (w - 1) ≤ z < 2 ^ (w - 1))%Z.

#[global] Instance in_u_dec w z : Decision (in_u w z).
Proof. unfold in_u. apply _. Defined.
#[global] Instance in_s_dec w z : Decision (in_s w z).
Proof. unfold in_s. apply _. Defined.

Lemma wrap_u_id w z : in_u w z -> wrap_u w z = z.
Proof. unfold in_u, wrap_u. intros H. by apply Z.mod_small. Qed.

Lemma wrap_u_range w z : (0 ≤ w)%Z -> in_u w (wrap_u w z).
Proof. intros Hw. apply Z.mod_pos_bound. by apply Z.pow_pos_nonneg. Qed.

Lemma wrap_s_id w z : (0 < w)%Z -> in_s w z -> wrap_s w z = z.
Proof.
  unfold in_s, wrap_s. intros Hw H.
  assert (E : (2 ^ w = 2 * 2 ^ (w - 1))%Z).
  { rewrite <- Z.pow_succ_r by lia. f_equal. lia. }
  rewrite Z.mod_small by lia. lia.
Qed.

(** ** Hint databases and tactics *)

Create HintDb acktor.
Create HintDb acktor_rw.

#[export] Hint Resolve wrap_u_range : acktor.

(** Case analysis on the first [match] or [if] of the goal, with the equation kept and
    the impossible branches closed. *)
Ltac split_match :=
  repeat (case_match; simplify_eq/=; try done).

(** Unfolds the operation named, splits its branches, and leaves the branches that
    need a lemma. *)
Tactic Notation "branches" constr(f) := unfold f in *; split_match.

(** Destructs every existential, conjunction and pair of the context. *)
Ltac deex := repeat match goal with
  | H : exists _, _ |- _ => destruct H
  | H : _ /\ _ |- _ => destruct H
  | p : _ * _ |- _ => destruct p
  end.

(** ** Lists *)

Section ListFacts.
Context {A B : Type}.

Lemma fold_left_ext_in (f g : B -> A -> B) l b :
  (forall b a, a ∈ l -> f b a = g b a) -> fold_left f l b = fold_left g l b.
Proof.
  revert b. induction l as [|x l IH]; intros b H; simpl; [done|].
  rewrite H by set_solver. apply IH. set_solver.
Qed.

Lemma fold_left_inv (P : B -> Prop) (f : B -> A -> B) l b :
  P b -> (forall b a, P b -> a ∈ l -> P (f b a)) -> P (fold_left f l b).
Proof.
  revert b. induction l as [|x l IH]; intros b Hb H; simpl; [done|].
  apply IH; [apply H; [done|set_solver]|]. intros b' a Hb' Ha. apply H; [done|set_solver].
Qed.

Lemma filter_keep_all (P : A -> Prop) `{forall x, Decision (P x)} (l : list A) :
  (forall x, x ∈ l -> P x) -> filter P l = l.
Proof.
  induction l as [|x l IH]; intros Hp; [done|].
  rewrite filter_cons_True by set_solver. f_equal. apply IH. set_solver.
Qed.

Lemma filter_drop_all (P : A -> Prop) `{forall x, Decision (P x)} (l : list A) :
  (forall x, x ∈ l -> ~ P x) -> filter P l = [].
Proof.
  induction l as [|x l IH]; intros Hp; [done|].
  rewrite filter_cons_False by set_solver. apply IH. set_solver.
Qed.

Lemma take_length_take k (l : list A) : take (length (take k l)) l = take k l.
Proof.
  destruct (decide (k <= length l)); [by rewrite length_take_le|].
  by rewrite !take_ge by (rewrite ?length_take; lia).
Qed.

Lemma drop_length_take k (l : list A) : drop (length (take k l)) l = drop k l.
Proof.
  destruct (decide (k <= length l)); [by rewrite length_take_le|].
  by rewrite !drop_ge by (rewrite ?length_take; lia).
Qed.

Lemma filter_split (P : A -> Prop) `{forall x, Decision (P x)} (l : list A) :
  l ≡ₚ filter P l ++ filter (fun x => ~ P x) l.
Proof.
  induction l as [|x l IH]; [done|]. destruct (decide (P x)).
  - rewrite filter_cons_True, (filter_cons_False (fun x => ~ P x)) by tauto. simpl. by f_equiv.
  - rewrite filter_cons_False, (filter_cons_True (fun x => ~ P x)) by done.
    by rewrite <- Permutation_middle, <- IH.
Qed.
End ListFacts.

(** ** Strings *)

(** [Display] of an unsigned integer: its decimal digits. *)
Definition u64_display (z : Z) : string := pretty z.

#[global] Instance u64_display_inj : Inj (=) (=) u64_display.
Proof. unfold u64_display. apply _. Qed.

Section StringFacts.
Implicit Types (s t u : string).

Lemma string_app_inj s t u : s +:+ t = s +:+ u -> t = u.
Proof. induction s as [|a s IH]; simpl; [done|]. intros [= E]. auto. Qed.

Lemma string_app_nil_r s : s +:+ "" = s.
Proof. induction s as [|a s IH]; [done|]. exact (f_equal (String a) IH). Qed.

Lemma string_app_assoc s t u : (s +:+ t) +:+ u = s +:+ (t +:+ u).
Proof. induction s as [|a s IH]; [done|]. exact (f_equal (String a) IH). Qed.
End StringFacts.
