(* ===== verification/TypeMap.v ===== *)
(** * The hasher of type maps

    Models acktor/src/utils/type_map.rs: [NopHasher], the hasher of [TypeMap] (and of the
    node's map of factories) that hands a single pre-hashed integer through. [TypeMap]
    itself is a [HashMap], which is a finite map here. *)

From S2P Require Import Prelude.

Record NopHasher : Type := mkNopHasher { hash : Z }.

Definition NopHasher_default : NopHasher := mkNopHasher 0.

Section NopHasher.
(** Whether the crate is compiled with debug assertions. *)
Context (debug_assertions : bool).
Implicit Types (h : NopHasher) (n : Z).

(** [debug_assert_eq!(self.hash, 0)] and the assignment that follows it. *)
Definition nop_store h (value : Z) : outcome NopHasher :=
  if debug_assertions && negb (hash h =? 0)%Z then Panicked "assertion `left == right` failed"
  else Done (mkNopHasher value).

Definition NopHasher_write_u8 n h : outcome NopHasher := nop_store h (wrap_u 64 n).
Definition NopHasher_write_u16 n h : outcome NopHasher := nop_store h (wrap_u 64 n).
Definition NopHasher_write_u32 n h : outcome NopHasher := nop_store h (wrap_u 64 n).
Definition NopHasher_write_u64 n h : outcome NopHasher := nop_store h n.
Definition NopHasher_write_u128 n h : outcome NopHasher := nop_store h (wrap_u 64 n).
Definition NopHasher_write_usize n h : outcome NopHasher := nop_store h (wrap_u 64 n).

Definition NopHasher_write (bytes : list Z) h : outcome NopHasher :=
  Panicked "NopHasher is only intended for pre-hashed integer values".

Definition NopHasher_finish h : Z := hash h.

(** What the [Hash] of a key feeds to its hasher. *)
Inductive HashWrite : Type :=
| WriteU8 (n : Z)
| WriteU16 (n : Z)
| WriteU32 (n : Z)
| WriteU64 (n : Z)
| WriteU128 (n : Z)
| WriteUsize (n : Z)
| WriteBytes (bytes : list Z).

Definition feed (w : HashWrite) h : outcome NopHasher :=
  match w with
  | WriteU8 n => NopHasher_write_u8 n h
  | WriteU16 n => NopHasher_write_u16 n h
  | WriteU32 n => NopHasher_write_u32 n h
  | WriteU64 n => NopHasher_write_u64 n h
  | WriteU128 n => NopHasher_write_u128 n h
  | WriteUsize n => NopHasher_write_usize n h
  | WriteBytes bytes => NopHasher_write bytes h
  end.

(** [BuildHasherDefault::hash_one]. *)
Fixpoint feed_all (ws : list HashWrite) h : outcome NopHasher :=
  match ws with
  | [] => Done h
  | w :: ws => let! h := feed w h in feed_all ws h
  end.

Definition hash_one (ws : list HashWrite) : outcome Z :=
  let! h := feed_all ws NopHasher_default in Done (NopHasher_finish h).

End NopHasher.

(** The integer a write carries and the number of its bits. *)
Definition write_int (w : HashWrite) : option (Z * Z) :=
  match w with
  | WriteU8 n => Some (n, 8)
  | WriteU16 n => Some (n, 16)
  | WriteU32 n => Some (n, 32)
  | WriteU64 n | WriteUsize n => Some (n, 64)
  | WriteU128 n => Some (n, 128)
  | WriteBytes _ => None
  end%Z.

(** A key that is one integer of at most 64 bits is its own hash, so distinct keys never
    collide; of a 128-bit key the low 64 bits are kept. *)
Lemma hash_one_integer debug_assertions w n bits :
  write_int w = Some (n, bits) -> in_u bits n -> hash_one debug_assertions [w] = Done (wrap_u 64 n).
Proof.
  unfold hash_one, in_u, wrap_u.
  destruct debug_assertions, w; intros [= <- <-] Hn; try done; try reflexivity;
    unfold hash_one; simpl; f_equal; symmetry; by apply Z.mod_small.
Qed.

Lemma hash_one_exact debug_assertions w n bits :
  write_int w = Some (n, bits) -> (bits <= 64)%Z -> in_u bits n -> hash_one debug_assertions [w] = Done n.
Proof.
  intros Hw Hb Hn. rewrite (hash_one_integer debug_assertions w n bits) by done. f_equal. apply wrap_u_id.
  unfold in_u in *. assert (2 ^ bits <= 2 ^ 64)%Z by (apply Z.pow_le_mono_r; lia). lia.
Qed.

(** A key of two integers trips the assertion of a debug build, unless the first is zero;
    a release build keeps the last. *)
Lemma hash_one_twice debug_assertions n n' :
  hash_one debug_assertions [WriteU64 n; WriteU64 n'] =
    if debug_assertions && negb (n =? 0)%Z then Panicked "assertion `left == right` failed" else Done n'.
Proof.
  destruct debug_assertions; [|reflexivity]. unfold hash_one. cbn. destruct n; reflexivity.
Qed.
