(* ===== verification/HashMap.v ===== *)
(** * The part of [std::collections::HashMap] the sources use

    A [HashMap<K, V>] is a finite map [gmap K V] (keys compare by [Eq], so the stored
    key and the key of a query are interchangeable). The entry API is modelled by the
    map that an entry borrows together with the key it was created for. Iteration
    visits the pairs in an order the standard library leaves open: an operation that
    iterates takes that order as an argument, and its theorems hold for every
    permutation of the map's pairs. *)

From S2P Require Import Prelude.

Section HashMap.
Context {K V : Type} `{Countable K}.

Implicit Types (m : gmap K V) (k : K) (v : V).

(** [HashMap::with_capacity], and [reserve] or a shrink: the capacity has no part in what
    the map holds. *)
Definition hm_with_capacity (capacity : nat) : gmap K V := ∅.
Definition hm_resize m : gmap K V := m.

(** [map.insert(k, v)]: the old value and the new map. *)
Definition hm_insert m k v : option V * gmap K V := (m !! k, <[k := v]> m).

(** [map.remove(&k)]. *)
Definition hm_remove m k : option V * gmap K V := (m !! k, delete k m).

(** [map.remove_entry(&k)]. *)
Definition hm_remove_entry m k : option (K * V) * gmap K V :=
  ((fun v => (k, v)) <$> m !! k, delete k m).

Definition hm_contains_key m k : bool := is_some (m !! k).

(** [hash_map::OccupiedEntry] and [hash_map::VacantEntry]: the borrowed map, the key,
    and for an occupied entry the value it holds. *)
Record hm_OccupiedEntry : Type := HmOccupied {
  occ_base : gmap K V;
  occ_key : K;
  occ_val : V;
}.

Record hm_VacantEntry : Type := HmVacant {
  vac_base : gmap K V;
  vac_key : K;
}.

Inductive hm_Entry : Type :=
| HmEntryOccupied (e : hm_OccupiedEntry)
| HmEntryVacant (e : hm_VacantEntry).

(** [map.entry(k)]. *)
Definition hm_entry m k : hm_Entry :=
  match m !! k with
  | Some v => HmEntryOccupied (HmOccupied m k v)
  | None => HmEntryVacant (HmVacant m k)
  end.

(** [entry.insert(v)] on a vacant entry: the map with the new pair. *)
Definition hm_vacant_insert (e : hm_VacantEntry) v : gmap K V :=
  <[vac_key e := v]> (vac_base e).

(** [entry.insert_entry(v)] on a vacant entry. *)
Definition hm_vacant_insert_entry (e : hm_VacantEntry) v : hm_OccupiedEntry :=
  HmOccupied (hm_vacant_insert e v) (vac_key e) v.

(** The occupied entry after its value was overwritten through [get_mut]. *)
Definition hm_occupied_set (e : hm_OccupiedEntry) v : hm_OccupiedEntry :=
  HmOccupied (<[occ_key e := v]> (occ_base e)) (occ_key e) v.

(** [entry.remove_entry()]: the pair and the map without it. *)
Definition hm_occupied_remove_entry (e : hm_OccupiedEntry) : (K * V) * gmap K V :=
  ((occ_key e, occ_val e), delete (occ_key e) (occ_base e)).

(** [map.retain(f)] for a closure with captured state [S], visiting [order]. *)
Fixpoint hm_retain {S} (f : S -> K -> V -> bool * V * S)
    (order : list (K * V)) (s : S) (m : gmap K V) : gmap K V * S :=
  match order with
  | [] => (m, s)
  | (k, v) :: rest =>
      let '(keep, v', s') := f s k v in
      hm_retain f rest s' (if keep then <[k := v']> m else delete k m)
  end.

(** Well-formed entries: what [hm_entry] returns. *)
Definition occ_wf (e : hm_OccupiedEntry) : Prop := occ_base e !! occ_key e = Some (occ_val e).
Definition vac_wf (e : hm_VacantEntry) : Prop := vac_base e !! vac_key e = None.

(** The pairs of an iteration order have pairwise distinct keys. *)
Lemma order_nodup m order : order ≡ₚ map_to_list m -> NoDup order.*1.
Proof. intros ->. apply NoDup_fst_map_to_list. Qed.

Lemma elem_of_order m order k v :
  order ≡ₚ map_to_list m -> (k, v) ∈ order <-> m !! k = Some v.
Proof. intros ->. apply elem_of_map_to_list. Qed.
End HashMap.

Arguments hm_OccupiedEntry K V {_ _}.
Arguments hm_VacantEntry K V {_ _}.
Arguments hm_Entry K V {_ _}.
