(* ===== verification/DoubleMap.v ===== *)
(** * [DoubleMap]: a map with two independent key types

    Models acktor-ipc/src/double_map.rs with its modules entry.rs, errors.rs and iter.rs:
    a primary map owned by the first key and an index from the second key back to it. *)

From S2P Require Import Prelude HashMap.

(** [KeyConflictError<K1, K2, V>]. *)
Inductive KeyConflictError (K1 K2 V : Type) : Type :=
| Key1Exists (k1 : K1) (k2 : K2) (v : V)
| Key2Exists (k1 : K1) (k2 : K2) (v : V)
| BothKeysExist (k1 : K1) (k2 : K2) (v : V).
Arguments Key1Exists {K1 K2 V} _ _ _.
Arguments Key2Exists {K1 K2 V} _ _ _.
Arguments BothKeysExist {K1 K2 V} _ _ _.

(** The value map owned by [K1] and the index from [K2] back to [K1]. *)
Record DoubleMap (K1 K2 V : Type) `{Countable K1, Countable K2} : Type := mkDoubleMap {
  primary : gmap K1 (K2 * V);
  secondary : gmap K2 K1;
}.
Arguments mkDoubleMap {K1 K2 V _ _ _ _} _ _.
Arguments primary {K1 K2 V _ _ _ _} _.
Arguments secondary {K1 K2 V _ _ _ _} _.

Section Operations.
Context {K1 K2 V : Type} `{Countable K1, Countable K2}.

Abbreviation DM := (DoubleMap K1 K2 V).
Implicit Types (m : DM) (v : V).

Definition DoubleMap_new : DM := mkDoubleMap ∅ ∅.

Definition DoubleMap_default : DM := DoubleMap_new.

(** Capacity: [cap1] and [cap2] are the capacities the two hash maps report; reserving and
    shrinking act on both maps and keep what they hold. *)
Definition DoubleMap_with_capacity (capacity : nat) : DM :=
  mkDoubleMap (hm_with_capacity capacity) (hm_with_capacity capacity).

Definition DoubleMap_capacity (cap1 : gmap K1 (K2 * V) -> nat) (cap2 : gmap K2 K1 -> nat) m : nat :=
  cap1 (primary m) `min` cap2 (secondary m).

Definition DoubleMap_reserve m (additional : nat) : DM :=
  mkDoubleMap (hm_resize (primary m)) (hm_resize (secondary m)).

Definition DoubleMap_shrink_to_fit m : DM :=
  mkDoubleMap (hm_resize (primary m)) (hm_resize (secondary m)).

Definition DoubleMap_shrink_to m (min_capacity : nat) : DM :=
  mkDoubleMap (hm_resize (primary m)) (hm_resize (secondary m)).

(** [try_reserve]: the answers of the two allocations. *)
Definition DoubleMap_try_reserve {TryReserveError} m (additional : nat)
    (alloc1 alloc2 : result unit TryReserveError) : result unit TryReserveError * DM :=
  match alloc1 with
  | Err e => (Err e, m)
  | Ok _ =>
      let m := mkDoubleMap (hm_resize (primary m)) (secondary m) in
      match alloc2 with
      | Err e => (Err e, m)
      | Ok _ => (Ok tt, mkDoubleMap (primary m) (hm_resize (secondary m)))
      end
  end.

Definition DoubleMap_len m : nat := size (primary m).

Definition DoubleMap_is_empty m : bool := bool_decide (primary m = ∅).

Definition DoubleMap_clear (m : DM) : DM := mkDoubleMap ∅ ∅.

(** Clears the map and hands out the pairs the primary map held, in [order]. *)
Definition DoubleMap_drain (order : list (K1 * (K2 * V))) (m : DM)
  : list (K1 * (K2 * V)) * DM := (order, mkDoubleMap ∅ ∅).

(** The closure of [retain] owns the secondary map while the primary map is being
    filtered. *)
Definition retain_closure {S} (f : S -> K1 -> K2 -> V -> bool * V * S)
    : gmap K2 K1 * S -> K1 -> K2 * V -> bool * (K2 * V) * (gmap K2 K1 * S) :=
  fun '(sec, s) k1 '(k2, v) =>
    let '(keep, v', s') := f s k1 k2 v in
    (keep, (k2, v'), ((if keep then sec else delete k2 sec), s')).

Definition DoubleMap_retain {S} (f : S -> K1 -> K2 -> V -> bool * V * S)
    (order : list (K1 * (K2 * V))) (s : S) (m : DM) : DM * S :=
  let '(prim, (sec, s')) :=
    hm_retain (retain_closure f) order (secondary m, s) (primary m) in
  (mkDoubleMap prim sec, s').

Definition DoubleMap_get_by_key1 m (k1 : K1) : option V := snd <$> primary m !! k1.

Definition DoubleMap_get_by_key2 m (k2 : K2) : option V :=
  k1 ← secondary m !! k2;
  snd <$> primary m !! k1.

Definition DoubleMap_get_by_keys m (k1 : K1) (k2 : K2) : option V :=
  '(k2_stored, v) ← primary m !! k1;
  if bool_decide (k2_stored = k2) then Some v else None.

Definition DoubleMap_get_key1_value m (k1 : K1) : option (K1 * V) :=
  (fun kv => (k1, kv.2)) <$> primary m !! k1.

Definition DoubleMap_get_key2_value m (k2 : K2) : option (K2 * V) :=
  k1 ← secondary m !! k2;
  '(_, v) ← primary m !! k1;
  Some (k2, v).

Definition DoubleMap_get_keys_value m (k1 : K1) (k2 : K2) : option (K1 * K2 * V) :=
  '(k2_stored, v) ← primary m !! k1;
  if bool_decide (k2_stored = k2) then Some (k1, k2_stored, v) else None.

Definition DoubleMap_contains_key1 m (k1 : K1) : bool := hm_contains_key (primary m) k1.

Definition DoubleMap_contains_key2 m (k2 : K2) : bool := hm_contains_key (secondary m) k2.

Definition DoubleMap_contains_keys m (k1 : K1) (k2 : K2) : bool := is_some (DoubleMap_get_by_keys m k1 k2).

(** The mutable accessors: the borrowed value and the map once the borrow ends. *)
Definition primary_borrow m (k1 : K1) (k2 : K2) v : mut_ref V DM :=
  MutRef v (fun v' => mkDoubleMap (<[k1 := (k2, v')]> (primary m)) (secondary m)).

Definition DoubleMap_get_mut_by_key1 m (k1 : K1) : option (mut_ref V DM) :=
  '(k2, v) ← primary m !! k1;
  Some (primary_borrow m k1 k2 v).

Definition DoubleMap_get_mut_by_key2 m (k2 : K2) : option (mut_ref V DM) :=
  k1 ← secondary m !! k2;
  '(k2_stored, v) ← primary m !! k1;
  Some (primary_borrow m k1 k2_stored v).

Definition DoubleMap_get_mut_by_keys m (k1 : K1) (k2 : K2) : option (mut_ref V DM) :=
  '(k2_stored, v) ← primary m !! k1;
  if bool_decide (k2_stored = k2) then Some (primary_borrow m k1 k2_stored v) else None.

Definition DoubleMap_remove_by_key1 m (k1 : K1) : option V * DM :=
  match hm_remove (primary m) k1 with
  | (None, _) => (None, m)
  | (Some (k2, value), prim) => (Some value, mkDoubleMap prim (delete k2 (secondary m)))
  end.

Definition expect_primary : string :=
  "primary map must contain key 1 whenever secondary map points to it".

Definition DoubleMap_remove_by_key2 m (k2 : K2) : outcome (option V * DM) :=
  match hm_remove (secondary m) k2 with
  | (None, _) => Done (None, m)
  | (Some k1, sec) =>
      let (r, prim) := hm_remove (primary m) k1 in
      let! (_, value) := expect r expect_primary in
      Done (Some value, mkDoubleMap prim sec)
  end.

Definition DoubleMap_remove_by_keys m (k1 : K1) (k2 : K2) : option V * DM :=
  match hm_remove_entry (primary m) k1 with
  | (None, _) => (None, m)
  | (Some (k1_stored, (k2_stored, value)), prim) =>
      if bool_decide (k2_stored ≠ k2)
      then (None, mkDoubleMap (<[k1_stored := (k2_stored, value)]> prim) (secondary m))
      else (Some value, mkDoubleMap prim (delete k2_stored (secondary m)))
  end.

Definition DoubleMap_remove_entry_by_key1 m (k1 : K1) : option (K1 * K2 * V) * DM :=
  match hm_remove_entry (primary m) k1 with
  | (None, _) => (None, m)
  | (Some (k1_stored, (k2, value)), prim) =>
      (Some (k1_stored, k2, value), mkDoubleMap prim (delete k2 (secondary m)))
  end.

Definition DoubleMap_remove_entry_by_key2 m (k2 : K2) : outcome (option (K1 * K2 * V) * DM) :=
  match hm_remove (secondary m) k2 with
  | (None, _) => Done (None, m)
  | (Some k1, sec) =>
      let (r, prim) := hm_remove_entry (primary m) k1 in
      let! (k1_stored, (k2_stored, value)) := expect r expect_primary in
      Done (Some (k1_stored, k2_stored, value), mkDoubleMap prim sec)
  end.

Definition DoubleMap_remove_entry_by_keys m (k1 : K1) (k2 : K2) : option (K1 * K2 * V) * DM :=
  match hm_remove_entry (primary m) k1 with
  | (None, _) => (None, m)
  | (Some (k1_stored, (k2_stored, value)), prim) =>
      if bool_decide (k2_stored ≠ k2)
      then (None, mkDoubleMap (<[k1_stored := (k2_stored, value)]> prim) (secondary m))
      else (Some (k1_stored, k2_stored, value),
            mkDoubleMap prim (delete k2_stored (secondary m)))
  end.

Definition DoubleMap_insert m (k1 : K1) (k2 : K2) v : result (option V) (KeyConflictError K1 K2 V) * DM :=
  match primary m !! k1 with
  | Some (existing_k2, _) =>
      if bool_decide (existing_k2 = k2) then
        let (old, prim) := hm_insert (primary m) k1 (k2, v) in
        (Ok (snd <$> old), mkDoubleMap prim (secondary m))
      else if hm_contains_key (secondary m) k2 then (Err (BothKeysExist k1 k2 v), m)
      else (Err (Key1Exists k1 k2 v), m)
  | None =>
      if hm_contains_key (secondary m) k2 then (Err (Key2Exists k1 k2 v), m)
      else
        let sec := (hm_insert (secondary m) k2 k1).2 in
        let prim := (hm_insert (primary m) k1 (k2, v)).2 in
        (Ok None, mkDoubleMap prim sec)
  end.

(** [impl Clone]: both internal maps are cloned. *)
Definition DoubleMap_clone m : DM := mkDoubleMap (primary m) (secondary m).

Definition DoubleMap_clone_from (m source : DM) : DM :=
  mkDoubleMap (primary source) (secondary source).

(** [impl PartialEq]: only the primary maps are compared. *)
Definition DoubleMap_eq `{EqDecision V} (m other : DM) : bool :=
  bool_decide (primary m = primary other).

(** [impl Index<&Q>]. *)
Definition DoubleMap_index m (k1 : K1) : outcome V :=
  expect (DoubleMap_get_by_key1 m k1) "no entry found for key".

(** [impl Extend<(K1, K2, V)>]: conflicting triples are dropped. *)
Definition DoubleMap_extend m (iter : list (K1 * K2 * V)) : DM :=
  let lower := length iter in
  let m := DoubleMap_reserve m lower in
  fold_left (fun m '(k1, k2, v) => (DoubleMap_insert m k1 k2 v).2) iter m.

(** [impl Extend<(&K1, &K2, &V)>]: the borrowed triples are copied. *)
Definition DoubleMap_extend_borrowed {R1 R2 R} (copy1 : R1 -> K1) (copy2 : R2 -> K2)
    (copy : R -> V) m (iter : list (R1 * R2 * R)) : DM :=
  DoubleMap_extend m ((fun '(k1, k2, v) => (copy1 k1, copy2 k2, copy v)) <$> iter).

Definition DoubleMap_from_iter (iter : list (K1 * K2 * V)) : DM :=
  DoubleMap_extend DoubleMap_new iter.

(** [impl From<[(K1, K2, V); N]>]. *)
Definition DoubleMap_from {N} (arr : vec (K1 * K2 * V) N) : DM :=
  DoubleMap_from_iter (vec_to_list arr).
End Operations.

(** ** The entry API (double_map/entry.rs)

    Both halves of an entry borrow one of the two maps; ending the borrows gives the
    [DoubleMap] made of the two bases. *)

Record OccupiedEntry (K1 K2 V : Type) `{Countable K1, Countable K2} : Type := mkOccupiedEntry {
  oe_primary : hm_OccupiedEntry K1 (K2 * V);
  oe_secondary : hm_OccupiedEntry K2 K1;
}.
Arguments mkOccupiedEntry {K1 K2 V _ _ _ _} _ _.
Arguments oe_primary {K1 K2 V _ _ _ _} _.
Arguments oe_secondary {K1 K2 V _ _ _ _} _.

Record VacantEntry (K1 K2 V : Type) `{Countable K1, Countable K2} : Type := mkVacantEntry {
  ve_primary : hm_VacantEntry K1 (K2 * V);
  ve_secondary : hm_VacantEntry K2 K1;
}.
Arguments mkVacantEntry {K1 K2 V _ _ _ _} _ _.
Arguments ve_primary {K1 K2 V _ _ _ _} _.
Arguments ve_secondary {K1 K2 V _ _ _ _} _.

Inductive Entry (K1 K2 V : Type) `{Countable K1, Countable K2} : Type :=
| Occupied (e : OccupiedEntry K1 K2 V)
| Vacant (e : VacantEntry K1 K2 V).
Arguments Occupied {K1 K2 V _ _ _ _} _.
Arguments Vacant {K1 K2 V _ _ _ _} _.

Section EntryApi.
Context {K1 K2 V : Type} `{Countable K1, Countable K2}.

Abbreviation DM := (DoubleMap K1 K2 V).
Implicit Types (m : DM) (v : V) (oe : OccupiedEntry K1 K2 V) (ve : VacantEntry K1 K2 V)
  (e : Entry K1 K2 V).

(** The map when the borrows of an entry end. *)
Definition OccupiedEntry_release oe : DM :=
  mkDoubleMap (occ_base (oe_primary oe)) (occ_base (oe_secondary oe)).

Definition VacantEntry_release ve : DM :=
  mkDoubleMap (vac_base (ve_primary ve)) (vac_base (ve_secondary ve)).

Definition Entry_release e : DM :=
  match e with
  | Occupied oe => OccupiedEntry_release oe
  | Vacant ve => VacantEntry_release ve
  end.

(** [DoubleMap::entry]. *)
Definition DoubleMap_entry m (key1 : K1) (key2 : K2)
    : outcome (result (Entry K1 K2 V) (KeyConflictError K1 K2 unit)) :=
  let key1_matches_key2 :=
    (fun p : K2 * V => bool_decide (p.1 = key2)) <$> primary m !! key1 in
  let key2_present := hm_contains_key (secondary m) key2 in
  match key1_matches_key2, key2_present with
  | Some true, _ =>
      match hm_entry (primary m) key1 with
      | HmEntryOccupied e1 =>
          match hm_entry (secondary m) key2 with
          | HmEntryOccupied e2 => Done (Ok (Occupied (mkOccupiedEntry e1 e2)))
          | HmEntryVacant _ =>
              Panicked
                "key 1's stored key 2 matches the argument, so secondary must contain it"
          end
      | HmEntryVacant _ => Panicked "primary.get just observed key 1 as present"
      end
  | None, false =>
      match hm_entry (primary m) key1 with
      | HmEntryVacant e1 =>
          match hm_entry (secondary m) key2 with
          | HmEntryVacant e2 => Done (Ok (Vacant (mkVacantEntry e1 e2)))
          | HmEntryOccupied _ =>
              Panicked "secondary.contains_key just observed key 2 as absent"
          end
      | HmEntryOccupied _ => Panicked "primary.get just observed key 1 as absent"
      end
  | Some false, true => Done (Err (BothKeysExist key1 key2 tt))
  | Some false, false => Done (Err (Key1Exists key1 key2 tt))
  | None, true => Done (Err (Key2Exists key1 key2 tt))
  end.

(** [OccupiedEntry]. *)
Definition OccupiedEntry_key1 oe : K1 := occ_key (oe_primary oe).
Definition OccupiedEntry_key2 oe : K2 := occ_key (oe_secondary oe).
Definition OccupiedEntry_keys oe : K1 * K2 := (OccupiedEntry_key1 oe, OccupiedEntry_key2 oe).
Definition OccupiedEntry_get oe : V := (occ_val (oe_primary oe)).2.

(** The entry after its value was overwritten through [&mut primary.get_mut().1]. *)
Definition OccupiedEntry_set oe v : OccupiedEntry K1 K2 V :=
  mkOccupiedEntry (hm_occupied_set (oe_primary oe) ((occ_val (oe_primary oe)).1, v))
    (oe_secondary oe).

Definition OccupiedEntry_get_mut oe : mut_ref V (OccupiedEntry K1 K2 V) :=
  MutRef (occ_val (oe_primary oe)).2 (OccupiedEntry_set oe).

Definition OccupiedEntry_into_mut oe : mut_ref V DM :=
  MutRef (occ_val (oe_primary oe)).2 (fun v => OccupiedEntry_release (OccupiedEntry_set oe v)).

(** [mem::replace(self.get_mut(), value)]. *)
Definition OccupiedEntry_insert oe v : V * OccupiedEntry K1 K2 V :=
  let r := OccupiedEntry_get_mut oe in (deref r, write_back r v).

Definition OccupiedEntry_remove_entry oe : (K1 * K2 * V) * DM :=
  let (_, sec) := hm_occupied_remove_entry (oe_secondary oe) in
  let '((key1, (key2, value)), prim) := hm_occupied_remove_entry (oe_primary oe) in
  ((key1, key2, value), mkDoubleMap prim sec).

Definition OccupiedEntry_remove oe : V * DM :=
  let '((_, _, value), m) := OccupiedEntry_remove_entry oe in (value, m).

(** [VacantEntry]. *)
Definition VacantEntry_key1 ve : K1 := vac_key (ve_primary ve).
Definition VacantEntry_key2 ve : K2 := vac_key (ve_secondary ve).
Definition VacantEntry_keys ve : K1 * K2 := (VacantEntry_key1 ve, VacantEntry_key2 ve).
Definition VacantEntry_into_keys ve : K1 * K2 :=
  (vac_key (ve_primary ve), vac_key (ve_secondary ve)).

Definition VacantEntry_insert ve v : mut_ref V DM :=
  let key1 := vac_key (ve_primary ve) in
  let key2 := vac_key (ve_secondary ve) in
  let sec := hm_vacant_insert (ve_secondary ve) key1 in
  MutRef v (fun v' => mkDoubleMap
    (<[key1 := (key2, v')]> (hm_vacant_insert (ve_primary ve) (key2, v))) sec).

Definition VacantEntry_insert_entry ve v : OccupiedEntry K1 K2 V :=
  let key1 := vac_key (ve_primary ve) in
  let key2 := vac_key (ve_secondary ve) in
  mkOccupiedEntry (hm_vacant_insert_entry (ve_primary ve) (key2, v))
    (hm_vacant_insert_entry (ve_secondary ve) key1).

(** [Entry]. *)
Definition Entry_key1 e : K1 :=
  match e with Occupied e => OccupiedEntry_key1 e | Vacant e => VacantEntry_key1 e end.

Definition Entry_key2 e : K2 :=
  match e with Occupied e => OccupiedEntry_key2 e | Vacant e => VacantEntry_key2 e end.

Definition Entry_keys e : K1 * K2 :=
  match e with Occupied e => OccupiedEntry_keys e | Vacant e => VacantEntry_keys e end.

Definition Entry_or_insert e (default : V) : mut_ref V DM :=
  match e with
  | Occupied e => OccupiedEntry_into_mut e
  | Vacant e => VacantEntry_insert e default
  end.

Definition Entry_or_insert_with e (default : unit -> V) : mut_ref V DM :=
  match e with
  | Occupied e => OccupiedEntry_into_mut e
  | Vacant e => VacantEntry_insert e (default tt)
  end.

Definition Entry_or_insert_with_keys e (default : K1 -> K2 -> V) : mut_ref V DM :=
  match e with
  | Occupied e => OccupiedEntry_into_mut e
  | Vacant e =>
      let (key1, key2) := VacantEntry_keys e in
      let v := default key1 key2 in
      VacantEntry_insert e v
  end.

(** [f] receives the [&mut V] of an occupied entry. *)
Definition Entry_and_modify e (f : V -> V) : Entry K1 K2 V :=
  match e with
  | Occupied oe =>
      let r := OccupiedEntry_get_mut oe in Occupied (write_back r (f (deref r)))
  | Vacant _ => e
  end.

Definition Entry_insert_entry e v : OccupiedEntry K1 K2 V :=
  match e with
  | Occupied e => (OccupiedEntry_insert e v).2
  | Vacant e => VacantEntry_insert_entry e v
  end.

Definition Entry_or_default e (default : V) : mut_ref V DM :=
  Entry_or_insert_with e (fun _ => default).
End EntryApi.

(** ** Iterators (double_map/iter.rs)

    Every iterator type wraps an iterator of the primary map and projects the pairs it
    yields; the wrapped [hash_map] iterator is the list of the pairs still to come. *)

Section Iterators.
Context {K1 K2 V : Type} `{Countable K1, Countable K2}.

Abbreviation pairs := (list (K1 * (K2 * V))).

(** One step of a wrapped iterator followed by the projection of its item. *)
Definition next_map {Item} (f : K1 * (K2 * V) -> Item) (inner : pairs)
    : option Item * pairs :=
  match inner with
  | [] => (None, [])
  | kv :: rest => (Some (f kv), rest)
  end.

Definition to_triple : K1 * (K2 * V) -> K1 * K2 * V := fun '(k1, (k2, v)) => (k1, k2, v).
Definition to_keys : K1 * (K2 * V) -> K1 * K2 := fun '(k1, (k2, _)) => (k1, k2).
Definition to_value : K1 * (K2 * V) -> V := fun '(_, (_, v)) => v.

Definition IntoIter_next : pairs -> option (K1 * K2 * V) * pairs := next_map to_triple.
Definition Iter_next : pairs -> option (K1 * K2 * V) * pairs := next_map to_triple.
Definition Drain_next : pairs -> option (K1 * K2 * V) * pairs := next_map to_triple.
Definition Keys_next : pairs -> option (K1 * K2) * pairs := next_map to_keys.
Definition IntoKeys_next : pairs -> option (K1 * K2) * pairs := next_map to_keys.
Definition Values_next : pairs -> option V * pairs := next_map to_value.
Definition IntoValues_next : pairs -> option V * pairs := next_map to_value.

(** [size_hint] and [ExactSizeIterator::len] of every iterator type. *)
Definition iter_size_hint (inner : pairs) : nat * option nat :=
  (length inner, Some (length inner)).
Definition iter_len (inner : pairs) : nat := length inner.

Definition IntoIter_len : pairs -> nat := iter_len.
Definition Iter_len : pairs -> nat := iter_len.
Definition IterMut_len : pairs -> nat := iter_len.
Definition Drain_len : pairs -> nat := iter_len.
Definition Keys_len : pairs -> nat := iter_len.
Definition IntoKeys_len : pairs -> nat := iter_len.
Definition Values_len : pairs -> nat := iter_len.
Definition ValuesMut_len : pairs -> nat := iter_len.
Definition IntoValues_len : pairs -> nat := iter_len.

(** Running an iterator to its end; [fuel] bounds the calls of [next]. *)
Fixpoint collect {Item} (next : pairs -> option Item * pairs) (fuel : nat) (inner : pairs)
    : list Item :=
  match fuel with
  | O => []
  | S fuel' =>
      match next inner with
      | (None, _) => []
      | (Some x, inner') => x :: collect next fuel' inner'
      end
  end.

(** A consumer of [iter_mut] overwrites every [&mut V] it is handed; the keys are only
    readable. *)
Fixpoint IterMut_for_each {S} (f : S -> K1 -> K2 -> V -> V * S) (inner : pairs) (s : S)
    (m : DoubleMap K1 K2 V) : DoubleMap K1 K2 V * S :=
  match inner with
  | [] => (m, s)
  | (k1, (k2, v)) :: rest =>
      let (v', s') := f s k1 k2 v in
      IterMut_for_each f rest s'
        (mkDoubleMap (<[k1 := (k2, v')]> (primary m)) (secondary m))
  end.

(** [values_mut] is the same traversal with the keys hidden. *)
Definition ValuesMut_for_each {S} (f : S -> V -> V * S) (inner : pairs) (s : S)
    (m : DoubleMap K1 K2 V) : DoubleMap K1 K2 V * S :=
  IterMut_for_each (fun s _ _ v => f s v) inner s m.

(** [into_iter().collect()], [into_keys()], [into_values()] over an iteration order. *)
Definition DoubleMap_into_iter (order : pairs) : list (K1 * K2 * V) :=
  collect IntoIter_next (S (length order)) order.
Definition DoubleMap_iter (order : pairs) : list (K1 * K2 * V) :=
  collect Iter_next (S (length order)) order.
Definition DoubleMap_keys (order : pairs) : list (K1 * K2) :=
  collect Keys_next (S (length order)) order.
Definition DoubleMap_into_keys (order : pairs) : list (K1 * K2) :=
  collect IntoKeys_next (S (length order)) order.
Definition DoubleMap_values (order : pairs) : list V :=
  collect Values_next (S (length order)) order.
Definition DoubleMap_into_values (order : pairs) : list V :=
  collect IntoValues_next (S (length order)) order.
End Iterators.
