(* ===== verification/DoubleMapFacts.v ===== *)
(** * [DoubleMap]: the synchronisation invariant *)

From S2P Require Import Prelude HashMap DoubleMap.

(** Resolution in [dm] is up to syntax: the operations stay folded. *)
Create HintDb dm discriminated.
#[export] Hint Constants Opaque : dm.

Section Invariant.
Context {K1 K2 V : Type} `{Countable K1, Countable K2}.

Abbreviation DM := (DoubleMap K1 K2 V).
Implicit Types (m : DM) (v : V).

(** The two internal maps are in sync: the index sends [k2] to [k1] exactly when the
    entry of [k1] carries [k2]. *)
Definition Inv m : Prop :=
  forall k1 k2, secondary m !! k2 = Some k1 <-> exists v, primary m !! k1 = Some (k2, v).

Lemma Inv_ps m k1 k2 v : Inv m -> primary m !! k1 = Some (k2, v) -> secondary m !! k2 = Some k1.
Proof. intros Hi Hp. apply Hi. eauto. Qed.

Lemma Inv_sp m k1 k2 :
  Inv m -> secondary m !! k2 = Some k1 -> exists v, primary m !! k1 = Some (k2, v).
Proof. intros Hi Hs. by apply Hi. Qed.

(** A key of the index belongs to at most one entry. *)
Lemma Inv_inj m k1 k1' k2 v v' :
  Inv m -> primary m !! k1 = Some (k2, v) -> primary m !! k1' = Some (k2, v') -> k1 = k1'.
Proof. intros Hi H1 H2. apply Inv_ps in H1, H2; [|done..]. congruence. Qed.

Lemma Inv_empty : Inv (mkDoubleMap ∅ ∅).
Proof. intros k1 k2. simpl. rewrite lookup_empty. split; [done|]. intros [v Hv]. done. Qed.

(** Overwriting the value of an entry keeps its keys. *)
Lemma Inv_update m k1 k2 v v' :
  Inv m -> primary m !! k1 = Some (k2, v) ->
  Inv (mkDoubleMap (<[k1 := (k2, v')]> (primary m)) (secondary m)).
Proof.
  intros Hi Hp k1' k2'. simpl. rewrite (Hi k1' k2').
  destruct (decide (k1 = k1')) as [<-|Hne]; simplify_map_eq; [|done].
  split; intros [w Hw]; simplify_eq; eauto.
Qed.

(** Adding an entry for two fresh keys. *)
Lemma Inv_add m k1 k2 v :
  Inv m -> primary m !! k1 = None -> secondary m !! k2 = None ->
  Inv (mkDoubleMap (<[k1 := (k2, v)]> (primary m)) (<[k2 := k1]> (secondary m))).
Proof.
  intros Hi Hp Hs k1' k2'. simpl.
  destruct (decide (k1 = k1')) as [<-|Hne], (decide (k2 = k2')) as [<-|Hne2];
    simplify_map_eq.
  - naive_solver.
  - split; [|naive_solver]. intros Hs'. apply Inv_sp in Hs' as [? ?]; [|done]. congruence.
  - split; [naive_solver|]. intros [w Hw]. apply Inv_ps in Hw; [|done]. congruence.
  - apply Hi.
Qed.

(** Deleting an entry from both maps. *)
Lemma Inv_del m k1 k2 v :
  Inv m -> primary m !! k1 = Some (k2, v) ->
  Inv (mkDoubleMap (delete k1 (primary m)) (delete k2 (secondary m))).
Proof.
  intros Hi Hp k1' k2'. simpl.
  destruct (decide (k1 = k1')) as [<-|Hne], (decide (k2 = k2')) as [<-|Hne2];
    simplify_map_eq.
  - naive_solver.
  - split; [|naive_solver]. intros Hs'. apply Inv_sp in Hs' as [? ?]; [|done]. congruence.
  - split; [naive_solver|]. intros [w Hw]. destruct Hne. by eapply Inv_inj.
  - apply Hi.
Qed.

(** Putting back an entry that was just removed restores the map. *)
Lemma reinsert m k1 k2 v :
  primary m !! k1 = Some (k2, v) ->
  mkDoubleMap (<[k1 := (k2, v)]> (delete k1 (primary m))) (secondary m) = m.
Proof.
  intros Hp. destruct m as [p s]. simpl in *. f_equal.
  rewrite insert_delete_eq. by apply insert_id.
Qed.
End Invariant.

#[export] Hint Resolve Inv_empty Inv_update Inv_add Inv_del Inv_ps : dm.

(** ** Every operation keeps the maps in sync *)

Section Preservation.
Context {K1 K2 V : Type} `{Countable K1, Countable K2}.

Abbreviation DM := (DoubleMap K1 K2 V).
Implicit Types (m : DM) (v : V).

Lemma hm_contains_false {K B} `{Countable K} (m : gmap K B) k :
  hm_contains_key m k = false <-> m !! k = None.
Proof. unfold hm_contains_key. by destruct (m !! k). Qed.

Lemma hm_contains_true {K B} `{Countable K} (m : gmap K B) k :
  hm_contains_key m k = true <-> is_Some (m !! k).
Proof. unfold hm_contains_key, is_Some. destruct (m !! k); naive_solver. Qed.

Lemma insert_Inv m k1 k2 v : Inv m -> Inv (DoubleMap_insert m k1 k2 v).2.
Proof.
  intros Hi. branches @DoubleMap_insert; simplify_eq/=.
  - case_bool_decide; simplify_eq/=. eauto with dm.
  - apply Inv_add; [done..|]. by apply hm_contains_false.
Qed.

(** The removals: an absent key leaves the map alone, a present one deletes its entry
    from both maps, and a mismatched pair of keys puts the entry back. *)
Lemma remove_entry_by_key1_spec m k1 :
  Inv m ->
  DoubleMap_remove_entry_by_key1 m k1 =
    match primary m !! k1 with
    | None => (None, m)
    | Some (k2, v) =>
        (Some (k1, k2, v), mkDoubleMap (delete k1 (primary m)) (delete k2 (secondary m)))
    end.
Proof. intros _. unfold DoubleMap_remove_entry_by_key1, hm_remove_entry. by split_match. Qed.

Lemma remove_by_key1_entry m k1 :
  DoubleMap_remove_by_key1 m k1 =
    let (r, m') := DoubleMap_remove_entry_by_key1 m k1 in (snd <$> r, m').
Proof.
  unfold DoubleMap_remove_by_key1, DoubleMap_remove_entry_by_key1, hm_remove, hm_remove_entry.
  destruct (primary m !! k1) as [[k2 v]|]; done.
Qed.

Lemma remove_entry_by_key2_spec m k2 :
  Inv m ->
  DoubleMap_remove_entry_by_key2 m k2 =
    match secondary m !! k2 with
    | None => Done (None, m)
    | Some k1 => Done (DoubleMap_remove_entry_by_key1 m k1)
    end.
Proof.
  intros Hi. unfold DoubleMap_remove_entry_by_key2, DoubleMap_remove_entry_by_key1, hm_remove,
    hm_remove_entry.
  destruct (secondary m !! k2) as [k1|] eqn:Es; [|done].
  apply Inv_sp in Es as [v Ev]; [|done]. by rewrite Ev.
Qed.

Lemma remove_by_key2_entry m k2 :
  DoubleMap_remove_by_key2 m k2 =
    let! (r, m') := DoubleMap_remove_entry_by_key2 m k2 in Done (snd <$> r, m').
Proof.
  unfold DoubleMap_remove_by_key2, DoubleMap_remove_entry_by_key2, hm_remove, hm_remove_entry.
  destruct (secondary m !! k2) as [k1|]; [|done].
  destruct (primary m !! k1) as [[k2' v]|]; done.
Qed.

Lemma remove_entry_by_keys_spec m k1 k2 :
  Inv m ->
  DoubleMap_remove_entry_by_keys m k1 k2 =
    match DoubleMap_get_by_keys m k1 k2 with
    | None => (None, m)
    | Some _ => DoubleMap_remove_entry_by_key1 m k1
    end.
Proof.
  intros Hi. unfold DoubleMap_remove_entry_by_keys, DoubleMap_get_by_keys,
    DoubleMap_remove_entry_by_key1, hm_remove_entry.
  destruct (primary m !! k1) as [[k2' v]|] eqn:Ep; simpl; [|done].
  repeat case_bool_decide; try done. by rewrite reinsert.
Qed.

Lemma remove_by_keys_entry m k1 k2 :
  DoubleMap_remove_by_keys m k1 k2 =
    let (r, m') := DoubleMap_remove_entry_by_keys m k1 k2 in (snd <$> r, m').
Proof.
  unfold DoubleMap_remove_by_keys, DoubleMap_remove_entry_by_keys, hm_remove_entry.
  destruct (primary m !! k1) as [[k2' v]|]; simpl; [|done]. by case_bool_decide.
Qed.

Lemma remove_entry_by_key1_Inv m k1 : Inv m -> Inv (DoubleMap_remove_entry_by_key1 m k1).2.
Proof. intros Hi. rewrite remove_entry_by_key1_spec by done. split_match. eauto with dm. Qed.

Lemma remove_by_key1_Inv m k1 : Inv m -> Inv (DoubleMap_remove_by_key1 m k1).2.
Proof.
  intros Hi. rewrite remove_by_key1_entry. pose proof (remove_entry_by_key1_Inv m k1 Hi).
  by destruct (DoubleMap_remove_entry_by_key1 m k1).
Qed.

Lemma remove_entry_by_key2_Inv m k2 :
  Inv m -> exists r m', DoubleMap_remove_entry_by_key2 m k2 = Done (r, m') /\ Inv m'.
Proof.
  intros Hi. rewrite remove_entry_by_key2_spec by done.
  destruct (secondary m !! k2) as [k1|]; [|eauto].
  pose proof (remove_entry_by_key1_Inv m k1 Hi).
  destruct (DoubleMap_remove_entry_by_key1 m k1); eauto.
Qed.

Lemma remove_by_key2_Inv m k2 :
  Inv m -> exists r m', DoubleMap_remove_by_key2 m k2 = Done (r, m') /\ Inv m'.
Proof.
  intros Hi. rewrite remove_by_key2_entry.
  destruct (remove_entry_by_key2_Inv m k2 Hi) as (r & m' & -> & Hm'). simpl. eauto.
Qed.

Lemma remove_entry_by_keys_Inv m k1 k2 :
  Inv m -> Inv (DoubleMap_remove_entry_by_keys m k1 k2).2.
Proof.
  intros Hi. rewrite remove_entry_by_keys_spec by done.
  case_match; [by apply remove_entry_by_key1_Inv|done].
Qed.

Lemma remove_by_keys_Inv m k1 k2 : Inv m -> Inv (DoubleMap_remove_by_keys m k1 k2).2.
Proof.
  intros Hi. rewrite remove_by_keys_entry. pose proof (remove_entry_by_keys_Inv m k1 k2 Hi).
  by destruct (DoubleMap_remove_entry_by_keys m k1 k2).
Qed.

(** A mutable borrow only changes the value of the entry it points to. *)
(** Reserving and shrinking, whether they succeed or not, keep the content. *)
Lemma reserve_id m n : DoubleMap_reserve m n = m.
Proof. by destruct m. Qed.

Lemma try_reserve_spec {E} m n (a1 a2 : result unit E) :
  DoubleMap_try_reserve m n a1 a2 = (match a1 with Ok _ => a2 | Err e => Err e end, m).
Proof. by destruct m, a1 as [[]|], a2 as [[]|]. Qed.

Lemma reserve_Inv m n : Inv m -> Inv (DoubleMap_reserve m n).
Proof. by rewrite reserve_id. Qed.

Lemma try_reserve_Inv {E} m n (a1 a2 : result unit E) :
  Inv m -> Inv (DoubleMap_try_reserve m n a1 a2).2.
Proof. by rewrite try_reserve_spec. Qed.

Lemma get_mut_by_key1_Inv m k1 r v :
  Inv m -> DoubleMap_get_mut_by_key1 m k1 = Some r -> Inv (write_back r v).
Proof.
  unfold DoubleMap_get_mut_by_key1. intros Hi Hr.
  destruct (primary m !! k1) as [[k2 w]|] eqn:Ep; simplify_eq/=. eauto with dm.
Qed.

Lemma get_mut_by_key2_Inv m k2 r v :
  Inv m -> DoubleMap_get_mut_by_key2 m k2 = Some r -> Inv (write_back r v).
Proof.
  unfold DoubleMap_get_mut_by_key2. intros Hi Hr.
  destruct (secondary m !! k2) as [k1|] eqn:Es; simplify_eq/=.
  destruct (primary m !! k1) as [[k2' w]|] eqn:Ep; simplify_eq/=. eauto with dm.
Qed.

Lemma get_mut_by_keys_Inv m k1 k2 r v :
  Inv m -> DoubleMap_get_mut_by_keys m k1 k2 = Some r -> Inv (write_back r v).
Proof.
  unfold DoubleMap_get_mut_by_keys. intros Hi Hr.
  destruct (primary m !! k1) as [[k2' w]|] eqn:Ep; simplify_eq/=.
  case_bool_decide; simplify_eq/=. eauto with dm.
Qed.

Lemma extend_fold m l :
  DoubleMap_extend m l = fold_left (fun m '(k1, k2, v) => (DoubleMap_insert m k1 k2 v).2) l m.
Proof. unfold DoubleMap_extend. by rewrite reserve_id. Qed.

Lemma extend_Inv m l : Inv m -> Inv (DoubleMap_extend m l).
Proof.
  intros Hi. unfold DoubleMap_extend. apply (fold_left_inv Inv); [done|]. intros m' [[k1 k2] v] Hm' _. by apply insert_Inv.
Qed.

(** The decisions a stateful closure of [retain] takes along an iteration order: the
    key, whether the entry is kept, its second key and the value left in it. *)
Fixpoint decisions {S} (f : S -> K1 -> K2 -> V -> bool * V * S)
    (order : list (K1 * (K2 * V))) (s : S) : list (K1 * (bool * (K2 * V))) * S :=
  match order with
  | [] => ([], s)
  | (k1, (k2, v)) :: rest =>
      let '(keep, v', s') := f s k1 k2 v in
      let (ds, s'') := decisions f rest s' in
      ((k1, (keep, (k2, v'))) :: ds, s'')
  end.

Lemma decisions_keys {S} (f : S -> K1 -> K2 -> V -> bool * V * S) order s :
  (decisions f order s).1.*1 = order.*1.
Proof.
  revert s. induction order as [|[k1 [k2 v]] order IH]; intros s; simpl; [done|].
  destruct (f s k1 k2 v) as [[keep v'] s']. specialize (IH s').
  destruct (decisions f order s') as [ds s'']; simpl in *. by f_equal.
Qed.

(** Processing one pair of the order, kept with a new value or dropped from both maps. *)
Lemma visit_Inv (prim : gmap K1 (K2 * V)) sec k1 k2 v v' (keep : bool) :
  Inv (mkDoubleMap prim sec) -> prim !! k1 = Some (k2, v) ->
  Inv (mkDoubleMap (if keep then <[k1 := (k2, v')]> prim else delete k1 prim)
                   (if keep then sec else delete k2 sec)).
Proof.
  intros Hi Hp. destruct keep.
  - by apply (Inv_update (mkDoubleMap prim sec) k1 k2 v v').
  - by apply (Inv_del (mkDoubleMap prim sec) k1 k2 v).
Qed.

(** What [retain] computes from any starting point whose remaining pairs are still in
    the map. *)
Lemma retain_loop {S} (f : S -> K1 -> K2 -> V -> bool * V * S) order s
    (prim : gmap K1 (K2 * V)) sec :
  Inv (mkDoubleMap prim sec) -> NoDup order.*1 ->
  (forall k kv, (k, kv) ∈ order -> prim !! k = Some kv) ->
  let '(prim', (sec', s')) := hm_retain (retain_closure f) order (sec, s) prim in
  Inv (mkDoubleMap prim' sec') /\
  s' = (decisions f order s).2 /\
  (forall k, k ∉ order.*1 -> prim' !! k = prim !! k) /\
  (forall k keep kv, (k, (keep, kv)) ∈ (decisions f order s).1 ->
    prim' !! k = if keep : bool then Some kv else None).
Proof.
  revert s prim sec. induction order as [|[k1 [k2 v]] order IH]; intros s prim sec Hi Hnd Hin.
  { simpl. split_and!; try done. intros. by set_unfold. }
  simpl. destruct (f s k1 k2 v) as [[keep v'] s'] eqn:Ef.
  apply NoDup_cons in Hnd as [Hk1 Hnd].
  assert (Hp : prim !! k1 = Some (k2, v)) by (apply Hin; set_solver).
  set (prim1 := if keep then <[k1 := (k2, v')]> prim else delete k1 prim).
  set (sec1 := if keep then sec else delete k2 sec).
  assert (Hother : forall k, k ≠ k1 -> prim1 !! k = prim !! k).
  { intros k Hk. unfold prim1. destruct keep; by simplify_map_eq. }
  specialize (IH s' prim1 sec1 (visit_Inv prim sec k1 k2 v v' keep Hi Hp) Hnd).
  destruct (hm_retain (retain_closure f) order (sec1, s') prim1) as [prim' [sec' s'']].
  destruct (decisions f order s') as [ds s3] eqn:Eds; simpl in *.
  destruct IH as (HI & -> & Hout & Hdec).
  { intros k kv Hkv. rewrite Hother; [apply Hin; set_solver|].
    intros ->. apply Hk1. apply (list_elem_of_fmap_2 fst _ _ Hkv). }
  split_and!; [done|done| |].
  - intros k Hk. rewrite Hout, Hother by set_solver. done.
  - intros k kp kv [Heq|Hkv]%elem_of_cons; [|by eapply Hdec]. simplify_eq.
    rewrite Hout by done. unfold prim1. destruct keep; by simplify_map_eq.
Qed.

Lemma retain_spec {S} (f : S -> K1 -> K2 -> V -> bool * V * S) order s m :
  Inv m -> order ≡ₚ map_to_list (primary m) ->
  let '(m', s') := DoubleMap_retain f order s m in
  Inv m' /\ s' = (decisions f order s).2 /\
  (forall k, primary m !! k = None -> primary m' !! k = None) /\
  (forall k keep kv, (k, (keep, kv)) ∈ (decisions f order s).1 ->
    primary m' !! k = if keep : bool then Some kv else None).
Proof.
  intros Hi Ho. unfold DoubleMap_retain. destruct m as [prim sec]; simpl in *.
  pose proof (retain_loop f order s prim sec Hi (order_nodup _ _ Ho)) as Hl.
  destruct (hm_retain (retain_closure f) order (sec, s) prim) as [prim' [sec' s']].
  destruct Hl as (HI & Hs & Hout & Hdec).
  { intros k kv. by apply elem_of_order. }
  split_and!; [done..| |done]. intros k Hk. rewrite Hout; [done|].
  intros ([k' kv] & -> & Hkv)%list_elem_of_fmap.
  apply (elem_of_order _ _ _ _ Ho) in Hkv. simpl in *. congruence.
Qed.

Lemma retain_Inv {S} (f : S -> K1 -> K2 -> V -> bool * V * S) order s m :
  Inv m -> order ≡ₚ map_to_list (primary m) -> Inv (DoubleMap_retain f order s m).1.
Proof.
  intros Hi Ho. pose proof (retain_spec f order s m Hi Ho) as Hr.
  destruct (DoubleMap_retain f order s m). apply Hr.
Qed.

Lemma decisions_second {S} (f : S -> K1 -> K2 -> V -> bool * V * S) order s k1 keep k2 v :
  (k1, (keep, (k2, v))) ∈ (decisions f order s).1 -> exists w, (k1, (k2, w)) ∈ order.
Proof.
  revert s. induction order as [|[a [b w]] order IH]; intros s; simpl; [set_solver|].
  destruct (f s a b w) as [[kp v'] s']. specialize (IH s').
  destruct (decisions f order s') as [ds s'']; simpl in *.
  intros [?|?]%elem_of_cons; simplify_eq; set_solver.
Qed.

(** [retain] creates no entry: what is left was there, under the same pair of keys. *)
Lemma retain_origin {S} (f : S -> K1 -> K2 -> V -> bool * V * S) order s m k1 k2 v :
  Inv m -> order ≡ₚ map_to_list (primary m) ->
  primary (DoubleMap_retain f order s m).1 !! k1 = Some (k2, v) ->
  exists u, primary m !! k1 = Some (k2, u).
Proof.
  intros Hi Ho Hp. pose proof (retain_spec f order s m Hi Ho) as Hs.
  destruct (DoubleMap_retain f order s m) as [m' s']. simpl in Hp.
  destruct Hs as (_ & _ & Hnone & Hdec).
  destruct (primary m !! k1) as [[b w]|] eqn:Ep; [|rewrite Hnone in Hp by done; done].
  assert (Hin : k1 ∈ (decisions f order s).1.*1).
  { rewrite decisions_keys. apply (elem_of_order _ _ _ _ Ho) in Ep.
    apply (list_elem_of_fmap_2 fst _ _ Ep). }
  apply list_elem_of_fmap in Hin as ([? [keep [b' v']]] & -> & Hd). simpl in *.
  pose proof (Hdec _ _ _ Hd) as Hp'. rewrite Hp in Hp'. destruct keep; simplify_eq.
  apply decisions_second in Hd as [u Hu]. apply (elem_of_order _ _ _ _ Ho) in Hu.
  eexists. by rewrite <- Hu, Ep.
Qed.

(** A closure without state decides every entry by itself. *)
Lemma decisions_pure (f : K1 -> K2 -> V -> bool * V) order :
  (decisions (fun (_ : unit) k1 k2 v => (f k1 k2 v, tt)) order tt).1 =
  (fun '(k1, (k2, v)) => let (keep, v') := f k1 k2 v in (k1, (keep, (k2, v')))) <$> order.
Proof.
  induction order as [|[k1 [k2 v]] order IH]; simpl; [done|].
  destruct (f k1 k2 v) as [keep v'].
  destruct (decisions _ order tt) as [ds s]. simpl in *. by f_equal.
Qed.

Lemma retain_stateless (f : K1 -> K2 -> V -> bool * V) order m k1 :
  Inv m -> order ≡ₚ map_to_list (primary m) ->
  primary (DoubleMap_retain (fun (_ : unit) k1 k2 v => (f k1 k2 v, tt)) order tt m).1 !! k1 =
    '(k2, v) ← primary m !! k1;
    let (keep, v') := f k1 k2 v in if keep then Some (k2, v') else None.
Proof.
  intros Hi Ho.
  pose proof (retain_spec (fun (_ : unit) k1 k2 v => (f k1 k2 v, tt)) order tt m Hi Ho) as Hs.
  rewrite decisions_pure in Hs. destruct (DoubleMap_retain _ _ _ _) as [m' s'].
  destruct Hs as (_ & _ & Hnone & Hdec). simpl.
  destruct (primary m !! k1) as [[k2 v]|] eqn:Ep; simpl; [|by apply Hnone].
  destruct (f k1 k2 v) as [keep v'] eqn:Ef.
  apply (Hdec k1 keep (k2, v')). apply (elem_of_order _ _ _ _ Ho) in Ep.
  apply list_elem_of_fmap. exists (k1, (k2, v)). by rewrite Ef.
Qed.

(** One that changes no value filters the map. *)
Lemma retain_pure (p : K1 -> K2 -> V -> bool) order m k1 :
  Inv m -> order ≡ₚ map_to_list (primary m) ->
  primary (DoubleMap_retain (fun (_ : unit) k1 k2 v => (p k1 k2 v, v, tt)) order tt m).1 !! k1 =
    '(k2, v) ← primary m !! k1; if p k1 k2 v then Some (k2, v) else None.
Proof. apply (retain_stateless (fun k1 k2 v => (p k1 k2 v, v))). Qed.

(** [iter_mut] is [retain] with a closure that keeps every entry. *)
Lemma iter_mut_retain {S} (f : S -> K1 -> K2 -> V -> V * S) order s m :
  IterMut_for_each f order s m =
  DoubleMap_retain (fun s k1 k2 v => let (v', s') := f s k1 k2 v in (true, v', s')) order s m.
Proof.
  unfold DoubleMap_retain. destruct m as [prim sec]; simpl.
  revert s prim. induction order as [|[k1 [k2 v]] order IH]; intros s prim; simpl; [done|].
  destruct (f s k1 k2 v) as [v' s']; simpl. apply IH.
Qed.

Lemma iter_mut_Inv {S} (f : S -> K1 -> K2 -> V -> V * S) order s m :
  Inv m -> order ≡ₚ map_to_list (primary m) -> Inv (IterMut_for_each f order s m).1.
Proof. intros. rewrite iter_mut_retain. by apply retain_Inv. Qed.
End Preservation.

(** ** The entry API *)

Section EntryFacts.
Context {K1 K2 V : Type} `{Countable K1, Countable K2}.

Abbreviation DM := (DoubleMap K1 K2 V).
Implicit Types (m : DM) (v : V) (oe : OccupiedEntry K1 K2 V) (ve : VacantEntry K1 K2 V)
  (e : Entry K1 K2 V).

(** An occupied entry points to one stored pair of keys from both maps; a vacant entry
    to two absent keys; the maps it borrows are in sync. *)
Definition OccupiedEntry_wf oe : Prop :=
  Inv (OccupiedEntry_release oe) /\ occ_wf (oe_primary oe) /\ occ_wf (oe_secondary oe) /\
  (occ_val (oe_primary oe)).1 = OccupiedEntry_key2 oe /\
  occ_val (oe_secondary oe) = OccupiedEntry_key1 oe.

Definition VacantEntry_wf ve : Prop :=
  Inv (VacantEntry_release ve) /\ vac_wf (ve_primary ve) /\ vac_wf (ve_secondary ve).

Definition Entry_wf e : Prop :=
  match e with Occupied oe => OccupiedEntry_wf oe | Vacant ve => VacantEntry_wf ve end.

(** [entry] under the invariant: it never reaches an [unreachable!] and classifies the
    two keys exactly like [insert]. *)
Lemma entry_cases m k1 k2 :
  Inv m ->
  DoubleMap_entry m k1 k2 =
    match primary m !! k1 with
    | Some (k2', v) =>
        if bool_decide (k2' = k2) then
          Done (Ok (Occupied (mkOccupiedEntry (HmOccupied (primary m) k1 (k2, v))
                                              (HmOccupied (secondary m) k2 k1))))
        else if hm_contains_key (secondary m) k2 then Done (Err (BothKeysExist k1 k2 tt))
        else Done (Err (Key1Exists k1 k2 tt))
    | None =>
        if hm_contains_key (secondary m) k2 then Done (Err (Key2Exists k1 k2 tt))
        else Done (Ok (Vacant (mkVacantEntry (HmVacant (primary m) k1)
                                             (HmVacant (secondary m) k2))))
    end.
Proof.
  intros Hi. unfold DoubleMap_entry, hm_entry.
  destruct (primary m !! k1) as [[k2' v]|] eqn:Ep; simpl.
  - case_bool_decide; simplify_eq/=; [|by destruct (hm_contains_key (secondary m) k2)].
    by rewrite (Inv_ps m k1 k2 v Hi Ep).
  - unfold hm_contains_key. by destruct (secondary m !! k2).
Qed.

(** An entry that [entry] hands out is well formed, for the keys asked, and gives the
    map back unchanged when it is dropped. *)
Lemma entry_wf m k1 k2 e :
  Inv m -> DoubleMap_entry m k1 k2 = Done (Ok e) ->
  Entry_wf e /\ Entry_release e = m /\ Entry_keys e = (k1, k2).
Proof.
  intros Hi. rewrite entry_cases by done.
  destruct (primary m !! k1) as [[k2' v]|] eqn:Ep.
  - case_bool_decide; [|by case_match]. intros ?; simplify_eq.
    destruct m; simpl in *. unfold OccupiedEntry_wf, occ_wf.
    split_and!; simpl; try done. by eapply (Inv_ps (mkDoubleMap _ _)).
  - case_match eqn:Es; [done|]. intros ?; simplify_eq.
    destruct m; simpl in *. unfold VacantEntry_wf, vac_wf.
    split_and!; simpl; try done. by apply hm_contains_false.
Qed.

Lemma OccupiedEntry_set_wf oe v : OccupiedEntry_wf oe -> OccupiedEntry_wf (OccupiedEntry_set oe v).
Proof.
  intros (Hi & Ho & Hs & Hk2 & Hk1). destruct oe as [[b1 k1 [k2 w]] [b2 k2' k1']].
  unfold OccupiedEntry_wf, occ_wf, OccupiedEntry_release, OccupiedEntry_key1, OccupiedEntry_key2 in *; simpl in *.
  subst. split_and!; simpl; try done; [by eapply (Inv_update (mkDoubleMap b1 b2))|].
  by simplify_map_eq.
Qed.

Lemma OccupiedEntry_remove_entry_Inv oe :
  OccupiedEntry_wf oe -> Inv (OccupiedEntry_remove_entry oe).2.
Proof.
  intros (Hi & Ho & Hs & Hk2 & Hk1). destruct oe as [[b1 k1 [k2 w]] [b2 k2' k1']].
  unfold OccupiedEntry_wf, occ_wf, OccupiedEntry_release, OccupiedEntry_key1, OccupiedEntry_key2 in *; simpl in *.
  subst. by eapply (Inv_del (mkDoubleMap b1 b2)).
Qed.

Lemma OccupiedEntry_remove_Inv oe : OccupiedEntry_wf oe -> Inv (OccupiedEntry_remove oe).2.
Proof.
  intros Hw%OccupiedEntry_remove_entry_Inv. unfold OccupiedEntry_remove.
  by destruct (OccupiedEntry_remove_entry oe) as [[[k1 k2] v] m].
Qed.

Lemma VacantEntry_insert_entry_wf ve v :
  VacantEntry_wf ve -> OccupiedEntry_wf (VacantEntry_insert_entry ve v).
Proof.
  intros (Hi & Ho & Hs). destruct ve as [[b1 k1] [b2 k2]].
  unfold OccupiedEntry_wf, vac_wf, occ_wf, VacantEntry_release in *; simpl in *.
  split_and!; simpl; try done; [by apply (Inv_add (mkDoubleMap b1 b2))|..];
    unfold hm_vacant_insert; simpl; by simplify_map_eq.
Qed.

(** Ending the borrow of a [VacantEntry::insert] with the value [v'] is inserting [v']. *)
Lemma VacantEntry_insert_release ve v v' :
  write_back (VacantEntry_insert ve v) v' =
  OccupiedEntry_release (VacantEntry_insert_entry ve v').
Proof.
  unfold OccupiedEntry_release, hm_vacant_insert; simpl.
  unfold hm_vacant_insert. by rewrite insert_insert_eq.
Qed.

Lemma VacantEntry_insert_Inv ve v v' :
  VacantEntry_wf ve -> Inv (write_back (VacantEntry_insert ve v) v').
Proof.
  intros Hw. rewrite VacantEntry_insert_release. by apply VacantEntry_insert_entry_wf.
Qed.

Lemma Entry_or_insert_Inv e d v : Entry_wf e -> Inv (write_back (Entry_or_insert e d) v).
Proof.
  destruct e as [oe|ve]; simpl; intros Hw.
  - by apply OccupiedEntry_set_wf.
  - by apply VacantEntry_insert_Inv.
Qed.

Lemma Entry_insert_entry_wf e v : Entry_wf e -> OccupiedEntry_wf (Entry_insert_entry e v).
Proof.
  destruct e; simpl; intros;
    [by apply OccupiedEntry_set_wf|by apply VacantEntry_insert_entry_wf].
Qed.

Lemma Entry_and_modify_wf e f : Entry_wf e -> Entry_wf (Entry_and_modify e f).
Proof. destruct e; simpl; [apply OccupiedEntry_set_wf|done]. Qed.
End EntryFacts.

#[export] Hint Resolve insert_Inv remove_entry_by_key1_Inv remove_by_key1_Inv
  remove_entry_by_keys_Inv remove_by_keys_Inv get_mut_by_key1_Inv get_mut_by_key2_Inv
  get_mut_by_keys_Inv reserve_Inv try_reserve_Inv extend_Inv retain_Inv iter_mut_Inv OccupiedEntry_set_wf
  OccupiedEntry_remove_Inv OccupiedEntry_remove_entry_Inv VacantEntry_insert_entry_wf
  VacantEntry_insert_Inv Entry_or_insert_Inv Entry_insert_entry_wf Entry_and_modify_wf : dm.
