(* ===== verification/DoubleMapSpec.v ===== *)
(** * [DoubleMap]: reachability, reference specification and theorems

    [reachable] collects the maps that a program can build through the public interface
    (double_map.rs, entry.rs, iter.rs), each operation being one rule. The reference
    specification is a plain list of triples searched linearly; [spec_run] and [impl_run]
    run a sequence of operations on either side. The theorems of the component are in
    DoubleMapTheorems.v. *)

From S2P Require Import Prelude HashMap DoubleMap DoubleMapFacts.

(** ** Reachable maps *)

Section Reachable.
Context {K1 K2 V : Type} `{Countable K1, Countable K2}.

Abbreviation DM := (DoubleMap K1 K2 V).
Implicit Types (m : DM) (v : V).

Inductive reachable : DM -> Prop :=
| reach_new : reachable DoubleMap_new
| reach_clear m : reachable m -> reachable (DoubleMap_clear m)
| reach_drain m order :
    reachable m -> order ≡ₚ map_to_list (primary m) ->
    reachable (DoubleMap_drain order m).2
| reach_retain {S} (f : S -> K1 -> K2 -> V -> bool * V * S) s order m :
    reachable m -> order ≡ₚ map_to_list (primary m) ->
    reachable (DoubleMap_retain f order s m).1
| reach_iter_mut {S} (f : S -> K1 -> K2 -> V -> V * S) s order m :
    reachable m -> order ≡ₚ map_to_list (primary m) ->
    reachable (IterMut_for_each f order s m).1
| reach_insert m k1 k2 v : reachable m -> reachable (DoubleMap_insert m k1 k2 v).2
| reach_get_mut1 m k1 r v :
    reachable m -> DoubleMap_get_mut_by_key1 m k1 = Some r -> reachable (write_back r v)
| reach_get_mut2 m k2 r v :
    reachable m -> DoubleMap_get_mut_by_key2 m k2 = Some r -> reachable (write_back r v)
| reach_get_muts m k1 k2 r v :
    reachable m -> DoubleMap_get_mut_by_keys m k1 k2 = Some r -> reachable (write_back r v)
| reach_remove1 m k1 : reachable m -> reachable (DoubleMap_remove_by_key1 m k1).2
| reach_remove2 m k2 r m' :
    reachable m -> DoubleMap_remove_by_key2 m k2 = Done (r, m') -> reachable m'
| reach_removes m k1 k2 : reachable m -> reachable (DoubleMap_remove_by_keys m k1 k2).2
| reach_remove_entry1 m k1 :
    reachable m -> reachable (DoubleMap_remove_entry_by_key1 m k1).2
| reach_remove_entry2 m k2 r m' :
    reachable m -> DoubleMap_remove_entry_by_key2 m k2 = Done (r, m') -> reachable m'
| reach_remove_entries m k1 k2 :
    reachable m -> reachable (DoubleMap_remove_entry_by_keys m k1 k2).2
| reach_reserve m n : reachable m -> reachable (DoubleMap_reserve m n)
| reach_try_reserve {E} m n (a1 a2 : result unit E) :
    reachable m -> reachable (DoubleMap_try_reserve m n a1 a2).2
| reach_shrink_to_fit m : reachable m -> reachable (DoubleMap_shrink_to_fit m)
| reach_shrink_to m n : reachable m -> reachable (DoubleMap_shrink_to m n)
| reach_with_capacity n : reachable (DoubleMap_with_capacity n)
| reach_extend m l : reachable m -> reachable (DoubleMap_extend m l)
| reach_clone_from m src :
    reachable m -> reachable src -> reachable (DoubleMap_clone_from m src)
| reach_clone m : reachable m -> reachable (DoubleMap_clone m)
| reach_or_insert m k1 k2 e d v :
    reachable m -> DoubleMap_entry m k1 k2 = Done (Ok e) ->
    reachable (write_back (Entry_or_insert e d) v)
| reach_modify_or_insert m k1 k2 e f d v :
    reachable m -> DoubleMap_entry m k1 k2 = Done (Ok e) ->
    reachable (write_back (Entry_or_insert (Entry_and_modify e f) d) v)
| reach_insert_entry m k1 k2 e v :
    reachable m -> DoubleMap_entry m k1 k2 = Done (Ok e) ->
    reachable (OccupiedEntry_release (Entry_insert_entry e v))
| reach_insert_entry_remove m k1 k2 e v :
    reachable m -> DoubleMap_entry m k1 k2 = Done (Ok e) ->
    reachable (OccupiedEntry_remove (Entry_insert_entry e v)).2
| reach_occupied_insert m k1 k2 oe v :
    reachable m -> DoubleMap_entry m k1 k2 = Done (Ok (Occupied oe)) ->
    reachable (OccupiedEntry_release (OccupiedEntry_insert oe v).2)
| reach_occupied_remove m k1 k2 oe :
    reachable m -> DoubleMap_entry m k1 k2 = Done (Ok (Occupied oe)) ->
    reachable (OccupiedEntry_remove_entry oe).2.

Lemma reachable_Inv m : reachable m -> Inv m.
Proof.
  induction 1; simpl;
    try match goal with
    | He : DoubleMap_entry ?m _ _ = Done (Ok _), Hi : Inv ?m |- _ =>
        apply entry_wf in He as (Hw & _ & _); [|exact Hi]
    end;
    try exact Inv_empty; eauto 4 with dm.
  - destruct (remove_by_key2_Inv m k2 IHreachable) as (? & ? & E & ?).
    rewrite E in *. by simplify_eq.
  - destruct (remove_entry_by_key2_Inv m k2 IHreachable) as (? & ? & E & ?).
    rewrite E in *. by simplify_eq.
  - by apply Entry_insert_entry_wf.
  - by apply OccupiedEntry_set_wf.
Qed.
End Reachable.

(** ** The reference specification: a list of triples *)

Section Reference.
Context {K1 K2 V : Type} `{Countable K1, Countable K2}.

Abbreviation DM := (DoubleMap K1 K2 V).
Abbreviation triples := (list (K1 * K2 * V)).
Implicit Types (m : DM) (v : V) (l : triples).

Fixpoint find1 l (k1 : K1) : option (K2 * V) :=
  match l with
  | [] => None
  | (a, b, v) :: l => if bool_decide (a = k1) then Some (b, v) else find1 l k1
  end.

Fixpoint find2 l (k2 : K2) : option (K1 * V) :=
  match l with
  | [] => None
  | (a, b, v) :: l => if bool_decide (b = k2) then Some (a, v) else find2 l k2
  end.

Definition drop1 l (k1 : K1) : triples := filter (fun t => t.1.1 ≠ k1) l.

(** One operation of the public interface, and what it hands back. *)
Inductive cmd : Type :=
| CInsert (k1 : K1) (k2 : K2) (v : V)
| CRemove1 (k1 : K1)
| CRemove2 (k2 : K2)
| CRemoves (k1 : K1) (k2 : K2)
| CGet1 (k1 : K1)
| CGet2 (k2 : K2)
| CGets (k1 : K1) (k2 : K2)
| CContains (k1 : K1) (k2 : K2)
| CSet1 (k1 : K1) (v : V)
| CSet2 (k2 : K2) (v : V)
| CSets (k1 : K1) (k2 : K2) (v : V)
| CEntryOrInsert (k1 : K1) (k2 : K2) (d : V)
| CModifyOrInsert (k1 : K1) (k2 : K2) (f : V -> V) (d : V)
| CEntryRemove (k1 : K1) (k2 : K2)
| CExtend (ts : triples)
| CRetain (f : K1 -> K2 -> V -> bool * V)
| CIter
| CIterMut (f : K1 -> K2 -> V -> V)
| CDrain
| CTryReserve (n : nat) (a1 a2 : result unit unit)
| CLen
| CClear.

Inductive resp : Type :=
| RInsert (r : result (option V) (KeyConflictError K1 K2 V))
| REntry (r : result V (KeyConflictError K1 K2 unit))
| RTriple (r : option (K1 * K2 * V))
| RValue (r : option V)
| RBools (b1 b2 b12 : bool)
| RTaken (r : result (option (K1 * K2 * V)) (KeyConflictError K1 K2 unit))
| RTriples (ts : triples)
| RReserved (r : result unit unit)
| RLen (n : nat)
| RUnit.

(** Iteration yields the triples in an order that a hash map leaves open; every other
    answer is determined. *)
Definition resp_equiv (r r' : resp) : Prop :=
  match r, r' with
  | RTriples ts, RTriples ts' => ts ≡ₚ ts'
  | _, _ => r = r'
  end.

(** Which keys of a new pair are already in use by other entries. *)
Definition conflict {A} l (k1 : K1) (k2 : K2) (a : A) : option (KeyConflictError K1 K2 A) :=
  match find1 l k1, find2 l k2 with
  | None, None => None
  | Some (b, _), Some _ => if bool_decide (b = k2) then None else Some (BothKeysExist k1 k2 a)
  | Some _, None => Some (Key1Exists k1 k2 a)
  | None, Some _ => Some (Key2Exists k1 k2 a)
  end.

Definition spec_gets l (k1 : K1) (k2 : K2) : option V :=
  '(b, v) ← find1 l k1; if bool_decide (b = k2) then Some v else None.

Definition spec_insert l (k1 : K1) (k2 : K2) v
    : result (option V) (KeyConflictError K1 K2 V) * triples :=
  match conflict l k1 k2 v with
  | Some e => (Err e, l)
  | None => (Ok (snd <$> find1 l k1), (k1, k2, v) :: drop1 l k1)
  end.

(** What a closure of [retain] leaves of one entry. *)
Definition spec_visit (f : K1 -> K2 -> V -> bool * V) (t : K1 * K2 * V) : option (K1 * K2 * V) :=
  let '(k1, k2, v) := t in
  let (keep, v') := f k1 k2 v in if keep then Some (k1, k2, v') else None.

Definition spec_step (c : cmd) l : resp * triples :=
  match c with
  | CInsert k1 k2 v => let (r, l') := spec_insert l k1 k2 v in (RInsert r, l')
  | CRemove1 k1 => (RTriple ((fun '(k2, v) => (k1, k2, v)) <$> find1 l k1), drop1 l k1)
  | CRemove2 k2 =>
      match find2 l k2 with
      | Some (k1, v) => (RTriple (Some (k1, k2, v)), drop1 l k1)
      | None => (RTriple None, l)
      end
  | CRemoves k1 k2 =>
      match spec_gets l k1 k2 with
      | Some v => (RTriple (Some (k1, k2, v)), drop1 l k1)
      | None => (RTriple None, l)
      end
  | CGet1 k1 => (RValue (snd <$> find1 l k1), l)
  | CGet2 k2 => (RValue (snd <$> find2 l k2), l)
  | CGets k1 k2 => (RValue (spec_gets l k1 k2), l)
  | CContains k1 k2 =>
      (RBools (is_some (find1 l k1)) (is_some (find2 l k2)) (is_some (spec_gets l k1 k2)), l)
  | CSet1 k1 v =>
      match find1 l k1 with
      | Some (k2, old) => (RValue (Some old), (k1, k2, v) :: drop1 l k1)
      | None => (RValue None, l)
      end
  | CSet2 k2 v =>
      match find2 l k2 with
      | Some (k1, old) => (RValue (Some old), (k1, k2, v) :: drop1 l k1)
      | None => (RValue None, l)
      end
  | CEntryOrInsert k1 k2 d =>
      match conflict l k1 k2 tt with
      | Some e => (REntry (Err e), l)
      | None =>
          match find1 l k1 with
          | Some (_, v) => (REntry (Ok v), l)
          | None => (REntry (Ok d), (k1, k2, d) :: l)
          end
      end
  | CSets k1 k2 v =>
      match spec_gets l k1 k2 with
      | Some old => (RValue (Some old), (k1, k2, v) :: drop1 l k1)
      | None => (RValue None, l)
      end
  | CModifyOrInsert k1 k2 f d =>
      match conflict l k1 k2 tt with
      | Some e => (REntry (Err e), l)
      | None =>
          let v := match find1 l k1 with Some (_, v) => f v | None => d end in
          (REntry (Ok v), (k1, k2, v) :: drop1 l k1)
      end
  | CEntryRemove k1 k2 =>
      match conflict l k1 k2 tt with
      | Some e => (RTaken (Err e), l)
      | None =>
          (RTaken (Ok ((fun '(_, v) => (k1, k2, v)) <$> find1 l k1)), drop1 l k1)
      end
  | CExtend ts => (RUnit, fold_left (fun l '(k1, k2, v) => (spec_insert l k1 k2 v).2) ts l)
  | CRetain f => (RUnit, omap (spec_visit f) l)
  | CIter => (RTriples l, l)
  | CIterMut f => (RUnit, (fun '(k1, k2, v) => (k1, k2, f k1 k2 v)) <$> l)
  | CDrain => (RTriples l, [])
  | CTryReserve _ a1 a2 => (RReserved (match a1 with Ok _ => a2 | Err e => Err e end), l)
  | CLen => (RLen (length l), l)
  | CClear => (RUnit, [])
  end.

(** The same commands on the [DoubleMap]; [CSet1], [CSet2] and [CSets] overwrite through
    the mutable accessors, [CEntryOrInsert] is [entry(k1, k2)?.or_insert(d)],
    [CModifyOrInsert] calls [and_modify(f)] before it, and [CEntryRemove] removes the entry
    if it is occupied. A command that iterates visits the pairs in [order m]. *)
Definition set_through (o : option (mut_ref V DM)) v m : resp * DM :=
  match o with
  | Some r => (RValue (Some (deref r)), write_back r v)
  | None => (RValue None, m)
  end.

Definition hash_order : Type := gmap K1 (K2 * V) -> list (K1 * (K2 * V)).

Definition impl_step (order : hash_order) (c : cmd) m : outcome (resp * DM) :=
  match c with
  | CInsert k1 k2 v => let (r, m') := DoubleMap_insert m k1 k2 v in Done (RInsert r, m')
  | CRemove1 k1 => let (r, m') := DoubleMap_remove_entry_by_key1 m k1 in Done (RTriple r, m')
  | CRemove2 k2 =>
      let! (r, m') := DoubleMap_remove_entry_by_key2 m k2 in Done (RTriple r, m')
  | CRemoves k1 k2 =>
      let (r, m') := DoubleMap_remove_entry_by_keys m k1 k2 in Done (RTriple r, m')
  | CGet1 k1 => Done (RValue (DoubleMap_get_by_key1 m k1), m)
  | CGet2 k2 => Done (RValue (DoubleMap_get_by_key2 m k2), m)
  | CGets k1 k2 => Done (RValue (DoubleMap_get_by_keys m k1 k2), m)
  | CContains k1 k2 =>
      Done (RBools (DoubleMap_contains_key1 m k1) (DoubleMap_contains_key2 m k2)
                   (DoubleMap_contains_keys m k1 k2), m)
  | CSet1 k1 v => Done (set_through (DoubleMap_get_mut_by_key1 m k1) v m)
  | CSet2 k2 v => Done (set_through (DoubleMap_get_mut_by_key2 m k2) v m)
  | CEntryOrInsert k1 k2 d =>
      let! r := DoubleMap_entry m k1 k2 in
      match r with
      | Ok e =>
          let b := Entry_or_insert e d in Done (REntry (Ok (deref b)), write_back b (deref b))
      | Err err => Done (REntry (Err err), m)
      end
  | CSets k1 k2 v => Done (set_through (DoubleMap_get_mut_by_keys m k1 k2) v m)
  | CModifyOrInsert k1 k2 f d =>
      let! r := DoubleMap_entry m k1 k2 in
      match r with
      | Ok e =>
          let b := Entry_or_insert (Entry_and_modify e f) d in
          Done (REntry (Ok (deref b)), write_back b (deref b))
      | Err err => Done (REntry (Err err), m)
      end
  | CEntryRemove k1 k2 =>
      let! r := DoubleMap_entry m k1 k2 in
      match r with
      | Ok (Occupied oe) =>
          let (t, m') := OccupiedEntry_remove_entry oe in Done (RTaken (Ok (Some t)), m')
      | Ok (Vacant ve) => Done (RTaken (Ok None), VacantEntry_release ve)
      | Err err => Done (RTaken (Err err), m)
      end
  | CExtend ts => Done (RUnit, DoubleMap_extend m ts)
  | CRetain f =>
      let (m', _) :=
        DoubleMap_retain (fun (_ : unit) k1 k2 v => (f k1 k2 v, tt)) (order (primary m)) tt m in
      Done (RUnit, m')
  | CIter => Done (RTriples (DoubleMap_iter (order (primary m))), m)
  | CIterMut f =>
      let (m', _) :=
        IterMut_for_each (fun (_ : unit) k1 k2 v => (f k1 k2 v, tt)) (order (primary m)) tt m in
      Done (RUnit, m')
  | CDrain =>
      let (inner, m') := DoubleMap_drain (order (primary m)) m in
      Done (RTriples (collect Drain_next (S (length inner)) inner), m')
  | CTryReserve n a1 a2 =>
      let (r, m') := DoubleMap_try_reserve m n a1 a2 in Done (RReserved r, m')
  | CLen => Done (RLen (DoubleMap_len m), m)
  | CClear => Done (RUnit, DoubleMap_clear m)
  end.

Fixpoint spec_run (cs : list cmd) l : list resp * triples :=
  match cs with
  | [] => ([], l)
  | c :: cs =>
      let (r, l') := spec_step c l in let (rs, l'') := spec_run cs l' in (r :: rs, l'')
  end.

(** [orders n] is the iteration order of the [n]-th command. *)
Fixpoint impl_run (orders : nat -> hash_order) (cs : list cmd) m : outcome (list resp * DM) :=
  match cs with
  | [] => Done ([], m)
  | c :: cs =>
      let! (r, m') := impl_step (orders O) c m in
      let! (rs, m'') := impl_run (fun n => orders (S n)) cs m' in Done (r :: rs, m'')
  end.

(** The simulation relation. *)
Record sim m l : Prop := {
  sim_inv : Inv m;
  sim_nodup : NoDup l.*1.*1;
  sim_elem : forall k1 k2 v, (k1, k2, v) ∈ l <-> primary m !! k1 = Some (k2, v);
}.
End Reference.

Arguments hash_order K1 K2 V {_ _}.

Section Simulation.
Context {K1 K2 V : Type} `{Countable K1, Countable K2}.

Abbreviation DM := (DoubleMap K1 K2 V).
Abbreviation triples := (list (K1 * K2 * V)).
Implicit Types (m : DM) (v : V) (l : triples).

Lemma find1_elem l k1 k2 v :
  NoDup l.*1.*1 -> find1 l k1 = Some (k2, v) <-> (k1, k2, v) ∈ l.
Proof.
  induction l as [|[[a b] w] l IH]; simpl; intros Hnd; [set_solver|].
  apply NoDup_cons in Hnd as [Ha Hnd]. rewrite elem_of_cons.
  case_bool_decide as E; subst.
  - split; [intros; simplify_eq; by left|]. intros [?|Hin]; simplify_eq; [done|].
    destruct Ha. apply list_elem_of_fmap. exists (k1, k2).
    split; [done|]. apply list_elem_of_fmap. by exists (k1, k2, v).
  - rewrite IH by done. split; [by right|]. intros [?|?]; [simplify_eq|done].
Qed.

Lemma find2_elem l k1 k2 v : find2 l k2 = Some (k1, v) -> (k1, k2, v) ∈ l.
Proof.
  induction l as [|[[a b] w] l IH]; simpl; [done|].
  case_bool_decide; subst; set_solver.
Qed.

Lemma find2_none l k1 k2 v : find2 l k2 = None -> (k1, k2, v) ∉ l.
Proof.
  induction l as [|[[a b] w] l IH]; simpl; [set_solver|].
  case_bool_decide; [done|]. intros ?%IH. set_solver.
Qed.

Lemma find1_sim m l k1 : sim m l -> find1 l k1 = primary m !! k1.
Proof.
  intros [_ Hnd Hel]. apply option_eq. intros [k2 v].
  by rewrite find1_elem, Hel.
Qed.

(** Looking a second key up in the list is following the index. *)
Lemma find2_sim m l k2 :
  sim m l ->
  find2 l k2 = (k1 ← secondary m !! k2; '(_, v) ← primary m !! k1; Some (k1, v)).
Proof.
  intros [Hi Hnd Hel].
  destruct (find2 l k2) as [[k1 v]|] eqn:E2.
  - apply find2_elem, Hel in E2. rewrite (Inv_ps m k1 k2 v Hi E2). simpl. by rewrite E2.
  - destruct (secondary m !! k2) as [k1|] eqn:Es; [|done].
    apply Inv_sp in Es as [v Ev]; [|done].
    apply Hel in Ev. by apply (find2_none l k1 k2 v) in E2.
Qed.

Lemma elem_of_drop1 l k1 t : t ∈ drop1 l k1 <-> t ∈ l /\ t.1.1 ≠ k1.
Proof. unfold drop1. rewrite list_elem_of_filter. tauto. Qed.

Lemma drop1_nodup l k1 : NoDup l.*1.*1 -> NoDup (drop1 l k1).*1.*1.
Proof.
  rewrite <- !list_fmap_compose. unfold drop1. intros Hnd.
  eapply sublist_NoDup; [exact Hnd|]. apply fmap_sublist, sublist_filter.
Qed.

Lemma drop1_fresh l k1 : k1 ∉ (drop1 l k1).*1.*1.
Proof.
  rewrite <- list_fmap_compose. intros (t & -> & Ht)%list_elem_of_fmap.
  apply elem_of_drop1 in Ht. naive_solver.
Qed.

Lemma sim_del m m' l k1 :
  sim m l -> Inv m' -> primary m' = delete k1 (primary m) -> sim m' (drop1 l k1).
Proof.
  intros [Hi Hnd Hel] Hi' Ep. split; [done|by apply drop1_nodup|].
  intros a b w. rewrite elem_of_drop1, Ep, lookup_delete_Some, Hel. simpl. naive_solver.
Qed.

Lemma sim_set m m' l k1 k2 v :
  sim m l -> Inv m' -> primary m' = <[k1 := (k2, v)]> (primary m) ->
  sim m' ((k1, k2, v) :: drop1 l k1).
Proof.
  intros [Hi Hnd Hel] Hi' Ep. split; [done| |].
  - simpl. apply NoDup_cons. split; [apply drop1_fresh|by apply drop1_nodup].
  - intros a b w. rewrite elem_of_cons, elem_of_drop1, Ep, lookup_insert_Some, Hel. simpl.
    naive_solver.
Qed.

Lemma drop1_absent m l k1 : sim m l -> primary m !! k1 = None -> drop1 l k1 = l.
Proof.
  intros [Hi Hnd Hel] Hp. unfold drop1. apply filter_keep_all.
  intros [[a b] w] Hin%Hel. simpl. congruence.
Qed.

Lemma sim_len m l : sim m l -> length l = DoubleMap_len m.
Proof.
  intros [Hi Hnd Hel]. unfold DoubleMap_len.
  set (ps := (fun '(a, b, v) => (a, (b, v))) <$> l : list (K1 * (K2 * V))).
  assert (Hps : ps.*1 = l.*1.*1).
  { unfold ps. rewrite <- !list_fmap_compose. apply list_fmap_ext. by intros ? [[??]?]. }
  assert (Hm : primary m = list_to_map ps).
  { apply map_eq. intros k1. apply option_eq. intros [k2 v].
    rewrite <- Hel, <- elem_of_list_to_map by by rewrite Hps.
    unfold ps. rewrite list_elem_of_fmap. split; [intros; by exists (k1, k2, v)|].
    by intros ([[??]?] & ? & ?); simplify_eq. }
  rewrite Hm, <- length_map_to_list, map_to_list_to_map by by rewrite Hps.
  unfold ps. by rewrite length_fmap.
Qed.
End Simulation.
