(* ===== verification/DoubleMapTheorems.v ===== *)
(** * [DoubleMap]: the theorems

    The maps a program can reach are in sync and never panic; any sequence of operations
    gives the answers of a plain list of triples; [retain], [entry], equality, [extend]
    and the iterators do what their documentation says. *)

From S2P Require Import Prelude HashMap DoubleMap DoubleMapFacts DoubleMapSpec.

Section Theorems.
Context {K1 K2 V : Type} `{Countable K1, Countable K2}.

Abbreviation DM := (DoubleMap K1 K2 V).
Abbreviation triples := (list (K1 * K2 * V)).
Implicit Types (m : DM) (v : V) (l : triples).

(** The iteration orders a hash map may choose. *)
Definition order_ok (order : hash_order K1 K2 V) : Prop :=
  forall p : gmap K1 (K2 * V), order p ≡ₚ map_to_list p.

(** One command in related states: a command that does not iterate gives the very answer
    of the list, in every iteration order. *)
Definition step_sim (c : cmd) m l : Prop :=
  forall order,
  match spec_step c l with
  | (r, l') => exists m', impl_step order c m = Done (r, m') /\ sim m' l'
  end.

Definition step_simulated order (c : cmd) m l : Prop :=
  exists r m', impl_step order c m = Done (r, m') /\ resp_equiv (spec_step c l).1 r /\
               sim m' (spec_step c l).2.

Lemma step_sim_simulated order c m l : step_sim c m l -> step_simulated order c m l.
Proof.
  intros Hs. specialize (Hs order). unfold step_simulated.
  destruct (spec_step c l) as [r l']. destruct Hs as (m' & -> & Hm').
  exists r, m'. split_and!; [done| |done]. destruct r; simpl; first [done|reflexivity].
Qed.

(** The errors of [insert] and [entry] are the conflicts of the list. *)
Lemma conflict_sim {A} m l k1 k2 (a : A) :
  sim m l ->
  conflict l k1 k2 a =
    match primary m !! k1 with
    | Some (b, _) =>
        if bool_decide (b = k2) then None
        else if hm_contains_key (secondary m) k2 then Some (BothKeysExist k1 k2 a)
        else Some (Key1Exists k1 k2 a)
    | None => if hm_contains_key (secondary m) k2 then Some (Key2Exists k1 k2 a) else None
    end.
Proof.
  intros Hs. pose proof (sim_inv _ _ Hs) as Hi.
  unfold conflict. rewrite (find1_sim m), (find2_sim m) by done. unfold hm_contains_key.
  destruct (secondary m !! k2) as [k1'|] eqn:Es; simpl.
  - destruct (Inv_sp m k1' k2 Hi Es) as [w Ew]. rewrite Ew. simpl.
    by destruct (primary m !! k1) as [[b u]|].
  - destruct (primary m !! k1) as [[b u]|] eqn:Ep; [|done].
    case_bool_decide; [|done]. subst. apply Inv_ps in Ep; [|done]. congruence.
Qed.

Lemma gets_sim m l k1 k2 : sim m l -> spec_gets l k1 k2 = DoubleMap_get_by_keys m k1 k2.
Proof. intros Hs. unfold spec_gets. by rewrite (find1_sim m). Qed.

Lemma sim_insert m l k1 k2 v : sim m l -> step_sim (CInsert k1 k2 v) m l.
Proof.
  intros Hs. pose proof (insert_Inv m k1 k2 v (sim_inv _ _ Hs)) as Hi'.
  intros order. unfold spec_step, spec_insert, impl_step. rewrite (conflict_sim m), (find1_sim m) by done.
  unfold DoubleMap_insert in *. destruct (primary m !! k1) as [[b u]|] eqn:Ep.
  - case_bool_decide; [|by case_match; eauto].
    simpl in *. rewrite Ep. eexists. split; [done|]. by eapply sim_set.
  - destruct (hm_contains_key (secondary m) k2); [eauto|].
    eexists. split; [done|]. by eapply sim_set.
Qed.

Lemma sim_remove1 m l k1 : sim m l -> step_sim (CRemove1 k1) m l.
Proof.
  intros Hs. pose proof (sim_inv _ _ Hs) as Hi.
  pose proof (remove_entry_by_key1_Inv m k1 Hi) as Hi'.
  intros order. unfold spec_step, impl_step. rewrite (find1_sim m) by done.
  rewrite remove_entry_by_key1_spec in * by done.
  destruct (primary m !! k1) as [[k2 v]|] eqn:Ep; eexists; (split; [done|]).
  - by eapply sim_del.
  - by rewrite (drop1_absent m).
Qed.

(** The other removals reduce to the first. *)
Lemma remove1_result m l k1 k2 v :
  sim m l -> primary m !! k1 = Some (k2, v) ->
  exists m', DoubleMap_remove_entry_by_key1 m k1 = (Some (k1, k2, v), m') /\
             sim m' (drop1 l k1).
Proof.
  intros Hs Hp. destruct (sim_remove1 m l k1 Hs (fun p => map_to_list p)) as (m' & Hstep & Hm').
  exists m'. split; [|done]. simpl in Hstep. rewrite (find1_sim m), Hp in Hstep by done.
  destruct (DoubleMap_remove_entry_by_key1 m k1). simpl in Hstep. by simplify_eq.
Qed.

Lemma sim_remove2 m l k2 : sim m l -> step_sim (CRemove2 k2) m l.
Proof.
  intros Hs. pose proof (sim_inv _ _ Hs) as Hi. intros order. unfold spec_step, impl_step.
  rewrite (find2_sim m) by done. rewrite remove_entry_by_key2_spec by done.
  destruct (secondary m !! k2) as [k1|] eqn:Es; simpl; [|eauto].
  destruct (Inv_sp m k1 k2 Hi Es) as [v Ev]. rewrite Ev. simpl.
  destruct (remove1_result m l k1 k2 v Hs Ev) as (m' & -> & Hm'). simpl. eauto.
Qed.

Lemma sim_removes m l k1 k2 : sim m l -> step_sim (CRemoves k1 k2) m l.
Proof.
  intros Hs. pose proof (sim_inv _ _ Hs) as Hi. intros order. unfold spec_step, impl_step.
  rewrite (gets_sim m) by done. rewrite remove_entry_by_keys_spec by done.
  destruct (DoubleMap_get_by_keys m k1 k2) as [v|] eqn:Eg; [|eauto].
  unfold DoubleMap_get_by_keys in Eg.
  destruct (primary m !! k1) as [[b w]|] eqn:Ep; simplify_eq/=. case_bool_decide; simplify_eq.
  destruct (remove1_result m l k1 k2 v Hs Ep) as (m' & -> & Hm'). eauto.
Qed.

Lemma sim_set1 m l k1 v : sim m l -> step_sim (CSet1 k1 v) m l.
Proof.
  intros Hs. pose proof (sim_inv _ _ Hs) as Hi. intros order. unfold spec_step, impl_step.
  rewrite (find1_sim m) by done. unfold DoubleMap_get_mut_by_key1.
  destruct (primary m !! k1) as [[k2 w]|] eqn:Ep; simpl; [|eauto].
  eexists. split; [done|]. eapply sim_set; [done| |done]. by eapply Inv_update.
Qed.

Lemma sim_set2 m l k2 v : sim m l -> step_sim (CSet2 k2 v) m l.
Proof.
  intros Hs. pose proof (sim_inv _ _ Hs) as Hi. intros order. unfold spec_step, impl_step.
  rewrite (find2_sim m) by done. unfold DoubleMap_get_mut_by_key2.
  destruct (secondary m !! k2) as [k1|] eqn:Es; simpl; [|eauto].
  destruct (Inv_sp m k1 k2 Hi Es) as [w Ew]. rewrite Ew. simpl.
  eexists. split; [done|]. eapply sim_set; [done| |done]. by eapply Inv_update.
Qed.

Lemma sim_or_insert m l k1 k2 d : sim m l -> step_sim (CEntryOrInsert k1 k2 d) m l.
Proof.
  intros Hs. pose proof (sim_inv _ _ Hs) as Hi. intros order. unfold spec_step, impl_step.
  rewrite (conflict_sim m), (find1_sim m), entry_cases by done.
  destruct (primary m !! k1) as [[b w]|] eqn:Ep.
  - case_bool_decide; [|destruct (hm_contains_key (secondary m) k2); simpl; eauto]. subst. simpl.
    eexists. split; [done|]. unfold OccupiedEntry_release; simpl.
    rewrite insert_id by done. by destruct m.
  - destruct (hm_contains_key (secondary m) k2) eqn:Ec; [simpl; eauto|].
    simpl. eexists. split; [done|].
    rewrite <- (drop1_absent m l k1) by done. eapply sim_set; [done| |].
    + apply hm_contains_false in Ec. unfold hm_vacant_insert; simpl.
      rewrite insert_insert_eq. by apply Inv_add.
    + simpl. unfold hm_vacant_insert; simpl. by rewrite insert_insert_eq.
Qed.

Lemma sim_sets m l k1 k2 v : sim m l -> step_sim (CSets k1 k2 v) m l.
Proof.
  intros Hs. pose proof (sim_inv _ _ Hs) as Hi. intros order. unfold spec_step, impl_step.
  rewrite (gets_sim m) by done. unfold DoubleMap_get_by_keys, DoubleMap_get_mut_by_keys.
  destruct (primary m !! k1) as [[b w]|] eqn:Ep; simpl; [|eauto].
  case_bool_decide; simpl; [|eauto]. subst.
  eexists. split; [done|]. eapply sim_set; [done| |done]. by eapply Inv_update.
Qed.

Lemma sim_modify_or_insert m l k1 k2 f d : sim m l -> step_sim (CModifyOrInsert k1 k2 f d) m l.
Proof.
  intros Hs. pose proof (sim_inv _ _ Hs) as Hi. intros order. unfold spec_step, impl_step.
  rewrite (conflict_sim m), (find1_sim m), entry_cases by done.
  destruct (primary m !! k1) as [[b w]|] eqn:Ep.
  - case_bool_decide; [|destruct (hm_contains_key (secondary m) k2); simpl; eauto]. subst.
    simpl. eexists. split; [done|]. eapply sim_set; [done| |].
    + unfold OccupiedEntry_release; simpl. rewrite insert_insert_eq. by eapply Inv_update.
    + simpl. by rewrite insert_insert_eq.
  - destruct (hm_contains_key (secondary m) k2) eqn:Ec; [simpl; eauto|].
    simpl. eexists. split; [done|]. eapply sim_set; [done| |].
    + apply hm_contains_false in Ec. unfold hm_vacant_insert; simpl.
      rewrite insert_insert_eq. by apply Inv_add.
    + simpl. unfold hm_vacant_insert; simpl. by rewrite insert_insert_eq.
Qed.

Lemma sim_entry_remove m l k1 k2 : sim m l -> step_sim (CEntryRemove k1 k2) m l.
Proof.
  intros Hs. pose proof (sim_inv _ _ Hs) as Hi. intros order. unfold spec_step, impl_step.
  rewrite (conflict_sim m), (find1_sim m) by done.
  pose proof (entry_wf m k1 k2) as Hwf. rewrite entry_cases in * by done.
  destruct (primary m !! k1) as [[b w]|] eqn:Ep.
  - case_bool_decide; [|destruct (hm_contains_key (secondary m) k2); simpl; eauto]. subst.
    simpl. eexists. split; [done|].
    destruct (Hwf _ Hi eq_refl) as (Hw & _ & _).
    eapply sim_del; [done| |done]. by apply (OccupiedEntry_remove_entry_Inv _ Hw).
  - destruct (hm_contains_key (secondary m) k2); [simpl; eauto|].
    simpl. eexists. split; [done|]. rewrite (drop1_absent m) by done.
    destruct (Hwf _ Hi eq_refl) as (_ & Hrel & _). simpl in Hrel. by rewrite Hrel.
Qed.

Lemma sim_insert_pair m l k1 k2 v :
  sim m l -> sim (DoubleMap_insert m k1 k2 v).2 (spec_insert l k1 k2 v).2.
Proof.
  intros Hs. pose proof (sim_insert m l k1 k2 v Hs (fun p => map_to_list p)) as Hi. simpl in Hi.
  destruct (DoubleMap_insert m k1 k2 v), (spec_insert l k1 k2 v), Hi as (m' & He & Hm').
  by simplify_eq/=.
Qed.

Lemma sim_extend m l ts : sim m l -> step_sim (CExtend ts) m l.
Proof.
  intros Hs order. unfold spec_step, impl_step. rewrite extend_fold.
  eexists. split; [done|]. revert m l Hs.
  induction ts as [|[[k1 k2] v] ts IH]; intros m l Hs; simpl; [done|].
  by apply IH, sim_insert_pair.
Qed.

(** Visiting the entries one by one leaves at most one triple per first key. *)
Lemma visit_nodup (f : K1 -> K2 -> V -> bool * V) l :
  NoDup l.*1.*1 -> NoDup (omap (spec_visit f) l).*1.*1.
Proof.
  intros Hnd. eapply sublist_NoDup; [exact Hnd|].
  clear Hnd. induction l as [|[[k1 k2] v] l IH]; simpl; [done|].
  destruct (f k1 k2 v) as [[] w]; simpl; [by apply sublist_skip|by apply sublist_cons].
Qed.

Lemma retain_sim (f : K1 -> K2 -> V -> bool * V) order m l :
  sim m l -> order ≡ₚ map_to_list (primary m) ->
  sim (DoubleMap_retain (fun (_ : unit) k1 k2 v => (f k1 k2 v, tt)) order tt m).1
      (omap (spec_visit f) l).
Proof.
  intros [Hi Hnd Hel] Ho. split; [by apply retain_Inv|by apply visit_nodup|].
  intros k1 k2 v. rewrite (retain_stateless f order m k1 Hi Ho), list_elem_of_omap. split.
  - intros ([[a b] w] & Hin%Hel & Hv). unfold spec_visit in Hv.
    destruct (f a b w) as [[] w'] eqn:Ef; simplify_eq. rewrite Hin. simpl. by rewrite Ef.
  - destruct (primary m !! k1) as [[b w]|] eqn:Ep; [|done]. simpl.
    destruct (f k1 b w) as [[] w'] eqn:Ef; [|done]. intros ?; simplify_eq.
    exists (k1, k2, w). split; [by apply Hel|]. simpl. by rewrite Ef.
Qed.

Lemma sim_empty : sim (mkDoubleMap ∅ ∅ : DM) [].
Proof.
  split; [apply Inv_empty|constructor|]. intros. simpl. rewrite lookup_empty. set_solver.
Qed.

(** An iteration hands out the triples of the list, in some order. *)
Lemma triples_sim order m l :
  sim m l -> order ≡ₚ map_to_list (primary m) -> l ≡ₚ to_triple <$> order.
Proof.
  intros [Hi Hnd Hel] Ho. apply NoDup_Permutation.
  - by do 2 eapply NoDup_fmap_1.
  - apply (NoDup_fmap_1 (fun t => t.1.1)). rewrite <- list_fmap_compose.
    rewrite (list_fmap_ext _ fst) by by intros ? [? [? ?]]. by eapply order_nodup.
  - intros [[k1 k2] v]. rewrite Hel, list_elem_of_fmap. split.
    + intros Hp. exists (k1, (k2, v)). split; [done|]. by apply (elem_of_order _ _ _ _ Ho).
    + intros ([? [? ?]] & ? & Hin); simplify_eq/=. by apply (elem_of_order _ _ _ _ Ho).
Qed.

Lemma collect_triples (order : list (K1 * (K2 * V))) :
  collect (next_map to_triple) (S (length order)) order = (to_triple <$> order : triples).
Proof. induction order as [|[a [b w]] order IH]; [done|]. simpl. f_equal. exact IH. Qed.

Lemma sim_iteration order c m l :
  sim m l -> order_ok order ->
  match c with CRetain _ | CIter | CIterMut _ | CDrain => True | _ => False end ->
  step_simulated order c m l.
Proof.
  intros Hs Ho Hc. pose proof (Ho (primary m)) as Hp. unfold step_simulated.
  destruct c; try done; cbn [impl_step spec_step fst snd].
  - pose proof (retain_sim f (order (primary m)) m l Hs Hp) as Hr.
    destruct (DoubleMap_retain _ _ _ m) as [m' u]. by exists RUnit, m'.
  - eexists _, m. split_and!; [done| |done]. cbn [resp_equiv fst].
    unfold DoubleMap_iter, Iter_next. rewrite collect_triples. by apply (triples_sim _ m).
  - pose proof (retain_sim (fun k1 k2 v => (true, f k1 k2 v)) (order (primary m)) m l Hs Hp) as Hr.
    rewrite iter_mut_retain. destruct (DoubleMap_retain _ _ _ m) as [m' u].
    exists RUnit, m'. split_and!; [done..|].
    eapply eq_ind; [exact Hr|]. f_equal. simpl. clear.
    induction l as [|[[? ?] ?] l IH]; simpl; [done|]. by f_equal.
  - eexists _, _. split_and!; [done| |apply sim_empty]. cbn [resp_equiv fst].
    unfold Drain_next. rewrite collect_triples. by apply (triples_sim _ m).
Qed.

Lemma sim_step order c m l : sim m l -> order_ok order -> step_simulated order c m l.
Proof.
  intros Hs Ho. destruct c; try by apply sim_iteration.
  all: apply step_sim_simulated.
  - by apply sim_insert.
  - by apply sim_remove1.
  - by apply sim_remove2.
  - by apply sim_removes.
  - intros ord; simpl. rewrite (find1_sim m) by done. eauto.
  - intros ord; simpl. rewrite (find2_sim m) by done. exists m. split; [|done].
    unfold DoubleMap_get_by_key2. do 3 f_equal.
    destruct (secondary m !! k2) as [k1|]; simpl; [|done]. by destruct (primary m !! k1) as [[??]|].
  - intros ord; simpl. rewrite (gets_sim m) by done. eauto.
  - intros ord; simpl. rewrite (gets_sim m), (find1_sim m), (find2_sim m) by done.
    exists m. split; [|done]. do 3 f_equal.
    unfold DoubleMap_contains_key2, hm_contains_key.
    destruct (secondary m !! k2) as [k1'|] eqn:Es; simpl; [|done].
    destruct (Inv_sp m k1' k2 (sim_inv _ _ Hs) Es) as [w ->]. done.
  - by apply sim_set1.
  - by apply sim_set2.
  - by apply sim_sets.
  - by apply sim_or_insert.
  - by apply sim_modify_or_insert.
  - by apply sim_entry_remove.
  - by apply sim_extend.
  - intros ord; simpl. rewrite try_reserve_spec. eauto.
  - intros ord; simpl. rewrite (sim_len m) by done. eauto.
  - intros ord; simpl. eexists. split; [done|apply sim_empty].
Qed.

Lemma sim_run orders cs m l :
  sim m l -> (forall n, order_ok (orders n)) ->
  exists rs m', impl_run orders cs m = Done (rs, m') /\
    Forall2 resp_equiv (spec_run cs l).1 rs /\ sim m' (spec_run cs l).2.
Proof.
  revert orders m l. induction cs as [|c cs IH]; intros orders m l Hs Ho; simpl.
  { exists [], m. by split_and!. }
  destruct (sim_step (orders 0) c m l Hs (Ho 0)) as (r & m1 & -> & Hr & H1). simpl.
  destruct (IH (fun n => orders (S n)) m1 (spec_step c l).2 H1 (fun n => Ho (S n)))
    as (rs & m2 & -> & Hrs & H2).
  destruct (spec_step c l) as [r' l']; simpl in *. destruct (spec_run cs l') as [rs' l2].
  exists (r :: rs), m2. split_and!; [done| |done]. by constructor.
Qed.

(** C30. Whatever public operations built it, the two internal maps of a [DoubleMap] are
    in sync: the index maps [k2] to [k1] exactly when the entry of [k1] carries [k2]. *)
Theorem double_map_in_sync m (Hr : reachable m) : Inv m.
Proof. by apply reachable_Inv. Qed.

(** On a reachable map no [expect] and no [unreachable!] of the sources can fire:
    removing by the second key and taking an entry always return. *)
Lemma double_map_no_panic m (Hr : reachable m) k1 k2 :
  is_done (DoubleMap_remove_by_key2 m k2) /\
  is_done (DoubleMap_remove_entry_by_key2 m k2) /\
  is_done (DoubleMap_entry m k1 k2).
Proof.
  apply reachable_Inv in Hr. split_and!.
  - by destruct (remove_by_key2_Inv m k2 Hr) as (? & ? & -> & _).
  - by destruct (remove_entry_by_key2_Inv m k2 Hr) as (? & ? & -> & _).
  - rewrite entry_cases by done. by repeat case_match.
Qed.

(** C31. Any sequence of operations on a fresh [DoubleMap] returns, whatever iteration
    order the hash map picks at each step, and the answers are those of a plain list of
    triples searched linearly: the same value for every look-up, update, removal, entry
    and [extend], the same triples in some order for an iteration. *)
Theorem double_map_refines_list (orders : nat -> hash_order K1 K2 V) (cs : list cmd)
    (Ho : forall n, order_ok (orders n)) :
  exists rs m', impl_run orders cs (DoubleMap_new : DM) = Done (rs, m') /\
    Forall2 resp_equiv (spec_run cs []).1 rs /\ sim m' (spec_run cs []).2.
Proof. apply sim_run; [apply sim_empty|exact Ho]. Qed.

(** [retain] with a stateful closure calls it once per entry in the iteration order,
    threads its captured state through, keeps exactly the entries it accepted, with the
    values it wrote, under both keys, and leaves the two maps in sync. *)
Lemma retain_keeps_accepted {S} (f : S -> K1 -> K2 -> V -> bool * V * S) order s m
    (Hr : reachable m) (Ho : order ≡ₚ map_to_list (primary m)) :
  let ds := (decisions f order s).1 in
  let '(m', s') := DoubleMap_retain f order s m in
  Inv m' /\ s' = (decisions f order s).2 /\ ds.*1 ≡ₚ (map_to_list (primary m)).*1 /\
  (forall k1, DoubleMap_get_by_key1 m k1 = None -> DoubleMap_get_by_key1 m' k1 = None) /\
  (forall k1 keep k2 v, (k1, (keep, (k2, v))) ∈ ds ->
    DoubleMap_get_by_keys m' k1 k2 = (if keep : bool then Some v else None) /\
    DoubleMap_get_by_key2 m' k2 = (if keep then Some v else None)).
Proof.
  apply reachable_Inv in Hr. pose proof (retain_spec f order s m Hr Ho) as Hs.
  pose proof (decisions_keys f order s) as Hk.
  pose proof (decisions_second f order s) as Hd2.
  pose proof (fun k1 k2 v => retain_origin f order s m k1 k2 v Hr Ho) as Horig.
  destruct (DoubleMap_retain f order s m) as [m' s'].
  destruct Hs as (Hi & -> & Hnone & Hdec). split_and!; [done..| | |].
  - rewrite Hk. by apply fmap_Permutation.
  - intros k1. unfold DoubleMap_get_by_key1. rewrite !fmap_None. apply Hnone.
  - intros k1 keep k2 v Hin. pose proof (Hdec k1 keep (k2, v) Hin) as Hp.
    destruct (Hd2 k1 keep k2 v Hin) as [w Hw]. apply (elem_of_order _ _ _ _ Ho) in Hw.
    unfold DoubleMap_get_by_keys, DoubleMap_get_by_key2. rewrite Hp. destruct keep; simpl.
    + rewrite bool_decide_true by done. rewrite (Inv_ps m' k1 k2 v Hi Hp). simpl. by rewrite Hp.
    + split; [done|]. destruct (secondary m' !! k2) as [k1'|] eqn:Es; [|done]. simpl.
      apply (Inv_sp m') in Es as [v' Ev]; [|done].
      destruct (Horig k1' k2 v' Ev) as [u Hu].
      by rewrite (Inv_inj m k1' k1 k2 u w Hr Hu Hw), Hp.
Qed.

(** The error of [entry], which owns no value, completed with the value of an [insert]. *)
Definition with_value (e : KeyConflictError K1 K2 unit) v : KeyConflictError K1 K2 V :=
  match e with
  | Key1Exists a b _ => Key1Exists a b v
  | Key2Exists a b _ => Key2Exists a b v
  | BothKeysExist a b _ => BothKeysExist a b v
  end.

(** [entry] followed by [insert_entry] is [insert]: both accept or refuse the same
    pairs of keys, with the same conflict; an accepted pair gives the same map and the
    same old value, a refused one changes nothing and hands the triple back. *)
Lemma entry_insert_agree m k1 k2 v (Hr : reachable m) :
  match DoubleMap_entry m k1 k2, DoubleMap_insert m k1 k2 v with
  | Done (Ok e), (Ok old, m') =>
      OccupiedEntry_release (Entry_insert_entry e v) = m' /\
      old = match e with Occupied oe => Some (OccupiedEntry_get oe) | Vacant _ => None end
  | Done (Err err), (Err err', m') => m' = m /\ err' = with_value err v
  | _, _ => False
  end.
Proof.
  apply reachable_Inv in Hr. rewrite entry_cases by done. unfold DoubleMap_insert.
  destruct (primary m !! k1) as [[b w]|] eqn:Ep.
  - case_bool_decide; [|by destruct (hm_contains_key (secondary m) k2)]. subst.
    simpl. by rewrite Ep.
  - by destruct (hm_contains_key (secondary m) k2).
Qed.

(** The index is determined by the primary map. *)
Lemma Inv_ext m m' : Inv m -> Inv m' -> primary m = primary m' -> m = m'.
Proof.
  destruct m as [p s], m' as [p' s']. intros Hi Hi' Hp. simpl in Hp. subst. f_equal.
  apply map_eq. intros k2. apply option_eq. intros k1.
  by rewrite (Hi k1 k2), (Hi' k1 k2).
Qed.

(** [PartialEq] compares the primary maps only, yet on reachable maps it decides
    equality of the whole structure. *)
Lemma double_map_eq_sound `{EqDecision V} m m' (Hr : reachable m) (Hr' : reachable m') :
  DoubleMap_eq m m' = true <-> m = m'.
Proof.
  unfold DoubleMap_eq. rewrite bool_decide_eq_true. split; [|by intros ->].
  apply Inv_ext; by apply reachable_Inv.
Qed.

Lemma into_iter_triples order :
  DoubleMap_into_iter order = (to_triple <$> order : triples).
Proof. apply collect_triples. Qed.

Lemma extend_order m acc order :
  Inv m -> Inv acc -> primary acc ⊆ primary m -> NoDup order.*1 ->
  (forall k kv, (k, kv) ∈ order -> primary m !! k = Some kv /\ primary acc !! k = None) ->
  primary (DoubleMap_extend acc (to_triple <$> order)) = list_to_map order ∪ primary acc.
Proof.
  intros Hi. revert acc. induction order as [|[k1 [k2 v]] order IH];
    intros acc Hacc Hsub Hnd Hin; simpl.
  { by rewrite (left_id_L ∅ (∪)). }
  apply NoDup_cons in Hnd as [Hk Hnd].
  destruct (Hin k1 (k2, v)) as [Hm Hfresh]; [set_solver|].
  assert (Hs : hm_contains_key (secondary acc) k2 = false).
  { apply hm_contains_false. destruct (secondary acc !! k2) as [k1'|] eqn:Es; [|done].
    apply Inv_sp in Es as [w Ew]; [|done].
    pose proof (lookup_weaken _ _ _ _ Ew Hsub) as Em.
    rewrite (Inv_inj m k1' k1 k2 w v Hi Em Hm) in Ew. congruence. }
  pose proof (insert_Inv acc k1 k2 v Hacc) as Hacc'. rewrite extend_fold. simpl.
  rewrite <- extend_fold.
  unfold DoubleMap_insert in *. rewrite Hfresh, Hs in *. simpl in *.
  rewrite IH; [|done| |done|].
  - simpl. rewrite <- insert_union_r, insert_union_l; [done|].
    by apply not_elem_of_list_to_map_1.
  - simpl. by apply insert_subseteq_l.
  - intros k kv Hkv. destruct (Hin k kv) as [Ha Hb]; [set_solver|]. split; [done|].
    simpl. rewrite lookup_insert_ne; [done|]. intros ->.
    apply Hk, (list_elem_of_fmap_2 fst _ _ Hkv).
Qed.

(** Collecting the triples of [into_iter], in whatever order the hash map yields
    them, rebuilds the map: no triple is reported as a conflict and dropped. *)
Lemma from_iter_into_iter m order (Hr : reachable m)
    (Ho : order ≡ₚ map_to_list (primary m)) :
  DoubleMap_from_iter (DoubleMap_into_iter order) = m.
Proof.
  apply reachable_Inv in Hr. rewrite into_iter_triples. unfold DoubleMap_from_iter.
  apply Inv_ext; [by apply extend_Inv, Inv_empty|done|].
  rewrite (extend_order m); simpl.
  - rewrite (right_id_L ∅ (∪)), <- (list_to_map_to_list (primary m)).
    apply list_to_map_proper; [by eapply order_nodup|done].
  - done.
  - apply Inv_empty.
  - apply map_empty_subseteq.
  - by eapply order_nodup.
  - intros k kv Hkv. split; [by apply (elem_of_order _ _ _ _ Ho)|apply lookup_empty].
Qed.
End Theorems.

(** ** Concrete instances *)

Section Witnesses.
Abbreviation DM := (DoubleMap nat string Z).

Definition sample : DM :=
  (DoubleMap_insert (DoubleMap_insert DoubleMap_new 1 "one" 10%Z).2 2 "two" 20%Z).2.

Lemma sample_reachable : reachable sample.
Proof. repeat constructor. Qed.

Definition sample_order : list (nat * (string * Z)) :=
  [(1, ("one", 10%Z)); (2, ("two", 20%Z))].

Lemma sample_order_ok : sample_order ≡ₚ map_to_list (primary sample).
Proof. vm_compute. first [reflexivity|apply Permutation_swap]. Qed.

Lemma double_map_in_sync_witness : Inv sample.
Proof. apply (double_map_in_sync sample). exact sample_reachable. Defined.

Lemma double_map_no_panic_witness :
  is_done (DoubleMap_remove_by_key2 sample "one") /\
  is_done (DoubleMap_remove_entry_by_key2 sample "one") /\
  is_done (DoubleMap_entry sample 3 "one").
Proof. apply (double_map_no_panic sample sample_reachable 3 "one"). Defined.

(** A run over two conflicting inserts, a filter, and iterations in the map's own order and
    in the reverse of it. *)
Definition sample_cmds : list (cmd (K1 := nat) (K2 := string) (V := Z)) :=
  [CExtend [(1, "one", 10%Z); (2, "two", 20%Z); (3, "one", 30%Z)]; CIter;
   CRetain (fun k1 _ v => (Nat.even k1, (- v)%Z)); CEntryRemove 1 "two"; CDrain; CLen].

Definition sample_orders (n : nat) : hash_order nat string Z :=
  fun p => if Nat.even n then map_to_list p else reverse (map_to_list p).

Lemma sample_orders_ok n : order_ok (sample_orders n).
Proof.
  intros p. unfold sample_orders. destruct (Nat.even n); [done|apply reverse_Permutation].
Qed.

Lemma double_map_refines_list_witness :
  exists rs m', impl_run sample_orders sample_cmds (DoubleMap_new : DM) = Done (rs, m') /\
    Forall2 resp_equiv (spec_run sample_cmds []).1 rs /\ sim m' (spec_run sample_cmds []).2.
Proof. exact (double_map_refines_list sample_orders sample_cmds sample_orders_ok). Defined.

Lemma sample_cmds_answers :
  (spec_run sample_cmds []).1 =
    [RUnit; RTriples [(2, "two", 20%Z); (1, "one", 10%Z)]; RUnit;
     RTaken (Err (Key2Exists 1 "two" tt)); RTriples [(2, "two", (-20)%Z)]; RLen 0].
Proof. vm_compute. reflexivity. Qed.

(** A closure that counts its calls, keeps even keys and negates the values. *)
Definition keep_even (n : nat) (k1 : nat) (k2 : string) (v : Z) : bool * Z * nat :=
  (Nat.even k1, (- v)%Z, S n).

Lemma retain_keeps_accepted_witness :
  let '(m', n) := DoubleMap_retain keep_even sample_order 0 sample in
  n = 2 /\ DoubleMap_get_by_key2 m' "one" = None /\ DoubleMap_get_by_key2 m' "two" = Some (-20)%Z.
Proof.
  pose proof (retain_keeps_accepted keep_even sample_order 0 sample
    sample_reachable sample_order_ok) as Hr.
  destruct (DoubleMap_retain keep_even _ 0 sample) as [m' n].
  destruct Hr as (_ & -> & _ & _ & Hd). split; [done|].
  split; [apply (Hd 1 false "one" (-10)%Z)|apply (Hd 2 true "two" (-20)%Z)]; set_solver.
Defined.

Lemma entry_insert_agree_witness :
  match DoubleMap_entry sample 3 "one", DoubleMap_insert sample 3 "one" 30%Z with
  | Done (Err err), (Err err', m') => m' = sample /\ err' = with_value err 30%Z
  | _, _ => False
  end.
Proof. exact (entry_insert_agree sample 3 "one" 30%Z sample_reachable). Defined.

Lemma double_map_eq_sound_witness :
  DoubleMap_eq sample sample = true <-> sample = sample.
Proof. exact (double_map_eq_sound sample sample sample_reachable sample_reachable). Defined.

Lemma from_iter_into_iter_witness :
  DoubleMap_from_iter (DoubleMap_into_iter sample_order) = sample.
Proof.
  apply (from_iter_into_iter sample);
    [exact sample_reachable|exact sample_order_ok].
Defined.
End Witnesses.
