(* ===== verification/Tokio.v ===== *)
(** * What the sources rely on of tokio's channels

    tokio is not part of the repository: its channels are parameters of the model. An
    implementation is a type of channels with the operations the sources call, together
    with a view of a channel (what its documentation lets a user observe) and the laws
    that give the effect of each operation on the view. The two instances that close the
    file show that the laws can be met. *)

From S2P Require Import Prelude.

(** ** [tokio::sync::mpsc] (bounded) *)

Inductive TrySendError (T : Type) : Type :=
| TrySendFull (v : T)
| TrySendClosed (v : T).
Arguments TrySendFull {T} _.
Arguments TrySendClosed {T} _.

Inductive SendTimeoutError (T : Type) : Type :=
| SendTimeoutElapsed (v : T)
| SendTimeoutClosed (v : T).
Arguments SendTimeoutElapsed {T} _.
Arguments SendTimeoutClosed {T} _.

Inductive TryRecvError : Type :=
| TryRecvEmpty
| TryRecvDisconnected.

Inductive Poll (T : Type) : Type :=
| Pending
| Ready (v : T).
Arguments Pending {T}.
Arguments Ready {T} _.

(** The observable state of a bounded channel: the queued messages in order, the bound,
    the number of permits reserved and not yet used, the number of live senders, and
    whether the receiver was closed or dropped. *)
Record chan_view (T : Type) : Type := ChanView {
  cv_queue : list T;
  cv_cap : nat;
  cv_permits : nat;
  cv_senders : nat;
  cv_closed : bool;
}.
Arguments ChanView {T} _ _ _ _ _.
Arguments cv_queue {T} _.
Arguments cv_cap {T} _.
Arguments cv_permits {T} _.
Arguments cv_senders {T} _.
Arguments cv_closed {T} _.

Section View.
Context {T : Type}.
Implicit Types (c : chan_view T) (v : T).

Definition cv_with_queue c (q : list T) : chan_view T :=
  ChanView q (cv_cap c) (cv_permits c) (cv_senders c) (cv_closed c).

Definition cv_with_permits c (n : nat) : chan_view T :=
  ChanView (cv_queue c) (cv_cap c) n (cv_senders c) (cv_closed c).

(** A slot is free when the queued messages and the reserved permits leave room. *)
Definition cv_full c : bool :=
  bool_decide (cv_cap c ≤ length (cv_queue c) + cv_permits c).

(** No message can arrive any more. *)
Definition cv_disconnected c : bool :=
  bool_decide (cv_senders c = 0) || (cv_closed c && bool_decide (cv_permits c = 0)).

Definition cv_try_send c v : result unit (TrySendError T) * chan_view T :=
  if cv_closed c then (Err (TrySendClosed v), c)
  else if cv_full c then (Err (TrySendFull v), c)
  else (Ok tt, cv_with_queue c (cv_queue c ++ [v])).

Definition cv_try_reserve c : result unit (TrySendError unit) * chan_view T :=
  if cv_closed c then (Err (TrySendClosed tt), c)
  else if cv_full c then (Err (TrySendFull tt), c)
  else (Ok tt, cv_with_permits c (S (cv_permits c))).

(** Using a permit always succeeds. *)
Definition cv_permit_send c v : chan_view T :=
  cv_with_permits (cv_with_queue c (cv_queue c ++ [v])) (pred (cv_permits c)).

Definition cv_poll_recv c : Poll (option T) * chan_view T :=
  match cv_queue c with
  | v :: q => (Ready (Some v), cv_with_queue c q)
  | [] => (if cv_disconnected c then Ready None else Pending, c)
  end.

(** Up to [limit] messages at once; a limit of zero is ready at once. *)
Definition cv_poll_recv_many c (limit : nat) : Poll (list T) * chan_view T :=
  match limit, cv_queue c with
  | O, _ => (Ready [], c)
  | S _, [] => (if cv_disconnected c then Ready [] else Pending, c)
  | S _, q => (Ready (take limit q), cv_with_queue c (drop limit q))
  end.

Definition cv_try_recv c : result T TryRecvError * chan_view T :=
  match cv_queue c with
  | v :: q => (Ok v, cv_with_queue c q)
  | [] => (Err (if cv_disconnected c then TryRecvDisconnected else TryRecvEmpty), c)
  end.

Definition cv_close c : chan_view T :=
  ChanView (cv_queue c) (cv_cap c) (cv_permits c) (cv_senders c) true.
End View.

Class TokioMpsc (chan : Type -> Type) : Type := {
  mpsc_channel {T} : nat -> chan T;
  mpsc_try_send {T} : chan T -> T -> result unit (TrySendError T) * chan T;
  mpsc_try_reserve {T} : chan T -> result unit (TrySendError unit) * chan T;
  mpsc_permit_send {T} : chan T -> T -> chan T;
  mpsc_poll_recv {T} : chan T -> Poll (option T) * chan T;
  mpsc_poll_recv_many {T} : chan T -> nat -> Poll (list T) * chan T;
  mpsc_try_recv {T} : chan T -> result T TryRecvError * chan T;
  mpsc_close {T} : chan T -> chan T;
  mpsc_is_closed {T} : chan T -> bool;
  mpsc_len {T} : chan T -> nat;
  mpsc_capacity {T} : chan T -> nat;
  mpsc_max_capacity {T} : chan T -> nat;
  mpsc_view {T} : chan T -> chan_view T;
  mpsc_channel_law {T} n :
    mpsc_view (mpsc_channel n : chan T) = ChanView [] n 0 1 false;
  mpsc_try_send_law {T} (c : chan T) v :
    (fun p => (p.1, mpsc_view p.2)) (mpsc_try_send c v) = cv_try_send (mpsc_view c) v;
  mpsc_try_reserve_law {T} (c : chan T) :
    (fun p => (p.1, mpsc_view p.2)) (mpsc_try_reserve c) = cv_try_reserve (mpsc_view c);
  mpsc_permit_send_law {T} (c : chan T) v :
    mpsc_view (mpsc_permit_send c v) = cv_permit_send (mpsc_view c) v;
  mpsc_poll_recv_law {T} (c : chan T) :
    (fun p => (p.1, mpsc_view p.2)) (mpsc_poll_recv c) = cv_poll_recv (mpsc_view c);
  mpsc_poll_recv_many_law {T} (c : chan T) limit :
    (fun p => (p.1, mpsc_view p.2)) (mpsc_poll_recv_many c limit) = cv_poll_recv_many (mpsc_view c) limit;
  mpsc_try_recv_law {T} (c : chan T) :
    (fun p => (p.1, mpsc_view p.2)) (mpsc_try_recv c) = cv_try_recv (mpsc_view c);
  mpsc_close_law {T} (c : chan T) : mpsc_view (mpsc_close c) = cv_close (mpsc_view c);
  mpsc_is_closed_law {T} (c : chan T) :
    mpsc_is_closed c = cv_closed (mpsc_view c) || bool_decide (cv_senders (mpsc_view c) = 0);
  mpsc_len_law {T} (c : chan T) : mpsc_len c = length (cv_queue (mpsc_view c));
  mpsc_capacity_law {T} (c : chan T) :
    mpsc_capacity c =
      cv_cap (mpsc_view c) - (length (cv_queue (mpsc_view c)) + cv_permits (mpsc_view c));
  mpsc_max_capacity_law {T} (c : chan T) : mpsc_max_capacity c = cv_cap (mpsc_view c);
}.

(** ** [tokio::sync::oneshot] *)

(** A oneshot channel: the value sent and not yet received, and which halves are gone.
    [os_taken] records that the value was received. *)
Record oneshot_view (T : Type) : Type := OneshotView {
  os_value : option T;
  os_sender_gone : bool;
  os_closed : bool;
  os_taken : bool;
}.
Arguments OneshotView {T} _ _ _ _.
Arguments os_value {T} _.
Arguments os_sender_gone {T} _.
Arguments os_closed {T} _.
Arguments os_taken {T} _.

Inductive OneshotTryRecvError : Type :=
| OneshotEmpty
| OneshotClosed.

Section OneshotOps.
Context {T : Type}.
Implicit Types (c : oneshot_view T) (v : T).

(** Sending consumes the sender; a closed receiver hands the value back. *)
Definition ov_send c v : result unit T * oneshot_view T :=
  if os_closed c then (Err v, OneshotView (os_value c) true (os_closed c) (os_taken c))
  else (Ok tt, OneshotView (Some v) true (os_closed c) (os_taken c)).

Definition ov_try_recv c : result T OneshotTryRecvError * oneshot_view T :=
  match os_value c with
  | Some v => (Ok v, OneshotView None (os_sender_gone c) true true)
  | None => (Err (if os_sender_gone c || os_closed c then OneshotClosed else OneshotEmpty), c)
  end.

(** Awaiting the receiver: [Ready (Err _)] when the sender was dropped without a value. *)
Definition ov_poll c : Poll (result T unit) * oneshot_view T :=
  match os_value c with
  | Some v => (Ready (Ok v), OneshotView None (os_sender_gone c) true true)
  | None => (if os_sender_gone c || os_closed c then Ready (Err tt) else Pending, c)
  end.

(** Dropping the sender, which was not used. *)
Definition ov_drop_sender c : oneshot_view T :=
  OneshotView (os_value c) true (os_closed c) (os_taken c).

Definition ov_close c : oneshot_view T :=
  OneshotView (os_value c) (os_sender_gone c) true (os_taken c).
End OneshotOps.

Class TokioOneshot (chan : Type -> Type) : Type := {
  oneshot_channel {T} : chan T;
  oneshot_send {T} : chan T -> T -> result unit T * chan T;
  oneshot_try_recv {T} : chan T -> result T OneshotTryRecvError * chan T;
  oneshot_poll {T} : chan T -> Poll (result T unit) * chan T;
  oneshot_drop_sender {T} : chan T -> chan T;
  oneshot_close {T} : chan T -> chan T;
  oneshot_is_closed {T} : chan T -> bool;
  oneshot_view_of {T} : chan T -> oneshot_view T;
  oneshot_channel_law {T} :
    oneshot_view_of (oneshot_channel : chan T) = OneshotView None false false false;
  oneshot_send_law {T} (c : chan T) v :
    (fun p => (p.1, oneshot_view_of p.2)) (oneshot_send c v) = ov_send (oneshot_view_of c) v;
  oneshot_try_recv_law {T} (c : chan T) :
    (fun p => (p.1, oneshot_view_of p.2)) (oneshot_try_recv c) = ov_try_recv (oneshot_view_of c);
  oneshot_poll_law {T} (c : chan T) :
    (fun p => (p.1, oneshot_view_of p.2)) (oneshot_poll c) = ov_poll (oneshot_view_of c);
  oneshot_drop_sender_law {T} (c : chan T) :
    oneshot_view_of (oneshot_drop_sender c) = ov_drop_sender (oneshot_view_of c);
  oneshot_close_law {T} (c : chan T) :
    oneshot_view_of (oneshot_close c) = ov_close (oneshot_view_of c);
  oneshot_is_closed_law {T} (c : chan T) : oneshot_is_closed c = os_closed (oneshot_view_of c);
}.

(** ** Blocking *)

(** Whether the caller runs inside an asynchronous execution context. The blocking calls of
    tokio's channels panic there. *)
Class CallContext : Type := in_runtime : bool.

Definition block_on `{CallContext} {X} (r : outcome X) : outcome X :=
  if in_runtime then Panicked "Cannot block the current thread from within a runtime" else r.

(** ** Instances: the views are channels themselves *)

#[global, program] Instance view_mpsc : TokioMpsc chan_view := {|
  mpsc_channel T n := ChanView [] n 0 1 false;
  mpsc_try_send T := cv_try_send;
  mpsc_try_reserve T := cv_try_reserve;
  mpsc_permit_send T := cv_permit_send;
  mpsc_poll_recv T := cv_poll_recv;
  mpsc_poll_recv_many T := cv_poll_recv_many;
  mpsc_try_recv T := cv_try_recv;
  mpsc_close T := cv_close;
  mpsc_is_closed T c := cv_closed c || bool_decide (cv_senders c = 0);
  mpsc_len T c := length (cv_queue c);
  mpsc_capacity T c := cv_cap c - (length (cv_queue c) + cv_permits c);
  mpsc_max_capacity T := cv_cap;
  mpsc_view T c := c;
|}.
Solve Obligations with intros; simpl; try reflexivity; symmetry; apply surjective_pairing.

#[global, program] Instance view_oneshot : TokioOneshot oneshot_view := {|
  oneshot_channel T := OneshotView None false false false;
  oneshot_send T := ov_send;
  oneshot_try_recv T := ov_try_recv;
  oneshot_poll T := ov_poll;
  oneshot_drop_sender T := ov_drop_sender;
  oneshot_close T := ov_close;
  oneshot_is_closed T c := os_closed c;
  oneshot_view_of T c := c;
|}.
Solve Obligations with intros; simpl; try reflexivity; symmetry; apply surjective_pairing.

(** ** Lemmas on the laws *)

Section Laws.
Context {chan : Type -> Type} `{TokioMpsc chan} {T : Type}.
Implicit Types (c : chan T) (v : T).

Lemma try_recv_view c :
  mpsc_view (mpsc_try_recv c).2 = cv_with_queue (mpsc_view c) (tail (cv_queue (mpsc_view c))).
Proof.
  pose proof (mpsc_try_recv_law c) as Hl. destruct (mpsc_try_recv c) as [r c']. simpl in *.
  unfold cv_try_recv in Hl. destruct (mpsc_view c) as [q ? ? ? ?] eqn:E. simpl in *.
  destruct q; by simplify_eq/=.
Qed.

Lemma try_send_view c v :
  mpsc_view (mpsc_try_send c v).2 = (cv_try_send (mpsc_view c) v).2.
Proof. by rewrite <- (mpsc_try_send_law c v). Qed.

Lemma poll_recv_cons c v q :
  cv_queue (mpsc_view c) = v :: q ->
  exists c', mpsc_poll_recv c = (Ready (Some v), c') /\ mpsc_view c' = cv_with_queue (mpsc_view c) q.
Proof.
  intros Hq. pose proof (mpsc_poll_recv_law c) as Hl. unfold cv_poll_recv in Hl.
  rewrite Hq in Hl. destruct (mpsc_poll_recv c) as [r c']. simpl in *. simplify_eq. eauto.
Qed.

Lemma poll_recv_nil c :
  cv_queue (mpsc_view c) = [] ->
  exists c', mpsc_poll_recv c =
    (if cv_disconnected (mpsc_view c) then Ready None else Pending, c') /\
    mpsc_view c' = mpsc_view c.
Proof.
  intros Hq. pose proof (mpsc_poll_recv_law c) as Hl. unfold cv_poll_recv in Hl.
  rewrite Hq in Hl. destruct (mpsc_poll_recv c) as [r c']. simpl in *. simplify_eq. eauto.
Qed.
(** The three answers of a send, with the channel each leaves. *)
Lemma try_send_cases c v : exists c',
  (mpsc_try_send c v = (Err (TrySendClosed v), c') /\ cv_closed (mpsc_view c) = true /\
     mpsc_view c' = mpsc_view c) \/
  (mpsc_try_send c v = (Err (TrySendFull v), c') /\ cv_closed (mpsc_view c) = false /\
     cv_full (mpsc_view c) = true /\ mpsc_view c' = mpsc_view c) \/
  (mpsc_try_send c v = (Ok tt, c') /\ cv_closed (mpsc_view c) = false /\
     cv_full (mpsc_view c) = false /\
     mpsc_view c' = cv_with_queue (mpsc_view c) (cv_queue (mpsc_view c) ++ [v])).
Proof.
  pose proof (mpsc_try_send_law c v) as Hl. unfold cv_try_send in Hl.
  destruct (mpsc_try_send c v) as [r c']. exists c'. simpl in Hl.
  destruct (cv_closed _) eqn:Hc; [left; by simplify_eq|].
  destruct (cv_full _) eqn:Hf; right; [left|right]; by simplify_eq.
Qed.

Lemma try_reserve_cases c : exists c',
  (mpsc_try_reserve c = (Err (TrySendClosed tt), c') /\ cv_closed (mpsc_view c) = true /\
     mpsc_view c' = mpsc_view c) \/
  (mpsc_try_reserve c = (Err (TrySendFull tt), c') /\ cv_closed (mpsc_view c) = false /\
     cv_full (mpsc_view c) = true /\ mpsc_view c' = mpsc_view c) \/
  (mpsc_try_reserve c = (Ok tt, c') /\ cv_closed (mpsc_view c) = false /\
     cv_full (mpsc_view c) = false /\
     mpsc_view c' = cv_with_permits (mpsc_view c) (S (cv_permits (mpsc_view c)))).
Proof.
  pose proof (mpsc_try_reserve_law c) as Hl. unfold cv_try_reserve in Hl.
  destruct (mpsc_try_reserve c) as [r c']. exists c'. simpl in Hl.
  destruct (cv_closed _) eqn:Hc; [left; by simplify_eq|].
  destruct (cv_full _) eqn:Hf; right; [left|right]; by simplify_eq.
Qed.
End Laws.
