(* ===== verification/ActorTypes.v ===== *)
(** * Identifiers, states, signals and errors

    The plain data types of acktor/src: [ActorId] (actor/index.rs), [ActorState] and
    [Stopping] (actor.rs), [Signal] (signal.rs), [CronState] and [CronSignal] (cron.rs),
    [SendError] and [RecvError] (error.rs), with their conversions. *)

From S2P Require Import Prelude Tokio.

(** ** [ActorId] *)

(** A local index and a session; session [0] marks a local actor. *)
Record ActorId : Type := mkActorId {
  id_index : Z;
  id_session : Z;
}.

#[global] Instance ActorId_eq_dec : EqDecision ActorId.
Proof. solve_decision. Defined.

#[global] Instance ActorId_countable : Countable ActorId.
Proof.
  refine (inj_countable' (fun i => (id_index i, id_session i)) (fun p => mkActorId p.1 p.2) _).
  by intros [].
Defined.

Definition ActorId_new (index : Z) : ActorId := mkActorId index 0.

Definition ActorId_as_local (i : ActorId) : Z := id_index i.

(** A [NonZeroU64] is a non-zero integer; the caller owns the proof. *)
Definition ActorId_new_remote (index : Z) (session : Z) : ActorId := mkActorId index session.

Definition ActorId_is_remote (i : ActorId) : bool := bool_decide (id_session i ≠ 0%Z).

(** [#[derive(PartialOrd, Ord)]]: lexicographic on the fields. *)
Definition ActorId_ltb (i j : ActorId) : bool :=
  (id_index i <? id_index j)%Z ||
  ((id_index i =? id_index j) && (id_session i <? id_session j))%Z.

(** ** States and signals *)

Inductive ActorState : Type := Unstarted | Starting | Running | Stopping | Stopped.

#[global] Instance ActorState_eq_dec : EqDecision ActorState.
Proof. solve_decision. Defined.

(** [state as u8] and [TryFrom<u8>]. *)
Definition ActorState_as_u8 (s : ActorState) : Z :=
  match s with Unstarted => 0 | Starting => 1 | Running => 2 | Stopping => 3 | Stopped => 4 end%Z.

Definition ActorState_try_from (value : Z) : result ActorState unit :=
  match value with
  | 0 => Ok Unstarted
  | 1 => Ok Starting
  | 2 => Ok Running
  | 3 => Ok Stopping
  | 4 => Ok Stopped
  | _ => Err tt
  end%Z.

(** The answer of the [stopping] hook ([enum Stopping]). *)
Inductive StoppingDecision : Type := Stop | Continue.

Inductive Signal : Type := SignalStop | SignalTerminate.

#[global] Instance Signal_eq_dec : EqDecision Signal.
Proof. solve_decision. Defined.

Definition Signal_as_u8 (s : Signal) : Z :=
  match s with SignalStop => 0 | SignalTerminate => 1 end%Z.

Definition Signal_try_from (value : Z) : result Signal unit :=
  match value with
  | 0 => Ok SignalStop
  | 1 => Ok SignalTerminate
  | _ => Err tt
  end%Z.

Inductive CronState : Type := CronNormal | CronPaused.

#[global] Instance CronState_eq_dec : EqDecision CronState.
Proof. solve_decision. Defined.

Inductive CronSignal : Type := CronPause | CronResume.

#[global] Instance CronSignal_eq_dec : EqDecision CronSignal.
Proof. solve_decision. Defined.

Definition CronSignal_as_u8 (s : CronSignal) : Z :=
  match s with CronPause => 0 | CronResume => 1 end%Z.

Definition CronSignal_try_from (value : Z) : result CronSignal unit :=
  match value with
  | 0 => Ok CronPause
  | 1 => Ok CronResume
  | _ => Err tt
  end%Z.

(** ** Errors of sending and receiving

    [BoxError] is any boxed error. *)

Inductive SendError (BoxError M : Type) : Type :=
| SendClosed (m : M)
| SendFull (m : M)
| SendTimeout (m : M)
| SendNoEncodeFn (m : M)
| SendOther (e : BoxError) (m : M).
Arguments SendClosed {BoxError M} _.
Arguments SendFull {BoxError M} _.
Arguments SendTimeout {BoxError M} _.
Arguments SendNoEncodeFn {BoxError M} _.
Arguments SendOther {BoxError M} _ _.

Inductive RecvError (BoxError : Type) : Type :=
| RecvClosed
| RecvEmpty
| RecvTimeout
| RecvOther (e : BoxError).
Arguments RecvClosed {BoxError}.
Arguments RecvEmpty {BoxError}.
Arguments RecvTimeout {BoxError}.
Arguments RecvOther {BoxError} _.

Section Errors.
Context {BoxError : Type}.

Definition SendError_with_msg {M} (e : SendError BoxError unit) (msg : M) : SendError BoxError M :=
  match e with
  | SendClosed _ => SendClosed msg
  | SendFull _ => SendFull msg
  | SendTimeout _ => SendTimeout msg
  | SendNoEncodeFn _ => SendNoEncodeFn msg
  | SendOther err _ => SendOther err msg
  end.

Definition SendError_without_msg {M} (e : SendError BoxError M) : SendError BoxError unit :=
  match e with
  | SendClosed _ => SendClosed tt
  | SendFull _ => SendFull tt
  | SendTimeout _ => SendTimeout tt
  | SendNoEncodeFn _ => SendNoEncodeFn tt
  | SendOther err _ => SendOther err tt
  end.

(** [SendError::other]: [into] boxes the error. *)
Definition SendError_other {M X} (into : X -> BoxError) (err : X) (msg : M) : SendError BoxError M :=
  SendOther (into err) msg.

(** [From<mpsc::error::SendError<M>>], which holds the message. *)
Definition SendError_from_send {M} (e : M) : SendError BoxError M := SendClosed e.

(** The message an error hands back. *)
Definition SendError_msg {M} (e : SendError BoxError M) : M :=
  match e with
  | SendClosed m | SendFull m | SendTimeout m | SendNoEncodeFn m | SendOther _ m => m
  end.

Definition SendError_from_try_send {M} (e : TrySendError M) : SendError BoxError M :=
  match e with
  | TrySendClosed m => SendClosed m
  | TrySendFull m => SendFull m
  end.

Definition SendError_from_send_timeout {M} (e : SendTimeoutError M) : SendError BoxError M :=
  match e with
  | SendTimeoutClosed m => SendClosed m
  | SendTimeoutElapsed m => SendTimeout m
  end.

(** [RecvError::other], which the conversions from strings use. *)
Definition RecvError_other {X} (into : X -> BoxError) (err : X) : RecvError BoxError := RecvOther (into err).

(** [From<BoxError>], and [From<oneshot::error::RecvError>], which holds nothing. *)
Definition RecvError_from_box (e : BoxError) : RecvError BoxError := RecvOther e.
Definition RecvError_from_oneshot_recv (e : unit) : RecvError BoxError := RecvClosed.

Definition RecvError_from_try_recv (e : TryRecvError) : RecvError BoxError :=
  match e with
  | TryRecvDisconnected => RecvClosed
  | TryRecvEmpty => RecvEmpty
  end.

Definition RecvError_from_oneshot (e : OneshotTryRecvError) : RecvError BoxError :=
  match e with
  | OneshotClosed => RecvClosed
  | OneshotEmpty => RecvEmpty
  end.
End Errors.

(** ** Panics *)

(** The payload of a panic: a [&str], a [String] or anything else. *)
Inductive PanicInfo : Type :=
| PanicStr (s : string)
| PanicString (s : string)
| PanicAny.

Definition panic_info_to_string (info : PanicInfo) : string :=
  match info with
  | PanicStr s => s
  | PanicString s => s
  | PanicAny => "could not capture the panic info"
  end.
