(* ===== verification/UserCode.v ===== *)
(** * Actors, messages, envelopes and the code a user writes

    The framework calls code it does not know: lifecycle hooks and message handlers. Such
    code is a tree of the effects it can have on its actor, on its context and on the
    scheduler ([ucode]); the theorems about the framework hold for every tree. The file
    also models what travels in a mailbox: the framework's own messages (signal.rs,
    supervisor.rs), envelopes and their handling (envelope/default_proxy.rs,
    envelope/timed_proxy.rs) and the mailbox (address/mailbox.rs, channel/mpsc.rs). *)

From S2P Require Import Prelude Tokio ActorTypes.

(** ** Supervision (supervisor.rs) *)

(** An address and a recipient are identified by their index ([PartialEq] and [Hash] of
    both compare the index only). *)
Record Recipient : Type := mkRecipient { rcp_index : ActorId }.

#[global] Instance Recipient_eq_dec : EqDecision Recipient.
Proof. solve_decision. Defined.

Inductive SupervisionEvent (E : Type) : Type :=
| SupWarn (address : ActorId) (e : E)
| SupTerminated (address : ActorId) (e : option E)
| SupPanicked (address : ActorId) (info : string)
| SupState (address : ActorId) (s : ActorState).
Arguments SupWarn {E} _ _.
Arguments SupTerminated {E} _ _.
Arguments SupPanicked {E} _ _.
Arguments SupState {E} _ _.

Inductive Supervisor : Type :=
| SupervisorSet (r : Recipient)
| SupervisorUnset.

(** ** Messages and envelopes *)

(** The messages of an actor: its own and the two every actor handles. *)
Inductive Msg (M : Type) : Type :=
| MsgUser (m : M)
| MsgSignal (s : Signal)
| MsgSupervisor (s : Supervisor).
Arguments MsgUser {M} _.
Arguments MsgSignal {M} _.
Arguments MsgSupervisor {M} _.

Inductive Reply (R : Type) : Type :=
| ReplyUser (r : R)
| ReplyUnit.
Arguments ReplyUser {R} _.
Arguments ReplyUnit {R}.

(** The two envelope proxies; [tx] names the response channel of a message that expects
    an answer, [budget] is the time a [Timed] message may take. *)
Inductive Envelope (M : Type) : Type :=
| DefaultEnvelopeProxy (message : option (Msg M)) (tx : option nat)
| TimedEnvelopeProxy (message : option (Msg M)) (tx : option nat) (budget : Z).
Arguments DefaultEnvelopeProxy {M} _ _.
Arguments TimedEnvelopeProxy {M} _ _ _.

Section Envelopes.
Context {M : Type}.

(** [Timed]: a message and the time its handling may take. *)
Record Timed : Type := mkTimed { timed_message : Msg M; timed_budget : Z }.

Definition Timed_new (message : Msg M) (budget : Z) : Timed := mkTimed message budget.
Definition Timed_into_parts (t : Timed) : Msg M * Z := (timed_message t, timed_budget t).

(** [message()] of the two proxies: takes the message out. *)
Definition EnvelopeProxy_message (e : Envelope M) : option (Msg M) * Envelope M :=
  match e with
  | DefaultEnvelopeProxy message tx => (message, DefaultEnvelopeProxy None tx)
  | TimedEnvelopeProxy message tx budget => (message, TimedEnvelopeProxy None tx budget)
  end.

(** [IntoEnvelope::pack] of a plain and of a [Timed] message. *)
Definition pack (m : Msg M) (tx : option nat) : Envelope M := DefaultEnvelopeProxy (Some m) tx.

Definition pack_timed (m : Msg M) (budget : Z) (tx : option nat) : Envelope M :=
  TimedEnvelopeProxy (Some m) tx budget.

(** [FromEnvelope::unpack]: panics on the other proxy or when the message is gone. *)
Definition unpack (e : Envelope M) : outcome (Msg M) :=
  match e with
  | DefaultEnvelopeProxy (Some m) _ => Done m
  | DefaultEnvelopeProxy None _ => Panicked "message already taken from DefaultEnvelopeProxy"
  | TimedEnvelopeProxy _ _ _ => Panicked "envelope proxy mismatch during downcast"
  end.

Definition unpack_timed (e : Envelope M) : outcome (Msg M * Z) :=
  match e with
  | TimedEnvelopeProxy (Some m) _ budget => Done (m, budget)
  | TimedEnvelopeProxy None _ _ => Panicked "message already taken from TimedEnvelopeProxy"
  | DefaultEnvelopeProxy _ _ => Panicked "envelope proxy mismatch during downcast"
  end.
End Envelopes.

(** ** Observable events *)

Inductive Hook : Type := PreStart | PostStart | StoppingHook | PostStop.

(** What a run of an actor does, in order: the hooks it enters with the state they see,
    the messages it handles or skips, the answers it sends, and the supervision events it
    sends ([EvNotify]) or logs for want of a supervisor ([EvLog]). A cron actor also runs
    its task ([EvTask]) and spawns or aborts the timer that resumes it. *)
Inductive Event (E M R : Type) : Type :=
| EvHook (h : Hook) (s : ActorState)
| EvHandle (m : Msg M)
| EvSkip (m : Msg M)
| EvReply (tx : nat) (r : Reply R)
| EvReplyTimeout (tx : nat)
| EvNotify (to : Recipient) (ev : SupervisionEvent E)
| EvLog (ev : SupervisionEvent E)
| EvTask
| EvTimerSpawn (id : nat) (duration : Z)
| EvTimerAbort (id : nat).
Arguments EvHook {E M R} _ _.
Arguments EvHandle {E M R} _.
Arguments EvSkip {E M R} _.
Arguments EvReply {E M R} _ _.
Arguments EvReplyTimeout {E M R} _.
Arguments EvNotify {E M R} _ _.
Arguments EvLog {E M R} _.
Arguments EvTask {E M R}.
Arguments EvTimerSpawn {E M R} _ _.
Arguments EvTimerAbort {E M R} _.

(** ** User code *)

(** A hook or handler returning [X]: it reads and writes its actor, reads its context,
    calls the methods [Op] of its context, awaits, panics or returns. *)
Inductive ucode (A C Op X : Type) : Type :=
| URet (x : X)
| UPanic (info : PanicInfo)
| UAwait (k : ucode A C Op X)
| UGet (k : A -> ucode A C Op X)
| UPut (a : A) (k : ucode A C Op X)
| UAsk (k : C -> ucode A C Op X)
| UOp (o : Op) (k : ucode A C Op X).
Arguments URet {A C Op X} _.
Arguments UPanic {A C Op X} _.
Arguments UAwait {A C Op X} _.
Arguments UGet {A C Op X} _.
Arguments UPut {A C Op X} _ _.
Arguments UAsk {A C Op X} _.
Arguments UOp {A C Op X} _ _.

(** How a piece of user code ends; [UTimedOut] when a time budget drops it at an await. *)
Inductive uresult (X : Type) : Type :=
| UDone (x : X)
| UPanicked (info : PanicInfo)
| UTimedOut.
Arguments UDone {X} _.
Arguments UPanicked {X} _.
Arguments UTimedOut {X}.

Definition is_panicked {X} (r : uresult X) : bool :=
  match r with UPanicked _ => true | _ => false end.

(** ** The context interface (the required methods of [trait ActorContext])

    [ctx_call] runs one of the methods that user code may call on the context. *)
Class ActorContext (E M R C Op : Type) : Type := {
  ctx_index : C -> ActorId;
  ctx_state : C -> ActorState;
  ctx_set_state : ActorState -> C -> C * list (Event E M R);
  ctx_supervisor : C -> option Recipient;
  ctx_set_supervisor : option Recipient -> C -> C;
  ctx_take_mailbox : C -> bool * C;
  ctx_call : Op -> C -> C * list (Event E M R);
}.

(** Everything a running actor touches: the actor, its context, its mailbox and the trace
    of events so far. *)
Record world (A C E M R : Type) (chan : Type -> Type) : Type := mkWorld {
  w_actor : A;
  w_ctx : C;
  w_mail : chan (Envelope M);
  w_trace : list (Event E M R);
}.
Arguments mkWorld {A C E M R chan} _ _ _ _.
Arguments w_actor {A C E M R chan} _.
Arguments w_ctx {A C E M R chan} _.
Arguments w_mail {A C E M R chan} _.
Arguments w_trace {A C E M R chan} _.

Section Exec.
Context {A C E M R Op : Type} {chan : Type -> Type} `{ActorContext E M R C Op}.

Abbreviation W := (world A C E M R chan).
Abbreviation code := (ucode A C Op).
Implicit Types (w : W).

Definition set_actor (a : A) w : W := mkWorld a (w_ctx w) (w_mail w) (w_trace w).
Definition set_ctx (c : C) w : W := mkWorld (w_actor w) c (w_mail w) (w_trace w).
Definition set_mail (q : chan (Envelope M)) w : W := mkWorld (w_actor w) (w_ctx w) q (w_trace w).
Definition emit (evs : list (Event E M R)) w : W :=
  mkWorld (w_actor w) (w_ctx w) (w_mail w) (w_trace w ++ evs).

(** A context method run in the world. *)
Definition on_ctx (f : C -> C * list (Event E M R)) w : W :=
  let (c, evs) := f (w_ctx w) in emit evs (set_ctx c w).

(** Runs user code; [cut] is the number of awaits after which a time budget, if there is
    one, drops it. *)
Fixpoint exec {X} (u : code X) (cut : option nat) w : uresult X * W :=
  match u with
  | URet x => (UDone x, w)
  | UPanic info => (UPanicked info, w)
  | UAwait k =>
      match cut with
      | None => exec k None w
      | Some 0 => (UTimedOut, w)
      | Some (S n) => exec k (Some n) w
      end
  | UGet k => exec (k (w_actor w)) cut w
  | UPut a k => exec k cut (set_actor a w)
  | UAsk k => exec (k (w_ctx w)) cut w
  | UOp o k => exec k cut (on_ctx (ctx_call o) w)
  end.

(** Entering a hook leaves its name and the state it sees in the trace. *)
Definition enter_hook (h : Hook) w : W := emit [EvHook h (ctx_state (w_ctx w))] w.

Definition exec_hook {X} (h : Hook) (u : code X) w : uresult X * W :=
  exec u None (enter_hook h w).

(** [MessageResponse::handle] for the result types that are sent back at once. *)
Definition respond (r : Reply R) (tx : option nat) w : W :=
  match tx with
  | Some t => emit [EvReply t r] w
  | None => w
  end.

(** The part both proxies share: a message whose requester is gone is not handled. *)
Definition skip_message (tx : option nat) (tx_closed : bool) : bool :=
  is_some tx && tx_closed.

(** [EnvelopeProxy::handle]. [tx_closed] is what [is_closed] of the response sender says
    when the envelope is opened; [cut] is where the budget of a timed envelope runs out,
    if it does. *)
Definition Envelope_handle (handler : Msg M -> code (Reply R)) (e : Envelope M)
    (tx_closed : bool) (cut : option nat) w : uresult unit * W :=
  match e with
  | DefaultEnvelopeProxy None _ => (UDone tt, w)
  | DefaultEnvelopeProxy (Some m) tx =>
      if skip_message tx tx_closed then (UDone tt, emit [EvSkip m] w)
      else
        match exec (handler m) None (emit [EvHandle m] w) with
        | (UDone r, w') => (UDone tt, respond r tx w')
        | (UPanicked info, w') => (UPanicked info, w')
        | (UTimedOut, w') => (UTimedOut, w')
        end
  | TimedEnvelopeProxy None _ _ => (UDone tt, w)
  | TimedEnvelopeProxy (Some m) tx budget =>
      if skip_message tx tx_closed then (UDone tt, emit [EvSkip m] w)
      else
        match exec (handler m) cut (emit [EvHandle m] w) with
        | (UDone r, w') => (UDone tt, respond r tx w')
        | (UPanicked info, w') => (UPanicked info, w')
        | (UTimedOut, w') =>
            (UDone tt, match tx with Some t => emit [EvReplyTimeout t] w' | None => w' end)
        end
  end.

(** Handling an envelope whose message was taken out does nothing. *)
Lemma taken_envelope_inert handler e tx_closed cut w :
  Envelope_handle handler (EnvelopeProxy_message e).2 tx_closed cut w = (UDone tt, w).
Proof. by destruct e. Qed.
End Exec.

(** ** The mailbox (address/mailbox.rs over channel/mpsc.rs) *)

Section Mailbox.
Context {M B : Type} {chan : Type -> Type} `{TokioMpsc chan}.

(** [Receiver::recv]: the poll of the wrapped receiver with [None] turned into an error. *)
Definition Receiver_recv {T} (c : chan T) : Poll (result T (RecvError B)) * chan T :=
  match mpsc_poll_recv c with
  | (Pending, c') => (Pending, c')
  | (Ready o, c') => (Ready (ok_or o RecvClosed), c')
  end.

Definition Receiver_try_recv {T} (c : chan T) : result T (RecvError B) * chan T :=
  let (r, c') := mpsc_try_recv c in (result_map_err RecvError_from_try_recv r, c').

(** [recv_timeout]: [elapsed] says whether the timer fires before a pending receive is
    ready. *)
Definition Receiver_recv_timeout {T} (elapsed : bool) (c : chan T)
    : Poll (result T (RecvError B)) * chan T :=
  match mpsc_poll_recv c with
  | (Ready (Some v), c') => (Ready (Ok v), c')
  | (Ready None, c') => (Ready (Err RecvClosed), c')
  | (Pending, c') => (if elapsed then Ready (Err RecvTimeout) else Pending, c')
  end.

(** [recv_many], [poll_recv_many] and, outside of the runtime, [blocking_recv_many]: the
    messages are appended to [buffer]; the answer is their number. *)
Definition Receiver_poll_recv_many {T} (buffer : list T) (limit : nat) (c : chan T)
    : Poll nat * list T * chan T :=
  match mpsc_poll_recv_many c limit with
  | (Ready ms, c') => (Ready (length ms), buffer ++ ms, c')
  | (Pending, c') => (Pending, buffer, c')
  end.

Definition Receiver_close {T} (c : chan T) : chan T := mpsc_close c.
Definition Receiver_is_closed {T} (c : chan T) : bool := mpsc_is_closed c.
Definition Receiver_len {T} (c : chan T) : nat := mpsc_len c.
Definition Receiver_is_empty {T} (c : chan T) : bool := bool_decide (mpsc_len c = 0).
Definition Receiver_capacity {T} (c : chan T) : nat := mpsc_capacity c.
Definition Receiver_max_capacity {T} (c : chan T) : nat := mpsc_max_capacity c.

Definition Mailbox_recv (c : chan (Envelope M)) : Poll (result (Envelope M) (RecvError B)) * _ :=
  Receiver_recv c.
Definition Mailbox_try_recv (c : chan (Envelope M)) : result (Envelope M) (RecvError B) * _ :=
  Receiver_try_recv c.
Definition Mailbox_close (c : chan (Envelope M)) : chan (Envelope M) := Receiver_close c.
Definition Mailbox_is_closed (c : chan (Envelope M)) : bool := Receiver_is_closed c.
Definition Mailbox_len (c : chan (Envelope M)) : nat := Receiver_len c.
Definition Mailbox_is_empty (c : chan (Envelope M)) : bool := Receiver_is_empty c.
Definition Mailbox_capacity (c : chan (Envelope M)) : nat := Receiver_capacity c.
Definition Mailbox_max_capacity (c : chan (Envelope M)) : nat := Receiver_max_capacity c.

(** Other tasks send while the actor is suspended; a full mailbox refuses a message. *)
Definition deliver (es : list (Envelope M)) (c : chan (Envelope M)) : chan (Envelope M) :=
  fold_left (fun c e => (mpsc_try_send c e).2) es c.

(** Receiving many messages takes the oldest ones, in order, and as many as it says. *)
Lemma recv_many_oldest {T} (buffer : list T) limit (c : chan T) n buffer' c' :
  Receiver_poll_recv_many buffer limit c = (Ready n, buffer', c') ->
  n <= limit /\ buffer' = buffer ++ take n (cv_queue (mpsc_view c)) /\
  cv_queue (mpsc_view c') = drop n (cv_queue (mpsc_view c)) /\
  (n = 0 -> limit = 0 \/ cv_queue (mpsc_view c) = [] /\ cv_disconnected (mpsc_view c) = true).
Proof.
  unfold Receiver_poll_recv_many. pose proof (mpsc_poll_recv_many_law c limit) as Hl.
  destruct (mpsc_poll_recv_many c limit) as [[|ms] c1]; [done|]. simpl in Hl.
  intros ?; simplify_eq/=. unfold cv_poll_recv_many in Hl.
  destruct limit as [|limit].
  { injection Hl as -> ->. split_and!; [done|by simpl|done|by left]. }
  destruct (cv_queue (mpsc_view c)) as [|m q] eqn:Eq.
  - destruct (cv_disconnected (mpsc_view c)); [|done]. injection Hl as -> ->. rewrite Eq.
    split_and!; [simpl; lia|by simpl|done|auto].
  - assert (Hms : ms = take (S limit) (m :: q)) by by injection Hl.
    assert (Hv : cv_queue (mpsc_view c') = drop (S limit) (m :: q)) by (by injection Hl as _ ->).
    rewrite Hv. clear Hl Hv. subst ms. split_and!.
    + rewrite length_take. lia.
    + by rewrite take_length_take.
    + by rewrite drop_length_take.
    + rewrite length_take. simpl. lia.
Qed.
End Mailbox.
