(* ===== verification/Context.v ===== *)
(** * The default actor context

    Models acktor/src/context.rs ([Context], its message loop), acktor/src/drain.rs (the
    two drain policies), the provided notification methods of [trait ActorContext]
    (actor.rs), and the handlers every actor has for [Signal] (signal.rs) and
    [Supervisor] (supervisor.rs). *)

From S2P Require Import Prelude Tokio ActorTypes UserCode.

(** ** Notifications (provided methods of [trait ActorContext]) *)

Section Notify.
Context {E M R : Type}.

(** Without a supervisor, warnings and errors are logged and the rest is dropped. *)
Definition log_event (event : SupervisionEvent E) : list (Event E M R) :=
  match event with
  | SupWarn _ _ => [EvLog event]
  | SupTerminated _ (Some _) => [EvLog event]
  | _ => []
  end.

(** The result of sending to the supervisor is ignored. *)
Definition try_notify_supervisor (supervisor : option Recipient) (event : SupervisionEvent E)
    : list (Event E M R) :=
  match supervisor with
  | Some s => [EvNotify s event]
  | None => log_event event
  end.

(** Waits for room in the supervisor's mailbox; the same observable event. *)
Definition notify_supervisor (supervisor : option Recipient) (event : SupervisionEvent E)
    : list (Event E M R) :=
  match supervisor with
  | Some s => [EvNotify s event]
  | None => log_event event
  end.
End Notify.

Section Provided.
Context {A C E M R Op : Type} {chan : Type -> Type} `{ActorContext E M R C Op}.

(** [ActorContext::stop] and [ActorContext::terminate]. *)
Definition ActorContext_stop : C -> C * list (Event E M R) := ctx_set_state Stopping.
Definition ActorContext_terminate : C -> C * list (Event E M R) := ctx_set_state Stopped.

Definition ctx_notify (event : ActorId -> SupervisionEvent E) (c : C) : C * list (Event E M R) :=
  (c, try_notify_supervisor (ctx_supervisor c) (event (ctx_index c))).
End Provided.

(** ** Drain policies (drain.rs) *)

(** [dp_drain_mailbox] is the method [drain_mailbox] of a context with this policy, where
    it has one. *)
Class DrainPolicy (State : Type) : Type := {
  dp_default : State;
  dp_snapshot {M chan} `{TokioMpsc chan} : State -> chan (Envelope M) -> State;
  dp_apply {M chan} `{TokioMpsc chan} : State -> chan (Envelope M) -> State * chan (Envelope M);
  dp_drain_mailbox : option (State -> State);
}.

#[global] Instance NoDrain : DrainPolicy unit := {|
  dp_default := tt;
  dp_snapshot M chan _ s _ := s;
  dp_apply M chan _ s c := (s, c);
  dp_drain_mailbox := None;
|}.

Record DrainState : Type := mkDrainState {
  mailbox_len : nat;
  requested : bool;
}.

Definition DrainState_default : DrainState := mkDrainState 0 false.

Definition DrainState_request (s : DrainState) : DrainState := mkDrainState (mailbox_len s) true.

(** [for _ in 0..n { let _ = mailbox.try_recv(); }] *)
Fixpoint discard {M chan} `{TokioMpsc chan} (n : nat) (c : chan (Envelope M))
    : chan (Envelope M) :=
  match n with
  | O => c
  | S n => discard n (Mailbox_try_recv (B := unit) c).2
  end.

Definition Drainable_snapshot {M chan} `{TokioMpsc chan} (s : DrainState)
    (mailbox : chan (Envelope M)) : DrainState :=
  mkDrainState (Mailbox_len mailbox) (requested s).

Definition Drainable_apply {M chan} `{TokioMpsc chan} (s : DrainState)
    (mailbox : chan (Envelope M)) : DrainState * chan (Envelope M) :=
  if requested s
  then (mkDrainState (mailbox_len s) false, discard (mailbox_len s) mailbox)
  else (s, mailbox).

#[global] Instance Drainable : DrainPolicy DrainState := {|
  dp_default := DrainState_default;
  dp_snapshot M chan _ := Drainable_snapshot;
  dp_apply M chan _ := Drainable_apply;
  dp_drain_mailbox := Some DrainState_request;
|}.

(** ** [Context] *)

Record Context (E D : Type) : Type := mkContext {
  label : string;
  state : ActorState;
  doorplate : ActorId;
  mailbox : bool;
  drain : D;
  error : option E;
  supervisor : option Recipient;
}.
Arguments mkContext {E D} _ _ _ _ _ _ _.
Arguments label {E D} _.
Arguments state {E D} _.
Arguments doorplate {E D} _.
Arguments mailbox {E D} _.
Arguments drain {E D} _.
Arguments error {E D} _.
Arguments supervisor {E D} _.

(** The methods that user code may call on a [Context]. *)
Inductive ContextOp (E : Type) : Type :=
| OpSetState (s : ActorState)
| OpStop
| OpTerminate
| OpSaveError (e : E)
| OpSetSupervisor (o : option Recipient)
| OpTryNotify (ev : SupervisionEvent E)
| OpNotify (ev : SupervisionEvent E)
| OpTakeMailbox
| OpDrainMailbox.
Arguments OpSetState {E} _.
Arguments OpStop {E}.
Arguments OpTerminate {E}.
Arguments OpSaveError {E} _.
Arguments OpSetSupervisor {E} _.
Arguments OpTryNotify {E} _.
Arguments OpNotify {E} _.
Arguments OpTakeMailbox {E}.
Arguments OpDrainMailbox {E}.

Definition DEFAULT_MAILBOX_CAPACITY : nat := 8.

Section ContextOps.
Context {E M R D : Type} `{DrainPolicy D}.

Abbreviation Ctx := (Context E D).
Implicit Types (c : Ctx).

Definition with_state c (s : ActorState) : Ctx :=
  mkContext (label c) s (doorplate c) (mailbox c) (drain c) (error c) (supervisor c).
Definition with_drain c (d : D) : Ctx :=
  mkContext (label c) (state c) (doorplate c) (mailbox c) d (error c) (supervisor c).
Definition with_error c (e : option E) : Ctx :=
  mkContext (label c) (state c) (doorplate c) (mailbox c) (drain c) e (supervisor c).
Definition with_supervisor c (s : option Recipient) : Ctx :=
  mkContext (label c) (state c) (doorplate c) (mailbox c) (drain c) (error c) s.
Definition with_mailbox c (b : bool) : Ctx :=
  mkContext (label c) (state c) (doorplate c) b (drain c) (error c) (supervisor c).

(** [with_capacity]: takes the next actor index and creates the channel. *)
Definition Context_with_capacity {chan} `{TokioMpsc chan} (lbl : string) (capacity : nat)
    (next_index : Z) : Ctx * chan (Envelope M) * Z :=
  (mkContext lbl Unstarted (ActorId_new next_index) true dp_default None None,
   mpsc_channel capacity, wrap_u 64 (next_index + 1)).

Definition Context_new {chan} `{TokioMpsc chan} (lbl : string) (next_index : Z)
    : Ctx * chan (Envelope M) * Z :=
  Context_with_capacity lbl DEFAULT_MAILBOX_CAPACITY next_index.

Definition Context_save_error (e : E) c : Ctx := with_error c (Some e).

Definition Context_take_error c : result unit E * Ctx :=
  match error c with
  | Some e => (Err e, with_error c None)
  | None => (Ok tt, with_error c None)
  end.

Definition Context_drain_mailbox c : Ctx :=
  match dp_drain_mailbox with
  | Some request => with_drain c (request (drain c))
  | None => c
  end.

Definition Context_take_mailbox c : bool * Ctx := (mailbox c, with_mailbox c false).

Definition Context_set_state (s : ActorState) c : Ctx * list (Event E M R) :=
  let c := with_state c s in
  (c, try_notify_supervisor (supervisor c) (SupState (doorplate c) s)).

Definition Context_set_supervisor (o : option Recipient) c : Ctx :=
  match o with
  | Some s => if bool_decide (rcp_index s = doorplate c) then c else with_supervisor c (Some s)
  | None => with_supervisor c None
  end.

Definition Context_call (o : ContextOp E) c : Ctx * list (Event E M R) :=
  match o with
  | OpSetState s => Context_set_state s c
  | OpStop => Context_set_state Stopping c
  | OpTerminate => Context_set_state Stopped c
  | OpSaveError e => (Context_save_error e c, [])
  | OpSetSupervisor o => (Context_set_supervisor o c, [])
  | OpTryNotify ev => (c, try_notify_supervisor (supervisor c) ev)
  | OpNotify ev => (c, notify_supervisor (supervisor c) ev)
  | OpTakeMailbox => ((Context_take_mailbox c).2, [])
  | OpDrainMailbox => (Context_drain_mailbox c, [])
  end.

#[global] Instance Context_ActorContext : ActorContext E M R Ctx (ContextOp E) := {|
  ctx_index := doorplate;
  ctx_state := state;
  ctx_set_state := Context_set_state;
  ctx_supervisor := supervisor;
  ctx_set_supervisor := Context_set_supervisor;
  ctx_take_mailbox := Context_take_mailbox;
  ctx_call := Context_call;
|}.
End ContextOps.

(** ** The message loop *)

(** What the scheduler and the other tasks do around one turn of the loop: the envelopes
    that arrive before the receive completes, whether the response sender of the received
    envelope is closed, where a time budget cuts its handler, and what arrives while the
    handler and the [stopping] hook run. *)
Record Turn (M : Type) : Type := mkTurn {
  t_arrive : list (Envelope M);
  t_tx_closed : bool;
  t_cut : option nat;
  t_during : list (Envelope M);
  t_stopping : list (Envelope M);
}.
Arguments mkTurn {M} _ _ _ _ _.
Arguments t_arrive {M} _.
Arguments t_tx_closed {M} _.
Arguments t_cut {M} _.
Arguments t_during {M} _.
Arguments t_stopping {M} _.

(** How a turn leaves the loop, and how the loop itself ends; [LoopWaiting] when the
    scheduled turns are over and the loop still waits for a message. *)
Inductive turn_out (E : Type) : Type :=
| TurnNext
| TurnReturn (r : result unit E)
| TurnPanic (info : PanicInfo).
Arguments TurnNext {E}.
Arguments TurnReturn {E} _.
Arguments TurnPanic {E} _.

Inductive loop_out (E : Type) : Type :=
| LoopReturned (r : result unit E)
| LoopPanicked (info : PanicInfo)
| LoopWaiting.
Arguments LoopReturned {E} _.
Arguments LoopPanicked {E} _.
Arguments LoopWaiting {E}.

Section RunLoop.
Context {A E M R D : Type} {chan : Type -> Type} `{TokioMpsc chan} `{DrainPolicy D}.

Abbreviation Ctx := (Context E D).
Abbreviation W := (world A Ctx E M R chan).
Abbreviation code := (ucode A Ctx (ContextOp E)).

(** The actor: its message handler and its [stopping] hook. *)
Context (handler : Msg M -> code (Reply R)).
Context (stopping : code (result StoppingDecision E)).

Implicit Types (w : W) (t : Turn M).

Definition set_state_w (s : ActorState) w : W := on_ctx (ctx_set_state s) w.

(** [self.try_notify_supervisor(event(self.address()))]. *)
Definition notify_w (event : ActorId -> SupervisionEvent E) w : W := on_ctx (ctx_notify event) w.

Definition take_error_w w : result unit E * W :=
  let (r, c) := Context_take_error (w_ctx w) in (r, set_ctx c w).

Definition snapshot_w w : W :=
  set_ctx (with_drain (w_ctx w) (dp_snapshot (drain (w_ctx w)) (w_mail w))) w.

Definition apply_drain_w w : W :=
  let (d, q) := dp_apply (drain (w_ctx w)) (w_mail w) in
  set_mail q (set_ctx (with_drain (w_ctx w) d) w).

Definition deliver_w (es : list (Envelope M)) w : W := set_mail (deliver es (w_mail w)) w.

(** Handling one received envelope, drain included. *)
Definition handle_envelope t (e : Envelope M) w : uresult unit * W :=
  match Envelope_handle handler e (t_tx_closed t) (t_cut t) (snapshot_w w) with
  | (UPanicked info, w) => (UPanicked info, w)
  | (r, w) => (r, apply_drain_w (deliver_w (t_during t) w))
  end.

(** A saved error asks an actor that is still running to stop. *)
Definition check_error w : W :=
  if is_some (error (w_ctx w)) && bool_decide (state (w_ctx w) = Running)
  then set_state_w Stopping w else w.

(** The [match self.state()] that closes a turn. *)
Definition after_message t w : turn_out E * W :=
  match state (w_ctx w) with
  | Stopping =>
      let (result, w) := take_error_w w in
      let (d, w) := exec_hook StoppingHook stopping w in
      let w := deliver_w (t_stopping t) w in
      match d with
      | UDone (Ok Stop) => (TurnReturn result, w)
      | UDone (Ok Continue) =>
          let w := match result with
                   | Err e => notify_w (fun a => SupWarn a e) w
                   | Ok _ => w
                   end in
          (TurnNext, set_state_w Running w)
      | UDone (Err e) => (TurnReturn (result_or result (Err e)), w)
      | UPanicked info => (TurnPanic info, w)
      | UTimedOut => (TurnNext, w)
      end
  | Stopped => let (result, w) := take_error_w w in (TurnReturn result, w)
  | _ => (TurnNext, w)
  end.

(** One turn of the [while] loop; a receive that stays pending leaves the world waiting. *)
Definition Context_turn t w : turn_out E * W :=
  let w := deliver_w (t_arrive t) w in
  match Mailbox_recv (B := unit) (w_mail w) with
  | (Pending, q) => (TurnNext, set_mail q w)
  | (Ready (Ok envelope), q) =>
      match handle_envelope t envelope (set_mail q w) with
      | (UPanicked info, w) => (TurnPanic info, w)
      | (_, w) => after_message t (check_error w)
      end
  | (Ready (Err _), q) => after_message t (set_state_w Stopped (set_mail q w))
  end.

Fixpoint Context_run_loop (sched : list (Turn M)) w : loop_out E * W :=
  if bool_decide (state (w_ctx w) = Running) then
    match sched with
    | [] => (LoopWaiting, w)
    | t :: sched =>
        match Context_turn t w with
        | (TurnReturn r, w) => (LoopReturned r, w)
        | (TurnPanic info, w) => (LoopPanicked info, w)
        | (TurnNext, w) => Context_run_loop sched w
        end
    end
  else (LoopReturned (Ok tt), w).
End RunLoop.

(** ** Handlers every actor has *)

Section FrameworkHandlers.
Context {A E M R D : Type} `{DrainPolicy D}.

Abbreviation code := (ucode A (Context E D) (ContextOp E)).

(** [Handler<Signal>] and [Handler<Supervisor<A>>]. *)
Definition Signal_handle (s : Signal) : code (Reply R) :=
  match s with
  | SignalStop => UOp OpStop (URet ReplyUnit)
  | SignalTerminate => UOp OpTerminate (URet ReplyUnit)
  end.

Definition Supervisor_handle (s : Supervisor) : code (Reply R) :=
  match s with
  | SupervisorSet r => UOp (OpSetSupervisor (Some r)) (URet ReplyUnit)
  | SupervisorUnset => UOp (OpSetSupervisor None) (URet ReplyUnit)
  end.

(** The dispatch of a message to its handler. *)
Definition dispatch (user : M -> code R) (m : Msg M) : code (Reply R) :=
  match m with
  | MsgUser m =>
      (fix lift (u : code R) : code (Reply R) :=
         match u with
         | URet r => URet (ReplyUser r)
         | UPanic info => UPanic info
         | UAwait k => UAwait (lift k)
         | UGet k => UGet (fun a => lift (k a))
         | UPut a k => UPut a (lift k)
         | UAsk k => UAsk (fun c => lift (k c))
         | UOp o k => UOp o (lift k)
         end) (user m)
  | MsgSignal s => Signal_handle s
  | MsgSupervisor s => Supervisor_handle s
  end.
End FrameworkHandlers.
