(* ===== verification/Lifecycle.v ===== *)
(** * The life of an actor

    Models the provided methods of [trait ActorContext] and [trait Actor] that start and
    run an actor (acktor/src/actor.rs: [run], [spawn], [start], [create]), for any message
    loop: the loop is an argument, so the same definitions serve the default context and
    the cron context. *)

From S2P Require Import Prelude Tokio ActorTypes UserCode Context.

(** The hooks an actor implements. *)
Record Hooks (A C Op E : Type) : Type := mkHooks {
  pre_start : ucode A C Op (result unit E);
  post_start : ucode A C Op (result unit E);
  stopping : ucode A C Op (result StoppingDecision E);
  post_stop : ucode A C Op (result unit E);
}.
Arguments mkHooks {A C Op E} _ _ _ _.
Arguments pre_start {A C Op E} _.
Arguments post_start {A C Op E} _.
Arguments stopping {A C Op E} _.
Arguments post_stop {A C Op E} _.

(** The result of [catch_unwind]: a value, or the payload of a panic. *)
Definition catch_unwind {X E : Type} (r : uresult (result X E)) : option (result (result X E) PanicInfo) :=
  match r with
  | UDone x => Some (Ok x)
  | UPanicked info => Some (Err info)
  | UTimedOut => None
  end.

(** How the task of an actor ends; [RunWaiting] when it still waits for messages after the
    scheduled turns. *)
Inductive run_out (E : Type) : Type :=
| RunDone (r : result (result unit E) PanicInfo)
| RunWaiting.
Arguments RunDone {E} _.
Arguments RunWaiting {E}.

Inductive spawn_out (E : Type) : Type :=
| SpawnPanicked (info : string)
| SpawnErr (e : E)
| SpawnOk (o : run_out E).
Arguments SpawnPanicked {E} _.
Arguments SpawnErr {E} _.
Arguments SpawnOk {E} _.

Section Lifecycle.
Context {A C E M R Op : Type} {chan : Type -> Type}.
Context `{ActorContext E M R C Op} `{TokioMpsc chan}.

Abbreviation W := (world A C E M R chan).
Abbreviation code := (ucode A C Op).

Context (hooks : Hooks A C Op E).
Context (run_loop : list (Turn M) -> W -> loop_out E * W).

Implicit Types (w : W).

Definition ctx_set_state_w (s : ActorState) w : W := on_ctx (ctx_set_state s) w.

Definition drop_mailbox w : W := set_mail (mpsc_close (w_mail w)) w.

(** The error of the loop wins over the error of [post_stop]. *)
Definition combine_results (loop_result result_post_stop : result unit E) : result unit E :=
  match loop_result, result_post_stop with
  | Err e, Err _ => Err e
  | Err e, Ok _ => Err e
  | Ok _, r => r
  end.

(** The end of [run]: [post_stop] is skipped when the loop panicked. *)
Definition run_post_stop (caught : result (result unit E) PanicInfo) w : run_out E * W :=
  match caught with
  | Err info => (RunDone (Err info), w)
  | Ok loop_result =>
      let (r, w) := exec_hook PostStop (post_stop hooks) w in
      match r with
      | UDone result_post_stop => (RunDone (Ok (combine_results loop_result result_post_stop)), w)
      | UPanicked info => (RunDone (Err info), w)
      | UTimedOut => (RunWaiting, w)
      end
  end.

(** After the loop: force the state to [Stopped], close the mailbox, run [post_stop]. *)
Definition run_finish (caught : result (result unit E) PanicInfo) w : run_out E * W :=
  let w := if bool_decide (ctx_state (w_ctx w) ≠ Stopped) then ctx_set_state_w Stopped w else w in
  run_post_stop caught (drop_mailbox w).

(** The rest of [run] once [post_start] has succeeded and the actor is running. *)
Definition run_to_end (sched : list (Turn M)) w : run_out E * W :=
  match run_loop sched w with
  | (LoopWaiting, w) => (RunWaiting, w)
  | (LoopReturned result, w) => run_finish (Ok result) w
  | (LoopPanicked info, w) => run_finish (Err info) w
  end.

(** [ActorContext::run]. A [post_start] that fails or panics ends the actor; the mailbox,
    owned by this function, is dropped with it. *)
Definition ActorContext_run (sched : list (Turn M)) w : run_out E * W :=
  let (r, w) := exec_hook PostStart (post_start hooks) w in
  match catch_unwind r with
  | Some (Ok (Ok tt)) => run_to_end sched (ctx_set_state_w Running w)
  | Some result => (RunDone result, drop_mailbox (ctx_set_state_w Stopped w))
  | None => (RunWaiting, w)
  end.

(** The event the task reports last. *)
Definition terminal_event (r : result (result unit E) PanicInfo) (address : ActorId)
    : SupervisionEvent E :=
  match r with
  | Ok (Ok _) => SupTerminated address None
  | Ok (Err e) => SupTerminated address (Some e)
  | Err info => SupPanicked address (panic_info_to_string info)
  end.

(** The task spawned into the runtime. *)
Definition spawn_task (sched : list (Turn M)) w : run_out E * W :=
  match ActorContext_run sched w with
  | (RunDone r, w) => (RunDone r, on_ctx (ctx_notify (terminal_event r)) w)
  | (RunWaiting, w) => (RunWaiting, w)
  end.

Definition expect_mailbox : string :=
  "ActorContext::take_mailbox() returned None on first call to spawn(); custom ActorContext implementations must provide a mailbox in new()".

(** [ActorContext::spawn]: a panic of [pre_start] is resumed in the caller. Leaving early
    drops the mailbox that was taken out of the context. *)
Definition ActorContext_spawn (sched : list (Turn M)) w : spawn_out E * W :=
  let (present, c) := ctx_take_mailbox (w_ctx w) in
  if present then
    match exec_hook PreStart (pre_start hooks) (set_ctx c w) with
    | (UPanicked info, w) => (SpawnPanicked (panic_info_to_string info), drop_mailbox w)
    | (UDone (Err e), w) => (SpawnErr e, drop_mailbox w)
    | (UDone (Ok _), w) =>
        let (o, w) := spawn_task sched (ctx_set_state_w Starting w) in (SpawnOk o, w)
    | (UTimedOut, w) => (SpawnOk RunWaiting, w)
    end
  else (SpawnPanicked expect_mailbox, w).

(** [Actor::start]: a fresh context and the actor given. *)
Definition Actor_start (a : A) (c : C) (mail : chan (Envelope M)) (sched : list (Turn M))
    : spawn_out E * W :=
  ActorContext_spawn sched (mkWorld a c mail []).

(** [Actor::create]: the actor is built by [f], which may use the fresh context; if it
    fails, the context is dropped with its mailbox. *)
Definition Actor_create (a0 : A) (f : code (result A E)) (c : C) (mail : chan (Envelope M))
    (sched : list (Turn M)) : spawn_out E * W :=
  match exec f None (mkWorld a0 c mail []) with
  | (UDone (Ok a), w) => ActorContext_spawn sched (set_actor a w)
  | (UDone (Err e), w) => (SpawnErr e, drop_mailbox w)
  | (UPanicked info, w) => (SpawnPanicked (panic_info_to_string info), drop_mailbox w)
  | (UTimedOut, w) => (SpawnOk RunWaiting, w)
  end.
End Lifecycle.
