(* ===== verification/ContextFacts.v ===== *)
(** * Facts about contexts, user code and mailboxes

    [ContextLaws] is what the life cycle needs of a context, whatever its type; the
    default context meets it. The lemmas lift a property of single context calls to whole
    pieces of user code, and describe what the mailbox operations do to the queue. *)

From S2P Require Import Prelude Tokio ActorTypes UserCode Context Lifecycle.

(** ** Events *)

Section Events.
Context {E M R : Type}.
Implicit Types (ev : Event E M R) (tr : list (Event E M R)).

(** What a context call may record: supervision events sent or logged, timers aborted. *)
Definition is_notice ev : Prop :=
  match ev with EvNotify _ _ | EvLog _ | EvTimerAbort _ => True | _ => False end.

(** The messages taken out of an envelope, handled or skipped. *)
Definition opened ev : option (Msg M) :=
  match ev with EvHandle m | EvSkip m => Some m | _ => None end.

Definition hook_of ev : option Hook :=
  match ev with EvHook h _ => Some h | _ => None end.

Lemma try_notify_notices o (e : SupervisionEvent E) :
  Forall is_notice (try_notify_supervisor o e : list (Event E M R)).
Proof. destruct o as [s|]; simpl; [by repeat constructor|]. destruct e as [|? []| |]; by repeat constructor. Qed.

Lemma notices_opened tr : Forall is_notice tr -> omap opened tr = [].
Proof. induction 1 as [|ev tr Hev _ IH]; [done|]. by destruct ev. Qed.

Lemma notices_hooks tr : Forall is_notice tr -> omap hook_of tr = [].
Proof. induction 1 as [|ev tr Hev _ IH]; [done|]. by destruct ev. Qed.
End Events.

(** The state in which the documentation of each hook says it runs. *)
Definition documented_state (h : Hook) : ActorState :=
  match h with
  | PreStart => Unstarted
  | PostStart => Starting
  | StoppingHook => Stopping
  | PostStop => Stopped
  end.

(** An event that the actor [i] may produce: a hook entered in its documented state, a
    notification to another actor. *)
Definition event_ok {E M R} (i : ActorId) (ev : Event E M R) : Prop :=
  match ev with
  | EvHook h s => s = documented_state h
  | EvNotify r _ => rcp_index r ≠ i
  | _ => True
  end.

(** The supervisor of an actor is another actor. *)
Definition supervisor_ok (i : ActorId) (o : option Recipient) : Prop :=
  match o with Some r => rcp_index r ≠ i | None => True end.

Lemma try_notify_ok {E M R} i o (e : SupervisionEvent E) :
  supervisor_ok i o -> Forall (event_ok i) (try_notify_supervisor o e : list (Event E M R)).
Proof. destruct o as [s|]; simpl; [by repeat constructor|]. destruct e as [|? []| |]; by repeat constructor. Qed.

(** ** The interface laws *)

Class ContextLaws (E M R C Op : Type) `{ActorContext E M R C Op} : Prop := {
  law_call_notices o c : Forall is_notice (ctx_call o c).2;
  law_call_index o c : ctx_index (ctx_call o c).1 = ctx_index c;
  law_call_supervisor o c :
    supervisor_ok (ctx_index c) (ctx_supervisor c) ->
    supervisor_ok (ctx_index c) (ctx_supervisor (ctx_call o c).1) /\
    Forall (event_ok (ctx_index c)) (ctx_call o c).2;
  law_state_set s c : ctx_state (ctx_set_state s c).1 = s;
  law_state_index s c : ctx_index (ctx_set_state s c).1 = ctx_index c;
  law_state_supervisor s c : ctx_supervisor (ctx_set_state s c).1 = ctx_supervisor c;
  law_state_notice s c :
    (ctx_set_state s c).2 = try_notify_supervisor (ctx_supervisor c) (SupState (ctx_index c) s);
  law_take_index c : ctx_index (ctx_take_mailbox c).2 = ctx_index c;
  law_take_state c : ctx_state (ctx_take_mailbox c).2 = ctx_state c;
  law_take_supervisor c : ctx_supervisor (ctx_take_mailbox c).2 = ctx_supervisor c;
}.

#[global] Instance Context_laws {E M R D} `{DrainPolicy D} :
  ContextLaws E M R (Context E D) (ContextOp E).
Proof.
  split; try done.
  - intros [] c; simpl; auto using try_notify_notices; try (by constructor).
  - intros [] c; simpl; try done.
    + unfold Context_set_supervisor. by repeat case_match.
    + unfold Context_drain_mailbox. by case_match.
  - intros o c Hs. split.
    + destruct o as [| | | |[r|]| | | |]; simpl in *; try done.
      * by case_bool_decide.
      * unfold Context_drain_mailbox. by case_match.
    + destruct o; simpl in *; try (by constructor); by apply try_notify_ok.
Qed.

(** ** User code *)

Section ExecFacts.
Context {A C E M R Op : Type} {chan : Type -> Type}.
Context `{HL : ContextLaws E M R C Op}.

Abbreviation W := (world A C E M R chan).
Abbreviation code := (ucode A C Op).
Implicit Types (w : W).

Lemma exec_no_timeout {X} (u : code X) w : (exec u None w).1 ≠ UTimedOut.
Proof. revert w. induction u as [x|info|k IHu|k IHu|a k IHu|k IHu|o k IHu]; intros w; simpl; auto. Qed.

Lemma on_ctx_mail (f : C -> C * list (Event E M R)) w : w_mail (on_ctx f w) = w_mail w.
Proof. unfold on_ctx. by destruct (f (w_ctx w)). Qed.

Lemma on_ctx_ctx (f : C -> C * list (Event E M R)) w : w_ctx (on_ctx f w) = (f (w_ctx w)).1.
Proof. unfold on_ctx. by destruct (f (w_ctx w)). Qed.

Lemma on_ctx_trace (f : C -> C * list (Event E M R)) w :
  w_trace (on_ctx f w) = w_trace w ++ (f (w_ctx w)).2.
Proof. unfold on_ctx. by destruct (f (w_ctx w)). Qed.

Lemma exec_mail {X} (u : code X) cut w : w_mail (exec u cut w).2 = w_mail w.
Proof.
  revert cut w. induction u as [x|info|k IHu|k IHu|a k IHu|k IHu|o k IHu]; intros cut w;
    simpl; try done; try (by rewrite IHu).
  - by destruct cut as [[|n]|].
  - by rewrite IHu, on_ctx_mail.
Qed.

(** A property of contexts that every call preserves holds after user code. *)
Lemma exec_ctx {X} (P : C -> Prop) (u : code X) cut w :
  (forall o c, P c -> P (ctx_call o c).1) -> P (w_ctx w) -> P (w_ctx (exec u cut w).2).
Proof.
  intros HP. revert cut w.
  induction u as [x|info|k IHu|k IHu|a k IHu|k IHu|o k IHu]; intros cut w Hw; simpl; try done;
    try (by apply IHu).
  - destruct cut as [[|n]|]; [done|by apply IHu..].
  - apply IHu. rewrite on_ctx_ctx. by apply HP.
Qed.

(** User code extends the trace by the events of its context calls. *)
Lemma exec_trace {X} (I : C -> Prop) (Q : Event E M R -> Prop) (u : code X) cut w :
  (forall o c, I c -> I (ctx_call o c).1 /\ Forall Q (ctx_call o c).2) -> I (w_ctx w) ->
  exists evs, w_trace (exec u cut w).2 = w_trace w ++ evs /\ Forall Q evs.
Proof.
  intros HQ. revert cut w.
  induction u as [x|info|k IHu|k IHu|a k IHu|k IHu|o k IHu]; intros cut w Hw; simpl;
    try (exists []; by rewrite app_nil_r); try (by apply IHu).
  - destruct cut as [[|n]|]; [|by apply IHu..]. exists []. by rewrite app_nil_r.
  - by apply (IHu cut (set_actor a w)).
  - destruct (HQ o (w_ctx w) Hw) as [Hc Hev].
    destruct (IHu cut (on_ctx (ctx_call o) w)) as (evs' & -> & Hevs');
      [by rewrite on_ctx_ctx|].
    exists ((ctx_call o (w_ctx w)).2 ++ evs').
    by rewrite on_ctx_trace, <- app_assoc, Forall_app.
Qed.

Lemma exec_notices {X} (u : code X) cut w :
  exists evs, w_trace (exec u cut w).2 = w_trace w ++ evs /\ Forall is_notice evs.
Proof using Type*.
  apply (exec_trace (fun _ => True)); [|done]. intros o c _.
  split; [done|apply law_call_notices].
Qed.

Lemma exec_index {X} (u : code X) cut w :
  ctx_index (w_ctx (exec u cut w).2) = ctx_index (w_ctx w).
Proof using Type*.
  apply (exec_ctx (fun c => ctx_index c = ctx_index (w_ctx w))); [|done].
  intros o c. by rewrite law_call_index.
Qed.
End ExecFacts.

(** ** The mailbox *)

Section MailboxFacts.
Context {M : Type} {chan : Type -> Type} `{TokioMpsc chan}.
Implicit Types (c : chan (Envelope M)).

Abbreviation queue c := (cv_queue (mpsc_view c)).

(** Receiving takes the oldest message, or waits, or reports the end. *)
Lemma recv_cases c :
  match Mailbox_recv (B := unit) c with
  | (Ready (Ok e), c') =>
      exists q, queue c = e :: q /\ mpsc_view c' = cv_with_queue (mpsc_view c) q
  | (Pending, c') | (Ready (Err _), c') => queue c = [] /\ mpsc_view c' = mpsc_view c
  end.
Proof.
  unfold Mailbox_recv, Receiver_recv. destruct (queue c) as [|e q] eqn:Eq.
  - destruct (poll_recv_nil c Eq) as (c' & -> & Hv). by destruct (cv_disconnected _).
  - destruct (poll_recv_cons c e q Eq) as (c' & -> & Hv). simpl. eauto.
Qed.

Lemma recv_cons c e q :
  queue c = e :: q ->
  exists c', Mailbox_recv (B := unit) c = (Ready (Ok e), c') /\
             mpsc_view c' = cv_with_queue (mpsc_view c) q.
Proof.
  intros Eq. unfold Mailbox_recv, Receiver_recv.
  destruct (poll_recv_cons c e q Eq) as (c' & -> & Hv). simpl. eauto.
Qed.

(** What is delivered is appended to the queue; what the bound refuses is not. *)
Lemma deliver_queue es c :
  exists acc, acc `sublist_of` es /\ queue (deliver es c) = queue c ++ acc.
Proof.
  unfold deliver. revert c. induction es as [|e es IH]; intros c; simpl.
  { exists []. by rewrite app_nil_r. }
  destruct (IH (mpsc_try_send c e).2) as (acc & Hsub & ->).
  rewrite try_send_view. unfold cv_try_send.
  destruct (cv_closed (mpsc_view c)); [|destruct (cv_full (mpsc_view c))]; simpl.
  - exists acc. split; [by apply sublist_cons|done].
  - exists acc. split; [by apply sublist_cons|done].
  - exists (e :: acc). split; [by apply sublist_skip|]. by rewrite <- app_assoc.
Qed.

(** Discarding [n] messages drops the [n] oldest ones. *)
Lemma discard_queue n c : queue (discard n c) = drop n (queue c).
Proof.
  revert c. induction n as [|n IH]; intros c; simpl; [done|].
  rewrite IH. unfold Mailbox_try_recv, Receiver_try_recv.
  pose proof (try_recv_view c) as Hv. destruct (mpsc_try_recv c) as [r c']. simpl in *.
  rewrite Hv. by destruct (queue c) as [|e q]; simpl; [rewrite drop_nil|].
Qed.
End MailboxFacts.
