(* ===== verification/LifecycleFacts.v ===== *)
(** * The life cycle: invariants, for any context and any message loop

    [good] collects what holds of every world an actor can be in; [LoopLaws] is what the
    life cycle needs of a message loop, and both loops of the sources provide it. *)

From S2P Require Import Prelude Tokio ActorTypes UserCode Context Lifecycle ContextFacts.

Create HintDb good discriminated.

#[local] Arguments emit : simpl never.
#[local] Arguments run_finish : simpl never.

Section Good.
Context {A C E M R Op : Type} {chan : Type -> Type}.
Context `{HL : ContextLaws E M R C Op}.

Abbreviation W := (world A C E M R chan).
Abbreviation code := (ucode A C Op).
Implicit Types (w : W).

(** The world of the actor [i]: its index is [i], its supervisor is another actor, and
    its trace has only events it may produce. *)
Record good (i : ActorId) w : Prop := {
  good_index : ctx_index (w_ctx w) = i;
  good_supervisor : supervisor_ok i (ctx_supervisor (w_ctx w));
  good_trace : Forall (event_ok i) (w_trace w);
}.

Lemma emit_trace w evs : w_trace (emit evs w) = w_trace w ++ evs.
Proof. done. Qed.

Lemma good_emit i w evs : good i w -> Forall (event_ok i) evs -> good i (emit evs w).
Proof. intros [] ?. split; simpl; [done..|]. by apply Forall_app_2. Qed.

Lemma good_emit1 i w ev : good i w -> event_ok i ev -> good i (emit [ev] w).
Proof. intros. apply good_emit; [done|by repeat constructor]. Qed.

Lemma good_set_mail i w q : good i w -> good i (set_mail q w).
Proof. intros []. by split. Qed.

Lemma good_set_actor i w a : good i w -> good i (set_actor a w).
Proof. intros []. by split. Qed.

(** Replacing the context by one with the same index and supervisor. *)
Lemma good_set_ctx i w c :
  good i w -> ctx_index c = ctx_index (w_ctx w) ->
  ctx_supervisor c = ctx_supervisor (w_ctx w) -> good i (set_ctx c w).
Proof. intros [] ? ?. split; simpl; [congruence|congruence|done]. Qed.

Lemma good_set_state i w s : good i w -> good i (on_ctx (ctx_set_state s) w).
Proof using Type*.
  intros [Hi Hs Ht]. split.
  - by rewrite on_ctx_ctx, law_state_index.
  - by rewrite on_ctx_ctx, law_state_supervisor.
  - rewrite on_ctx_trace, law_state_notice. apply Forall_app_2; [done|].
    by apply try_notify_ok.
Qed.

Lemma good_notify i w ev : good i w -> good i (on_ctx (ctx_notify ev) w).
Proof.
  intros [Hi Hs Ht]. split; rewrite ?on_ctx_ctx, ?on_ctx_trace; simpl; [done..|].
  apply Forall_app_2; [done|]. by apply try_notify_ok.
Qed.

Lemma good_exec i {X} (u : code X) cut w : good i w -> good i (exec u cut w).2.
Proof using Type*.
  intros [Hi Hs Ht].
  set (I := fun c => ctx_index c = i /\ supervisor_ok i (ctx_supervisor c)).
  assert (HI : forall o c, I c -> I (ctx_call o c).1 /\ Forall (event_ok i) (ctx_call o c).2).
  { intros o c [Hc Hsup]. unfold I. rewrite law_call_index, <- Hc. rewrite <- Hc in Hsup.
    destruct (law_call_supervisor o c Hsup). tauto. }
  assert (Hw : I (w_ctx w)) by done.
  destruct (exec_ctx I u cut w) as [Hi' Hs']; [intros; by apply HI|done|].
  destruct (exec_trace I (event_ok i) u cut w HI Hw) as (evs & Ht' & Hevs).
  split; [done..|]. rewrite Ht'. by apply Forall_app_2.
Qed.

Lemma good_hook i {X} h (u : code X) w :
  good i w -> ctx_state (w_ctx w) = documented_state h -> good i (exec_hook h u w).2.
Proof using Type*.
  intros Hg Hst. unfold exec_hook. apply good_exec. unfold enter_hook.
  by apply good_emit1.
Qed.

Lemma good_respond i r tx w : good i w -> good i (respond r tx w).
Proof. intros. unfold respond. destruct tx; [by apply good_emit1|done]. Qed.

Lemma good_handle i (handler : Msg M -> code (Reply R)) e b cut w :
  good i w -> good i (Envelope_handle handler e b cut w).2.
Proof using Type*.
  intros Hg. unfold Envelope_handle.
  destruct e as [[m|] tx|[m|] tx budget]; simpl; [|done| |done];
    (destruct (skip_message tx b); simpl; [by apply good_emit1|]);
    match goal with |- context [exec ?u ?c ?w'] =>
      pose proof (good_exec i u c w') as Hx; destruct (exec u c w') as [[] w1] end;
    simpl in *; specialize (Hx (good_emit1 i w (EvHandle m) Hg I)); unfold respond;
    try destruct tx; try apply good_emit1; done.
Qed.

(** User code and message handling only add notices to the hooks seen so far. *)
Lemma exec_hooks {X} (u : code X) cut w :
  omap hook_of (w_trace (exec u cut w).2) = omap hook_of (w_trace w).
Proof using Type*.
  destruct (exec_notices u cut w) as (evs & -> & Hn).
  by rewrite omap_app, (notices_hooks evs), app_nil_r by done.
Qed.

Lemma on_ctx_set_state_hooks s w :
  omap hook_of (w_trace (on_ctx (ctx_set_state s) w)) = omap hook_of (w_trace w).
Proof using Type*.
  rewrite on_ctx_trace, omap_app, law_state_notice.
  rewrite (notices_hooks (try_notify_supervisor _ _)) by apply try_notify_notices.
  by rewrite app_nil_r.
Qed.

Lemma on_ctx_notify_hooks ev w :
  omap hook_of (w_trace (on_ctx (ctx_notify ev) w)) = omap hook_of (w_trace w).
Proof using Type*.
  rewrite on_ctx_trace, omap_app. simpl.
  rewrite (notices_hooks (try_notify_supervisor _ _)) by apply try_notify_notices.
  by rewrite app_nil_r.
Qed.

Lemma handle_hooks (handler : Msg M -> code (Reply R)) e b cut w :
  omap hook_of (w_trace (Envelope_handle handler e b cut w).2) = omap hook_of (w_trace w).
Proof using Type*.
  unfold Envelope_handle.
  destruct e as [[m|] tx|[m|] tx budget]; simpl; [|done| |done];
    (destruct (skip_message tx b); simpl; [by rewrite omap_app; simpl; rewrite app_nil_r|]);
    match goal with |- context [exec ?u ?c ?w'] =>
      pose proof (exec_hooks u c w') as Hx; destruct (exec u c w') as [[] w1] end;
    rewrite emit_trace, omap_app in Hx; simpl in *; rewrite app_nil_r in Hx; unfold respond;
    try destruct tx; rewrite ?emit_trace, ?omap_app; simpl; rewrite ?app_nil_r; done.
Qed.

Lemma exec_hook_hooks {X} h (u : code X) w :
  omap hook_of (w_trace (exec_hook h u w).2) = omap hook_of (w_trace w) ++ [h].
Proof using Type*. unfold exec_hook. rewrite exec_hooks. unfold enter_hook. by rewrite emit_trace, omap_app. Qed.
End Good.

#[export] Hint Resolve good_set_mail good_set_actor good_set_state good_notify good_exec
  good_respond good_handle : good.

(** ** The interface of a message loop *)

Class LoopLaws {A C E M R Op : Type} {chan : Type -> Type} `{ActorContext E M R C Op}
    (run_loop : list (Turn M) -> world A C E M R chan ->
                loop_out E * world A C E M R chan) : Prop := {
  loop_good i sched w : good i w -> good i (run_loop sched w).2;
  loop_hooks sched w :
    exists n, omap hook_of (w_trace (run_loop sched w).2) =
              omap hook_of (w_trace w) ++ replicate n StoppingHook;
}.

Section Run.
Context {A C E M R Op : Type} {chan : Type -> Type}.
Context `{HL : ContextLaws E M R C Op} `{HT : TokioMpsc chan}.

Abbreviation W := (world A C E M R chan).

Context (hooks : Hooks A C Op E).
Context (run_loop : list (Turn M) -> W -> loop_out E * W) `{HR : !LoopLaws run_loop}.

Implicit Types (w : W).

Lemma run_finish_good i caught w : good i w -> good i (run_finish hooks caught w).2.
Proof using Type*.
  intros Hg. unfold run_finish.
  set (w1 := if bool_decide _ then _ else w).
  assert (Hw1 : good i w1 /\ ctx_state (w_ctx w1) = Stopped).
  { unfold w1, ctx_set_state_w. case_bool_decide as Hs.
    - split; [auto with good|]. by rewrite on_ctx_ctx, law_state_set.
    - split; [done|]. by destruct (decide (ctx_state (w_ctx w) = Stopped)). }
  destruct Hw1 as [Hw1 Hst]. unfold run_post_stop, drop_mailbox.
  destruct caught as [r|info]; [|by apply good_set_mail].
  pose proof (good_hook i PostStop (post_stop hooks) (set_mail (mpsc_close (w_mail w1)) w1)) as Hh.
  destruct (exec_hook PostStop _ _) as [[] w2]; simpl in *; apply Hh; auto with good.
Qed.

Lemma run_good i sched w :
  good i w -> ctx_state (w_ctx w) = Starting -> good i (ActorContext_run hooks run_loop sched w).2.
Proof using Type*.
  intros Hg Hst. unfold ActorContext_run, run_to_end.
  pose proof (good_hook i PostStart (post_start hooks) w Hg Hst) as Hh.
  destruct (exec_hook PostStart _ w) as [r w1]. simpl in Hh.
  destruct (catch_unwind r) as [[[[]|e]|info]|]; unfold drop_mailbox, ctx_set_state_w;
    simpl; auto with good.
  pose proof (loop_good i sched (on_ctx (ctx_set_state Running) w1)) as Hl.
  destruct (run_loop sched _) as [[] w2]; simpl in Hl; try apply run_finish_good;
    apply Hl; auto with good.
Qed.

Lemma spawn_good i sched w :
  good i w -> ctx_state (w_ctx w) = Unstarted ->
  good i (ActorContext_spawn hooks run_loop sched w).2.
Proof using Type*.
  intros Hg Hst. unfold ActorContext_spawn.
  pose proof (law_take_index (w_ctx w)) as Hti. pose proof (law_take_state (w_ctx w)) as Hts.
  pose proof (law_take_supervisor (w_ctx w)) as Htu.
  destruct (ctx_take_mailbox (w_ctx w)) as [present c]. simpl in *.
  destruct present; [|done].
  assert (Hg1 : good i (set_ctx c w)) by (by apply good_set_ctx).
  pose proof (good_hook i PreStart (pre_start hooks) (set_ctx c w) Hg1) as Hh.
  destruct (exec_hook PreStart _ _) as [r w1]. simpl in Hh.
  assert (Hw1 : good i w1) by (apply Hh; simpl; congruence).
  destruct r as [[u|e]|info|]; simpl; [|by apply good_set_mail..|done].
  unfold spawn_task.
  pose proof (run_good i sched (ctx_set_state_w Starting w1)) as Hr.
  destruct (ActorContext_run _ _ _ _) as [o w2]. simpl in Hr.
  assert (Hw2 : good i w2).
  { apply Hr; unfold ctx_set_state_w; [auto with good|]. by rewrite on_ctx_ctx, law_state_set. }
  destruct o; simpl; auto with good.
Qed.

(** The hooks after the loop. *)
Lemma run_finish_hooks caught w :
  omap hook_of (w_trace (run_finish hooks caught w).2) =
  omap hook_of (w_trace w) ++ (if is_ok caught then [PostStop] else []).
Proof using Type*.
  unfold run_finish. set (w1 := if bool_decide _ then _ else w).
  assert (Hw1 : omap hook_of (w_trace w1) = omap hook_of (w_trace w)).
  { unfold w1, ctx_set_state_w. case_bool_decide; [by rewrite on_ctx_set_state_hooks|done]. }
  unfold run_post_stop. destruct caught as [r|info]; simpl; [|by rewrite app_nil_r].
  pose proof (exec_hook_hooks PostStop (post_stop hooks) (drop_mailbox w1)) as Hh.
  destruct (exec_hook PostStop _ _) as [[] w2]; simpl in *; by rewrite Hh, Hw1.
Qed.
End Run.
