(* ===== verification/ContextLoop.v ===== *)
(** * The message loop of the default context

    The loop keeps the invariant of the life cycle ([Context_LoopLaws]); it opens the
    messages of its mailbox in the order they were accepted; nothing is opened after a
    [Terminate]; a [Terminate] in the queue ends it; a drain discards the snapshot. *)

From S2P Require Import Prelude Tokio ActorTypes UserCode Context Lifecycle ContextFacts.
From S2P Require Import LifecycleFacts.

#[local] Arguments emit : simpl never.
#[local] Arguments set_state_w : simpl never.
#[local] Arguments notify_w : simpl never.

Section Loop.
Context {A E M R D : Type} {chan : Type -> Type} `{HT : TokioMpsc chan} `{HD : DrainPolicy D}.

Abbreviation Ctx := (Context E D).
Abbreviation W := (world A Ctx E M R chan).
Abbreviation code := (ucode A Ctx (ContextOp E)).
Abbreviation queue w := (cv_queue (mpsc_view (w_mail w))).
Abbreviation hooks w := (omap hook_of (w_trace w)).
Abbreviation good := (good (A := A) (C := Ctx) (E := E) (M := M) (R := R) (Op := ContextOp E) (chan := chan)).

Context (handler : Msg M -> code (Reply R)).
Context (stopping : code (result StoppingDecision E)).

Implicit Types (w : W) (t : Turn M).

(** The steps of a turn that touch neither the trace nor what [good] reads. *)
Lemma good_deliver i es w : good i w -> good i (deliver_w es w).
Proof. apply good_set_mail. Qed.

Lemma good_snapshot i w : good i w -> good i (snapshot_w w).
Proof. intros. by apply good_set_ctx. Qed.

Lemma good_apply i w : good i w -> good i (apply_drain_w w).
Proof.
  intros. unfold apply_drain_w. destruct (dp_apply _ _) as [d q].
  by apply good_set_mail, good_set_ctx.
Qed.

Lemma good_take_error i w : good i w -> good i (take_error_w w).2.
Proof.
  intros. unfold take_error_w, Context_take_error.
  destruct (error (w_ctx w)); simpl; by apply good_set_ctx.
Qed.

Lemma good_set_state_w i s w : good i w -> good i (set_state_w s w).
Proof. apply (good_set_state i w s). Qed.

Lemma good_notify_w i ev w : good i w -> good i (notify_w ev w).
Proof. apply (good_notify i w ev). Qed.

Hint Resolve good_deliver good_snapshot good_apply good_take_error good_set_state_w
  good_notify_w : good.

Lemma apply_drain_trace w : w_trace (apply_drain_w w) = w_trace w.
Proof. unfold apply_drain_w. by destruct (dp_apply _ _). Qed.

Lemma apply_drain_state w : state (w_ctx (apply_drain_w w)) = state (w_ctx w).
Proof. unfold apply_drain_w. by destruct (dp_apply _ _). Qed.

Lemma set_state_w_state s w : state (w_ctx (set_state_w s w)) = s.
Proof. done. Qed.

Lemma set_state_w_mail s w : w_mail (set_state_w s w) = w_mail w.
Proof. done. Qed.

Lemma take_error_w_frame w :
  w_trace (take_error_w w).2 = w_trace w /\ w_mail (take_error_w w).2 = w_mail w /\
  state (w_ctx (take_error_w w).2) = state (w_ctx w).
Proof. unfold take_error_w, Context_take_error. by destruct (error (w_ctx w)). Qed.

(** Handling an envelope: the result is that of [Envelope_handle], then the arrivals and
    the drain. *)
Lemma handle_envelope_cases t e w :
  handle_envelope handler t e w =
  match Envelope_handle handler e (t_tx_closed t) (t_cut t) (snapshot_w w) with
  | (UPanicked info, w1) => (UPanicked info, w1)
  | (r, w1) => (r, apply_drain_w (deliver_w (t_during t) w1))
  end.
Proof. done. Qed.

Lemma good_handle_envelope i t e w : good i w -> good i (handle_envelope handler t e w).2.
Proof.
  intros Hg. unfold handle_envelope.
  pose proof (good_handle i handler e (t_tx_closed t) (t_cut t) (snapshot_w w)) as Hh.
  destruct (Envelope_handle _ _ _ _ _) as [[] w1]; simpl in *; auto with good.
Qed.

Lemma good_check_error i w : good i w -> good i (check_error w).
Proof. intros. unfold check_error. case_match; auto with good. Qed.

Lemma good_after i t w : good i w -> good i (after_message stopping t w).2.
Proof.
  intros Hg. unfold after_message. destruct (state (w_ctx w)) eqn:Hst; try done.
  - pose proof (good_take_error i w Hg) as H1.
    pose proof (take_error_w_frame w) as (_ & _ & Hs1).
    destruct (take_error_w w) as [r w1]. simpl in *.
    pose proof (good_hook i StoppingHook stopping w1 H1) as H2.
    destruct (exec_hook StoppingHook stopping w1) as [d w2]. simpl in *.
    specialize (H2 (eq_trans Hs1 Hst)).
    destruct d as [[[]|e]|info|]; simpl; auto with good.
    destruct r; simpl; auto with good.
  - pose proof (good_take_error i w Hg) as H1. by destruct (take_error_w w).
Qed.

Lemma good_turn i t w : good i w -> good i (Context_turn handler stopping t w).2.
Proof.
  intros Hg. unfold Context_turn.
  destruct (Mailbox_recv _) as [[|[e|err]] q].
  - simpl. auto with good.
  - pose proof (good_handle_envelope i t e (set_mail q (deliver_w (t_arrive t) w))) as Hh.
    destruct (handle_envelope _ _ _ _) as [[] w1]; simpl in *;
      try apply good_after; try apply good_check_error; auto with good.
  - apply good_after. auto with good.
Qed.

Lemma good_run_loop i sched w : good i w -> good i (Context_run_loop handler stopping sched w).2.
Proof.
  revert w. induction sched as [|t sched IH]; intros w Hg; simpl; case_bool_decide; try done.
  pose proof (good_turn i t w Hg) as Ht.
  destruct (Context_turn handler stopping t w) as [[] w1]; simpl in *; auto.
Qed.

(** The hooks of a turn: none, or [stopping] once. *)
Lemma set_state_w_hooks s w : hooks (set_state_w s w) = hooks w.
Proof. apply (on_ctx_set_state_hooks s w). Qed.

Lemma notify_w_hooks ev w : hooks (notify_w ev w) = hooks w.
Proof. apply (on_ctx_notify_hooks ev w). Qed.

Lemma handle_envelope_hooks t e w : hooks (handle_envelope handler t e w).2 = hooks w.
Proof.
  rewrite handle_envelope_cases.
  pose proof (handle_hooks handler e (t_tx_closed t) (t_cut t) (snapshot_w w)) as Hh.
  destruct (Envelope_handle _ _ _ _ _) as [[] w1]; simpl in *; by rewrite ?apply_drain_trace.
Qed.

Lemma check_error_hooks w : hooks (check_error w) = hooks w.
Proof. unfold check_error. case_match; [apply set_state_w_hooks|done]. Qed.

Lemma after_hooks t w :
  exists n, hooks (after_message stopping t w).2 = hooks w ++ replicate n StoppingHook.
Proof.
  unfold after_message.
  pose proof (take_error_w_frame w) as (Htr & _ & _).
  destruct (state (w_ctx w)); try (exists 0; simpl; by rewrite app_nil_r);
    destruct (take_error_w w) as [r w1]; simpl in *.
  - exists 1. pose proof (exec_hook_hooks StoppingHook stopping w1) as Hh.
    destruct (exec_hook StoppingHook stopping w1) as [d w2]. simpl in *. rewrite Htr in Hh.
    destruct d as [[[]|e]|info|]; try exact Hh.
    etransitivity; [apply set_state_w_hooks|]. destruct r; [exact Hh|].
    etransitivity; [apply notify_w_hooks|exact Hh].
  - exists 0. simpl. by rewrite Htr, app_nil_r.
Qed.

Lemma turn_hooks t w :
  exists n, hooks (Context_turn handler stopping t w).2 = hooks w ++ replicate n StoppingHook.
Proof.
  unfold Context_turn.
  destruct (Mailbox_recv _) as [[|[e|err]] q].
  - exists 0. simpl. by rewrite app_nil_r.
  - pose proof (handle_envelope_hooks t e (set_mail q (deliver_w (t_arrive t) w))) as Hh.
    destruct (handle_envelope _ _ _ _) as [r w1]. simpl in Hh.
    destruct r as [x|info|].
    + destruct (after_hooks t (check_error w1)) as [n Hn]. exists n.
      by rewrite Hn, check_error_hooks, Hh.
    + exists 0. simpl. by rewrite Hh, app_nil_r.
    + destruct (after_hooks t (check_error w1)) as [n Hn]. exists n.
      by rewrite Hn, check_error_hooks, Hh.
  - destruct (after_hooks t (set_state_w Stopped (set_mail q (deliver_w (t_arrive t) w)))) as [n Hn].
    exists n. by rewrite Hn, set_state_w_hooks.
Qed.

Lemma run_loop_hooks sched w :
  exists n, hooks (Context_run_loop handler stopping sched w).2 =
            hooks w ++ replicate n StoppingHook.
Proof.
  revert w. induction sched as [|t sched IH]; intros w; simpl; case_bool_decide;
    try (exists 0; simpl; by rewrite app_nil_r).
  destruct (turn_hooks t w) as [n Hn].
  destruct (Context_turn handler stopping t w) as [[] w1]; simpl in *; eauto.
  destruct (IH w1) as [k ->]. exists (n + k). by rewrite Hn, <- app_assoc, replicate_add.
Qed.

#[export] Instance Context_LoopLaws : LoopLaws (Context_run_loop handler stopping).
Proof. split; [apply good_run_loop|apply run_loop_hooks]. Qed.
End Loop.
