(* ===== verification/ContextTheorems.v ===== *)
(** * The default message loop: order, termination, errors, draining

    The theorems on [Context::run_loop] (acktor/src/context.rs) and on the drain policies
    (acktor/src/drain.rs), for every actor and every behaviour of the other tasks. *)

From S2P Require Import Prelude Tokio ActorTypes UserCode Context Lifecycle ContextFacts.
From S2P Require Import LifecycleFacts ContextLoop.

#[local] Arguments emit : simpl never.
#[local] Arguments set_state_w : simpl never.
#[local] Arguments notify_w : simpl never.

(** The message an envelope carries. *)
Definition env_msg {M} (e : Envelope M) : option (Msg M) :=
  match e with DefaultEnvelopeProxy m _ | TimedEnvelopeProxy m _ _ => m end.

#[global] Instance is_terminate_dec {M} (o : option (Msg M)) :
  Decision (o = Some (MsgSignal SignalTerminate)).
Proof. destruct o as [[| [] |]|]; (left; reflexivity) || (right; discriminate). Defined.

(** ** Trace extensions *)

Section Ext.
Context {A C E M R : Type} {chan : Type -> Type}.
Abbreviation W := (world A C E M R chan).
Implicit Types (w : W) (Q : Event E M R -> Prop).

(** [w'] has the trace of [w] followed by events that all satisfy [Q]. *)
Definition ext Q w w' : Prop := exists evs, w_trace w' = w_trace w ++ evs /\ Forall Q evs.

Lemma ext_same Q w w' : w_trace w' = w_trace w -> ext Q w w'.
Proof. intros E'. exists []. by rewrite E', app_nil_r. Qed.

Lemma ext_trans Q w1 w2 w3 : ext Q w1 w2 -> ext Q w2 w3 -> ext Q w1 w3.
Proof.
  intros (e1 & H1 & F1) (e2 & H2 & F2). exists (e1 ++ e2).
  split; [by rewrite H2, H1, app_assoc|by apply Forall_app_2].
Qed.

Lemma ext_emit1 Q w ev : Q ev -> ext Q w (emit [ev] w).
Proof. intros. exists [ev]. split; [done|by repeat constructor]. Qed.

Lemma ext_weaken Q Q' w w' : (forall ev, Q ev -> Q' ev) -> ext Q w w' -> ext Q' w w'.
Proof. intros HQ (e & H & F). exists e. split; [done|by eapply Forall_impl]. Qed.

(** Every property that notices have is kept by user code and state changes. *)
Context {Op : Type} `{HL : ContextLaws E M R C Op}.

Lemma ext_exec Q {X} (u : ucode A C Op X) cut w :
  (forall ev, is_notice ev -> Q ev) -> ext Q w (exec u cut w).2.
Proof using Type*.
  intros HQ. destruct (exec_notices u cut w) as (evs & H' & F). exists evs.
  split; [done|]. by eapply Forall_impl.
Qed.

Lemma ext_set_state Q s w :
  (forall ev, is_notice ev -> Q ev) -> ext Q w (on_ctx (ctx_set_state s) w).
Proof using Type*.
  intros HQ. eexists. rewrite on_ctx_trace. split; [done|].
  rewrite law_state_notice. eapply Forall_impl; [apply try_notify_notices|done].
Qed.

Lemma ext_notify Q ev w :
  (forall ev, is_notice ev -> Q ev) -> ext Q w (on_ctx (ctx_notify ev) w).
Proof.
  intros HQ. eexists. rewrite on_ctx_trace. split; [done|].
  eapply Forall_impl; [apply try_notify_notices|done].
Qed.
End Ext.

(** ** Opening the messages of a turn *)

Section Opens.
Context {A E M R D : Type} {chan : Type -> Type} `{HT : TokioMpsc chan} `{HD : DrainPolicy D}.

Abbreviation Ctx := (Context E D).
Abbreviation W := (world A Ctx E M R chan).
Abbreviation code := (ucode A Ctx (ContextOp E)).
Abbreviation queue w := (cv_queue (mpsc_view (w_mail w))).
Abbreviation opens w := (omap opened (w_trace w)).

Context (handler : Msg M -> code (Reply R)).
Context (stopping : code (result StoppingDecision E)).

Implicit Types (w : W) (t : Turn M).

Lemma ext_opens w w' : ext (fun ev => opened ev = None) w w' -> opens w' = opens w.
Proof.
  intros (evs & -> & F). rewrite omap_app.
  assert (En : omap opened evs = []); [|by rewrite En, app_nil_r].
  induction F as [|ev evs Hev _ IH]; [done|]. simpl. by rewrite Hev.
Qed.

Lemma notice_unopened (ev : Event E M R) : is_notice ev -> opened ev = None.
Proof. by destruct ev. Qed.

(** Handling an envelope opens its message, whatever the handler does, and leaves the
    mailbox alone. *)
Lemma handle_opens e b cut w :
  opens (Envelope_handle handler e b cut w).2 = opens w ++ option_list (env_msg e).
Proof.
  unfold Envelope_handle.
  assert (Hx : forall m c, opens (exec (handler m) c (emit [EvHandle m] w)).2 = opens w ++ [m]).
  { intros m c. rewrite (ext_opens (emit [EvHandle m] w)) by apply ext_exec, notice_unopened.
    by rewrite emit_trace, omap_app. }
  destruct e as [[m|] tx|[m|] tx budget]; simpl; try (by rewrite app_nil_r);
    (destruct (skip_message tx b); simpl; [by rewrite omap_app|]);
    match goal with |- context [exec ?u ?c ?w'] =>
      specialize (Hx m c); destruct (exec u c w') as [[] w1] end;
    simpl in *; rewrite <- Hx; unfold respond; try destruct tx; try done; apply ext_opens;
    by apply ext_emit1.
Qed.

Lemma handle_mail e b cut w : w_mail (Envelope_handle handler e b cut w).2 = w_mail w.
Proof.
  unfold Envelope_handle.
  destruct e as [[m|] tx|[m|] tx budget]; simpl; try done;
    (destruct (skip_message tx b); simpl; [done|]);
    match goal with |- context [exec ?u ?c ?w'] =>
      pose proof (exec_mail u c w') as Hx; destruct (exec u c w') as [[] w1] end;
    simpl in *; unfold respond; try destruct tx; done.
Qed.

Lemma check_error_frame w :
  w_mail (check_error w) = w_mail w /\ opens (check_error w) = opens w /\
  (state (w_ctx w) = Stopped -> check_error w = w).
Proof.
  unfold check_error. case_match eqn:Ec; split_and!; try done.
  - apply ext_opens. apply (ext_set_state _ Stopping w), notice_unopened.
  - intros Hs. rewrite Hs in Ec. by destruct (error (w_ctx w)).
Qed.

(** The [stopping] hook and the rest of the turn open nothing and only add arrivals. *)
Lemma after_frame t w :
  opens (after_message stopping t w).2 = opens w /\
  exists acc, acc `sublist_of` t_stopping t /\
              queue (after_message stopping t w).2 = queue w ++ acc.
Proof.
  unfold after_message. pose proof (take_error_w_frame w) as (Htr & Hm & _).
  destruct (state (w_ctx w));
    try (split; [done|exists []; simpl; split; [apply sublist_nil_l|by rewrite app_nil_r]]);
    destruct (take_error_w w) as [r w1]; simpl in Htr, Hm.
  - unfold exec_hook.
    pose proof (exec_mail stopping None (enter_hook StoppingHook w1)) as Hm2.
    pose proof (ext_exec (fun ev => opened ev = None) stopping None (enter_hook StoppingHook w1)
      notice_unopened) as He.
    destruct (exec stopping None _) as [d w2]. simpl in Hm2, He.
    assert (Ho : opens w2 = opens w).
    { rewrite (ext_opens _ _ He). unfold enter_hook. rewrite emit_trace, omap_app, Htr. simpl.
      by rewrite app_nil_r. }
    assert (Hq : exists acc, acc `sublist_of` t_stopping t /\
                             queue (deliver_w (t_stopping t) w2) = queue w ++ acc).
    { destruct (deliver_queue (t_stopping t) (w_mail w2)) as (acc & ? & Hd). exists acc.
      split; [done|]. simpl. by rewrite Hd, Hm2, Hm. }
    destruct d as [[[]|e]|info|]; try (split; [exact Ho|exact Hq]).
    destruct r; (split; [|exact Hq]); etransitivity; try exact Ho; apply ext_opens.
    + apply (ext_set_state _ Running (deliver_w _ w2)), notice_unopened.
    + eapply ext_trans; [|apply (ext_set_state _ Running), notice_unopened].
      apply (ext_notify _ _ (deliver_w _ w2)), notice_unopened.
  - split; [simpl; by rewrite Htr|]. exists []. split; [apply sublist_nil_l|].
    simpl. by rewrite Hm, app_nil_r.
Qed.
End Opens.

(** ** Mailbox order (a context that does not drain) *)

Section Fifo.
Context {A E M R : Type} {chan : Type -> Type} `{HT : TokioMpsc chan}.

Abbreviation Ctx := (Context E unit).
Abbreviation W := (world A Ctx E M R chan).
Abbreviation code := (ucode A Ctx (ContextOp E)).
Abbreviation queue w := (cv_queue (mpsc_view (w_mail w))).
Abbreviation opens w := (omap opened (w_trace w)).

Context (handler : Msg M -> code (Reply R)).
Context (stopping : code (result StoppingDecision E)).

Implicit Types (w : W) (t : Turn M).

(** Everything that other tasks send during a schedule. *)
Definition sent t : list (Envelope M) := t_arrive t ++ t_during t ++ t_stopping t.

Definition sched_sent (sched : list (Turn M)) : list (Envelope M) := sched ≫= sent.

(** Handling takes nothing out of the mailbox when nothing is drained. *)
Lemma handle_envelope_frame t e w :
  opens (handle_envelope handler t e w).2 = opens w ++ option_list (env_msg e) /\
  exists acc, acc `sublist_of` t_during t /\
              queue (handle_envelope handler t e w).2 = queue w ++ acc.
Proof.
  rewrite handle_envelope_cases.
  pose proof (handle_opens handler e (t_tx_closed t) (t_cut t) (snapshot_w w)) as Ho.
  pose proof (handle_mail handler e (t_tx_closed t) (t_cut t) (snapshot_w w)) as Hm.
  destruct (Envelope_handle handler e _ _ (snapshot_w w)) as [r w1]. simpl in Ho, Hm.
  assert (Hd : exists acc, acc `sublist_of` t_during t /\
                           queue (apply_drain_w (deliver_w (t_during t) w1)) = queue w ++ acc).
  { destruct (deliver_queue (t_during t) (w_mail w1)) as (acc & ? & Hd). exists acc.
    split; [done|]. simpl. by rewrite Hd, Hm. }
  destruct r; try (split; [exact Ho|exact Hd]). split; [exact Ho|].
  exists []. split; [apply sublist_nil_l|]. simpl. by rewrite Hm, app_nil_r.
Qed.

(** A turn opens at most the oldest message and appends what it accepts. *)
Lemma turn_fifo t w :
  exists acc consumed,
    acc `sublist_of` sent t /\
    queue w ++ acc = consumed ++ queue (Context_turn handler stopping t w).2 /\
    opens (Context_turn handler stopping t w).2 = opens w ++ omap env_msg consumed /\
    (queue w ≠ [] -> length consumed = 1).
Proof.
  destruct (deliver_queue (t_arrive t) (w_mail w)) as (a1 & Ha1 & Hq1).
  unfold Context_turn. pose proof (recv_cases (w_mail (deliver_w (t_arrive t) w))) as Hr.
  destruct (Mailbox_recv _) as [[|[e|err]] q]; simpl in Hr; rewrite Hq1 in Hr.
  - destruct Hr as [Hnil Hv]. apply app_eq_nil in Hnil as [Hqn ->].
    exists [], []. simpl. rewrite Hv, Hq1, Hqn. split_and!; try done.
    + apply sublist_nil_l.
    + by rewrite app_nil_r.
  - destruct Hr as (q1 & Hq & Hv).
    destruct (handle_envelope_frame t e (set_mail q (deliver_w (t_arrive t) w)))
      as [Ho (a2 & Ha2 & Hq2)].
    destruct (handle_envelope handler t e _) as [r w1]. simpl in Ho, Hq2.
    rewrite Hv in Hq2. simpl in Hq2.
    destruct (check_error_frame w1) as (Hcm & Hco & _).
    destruct (after_frame stopping t (check_error w1)) as [Ho3 (a3 & Ha3 & Hq3)].
    rewrite Hcm, Hq2 in Hq3. rewrite Hco, Ho in Ho3.
    assert (Hone : queue w ≠ [] -> length [e] = 1) by done.
    destruct r as [x|info|].
    + exists (a1 ++ a2 ++ a3), [e]. rewrite Hq3, Ho3. split_and!; [|..|done].
      * unfold sent. by repeat apply sublist_app.
      * by rewrite !app_assoc, Hq.
      * simpl. by destruct (env_msg e).
    + exists (a1 ++ a2), [e]. simpl. rewrite Hq2, Ho. split_and!; [|..|done].
      * unfold sent. rewrite app_assoc. apply sublist_inserts_r. by apply sublist_app.
      * by rewrite app_assoc, Hq.
      * simpl. by destruct (env_msg e).
    + exists (a1 ++ a2 ++ a3), [e]. rewrite Hq3, Ho3. split_and!; [|..|done].
      * unfold sent. by repeat apply sublist_app.
      * by rewrite !app_assoc, Hq.
      * simpl. by destruct (env_msg e).
  - destruct Hr as [Hnil Hv]. apply app_eq_nil in Hnil as [Hqn ->].
    destruct (after_frame stopping t (set_state_w Stopped (set_mail q (deliver_w (t_arrive t) w))))
      as [Ho3 (a3 & Ha3 & Hq3)].
    assert (Hso : opens (set_state_w Stopped (set_mail q (deliver_w (t_arrive t) w))) = opens w).
    { apply (ext_opens (set_mail q (deliver_w (t_arrive t) w)) (set_state_w Stopped _)).
      apply (ext_set_state _ Stopped (set_mail q _)), notice_unopened. }
    exists a3, []. rewrite Hq3, Ho3, Hso. simpl. rewrite Hv, Hq1, Hqn.
    split_and!; rewrite ?app_nil_r; try done. unfold sent. by apply sublist_inserts_l, sublist_inserts_l.
Qed.

(** Mailbox order: along any run of the loop, the messages taken out of the mailbox
    are exactly a prefix of what was queued followed by what was accepted from other tasks
    meanwhile, in that order; the rest is still queued. No message is lost, duplicated or
    overtaken, whatever the handlers do. *)
Lemma mailbox_fifo sched w :
  exists accepted consumed,
    accepted `sublist_of` sched_sent sched /\
    queue w ++ accepted = consumed ++ queue (Context_run_loop handler stopping sched w).2 /\
    opens (Context_run_loop handler stopping sched w).2 = opens w ++ omap env_msg consumed.
Proof.
  revert w. induction sched as [|t sched IH]; intros w; simpl.
  { exists [], []. case_bool_decide; simpl; by rewrite !app_nil_r. }
  case_bool_decide.
  2:{ exists [], []. simpl. rewrite !app_nil_r. split_and!; try done. apply sublist_nil_l. }
  destruct (turn_fifo t w) as (a1 & c1 & Hs1 & Hq1 & Ho1 & _).
  destruct (Context_turn handler stopping t w) as [o w1]. simpl in Hq1, Ho1.
  assert (Hs : forall a2, a2 `sublist_of` sched_sent sched ->
                          a1 ++ a2 `sublist_of` sched_sent (t :: sched))
    by (intros; by apply sublist_app).
  destruct o as [|r|info].
  2,3: exists a1, c1; split_and!; try done; rewrite <- (app_nil_r a1); apply Hs, sublist_nil_l.
  destruct (IH w1) as (a2 & c2 & Hs2 & Hq2 & Ho2).
  exists (a1 ++ a2), (c1 ++ c2). rewrite Ho2, Ho1, omap_app, <- !app_assoc, <- Hq2.
  split_and!; [by apply Hs| |done]. by rewrite !app_assoc, Hq1.
Qed.
End Fifo.

(** ** [Terminate] *)

Section Terminate.
Context {A E M R D : Type} {chan : Type -> Type} `{HT : TokioMpsc chan} `{HD : DrainPolicy D}.

Abbreviation Ctx := (Context E D).
Abbreviation W := (world A Ctx E M R chan).
Abbreviation code := (ucode A Ctx (ContextOp E)).

Context (user : M -> code R).
Context (stopping : code (result StoppingDecision E)).

Implicit Types (w : W) (t : Turn M) (ev : Event E M R).

Definition handles_terminate : Event E M R := EvHandle (MsgSignal SignalTerminate).

(** Neither a message opened nor a hook entered. *)
Definition idle ev : Prop := opened ev = None /\ hook_of ev = None.

Lemma notice_idle ev : is_notice ev -> idle ev.
Proof. by destruct ev. Qed.

Lemma notice_other ev : is_notice ev -> ev ≠ handles_terminate.
Proof. by destruct ev. Qed.

(** Handling [Terminate] stops the actor and then does nothing but notify and answer. *)
Lemma handle_terminate e b cut w :
  env_msg e = Some (MsgSignal SignalTerminate) ->
  (exists w', Envelope_handle (dispatch user) e b cut w = (UDone tt, w') /\
     ext (fun ev => ev ≠ handles_terminate) w w') \/
  (exists w', Envelope_handle (dispatch user) e b cut w = (UDone tt, w') /\
     ext idle (emit [handles_terminate] w) w' /\ state (w_ctx w') = Stopped).
Proof.
  intros He. unfold Envelope_handle.
  destruct e as [m tx|m tx budget]; simpl in He; subst m; simpl;
    (destruct (skip_message tx b);
      [left; eexists; split; [done|by apply ext_emit1]|right]); eexists;
    (split; [done|]); (split; [|by destruct tx]);
    (eapply ext_trans; [apply (ext_set_state _ Stopped), notice_idle|]);
    unfold respond; (destruct tx; [by apply ext_emit1|by apply ext_same]).
Qed.

(** Handling any other message never records a [Terminate]. *)
Lemma handle_other e b cut w :
  env_msg e ≠ Some (MsgSignal SignalTerminate) ->
  ext (fun ev => ev ≠ handles_terminate) w (Envelope_handle (dispatch user) e b cut w).2.
Proof.
  intros He. unfold Envelope_handle.
  destruct e as [[m|] tx|[m|] tx budget]; simpl; try (by apply ext_same);
    (destruct (skip_message tx b); simpl; [by apply ext_emit1|]);
    match goal with |- context [exec ?u ?c ?w'] =>
      pose proof (ext_exec (fun ev => ev ≠ handles_terminate) u c w' notice_other) as Hx;
      destruct (exec u c w') as [[] w1] end; simpl in Hx;
    (assert (Hm : ext (fun ev => ev ≠ handles_terminate) w w1);
      [eapply ext_trans; [apply ext_emit1|exact Hx]; simpl in He; unfold handles_terminate; congruence|]);
    unfold respond; simpl; try done; (destruct tx; [|done]);
    (eapply ext_trans; [exact Hm|by apply ext_emit1]).
Qed.

Lemma after_ext t w :
  ext (fun ev => ev ≠ handles_terminate) w (after_message stopping t w).2.
Proof.
  unfold after_message. pose proof (take_error_w_frame w) as (Htr & _ & _).
  destruct (state (w_ctx w)); try (by apply ext_same); destruct (take_error_w w) as [r w1];
    simpl in Htr; [|by apply ext_same].
  unfold exec_hook.
  pose proof (ext_exec (fun ev => ev ≠ handles_terminate) stopping None
    (enter_hook StoppingHook w1) notice_other) as Hx.
  destruct (exec stopping None _) as [d w2]. simpl in Hx.
  assert (Hw2 : ext (fun ev => ev ≠ handles_terminate) w (deliver_w (t_stopping t) w2)).
  { apply (ext_trans _ w w1); [by apply ext_same|]. eapply ext_trans; [|exact Hx]. by apply ext_emit1. }
  destruct d as [[[]|e]|info|]; try exact Hw2.
  eapply ext_trans; [|apply (ext_set_state _ Running), notice_other].
  destruct r; [exact Hw2|].
  eapply ext_trans; [exact Hw2|apply (ext_notify _ _ (deliver_w _ w2)), notice_other].
Qed.

Lemma check_error_ext w : ext (fun ev => ev ≠ handles_terminate) w (check_error w).
Proof.
  unfold check_error. case_match; [|by apply ext_same].
  apply (ext_set_state _ Stopping w), notice_other.
Qed.

(** A turn either records no [Terminate], or records one as the last message and leaves
    the loop. *)
Lemma turn_terminate t w :
  ext (fun ev => ev ≠ handles_terminate) w (Context_turn (dispatch user) stopping t w).2 \/
  exists r w1, Context_turn (dispatch user) stopping t w = (TurnReturn r, w1) /\
               ext idle (emit [handles_terminate] w) w1.
Proof.
  unfold Context_turn. set (w0 := deliver_w (t_arrive t) w).
  destruct (Mailbox_recv (w_mail w0)) as [[|[e|err]] q].
  - left. by apply ext_same.
  - rewrite handle_envelope_cases.
    destruct (decide (env_msg e = Some (MsgSignal SignalTerminate))) as [He|He].
    + destruct (handle_terminate e (t_tx_closed t) (t_cut t) (snapshot_w (set_mail q w0)) He)
        as [(w1 & -> & Hx)|(w1 & -> & Hx & Hst)].
      * left. eapply ext_trans; [|apply after_ext].
        eapply ext_trans; [|apply check_error_ext].
        eapply ext_trans; [exact Hx|]. apply ext_same. by rewrite apply_drain_trace.
      * right. set (w2 := apply_drain_w _).
        assert (Hw2 : state (w_ctx w2) = Stopped).
        { unfold w2. by rewrite apply_drain_state. }
        destruct (check_error_frame w2) as (_ & _ & ->); [|done].
        unfold after_message. rewrite Hw2.
        pose proof (take_error_w_frame w2) as (Htr & _ & _).
        destruct (take_error_w w2) as [r w3]. simpl in Htr. exists r, w3. split; [done|].
        destruct Hx as (evs & Hevs & F). exists evs. split; [|done].
        rewrite Htr. unfold w2. by rewrite apply_drain_trace.
    + left. pose proof (handle_other e (t_tx_closed t) (t_cut t) (snapshot_w (set_mail q w0)) He)
        as Hx.
      destruct (Envelope_handle _ e _ _ _) as [r w1]. simpl in Hx.
      destruct r as [x|info|]; [|exact Hx|];
        (eapply ext_trans; [|apply after_ext]); (eapply ext_trans; [|apply check_error_ext]);
        (eapply ext_trans; [exact Hx|]); apply ext_same; by rewrite apply_drain_trace.
  - left. eapply ext_trans; [|apply after_ext].
    apply (ext_set_state _ Stopped (set_mail q w0)), notice_other.
Qed.

Lemma app_split_other {X} (x : X) (l1 l2 k1 k2 : list X) :
  x ∉ l1 -> l1 ++ l2 = k1 ++ x :: k2 -> exists k, k1 = l1 ++ k /\ l2 = k ++ x :: k2.
Proof.
  revert k1. induction l1 as [|y l1 IH]; intros k1 Hx Heq; simpl in *; [eauto|].
  destruct k1 as [|z k1]; simpl in Heq; simplify_eq; [set_solver|].
  destruct (IH k1) as (k & -> & ->); [set_solver|done|]. eauto.
Qed.

Lemma idle_other (evs : list (Event E M R)) : Forall idle evs -> handles_terminate ∉ evs.
Proof. intros F Hin. rewrite Forall_forall in F. apply F in Hin. by destruct Hin. Qed.

Lemma run_loop_extends sched w :
  exists evs, w_trace (Context_run_loop (dispatch user) stopping sched w).2 = w_trace w ++ evs.
Proof.
  revert w. induction sched as [|t sched IH]; intros w; simpl; case_bool_decide;
    try (exists []; by rewrite app_nil_r).
  assert (Ht : exists evs, w_trace (Context_turn (dispatch user) stopping t w).2 = w_trace w ++ evs).
  { destruct (turn_terminate t w) as [(evs & Hevs & _)|(r & w1 & -> & evs & Hevs & _)]; [eauto|].
    exists (handles_terminate :: evs). simpl. by rewrite Hevs, emit_trace, <- app_assoc. }
  destruct Ht as [evs Hevs].
  destruct (Context_turn (dispatch user) stopping t w) as [[] w1]; simpl in *; eauto.
  destruct (IH w1) as [evs' ->]. rewrite Hevs, <- app_assoc. eauto.
Qed.

(** C5. Once the actor handles [Terminate], the loop returns without handling or skipping
    another message and without entering the [stopping] hook: everything still queued
    behind the signal is dropped unhandled. *)
Theorem nothing_after_terminate sched w tr1 tr2
    (Htr : w_trace (Context_run_loop (dispatch user) stopping sched w).2 =
           w_trace w ++ tr1 ++ handles_terminate :: tr2) :
  Forall idle tr2 /\
  exists r, (Context_run_loop (dispatch user) stopping sched w).1 = LoopReturned r.
Proof.
  revert w tr1 Htr. induction sched as [|t sched IH]; intros w tr1 Htr; simpl in *;
    case_bool_decide; simpl in Htr;
    try (rewrite <- (app_nil_r (w_trace w)) in Htr at 1; apply app_inv_head in Htr;
         by destruct tr1).
  destruct (turn_terminate t w) as [(evs & Hevs & F)|(r & w1 & Ht & evs & Hevs & F)].
  - assert (Hno : handles_terminate ∉ evs).
    { intros Hin. rewrite Forall_forall in F. by apply F in Hin. }
    destruct (Context_turn (dispatch user) stopping t w) as [[|r|info] w1]; simpl in *.
    + destruct (run_loop_extends sched w1) as (evs' & Hevs').
      rewrite Hevs', Hevs, <- app_assoc in Htr. apply app_inv_head in Htr.
      destruct (app_split_other _ evs evs' tr1 tr2 Hno Htr) as (k & _ & Hk).
      apply (IH w1 k). by rewrite Hevs', Hk.
    + rewrite Hevs in Htr. apply app_inv_head in Htr. subst. set_solver.
    + rewrite Hevs in Htr. apply app_inv_head in Htr. subst. set_solver.
  - rewrite Ht in *. simpl in *. rewrite Hevs, <- app_assoc in Htr.
    apply app_inv_head in Htr. simpl in Htr. pose proof (idle_other evs F) as Hno.
    destruct tr1 as [|ev tr1]; simpl in Htr; simplify_eq; [eauto|]. set_solver.
Qed.
End Terminate.

Section TerminateQueued.
Context {A E M R : Type} {chan : Type -> Type} `{HT : TokioMpsc chan}.

Abbreviation W := (world A (Context E unit) E M R chan).
Abbreviation code := (ucode A (Context E unit) (ContextOp E)).
Abbreviation queue w := (cv_queue (mpsc_view (w_mail w))).

Context (user : M -> code R).
Context (stopping : code (result StoppingDecision E)).

Implicit Types (w : W) (t : Turn M).

(** The envelope of [address.do_send(Signal::Terminate)]. *)
Definition terminate_envelope : Envelope M := pack (MsgSignal SignalTerminate) None.

(** Receiving it leaves the loop. *)
Lemma turn_terminate_head t w q :
  queue w = terminate_envelope :: q ->
  exists r, (Context_turn (dispatch user) stopping t w).1 = TurnReturn r.
Proof.
  intros Hq. unfold Context_turn.
  destruct (deliver_queue (t_arrive t) (w_mail w)) as (a1 & _ & Hq1). rewrite Hq in Hq1.
  destruct (recv_cons _ _ _ Hq1) as (q' & Hr & _). simpl. rewrite Hr. simpl.
  unfold check_error. simpl. rewrite andb_false_r. unfold after_message. simpl.
  unfold take_error_w. simpl. destruct (Context_take_error _) as [r c]. eauto.
Qed.

(** C18. Termination: if a [Terminate] is queued, the loop leaves after at most as many
    turns as messages precede it (and the signal's own), whatever the handlers, the
    [stopping] hook and the other senders do. *)
Theorem queued_terminate_ends_loop sched w pre post
    (Hq : queue w = pre ++ terminate_envelope :: post) (Hlen : length pre < length sched) :
  (Context_run_loop (dispatch user) stopping sched w).1 ≠ LoopWaiting.
Proof.
  revert w pre post Hq Hlen. induction sched as [|t sched IH]; intros w pre post Hq Hlen.
  { simpl in Hlen. lia. }
  simpl. case_bool_decide; [|done].
  destruct pre as [|e pre].
  - destruct (turn_terminate_head t w post Hq) as [r Hr].
    destruct (Context_turn _ _ t w) as [o w1]. simpl in Hr. by subst.
  - destruct (turn_fifo (dispatch user) stopping t w) as (acc & cons & _ & Hc & _ & Hone).
    destruct (Context_turn (dispatch user) stopping t w) as [[] w1]; try done.
    simpl in Hc, Hlen. rewrite Hq in Hc, Hone. simpl in Hc, Hone.
    destruct cons as [|e' [|e2 cons]]; specialize (Hone ltac:(done)); simpl in Hone; try lia.
    simpl in Hc. injection Hc as _ Hc. apply (IH w1 pre (post ++ acc)); [|lia].
    by rewrite <- Hc, <- app_assoc.
Qed.
End TerminateQueued.

(** ** Saved errors *)

Section SavedError.
Context {A E M R D : Type} {chan : Type -> Type} `{HT : TokioMpsc chan} `{HD : DrainPolicy D}.

Abbreviation Ctx := (Context E D).
Abbreviation W := (world A Ctx E M R chan).
Abbreviation code := (ucode A Ctx (ContextOp E)).
Abbreviation hooks w := (omap hook_of (w_trace w)).

Context (handler : Msg M -> code (Reply R)).
Context (stopping : code (result StoppingDecision E)).

Implicit Types (w : W) (t : Turn M).

(** A warning with this error was sent to a supervisor or logged. *)
Definition warned (i : ActorId) (err : E) w : Prop :=
  (exists s, EvNotify s (SupWarn i err) ∈ w_trace w) \/ EvLog (SupWarn i err) ∈ w_trace w.

Lemma notify_warned i err w :
  doorplate (w_ctx w) = i -> warned i err (notify_w (fun a => SupWarn a err) w).
Proof.
  intros <-. unfold warned, notify_w. rewrite on_ctx_trace. simpl.
  destruct (supervisor (w_ctx w)) as [s|]; simpl; [left; exists s|right]; set_solver.
Qed.

(** The world in which the [stopping] hook of a turn runs: a saved error has been taken. *)
Definition before_stopping w : W := (take_error_w (check_error w)).2.

Lemma check_error_saved err w :
  error (w_ctx w) = Some err -> state (w_ctx w) = Running -> check_error w = set_state_w Stopping w.
Proof. intros He Hs. unfold check_error. by rewrite He, Hs. Qed.

Lemma check_error_stopping w : state (w_ctx w) = Stopping -> check_error w = w.
Proof. intros Hs. unfold check_error. rewrite Hs. by rewrite andb_false_r. Qed.

(** C28. What becomes of an error that a handler saves while the actor is running: the
    [stopping] hook is entered, in state [Stopping]; if the hook lets the actor stop, the
    loop returns the saved error; if the hook lets it continue, the error is reported as a
    warning and the actor is running again. If the hook fails, its own error is returned in
    place of the saved one, and if it panics, the loop does. *)
Theorem saved_error_reported t w q e w1 err
    (Hrecv : Mailbox_recv (B := unit) (w_mail (deliver_w (t_arrive t) w)) = (Ready (Ok e), q))
    (Hhandle : handle_envelope handler t e (set_mail q (deliver_w (t_arrive t) w)) =
               (UDone tt, w1))
    (Herr : error (w_ctx w1) = Some err) (Hrun : state (w_ctx w1) = Running) :
  let (o, w2) := Context_turn handler stopping t w in
  hooks w2 = hooks w1 ++ [StoppingHook] /\
  match (exec_hook StoppingHook stopping (before_stopping w1)).1 with
  | UDone (Ok Stop) => o = TurnReturn (Err err)
  | UDone (Ok Continue) =>
      o = TurnNext /\ state (w_ctx w2) = Running /\ warned (doorplate (w_ctx w1)) err w2
  | UDone (Err e') => o = TurnReturn (Err e')
  | UPanicked info => o = TurnPanic info
  | UTimedOut => False
  end.
Proof.
  unfold Context_turn. rewrite Hrecv, Hhandle. unfold before_stopping.
  rewrite (check_error_saved err) by done. set (w2 := set_state_w Stopping w1) in *.
  assert (Hst : state (w_ctx w2) = Stopping) by done.
  assert (Hte : take_error_w w2 = (Err err, set_ctx (with_error (w_ctx w2) None) w2)).
  { unfold take_error_w, Context_take_error. simpl. by rewrite Herr. }
  unfold after_message. rewrite Hst, Hte. cbn [snd]. set (w3 := set_ctx _ w2).
  assert (Hh3 : hooks w3 = hooks w1) by apply set_state_w_hooks.
  pose proof (exec_hook_hooks StoppingHook stopping w3) as Hh. rewrite Hh3 in Hh.
  pose proof (exec_index stopping None (enter_hook StoppingHook w3)) as Hi.
  pose proof (exec_no_timeout stopping (enter_hook StoppingHook w3)) as Hto.
  unfold exec_hook in *. destruct (exec stopping None _) as [d w4]. simpl in Hh, Hi, Hto.
  destruct d as [[[]|e']|info|]; try done.
  set (w5 := notify_w _ _). split.
  - etransitivity; [apply set_state_w_hooks|]. etransitivity; [apply notify_w_hooks|exact Hh].
  - split_and!; [done..|]. assert (Hw : warned (doorplate (w_ctx w1)) err w5) by by apply notify_warned.
    destruct Hw as [[s Hs]|Hl]; [left; exists s|right]; unfold set_state_w;
      rewrite on_ctx_trace; set_solver.
Qed.

(** C29. An error of the [stopping] hook is lost when no error was saved: the actor was
    asked to stop while it handled a message, the hook fails, and the loop returns success
    and reports nothing. *)
Theorem stopping_error_swallowed t sched w q e w1 e' w2
    (Hrecv : Mailbox_recv (B := unit) (w_mail (deliver_w (t_arrive t) w)) = (Ready (Ok e), q))
    (Hhandle : handle_envelope handler t e (set_mail q (deliver_w (t_arrive t) w)) =
               (UDone tt, w1))
    (Hrun : state (w_ctx w) = Running)
    (Herr : error (w_ctx w1) = None) (Hst : state (w_ctx w1) = Stopping)
    (Hhook : exec_hook StoppingHook stopping (before_stopping w1) = (UDone (Err e'), w2)) :
  (Context_run_loop handler stopping (t :: sched) w).1 = LoopReturned (Ok tt) /\
  w_trace (Context_run_loop handler stopping (t :: sched) w).2 = w_trace w2.
Proof.
  simpl. rewrite bool_decide_eq_true_2 by done. unfold Context_turn. rewrite Hrecv, Hhandle.
  unfold before_stopping in Hhook. rewrite check_error_stopping in * by done.
  unfold after_message. rewrite Hst.
  assert (Hte : (take_error_w w1).1 = Ok tt).
  { unfold take_error_w, Context_take_error. by rewrite Herr. }
  destruct (take_error_w w1) as [r w3]. simpl in *. by rewrite Hhook, Hte.
Qed.
End SavedError.

(** ** Draining *)

Section Drain.
Context {A E M R : Type} {chan : Type -> Type} `{HT : TokioMpsc chan}.

Abbreviation Ctx := (Context E DrainState).
Abbreviation W := (world A Ctx E M R chan).
Abbreviation code := (ucode A Ctx (ContextOp E)).
Abbreviation queue w := (cv_queue (mpsc_view (w_mail w))).

Context (handler : Msg M -> code (Reply R)).

Implicit Types (w : W) (t : Turn M).

Lemma handle_mailbox_len e b cut w :
  mailbox_len (drain (w_ctx (Envelope_handle handler e b cut w).2)) =
  mailbox_len (drain (w_ctx w)).
Proof.
  set (P := fun c : Ctx => mailbox_len (drain c) = mailbox_len (drain (w_ctx w))).
  assert (HP : forall o c, P c -> P (ctx_call (R := R) (M := M) o c).1).
  { intros o c Hc. destruct o as [| | | |[r|]| | | |]; simpl; try done.
    unfold Context_set_supervisor. by case_bool_decide. }
  unfold Envelope_handle.
  destruct e as [[m|] tx|[m|] tx budget]; simpl; try done;
    (destruct (skip_message tx b); simpl; [done|]);
    match goal with |- context [exec ?u ?c ?w'] =>
      pose proof (exec_ctx P u c w' HP eq_refl) as Hx; destruct (exec u c w') as [[] w1] end;
    unfold P in Hx; simpl in *; unfold respond; try destruct tx; done.
Qed.

(** A drain discards exactly the messages that were queued when the handler started:
    if the handler asks for it, only what arrived while it ran is left; if it does not,
    nothing is lost. The request is consumed either way. *)
Lemma drain_exact t e w w1 r
    (Hhandle : Envelope_handle handler e (t_tx_closed t) (t_cut t) (snapshot_w w) = (r, w1))
    (Hok : is_panicked r = false) :
  let w2 := (handle_envelope handler t e w).2 in
  requested (drain (w_ctx w2)) = false /\
  exists acc, acc `sublist_of` t_during t /\
              queue w2 = (if requested (drain (w_ctx w1)) then [] else queue w) ++ acc.
Proof.
  pose proof (handle_mailbox_len e (t_tx_closed t) (t_cut t) (snapshot_w w)) as Hlen.
  pose proof (handle_mail handler e (t_tx_closed t) (t_cut t) (snapshot_w w)) as Hm.
  rewrite handle_envelope_cases, Hhandle in *. simpl in Hlen, Hm.
  destruct (deliver_queue (t_during t) (w_mail w1)) as (acc & Hacc & Hd).
  unfold Mailbox_len in Hlen. rewrite mpsc_len_law in Hlen.
  replace (queue w1) with (queue w) in Hd by (by rewrite Hm).
  assert (Hw : requested (drain (w_ctx (apply_drain_w (deliver_w (t_during t) w1)))) = false /\
    queue (apply_drain_w (deliver_w (t_during t) w1)) =
      (if requested (drain (w_ctx w1)) then [] else queue w) ++ acc).
  { unfold apply_drain_w. simpl. unfold Drainable_apply.
    destruct (requested (drain (w_ctx w1))) eqn:Er; simpl;
      [split; [done|]|split; [done|exact Hd]].
    by rewrite discard_queue, Hd, Hlen, drop_app_length. }
  destruct r; try done; simpl; destruct Hw as [-> ->]; eauto.
Qed.
End Drain.

(** ** A concrete actor *)

Section Sample.
Context {D : Type} `{DrainPolicy D}.

Abbreviation Ctx := (Context string D).
Abbreviation code := (ucode nat Ctx (ContextOp string)).

(** [0] drains the mailbox, [1] saves an error, other numbers are stored. *)
Definition sample_user (n : nat) : code nat :=
  match n with
  | 0 => UOp OpDrainMailbox (URet 0)
  | 1 => UOp (OpSaveError "boom") (URet 1)
  | _ => UAwait (UPut n (URet n))
  end.

Definition sample_stopping : code (result StoppingDecision string) := URet (Ok Continue).

Definition sample_ctx (s : ActorState) : Ctx :=
  mkContext "sample" s (ActorId_new 7) false dp_default None (Some (mkRecipient (ActorId_new 9))).

Definition sample_mail (q : list (Envelope nat)) : chan_view (Envelope nat) :=
  ChanView q 8 0 1 false.

Definition sample_world (q : list (Envelope nat)) : world nat Ctx string nat nat chan_view :=
  mkWorld 0 (sample_ctx Running) (sample_mail q) [].

Definition user_envelope (n : nat) : Envelope nat := pack (MsgUser n) None.

Definition quiet_turn : Turn nat := mkTurn [] false None [] [].
End Sample.

Lemma nothing_after_terminate_witness :
  let w := sample_world (D := unit) [user_envelope 5; terminate_envelope; user_envelope 6] in
  let w' := (Context_run_loop (dispatch sample_user) sample_stopping [quiet_turn; quiet_turn] w).2 in
  exists tr2, w_trace w' = [EvHandle (MsgUser 5)] ++ handles_terminate :: tr2 /\ Forall idle tr2.
Proof.
  eexists. split; [reflexivity|].
  apply (nothing_after_terminate (D := unit) sample_user sample_stopping [quiet_turn; quiet_turn]
    (sample_world [user_envelope 5; terminate_envelope; user_envelope 6]) [EvHandle (MsgUser 5)]).
  reflexivity.
Defined.

Lemma queued_terminate_ends_loop_witness :
  (Context_run_loop (dispatch sample_user) sample_stopping [quiet_turn; quiet_turn]
    (sample_world (D := unit) [user_envelope 5; terminate_envelope])).1 ≠ LoopWaiting.
Proof.
  apply (queued_terminate_ends_loop sample_user sample_stopping [quiet_turn; quiet_turn]
    (sample_world [user_envelope 5; terminate_envelope]) [user_envelope 5] []);
    [reflexivity|simpl; lia].
Defined.

(** The world once the handler of message [1] has saved its error. *)
Definition sample_failed : world nat (Context string unit) string nat nat chan_view :=
  mkWorld 0 (with_error (sample_ctx Running) (Some "boom")) (sample_mail [])
    [EvHandle (MsgUser 1)].

Lemma saved_error_reported_witness :
  let (o, w2) := Context_turn (dispatch sample_user) sample_stopping quiet_turn
                   (sample_world (D := unit) [user_envelope 1]) in
  omap hook_of (w_trace w2) = omap hook_of (w_trace sample_failed) ++ [StoppingHook] /\
  match (exec_hook StoppingHook sample_stopping (before_stopping sample_failed)).1 with
  | UDone (Ok Stop) => o = TurnReturn (Err "boom")
  | UDone (Ok Continue) =>
      o = TurnNext /\ state (w_ctx w2) = Running /\ warned (ActorId_new 7) "boom" w2
  | UDone (Err e') => o = TurnReturn (Err e')
  | UPanicked info => o = TurnPanic info
  | UTimedOut => False
  end.
Proof.
  exact (saved_error_reported (D := unit) (HT := view_mpsc) (dispatch sample_user) sample_stopping
    quiet_turn (sample_world [user_envelope 1]) (sample_mail []) (user_envelope 1) sample_failed
    "boom" eq_refl eq_refl eq_refl eq_refl).
Defined.

(** The actor is told to stop, and its [stopping] hook fails. *)
Definition failing_stopping : ucode nat (Context string unit) (ContextOp string) (result StoppingDecision string) :=
  URet (Err "flush failed").

Definition warning_of (e : Event string nat nat) : option string :=
  match e with EvNotify _ (SupWarn _ err) | EvLog (SupWarn _ err) => Some err | _ => None end.

Definition sample_stopped : world nat (Context string unit) string nat nat chan_view :=
  mkWorld 0 (sample_ctx Stopping) (sample_mail [])
    [EvHandle (MsgSignal SignalStop); EvNotify (mkRecipient (ActorId_new 9)) (SupState (ActorId_new 7) Stopping)].

Lemma stopping_error_swallowed_witness :
  let w := sample_world (D := unit) [pack (MsgSignal SignalStop) None] in
  let out := Context_run_loop (dispatch sample_user) failing_stopping [quiet_turn] w in
  out.1 = LoopReturned (Ok tt) /\
  omap hook_of (w_trace out.2) = [StoppingHook] /\ omap warning_of (w_trace out.2) = [].
Proof.
  destruct (stopping_error_swallowed (D := unit) (HT := view_mpsc) (dispatch sample_user) failing_stopping
    quiet_turn [] (sample_world [pack (MsgSignal SignalStop) None]) (sample_mail [])
    (pack (MsgSignal SignalStop) None) sample_stopped "flush failed"
    (enter_hook StoppingHook sample_stopped)) as [Ho Ht]; [vm_compute; reflexivity..|].
  split; [exact Ho|]. split; by rewrite Ht.
Defined.

(** A mailbox of two messages, drained while a third one arrives: only the third is left. *)
Lemma drain_exact_witness :
  let t := mkTurn [] false None [user_envelope 6] [] in
  let w := sample_world (D := DrainState) [user_envelope 4; user_envelope 5] in
  exists acc, acc `sublist_of` t_during t /\
    cv_queue (mpsc_view (w_mail (handle_envelope (dispatch sample_user) t (user_envelope 0) w).2)) =
    [] ++ acc.
Proof.
  edestruct (drain_exact (dispatch sample_user) (mkTurn [] false None [user_envelope 6] [])
    (user_envelope 0) (sample_world [user_envelope 4; user_envelope 5])) as [_ Hacc];
    [reflexivity|reflexivity|].
  exact Hacc.
Defined.
