(* ===== verification/LifecycleTheorems.v ===== *)
(** * The life of an actor: theorems

    For every actor (hooks and handlers), every schedule of the other tasks, and for the
    actor contexts of the sources. *)

From S2P Require Import Prelude Tokio ActorTypes UserCode Context Lifecycle ContextFacts.
From S2P Require Import LifecycleFacts ContextLoop.

#[local] Arguments emit : simpl never.
#[local] Arguments run_finish : simpl never.

Section Generic.
Context {A C E M R Op : Type} {chan : Type -> Type}.
Context `{HL : ContextLaws E M R C Op} `{HT : TokioMpsc chan}.

Abbreviation W := (world A C E M R chan).
Abbreviation hooks_seen w := (omap hook_of (w_trace w)).

Context (hooks : Hooks A C Op E).
Context (run_loop : list (Turn M) -> W -> loop_out E * W) `{HR : !LoopLaws run_loop}.

Implicit Types (w : W).

(** [post_stop] runs when the loop returned, with an error or without, and only then. *)
Lemma run_to_end_hooks sched w :
  exists n, hooks_seen (run_to_end hooks run_loop sched w).2 =
    hooks_seen w ++ replicate n StoppingHook ++
    match (run_loop sched w).1 with LoopReturned _ => [PostStop] | _ => [] end.
Proof using Type*.
  destruct (loop_hooks sched w) as [n Hn]. exists n. unfold run_to_end.
  destruct (run_loop sched w) as [[r|info|] w1]; cbn [fst snd] in *.
  - by rewrite (run_finish_hooks hooks run_loop), Hn, <- app_assoc.
  - by rewrite (run_finish_hooks hooks run_loop), Hn, <- app_assoc.
  - by rewrite app_nil_r.
Qed.

(** C1. The order of the hooks of an actor, exactly. [pre_start] runs first and once, and if
    it fails or panics no other hook does; then [post_start] once, and if it fails or panics
    no other hook does; then [stopping], as often as the actor is asked to stop while it
    lets itself be resumed; and [post_stop] runs last, once, exactly when the message loop
    returned, also with an error, and not when a handler or [stopping] panicked. *)
Theorem hook_order sched w
    (Hfresh : hooks_seen w = []) (Hmail : (ctx_take_mailbox (w_ctx w)).1 = true) :
  let seen := hooks_seen (ActorContext_spawn hooks run_loop sched w).2 in
  match exec_hook PreStart (pre_start hooks) (set_ctx (ctx_take_mailbox (w_ctx w)).2 w) with
  | (UDone (Ok _), w1) =>
      match exec_hook PostStart (post_start hooks) (ctx_set_state_w Starting w1) with
      | (UDone (Ok _), w2) =>
          exists n, seen = [PreStart; PostStart] ++ replicate n StoppingHook ++
            match (run_loop sched (ctx_set_state_w Running w2)).1 with
            | LoopReturned _ => [PostStop]
            | LoopPanicked _ | LoopWaiting => []
            end
      | _ => seen = [PreStart; PostStart]
      end
  | _ => seen = [PreStart]
  end.
Proof using Type*.
  unfold ActorContext_spawn.
  destruct (ctx_take_mailbox (w_ctx w)) as [present c]. simpl in Hmail |- *. subst.
  set (w0 := set_ctx c w).
  pose proof (exec_hook_hooks PreStart (pre_start hooks) w0) as Hh.
  pose proof (exec_no_timeout (pre_start hooks) (enter_hook PreStart w0)) as Hto.
  unfold exec_hook in *. destruct (exec (pre_start hooks) None _) as [r w1]. simpl in Hh, Hto.
  replace (hooks_seen w0) with (@nil Hook) in Hh by done. simpl in Hh.
  destruct r as [[u|e]|info|]; simpl; try done.
  unfold spawn_task, ActorContext_run. set (w2 := ctx_set_state_w Starting w1).
  assert (Hw2 : hooks_seen w2 = [PreStart]) by (rewrite <- Hh; apply on_ctx_set_state_hooks).
  pose proof (exec_hook_hooks PostStart (post_start hooks) w2) as Hp. rewrite Hw2 in Hp.
  pose proof (exec_no_timeout (post_start hooks) (enter_hook PostStart w2)) as Htp.
  unfold exec_hook in *. destruct (exec (post_start hooks) None _) as [r w3]. simpl in Hp, Htp.
  destruct r as [[[]|e]|info|]; cbn [catch_unwind fst snd]; [|..|done].
  2,3: etransitivity; [apply on_ctx_notify_hooks|];
    rewrite <- Hp; apply (on_ctx_set_state_hooks Stopped w3).
  set (w4 := ctx_set_state_w Running w3).
  assert (Hw4 : hooks_seen w4 = [PreStart; PostStart]) by (rewrite <- Hp; apply on_ctx_set_state_hooks).
  destruct (run_to_end_hooks sched w4) as [n Hn]. rewrite Hw4 in Hn. exists n.
  destruct (run_to_end hooks run_loop sched w4) as [[r|] w5]; cbn [fst snd] in *; [|done].
  etransitivity; [apply on_ctx_notify_hooks|exact Hn].
Qed.

Lemma run_finish_closed caught w :
  cv_closed (mpsc_view (w_mail (run_finish hooks caught w).2)) = true.
Proof.
  unfold run_finish, run_post_stop. set (w1 := if bool_decide _ then _ else w).
  assert (Hc : cv_closed (mpsc_view (w_mail (drop_mailbox w1))) = true).
  { unfold drop_mailbox. simpl. by rewrite mpsc_close_law. }
  destruct caught as [r|info]; simpl; [|done]. unfold exec_hook.
  pose proof (exec_mail (post_stop hooks) None (enter_hook PostStop (drop_mailbox w1))) as Hm.
  destruct (exec _ None _) as [[] w2]; simpl in *; by rewrite Hm.
Qed.

Lemma run_closed sched w r :
  (ActorContext_run hooks run_loop sched w).1 = RunDone r ->
  cv_closed (mpsc_view (w_mail (ActorContext_run hooks run_loop sched w).2)) = true.
Proof.
  unfold ActorContext_run, run_to_end. destruct (exec_hook PostStart _ w) as [x w1].
  destruct (catch_unwind x) as [[[[]|e]|info]|]; simpl; try done;
    try (intros _; by rewrite mpsc_close_law).
  destruct (run_loop sched _) as [[] w2]; try done; intros _; apply run_finish_closed.
Qed.

(** C3. A task that ends has closed its mailbox, so no sender can reach the actor any
    more, and its last act is to report how it ended to the supervisor it then has:
    [Terminated] with the error, if any, of the run, or [Panicked] with the panic's
    message. *)
Theorem task_reports_outcome sched w i r (Hgood : good i w) (Hst : ctx_state (w_ctx w) = Starting)
    (Hdone : (spawn_task hooks run_loop sched w).1 = RunDone r) :
  let w' := (spawn_task hooks run_loop sched w).2 in
  cv_closed (mpsc_view (w_mail w')) = true /\
  exists tr, w_trace w' = tr ++ try_notify_supervisor (ctx_supervisor (w_ctx w'))
                                                      (terminal_event r i).
Proof using Type*.
  unfold spawn_task in *. pose proof (run_closed sched w) as Hc.
  pose proof (run_good hooks run_loop i sched w Hgood Hst) as [Hi _ _].
  destruct (ActorContext_run hooks run_loop sched w) as [[r'|] w1]; simpl in *; [|done].
  simplify_eq. split; [by apply (Hc r)|]. exists (w_trace w1).
  etransitivity; [apply (on_ctx_trace (ctx_notify (terminal_event r)))|].
  done.
Qed.

(** An actor that could not be started has no open mailbox either: whoever got its address
    while it was built cannot send to it. *)
Lemma failed_start_closes sched w :
  (ctx_take_mailbox (w_ctx w)).1 = true ->
  match ActorContext_spawn hooks run_loop sched w with
  | (SpawnErr _, w') | (SpawnPanicked _, w') => cv_closed (mpsc_view (w_mail w')) = true
  | (SpawnOk _, _) => True
  end.
Proof.
  unfold ActorContext_spawn. destruct (ctx_take_mailbox (w_ctx w)) as [present c]. simpl. intros ->.
  destruct (exec_hook PreStart _ _) as [[[u|e]|info|] w1]; simpl; [|by rewrite mpsc_close_law..|done].
  by destruct (spawn_task _ _ _ _).
Qed.
End Generic.

Section Start.
Context {A E M R D : Type} {chan : Type -> Type} `{HT : TokioMpsc chan} `{HD : DrainPolicy D}.

Abbreviation Ctx := (Context E D).
Abbreviation W := (world A Ctx E M R chan).
Abbreviation code := (ucode A Ctx (ContextOp E)).

Context (hooks : Hooks A Ctx (ContextOp E) E).
Context (handler : Msg M -> code (Reply R)).

Lemma fresh_good lbl index (a : A) :
  let '(c, mail, _) := Context_new (E := E) (M := M) (D := D) (chan := chan) lbl index in
  good (ActorId_new index) (mkWorld a c mail [] : W).
Proof. by split. Qed.

(** A started actor of a fresh default context. *)
Definition start_context (lbl : string) (index : Z) (a : A) (sched : list (Turn M))
    : spawn_out E * W :=
  let '(c, mail, _) := Context_new lbl index in
  Actor_start hooks (Context_run_loop handler (stopping hooks)) a c mail sched.

Lemma start_good lbl index a sched :
  good (ActorId_new index) (start_context lbl index a sched).2.
Proof.
  unfold start_context, Actor_start. simpl. apply spawn_good; [apply _..| |done].
  apply (fresh_good lbl index a).
Qed.

(** C2. Every hook of a started actor runs in the state its documentation names:
    [pre_start] in [Unstarted], [post_start] in [Starting], [stopping] in [Stopping] and
    [post_stop] in [Stopped], even when user code changes the state by hand. *)
Theorem hooks_in_documented_states lbl index a sched h s :
  EvHook h s ∈ w_trace (start_context lbl index a sched).2 -> s = documented_state h.
Proof.
  intros Hin. destruct (start_good lbl index a sched) as [_ _ Ht].
  rewrite Forall_forall in Ht. apply (Ht _ Hin).
Qed.

(** An actor never becomes its own supervisor: no supervision event is ever sent to
    the actor's own address, and at the end its supervisor, if any, is another actor. *)
Lemma never_own_supervisor lbl index a sched :
  (forall r ev, EvNotify r ev ∈ w_trace (start_context lbl index a sched).2 ->
                rcp_index r ≠ ActorId_new index) /\
  supervisor (w_ctx (start_context lbl index a sched).2) ≠
    Some (mkRecipient (ActorId_new index)).
Proof.
  destruct (start_good lbl index a sched) as [_ Hs Ht]. split.
  - intros r ev Hin. rewrite Forall_forall in Ht. apply (Ht _ Hin).
  - simpl in Hs. intros Heq. by rewrite Heq in Hs.
Qed.
End Start.

(** ** A concrete actor *)

Section Sample.
Abbreviation Ctx := (Context string unit).
Abbreviation code := (ucode nat Ctx (ContextOp string)).

(** Its [stopping] hook sets the state by hand before giving up. *)
Definition sample_hooks : Hooks nat Ctx (ContextOp string) string := mkHooks
  (URet (Ok tt))
  (UOp (OpSetSupervisor (Some (mkRecipient (ActorId_new 9)))) (UAwait (URet (Ok tt))))
  (UOp (OpSetState Unstarted) (URet (Ok Stop)))
  (URet (Err "late")).

Definition sample_handler (m : Msg nat) : code (Reply nat) :=
  dispatch (fun n => URet n) m.

Definition sample_loop :=
  Context_run_loop (chan := chan_view) sample_handler (stopping sample_hooks).

Definition sample_mail : chan_view (Envelope nat) :=
  ChanView [pack (MsgUser 3) (Some 0); pack (MsgSignal SignalStop) None] 8 0 1 false.

Definition sample_turn : Turn nat := mkTurn [] false None [] [].

Definition sample_start (s : ActorState) : world nat Ctx string nat nat chan_view :=
  mkWorld 0 (mkContext "sample" s (ActorId_new 7) true tt None None) sample_mail [].

Lemma hook_order_witness :
  let seen := omap hook_of (w_trace (ActorContext_spawn sample_hooks sample_loop [sample_turn; sample_turn]
                                       (sample_start Unstarted)).2) in
  seen = [PreStart; PostStart; StoppingHook; PostStop] /\
  exists n, seen = [PreStart; PostStart] ++ replicate n StoppingHook ++ [PostStop].
Proof.
  split; [reflexivity|].
  exact (hook_order sample_hooks sample_loop [sample_turn; sample_turn] (sample_start Unstarted)
           eq_refl eq_refl).
Defined.

Lemma task_reports_outcome_witness :
  let w' := (spawn_task sample_hooks sample_loop [sample_turn; sample_turn] (sample_start Starting)).2 in
  cv_closed (mpsc_view (w_mail w')) = true /\
  exists tr, w_trace w' = tr ++ try_notify_supervisor (ctx_supervisor (E := string) (M := nat) (R := nat) (w_ctx w'))
                                  (terminal_event (Ok (Err "late")) (ActorId_new 7)).
Proof.
  pose proof (task_reports_outcome sample_hooks sample_loop [sample_turn; sample_turn]
    (sample_start Starting) (ActorId_new 7) (Ok (Err "late"))) as Ho.
  assert (Hg : good (ActorId_new 7) (sample_start Starting)) by by split.
  exact (Ho Hg eq_refl eq_refl).
Defined.

Lemma hooks_in_documented_states_witness :
  EvHook StoppingHook Stopping ∈
    w_trace (start_context sample_hooks sample_handler (chan := chan_view) "a" 7 0
      [mkTurn [pack (MsgSignal SignalStop) None] false None [] []]).2 /\
  Stopping = documented_state StoppingHook.
Proof.
  assert (Hin : EvHook StoppingHook Stopping ∈
    w_trace (start_context sample_hooks sample_handler (chan := chan_view) "a" 7 0
      [mkTurn [pack (MsgSignal SignalStop) None] false None [] []]).2).
  { vm_compute. repeat constructor. }
  split; [exact Hin|].
  exact (hooks_in_documented_states sample_hooks sample_handler (chan := chan_view) "a" 7 0
    [mkTurn [pack (MsgSignal SignalStop) None] false None [] []] StoppingHook Stopping Hin).
Defined.
End Sample.
