(* ===== verification/Cron.v ===== *)
(** * Cron actors

    Models acktor/src/cron.rs: [CronContext] and its message loop. Its fields other than
    the two of the repetitive task, and the methods that use only them, are those of the
    default context, so they are kept in a [Context]. *)

From S2P Require Import Prelude Tokio ActorTypes UserCode Context Lifecycle.

(** The join handle of a timer is the position of its spawn in the trace. *)
Record CronContext (E D : Type) : Type := mkCronContext {
  cron_base : Context E D;
  cron_state : CronState;
  cron_join_handle : option nat;
}.
Arguments mkCronContext {E D} _ _ _.
Arguments cron_base {E D} _.
Arguments cron_state {E D} _.
Arguments cron_join_handle {E D} _.

Inductive CronOp (E : Type) : Type :=
| CronBaseOp (o : ContextOp E)
| OpPauseTask
| OpResumeTask.
Arguments CronBaseOp {E} _.
Arguments OpPauseTask {E}.
Arguments OpResumeTask {E}.

(** The messages of a cron actor: [CronSignal] and its own. *)
Inductive CronMsg (M : Type) : Type :=
| CronSig (s : CronSignal)
| CronUser (m : M).
Arguments CronSig {M} _.
Arguments CronUser {M} _.

Section CronOps.
Context {E M R D : Type} `{DrainPolicy D}.

Abbreviation Ctx := (CronContext E D).
Implicit Types (c : Ctx).

Definition with_base c (b : Context E D) : Ctx := mkCronContext b (cron_state c) (cron_join_handle c).

Definition CronContext_with_capacity {chan} `{TokioMpsc chan} (lbl : string) (capacity : nat)
    (next_index : Z) : Ctx * chan (Envelope M) * Z :=
  let '(b, mail, next) := Context_with_capacity lbl capacity next_index in
  (mkCronContext b CronNormal None, mail, next).

Definition CronContext_new {chan} `{TokioMpsc chan} (lbl : string) (next_index : Z)
    : Ctx * chan (Envelope M) * Z :=
  CronContext_with_capacity lbl DEFAULT_MAILBOX_CAPACITY next_index.

(** [self.cron_join_handle.take()] aborted, if there is one. *)
Definition abort_timer c : list (Event E M R) :=
  match cron_join_handle c with Some id => [EvTimerAbort id] | None => [] end.

Definition CronContext_state c : ActorState := state (cron_base c).

Definition CronContext_pause_task c : Ctx * list (Event E M R) :=
  (mkCronContext (cron_base c) CronPaused None, abort_timer c).

Definition CronContext_resume_task c : Ctx * list (Event E M R) :=
  (mkCronContext (cron_base c) CronNormal None, abort_timer c).

Definition on_base (f : Context E D -> Context E D * list (Event E M R)) c
    : Ctx * list (Event E M R) :=
  let (b, evs) := f (cron_base c) in (with_base c b, evs).

Definition CronContext_set_state (s : ActorState) : Ctx -> Ctx * list (Event E M R) :=
  on_base (Context_set_state s).

Definition CronContext_set_supervisor (o : option Recipient) c : Ctx :=
  with_base c (Context_set_supervisor o (cron_base c)).

Definition CronContext_take_mailbox c : bool * Ctx :=
  let (b, base) := Context_take_mailbox (cron_base c) in (b, with_base c base).

Definition CronContext_take_error c : result unit E * Ctx :=
  let (r, base) := Context_take_error (cron_base c) in (r, with_base c base).

Definition CronContext_call (o : CronOp E) c : Ctx * list (Event E M R) :=
  match o with
  | CronBaseOp o => on_base (Context_call o) c
  | OpPauseTask => CronContext_pause_task c
  | OpResumeTask => CronContext_resume_task c
  end.

#[global] Instance CronContext_ActorContext : ActorContext E M R Ctx (CronOp E) := {|
  ctx_index c := doorplate (cron_base c);
  ctx_state := CronContext_state;
  ctx_set_state := CronContext_set_state;
  ctx_supervisor c := supervisor (cron_base c);
  ctx_set_supervisor := CronContext_set_supervisor;
  ctx_take_mailbox := CronContext_take_mailbox;
  ctx_call := CronContext_call;
|}.
End CronOps.

Section CronLoop.
Context {A E M R D : Type} {chan : Type -> Type} `{TokioMpsc chan} `{DrainPolicy D}.

Abbreviation Ctx := (CronContext E D).
Abbreviation W := (world A Ctx E M R chan).
Abbreviation code := (ucode A Ctx (CronOp E)).

(** The actor: its message handler, its [stopping] hook and its task, which returns the
    delay until its next run. *)
Context (handler : Msg M -> code (Reply R)).
Context (stopping : code (result StoppingDecision E)).
Context (task : code (result Z E)).

Implicit Types (w : W) (t : Turn M).

Definition cron_set_state_w (s : ActorState) w : W := on_ctx (ctx_set_state s) w.

Definition cron_notify_w (event : ActorId -> SupervisionEvent E) w : W := on_ctx (ctx_notify event) w.

Definition set_base_w (b : Context E D) w : W := set_ctx (with_base (w_ctx w) b) w.

Definition cron_take_error_w w : result unit E * W :=
  let (r, c) := CronContext_take_error (w_ctx w) in (r, set_ctx c w).

Definition cron_deliver_w (es : list (Envelope M)) w : W := set_mail (deliver es (w_mail w)) w.

Definition cron_snapshot_w w : W :=
  let b := cron_base (w_ctx w) in
  set_base_w (with_drain b (dp_snapshot (drain b) (w_mail w))) w.

Definition cron_apply_drain_w w : W :=
  let b := cron_base (w_ctx w) in
  let (d, q) := dp_apply (drain b) (w_mail w) in
  set_mail q (set_base_w (with_drain b d) w).

(** Pause the task and spawn the timer that will send [CronSignal::Resume]. *)
Definition spawn_timer_w (duration : Z) w : W :=
  let c := w_ctx w in
  let id := length (w_trace w) in
  emit [EvTimerSpawn id duration] (set_ctx (mkCronContext (cron_base c) CronPaused (Some id)) w).

(** The first half of [process_one]: runs the task if it is not paused, and says whether
    the receive that follows waits for a message. *)
Inductive cron_begin : Type :=
| CronWait (async_wait : bool)
| CronTaskErr (e : E)
| CronTaskPanic (info : PanicInfo).

Definition CronContext_run_task w : cron_begin * W :=
  match cron_state (w_ctx w) with
  | CronPaused => (CronWait true, w)
  | CronNormal =>
      match exec task None (emit [EvTask] w) with
      | (UDone (Err e), w) => (CronTaskErr e, w)
      | (UDone (Ok duration), w) =>
          if (duration =? 0)%Z then (CronWait false, w) else (CronWait true, spawn_timer_w duration w)
      | (UPanicked info, w) => (CronTaskPanic info, w)
      | (UTimedOut, w) => (CronWait true, w)
      end
  end.

Definition cron_handle_envelope t (e : Envelope M) w : uresult unit * W :=
  match Envelope_handle handler e (t_tx_closed t) (t_cut t) (cron_snapshot_w w) with
  | (UPanicked info, w) => (UPanicked info, w)
  | (r, w) => (r, cron_apply_drain_w (cron_deliver_w (t_during t) w))
  end.

(** The second half of [process_one]. *)
Inductive cron_received : Type :=
| CronPending
| CronHandled (r : result unit E)
| CronHandlerPanic (info : PanicInfo).

Definition process_envelope t (e : Envelope M) w : cron_received * W :=
  match cron_handle_envelope t e w with
  | (UPanicked info, w) => (CronHandlerPanic info, w)
  | (_, w) => let (r, w) := cron_take_error_w w in (CronHandled r, w)
  end.

Definition CronContext_receive (async_wait : bool) t w : cron_received * W :=
  let w := cron_deliver_w (t_arrive t) w in
  if async_wait then
    match Mailbox_recv (B := unit) (w_mail w) with
    | (Pending, q) => (CronPending, set_mail q w)
    | (Ready (Ok envelope), q) => process_envelope t envelope (set_mail q w)
    | (Ready (Err _), q) =>
        let (r, w) := cron_take_error_w (cron_set_state_w Stopped (set_mail q w)) in
        (CronHandled r, w)
    end
  else
    match Mailbox_try_recv (B := unit) (w_mail w) with
    | (Ok envelope, q) => process_envelope t envelope (set_mail q w)
    | (Err RecvClosed, q) =>
        let (r, w) := cron_take_error_w (cron_set_state_w Stopped (set_mail q w)) in
        (CronHandled r, w)
    | (Err _, q) => let (r, w) := cron_take_error_w (set_mail q w) in (CronHandled r, w)
    end.

(** The rest of the loop body once [process_one] has returned [result]. *)
Definition cron_after t (result : result unit E) w : turn_out E * W :=
  let w := if negb (is_ok result) && bool_decide (CronContext_state (w_ctx w) = Running)
           then cron_set_state_w Stopping w else w in
  match CronContext_state (w_ctx w) with
  | Stopping =>
      let (d, w) := exec_hook StoppingHook stopping w in
      let w := cron_deliver_w (t_stopping t) w in
      match d with
      | UDone (Ok Stop) => (TurnReturn result, w)
      | UDone (Ok Continue) =>
          let w := match result with
                   | Err e => cron_notify_w (fun a => SupWarn a e) w
                   | Ok _ => w
                   end in
          (TurnNext, cron_set_state_w Running w)
      | UDone (Err e) => (TurnReturn (result_or result (Err e)), w)
      | UPanicked info => (TurnPanic info, w)
      | UTimedOut => (TurnNext, w)
      end
  | Stopped => (TurnReturn result, w)
  | _ => (TurnNext, w)
  end.

(** One scheduled turn, at the start of an iteration or ([waiting]) inside the receive
    of one; the flag returned says whether the iteration still waits for a message. *)
Definition cron_finish_receive t (x : cron_received * W) : bool * turn_out E * W :=
  match x with
  | (CronPending, w) => (true, TurnNext, w)
  | (CronHandlerPanic info, w) => (false, TurnPanic info, w)
  | (CronHandled r, w) => let (o, w) := cron_after t r w in (false, o, w)
  end.

Definition CronContext_turn (waiting : bool) t w : bool * turn_out E * W :=
  if waiting then cron_finish_receive t (CronContext_receive true t w)
  else
    match CronContext_run_task w with
    | (CronTaskErr e, w) => let (o, w) := cron_after t (Err e) w in (false, o, w)
    | (CronTaskPanic info, w) => (false, TurnPanic info, w)
    | (CronWait async_wait, w) => cron_finish_receive t (CronContext_receive async_wait t w)
    end.

Fixpoint cron_loop (waiting : bool) (sched : list (Turn M)) w : loop_out E * W :=
  if waiting || bool_decide (CronContext_state (w_ctx w) = Running) then
    match sched with
    | [] => (LoopWaiting, w)
    | t :: sched =>
        match CronContext_turn waiting t w with
        | (_, TurnReturn r, w) => (LoopReturned r, w)
        | (_, TurnPanic info, w) => (LoopPanicked info, w)
        | (waiting, TurnNext, w) => cron_loop waiting sched w
        end
    end
  else (LoopReturned (Ok tt), w).

Definition CronContext_run_loop : list (Turn M) -> W -> loop_out E * W := cron_loop false.
End CronLoop.

(** [Handler<CronSignal>] and the dispatch of a cron actor's messages. *)
Section CronHandlers.
Context {A E M R D : Type} `{DrainPolicy D}.

Abbreviation code := (ucode A (CronContext E D) (CronOp E)).

Definition CronSignal_handle (s : CronSignal) : code (Reply R) :=
  match s with
  | CronPause => UOp OpPauseTask (URet ReplyUnit)
  | CronResume => UOp OpResumeTask (URet ReplyUnit)
  end.

Definition cron_dispatch (user : M -> code (Reply R)) (m : Msg (CronMsg M)) : code (Reply R) :=
  match m with
  | MsgUser (CronSig s) => CronSignal_handle s
  | MsgUser (CronUser m) => user m
  | MsgSignal SignalStop => UOp (CronBaseOp OpStop) (URet ReplyUnit)
  | MsgSignal SignalTerminate => UOp (CronBaseOp OpTerminate) (URet ReplyUnit)
  | MsgSupervisor (SupervisorSet r) => UOp (CronBaseOp (OpSetSupervisor (Some r))) (URet ReplyUnit)
  | MsgSupervisor SupervisorUnset => UOp (CronBaseOp (OpSetSupervisor None)) (URet ReplyUnit)
  end.
End CronHandlers.
