(* ===== verification/CronFacts.v ===== *)
(** * Cron actors: invariants and theorems

    The cron context meets the interface of the life cycle ([CronContext_laws],
    [CronContext_LoopLaws]), so everything proved of the life cycle holds of cron actors
    too; the task never runs while its timer is pending. *)

From S2P Require Import Prelude Tokio ActorTypes UserCode Context Lifecycle ContextFacts.
From S2P Require Import LifecycleFacts Cron.

#[local] Arguments emit : simpl never.
#[local] Set Default Proof Using "Type*".

#[global] Instance CronContext_laws {E M R D} `{DrainPolicy D} :
  ContextLaws E M R (CronContext E D) (CronOp E).
Proof.
  split; try done.
  - intros [o| |] c; simpl; try (unfold abort_timer; case_match; by repeat constructor).
    unfold on_base. pose proof (law_call_notices (R := R) (M := M) o (cron_base c)) as Hn. simpl in Hn.
    by destruct (Context_call o (cron_base c)).
  - intros [o| |] c; simpl; try done.
    unfold on_base. pose proof (law_call_index (R := R) (M := M) o (cron_base c)) as Hn. simpl in Hn.
    by destruct (Context_call o (cron_base c)).
  - intros [o| |] c Hs; simpl in *.
    + unfold on_base. pose proof (law_call_supervisor (R := R) (M := M) o (cron_base c) Hs) as Hn.
      simpl in Hn. by destruct (Context_call o (cron_base c)).
    + split; [done|]. unfold abort_timer. case_match; by repeat constructor.
    + split; [done|]. unfold abort_timer. case_match; by repeat constructor.
Qed.

Section CronFacts.
Context {A E M R D : Type} {chan : Type -> Type} `{HT : TokioMpsc chan} `{HD : DrainPolicy D}.

Abbreviation Ctx := (CronContext E D).
Abbreviation W := (world A Ctx E M R chan).
Abbreviation code := (ucode A Ctx (CronOp E)).
Abbreviation hooks w := (omap hook_of (w_trace w)).

Context (handler : Msg M -> code (Reply R)).
Context (stopping : code (result StoppingDecision E)).
Context (task : code (result Z E)).

Implicit Types (w : W) (t : Turn M).

(** ** A frame for the loop

    A predicate on worlds that user code, framework steps and hooks preserve holds after
    any number of turns; both invariants below are instances. *)

Record loop_invariant (P : W -> Prop) : Prop := {
  li_mail w q : P w -> P (set_mail q w);
  li_base w b : P w -> doorplate b = doorplate (cron_base (w_ctx w)) ->
    supervisor b = supervisor (cron_base (w_ctx w)) -> P (set_base_w b w);
  li_state s w : P w -> P (cron_set_state_w s w);
  li_notify ev w : P w -> P (cron_notify_w ev w);
  li_handle e b cut w : P w -> P (Envelope_handle handler e b cut w).2;
  li_hook w : P w -> CronContext_state (w_ctx w) = Stopping ->
    P (exec_hook StoppingHook stopping w).2;
  li_task w : P w -> P (CronContext_run_task task w).2;
}.

Context (P : W -> Prop) (LI : loop_invariant P).

Lemma li_take_error w : P w -> P (cron_take_error_w w).2.
Proof.
  intros Hw. unfold cron_take_error_w, CronContext_take_error, Context_take_error.
  destruct (error (cron_base (w_ctx w))); by apply LI.
Qed.

Lemma li_handle_envelope t e w : P w -> P (cron_handle_envelope handler t e w).2.
Proof.
  intros Hw. unfold cron_handle_envelope.
  assert (Hs : P (cron_snapshot_w w)) by by apply LI.
  pose proof (li_handle P LI e (t_tx_closed t) (t_cut t) _ Hs) as Hh.
  destruct (Envelope_handle handler e _ _ _) as [r w1]. simpl in Hh.
  assert (Ha : P (cron_apply_drain_w (cron_deliver_w (t_during t) w1))).
  { unfold cron_apply_drain_w. destruct (dp_apply _ _) as [d q].
    apply LI, LI; [by apply LI|done..]. }
  by destruct r.
Qed.

Lemma li_process t e w : P w -> P (process_envelope handler t e w).2.
Proof.
  intros Hw. unfold process_envelope. pose proof (li_handle_envelope t e w Hw) as Hh.
  destruct (cron_handle_envelope handler t e w) as [r w1]. simpl in Hh.
  pose proof (li_take_error w1 Hh) as He.
  destruct r; simpl; try done; by destruct (cron_take_error_w w1).
Qed.

Lemma li_receive b t w : P w -> P (CronContext_receive handler b t w).2.
Proof.
  intros Hw. unfold CronContext_receive.
  assert (Hd : P (cron_deliver_w (t_arrive t) w)) by by apply LI.
  assert (Hstop : forall q, P (cron_take_error_w (cron_set_state_w Stopped
                                  (set_mail q (cron_deliver_w (t_arrive t) w)))).2).
  { intros q. by apply li_take_error, LI, LI. }
  assert (Hidle : forall q, P (cron_take_error_w (set_mail q (cron_deliver_w (t_arrive t) w))).2).
  { intros q. by apply li_take_error, LI. }
  assert (Hpair : forall x : result unit E * W,
    P x.2 -> P (let (r, w) := x in (CronHandled r, w)).2) by by intros [].
  destruct b.
  - destruct (Mailbox_recv _) as [[|[e|err]] q]; [by apply LI|by apply li_process, LI|].
    specialize (Hstop q). by destruct (cron_take_error_w _).
  - destruct (Mailbox_try_recv _) as [[e|err] q]; [by apply li_process, LI|].
    destruct err; apply Hpair; [apply Hstop|apply Hidle..].
Qed.

Lemma li_after t r w : P w -> P (cron_after stopping t r w).2.
Proof.
  intros Hw. unfold cron_after. set (w1 := if negb _ && _ then _ else w).
  assert (Hw1 : P w1) by (unfold w1; case_match; [by apply LI|done]).
  destruct (CronContext_state (w_ctx w1)) eqn:Hst; try done.
  pose proof (li_hook P LI w1 Hw1 Hst) as Hh.
  destruct (exec_hook StoppingHook stopping w1) as [d w2]. simpl in Hh.
  assert (Hd : P (cron_deliver_w (t_stopping t) w2)) by by apply LI.
  destruct d as [[[]|e]|info|]; simpl; try done. apply LI. destruct r; [done|by apply LI].
Qed.

Lemma li_finish t x : P x.2 -> P (cron_finish_receive stopping t x).2.
Proof.
  destruct x as [[|r|info] w]; simpl; try done. intros Hw.
  pose proof (li_after t r w Hw). by destruct (cron_after stopping t r w).
Qed.

Lemma li_turn b t w : P w -> P (CronContext_turn handler stopping task b t w).2.
Proof.
  intros Hw. unfold CronContext_turn. destruct b; [by apply li_finish, li_receive|].
  pose proof (li_task P LI w Hw) as Ht.
  destruct (CronContext_run_task task w) as [[b|e|info] w1]; simpl in *.
  - by apply li_finish, li_receive.
  - pose proof (li_after t (Err e) w1 Ht). by destruct (cron_after stopping t (Err e) w1).
  - done.
Qed.

Lemma li_loop b sched w : P w -> P (cron_loop handler stopping task b sched w).2.
Proof.
  revert b w. induction sched as [|t sched IH]; intros b w Hw; simpl; case_match; try done.
  pose proof (li_turn b t w Hw) as Ht.
  destruct (CronContext_turn handler stopping task b t w) as [[b' []] w1]; simpl in *; auto.
Qed.
End CronFacts.

#[local] Set Default Proof Using "Type".

(** ** The life cycle invariant *)

Section CronGood.
Context {A E M R D : Type} {chan : Type -> Type} `{HT : TokioMpsc chan} `{HD : DrainPolicy D}.

Abbreviation Ctx := (CronContext E D).
Abbreviation W := (world A Ctx E M R chan).
Abbreviation code := (ucode A Ctx (CronOp E)).
Abbreviation hooks w := (omap hook_of (w_trace w)).

Context (handler : Msg M -> code (Reply R)).
Context (stopping : code (result StoppingDecision E)).
Context (task : code (result Z E)).

Implicit Types (w : W).

Lemma good_loop_invariant i : loop_invariant handler stopping task (fun w : W => good i w).
Proof.
  split.
  - intros. by apply good_set_mail.
  - intros. by apply good_set_ctx.
  - intros s w. apply (good_set_state i w s).
  - intros ev w. apply (good_notify i w ev).
  - intros. by apply good_handle.
  - intros w Hg Hs. by apply good_hook.
  - intros w Hg. unfold CronContext_run_task. destruct (cron_state (w_ctx w)); [|done].
    pose proof (good_exec i task None _ (good_emit1 i w EvTask Hg I)) as Hx.
    destruct (exec task None _) as [[[d|e]|info|] w1]; simpl in *; try done.
    destruct (d =? 0)%Z; [done|]. by apply good_emit1; [apply good_set_ctx|].
Qed.

(** The hooks entered by the loop are [stopping] hooks. *)
Definition stopping_only (h0 : list Hook) w : Prop :=
  exists n, hooks w = h0 ++ replicate n StoppingHook.

Lemma stopping_only_same h0 w w' : hooks w' = hooks w -> stopping_only h0 w -> stopping_only h0 w'.
Proof. intros Hh [n Hn]. exists n. by rewrite Hh. Qed.

Lemma stopping_loop_invariant h0 : loop_invariant handler stopping task (stopping_only h0).
Proof.
  split.
  - done.
  - done.
  - intros s w. apply stopping_only_same, (on_ctx_set_state_hooks s w).
  - intros ev w. apply stopping_only_same, (on_ctx_notify_hooks ev w).
  - intros e b cut w. apply stopping_only_same, handle_hooks.
  - intros w [n Hn] _. exists (n + 1).
    by rewrite exec_hook_hooks, Hn, replicate_add, <- app_assoc.
  - intros w. apply stopping_only_same. unfold CronContext_run_task.
    destruct (cron_state (w_ctx w)); [|done].
    pose proof (exec_hooks task None (emit [EvTask] w)) as Hx.
    assert (He : hooks (emit [EvTask] w) = hooks w)
      by (rewrite emit_trace, omap_app; apply app_nil_r).
    rewrite He in Hx. destruct (exec task None _) as [[[d|e]|info|] w1]; simpl in Hx |- *; try done.
    destruct (d =? 0)%Z; [done|]. simpl. rewrite omap_app. simpl. by rewrite app_nil_r.
Qed.

#[export] Instance CronContext_LoopLaws : LoopLaws (CronContext_run_loop handler stopping task).
Proof.
  split.
  - intros i sched w. apply (li_loop handler stopping task _ (good_loop_invariant i)).
  - intros sched w. apply (li_loop handler stopping task _ (stopping_loop_invariant (hooks w))).
    exists 0. by rewrite app_nil_r.
Qed.
End CronGood.

(** ** Timers *)

(** Scans a trace: the timer that is armed at its end, if any, and whether so far no task
    ran and no timer was spawned while one was armed. *)
Definition scan_step {E M R} (a : option nat * bool) (ev : Event E M R) : option nat * bool :=
  match ev with
  | EvTimerSpawn id _ => (Some id, a.2 && negb (is_some a.1))
  | EvTimerAbort _ => (None, a.2)
  | EvTask => (a.1, a.2 && negb (is_some a.1))
  | _ => a
  end.

Definition scan {E M R} (tr : list (Event E M R)) : option nat * bool :=
  fold_left scan_step tr (None, true).

Definition armed {E M R} (tr : list (Event E M R)) : option nat := (scan tr).1.

Section Scan.
Context {E M R : Type}.
Implicit Types (tr : list (Event E M R)).

Lemma scan_snoc tr ev : scan (tr ++ [ev]) = scan_step (scan tr) ev.
Proof. unfold scan. by rewrite fold_left_app. Qed.

Lemma scan_app tr tr' : scan (tr ++ tr') = fold_left scan_step tr' (scan tr).
Proof. unfold scan. by rewrite fold_left_app. Qed.

Lemma scan_ok_prefix tr tr' : (scan (tr ++ tr')).2 = true -> (scan tr).2 = true.
Proof.
  revert tr. induction tr' as [|ev tr' IH]; intros tr; [by rewrite app_nil_r|].
  rewrite (cons_middle ev tr tr'), app_assoc. intros Hs%IH. rewrite scan_snoc in Hs.
  destruct ev, (scan tr) as [[?|] []]; simpl in Hs; done.
Qed.

(** A scan without complaint: wherever a task runs or a timer is spawned, none is armed. *)
Lemma scan_ok tr tr1 ev tr2 :
  (scan tr).2 = true -> tr = tr1 ++ ev :: tr2 ->
  ev = EvTask \/ (exists id d, ev = EvTimerSpawn id d) -> armed tr1 = None.
Proof.
  intros Hs -> Hev. rewrite (cons_middle ev tr1 tr2), app_assoc in Hs.
  apply scan_ok_prefix in Hs. rewrite scan_snoc in Hs. unfold armed.
  destruct Hev as [->|(id & d & ->)]; destruct (scan tr1) as [[?|] []]; by simpl in *.
Qed.

(** Events that do not concern timers. *)
Definition untimed (ev : Event E M R) : Prop :=
  match ev with EvTimerSpawn _ _ | EvTimerAbort _ | EvTask => False | _ => True end.

Lemma scan_untimed tr tr' : Forall untimed tr' -> scan (tr ++ tr') = scan tr.
Proof.
  rewrite scan_app. intros F. generalize (scan tr) as a.
  induction F as [|ev tr' Hev _ IH]; intros a; [done|]. simpl. rewrite IH. by destruct ev.
Qed.

Lemma try_notify_untimed o (ev : SupervisionEvent E) :
  Forall untimed (try_notify_supervisor o ev).
Proof. destruct o; simpl; [by repeat constructor|]. destruct ev as [|? []| |]; by repeat constructor. Qed.
Lemma timed_base_call {D} `{DrainPolicy D} (o : ContextOp E) (c : Context E D) :
  Forall untimed (Context_call (M := M) (R := R) o c).2.
Proof. destruct o; simpl; try (by constructor); apply try_notify_untimed. Qed.
End Scan.

Section Timed.
Context {A E M R D : Type} {chan : Type -> Type} `{HT : TokioMpsc chan} `{HD : DrainPolicy D}.

Abbreviation Ctx := (CronContext E D).
Abbreviation W := (world A Ctx E M R chan).
Abbreviation code := (ucode A Ctx (CronOp E)).

Context (handler : Msg M -> code (Reply R)).
Context (stopping : code (result StoppingDecision E)).
Context (task : code (result Z E)).

Implicit Types (w : W).

(** The context's join handle is the timer armed in the trace, which then pauses the task;
    no task ran and no timer was spawned while one was armed. *)
Record timed w : Prop := {
  timed_scan : scan (w_trace w) = (cron_join_handle (w_ctx w), true);
  timed_paused : cron_join_handle (w_ctx w) ≠ None -> cron_state (w_ctx w) = CronPaused;
}.

Lemma timed_untimed w w' evs :
  timed w -> w_trace w' = w_trace w ++ evs -> Forall untimed evs ->
  cron_join_handle (w_ctx w') = cron_join_handle (w_ctx w) ->
  cron_state (w_ctx w') = cron_state (w_ctx w) -> timed w'.
Proof.
  intros [Hs Hp] Ht F Hj Hc. split.
  - by rewrite Ht, scan_untimed, Hj.
  - rewrite Hj, Hc. done.
Qed.

Lemma timed_same w w' :
  timed w -> w_trace w' = w_trace w -> w_ctx w' = w_ctx w -> timed w'.
Proof. intros [Hs Hp] Ht Hc. split; by rewrite ?Ht, ?Hc. Qed.

Lemma timed_emit1 w ev : timed w -> untimed ev -> timed (emit [ev] w).
Proof. intros Hw Hev. apply (timed_untimed w _ [ev]); try done. by repeat constructor. Qed.

Lemma timed_call o w : timed w -> timed (on_ctx (ctx_call o) w).
Proof.
  intros Hw. destruct o as [o| |].
  - eapply (timed_untimed w); [done|apply on_ctx_trace|..]; rewrite ?on_ctx_ctx; simpl; unfold on_base;
      pose proof (timed_base_call (M := M) (R := R) o (cron_base (w_ctx w))) as Hb;
      destruct (Context_call o (cron_base (w_ctx w))); done.
  - destruct Hw as [Hs Hp].
    split; rewrite ?on_ctx_ctx, ?on_ctx_trace; simpl; [|done]. unfold abort_timer.
    destruct (cron_join_handle (w_ctx w)); [by rewrite scan_snoc, Hs|by rewrite app_nil_r].
  - destruct Hw as [Hs Hp].
    split; rewrite ?on_ctx_ctx, ?on_ctx_trace; simpl; [|done]. unfold abort_timer.
    destruct (cron_join_handle (w_ctx w)); [by rewrite scan_snoc, Hs|by rewrite app_nil_r].
Qed.

Lemma timed_exec {X} (u : code X) cut w : timed w -> timed (exec u cut w).2.
Proof.
  revert cut w. induction u as [x|info|k IHu|k IHu|a k IHu|k IHu|o k IHu]; intros cut w Hw;
    simpl; try done; try (by apply IHu).
  - destruct cut as [[|n]|]; [done|by apply IHu..].
  - apply IHu. by apply (timed_same w).
  - by apply IHu, timed_call.
Qed.

Lemma timed_handle e b cut w : timed w -> timed (Envelope_handle handler e b cut w).2.
Proof.
  intros Hw. unfold Envelope_handle.
  destruct e as [[m|] tx|[m|] tx budget]; simpl; [|done| |done];
    (destruct (skip_message tx b); simpl; [by apply timed_emit1|]);
    match goal with |- context [exec ?u ?c ?w'] =>
      pose proof (timed_exec u c w' (timed_emit1 w (EvHandle m) Hw I)) as Hx;
      destruct (exec u c w') as [[] w1] end;
    simpl in *; unfold respond; try destruct tx; try apply timed_emit1; done.
Qed.

(** User code never spawns a timer. *)
Lemma exec_no_timer {X} (u : code X) cut w :
  cron_join_handle (w_ctx w) = None -> cron_join_handle (w_ctx (exec u cut w).2) = None.
Proof.
  apply (exec_ctx (fun c => cron_join_handle c = None)). intros [o| |] c Hc; simpl; [|done..].
  unfold on_base. by destruct (Context_call o (cron_base c)).
Qed.

Lemma timed_task w : timed w -> timed (CronContext_run_task task w).2.
Proof.
  intros Hw. unfold CronContext_run_task. destruct (cron_state (w_ctx w)) eqn:Hst; [|done].
  assert (Hnone : cron_join_handle (w_ctx w) = None).
  { destruct (cron_join_handle (w_ctx w)) eqn:Hj; [|done].
    rewrite (timed_paused w Hw) in Hst by by rewrite Hj. done. }
  assert (Ht : timed (emit [EvTask] w)).
  { split; rewrite ?emit_trace; simpl; [|by rewrite Hnone].
    by rewrite scan_snoc, (timed_scan w Hw), Hnone. }
  pose proof (timed_exec task None _ Ht) as Hx.
  pose proof (exec_no_timer task None (emit [EvTask] w) Hnone) as Hn.
  destruct (exec task None _) as [[[d|e]|info|] w1]; simpl in Hx, Hn |- *; try done.
  destruct (d =? 0)%Z; [done|]. split; [|done].
  simpl. by rewrite scan_snoc, (timed_scan w1 Hx), Hn.
Qed.

Lemma timed_loop_invariant : loop_invariant handler stopping task timed.
Proof.
  split.
  - intros w q Hw. by apply (timed_same w).
  - intros w b Hw _ _. apply (timed_untimed w _ []); try done. by rewrite app_nil_r.
  - intros s w Hw. eapply (timed_untimed w); [done|apply on_ctx_trace|..]; try done.
    apply try_notify_untimed.
  - intros ev w Hw. eapply (timed_untimed w); [done|apply on_ctx_trace|..]; try done.
    apply try_notify_untimed.
  - intros. by apply timed_handle.
  - intros w Hw _. unfold exec_hook. apply timed_exec. by apply timed_emit1.
  - intros. by apply timed_task.
Qed.

(** C34. The repetitive task of a cron actor is never run while its timer is pending, and
    at most one timer is pending at a time: wherever the trace runs the task or spawns a
    timer, every earlier timer has been aborted; and a pending timer means the task is
    paused. *)
Theorem task_never_overlaps_timer sched w (Hw : timed w) :
  let w' := (CronContext_run_loop handler stopping task sched w).2 in
  (forall tr1 ev tr2, w_trace w' = tr1 ++ ev :: tr2 ->
    ev = EvTask \/ (exists id d, ev = EvTimerSpawn id d) -> armed tr1 = None) /\
  cron_join_handle (w_ctx w') = armed (w_trace w') /\
  (armed (w_trace w') ≠ None -> cron_state (w_ctx w') = CronPaused).
Proof.
  pose proof (li_loop handler stopping task timed timed_loop_invariant false sched w Hw)
    as [Hs Hp].
  unfold CronContext_run_loop. unfold armed. rewrite Hs. split_and!; [|done|exact Hp].
  intros tr1 ev tr2 Htr Hev. by apply (scan_ok _ tr1 ev tr2 (f_equal snd Hs) Htr).
Qed.

(** Cron actors obey the same life cycle: every hook of a started cron actor runs in
    the state its documentation names. *)
Lemma cron_hooks_in_documented_states (hooks : Hooks A Ctx (CronOp E) E) lbl index a sched h s :
  let '(c, mail, _) := CronContext_new lbl index in
  EvHook h s ∈ w_trace (Actor_start hooks (CronContext_run_loop handler (Lifecycle.stopping hooks) task)
                                    a c mail sched : spawn_out E * W).2 ->
  s = documented_state h.
Proof.
  simpl. intros Hin.
  assert (Hg : good (ActorId_new index)
    (Actor_start hooks (CronContext_run_loop handler (Lifecycle.stopping hooks) task) a
      (mkCronContext (mkContext lbl Unstarted (ActorId_new index) true dp_default None None)
         CronNormal None) (mpsc_channel DEFAULT_MAILBOX_CAPACITY) sched : spawn_out E * W).2).
  { apply spawn_good; [apply _..|by split|done]. }
  destruct Hg as [_ _ Ht]. rewrite Forall_forall in Ht. apply (Ht _ Hin).
Qed.
End Timed.

(** ** A concrete cron actor: a task that asks to be run every 5 units of time *)

Section Sample.
Abbreviation Ctx := (CronContext string unit).
Abbreviation code := (ucode nat Ctx (CronOp string)).

Definition cron_task : code (result Z string) := UGet (fun n => UPut (S n) (URet (Ok 5%Z))).

Definition cron_handler : Msg (CronMsg nat) -> code (Reply nat) :=
  cron_dispatch (fun n => URet (ReplyUser n)).

Definition cron_stopping : code (result StoppingDecision string) := URet (Ok Stop).

(** A turn in which a [Resume] (the timer's) is waiting in the mailbox. *)
Definition resume_turn : Turn (CronMsg nat) :=
  mkTurn [pack (MsgUser (CronSig CronResume)) None] false None [] [].

Definition cron_world : world nat Ctx string (CronMsg nat) nat chan_view :=
  mkWorld 0 (mkCronContext (mkContext "cron" Running (ActorId_new 3) false tt None None)
               CronNormal None) (ChanView [] 8 0 1 false) [].

Definition cron_sched : list (Turn (CronMsg nat)) := [resume_turn; resume_turn].

Lemma task_never_overlaps_timer_witness :
  let w' := (CronContext_run_loop cron_handler cron_stopping cron_task cron_sched cron_world).2 in
  w_trace w' = [EvTask; EvTimerSpawn 1 5; EvHandle (MsgUser (CronSig CronResume)); EvTimerAbort 1;
                EvTask; EvTimerSpawn 5 5; EvHandle (MsgUser (CronSig CronResume)); EvTimerAbort 5] /\
  (forall tr1 ev tr2, w_trace w' = tr1 ++ ev :: tr2 ->
    ev = EvTask \/ (exists id d, ev = EvTimerSpawn id d) -> armed tr1 = None).
Proof.
  pose proof (task_never_overlaps_timer cron_handler cron_stopping cron_task cron_sched
    cron_world) as Ht.
  assert (Hw : timed cron_world) by by split.
  split; [vm_compute; reflexivity|]. exact (proj1 (Ht Hw)).
Defined.

Definition cron_hooks : Hooks nat Ctx (CronOp string) string :=
  mkHooks (URet (Ok tt)) (URet (Ok tt)) cron_stopping (URet (Ok tt)).

Lemma cron_hooks_in_documented_states_witness :
  EvHook PostStart Starting ∈ w_trace (Actor_start cron_hooks
    (CronContext_run_loop (chan := chan_view) cron_handler (stopping cron_hooks) cron_task) 0
    (CronContext_new (E := string) (M := CronMsg nat) (chan := chan_view) "cron" 3).1.1
    (CronContext_new (E := string) (M := CronMsg nat) (D := unit) "cron" 3).1.2 cron_sched).2 /\
  Starting = documented_state PostStart.
Proof.
  assert (Hin : EvHook PostStart Starting ∈ w_trace (Actor_start cron_hooks
    (CronContext_run_loop (chan := chan_view) cron_handler (stopping cron_hooks) cron_task) 0
    (CronContext_new (E := string) (M := CronMsg nat) (chan := chan_view) "cron" 3).1.1
    (CronContext_new (E := string) (M := CronMsg nat) (D := unit) "cron" 3).1.2 cron_sched).2).
  { vm_compute. repeat constructor. }
  split; [exact Hin|].
  exact (cron_hooks_in_documented_states cron_handler cron_task cron_hooks "cron" 3 0 cron_sched
    PostStart Starting Hin).
Defined.

(** ** A pause that does not last *)

Definition is_resume (e : Envelope (CronMsg nat)) : bool :=
  match e with DefaultEnvelopeProxy (Some (MsgUser (CronSig CronResume))) _ => true | _ => false end.

(** Every [Resume] of the schedule is sent by a timer: it arrives while a timer that was
    not aborted is pending, and no timer sends two. *)
Fixpoint resumes_by_timers (fired : list nat) (waiting : bool) (sched : list (Turn (CronMsg nat)))
    (w : world nat Ctx string (CronMsg nat) nat chan_view) : bool :=
  match sched with
  | [] => true
  | t :: sched =>
      let resumes := length (List.filter is_resume (t_arrive t)) in
      let elsewhere := existsb is_resume (t_during t ++ t_stopping t) in
      let timer := cron_join_handle (w_ctx w) in
      let own := match timer with
                 | Some id => waiting && bool_decide (resumes = 1 /\ id ∉ fired)
                 | None => false
                 end in
      let '(waiting', o, w') := CronContext_turn cron_handler cron_stopping cron_task waiting t w in
      negb elsewhere && (bool_decide (resumes = 0) || own) &&
      match o with
      | TurnNext =>
          resumes_by_timers (if bool_decide (resumes = 0) then fired else option_list timer ++ fired)
            waiting' sched w'
      | _ => true
      end
  end.

Definition quiet_turn (arrive : list (Envelope (CronMsg nat))) : Turn (CronMsg nat) :=
  mkTurn arrive false None [] [].

(** The timer fires after [Pause] was queued and before it is handled. *)
Definition pause_sched : list (Turn (CronMsg nat)) :=
  [quiet_turn [];
   quiet_turn [pack (MsgUser (CronSig CronPause)) None; pack (MsgUser (CronSig CronResume)) None];
   quiet_turn []; quiet_turn []].

(** [pause_task] aborts the timer, but not the [Resume] the timer has queued already: the
    task of an actor that was told to pause runs again although nobody told it to resume. *)
Lemma pause_undone_by_stale_resume :
  resumes_by_timers [] false pause_sched cron_world = true /\
  w_trace (CronContext_run_loop cron_handler cron_stopping cron_task pause_sched cron_world).2 =
    [EvTask; EvTimerSpawn 1 5; EvHandle (MsgUser (CronSig CronPause)); EvTimerAbort 1;
     EvHandle (MsgUser (CronSig CronResume)); EvTask; EvTimerSpawn 6 5].
Proof. split; vm_compute; reflexivity. Qed.
End Sample.
