(* ===== verification/Observer.v ===== *)
(** * Observers

    Models acktor/src/observer.rs: the set of observers of a subject (recipients, hashed
    and compared by index), registration and notification, with the macros
    [notify_observers!] and [try_notify_observers!] expanded. How the observers' mailboxes
    answer is left open: [do_send], [try_do_send] and [is_closed] are arguments. *)

From S2P Require Import Prelude Tokio ActorTypes UserCode.

#[global] Instance Recipient_countable : Countable Recipient.
Proof. refine (inj_countable' rcp_index mkRecipient _). by intros []. Defined.

Definition ObserverSet : Type := gset Recipient.

Definition ObserverSet_new : ObserverSet := ∅.

Definition register_observer (observer : Recipient) (s : ObserverSet) : ObserverSet :=
  {[observer]} ∪ s.

Definition unregister_observer (observer : Recipient) (s : ObserverSet) : ObserverSet :=
  s ∖ {[observer]}.

Section Notify.
Context {Event BoxError : Type}.

(** [observers.retain(|o| !o.is_closed())]. *)
Definition retain_open (is_closed : Recipient -> bool) (s : ObserverSet) : ObserverSet :=
  filter (fun o => is_closed o = false) s.

(** [notify_observers!]: sends a clone to every observer in the order of the set's
    iterator, waiting for room; any failure triggers the clean-up. The events sent are
    returned with the new set. *)
Definition notify_observers (do_send : Recipient -> result unit (SendError BoxError Event))
    (is_closed : Recipient -> bool) (order : list Recipient) (event : Event) (s : ObserverSet)
    : list (Recipient * Event) * ObserverSet :=
  let '(sent, should_clean) :=
    fold_left (fun '(sent, should_clean) observer =>
      (sent ++ [(observer, event)], should_clean || negb (is_ok (do_send observer))))
      order ([], false) in
  (sent, if should_clean : bool then retain_open is_closed s else s).

Definition is_closed_error (r : result unit (SendError BoxError Event)) : bool :=
  match r with Err (SendClosed _) => true | _ => false end.

(** [try_notify_observers!]: does not wait, and cleans up only for a closed observer. *)
Definition try_notify_observers (try_do_send : Recipient -> result unit (SendError BoxError Event))
    (is_closed : Recipient -> bool) (order : list Recipient) (event : Event) (s : ObserverSet)
    : list (Recipient * Event) * ObserverSet :=
  let '(sent, should_clean) :=
    fold_left (fun '(sent, should_clean) observer =>
      (sent ++ [(observer, event)], should_clean || is_closed_error (try_do_send observer)))
      order ([], false) in
  (sent, if should_clean : bool then retain_open is_closed s else s).

(** [Observer<M>] and its handler. *)
Inductive Observer : Type :=
| ObserverRegister (r : Recipient)
| ObserverUnregister (r : Recipient).

Definition Observer_handle (self : ActorId) (msg : Observer) (s : ObserverSet) : ObserverSet :=
  match msg with
  | ObserverRegister r =>
      if bool_decide (rcp_index r = self) then s else register_observer r s
  | ObserverUnregister r => unregister_observer r s
  end.

(** What happens to the set of a subject that registers observers by message only. *)
Inductive observer_step (self : ActorId) : ObserverSet -> ObserverSet -> Prop :=
| ostep_handle msg s : observer_step self s (Observer_handle self msg s)
| ostep_notify do_send is_closed order event s :
    order ≡ₚ elements s ->
    observer_step self s (notify_observers do_send is_closed order event s).2
| ostep_try_notify try_do_send is_closed order event s :
    order ≡ₚ elements s ->
    observer_step self s (try_notify_observers try_do_send is_closed order event s).2.
End Notify.

(** ** Theorems *)

Section Theorems.
Context {Event BoxError : Type}.
Implicit Types (s : ObserverSet) (event : Event).

(** Both loops are one fold: the events sent, and whether some answer was bad. *)
Lemma notify_fold {X} (bad : Recipient -> bool) (event : X) order sent clean :
  fold_left (fun '(sent, should_clean) observer =>
    (sent ++ [(observer, event)], should_clean || bad observer)) order (sent, clean) =
  (sent ++ ((fun o => (o, event)) <$> order), clean || existsb bad order).
Proof.
  revert sent clean. induction order as [|o order IH]; intros sent clean; simpl.
  - by rewrite app_nil_r, orb_false_r.
  - by rewrite IH, <- app_assoc, orb_assoc.
Qed.

Lemma elem_of_retain is_closed s o : o ∈ retain_open is_closed s <-> is_closed o = false /\ o ∈ s.
Proof. unfold retain_open. by rewrite elem_of_filter. Qed.

Lemma exists_order (bad : Recipient -> bool) order s :
  order ≡ₚ elements s -> existsb bad order = true <-> exists o, o ∈ s /\ bad o = true.
Proof.
  intros Ho. rewrite existsb_exists. split; intros (o & Hin & Hb); exists o; (split; [|done]).
  - apply list_elem_of_In in Hin. rewrite Ho in Hin. by apply elem_of_elements.
  - apply list_elem_of_In. rewrite Ho. by apply elem_of_elements.
Qed.

(** C35. A notification reaches every observer exactly once, and afterwards the observers
    are exactly those of before, less the closed ones if some observer failed: in the
    blocking version if any send failed, in the non-blocking one only if a send found its
    observer closed. An observer that is open is never dropped, a full one neither. *)
Theorem notify_observers_correct send is_closed order event s (Ho : order ≡ₚ elements s) :
  let '(sent, s') := notify_observers (BoxError := BoxError) send is_closed order event s in
  let '(try_sent, s'') := try_notify_observers (BoxError := BoxError) send is_closed order event s in
  sent.*1 ≡ₚ elements s /\ try_sent = sent /\
  (forall o, o ∈ s' <-> o ∈ s /\ ((exists b, b ∈ s /\ is_ok (send b) = false) -> is_closed o = false)) /\
  (forall o, o ∈ s'' <-> o ∈ s /\ ((exists b, b ∈ s /\ is_closed_error (send b) = true) ->
                                   is_closed o = false)).
Proof.
  unfold notify_observers, try_notify_observers.
  rewrite (notify_fold (fun o => negb (is_ok (send o)))).
  rewrite (notify_fold (fun o => is_closed_error (send o))). simpl.
  assert (Hfail : existsb (fun o => negb (is_ok (send o))) order = true <->
                  exists b, b ∈ s /\ is_ok (send b) = false).
  { rewrite (exists_order _ _ s Ho). by setoid_rewrite negb_true_iff. }
  pose proof (exists_order (fun o => is_closed_error (send o)) order s Ho) as Hclosed.
  split_and!.
  - rewrite <- list_fmap_compose, <- Ho. simpl. by rewrite list_fmap_id.
  - done.
  - intros o. rewrite <- Hfail.
    destruct (existsb (fun o => negb (is_ok (send o))) order); [rewrite elem_of_retain|]; naive_solver.
  - intros o. rewrite <- Hclosed.
    destruct (existsb (fun o => is_closed_error (send o)) order); [rewrite elem_of_retain|];
      naive_solver.
Qed.

(** A subject whose observers register by message never observes itself: whatever
    messages it handles and events it publishes, its own index is not in the set. *)
Lemma never_own_observer self s s'
    (Hsteps : rtc (observer_step (Event := Event) (BoxError := BoxError) self) s s')
    (Hs : mkRecipient self ∉ s) : mkRecipient self ∉ s'.
Proof.
  induction Hsteps as [|s1 s2 s3 Hstep _ IH]; [done|]. apply IH. destruct Hstep as [msg s| |].
  - destruct msg as [r|r]; simpl; [|unfold unregister_observer; set_solver].
    case_bool_decide as Hr; [done|]. unfold register_observer.
    rewrite elem_of_union, elem_of_singleton. intros [<-|?]; [by apply Hr|done].
  - unfold notify_observers.
    rewrite (notify_fold (fun o => negb (is_ok (do_send o)))). simpl.
    case_match; [rewrite elem_of_retain|]; tauto.
  - unfold try_notify_observers.
    rewrite (notify_fold (fun o => is_closed_error (try_do_send o))). simpl.
    case_match; [rewrite elem_of_retain|]; tauto.
Qed.
End Theorems.

Section Witnesses.
Definition obs (n : Z) : Recipient := mkRecipient (ActorId_new n).

Definition three : ObserverSet := {[obs 1; obs 2; obs 3]}.

(** Observer 2 is closed. *)
Definition sample_send (o : Recipient) : result unit (SendError string nat) :=
  if bool_decide (o = obs 2) then Err (SendClosed 7) else Ok tt.

Definition sample_closed (o : Recipient) : bool := bool_decide (o = obs 2).

Lemma notify_observers_correct_witness :
  let '(sent, s') := notify_observers sample_send sample_closed (elements three) 7 three in
  sent.*1 ≡ₚ elements three /\ obs 2 ∉ s' /\ obs 1 ∈ s'.
Proof.
  pose proof (notify_observers_correct sample_send sample_closed (elements three) 7 three
    (Permutation_refl _)) as Hc.
  destruct (notify_observers sample_send sample_closed (elements three) 7 three) as [sent s'].
  destruct (try_notify_observers sample_send sample_closed (elements three) 7 three) as [? ?].
  destruct Hc as (Hsent & _ & Hs' & _). split_and!; [exact Hsent| |].
  - rewrite Hs'. intros [_ Hc].
    assert (Hb : exists b, b ∈ three /\ is_ok (sample_send b) = false).
    { exists (obs 2). split; [unfold three; set_solver|reflexivity]. }
    specialize (Hc Hb). discriminate.
  - apply Hs'. split; [unfold three; set_solver|reflexivity].
Defined.

Lemma never_own_observer_witness :
  obs 9 ∉ Observer_handle (ActorId_new 9) (ObserverRegister (obs 9)) three.
Proof.
  apply (never_own_observer (Event := nat) (BoxError := string) (ActorId_new 9) three).
  - apply rtc_once, ostep_handle.
  - unfold three, obs. rewrite !elem_of_union, !elem_of_singleton. intros [[?|?]|?]; discriminate.
Defined.
End Witnesses.
