(* ===== verification/Address.v ===== *)
(** * Addresses, permits and recipients in one process

    Models acktor/src/address/local.rs ([LocalAddress] and its eight ways to send, its
    reservations), address/permit.rs, the channel-backed recipient of address/recipient.rs
    ([SenderProxy]), and the response channel of channel/oneshot.rs.

    A send that waits for room is polled: [Pending] while the mailbox is full. A send
    with a timeout is told whether its timer has fired. *)

From S2P Require Import Prelude Tokio ActorTypes UserCode.

(** A poll of a [closed] future of tokio: ready once the receiver is closed or gone. *)
Definition closed_poll (is_closed : bool) : Poll unit := if is_closed then Ready tt else Pending.

(** ** Response channels (channel/oneshot.rs) *)

Section Oneshot.
Context {T BoxError : Type} {chan : Type -> Type} `{TokioOneshot chan}.

(** The payload is a value or a boxed error. *)
Abbreviation payload := (result T BoxError).
Implicit Types (c : chan payload).

(** [Sender::send]: the value comes back when the receiver is gone; [t.unwrap()] of the
    payload just sent cannot fail. *)
Definition Sender_send (t : T) c : outcome (result unit (SendError BoxError T) * chan payload) :=
  match oneshot_send c (Ok t) with
  | (Ok _, c) => Done (Ok tt, c)
  | (Err (Ok t), c) => Done (Err (SendClosed t), c)
  | (Err (Err _), _) => Panicked "called `Result::unwrap()` on an `Err` value"
  end.

Definition Sender_send_err (err : BoxError) c
    : outcome (result unit (SendError BoxError BoxError) * chan payload) :=
  match oneshot_send c (Err err) with
  | (Ok _, c) => Done (Ok tt, c)
  | (Err (Err err), c) => Done (Err (SendClosed err), c)
  | (Err (Ok _), _) => Panicked "called `Option::unwrap()` on a `None` value"
  end.

Definition Sender_is_closed c : bool := oneshot_is_closed c.

(** [closed] and [poll_closed] of the sender. *)
Definition Sender_poll_closed c : Poll unit := closed_poll (oneshot_is_closed c).

(** [oneshot::channel]. *)
Definition oneshot_pair : chan payload := oneshot_channel.

Definition OneshotReceiver_close c : chan payload := oneshot_close c.

(** [Ok(self.0.try_recv()??)]. *)
Definition OneshotReceiver_try_recv c : result T (RecvError BoxError) * chan payload :=
  let (r, c) := oneshot_try_recv c in
  (let? p := result_map_err RecvError_from_oneshot r in result_map_err RecvOther p, c).

(** [Future::poll] of the receiver. *)
Definition OneshotReceiver_poll c : Poll (result T (RecvError BoxError)) * chan payload :=
  match oneshot_poll c with
  | (Pending, c) => (Pending, c)
  | (Ready r, c) =>
      (Ready (let? p := result_map_err (fun _ : unit => RecvClosed) r in
              result_map_err RecvOther p), c)
  end.

Definition OneshotReceiver_recv_timeout (elapsed : bool) c
    : Poll (result T (RecvError BoxError)) * chan payload :=
  match OneshotReceiver_poll c with
  | (Pending, c) => (if elapsed then Ready (Err RecvTimeout) else Pending, c)
  | r => r
  end.
End Oneshot.

(** ** Local addresses *)

(** What is sent: a message, or a message with a time budget ([Timed]); the envelope proxy
    is chosen by the type. *)
Inductive Outgoing (M : Type) : Type :=
| OutPlain (m : Msg M)
| OutTimed (m : Msg M) (budget : Z).
Arguments OutPlain {M} _.
Arguments OutTimed {M} _ _.

Record LocalAddress : Type := mkLocalAddress { la_index : Z }.

(** The mailbox an address leads to, and the name of the next response channel. *)
Record SendState (chan : Type -> Type) (T : Type) : Type := mkSendState {
  ss_chan : chan T;
  ss_next : nat;
}.
Arguments mkSendState {chan T} _ _.
Arguments ss_chan {chan T} _.
Arguments ss_next {chan T} _.

(** The future a sending method returns: the envelope to queue, the response channel the
    caller gets on success, and whether the message is a [Timed] one. *)
Record SendFuture (M : Type) : Type := mkSendFuture {
  sf_envelope : Envelope M;
  sf_rx : option nat;
  sf_timed : bool;
}.
Arguments mkSendFuture {M} _ _ _.
Arguments sf_envelope {M} _.
Arguments sf_rx {M} _.
Arguments sf_timed {M} _.

Section Local.
Context {M BoxError : Type} {chan : Type -> Type} `{TokioMpsc chan}.

Abbreviation Out := (Outgoing M).
Abbreviation SState := (SendState chan (Envelope M)).
Abbreviation SErr := (SendError BoxError Out).
Implicit Types (msg : Out) (s : SState) (f : SendFuture M).

Definition pack_out msg (tx : option nat) : Envelope M :=
  match msg with
  | OutPlain m => pack m tx
  | OutTimed m budget => pack_timed m budget tx
  end.

Definition is_timed msg : bool := match msg with OutPlain _ => false | OutTimed _ _ => true end.

(** [M::unpack], at the type of the message that was sent. *)
Definition unpack_out (timed : bool) (e : Envelope M) : outcome Out :=
  if timed then let! (m, budget) := unpack_timed e in Done (OutTimed m budget)
  else let! m := unpack e in Done (OutPlain m).

Definition LocalAddress_new (next_index : Z) : LocalAddress * Z :=
  (mkLocalAddress next_index, wrap_u 64 (next_index + 1)).

Definition LocalAddress_index (a : LocalAddress) : ActorId := ActorId_new (la_index a).

Definition LocalAddress_is_closed s : bool := mpsc_is_closed (ss_chan s).

Definition LocalAddress_closed s : Poll unit := closed_poll (mpsc_is_closed (ss_chan s)).

Definition LocalAddress_capacity s : nat := mpsc_capacity (ss_chan s).

(** [let (tx, rx) = oneshot::channel()]: the next name. *)
Definition oneshot_new s : nat * SState := (ss_next s, mkSendState (ss_chan s) (S (ss_next s))).

(** The futures: the message is packed when the method is called. *)
Definition LocalAddress_send msg s : SendFuture M * SState :=
  let (tx, s) := oneshot_new s in
  (mkSendFuture (pack_out msg (Some tx)) (Some tx) (is_timed msg), s).

Definition LocalAddress_do_send msg s : SendFuture M * SState :=
  (mkSendFuture (pack_out msg None) None (is_timed msg), s).

(** One poll of [tx.send(envelope).map_ok(|_| rx).map_err(..)]. *)
Definition SendFuture_poll f s : outcome (Poll (result (option nat) SErr) * SState) :=
  match mpsc_try_send (ss_chan s) (sf_envelope f) with
  | (Ok _, c) => Done (Ready (Ok (sf_rx f)), mkSendState c (ss_next s))
  | (Err (TrySendClosed e), c) =>
      let! m := unpack_out (sf_timed f) e in
      Done (Ready (Err (SendClosed m)), mkSendState c (ss_next s))
  | (Err (TrySendFull _), c) => Done (Pending, mkSendState c (ss_next s))
  end.

(** The futures of the [_timeout] variants: [elapsed] says whether the timer has fired. *)
Definition SendTimeoutFuture_poll (elapsed : bool) f s
    : outcome (Poll (result (option nat) SErr) * SState) :=
  match mpsc_try_send (ss_chan s) (sf_envelope f) with
  | (Ok _, c) => Done (Ready (Ok (sf_rx f)), mkSendState c (ss_next s))
  | (Err (TrySendClosed e), c) =>
      let! m := unpack_out (sf_timed f) e in
      Done (Ready (Err (SendClosed m)), mkSendState c (ss_next s))
  | (Err (TrySendFull e), c) =>
      if elapsed then
        let! m := unpack_out (sf_timed f) e in
        Done (Ready (Err (SendTimeout m)), mkSendState c (ss_next s))
      else Done (Pending, mkSendState c (ss_next s))
  end.

Definition LocalAddress_send_timeout := LocalAddress_send.
Definition LocalAddress_do_send_timeout := LocalAddress_do_send.

(** Awaiting a send: the future is polled until it is ready, and
    between two polls other tasks change the channel. [None] when it still waits. *)
Fixpoint SendFuture_await f (others : list (chan (Envelope M) -> chan (Envelope M))) s
    : outcome (option (result (option nat) SErr) * SState) :=
  let! (p, s) := SendFuture_poll f s in
  match p, others with
  | Ready r, _ => Done (Some r, s)
  | Pending, [] => Done (None, s)
  | Pending, g :: others => SendFuture_await f others (mkSendState (g (ss_chan s)) (ss_next s))
  end.

(** The blocking variants wait in the same way, but not inside the runtime. *)
Definition LocalAddress_blocking_send `{CallContext} msg others s :=
  let (f, s) := LocalAddress_send msg s in block_on (SendFuture_await f others s).

Definition LocalAddress_blocking_do_send `{CallContext} msg others s :=
  let (f, s) := LocalAddress_do_send msg s in block_on (SendFuture_await f others s).

(** [self.tx.try_send(..).map(|_| rx).map_err(..)]. *)
Definition LocalAddress_try_send msg s : outcome (result (option nat) SErr * SState) :=
  let (tx, s) := oneshot_new s in
  match mpsc_try_send (ss_chan s) (pack_out msg (Some tx)) with
  | (Ok _, c) => Done (Ok (Some tx), mkSendState c (ss_next s))
  | (Err (TrySendClosed e), c) =>
      let! m := unpack_out (is_timed msg) e in Done (Err (SendClosed m), mkSendState c (ss_next s))
  | (Err (TrySendFull e), c) =>
      let! m := unpack_out (is_timed msg) e in Done (Err (SendFull m), mkSendState c (ss_next s))
  end.

Definition LocalAddress_try_do_send msg s : outcome (result unit SErr * SState) :=
  match mpsc_try_send (ss_chan s) (pack_out msg None) with
  | (Ok _, c) => Done (Ok tt, mkSendState c (ss_next s))
  | (Err (TrySendClosed e), c) =>
      let! m := unpack_out (is_timed msg) e in Done (Err (SendClosed m), mkSendState c (ss_next s))
  | (Err (TrySendFull e), c) =>
      let! m := unpack_out (is_timed msg) e in Done (Err (SendFull m), mkSendState c (ss_next s))
  end.

(** Reservations: a permit is a reserved slot of the channel. *)
Definition LocalAddress_try_reserve s : result unit (SendError BoxError unit) * SState :=
  let (r, c) := mpsc_try_reserve (ss_chan s) in
  (result_map_err SendError_from_try_send r, mkSendState c (ss_next s)).

Definition LocalAddress_reserve s : Poll (result unit (SendError BoxError unit)) * SState :=
  match mpsc_try_reserve (ss_chan s) with
  | (Ok _, c) => (Ready (Ok tt), mkSendState c (ss_next s))
  | (Err (TrySendClosed _), c) => (Ready (Err (SendClosed tt)), mkSendState c (ss_next s))
  | (Err (TrySendFull _), c) => (Pending, mkSendState c (ss_next s))
  end.

(** The owned variants clone the sender first, and reserve the same way. *)
Definition LocalAddress_try_reserve_owned := LocalAddress_try_reserve.
Definition LocalAddress_reserve_owned := LocalAddress_reserve.

(** [SendPermit::send] and [SendPermit::do_send] (and the owned permit's). *)
Definition SendPermit_send msg s : nat * SState :=
  let (tx, s) := oneshot_new s in
  (tx, mkSendState (mpsc_permit_send (ss_chan s) (pack_out msg (Some tx))) (ss_next s)).

Definition SendPermit_do_send msg s : SState :=
  mkSendState (mpsc_permit_send (ss_chan s) (pack_out msg None)) (ss_next s).
End Local.

(** ** Recipients backed by a plain channel (address/recipient.rs) *)

Section SenderProxy.
Context {M BoxError : Type} {chan : Type -> Type} `{TokioMpsc chan}.
Implicit Types (c : chan M) (msg : M).

Record SenderProxy : Type := mkSenderProxy { sp_index : Z }.

(** [Recipient::create]: the sender half of a fresh channel; the receiver goes to the
    caller. *)
Definition Recipient_create (capacity : nat) (next_index : Z) : SenderProxy * chan M * Z :=
  (mkSenderProxy next_index, mpsc_channel capacity, wrap_u 64 (next_index + 1)).

Definition SenderProxy_index (p : SenderProxy) : ActorId := ActorId_new (sp_index p).

(** The variants that expect an answer are refused. *)
Definition SenderProxy_send (unsupported : BoxError) msg c : result nat (SendError BoxError M) * chan M :=
  (Err (SendOther unsupported msg), c).

Definition SenderProxy_try_do_send msg c : result unit (SendError BoxError M) * chan M :=
  let (r, c) := mpsc_try_send c msg in (result_map_err SendError_from_try_send r, c).

Definition SenderProxy_do_send msg c : Poll (result unit (SendError BoxError M)) * chan M :=
  match mpsc_try_send c msg with
  | (Ok _, c) => (Ready (Ok tt), c)
  | (Err (TrySendClosed m), c) => (Ready (Err (SendClosed m)), c)
  | (Err (TrySendFull _), c) => (Pending, c)
  end.

Definition SenderProxy_do_send_timeout (elapsed : bool) msg c
    : Poll (result unit (SendError BoxError M)) * chan M :=
  match mpsc_try_send c msg with
  | (Ok _, c) => (Ready (Ok tt), c)
  | (Err (TrySendClosed m), c) => (Ready (Err (SendError_from_send_timeout (SendTimeoutClosed m))), c)
  | (Err (TrySendFull m), c) =>
      (if elapsed then Ready (Err (SendError_from_send_timeout (SendTimeoutElapsed m))) else Pending, c)
  end.
End SenderProxy.
