(* ===== verification/AddressTheorems.v ===== *)
(** * Sending to a local address: what the mailbox gets and what the caller gets back

    Theorems about Address.v: a send never panics, hands the very message back when it
    fails, and queues exactly one envelope when it succeeds; a mailbox never holds more
    than its capacity, permits included; a response channel delivers what was sent. *)

From S2P Require Import Prelude Tokio ActorTypes UserCode Address.

(** ** Sends *)

Section Sends.
Context {M BoxError : Type} {chan : Type -> Type} `{TokioMpsc chan}.
#[local] Set Default Proof Using "Type*".

Abbreviation SState := (SendState chan (Envelope M)).
Abbreviation SErr := (SendError BoxError (Outgoing M)).
Implicit Types (msg : Outgoing M) (s : SState) (c : chan (Envelope M)).

(** The effect of a successful send on the mailbox. *)
Definition queued (v : chan_view (Envelope M)) (e : Envelope M) : chan_view (Envelope M) :=
  cv_with_queue v (cv_queue v ++ [e]).

(** [unpack] undoes [pack] at the type of the message sent. *)
Lemma unpack_pack_out msg tx : unpack_out (is_timed msg) (pack_out msg tx) = Done msg.
Proof. by destruct msg. Qed.


(** [LocalAddress::try_send] never panics. A closed mailbox and a full one hand back
    the very message that was sent and are left as they were; otherwise exactly one
    envelope, carrying the message and the fresh response channel the caller gets, is
    queued behind the others. *)
Lemma try_send_correct msg s : exists (r : result (option nat) SErr) s',
  LocalAddress_try_send msg s = Done (r, s') /\
  ss_next s' = S (ss_next s) /\
  (if cv_closed (mpsc_view (ss_chan s)) then
     r = Err (SendClosed msg) /\ mpsc_view (ss_chan s') = mpsc_view (ss_chan s)
   else if cv_full (mpsc_view (ss_chan s)) then
     r = Err (SendFull msg) /\ mpsc_view (ss_chan s') = mpsc_view (ss_chan s)
   else
     r = Ok (Some (ss_next s)) /\
     mpsc_view (ss_chan s') =
       queued (mpsc_view (ss_chan s)) (pack_out msg (Some (ss_next s)))).
Proof.
  unfold LocalAddress_try_send, oneshot_new. simpl.
  destruct (try_send_cases (ss_chan s) (pack_out msg (Some (ss_next s))))
    as [c' [(-> & -> & Hv)|[(-> & -> & -> & Hv)|(-> & -> & -> & Hv)]]];
    rewrite ?unpack_pack_out; simpl; eauto 10.
Qed.

(** One poll of a sending future. *)
Lemma SendFuture_poll_cases msg tx s : exists c',
  let f := mkSendFuture (pack_out msg tx) tx (is_timed msg) in
  let v := mpsc_view (ss_chan s) in
  (SendFuture_poll f s = Done (Ready (Err (SendClosed msg : SErr)), mkSendState c' (ss_next s)) /\
     cv_closed v = true /\ mpsc_view c' = v) \/
  (SendFuture_poll f s = Done (Pending : Poll (result (option nat) SErr),
                               mkSendState c' (ss_next s)) /\
     cv_closed v = false /\ cv_full v = true /\ mpsc_view c' = v) \/
  (SendFuture_poll f s = Done (Ready (Ok tx : result (option nat) SErr),
                               mkSendState c' (ss_next s)) /\
     cv_closed v = false /\ cv_full v = false /\ mpsc_view c' = queued v (pack_out msg tx)).
Proof.
  unfold SendFuture_poll. simpl.
  destruct (try_send_cases (ss_chan s) (pack_out msg tx))
    as [c' [(-> & ? & ?)|[(-> & ? & ? & ?)|(-> & ? & ? & ?)]]];
    exists c'; rewrite ?unpack_pack_out; simpl; eauto 10.
Qed.

Lemma SendFuture_await_cases msg tx others s : exists (o : option (result (option nat) SErr)) s',
  SendFuture_await (mkSendFuture (pack_out msg tx) tx (is_timed msg)) others s = Done (o, s') /\
  ss_next s' = ss_next s /\
  match o with
  | Some (Ok rx) =>
      rx = tx /\ exists c, cv_closed (mpsc_view c) = false /\ cv_full (mpsc_view c) = false /\
      mpsc_view (ss_chan s') = queued (mpsc_view c) (pack_out msg tx)
  | Some (Err e) => e = SendClosed msg /\ cv_closed (mpsc_view (ss_chan s')) = true
  | None => cv_closed (mpsc_view (ss_chan s')) = false /\ cv_full (mpsc_view (ss_chan s')) = true
  end.
Proof.
  revert s. induction others as [|g others IH]; intros s; simpl;
    destruct (SendFuture_poll_cases msg tx s)
      as [c' [(Hp & ? & Hv)|[(Hp & ? & ? & Hv)|(Hp & ? & ? & Hv)]]];
    rewrite Hp; simpl.
  - eexists (Some (Err _)), _. split; [done|]. simpl. rewrite Hv. eauto.
  - eexists None, _. split; [done|]. simpl. rewrite Hv. eauto.
  - eexists (Some (Ok _)), _. split; [done|]. simpl. eauto 10.
  - eexists (Some (Err _)), _. split; [done|]. simpl. rewrite Hv. eauto.
  - destruct (IH (mkSendState (g c') (ss_next s))) as (o & s' & ? & ? & ?). eauto.
  - eexists (Some (Ok _)), _. split; [done|]. simpl. eauto 10.
Qed.

(** A blocking send outside of the runtime does not panic, whatever the other tasks do to
    the channel between two polls: it returns the fresh response channel after queueing
    exactly one envelope into a channel that was open and had room, or hands the message
    back because the mailbox was closed, or it still waits in front of a full, open one.
    Inside the runtime it panics. *)
Lemma blocking_send_correct `{CallContext} msg others s :
  if in_runtime then exists info, LocalAddress_blocking_send (BoxError := BoxError) msg others s = Panicked info
  else exists (o : option (result (option nat) SErr)) s',
    LocalAddress_blocking_send msg others s = Done (o, s') /\
    ss_next s' = S (ss_next s) /\
    match o with
    | Some (Ok rx) =>
        rx = Some (ss_next s) /\
        exists c, cv_closed (mpsc_view c) = false /\ cv_full (mpsc_view c) = false /\
        mpsc_view (ss_chan s') = queued (mpsc_view c) (pack_out msg (Some (ss_next s)))
    | Some (Err e) => e = SendClosed msg /\ cv_closed (mpsc_view (ss_chan s')) = true
    | None => cv_closed (mpsc_view (ss_chan s')) = false /\ cv_full (mpsc_view (ss_chan s')) = true
    end.
Proof.
  unfold LocalAddress_blocking_send, LocalAddress_send, oneshot_new, block_on.
  destruct in_runtime; [eauto|].
  destruct (SendFuture_await_cases msg (Some (ss_next s)) others
              (mkSendState (ss_chan s) (S (ss_next s)))) as (o & s' & ? & ? & ?). eauto.
Qed.

(** A send with a timeout never panics, and when the timer has fired it does not wait:
    it queues the envelope, or hands the message back as [Closed] or [Timeout]. *)
Lemma send_timeout_correct msg s : exists (r : result (option nat) SErr) s',
  (let (f, s1) := LocalAddress_send_timeout msg s in SendTimeoutFuture_poll true f s1) =
    Done (Ready r, s') /\
  (if cv_closed (mpsc_view (ss_chan s)) then
     r = Err (SendClosed msg) /\ mpsc_view (ss_chan s') = mpsc_view (ss_chan s)
   else if cv_full (mpsc_view (ss_chan s)) then
     r = Err (SendTimeout msg) /\ mpsc_view (ss_chan s') = mpsc_view (ss_chan s)
   else
     r = Ok (Some (ss_next s)) /\
     mpsc_view (ss_chan s') =
       queued (mpsc_view (ss_chan s)) (pack_out msg (Some (ss_next s)))).
Proof.
  unfold LocalAddress_send_timeout, LocalAddress_send, oneshot_new, SendTimeoutFuture_poll. simpl.
  destruct (try_send_cases (ss_chan s) (pack_out msg (Some (ss_next s))))
    as [c' [(-> & -> & Hv)|[(-> & -> & -> & Hv)|(-> & -> & -> & Hv)]]];
    rewrite ?unpack_pack_out; simpl; eauto 10.
Qed.
End Sends.

(** ** Reservations and capacity *)

(** What the holders of an address and the owner of its mailbox can do. *)
Inductive MailOp (M : Type) : Type :=
| OpTrySend (m : Outgoing M)
| OpTryDoSend (m : Outgoing M)
| OpTryReserve
| OpPermitSend (m : Outgoing M)
| OpPermitDoSend (m : Outgoing M)
| OpReceive
| OpClose.
Arguments OpTrySend {M} _.
Arguments OpTryDoSend {M} _.
Arguments OpTryReserve {M}.
Arguments OpPermitSend {M} _.
Arguments OpPermitDoSend {M} _.
Arguments OpReceive {M}.
Arguments OpClose {M}.

Section Capacity.
Context {M BoxError : Type} {chan : Type -> Type} `{TokioMpsc chan}.
#[local] Set Default Proof Using "Type*".

Abbreviation SState := (SendState chan (Envelope M)).
Abbreviation SErr := (SendError BoxError (Outgoing M)).
Implicit Types (msg : Outgoing M) (s : SState) (c : chan (Envelope M)).

(** One operation, with the number of permits held: a permit is consumed by the send that
    uses it, so there is no such send without one. *)
Definition mail_step (p : SState * nat) (op : MailOp M) : SState * nat :=
  let (s, held) := p in
  match op with
  | OpTrySend msg =>
      match LocalAddress_try_send (BoxError := BoxError) msg s with
      | Done (_, s') => (s', held)
      | Panicked _ => p
      end
  | OpTryDoSend msg =>
      match LocalAddress_try_do_send (BoxError := BoxError) msg s with
      | Done (_, s') => (s', held)
      | Panicked _ => p
      end
  | OpTryReserve =>
      match LocalAddress_try_reserve (BoxError := BoxError) s with
      | (Ok _, s') => (s', S held)
      | (Err _, s') => (s', held)
      end
  | OpPermitSend msg =>
      match held with 0 => p | S h => ((SendPermit_send msg s).2, h) end
  | OpPermitDoSend msg =>
      match held with 0 => p | S h => (SendPermit_do_send msg s, h) end
  | OpReceive =>
      (mkSendState (Mailbox_try_recv (B := BoxError) (ss_chan s)).2 (ss_next s), held)
  | OpClose => (mkSendState (Mailbox_close (ss_chan s)) (ss_next s), held)
  end.

(** Queue and permits fit in the mailbox, and the permits counted are the ones held. *)
Definition mail_inv (n : nat) (p : SState * nat) : Prop :=
  let v := mpsc_view (ss_chan p.1) in
  cv_cap v = n /\ cv_permits v = p.2 /\ length (cv_queue v) + cv_permits v <= n.

Lemma mail_inv_intro n s held (v : chan_view (Envelope M)) :
  mpsc_view (ss_chan s) = v -> cv_cap v = n -> cv_permits v = held ->
  length (cv_queue v) + held <= n -> mail_inv n (s, held).
Proof. unfold mail_inv. simpl. intros -> <- <- ?. auto. Qed.

Lemma not_full (v : chan_view (Envelope M)) :
  cv_full v = false -> length (cv_queue v) + cv_permits v < cv_cap v.
Proof. unfold cv_full. rewrite bool_decide_eq_false. lia. Qed.

Lemma mail_step_inv n p op : mail_inv n p -> mail_inv n (mail_step p op).
Proof.
  destruct p as [s held]. intros (Hcap & Hper & Hle). simpl in *. destruct op; simpl.
  - unfold LocalAddress_try_send, oneshot_new. simpl.
    destruct (try_send_cases (ss_chan s) (pack_out m (Some (ss_next s))))
      as [c' [(-> & _ & Hv)|[(-> & _ & _ & Hv)|(-> & _ & ?%not_full & Hv)]]];
      rewrite ?unpack_pack_out; simpl; eapply mail_inv_intro; simpl; eauto; simpl; try lia.
    rewrite length_app. simpl. lia.
  - unfold LocalAddress_try_do_send. simpl.
    destruct (try_send_cases (ss_chan s) (pack_out m None))
      as [c' [(-> & _ & Hv)|[(-> & _ & _ & Hv)|(-> & _ & ?%not_full & Hv)]]];
      rewrite ?unpack_pack_out; simpl; eapply mail_inv_intro; simpl; eauto; simpl; try lia.
    rewrite length_app. simpl. lia.
  - unfold LocalAddress_try_reserve.
    destruct (try_reserve_cases (ss_chan s))
      as [c' [(-> & _ & Hv)|[(-> & _ & _ & Hv)|(-> & _ & ?%not_full & Hv)]]];
      simpl; eapply mail_inv_intro; simpl; eauto; simpl; lia.
  - destruct held; [done|]. eapply mail_inv_intro; simpl; [apply mpsc_permit_send_law|..]; simpl;
      rewrite ?length_app; simpl; lia.
  - destruct held; [done|]. eapply mail_inv_intro; simpl; [apply mpsc_permit_send_law|..]; simpl;
      rewrite ?length_app; simpl; lia.
  - eapply mail_inv_intro; simpl.
    { unfold Mailbox_try_recv, Receiver_try_recv.
      pose proof (try_recv_view (ss_chan s)) as Ht.
      destruct (mpsc_try_recv (ss_chan s)). exact Ht. }
    all: simpl; try lia. destruct (cv_queue (mpsc_view (ss_chan s))); simpl in *; lia.
  - eapply mail_inv_intro; simpl; [apply mpsc_close_law|..]; simpl; lia.
Qed.

Lemma mail_steps_inv n ops p : mail_inv n p -> mail_inv n (fold_left mail_step ops p).
Proof. intros Hi. apply fold_left_inv; eauto using mail_step_inv. Qed.

(** C36. A mailbox created with capacity [n] never holds more than [n] envelopes, unused
    permits included, whatever senders, permit holders and the receiver do; and a permit
    is always honoured: its send queues its envelope even when the mailbox is full or was
    closed in the meantime. *)
Theorem permits_are_honoured n ops msg :
  let start : SState := mkSendState (mpsc_channel n) 0 in
  let '(s, held) := fold_left mail_step ops (start, 0) in
  let v := mpsc_view (ss_chan s) in
  let v' := mpsc_view (ss_chan (SendPermit_do_send msg s)) in
  length (cv_queue v) + held <= n /\
  LocalAddress_capacity s = n - (length (cv_queue v) + held) /\
  (0 < held ->
     cv_queue v' = cv_queue v ++ [pack_out msg None] /\ length (cv_queue v') <= n).
Proof.
  intros start. pose proof (mail_steps_inv n ops (start, 0)) as Hi.
  destruct (fold_left mail_step ops (start, 0)) as [s held].
  destruct Hi as (Hcap & Hper & Hle).
  { unfold mail_inv. simpl. rewrite mpsc_channel_law. simpl. lia. }
  simpl in *. unfold LocalAddress_capacity. rewrite mpsc_capacity_law, Hcap, Hper.
  rewrite mpsc_permit_send_law. simpl. rewrite length_app. simpl.
  repeat split; lia.
Qed.
End Capacity.

Definition permits_are_honoured_ops : list (MailOp nat) :=
  [OpTryReserve; OpTrySend (OutPlain (MsgUser 1)); OpTrySend (OutPlain (MsgUser 2)); OpClose].

(** One slot reserved, one message queued, one refused, then the receiver closes. *)
Lemma permits_are_honoured_witness :
  let start : SendState chan_view (Envelope nat) := mkSendState (mpsc_channel 2) 0 in
  let '(s, held) :=
    fold_left (mail_step (BoxError := unit)) permits_are_honoured_ops (start, 0) in
  let v := mpsc_view (ss_chan s) in
  let v' := mpsc_view (ss_chan (SendPermit_do_send (OutPlain (MsgUser 3)) s)) in
  length (cv_queue v) + held <= 2 /\
  LocalAddress_capacity s = 2 - (length (cv_queue v) + held) /\
  (0 < held ->
     cv_queue v' = cv_queue v ++ [pack_out (OutPlain (MsgUser 3)) None] /\
     length (cv_queue v') <= 2).
Proof.
  exact (permits_are_honoured (BoxError := unit) (chan := chan_view) 2
           permits_are_honoured_ops (OutPlain (MsgUser 3))).
Defined.

(** ** Response channels *)

Section Responses.
Context {T BoxError : Type} {chan : Type -> Type} `{TokioOneshot chan}.
#[local] Set Default Proof Using "Type*".
Abbreviation payload := (result T BoxError).
Implicit Types (c : chan payload).

(** What the receiver does while it waits. *)
Inductive RecvStep : Type := StepTryRecv | StepPoll | StepTimeout (elapsed : bool).

Definition recv_step (st : RecvStep) c : Poll (result T (RecvError BoxError)) * chan payload :=
  match st with
  | StepTryRecv => let (r, c) := OneshotReceiver_try_recv c in (Ready r, c)
  | StepPoll => OneshotReceiver_poll c
  | StepTimeout elapsed => OneshotReceiver_recv_timeout elapsed c
  end.

Definition os_fresh (v : oneshot_view payload) : Prop :=
  v = OneshotView None false false false.

Lemma recv_step_value st c (p : payload) :
  os_value (oneshot_view_of c) = Some p ->
  (recv_step st c).1 = Ready (match p with Ok t => Ok t | Err e => Err (RecvOther e) end).
Proof.
  intros Hv. destruct st; simpl.
  - unfold OneshotReceiver_try_recv. pose proof (oneshot_try_recv_law c) as Hl.
    destruct (oneshot_try_recv c) as [r c']. unfold ov_try_recv in Hl. rewrite Hv in Hl.
    simplify_eq/=. by destruct p.
  - unfold OneshotReceiver_poll. pose proof (oneshot_poll_law c) as Hl.
    destruct (oneshot_poll c) as [r c']. unfold ov_poll in Hl. rewrite Hv in Hl.
    simplify_eq/=. by destruct p.
  - unfold OneshotReceiver_recv_timeout, OneshotReceiver_poll. pose proof (oneshot_poll_law c) as Hl.
    destruct (oneshot_poll c) as [r c']. unfold ov_poll in Hl. rewrite Hv in Hl.
    simplify_eq/=. by destruct p.
Qed.

Lemma recv_step_fresh st c :
  os_fresh (oneshot_view_of c) -> os_fresh (oneshot_view_of (recv_step st c).2).
Proof.
  unfold os_fresh. intros Hv. destruct st; simpl.
  - unfold OneshotReceiver_try_recv. pose proof (oneshot_try_recv_law c) as Hl.
    destruct (oneshot_try_recv c) as [r c']. unfold ov_try_recv in Hl. rewrite Hv in Hl.
    by simplify_eq/=.
  - unfold OneshotReceiver_poll. pose proof (oneshot_poll_law c) as Hl.
    destruct (oneshot_poll c) as [[|r] c']; unfold ov_poll in Hl; rewrite Hv in Hl;
      by simplify_eq/=.
  - unfold OneshotReceiver_recv_timeout, OneshotReceiver_poll. pose proof (oneshot_poll_law c) as Hl.
    destruct (oneshot_poll c) as [[|r] c']; unfold ov_poll in Hl; rewrite Hv in Hl;
      by simplify_eq/=.
Qed.

Lemma recv_steps_fresh sts c :
  os_fresh (oneshot_view_of c) ->
  os_fresh (oneshot_view_of (fold_left (fun c st => (recv_step st c).2) sts c)).
Proof. intros Hv. apply fold_left_inv; eauto using recv_step_fresh. Qed.

(** The answer sent on a response channel reaches the caller: receives that come too
    early, timeouts included, leave the channel usable; the send then succeeds without
    panicking, and the next receive of any kind returns the value, or the error that was
    sent as [Other]. *)
Lemma response_is_delivered (sts : list RecvStep) (st : RecvStep) (p : payload) :
  let c : chan payload := fold_left (fun c st => (recv_step st c).2) sts oneshot_channel in
  exists c',
    match p with
    | Ok t => Sender_send t c = Done (Ok tt, c')
    | Err e => Sender_send_err e c = Done (Ok tt, c')
    end /\
    (recv_step st c').1 = Ready (match p with Ok t => Ok t | Err e => Err (RecvOther e) end).
Proof.
  intros c. assert (Hf : os_fresh (oneshot_view_of c)).
  { apply recv_steps_fresh. apply oneshot_channel_law. }
  pose proof (oneshot_send_law c p) as Hl. unfold ov_send in Hl. rewrite Hf in Hl. simpl in Hl.
  unfold Sender_send, Sender_send_err.
  destruct p; destruct (oneshot_send c _) as [r c']; simplify_eq/=;
    exists c'; (split; [done|]); match goal with H : oneshot_view_of _ = _ |- _ =>
      by rewrite (recv_step_value st c' _ (f_equal os_value H)) end.
Qed.

Lemma sent_value c (p : payload) c' :
  match p with
  | Ok t => Sender_send t c = Done (Ok tt, c')
  | Err e => Sender_send_err e c = Done (Ok tt, c')
  end -> os_value (oneshot_view_of c') = Some p.
Proof.
  pose proof (oneshot_send_law c p) as Hl. unfold ov_send, Sender_send, Sender_send_err in *.
  destruct (os_closed (oneshot_view_of c)), p; destruct (oneshot_send c _) as [[[]|[]] c2];
    intros; simplify_eq/=; try done;
    match goal with H : oneshot_view_of _ = _ |- _ => by rewrite H end.
Qed.

(** Sending on a response channel whose receiver was closed never panics, and hands
    the value, or the boxed error, back. *)
Lemma response_to_nobody c :
  (forall t : T, exists c', Sender_send t (OneshotReceiver_close c) = Done (Err (SendClosed t), c')) /\
  (forall e : BoxError,
     exists c', Sender_send_err e (OneshotReceiver_close c) = Done (Err (SendClosed e), c')).
Proof.
  unfold Sender_send, Sender_send_err, OneshotReceiver_close.
  assert (Hs : forall p : payload, exists c', oneshot_send (oneshot_close c) p = (Err p, c')).
  { intros p. pose proof (oneshot_send_law (oneshot_close c) p) as Hl.
    destruct (oneshot_send _ _) as [r c']. rewrite oneshot_close_law in Hl. unfold ov_send in Hl.
    simpl in Hl. exists c'. by simplify_eq. }
  split; [intros t; destruct (Hs (Ok t)) as [c' ->]|intros e; destruct (Hs (Err e)) as [c' ->]]; eauto.
Qed.

(** A sender hears of the end of its receiver exactly when sending would fail, and a
    receiver that is closed is heard of at once. *)
Lemma closed_is_send_fails c t :
  (Sender_poll_closed c = Ready tt <-> exists c', Sender_send t c = Done (Err (SendClosed t), c')) /\
  Sender_poll_closed (OneshotReceiver_close c) = Ready tt /\
  Sender_poll_closed (oneshot_pair : chan payload) = Pending.
Proof.
  unfold Sender_poll_closed, closed_poll, OneshotReceiver_close, oneshot_pair, Sender_send.
  rewrite !oneshot_is_closed_law, oneshot_close_law, oneshot_channel_law. split_and!; [|done..].
  pose proof (oneshot_send_law c (Ok t)) as Hl. unfold ov_send in Hl.
  destruct (oneshot_send c (Ok t)) as [r c'], (os_closed (oneshot_view_of c)); simplify_eq/=; [naive_solver|].
  split; [done|]. by intros (? & ?).
Qed.
End Responses.
