(* ===== verification/CallTheorems.v ===== *)
(** * Calls of an actor in one process

    What becomes of every envelope an actor takes out of its mailbox, over a run of the
    default loop and over the whole life of an actor, and what the caller who holds the
    other end of a response channel gets. *)

From S2P Require Import Prelude Tokio ActorTypes UserCode Context Lifecycle ContextFacts.
From S2P Require Import LifecycleFacts ContextLoop ContextTheorems LifecycleTheorems Address AddressTheorems.

#[local] Arguments emit : simpl never.
#[local] Arguments set_state_w : simpl never.
#[local] Arguments notify_w : simpl never.
#[local] Arguments run_finish : simpl never.

(** The response channel of an envelope, and whether it has a time budget. *)
Definition env_tx {M} (e : Envelope M) : option nat :=
  match e with DefaultEnvelopeProxy _ tx | TimedEnvelopeProxy _ tx _ => tx end.

Definition env_timed {M} (e : Envelope M) : bool :=
  match e with DefaultEnvelopeProxy _ _ => false | TimedEnvelopeProxy _ _ _ => true end.

(** The events that concern messages and their answers. *)
Definition is_call {E M R} (ev : Event E M R) : bool :=
  match ev with EvHandle _ | EvSkip _ | EvReply _ _ | EvReplyTimeout _ => true | _ => false end.

Definition calls {E M R} (tr : list (Event E M R)) : list (Event E M R) :=
  filter (fun ev => is_call ev = true) tr.

(** What a drain may do to a mailbox: drop the oldest messages, and only in a context that
    can be asked to. *)
Class DrainLaws (D : Type) `{DrainPolicy D} : Prop :=
  drain_drops : forall {M chan} `{TokioMpsc chan} (s : D) (c : chan (Envelope M)),
    exists n, cv_queue (mpsc_view (dp_apply s c).2) = drop n (cv_queue (mpsc_view c)) /\
      (dp_drain_mailbox (State := D) = None -> n = 0).

#[global] Instance NoDrain_laws : DrainLaws unit.
Proof. intros M chan HT s c. by exists 0. Qed.

#[global] Instance Drainable_laws : DrainLaws DrainState.
Proof.
  intros M chan HT s c. simpl. unfold Drainable_apply.
  destruct (requested s); [|by exists 0]. exists (mailbox_len s). simpl. by rewrite discard_queue.
Qed.

#[local] Set Default Proof Using "Type*".

Section Calls.
Context {A E M R D : Type} {chan : Type -> Type} `{HT : TokioMpsc chan} `{HD : DrainPolicy D, !DrainLaws D}.

Abbreviation Ctx := (Context E D).
Abbreviation W := (world A Ctx E M R chan).
Abbreviation code := (ucode A Ctx (ContextOp E)).
Abbreviation queue w := (cv_queue (mpsc_view (w_mail w))).
Abbreviation quiet := (ext (fun ev => is_call ev = false)).

Implicit Types (w : W) (t : Turn M) (e : Envelope M).

Lemma calls_app (tr tr' : list (Event E M R)) : calls (tr ++ tr') = calls tr ++ calls tr'.
Proof. apply filter_app. Qed.

Lemma quiet_calls w w' : quiet w w' -> calls (w_trace w') = calls (w_trace w).
Proof.
  intros (evs & -> & F). rewrite calls_app. unfold calls at 2.
  rewrite filter_drop_all, app_nil_r; [done|]. intros ev Hin.
  rewrite Forall_forall in F. by rewrite F.
Qed.

Lemma notice_quiet (ev : Event E M R) : is_notice ev -> is_call ev = false.
Proof. by destruct ev. Qed.

Lemma exec_calls {X} (u : code X) cut w : calls (w_trace (exec u cut w).2) = calls (w_trace w).
Proof. apply quiet_calls, ext_exec, notice_quiet. Qed.

Lemma set_state_calls s w : calls (w_trace (set_state_w s w)) = calls (w_trace w).
Proof. apply quiet_calls, (ext_set_state _ s w), notice_quiet. Qed.

Lemma notify_calls ev w : calls (w_trace (notify_w ev w)) = calls (w_trace w).
Proof. apply quiet_calls, (ext_notify _ ev w), notice_quiet. Qed.

Lemma enter_hook_calls h w : calls (w_trace (enter_hook h w)) = calls (w_trace w).
Proof. apply quiet_calls. by apply ext_emit1. Qed.

Lemma emit_calls evs w : calls (w_trace (emit evs w)) = calls (w_trace w) ++ calls evs.
Proof. unfold emit. apply calls_app. Qed.

Lemma check_error_calls w : calls (w_trace (check_error w)) = calls (w_trace w).
Proof. unfold check_error. case_match; [apply set_state_calls|done]. Qed.

Context (handler : Msg M -> code (Reply R)).
Context (stopping : code (result StoppingDecision E)).

(** What becomes of an envelope, by the events it leaves: its handler runs on its message and
    what it returns is sent back, its time budget runs out, it panics, nobody waits, or a
    drain discards it. *)
Inductive fate e : list (Event E M R) -> Prop :=
| fate_empty : env_msg e = None -> fate e []
| fate_skipped m tx : env_msg e = Some m -> env_tx e = Some tx -> fate e [EvSkip m]
| fate_answered m tx cut w r w' :
    env_msg e = Some m -> env_tx e = Some tx -> (env_timed e = false -> cut = None) ->
    exec (handler m) cut w = (UDone r, w') -> fate e [EvHandle m; EvReply tx r]
| fate_timed_out m tx cut w w' :
    env_msg e = Some m -> env_tx e = Some tx -> env_timed e = true ->
    exec (handler m) cut w = (UTimedOut, w') -> fate e [EvHandle m; EvReplyTimeout tx]
| fate_panicked m cut w info w' :
    env_msg e = Some m -> exec (handler m) cut w = (UPanicked info, w') -> fate e [EvHandle m]
| fate_unasked m : env_msg e = Some m -> env_tx e = None -> fate e [EvHandle m]
| fate_discarded : is_some (dp_drain_mailbox (State := D)) = true -> fate e [].

(** ** A turn *)

Lemma handle_calls e b cut w :
  exists seg, calls (w_trace (Envelope_handle handler e b cut w).2) = calls (w_trace w) ++ seg /\
    fate e seg.
Proof.
  unfold Envelope_handle.
  assert (Hx : forall m c, calls (w_trace (exec (handler m) c (emit [EvHandle m] w)).2) =
     calls (w_trace w) ++ [EvHandle m]) by (intros; by rewrite exec_calls, emit_calls).
  destruct e as [[m|] tx|[m|] tx budget];
    try (exists []; split; [by rewrite app_nil_r|by apply fate_empty]);
    (destruct (skip_message tx b) eqn:Es;
      [destruct tx as [tx|]; [|done]; exists [EvSkip m]; split; [apply emit_calls|by eapply fate_skipped]|]);
    (match goal with |- context [exec ?u ?c ?w'] =>
      specialize (Hx m c); destruct (exec u c w') as [[r|info|] w1] eqn:Ex end); simpl in Hx;
    try (exists [EvHandle m]; split; [exact Hx|by eapply fate_panicked]).
  - destruct tx as [tx|]; [exists [EvHandle m; EvReply tx r]|exists [EvHandle m]]; simpl.
    + rewrite calls_app, Hx, <- app_assoc. split; [done|eapply fate_answered; [done|done| |exact Ex]; done].
    + split; [done|by apply fate_unasked].
  - destruct (exec_no_timeout (handler m) (emit [EvHandle m] w)). by rewrite Ex.
  - destruct tx as [tx|]; [exists [EvHandle m; EvReply tx r]|exists [EvHandle m]]; simpl.
    + rewrite calls_app, Hx, <- app_assoc. split; [done|eapply fate_answered; [done|done| |exact Ex]; done].
    + split; [done|by apply fate_unasked].
  - destruct tx as [tx|]; [exists [EvHandle m; EvReplyTimeout tx]|exists [EvHandle m]]; simpl.
    + rewrite calls_app, Hx, <- app_assoc. split; [done|by eapply fate_timed_out].
    + split; [done|by apply fate_unasked].
Qed.

Lemma after_calls t w : calls (w_trace (after_message stopping t w).2) = calls (w_trace w).
Proof.
  unfold after_message. pose proof (take_error_w_frame w) as (Htr & _).
  destruct (state (w_ctx w)); try done; destruct (take_error_w w) as [r w1]; simpl in Htr.
  - unfold exec_hook. pose proof (exec_calls stopping None (enter_hook StoppingHook w1)) as Hx.
    rewrite enter_hook_calls, Htr in Hx.
    destruct (exec stopping None _) as [[[[]|e]|info|] w2]; simpl in Hx; try exact Hx.
    destruct r; (etransitivity; [apply set_state_calls|]); [exact Hx|].
    etransitivity; [apply notify_calls|exact Hx].
  - simpl. by rewrite Htr.
Qed.

(** The end of a turn that served [e], whose calls are [seg]: a drain may discard what
    follows it. *)
Lemma served_calls t w e q1 a1 seg w1 :
  a1 `sublist_of` t_arrive t -> queue w ++ a1 = e :: q1 -> queue w1 = q1 ->
  calls (w_trace w1) = calls (w_trace w) ++ seg -> fate e seg ->
  let w' := (after_message stopping t
               (check_error (apply_drain_w (deliver_w (t_during t) w1)))).2 in
  exists acc consumed segs,
    acc `sublist_of` sent t /\ queue w ++ acc = consumed ++ queue w' /\
    calls (w_trace w') = calls (w_trace w) ++ concat segs /\ Forall2 fate consumed segs.
Proof.
  intros Ha1 Hq Hm Hc Hf. simpl. set (w2 := apply_drain_w (deliver_w (t_during t) w1)).
  destruct (deliver_queue (t_during t) (w_mail w1)) as (a2 & Ha2 & Hq2).
  destruct (drain_drops (drain (w_ctx (deliver_w (t_during t) w1))) (w_mail (deliver_w (t_during t) w1)))
    as (n & Hn & Hn0).
  assert (Hw2 : queue w2 = drop n (q1 ++ a2)).
  { unfold w2, apply_drain_w. destruct (dp_apply _ _) as [d q2]. simpl in *.
    by rewrite Hn, Hq2, Hm. }
  destruct (check_error_frame w2) as (Hcm & _ & _).
  destruct (after_frame stopping t (check_error w2)) as [_ (a3 & Ha3 & Hq3)].
  rewrite Hcm, Hw2 in Hq3.
  exists (a1 ++ a2 ++ a3), (e :: take n (q1 ++ a2)), (seg :: ((fun _ => []) <$> take n (q1 ++ a2))).
  split_and!.
  - unfold sent. by repeat apply sublist_app.
  - rewrite Hq3. simpl. rewrite (app_assoc (take _ _)), take_drop, (app_assoc (queue w)), Hq. simpl.
    by rewrite <- app_assoc.
  - rewrite after_calls, check_error_calls. unfold w2. rewrite apply_drain_trace. simpl.
    rewrite Hc. f_equal. clear. induction (take n (q1 ++ a2)); [by rewrite app_nil_r|done].
  - constructor; [done|]. apply Forall2_fmap_r, Forall_Forall2_diag, Forall_forall.
    intros e' He'. apply fate_discarded. destruct dp_drain_mailbox; [done|].
    rewrite Hn0 in He' by done. by apply not_elem_of_nil in He'.
Qed.

(** A turn takes the oldest envelope, and those a drain discards after it. *)
Lemma turn_calls t w :
  exists acc consumed segs,
    acc `sublist_of` sent t /\
    queue w ++ acc = consumed ++ queue (Context_turn handler stopping t w).2 /\
    calls (w_trace (Context_turn handler stopping t w).2) = calls (w_trace w) ++ concat segs /\
    Forall2 fate consumed segs.
Proof.
  destruct (deliver_queue (t_arrive t) (w_mail w)) as (a1 & Ha1 & Hq1).
  unfold Context_turn. pose proof (recv_cases (w_mail (deliver_w (t_arrive t) w))) as Hr.
  destruct (Mailbox_recv _) as [[|[e|err]] q]; simpl in Hr; rewrite Hq1 in Hr.
  - destruct Hr as [Hnil Hv]. apply app_eq_nil in Hnil as [Hqn ->].
    exists [], [], []. simpl. rewrite Hv, Hq1, Hqn, !app_nil_r.
    split_and!; try done. apply sublist_nil_l.
  - destruct Hr as (q1 & Hq & Hv). set (w0 := set_mail q (deliver_w (t_arrive t) w)).
    destruct (handle_calls e (t_tx_closed t) (t_cut t) (snapshot_w w0)) as (seg & Hc & Hf).
    pose proof (handle_mail handler e (t_tx_closed t) (t_cut t) (snapshot_w w0)) as Hm.
    rewrite handle_envelope_cases.
    destruct (Envelope_handle handler e _ _ (snapshot_w w0)) as [r w1]. simpl in Hc, Hm.
    assert (queue w1 = q1) as Hq1' by (rewrite Hm; simpl; by rewrite Hv).
    destruct r as [x|info|]; [by apply (served_calls t w e q1 a1 seg)| |by apply (served_calls t w e q1 a1 seg)].
    exists a1, [e], [seg]. simpl. rewrite app_nil_r, Hc, Hq1'. split_and!; try done.
    + unfold sent. by apply sublist_inserts_r.
    + by apply Forall2_cons_2; [|constructor].
  - destruct Hr as [Hnil Hv]. apply app_eq_nil in Hnil as [Hqn ->].
    set (w1 := set_state_w Stopped (set_mail q (deliver_w (t_arrive t) w))).
    destruct (after_frame stopping t w1) as [_ (a3 & Ha3 & Hq3)].
    exists a3, [], []. rewrite Hq3, after_calls. unfold w1. rewrite set_state_calls. simpl.
    rewrite Hv, Hq1, Hqn, !app_nil_r. split_and!; [|done|done|constructor].
    unfold sent. by apply sublist_inserts_l, sublist_inserts_l.
Qed.

(** ** The loop *)

Lemma loop_calls sched w :
  exists accepted consumed segs,
    accepted `sublist_of` sched_sent sched /\
    queue w ++ accepted = consumed ++ queue (Context_run_loop handler stopping sched w).2 /\
    calls (w_trace (Context_run_loop handler stopping sched w).2) = calls (w_trace w) ++ concat segs /\
    Forall2 fate consumed segs.
Proof.
  revert w. induction sched as [|t sched IH]; intros w; simpl.
  { exists [], [], []. case_bool_decide; simpl; by rewrite !app_nil_r. }
  case_bool_decide.
  2:{ exists [], [], []. simpl. rewrite !app_nil_r. split_and!; try done. apply sublist_nil_l. }
  destruct (turn_calls t w) as (a1 & c1 & s1 & Hs1 & Hq1 & Hc1 & Hf1).
  destruct (Context_turn handler stopping t w) as [o w1]. simpl in Hq1, Hc1.
  assert (Hs : forall a2, a2 `sublist_of` sched_sent sched ->
                          a1 ++ a2 `sublist_of` sched_sent (t :: sched))
    by (intros; by apply sublist_app).
  destruct o as [|r|info].
  2,3: exists a1, c1, s1; split_and!; try done; rewrite <- (app_nil_r a1); apply Hs, sublist_nil_l.
  destruct (IH w1) as (a2 & c2 & s2 & Hs2 & Hq2 & Hc2 & Hf2).
  exists (a1 ++ a2), (c1 ++ c2), (s1 ++ s2). rewrite Hc2, Hc1, concat_app, <- !app_assoc, <- Hq2.
  split_and!; [by apply Hs| |done|by apply Forall2_app]. by rewrite !app_assoc, Hq1.
Qed.
(** C4. Along any run of the loop, the envelopes taken out of the mailbox are exactly a
    prefix of what was queued followed by what was accepted from other tasks meanwhile, in
    that order; the rest is still queued. The messages handled and the answers sent are, in
    that order too, those of these envelopes, each once: no message is lost, duplicated or
    overtaken, and each answer is what the handler returned for the message that came with
    its channel. Only a context that can be asked to drain discards any. *)
Theorem envelopes_served sched w :
  exists accepted consumed segs,
    accepted `sublist_of` sched_sent sched /\
    queue w ++ accepted = consumed ++ queue (Context_run_loop handler stopping sched w).2 /\
    calls (w_trace (Context_run_loop handler stopping sched w).2) = calls (w_trace w) ++ concat segs /\
    Forall2 fate consumed segs.
Proof. apply loop_calls. Qed.

End Calls.

(** ** The whole life of an actor *)

Section Life.
Context {A E M R D : Type} {chan : Type -> Type} `{HT : TokioMpsc chan} `{HD : DrainPolicy D, !DrainLaws D}.

Abbreviation Ctx := (Context E D).
Abbreviation W := (world A Ctx E M R chan).
Abbreviation code := (ucode A Ctx (ContextOp E)).

Context (hooks : Hooks A Ctx (ContextOp E) E).
Context (handler : Msg M -> code (Reply R)).
Abbreviation loop := (Context_run_loop handler (stopping hooks)).

Implicit Types (w : W).

Lemma exec_hook_calls {X} h (u : code X) w : calls (w_trace (exec_hook h u w).2) = calls (w_trace w).
Proof. unfold exec_hook. by rewrite exec_calls, enter_hook_calls. Qed.

Lemma run_finish_calls caught w : calls (w_trace (run_finish hooks caught w).2) = calls (w_trace w).
Proof.
  unfold run_finish. set (w1 := if bool_decide _ then _ else w).
  assert (Hw : calls (w_trace (drop_mailbox w1)) = calls (w_trace w)).
  { unfold w1. case_bool_decide; [apply (set_state_calls Stopped w)|done]. }
  unfold run_post_stop. destruct caught as [r|info]; [|exact Hw].
  pose proof (exec_hook_calls PostStop (post_stop hooks) (drop_mailbox w1)) as Hx.
  rewrite Hw in Hx. destruct (exec_hook PostStop _ _) as [[] w2]; exact Hx.
Qed.

(** Only the loop opens envelopes: it starts with the mailbox of the actor, and nothing is
    answered before or after it. *)
Lemma spawn_calls sched w w' :
  (ActorContext_spawn hooks loop sched w).2 = w' ->
  calls (w_trace w') = calls (w_trace w) \/
  exists w1, calls (w_trace w1) = calls (w_trace w) /\ w_mail w1 = w_mail w /\
    calls (w_trace w') = calls (w_trace (loop sched w1).2).
Proof.
  unfold ActorContext_spawn, exec_hook. destruct (ctx_take_mailbox (w_ctx w)) as [[] c]; [|intros <-; by left].
  pose proof (exec_hook_calls PreStart (pre_start hooks) (set_ctx c w)) as H1.
  pose proof (exec_mail (pre_start hooks) None (enter_hook PreStart (set_ctx c w))) as M1.
  unfold exec_hook in H1.
  destruct (exec (pre_start hooks) None _) as [[[r|e]|info|] w1]; simpl in H1, M1;
    try (intros <-; by left).
  unfold spawn_task, ActorContext_run, run_to_end, exec_hook.
  set (w2 := ctx_set_state_w Starting w1).
  assert (H2 : calls (w_trace w2) = calls (w_trace w)) by (etransitivity; [apply set_state_calls|exact H1]).
  assert (M2 : w_mail w2 = w_mail w) by (etransitivity; [apply on_ctx_mail|exact M1]).
  pose proof (exec_hook_calls PostStart (post_start hooks) w2) as H3.
  pose proof (exec_mail (post_start hooks) None (enter_hook PostStart w2)) as M3.
  unfold exec_hook in H3.
  destruct (exec (post_start hooks) None _) as [r3 w3]. simpl in H3, M3.
  assert (Hend : forall o w', calls (w_trace (on_ctx (ctx_notify (terminal_event o)) w')) = calls (w_trace w'))
    by (intros; apply (notify_calls _ w'0)).
  assert (Hdrop : forall o, calls (w_trace (on_ctx (ctx_notify (terminal_event o))
     (drop_mailbox (ctx_set_state_w Stopped w3)))) = calls (w_trace w)).
  { intros o. rewrite Hend. etransitivity; [apply (set_state_calls Stopped w3)|exact (eq_trans H3 H2)]. }
  destruct r3 as [[[]|e]|info|]; cbn [catch_unwind];
    [|intros <-; left; apply Hdrop..|intros <-; left; exact (eq_trans H3 H2)].
  intros Hw'. right. exists (ctx_set_state_w Running w3).
  split; [etransitivity; [apply (set_state_calls Running w3)|exact (eq_trans H3 H2)]|].
  split; [etransitivity; [apply on_ctx_mail|exact (eq_trans M3 M2)]|].
  destruct (loop sched _) as [[r4|info|] w4]; [| |by rewrite <- Hw'].
  - pose proof (run_finish_calls (Ok r4) w4) as Hf.
    destruct (run_finish hooks (Ok r4) w4) as [[] w5]; rewrite <- Hw'; simpl in *; [by rewrite Hend|done].
  - pose proof (run_finish_calls (Err info) w4) as Hf.
    destruct (run_finish hooks (Err info) w4) as [[] w5]; rewrite <- Hw'; simpl in *; [by rewrite Hend|done].
Qed.

Lemma start_calls lbl index a sched :
  exists consumed segs, consumed `sublist_of` sched_sent sched /\
    calls (w_trace (start_context (chan := chan) hooks handler lbl index a sched).2) = concat segs /\
    Forall2 (fate (chan := chan) handler) consumed segs.
Proof.
  unfold start_context, Actor_start, Context_new, Context_with_capacity.
  match goal with |- context [ActorContext_spawn _ _ _ ?w] => set (w0 := w) end.
  destruct (spawn_calls sched w0 _ eq_refl) as [->|(w1 & H1 & M1 & ->)].
  { exists [], []. split_and!; [apply sublist_nil_l|done|constructor]. }
  destruct (loop_calls handler (stopping hooks) sched w1) as (acc & consumed & segs & Hs & Hq & Hc & Hf).
  rewrite M1 in Hq. simpl in Hq. rewrite mpsc_channel_law in Hq. simpl in Hq.
  exists consumed, segs. split_and!; [|by rewrite Hc, H1|done].
  etrans; [|exact Hs]. rewrite Hq. by apply sublist_inserts_r.
Qed.
End Life.

(** ** The caller *)

Lemma NoDup_omap_inj {X Y} (f : X -> option Y) l x x' y :
  NoDup (omap f l) -> x ∈ l -> x' ∈ l -> f x = Some y -> f x' = Some y -> x = x'.
Proof.
  intros Hn Hx Hx' E E'. apply list_elem_of_split in Hx as (l1 & l2 & ->).
  rewrite omap_app in Hn. simpl in Hn. rewrite E in Hn.
  apply NoDup_app in Hn as (_ & Hd & Hn). apply NoDup_cons in Hn as [Hn2 _].
  apply elem_of_app in Hx' as [Hx'|[->|Hx']%elem_of_cons]; [|done|].
  - destruct (Hd y); [apply list_elem_of_omap; eauto|set_solver].
  - destruct Hn2. apply list_elem_of_omap. eauto.
Qed.

Lemma NoDup_omap_sublist {X Y} (f : X -> option Y) l l' :
  l `sublist_of` l' -> NoDup (omap f l') -> NoDup (omap f l).
Proof.
  intros Hs Hn. eapply sublist_NoDup; [exact Hn|]. clear Hn.
  induction Hs as [|x l1 l2 _ IH|x l1 l2 _ IH]; simpl; [done|destruct (f x); [by apply sublist_skip|done]|].
  destruct (f x); [by apply sublist_cons|done].
Qed.

Definition out_msg {M} (msg : Outgoing M) : Msg M :=
  match msg with OutPlain m | OutTimed m _ => m end.

Section Caller.
Context {A E M R D : Type} {chan : Type -> Type} `{HT : TokioMpsc chan} `{HD : DrainPolicy D, !DrainLaws D}.
Context {BoxError : Type} {ochan : Type -> Type} `{HO : TokioOneshot ochan}.
(** The error a time budget sends back. *)
Context (elapsed : BoxError).

Abbreviation Ctx := (Context E D).
Abbreviation code := (ucode A Ctx (ContextOp E)).
Abbreviation rx := (ochan (result (Reply R) BoxError)).

Context (hooks : Hooks A Ctx (ContextOp E) E).
Context (handler : Msg M -> code (Reply R)).

Definition is_answer (tx : nat) (ev : Event E M R) : Prop :=
  match ev with EvReply t _ | EvReplyTimeout t => t = tx | _ => False end.

#[local] Instance is_answer_dec tx ev : Decision (is_answer tx ev).
Proof. destruct ev; simpl; apply _. Defined.

(** The channel [tx] after an event: an answer to [tx] goes through [Sender_send], a time
    out through [Sender_send_err]. *)
Definition channel_step (tx : nat) (c : rx) (ev : Event E M R) : rx :=
  match ev with
  | EvReply t r =>
      if bool_decide (t = tx) then match Sender_send r c with Done (_, c) => c | Panicked _ => c end else c
  | EvReplyTimeout t =>
      if bool_decide (t = tx) then match Sender_send_err elapsed c with Done (_, c) => c | Panicked _ => c end
      else c
  | _ => c
  end.

(** The response sender lives in its envelope: as long as that waits in the mailbox of an
    actor whose task runs, it is kept. It is used when the handler answers, and dropped with
    the envelope when the handler panics, when the envelope is skipped or discarded, and when
    the task ends and its mailbox with it. *)
Definition tx_kept (tx : nat) (o : run_out E) (w : world A Ctx E M R chan) : Prop :=
  o = RunWaiting /\ Some tx ∈ env_tx <$> cv_queue (mpsc_view (w_mail w)).

#[local] Instance sender_kept_dec tx o w : Decision (tx_kept tx o w).
Proof using Type.
  unfold tx_kept. apply and_dec; [destruct o; [by right|by left]|apply _].
Defined.

(** The channel of a caller who tried to receive [sts] before, when the actor is at [w]. *)
Definition caller_channel (tx : nat) (sts : list RecvStep) (o : run_out E) (w : world A Ctx E M R chan) : rx :=
  let c := fold_left (channel_step tx) (w_trace w)
             (fold_left (fun c st => (recv_step st c).2) sts oneshot_channel) in
  if decide (tx_kept tx o w) then c else oneshot_drop_sender c.

Lemma channel_answers tx tr c :
  fold_left (channel_step tx) tr c = fold_left (channel_step tx) (filter (is_answer tx) tr) c.
Proof.
  revert c. induction tr as [|ev tr IH]; intros c; [done|]. rewrite filter_cons. simpl. rewrite IH.
  case_decide as Ha; [done|]. f_equal. destruct ev; simpl in *; try done; by rewrite bool_decide_false.
Qed.

Lemma answers_calls tx (tr : list (Event E M R)) : filter (is_answer tx) (calls tr) = filter (is_answer tx) tr.
Proof.
  unfold calls. induction tr as [|ev tr IH]; [done|].
  rewrite !(filter_cons _ ev tr). destruct ev; simpl; rewrite ?filter_cons, ?IH; done.
Qed.

(** The answer an envelope leaves goes to its own channel. *)
Lemma fate_answers e seg tx :
  fate (chan := chan) handler e seg -> env_tx e ≠ Some tx -> filter (is_answer tx) seg = [].
Proof.
  intros Hf Ht.
  destruct Hf; try (by rewrite !filter_cons, !decide_False by (simpl; tauto || congruence)); done.
Qed.

(** Why an envelope that was taken out of the mailbox gets no answer. *)
Definition unanswered (m : Msg M) (tr : list (Event E M R)) : Prop :=
  EvSkip m ∈ tr \/
  (exists cut (w w' : world A Ctx E M R chan) info, exec (handler m) cut w = (UPanicked info, w')) \/
  is_some (dp_drain_mailbox (State := D)) = true.

Lemma fate_answer e seg tx m :
  fate (chan := chan) handler e seg -> env_tx e = Some tx -> env_msg e = Some m ->
  (filter (is_answer tx) seg = [] /\ unanswered m seg) \/
  (exists r cut (w w' : world A Ctx E M R chan), (env_timed e = false -> cut = None) /\
     exec (handler m) cut w = (UDone r, w') /\ filter (is_answer tx) seg = [EvReply tx r]) \/
  (exists cut (w w' : world A Ctx E M R chan), env_timed e = true /\
     exec (handler m) cut w = (UTimedOut, w') /\ filter (is_answer tx) seg = [EvReplyTimeout tx]).
Proof.
  intros Hf Ht Hm. unfold unanswered.
  destruct Hf as [|m' tx'|m' tx' cut w r w' Hm' Ht'|m' tx' cut w w' Hm' Ht'|m' cut w info w'| |];
    simplify_eq; try congruence.
  - left. split; [done|]. left. left.
  - right. left. exists r, cut, w, w'.
    split_and!; try done. by rewrite filter_cons_False, filter_cons_True by (done || auto).
  - right. right. exists cut, w, w'.
    split_and!; try done. by rewrite filter_cons_False, filter_cons_True by (done || auto).
  - left. split; [by rewrite filter_cons_False by auto|]. right. left. eauto 10.
  - left. split; [done|]. auto.
Qed.

(** The answers to a channel come from the one envelope it was sent with. *)
Lemma answers_of_segs tx consumed segs :
  NoDup (omap env_tx consumed) -> Forall2 (fate (chan := chan) handler) consumed segs ->
  (tx ∉ omap env_tx consumed /\ filter (is_answer tx) (concat segs) = []) \/
  exists e seg, e ∈ consumed /\ seg ∈ segs /\ env_tx e = Some tx /\ fate (chan := chan) handler e seg /\
    filter (is_answer tx) (concat segs) = filter (is_answer tx) seg.
Proof.
  intros Hn HF. induction HF as [|e seg consumed segs Hf HF IH]; [left; set_solver|]. simpl in *.
  rewrite filter_app. destruct (decide (env_tx e = Some tx)) as [Et|Et].
  - right. exists e, seg. rewrite Et in Hn. apply NoDup_cons in Hn as [Hn _].
    split_and!; [left|left|done|done|].
    assert (Hz : filter (is_answer tx) (concat segs) = []); [|by rewrite Hz, app_nil_r].
    clear IH. induction HF as [|e' seg' consumed segs Hf' HF IH]; [done|]. simpl in *. rewrite filter_app.
    rewrite (fate_answers e' seg' tx Hf'); [|intros E'; rewrite E' in Hn; set_solver].
    apply IH. destruct (env_tx e'); set_solver.
  - rewrite (fate_answers e seg tx Hf Et).
    destruct IH as [[Hc IH]|(e' & seg' & He & Hs & IH)].
    + destruct (env_tx e); [by apply NoDup_cons in Hn as [_ Hn]|done].
    + left. split; [|done]. destruct (env_tx e); set_solver.
    + right. exists e', seg'. split; [by right|]. split; [by right|done].
Qed.

Lemma run_finish_queue caught (w : world A Ctx E M R chan) :
  cv_queue (mpsc_view (w_mail (run_finish hooks caught w).2)) = cv_queue (mpsc_view (w_mail w)).
Proof.
  unfold run_finish. set (w1 := if bool_decide _ then _ else w).
  assert (Hw : cv_queue (mpsc_view (w_mail (drop_mailbox w1))) = cv_queue (mpsc_view (w_mail w))).
  { unfold drop_mailbox. simpl. rewrite mpsc_close_law. unfold w1. by case_bool_decide. }
  unfold run_post_stop. destruct caught as [r|info]; [|exact Hw]. unfold exec_hook.
  pose proof (exec_mail (post_stop hooks) None (enter_hook PostStop (drop_mailbox w1))) as Hx.
  destruct (exec (post_stop hooks) None _) as [[] w2]; simpl in *; by rewrite Hx.
Qed.

(** The rest of a life, from the mailbox and the trace it starts with. *)
Lemma run_to_end_calls sched (w : world A Ctx E M R chan) :
  let w' := (run_to_end hooks (Context_run_loop handler (stopping hooks)) sched w).2 in
  exists accepted consumed segs,
    accepted `sublist_of` sched_sent sched /\
    cv_queue (mpsc_view (w_mail w)) ++ accepted = consumed ++ cv_queue (mpsc_view (w_mail w')) /\
    calls (w_trace w') = calls (w_trace w) ++ concat segs /\
    Forall2 (fate (chan := chan) handler) consumed segs.
Proof.
  destruct (loop_calls handler (stopping hooks) sched w) as (acc & consumed & segs & Hs & Hq & Hc & Hf).
  unfold run_to_end. destruct (Context_run_loop handler (stopping hooks) sched w) as [[r|info|] w1].
  - exists acc, consumed, segs. by rewrite run_finish_queue, run_finish_calls.
  - exists acc, consumed, segs. by rewrite run_finish_queue, run_finish_calls.
  - by exists acc, consumed, segs.
Qed.

Lemma fresh_pending (c : rx) : os_fresh (oneshot_view_of c) -> (OneshotReceiver_poll c).1 = Pending.
Proof.
  unfold os_fresh. intros Hv. unfold OneshotReceiver_poll. pose proof (oneshot_poll_law c) as Hl.
  destruct (oneshot_poll c) as [[|r] c']; unfold ov_poll in Hl; rewrite Hv in Hl; by simplify_eq/=.
Qed.

Lemma fresh_closed (c : rx) :
  os_fresh (oneshot_view_of c) -> (OneshotReceiver_poll (oneshot_drop_sender c)).1 = Ready (Err RecvClosed).
Proof.
  unfold os_fresh. intros Hv. unfold OneshotReceiver_poll. pose proof (oneshot_poll_law (oneshot_drop_sender c)) as Hl.
  destruct (oneshot_poll (oneshot_drop_sender c)) as [[|r] c']; unfold ov_poll in Hl;
    rewrite oneshot_drop_sender_law, Hv in Hl; by simplify_eq/=.
Qed.

(** Dropping the sender after it was used changes nothing. *)
Lemma answered_drop (c : rx) v : os_value (oneshot_view_of c) = Some v ->
  (OneshotReceiver_poll (oneshot_drop_sender c)).1 = (OneshotReceiver_poll c).1.
Proof.
  intros Hv. unfold OneshotReceiver_poll.
  pose proof (oneshot_poll_law (oneshot_drop_sender c)) as Hl. pose proof (oneshot_poll_law c) as Hl'.
  destruct (oneshot_poll (oneshot_drop_sender c)) as [[|r] c1], (oneshot_poll c) as [[|r'] c2];
    unfold ov_poll in *; rewrite oneshot_drop_sender_law in Hl; simpl in Hl; rewrite Hv in *; by simplify_eq/=.
Qed.

(** What the caller of a message gets, by the answers that were sent to its channel. *)
Lemma caller_receives tx sts o w :
  (OneshotReceiver_poll (caller_channel tx sts o w)).1 =
    match filter (is_answer tx) (w_trace w) with
    | [] => if decide (tx_kept tx o w) then Pending else Ready (Err RecvClosed)
    | [EvReply _ r] => Ready (Ok r)
    | [EvReplyTimeout _] => Ready (Err (RecvOther elapsed))
    | _ => (OneshotReceiver_poll (caller_channel tx sts o w)).1
    end.
Proof.
  destruct (filter (is_answer tx) (w_trace w)) as [|ev [|? ?]] eqn:Ef; [| |by destruct ev];
    unfold caller_channel; rewrite channel_answers, Ef; set (c0 := fold_left _ sts oneshot_channel);
    (assert (os_fresh (oneshot_view_of c0)) as Hf by apply recv_steps_fresh, oneshot_channel_law).
  - simpl. case_decide; [by apply fresh_pending|by apply fresh_closed].
  - assert (is_answer tx ev) as Ha.
    { assert (ev ∈ filter (is_answer tx) (w_trace w)) as [? _]%list_elem_of_filter; [|done]. rewrite Ef. left. }
    destruct ev; try done; simpl in *; subst; rewrite bool_decide_true by done.
    + destruct (response_is_delivered (BoxError := BoxError) sts StepPoll (Ok r)) as (c' & Hs & Hr).
      pose proof (sent_value _ (Ok r) _ Hs) as Hv. fold c0 in Hs. rewrite Hs. case_decide; [exact Hr|]. by rewrite (answered_drop c' _ Hv).
    + destruct (response_is_delivered (T := Reply R) sts StepPoll (Err elapsed)) as (c' & Hs & Hr).
      pose proof (sent_value _ (Err elapsed) _ Hs) as Hv. fold c0 in Hs. rewrite Hs. case_decide; [exact Hr|]. by rewrite (answered_drop c' _ Hv).
Qed.

End Caller.

(** ** A call, as witness *)

(** The sample actor of LifecycleTheorems.v answers a number with itself; the caller sends
    it one through its address. *)
Definition w_call_mail : chan_view (Envelope nat) :=
  match LocalAddress_blocking_send (H0 := false) (BoxError := string) (OutPlain (MsgUser 3)) []
          (mkSendState (mpsc_channel 8) 5) with
  | Done (_, s) => ss_chan s
  | Panicked _ => mpsc_channel 8
  end.

Definition w_call_world : world nat (Context string unit) string nat nat chan_view :=
  mkWorld 0 (mkContext "a" Running (ActorId_new 7) false tt None None) w_call_mail [].

Abbreviation w_call_life h := (run_to_end sample_hooks (Context_run_loop h (stopping sample_hooks))
  [mkTurn [] false None [] []] w_call_world).

(** A handler that panics on every number. *)
Definition panic_handler (m : Msg nat) : ucode nat (Context string unit) (ContextOp string) (Reply nat) :=
  UPanic (PanicString "boom").


(** An actor that is asked to drain when it handles the first of three queued numbers: it
    answers that one and the two others are discarded. *)
Definition drain_handler (m : Msg nat) : ucode nat (Context string DrainState) (ContextOp string) (Reply nat) :=
  UOp OpDrainMailbox (dispatch (fun n => URet n) m).

Definition drain_world : world nat (Context string DrainState) string nat nat chan_view :=
  mkWorld 0 (mkContext "drains" Running (ActorId_new 7) true DrainState_default None None)
    (ChanView [pack (MsgUser 3) (Some 0); pack (MsgUser 4) (Some 1); pack (MsgUser 5) (Some 2)] 8 0 1 false) [].

Lemma envelopes_served_witness :
  let w' := (Context_run_loop drain_handler (URet (Ok Continue)) [quiet_turn] drain_world).2 in
  calls (w_trace w') = [EvHandle (MsgUser 3); EvReply 0 (ReplyUser 3)] /\ cv_queue (w_mail w') = [] /\
  exists accepted consumed segs,
    accepted `sublist_of` sched_sent [quiet_turn] /\
    cv_queue (w_mail drain_world) ++ accepted = consumed ++ cv_queue (w_mail w') /\
    calls (w_trace w') = [] ++ concat segs /\ Forall2 (fate (chan := chan_view) drain_handler) consumed segs.
Proof.
  split; [reflexivity|]. split; [reflexivity|].
  exact (envelopes_served drain_handler (URet (Ok Continue)) [quiet_turn] drain_world).
Defined.
