(* ===== verification/Response.v ===== *)
(** * Message responses

    Models the implementations of [MessageResponse] in acktor/src/message.rs (values and
    [Result]s), message/result.rs, message/future_result.rs and the derived one of
    acktor-derive/src/message_response.rs: what a handler's return value does with the
    response channel. A spawned task is returned to whoever runs it. *)

From S2P Require Import Prelude Tokio ActorTypes UserCode Address AddressTheorems.

Section Response.
Context {BoxError : Type} {chan : Type -> Type} `{TokioOneshot chan}.

(** The impls of scalars, [String], [Option], [Box], [Arc] and [Vec]:
    [if let Some(tx) = tx { let _ = tx.send(self); }]. *)
Definition value_handle {T} (self : T) (tx : option (chan (result T BoxError)))
    : outcome (option (chan (result T BoxError))) :=
  match tx with
  | Some c => let! (_, c) := Sender_send self c in Done (Some c)
  | None => Done None
  end.

(** The handler that [#[derive(MessageResponse)]] generates. *)
Definition derived_handle {T} (self : T) (tx : option (chan (result T BoxError)))
    : outcome (option (chan (result T BoxError))) :=
  match tx with
  | Some c => let! (_, c) := Sender_send self c in Done (Some c)
  | None => Done None
  end.

(** [MessageResponse for Result<T, E>], with the lines it logs. *)
Definition Result_handle {V E} (report : E -> string) (self : result V E)
    (tx : option (chan (result (result V E) BoxError)))
    : outcome (option (chan (result (result V E) BoxError)) * list string) :=
  match tx with
  | Some c =>
      let! (sent, c) := Sender_send self c in
      Done (Some c, match sent with Err (SendClosed (Err e)) => [report e] | _ => [] end)
  | None => Done (None, [])
  end.

(** [MessageResult]. *)
Record MessageResult (T : Type) : Type := mkMessageResult { mres_0 : T }.
Arguments mkMessageResult {T} _.
Arguments mres_0 {T} _.

Definition MessageResult_handle {T} (self : MessageResult T) (tx : option (chan (result T BoxError)))
    : outcome (option (chan (result T BoxError))) :=
  match tx with
  | Some c => let! (_, c) := Sender_send (mres_0 self) c in Done (Some c)
  | None => Done None
  end.

(** [FutureMessageResult]: [handle] spawns a task that owns the channel; [future] is the
    future it wraps, by its successive polls. *)
Record FutureTask (T : Type) : Type := mkFutureTask {
  ft_future : list (Poll T);
  ft_tx : option (chan (result T BoxError));
}.
Arguments mkFutureTask {T} _ _.
Arguments ft_future {T} _.
Arguments ft_tx {T} _.

Definition FutureMessageResult_handle {T} (future : list (Poll T)) (tx : option (chan (result T BoxError)))
    : FutureTask T := mkFutureTask future tx.

(** The task: [let result = self.future.await; if let Some(tx) = tx { let _ = tx.send(result); }].
    [None] while the future is pending. *)
Fixpoint future_await {T} (polls : list (Poll T)) : option T :=
  match polls with
  | [] => None
  | Ready t :: _ => Some t
  | Pending :: polls => future_await polls
  end.

Definition FutureTask_run {T} (task : FutureTask T)
    : option (outcome (option (chan (result T BoxError)))) :=
  match future_await (ft_future task) with
  | Some result =>
      Some match ft_tx task with
           | Some c => let! (_, c) := Sender_send result c in Done (Some c)
           | None => Done None
           end
  | None => None
  end.

(** ** Every response *)

(** The ways a handler answers with a [T] that is a [Result]. *)
Inductive Answered : Type := AnsValue | AnsDerived | AnsResult | AnsMessageResult | AnsFuture (polls : nat).

Definition answer {V E} (report : E -> string) (how : Answered) (t : result V E)
    (tx : option (chan (result (result V E) BoxError)))
    : outcome (option (chan (result (result V E) BoxError)) * list string) :=
  match how with
  | AnsValue => let! tx := value_handle t tx in Done (tx, [])
  | AnsDerived => let! tx := derived_handle t tx in Done (tx, [])
  | AnsResult => Result_handle report t tx
  | AnsMessageResult => let! tx := MessageResult_handle (mkMessageResult t) tx in Done (tx, [])
  | AnsFuture polls =>
      match FutureTask_run (FutureMessageResult_handle (replicate polls Pending ++ [Ready t]) tx) with
      | Some o => let! tx := o in Done (tx, [])
      | None => Panicked "the future is not done"
      end
  end.

Lemma future_await_done {T} n (t : T) : future_await (replicate n Pending ++ [Ready t]) = Some t.
Proof. induction n; done. Qed.

(** Every way does the same with the channel; a [Result] also logs the error nobody receives. *)
Lemma answer_spec {V E} (report : E -> string) how (t : result V E) tx :
  answer report how t tx =
    match tx with
    | Some c =>
        let! (sent, c) := Sender_send t c in
        Done (Some c, match how, sent with AnsResult, Err (SendClosed (Err e)) => [report e] | _, _ => [] end)
    | None => Done (None, [])
    end.
Proof.
  unfold answer, value_handle, derived_handle, Result_handle, MessageResult_handle, FutureTask_run.
  destruct how; cbn [ft_future ft_tx FutureMessageResult_handle mres_0]; rewrite ?future_await_done;
    destruct tx as [c|]; cbn; try done; by destruct (Sender_send t c) as [[? ?]|].
Qed.

(** C37. Whatever way a handler answers, now or from a task of its own, and however many
    receives came too early: the answer does not panic and the next receive returns the
    value; when nobody waits any more it is dropped, and an error in it is logged; without
    a channel nothing happens. *)
Theorem responses_arrive {V E} (report : E -> string) how (t : result V E) (sts : list RecvStep) st :
  let c : chan (result (result V E) BoxError) :=
    fold_left (fun c st => (recv_step st c).2) sts oneshot_channel in
  (exists c', answer report how t (Some c) = Done (Some c', []) /\ (recv_step st c').1 = Ready (Ok t)) /\
  (exists c', answer report how t (Some (OneshotReceiver_close c)) =
     Done (Some c', match how, t with AnsResult, Err e => [report e] | _, _ => [] end)) /\
  answer report how t None = Done (None, []).
Proof.
  intros c. rewrite !answer_spec. split; [|split; [|done]].
  - destruct (response_is_delivered (BoxError := BoxError) sts st (Ok t)) as (c' & Hs & Hr). fold c in Hs. exists c'.
    rewrite Hs. split; [|done]. simpl. by destruct how.
  - destruct (proj1 (response_to_nobody c) t) as (c' & Hs). exists c'.
    rewrite Hs. simpl. by destruct how, t.
Qed.
End Response.
