(* ===== verification/WireLibs.v ===== *)
(** * What the codecs rely on of bytes, zerocopy and prost

    The three crates are not part of the repository. They are parameters of the model: the
    operations the codecs call, with the laws that state their documented behaviour. A
    buffer received from a peer is a slice of memory, so it has an address as well as
    contents: zerocopy refuses to view misaligned bytes as a slice of wider integers. The
    instances that close the file show that the laws can be met. *)

From S2P Require Import Prelude.

(** ** Bytes and integers in memory *)

(** An integer type: its size in bytes and whether it is signed. *)
Record IntTy : Type := mkIntTy {
  it_size : nat;
  it_signed : bool;
}.

#[global] Instance IntTy_eq_dec : EqDecision IntTy.
Proof. solve_decision. Defined.

Definition it_bits (t : IntTy) : Z := (8 * Z.of_nat (it_size t))%Z.

Definition in_range (t : IntTy) (z : Z) : Prop :=
  if it_signed t then in_s (it_bits t) z else in_u (it_bits t) z.

#[global] Instance in_range_dec t z : Decision (in_range t z).
Proof. unfold in_range. destruct (it_signed t); apply _. Defined.

Definition u8 : IntTy := mkIntTy 1 false.
Definition u32 : IntTy := mkIntTy 4 false.
Definition u64 : IntTy := mkIntTy 8 false.
Definition i32 : IntTy := mkIntTy 4 true.
Definition i64 : IntTy := mkIntTy 8 true.

(** Little-endian bytes of the low [8 * n] bits, and back. *)
Fixpoint le_bytes (n : nat) (z : Z) : list Z :=
  match n with
  | 0 => []
  | S n => (z mod 256)%Z :: le_bytes n (z / 256)
  end.

Fixpoint from_le (l : list Z) : Z :=
  match l with
  | [] => 0
  | b :: l => (b + 256 * from_le l)%Z
  end.

(** What memory holds. *)
Definition is_bytes (l : list Z) : Prop := Forall (fun b => (0 <= b < 256)%Z) l.

Definition int_bytes (t : IntTy) (z : Z) : list Z := le_bytes (it_size t) z.

Definition int_of_bytes (t : IntTy) (l : list Z) : Z :=
  if it_signed t then wrap_s (it_bits t) (from_le l) else from_le l.

(** A byte sequence cut in chunks of [n]; [fuel] bounds the number of chunks. *)
Fixpoint chunks (fuel n : nat) (l : list Z) : list (list Z) :=
  match fuel, l with
  | S fuel, _ :: _ => take n l :: chunks fuel n (drop n l)
  | _, _ => []
  end.

Definition ints_of_bytes (t : IntTy) (l : list Z) : list Z :=
  int_of_bytes t <$> chunks (length l) (it_size t) l.

(** ** UTF-8 (what [String] guarantees and [String::from_utf8] checks) *)

Definition utf8_cont (b : Z) : bool := ((128 <=? b) && (b <=? 191))%Z.

Definition in_byte_range (lo hi b : Z) : bool := ((lo <=? b) && (b <=? hi))%Z.

Fixpoint utf8_valid (l : list Z) : bool :=
  match l with
  | [] => true
  | b0 :: l1 =>
      if in_byte_range 0 127 b0 then utf8_valid l1
      else match l1 with
      | [] => false
      | b1 :: l2 =>
          if in_byte_range 194 223 b0 then utf8_cont b1 && utf8_valid l2
          else match l2 with
          | [] => false
          | b2 :: l3 =>
              if in_byte_range 224 239 b0 then
                in_byte_range (if b0 =? 224 then 160 else 128)%Z
                              (if b0 =? 237 then 159 else 191)%Z b1 &&
                utf8_cont b2 && utf8_valid l3
              else match l3 with
              | [] => false
              | b3 :: l4 =>
                  in_byte_range 240 244 b0 &&
                  in_byte_range (if b0 =? 240 then 144 else 128)%Z
                                (if b0 =? 244 then 143 else 191)%Z b1 &&
                  utf8_cont b2 && utf8_cont b3 && utf8_valid l4
              end
          end
      end
  end.

(** ** The crates *)

(** [bytes::Bytes]: a shared slice. Splitting keeps the memory where it is. *)
Class BytesCrate (B : Type) : Type := {
  bytes_addr : B -> Z;
  bytes_data : B -> list Z;
  bytes_freeze : list Z -> B;
  bytes_split_to : nat -> B -> outcome (B * B);
  bytes_freeze_law l : bytes_data (bytes_freeze l) = l;
  bytes_split_to_law n b :
    n <= length (bytes_data b) ->
    exists h t, bytes_split_to n b = Done (h, t) /\
      bytes_data h = take n (bytes_data b) /\ bytes_data t = drop n (bytes_data b) /\
      bytes_addr h = bytes_addr b /\ bytes_addr t = (bytes_addr b + Z.of_nat n)%Z;
}.

(** zerocopy: the bytes of an integer on a little-endian target, a copy of an integer out
    of a buffer of exactly its size, and a view of a buffer as a slice of integers, which
    fails when the address is not a multiple of the type's alignment or the length not a
    multiple of its size. *)
Class ZerocopyCrate (B : Type) `{BytesCrate B} : Type := {
  align_of : IntTy -> Z;
  as_bytes : IntTy -> Z -> list Z;
  read_from_bytes : IntTy -> B -> result Z string;
  ref_from_bytes : IntTy -> B -> result (list Z) string;
  align_of_pos t : (0 < align_of t)%Z;
  as_bytes_law t z : as_bytes t z = int_bytes t z;
  read_from_bytes_law t b :
    if bool_decide (length (bytes_data b) = it_size t)
    then read_from_bytes t b = Ok (int_of_bytes t (bytes_data b))
    else exists e, read_from_bytes t b = Err e;
  ref_from_bytes_law t b :
    0 < it_size t ->
    if bool_decide ((bytes_addr b mod align_of t = 0)%Z /\
                    (Z.of_nat (length (bytes_data b)) mod Z.of_nat (it_size t) = 0)%Z)
    then ref_from_bytes t b = Ok (ints_of_bytes t (bytes_data b))
    else exists e, ref_from_bytes t b = Err e;
}.

(** prost: varints, and the encoding of a message type generated from a .proto file. *)
Class ProstVarint : Type := {
  prost_encode_varint : Z -> list Z;
  prost_encoded_len_varint : Z -> nat;
  prost_varint_len z :
    in_u 64 z -> length (prost_encode_varint z) = prost_encoded_len_varint z;
}.

Class ProstMessage (B T : Type) `{BytesCrate B} : Type := {
  pm_encoded_len : T -> nat;
  pm_encode : T -> list Z;
  pm_decode : B -> result T string;
  pm_valid : T -> Prop;
  pm_len_law m : pm_valid m -> length (pm_encode m) = pm_encoded_len m;
  pm_decode_law m b : pm_valid m -> bytes_data b = pm_encode m -> pm_decode b = Ok m;
}.

(** The two generated messages whose encoding the codecs write by hand: an optional bytes
    field with tag 1, and a oneof of bytes (tag 1) and a string (tag 2). *)
Class ProstWrappers (B : Type) `{BytesCrate B} `{ProstVarint} : Type := {
  proto_option_decode : B -> result (option B) string;
  proto_result_decode : B -> result (option (result B (list Z))) string;
  proto_option_none b : bytes_data b = [] -> proto_option_decode b = Ok None;
  proto_option_some b l :
    in_u 64 (Z.of_nat (length l)) ->
    bytes_data b = [10%Z] ++ prost_encode_varint (Z.of_nat (length l)) ++ l ->
    exists b', proto_option_decode b = Ok (Some b') /\ bytes_data b' = l;
  proto_result_none b : bytes_data b = [] -> proto_result_decode b = Ok None;
  proto_result_ok b l :
    in_u 64 (Z.of_nat (length l)) ->
    bytes_data b = [10%Z] ++ prost_encode_varint (Z.of_nat (length l)) ++ l ->
    exists b', proto_result_decode b = Ok (Some (Ok b')) /\ bytes_data b' = l;
  proto_result_err b l :
    in_u 64 (Z.of_nat (length l)) -> utf8_valid l = true ->
    bytes_data b = [18%Z] ++ prost_encode_varint (Z.of_nat (length l)) ++ l ->
    proto_result_decode b = Ok (Some (Err l));
}.

(** ** Lemmas on integers in memory *)

Lemma length_le_bytes n z : length (le_bytes n z) = n.
Proof. revert z. induction n; intros z; simpl; auto. Qed.

Lemma from_le_bytes n z : from_le (le_bytes n z) = (z mod 2 ^ (8 * Z.of_nat n))%Z.
Proof.
  revert z. induction n as [|n IH]; intros z; simpl.
  - by rewrite Z.mod_1_r.
  - rewrite IH. replace (8 * Z.of_nat (S n))%Z with (8 + 8 * Z.of_nat n)%Z by lia.
    rewrite Z.pow_add_r by lia. change (2 ^ 8)%Z with 256%Z.
    rewrite (Z.rem_mul_r z 256 (2 ^ (8 * Z.of_nat n))); [done|lia|].
    apply Z.pow_pos_nonneg; lia.
Qed.

Lemma int_of_int_bytes t z :
  0 < it_size t -> in_range t z -> int_of_bytes t (int_bytes t z) = z.
Proof.
  unfold in_range, int_of_bytes, int_bytes. intros Hs Hr. rewrite from_le_bytes.
  fold (it_bits t). assert (0 < it_bits t)%Z by (unfold it_bits; lia).
  destruct (it_signed t); [|by apply (wrap_u_id (it_bits t))].
  rewrite <- (wrap_s_id (it_bits t) z) at 2 by done.
  unfold wrap_s. f_equal. by rewrite Zplus_mod_idemp_l.
Qed.

Lemma length_int_bytes t z : length (int_bytes t z) = it_size t.
Proof. apply length_le_bytes. Qed.

Lemma chunks_concat n ls fuel :
  0 < n -> Forall (fun l => length l = n) ls -> length (concat ls) <= fuel ->
  chunks fuel n (concat ls) = ls.
Proof.
  intros Hn Hf. revert fuel. induction Hf as [|l ls Hl Hf IH]; intros fuel Hlen; simpl in *.
  - by destruct fuel.
  - destruct l as [|x l]; [simpl in *; lia|]. rewrite length_app in Hlen.
    destruct fuel as [|fuel]; [simpl in Hlen; lia|]. simpl (chunks _ _ _).
    change (x :: l ++ concat ls) with ((x :: l) ++ concat ls).
    rewrite <- Hl, take_app_length, drop_app_length. f_equal.
    rewrite Hl. apply IH. simpl in Hlen. lia.
Qed.

Lemma ints_of_int_bytes t zs :
  0 < it_size t -> Forall (in_range t) zs ->
  ints_of_bytes t (concat (int_bytes t <$> zs)) = zs.
Proof.
  intros Hs Hf. unfold ints_of_bytes.
  rewrite chunks_concat; [|done| |done].
  - induction Hf as [|z zs Hz Hf IH]; [done|]. rewrite !fmap_cons.
    by rewrite int_of_int_bytes, IH.
  - apply Forall_fmap, Forall_true. intros z. apply length_int_bytes.
Qed.

Lemma length_concat_int_bytes t zs :
  length (concat (int_bytes t <$> zs)) = length zs * it_size t.
Proof.
  induction zs as [|z zs IH]; [done|].
  rewrite fmap_cons. cbn [concat length]. rewrite length_app, length_int_bytes, IH. lia.
Qed.

(** ** Instances *)

(** A slice: its address and contents. *)
Record slice : Type := mkSlice { sl_addr : Z; sl_data : list Z }.

(** Text as bytes, one per character. *)
Definition string_bytes (s : string) : list Z :=
  (fun c => Z.of_N (Ascii.N_of_ascii c)) <$> String.list_ascii_of_string s.

Definition bytes_string (l : list Z) : string :=
  String.string_of_list_ascii ((fun z => Ascii.ascii_of_N (Z.to_N z)) <$> l).

Lemma bytes_string_bytes s : bytes_string (string_bytes s) = s.
Proof.
  unfold bytes_string, string_bytes. rewrite <- (String.string_of_list_ascii_of_string s) at 2.
  f_equal. rewrite <- list_fmap_compose.
  rewrite <- (list_fmap_id (String.list_ascii_of_string s)) at 2. apply list_fmap_ext.
  intros i c _. simpl. by rewrite N2Z.id, Ascii.ascii_N_embedding.
Qed.

(** Every allocation starts at a multiple of sixteen. *)
#[global, program] Instance slice_bytes : BytesCrate slice := {|
  bytes_addr := sl_addr;
  bytes_data := sl_data;
  bytes_freeze := mkSlice 16;
  bytes_split_to n b :=
    if bool_decide (n <= length (sl_data b)) then
      Done (mkSlice (sl_addr b) (take n (sl_data b)),
            mkSlice (sl_addr b + Z.of_nat n) (drop n (sl_data b)))
    else Panicked "split_to out of bounds";
|}.
Next Obligation. done. Qed.
Next Obligation.
  intros n b Hn. simpl. case_bool_decide; [|done]. eexists _, _. done.
Qed.

(** The alignment of an integer is its size, as on x86-64. *)
#[global, program] Instance slice_zerocopy : ZerocopyCrate slice := {|
  align_of t := Z.max 1 (Z.of_nat (it_size t));
  as_bytes := int_bytes;
  read_from_bytes t b :=
    if bool_decide (length (bytes_data b) = it_size t)
    then Ok (int_of_bytes t (bytes_data b)) else Err "size mismatch";
  ref_from_bytes t b :=
    if bool_decide ((bytes_addr b mod Z.max 1 (Z.of_nat (it_size t)) = 0)%Z /\
                    (Z.of_nat (length (bytes_data b)) mod Z.of_nat (it_size t) = 0)%Z)
    then Ok (ints_of_bytes t (bytes_data b)) else Err "cast error";
|}.
Next Obligation. intros. lia. Qed.
Next Obligation. done. Qed.
Next Obligation. intros t b. simpl. destruct (bool_decide _); eauto. Qed.
Next Obligation. intros t b _. simpl. destruct (bool_decide _); eauto. Qed.

(** LEB128. *)
Fixpoint varint_enc (fuel : nat) (z : Z) : list Z :=
  match fuel with
  | 0 => []
  | S fuel => if (z <? 128)%Z then [z] else (z mod 128 + 128)%Z :: varint_enc fuel (z / 128)
  end.

Fixpoint varint_dec (l : list Z) : option (Z * list Z) :=
  match l with
  | [] => None
  | b :: l =>
      if (b <? 128)%Z then Some (b, l)
      else match varint_dec l with
           | Some (v, l) => Some (b - 128 + 128 * v, l)%Z
           | None => None
           end
  end.

Lemma varint_dec_cons b l :
  varint_dec (b :: l) =
    if (b <? 128)%Z then Some (b, l)
    else match varint_dec l with Some (v, l') => Some (b - 128 + 128 * v, l')%Z | None => None end.
Proof. done. Qed.

Lemma varint_enc_S fuel z :
  varint_enc (S fuel) z =
    if (z <? 128)%Z then [z] else (z mod 128 + 128)%Z :: varint_enc fuel (z / 128).
Proof. done. Qed.

Lemma varint_dec_enc fuel z rest :
  (0 <= z < 128 ^ Z.of_nat (S fuel))%Z ->
  varint_dec (varint_enc (S fuel) z ++ rest) = Some (z, rest).
Proof.
  revert z. induction fuel as [|fuel IH]; intros z Hz; rewrite varint_enc_S;
    destruct (z <? 128)%Z eqn:E.
  - simpl. by rewrite E.
  - simpl in Hz. apply Z.ltb_ge in E. lia.
  - simpl. by rewrite E.
  - rewrite <- app_comm_cons, varint_dec_cons.
    assert (0 <= z mod 128 < 128)%Z by (apply Z.mod_pos_bound; lia).
    rewrite (proj2 (Z.ltb_ge _ 128)) by lia. rewrite IH.
    + f_equal. f_equal. pose proof (Z.div_mod z 128). lia.
    + apply Z.ltb_ge in E. split; [apply Z.div_pos; lia|].
      apply Z.div_lt_upper_bound; [lia|].
      rewrite (Nat2Z.inj_succ (S fuel)), Z.pow_succ_r in Hz by lia. lia.
Qed.

#[global, program] Instance leb128_varint : ProstVarint := {|
  prost_encode_varint := varint_enc 10;
  prost_encoded_len_varint z := length (varint_enc 10 z);
|}.
Next Obligation. done. Qed.

(** Fields read by tag; only the shapes the codecs produce are accepted. *)
Definition slice_field (b : slice) : option (Z * slice) :=
  match sl_data b with
  | [] => None
  | tag :: l =>
      match varint_dec l with
      | Some (n, l') =>
          if bool_decide (Z.of_nat (length l') = n)
          then Some (tag, mkSlice (sl_addr b + Z.of_nat (length (sl_data b) - length l')) l')
          else None
      | None => None
      end
  end.

Lemma slice_field_tagged b tag l :
  in_u 64 (Z.of_nat (length l)) ->
  sl_data b = [tag] ++ varint_enc 10 (Z.of_nat (length l)) ++ l ->
  exists a, slice_field b = Some (tag, mkSlice a l).
Proof.
  intros Hl Hb. unfold slice_field. rewrite Hb. cbn [app].
  rewrite (varint_dec_enc 9).
  - rewrite bool_decide_eq_true_2 by done. eauto.
  - unfold in_u in Hl. split; [lia|]. etransitivity; [apply Hl|]. done.
Qed.

Definition slice_option_decode (b : slice) : result (option slice) string :=
  match sl_data b with
  | [] => Ok None
  | _ => match slice_field b with
         | Some (10%Z, b') => Ok (Some b')
         | _ => Err "malformed"
         end
  end.

Definition slice_result_decode (b : slice) : result (option (result slice (list Z))) string :=
  match sl_data b with
  | [] => Ok None
  | _ => match slice_field b with
         | Some (10%Z, b') => Ok (Some (Ok b'))
         | Some (18%Z, b') =>
             if utf8_valid (sl_data b') then Ok (Some (Err (sl_data b'))) else Err "invalid utf-8"
         | _ => Err "malformed"
         end
  end.

#[global, program] Instance slice_wrappers : ProstWrappers slice := {|
  proto_option_decode := slice_option_decode;
  proto_result_decode := slice_result_decode;
|}.
Next Obligation. intros b Hb. unfold slice_option_decode. simpl in Hb. by rewrite Hb. Qed.
Next Obligation.
  intros b l Hl Hb. destruct (slice_field_tagged b 10 l Hl Hb) as [a Ha].
  unfold slice_option_decode. simpl in *. rewrite Ha, Hb. simpl. eauto.
Qed.
Next Obligation. intros b Hb. unfold slice_result_decode. simpl in Hb. by rewrite Hb. Qed.
Next Obligation.
  intros b l Hl Hb. destruct (slice_field_tagged b 10 l Hl Hb) as [a Ha].
  unfold slice_result_decode. simpl in *. rewrite Ha, Hb. simpl. eauto.
Qed.
Next Obligation.
  intros b l Hl Hu Hb. destruct (slice_field_tagged b 18 l Hl Hb) as [a Ha].
  unfold slice_result_decode. simpl in *. rewrite Ha, Hb. simpl. by rewrite Hu.
Qed.

(** What prost checks on the way: a field lies in its message, and a string is UTF-8. *)
Class ProstChecks (B : Type) `{ProstWrappers B} : Prop := {
  proto_option_bytes b b' :
    is_bytes (bytes_data b) -> proto_option_decode b = Ok (Some b') -> is_bytes (bytes_data b');
  proto_result_bytes b b' :
    is_bytes (bytes_data b) -> proto_result_decode b = Ok (Some (Ok b')) -> is_bytes (bytes_data b');
  proto_result_text b l : proto_result_decode b = Ok (Some (Err l)) -> utf8_valid l = true;
}.

Lemma varint_dec_bytes l z l' : is_bytes l -> varint_dec l = Some (z, l') -> is_bytes l'.
Proof.
  revert z l'. induction l as [|b l IH]; intros z l' Hl He; [done|].
  apply Forall_cons in Hl as [_ Hl]. rewrite varint_dec_cons in He.
  destruct (b <? 128)%Z; [by simplify_eq|].
  destruct (varint_dec l) as [[v l2]|]; [|done]. simplify_eq. by eapply IH.
Qed.

Lemma slice_field_bytes b tag b' :
  is_bytes (sl_data b) -> slice_field b = Some (tag, b') -> is_bytes (sl_data b').
Proof.
  intros Hb He. unfold slice_field in He. destruct (sl_data b) as [|t l]; [done|].
  apply Forall_cons in Hb as [_ Hb].
  destruct (varint_dec l) as [[n l']|] eqn:Ev; [|done]. case_bool_decide; simplify_eq.
  by eapply varint_dec_bytes.
Qed.

#[global] Instance slice_checks : ProstChecks slice.
Proof.
  split; simpl; unfold slice_option_decode, slice_result_decode.
  - intros b b' Hb He. destruct (sl_data b) eqn:Eb; [done|]. rewrite <- Eb in Hb.
    destruct (slice_field b) as [[tag b2]|] eqn:Ef; [|done].
    pose proof (slice_field_bytes b tag b2 Hb Ef). by repeat case_match; simplify_eq.
  - intros b b' Hb He. destruct (sl_data b) eqn:Eb; [done|]. rewrite <- Eb in Hb.
    destruct (slice_field b) as [[tag b2]|] eqn:Ef; [|done].
    pose proof (slice_field_bytes b tag b2 Hb Ef). by repeat case_match; simplify_eq.
  - intros b l He. by repeat case_match; simplify_eq.
Qed.
