(* ===== verification/Codec.v ===== *)
(** * Encoding and decoding: errors, contexts, addresses

    Models acktor/src/codec.rs and acktor/src/codec/error.rs: the errors and contexts of
    the traits [Encode] and [Decode], and their implementations for [Address] and
    [Recipient], which register a local actor with the context before its index goes on
    the wire. An encoder appends to a buffer and acts on the state [R] behind its context;
    a decoder reads a slice, and may panic where [Bytes] does. *)

From S2P Require Import Prelude Tokio ActorTypes UserCode WireLibs.

Inductive EncodeError : Type :=
| MissingEncodeContext
| EncodeRemoteAddress
| NotRemoteAddressable
| EncodeOther (e : string).

Inductive DecodeError : Type :=
| MissingDecodeContext
| DecodeRemoteAddress
| UnknownMessageId (id : Z)
| MissingRemoteProxy
| DecodeOther (e : string).

(** [trait EncodeContext]: registers the mailbox of an actor. *)
Definition EncodeContext (R : Type) : Type := Recipient -> R -> result unit EncodeError * R.

(** [trait DecodeContext]: the proxy of the session a message came from, by its index. *)
Record DecodeContext : Type := mkDecodeContext { dc_remote_proxy : option Z }.

(** ** Encoders *)

Definition encoder (R : Type) : Type := list Z * R -> result unit EncodeError * (list Z * R).

Section Encoders.
Context {R : Type}.
Implicit Types (e k : encoder R).

Definition enc_ok : encoder R := fun s => (Ok tt, s).

Definition enc_err (err : EncodeError) : encoder R := fun s => (Err err, s).

(** [buf.extend_from_slice(..)]. *)
Definition extend_from_slice (l : list Z) : encoder R := fun '(buf, r) => (Ok tt, (buf ++ l, r)).

(** [e?; k]. *)
Definition enc_seq e k : encoder R := fun s =>
  match e s with
  | (Ok _, s) => k s
  | (Err err, s) => (Err err, s)
  end.

(** A call of the context. *)
Definition enc_ctx (f : R -> result unit EncodeError * R) : encoder R :=
  fun '(buf, r) => let (o, r) := f r in (o, (buf, r)).

(** [Encode::encode_to_bytes]. *)
Definition Encode_encode_to_bytes e (r : R) : result (list Z) EncodeError * R :=
  match e ([], r) with
  | (Ok _, (buf, r)) => (Ok buf, r)
  | (Err err, (_, r)) => (Err err, r)
  end.

(** [e] writes exactly [l] and leaves the context alone. *)
Definition writes e (l : list Z) : Prop := forall buf r, e (buf, r) = (Ok tt, (buf ++ l, r)).

Lemma writes_ok : writes enc_ok [].
Proof. intros buf r. unfold enc_ok. by rewrite app_nil_r. Qed.

Lemma writes_slice l : writes (extend_from_slice l) l.
Proof. done. Qed.

Lemma writes_seq e k l l' : writes e l -> writes k l' -> writes (enc_seq e k) (l ++ l').
Proof. intros He Hk buf r. unfold enc_seq. by rewrite He, Hk, app_assoc. Qed.

Lemma writes_to_bytes e l r : writes e l -> Encode_encode_to_bytes e r = (Ok l, r).
Proof. intros He. unfold Encode_encode_to_bytes. by rewrite He. Qed.
End Encoders.

#[export] Hint Resolve writes_ok writes_slice writes_seq : acktor.

(** ** Addresses and recipients *)

(** What the codec reads of an [Address] or a [Recipient]: its index and the mailbox
    through which other processes can reach it, if it has one. *)
Record SenderRef : Type := mkSenderRef {
  sr_index : ActorId;
  sr_remote_mailbox : option Recipient;
}.

Section AddressCodec.
Context {B R : Type} `{BytesCrate B} `{!ProstMessage B Z}.
Implicit Types (a : SenderRef).

Definition Address_register a (ctx : EncodeContext R) (r : R) : result unit EncodeError * R :=
  if ActorId_is_remote (sr_index a) then (Err EncodeRemoteAddress, r)
  else match sr_remote_mailbox a with
       | None => (Err NotRemoteAddressable, r)
       | Some mailbox => ctx mailbox r
       end.

Definition Recipient_register a (ctx : EncodeContext R) (r : R) : result unit EncodeError * R :=
  if ActorId_is_remote (sr_index a) then (Err EncodeRemoteAddress, r)
  else match sr_remote_mailbox a with
       | None => (Err NotRemoteAddressable, r)
       | Some mailbox => ctx mailbox r
       end.

(** A remote address has no mailbox of its own. *)
Definition Address_new_with_decode_context (index : Z) (ctx : DecodeContext)
    : result SenderRef DecodeError :=
  let? proxy := ok_or (dc_remote_proxy ctx) MissingRemoteProxy in
  Ok (mkSenderRef (ActorId_new_remote index proxy) None).

Definition Recipient_new_with_decode_context (index : Z) (ctx : DecodeContext)
    : result SenderRef DecodeError :=
  let? proxy := ok_or (dc_remote_proxy ctx) MissingRemoteProxy in
  Ok (mkSenderRef (ActorId_new_remote index proxy) None).

Definition Address_encoded_len a : nat := pm_encoded_len (ActorId_as_local (sr_index a)).

Definition Address_encode a (ctx : option (EncodeContext R)) : encoder R :=
  match ctx with
  | None => enc_err MissingEncodeContext
  | Some ctx =>
      enc_seq (enc_ctx (Address_register a ctx))
              (extend_from_slice (pm_encode (ActorId_as_local (sr_index a))))
  end.

Definition Address_decode (buf : B) (ctx : option DecodeContext) : result SenderRef DecodeError :=
  let? actor_id := result_map_err DecodeOther (pm_decode buf) in
  let? ctx := ok_or ctx MissingDecodeContext in
  Address_new_with_decode_context actor_id ctx.

Definition Recipient_encoded_len a : nat := pm_encoded_len (ActorId_as_local (sr_index a)).

Definition Recipient_encode a (ctx : option (EncodeContext R)) : encoder R :=
  match ctx with
  | None => enc_err MissingEncodeContext
  | Some ctx =>
      enc_seq (enc_ctx (Recipient_register a ctx))
              (extend_from_slice (pm_encode (ActorId_as_local (sr_index a))))
  end.

Definition Recipient_decode (buf : B) (ctx : option DecodeContext) : result SenderRef DecodeError :=
  let? actor_id := result_map_err DecodeOther (pm_decode buf) in
  let? ctx := ok_or ctx MissingDecodeContext in
  Recipient_new_with_decode_context actor_id ctx.
End AddressCodec.
