(* ===== verification/DefaultCodec.v ===== *)
(** * The default codec

    Models acktor/src/codec/default_codec.rs (little-endian, fixed width, tuples as
    length-prefixed elements) and acktor/src/codec/common_codec.rs (results and options as
    protobuf fields, pointers encoded as what they point to). A float is its bits. The
    traits' method resolution is a dispatch on [wire_ty], the types the impls combine. *)

From S2P Require Import Prelude Tokio ActorTypes UserCode WireLibs Codec.

(** [LENGTH_DELIMITED_TAGS] of protobuf_helper.rs. *)
Definition LENGTH_DELIMITED_TAGS : list Z :=
  [0; 10; 18; 26; 34; 42; 50; 58; 66; 74; 82; 90; 98; 106; 114; 122]%Z.

Definition tag (field : nat) : Z := nth field LENGTH_DELIMITED_TAGS 0%Z.

(** The types of the values that can be sent. *)
Inductive wire_ty : Type :=
| TyUnit
| TyBool
| TyInt (t : IntTy)
| TySize (signed : bool)
| TyString
| TyVecInt (t : IntTy)
| TyVecBool
| TyVecSize (signed : bool)
| TyTuple (ts : wire_tys)
| TyOption (t : wire_ty)
| TyResult (t : wire_ty)
with wire_tys : Type :=
| TyNil
| TyCons (t : wire_ty) (ts : wire_tys).

Scheme wire_ty_mut := Induction for wire_ty Sort Prop
  with wire_tys_mut := Induction for wire_tys Sort Prop.
Combined Scheme wire_ty_both from wire_ty_mut, wire_tys_mut.

(** Their values; a string is its bytes, an error of a [Result] its text. *)
Fixpoint ty_val (t : wire_ty) : Type :=
  match t with
  | TyUnit => unit
  | TyBool => bool
  | TyInt _ | TySize _ => Z
  | TyString => list Z
  | TyVecInt _ | TyVecSize _ => list Z
  | TyVecBool => list bool
  | TyTuple ts => tys_val ts
  | TyOption t => option (ty_val t)
  | TyResult t => result (ty_val t) (list Z)
  end
with tys_val (ts : wire_tys) : Type :=
  match ts with
  | TyNil => unit
  | TyCons t ts => (ty_val t * tys_val ts)%type
  end.

Section Impls.
Context {B R : Type} `{ZerocopyCrate B} `{!ProstVarint} `{!ProstWrappers B}.
(** [isize] and [usize] on the target. *)
Context (ptr_size : nat).

Abbreviation dec T := (outcome (result T DecodeError)).
Implicit Types (buf : B).

Definition size_ty (signed : bool) : IntTy := mkIntTy ptr_size signed.
Definition wire_size_ty (signed : bool) : IntTy := if signed then i64 else u64.

(** ** Scalars *)

Definition unit_encode : encoder R := enc_ok.
Definition unit_decode buf : result unit DecodeError := Ok tt.

Definition int_encoded_len (t : IntTy) : nat := it_size t.
Definition int_encode (t : IntTy) (z : Z) : encoder R := extend_from_slice (as_bytes t z).
Definition int_decode (t : IntTy) buf : result Z DecodeError :=
  result_map_err DecodeOther (read_from_bytes t buf).

Definition bool_encode (b : bool) : encoder R := extend_from_slice (as_bytes u8 (Z.b2z b)).
Definition bool_decode buf : result bool DecodeError :=
  let? z := result_map_err DecodeOther (read_from_bytes u8 buf) in Ok (negb (z =? 0)%Z).

(** [isize::try_from(value)] and [usize::try_from(value)]. *)
Definition size_try_from (signed : bool) (value : Z) : result Z DecodeError :=
  if bool_decide (in_range (size_ty signed) value) then Ok value
  else Err (DecodeOther "out of range integral type conversion attempted").

Definition size_encode (signed : bool) (z : Z) : encoder R := int_encode (wire_size_ty signed) z.
Definition size_decode (signed : bool) buf : result Z DecodeError :=
  let? value := int_decode (wire_size_ty signed) buf in size_try_from signed value.

Definition string_encode (s : list Z) : encoder R := extend_from_slice s.
Definition string_decode buf : result (list Z) DecodeError :=
  if utf8_valid (bytes_data buf) then Ok (bytes_data buf) else Err (DecodeOther "invalid utf-8").

(** The instances of the two macros. [f32] and [f64] are the bits of the float: zerocopy
    copies the memory. *)
Definition f32 : IntTy := mkIntTy 4 false.
Definition f64 : IntTy := mkIntTy 8 false.

Definition impl_encode_decode_for : list IntTy :=
  [mkIntTy 1 true; mkIntTy 2 true; i32; i64; u8; mkIntTy 2 false; u32; u64; f32; f64].

Definition impl_encode_decode_for_vec : list IntTy :=
  [mkIntTy 1 true; mkIntTy 2 true; i32; i64; u8; mkIntTy 2 false; u32; u64; f32; f64].

(** ** Vectors *)

Definition vec_int_encode (t : IntTy) (zs : list Z) : encoder R :=
  extend_from_slice (concat (as_bytes t <$> zs)).
Definition vec_int_decode (t : IntTy) buf : result (list Z) DecodeError :=
  match bytes_data buf with
  | [] => Ok []
  | _ => result_map_err DecodeOther (ref_from_bytes t buf)
  end.

Definition vec_bool_encode (bs : list bool) : encoder R :=
  extend_from_slice (concat ((fun b => as_bytes u8 (Z.b2z b)) <$> bs)).
Definition vec_bool_decode buf : result (list bool) DecodeError :=
  match bytes_data buf with
  | [] => Ok []
  | l => Ok ((fun b => negb (b =? 0)%Z) <$> l)
  end.

(** [.map(|v| usize::try_from(v)..).collect()]: the first error wins. *)
Fixpoint size_try_from_all (signed : bool) (zs : list Z) : result (list Z) DecodeError :=
  match zs with
  | [] => Ok []
  | z :: zs =>
      let? v := size_try_from signed z in
      let? vs := size_try_from_all signed zs in
      Ok (v :: vs)
  end.

Definition vec_size_encode (signed : bool) (zs : list Z) : encoder R :=
  vec_int_encode (wire_size_ty signed) zs.
Definition vec_size_decode (signed : bool) buf : result (list Z) DecodeError :=
  match bytes_data buf with
  | [] => Ok []
  | _ =>
      let? vec := result_map_err DecodeOther (ref_from_bytes (wire_size_ty signed) buf) in
      size_try_from_all signed vec
  end.

(** ** Tuples *)

(** [encode_element]: the length is cast to [u32]. *)
Definition encode_element (len : nat) (value : encoder R) : encoder R :=
  enc_seq (extend_from_slice (as_bytes u32 (wrap_u 32 (Z.of_nat len)))) value.

Definition decode_element buf : dec (B * B) :=
  if bool_decide (length (bytes_data buf) < it_size u32) then
    Done (Err (DecodeOther "missing the tuple element length"))
  else
    let! (head, buf) := bytes_split_to (it_size u32) buf in
    match read_from_bytes u32 head with
    | Err e => Done (Err (DecodeOther e))
    | Ok len =>
        if bool_decide (Z.of_nat (length (bytes_data buf)) < len)%Z then
          Done (Err (DecodeOther "missing the tuple element data"))
        else let! (element, buf) := bytes_split_to (Z.to_nat len) buf in Done (Ok (element, buf))
    end.

(** ** Options and results (common_codec.rs) *)

(** [optional_length_delimited_field_encoded_len] of acktor-ipc-proto/src/lib.rs, at the
    one-byte keys of fields 1 to 15. *)
Definition optional_length_delimited_field_encoded_len (len : nat) : nat :=
  1 + prost_encoded_len_varint (Z.of_nat len) + len.

(** A length-delimited field: tag, length, contents. *)
Definition encode_field (field : nat) (len : nat) (value : encoder R) : encoder R :=
  enc_seq (extend_from_slice [tag field])
    (enc_seq (extend_from_slice (prost_encode_varint (Z.of_nat len))) value).

(** ** Dispatch *)

Fixpoint ty_encoded_len (t : wire_ty) : ty_val t -> nat :=
  match t return ty_val t -> nat with
  | TyUnit => fun _ => 0
  | TyBool => fun _ => 1
  | TyInt t => fun _ => int_encoded_len t
  | TySize signed => fun _ => it_size (wire_size_ty signed)
  | TyString => fun s => length s
  | TyVecInt t => fun zs => length zs * it_size t
  | TyVecBool => fun bs => length bs
  | TyVecSize signed => fun zs => length zs * it_size (wire_size_ty signed)
  | TyTuple ts => tys_encoded_len ts
  | TyOption t => fun o =>
      match o with
      | Some v => optional_length_delimited_field_encoded_len (ty_encoded_len t v)
      | None => 0
      end
  | TyResult t => fun r =>
      optional_length_delimited_field_encoded_len
        match r with Ok v => ty_encoded_len t v | Err e => length e end
  end
with tys_encoded_len (ts : wire_tys) : tys_val ts -> nat :=
  match ts return tys_val ts -> nat with
  | TyNil => fun _ => 0
  | TyCons t ts => fun p => it_size u32 + ty_encoded_len t p.1 + tys_encoded_len ts p.2
  end.

Fixpoint ty_encode (t : wire_ty) : ty_val t -> encoder R :=
  match t return ty_val t -> encoder R with
  | TyUnit => fun _ => unit_encode
  | TyBool => bool_encode
  | TyInt t => int_encode t
  | TySize signed => size_encode signed
  | TyString => string_encode
  | TyVecInt t => vec_int_encode t
  | TyVecBool => vec_bool_encode
  | TyVecSize signed => vec_size_encode signed
  | TyTuple ts => tys_encode ts
  | TyOption t => fun o =>
      match o with
      | Some v => encode_field 1 (ty_encoded_len t v) (ty_encode t v)
      | None => enc_ok
      end
  | TyResult t => fun r =>
      match r with
      | Ok v => encode_field 1 (ty_encoded_len t v) (ty_encode t v)
      | Err e => encode_field 2 (length e) (extend_from_slice e)
      end
  end
with tys_encode (ts : wire_tys) : tys_val ts -> encoder R :=
  match ts return tys_val ts -> encoder R with
  | TyNil => fun _ => enc_ok
  | TyCons t ts => fun p =>
      enc_seq (encode_element (ty_encoded_len t p.1) (ty_encode t p.1)) (tys_encode ts p.2)
  end.

Definition dec_map {X Y} (f : X -> Y) (d : dec X) : dec Y := let! r := d in Done (result_map f r).

Fixpoint ty_decode (t : wire_ty) (buf : B) : dec (ty_val t) :=
  match t return dec (ty_val t) with
  | TyUnit => Done (unit_decode buf)
  | TyBool => Done (bool_decode buf)
  | TyInt t => Done (int_decode t buf)
  | TySize signed => Done (size_decode signed buf)
  | TyString => Done (string_decode buf)
  | TyVecInt t => Done (vec_int_decode t buf)
  | TyVecBool => Done (vec_bool_decode buf)
  | TyVecSize signed => Done (vec_size_decode signed buf)
  | TyTuple ts => tys_decode ts buf
  | TyOption t =>
      match proto_option_decode buf with
      | Err e => Done (Err (DecodeOther e))
      | Ok (Some bytes) => dec_map Some (ty_decode t bytes)
      | Ok None => Done (Ok None)
      end
  | TyResult t =>
      match proto_result_decode buf with
      | Err e => Done (Err (DecodeOther e))
      | Ok (Some (Ok ok)) => dec_map Ok (ty_decode t ok)
      | Ok (Some (Err err)) => Done (Ok (Err err))
      | Ok None => Done (Err (DecodeOther "missing field `result` in the `Result` message"))
      end
  end
with tys_decode (ts : wire_tys) (buf : B) : dec (tys_val ts) :=
  match ts return dec (tys_val ts) with
  | TyNil => Done (Ok tt)
  | TyCons t ts =>
      let! r := decode_element buf in
      match r with
      | Err e => Done (Err e)
      | Ok (element, buf) =>
          let! r := ty_decode t element in
          match r with
          | Err e => Done (Err e)
          | Ok v => dec_map (pair v) (tys_decode ts buf)
          end
      end
  end.

(** [encode_to_bytes]: [Result] and [Option] override it, allocating once. *)
Definition ty_encode_to_bytes (t : wire_ty) (v : ty_val t) (r : R)
    : result (list Z) EncodeError * R :=
  Encode_encode_to_bytes (ty_encode t v) r.

Definition option_encode_to_bytes (t : wire_ty) (o : option (ty_val t)) (r : R)
    : result (list Z) EncodeError * R :=
  match o with
  | Some v =>
      let inner_len := ty_encoded_len t v in
      let buf := [tag 1] ++ prost_encode_varint (Z.of_nat inner_len) in
      match ty_encode t v (buf, r) with
      | (Ok _, (buf, r)) => (Ok buf, r)
      | (Err e, (_, r)) => (Err e, r)
      end
  | None => (Ok [], r)
  end.

Definition result_encode_to_bytes (t : wire_ty) (x : result (ty_val t) (list Z)) (r : R)
    : result (list Z) EncodeError * R :=
  match x with
  | Ok v =>
      let inner_len := ty_encoded_len t v in
      let buf := [tag 1] ++ prost_encode_varint (Z.of_nat inner_len) in
      match ty_encode t v (buf, r) with
      | (Ok _, (buf, r)) => (Ok buf, r)
      | (Err e, (_, r)) => (Err e, r)
      end
  | Err err =>
      let inner_len := length err in
      (Ok ([tag 2] ++ prost_encode_varint (Z.of_nat inner_len) ++ err), r)
  end.
End Impls.
