(* ===== verification/CodecTheorems.v ===== *)
(** * Round trips of the default codec

    Theorems about DefaultCodec.v: every value of every type the codec supports is
    recovered from its encoding, of exactly the announced length, when the buffer is
    aligned where a vector of wide integers lies; decoding never panics; and the two ways
    a decoding peer can refuse well-formed bytes: a misaligned vector, and a [usize] that
    its pointers cannot hold. *)

From S2P Require Import Prelude Tokio ActorTypes UserCode WireLibs Codec DefaultCodec.

Section Specs.
Context {B R : Type} `{ZerocopyCrate B} `{!ProstVarint} `{!ProstWrappers B}.
Context (ptr_size : nat).
#[local] Set Default Proof Using "Type*".
#[local] Opaque int_bytes.
#[local] Arguments wire_size_ty : simpl never.

(** Every instance of the macros is for a type with a size, so the round trips hold for
    all of them, floats included: any bits of that width are a float. *)
Lemma impl_types_sized t : t ∈ impl_encode_decode_for -> 0 < it_size t.
Proof.
  intros Ht. apply (bool_decide_unpack (0 < it_size t)). revert t Ht.
  apply Forall_forall. by repeat constructor.
Qed.

(** Values the types allow, small enough for their length prefixes. *)
Fixpoint ty_ok (t : wire_ty) : ty_val t -> Prop :=
  match t return ty_val t -> Prop with
  | TyUnit | TyBool | TyVecBool => fun _ => True
  | TyInt t => fun z => 0 < it_size t /\ in_range t z
  | TySize signed => fun z => in_range (size_ty ptr_size signed) z
  | TyString => fun s => utf8_valid s = true
  | TyVecInt t => fun zs => 0 < it_size t /\ Forall (in_range t) zs
  | TyVecSize signed => fun zs => Forall (in_range (size_ty ptr_size signed)) zs
  | TyTuple ts => tys_ok ts
  | TyOption t => fun o =>
      match o with
      | Some v => ty_ok t v /\ in_u 64 (Z.of_nat (ty_encoded_len t v))
      | None => True
      end
  | TyResult t => fun r =>
      match r with
      | Ok v => ty_ok t v /\ in_u 64 (Z.of_nat (ty_encoded_len t v))
      | Err e => utf8_valid e = true /\ in_u 64 (Z.of_nat (length e))
      end
  end
with tys_ok (ts : wire_tys) : tys_val ts -> Prop :=
  match ts return tys_val ts -> Prop with
  | TyNil => fun _ => True
  | TyCons t ts => fun p =>
      ty_ok t p.1 /\ in_u 32 (Z.of_nat (ty_encoded_len t p.1)) /\ tys_ok ts p.2
  end.

(** The wire format, as a function. *)
Definition field_bytes (field : nat) (l : list Z) : list Z :=
  [tag field] ++ prost_encode_varint (Z.of_nat (length l)) ++ l.

Fixpoint ty_bytes (t : wire_ty) : ty_val t -> list Z :=
  match t return ty_val t -> list Z with
  | TyUnit => fun _ => []
  | TyBool => fun b => [Z.b2z b]
  | TyInt t => int_bytes t
  | TySize signed => int_bytes (wire_size_ty signed)
  | TyString => fun s => s
  | TyVecInt t => fun zs => concat (int_bytes t <$> zs)
  | TyVecBool => fun bs => Z.b2z <$> bs
  | TyVecSize signed => fun zs => concat (int_bytes (wire_size_ty signed) <$> zs)
  | TyTuple ts => tys_bytes ts
  | TyOption t => fun o => match o with Some v => field_bytes 1 (ty_bytes t v) | None => [] end
  | TyResult t => fun r =>
      match r with Ok v => field_bytes 1 (ty_bytes t v) | Err e => field_bytes 2 e end
  end
with tys_bytes (ts : wire_tys) : tys_val ts -> list Z :=
  match ts return tys_val ts -> list Z with
  | TyNil => fun _ => []
  | TyCons t ts => fun p =>
      int_bytes u32 (Z.of_nat (length (ty_bytes t p.1))) ++ ty_bytes t p.1 ++ tys_bytes ts p.2
  end.

(** A value encoded at address [a] has every non-empty vector of integers at a multiple
    of their alignment. Fields of options and results may be copied anywhere. *)
Definition vec_aligned (t : IntTy) (a : Z) (zs : list Z) : Prop :=
  zs = [] \/ (a mod align_of t = 0)%Z.

Fixpoint ty_aligned (t : wire_ty) (a : Z) : ty_val t -> Prop :=
  match t return ty_val t -> Prop with
  | TyVecInt t => vec_aligned t a
  | TyVecSize signed => vec_aligned (wire_size_ty signed) a
  | TyTuple ts => tys_aligned ts a
  | TyOption t => fun o => match o with Some v => forall a, ty_aligned t a v | None => True end
  | TyResult t => fun r => match r with Ok v => forall a, ty_aligned t a v | Err _ => True end
  | _ => fun _ => True
  end
with tys_aligned (ts : wire_tys) (a : Z) : tys_val ts -> Prop :=
  match ts return tys_val ts -> Prop with
  | TyNil => fun _ => True
  | TyCons t ts => fun p =>
      ty_aligned t (a + 4) p.1 /\
      tys_aligned ts (a + 4 + Z.of_nat (length (ty_bytes t p.1))) p.2
  end.

(** ** Encoding *)

Lemma map_as_bytes t (zs : list Z) : as_bytes t <$> zs = int_bytes t <$> zs.
Proof. apply list_fmap_ext. intros i z _. apply as_bytes_law. Qed.

Lemma int_bytes_u8_b2z b : int_bytes u8 (Z.b2z b) = [Z.b2z b].
Proof. by destruct b. Qed.

Lemma bool_bytes_all (bs : list bool) :
  concat ((fun b => as_bytes u8 (Z.b2z b)) <$> bs) = Z.b2z <$> bs.
Proof.
  induction bs as [|b bs IH]; [done|]. rewrite !fmap_cons. cbn [concat].
  by rewrite as_bytes_law, int_bytes_u8_b2z, IH.
Qed.

Lemma length_field_bytes field l :
  in_u 64 (Z.of_nat (length l)) ->
  length (field_bytes field l) = optional_length_delimited_field_encoded_len (length l).
Proof.
  intros Hl. unfold field_bytes, optional_length_delimited_field_encoded_len.
  rewrite !length_app, prost_varint_len by done. simpl. lia.
Qed.

Lemma ty_bytes_length :
  (forall t v, ty_ok t v -> length (ty_bytes t v) = ty_encoded_len t v) /\
  (forall ts vs, tys_ok ts vs -> length (tys_bytes ts vs) = tys_encoded_len ts vs).
Proof.
  apply wire_ty_both; simpl; try done.
  - intros t z _. apply length_int_bytes.
  - intros signed z _. apply length_int_bytes.
  - intros t zs _. apply length_concat_int_bytes.
  - intros bs _. by rewrite length_fmap.
  - intros signed zs _. apply length_concat_int_bytes.
  - intros t IH [v|] Hv; [|done]. destruct Hv as [Hok Hlen].
    rewrite <- (IH v Hok) in *. by apply length_field_bytes.
  - intros t IH [v|e] Hv; destruct Hv as [Hok Hlen].
    + rewrite <- (IH v Hok) in *. by apply length_field_bytes.
    + by apply length_field_bytes.
  - intros t IHt ts IHts [v vs] (Hok & Hlen & Hoks). simpl in *.
    rewrite !length_app, (length_int_bytes u32), IHt, IHts by done. simpl. lia.
Qed.

Lemma encode_field_writes field len (e : encoder R) l :
  len = length l -> writes e l -> writes (encode_field field len e) (field_bytes field l).
Proof. intros -> He. unfold encode_field, field_bytes. auto with acktor. Qed.

Lemma ty_encode_writes :
  (forall t v, ty_ok t v -> writes (ty_encode (R := R) t v) (ty_bytes t v)) /\
  (forall ts vs, tys_ok ts vs -> writes (tys_encode (R := R) ts vs) (tys_bytes ts vs)).
Proof.
  destruct ty_bytes_length as [Hlen _].
  apply wire_ty_both; simpl; try (intros; apply writes_slice || apply writes_ok).
  - intros b _. unfold bool_encode. rewrite as_bytes_law, int_bytes_u8_b2z. apply writes_slice.
  - intros t z _. unfold int_encode. rewrite as_bytes_law. apply writes_slice.
  - intros signed z _. unfold size_encode, int_encode. rewrite as_bytes_law. apply writes_slice.
  - intros t zs _. unfold vec_int_encode. rewrite map_as_bytes. apply writes_slice.
  - intros bs _. unfold vec_bool_encode. rewrite bool_bytes_all. apply writes_slice.
  - intros signed zs _. unfold vec_size_encode, vec_int_encode. rewrite map_as_bytes.
    apply writes_slice.
  - auto.
  - intros t IH [v|] Hv; [|apply writes_ok]. destruct Hv as [Hok _].
    apply encode_field_writes; [symmetry; by apply Hlen|auto].
  - intros t IH [v|e] Hv; destruct Hv as [Hok _].
    + apply encode_field_writes; [symmetry; by apply Hlen|auto].
    + apply encode_field_writes; [done|apply writes_slice].
  - intros t IHt ts IHts [v vs] (Hok & Hl & Hoks). simpl in *. rewrite app_assoc.
    apply writes_seq; [|auto]. unfold encode_element.
    rewrite as_bytes_law, (wrap_u_id 32) by done. rewrite (Hlen t v Hok).
    apply writes_seq; [apply writes_slice|auto].
Qed.

(** ** Decoding *)

Lemma int_decode_ok t z b :
  0 < it_size t -> in_range t z -> bytes_data b = int_bytes t z -> int_decode t b = Ok z.
Proof.
  intros Hs Hr Hb. unfold int_decode. pose proof (read_from_bytes_law t b) as Hl.
  rewrite Hb, length_int_bytes, bool_decide_eq_true_2 in Hl by done.
  by rewrite Hl, int_of_int_bytes.
Qed.

Lemma ref_from_bytes_ok t zs b :
  0 < it_size t -> Forall (in_range t) zs -> bytes_data b = concat (int_bytes t <$> zs) ->
  (bytes_addr b mod align_of t = 0)%Z -> ref_from_bytes t b = Ok zs.
Proof.
  intros Hs Hf Hb Ha. pose proof (ref_from_bytes_law t b Hs) as Hl.
  rewrite Hb, length_concat_int_bytes in Hl.
  rewrite bool_decide_eq_true_2 in Hl.
  - by rewrite Hl, ints_of_int_bytes.
  - split; [done|]. rewrite Nat2Z.inj_mul. apply Z.mod_mul. lia.
Qed.

Lemma concat_int_bytes_nil t (zs : list Z) : 0 < it_size t -> concat (int_bytes t <$> zs) = [] -> zs = [].
Proof.
  intros Hs Hc. apply (f_equal length) in Hc. rewrite length_concat_int_bytes in Hc.
  destruct zs; [done|]. simpl in Hc. lia.
Qed.

Lemma in_range_size signed z :
  0 < ptr_size <= 8 -> in_range (size_ty ptr_size signed) z -> in_range (wire_size_ty signed) z.
Proof.
  unfold in_range, size_ty, wire_size_ty, it_bits. intros Hp.
  assert (Hm : forall a b, (0 <= a <= b)%Z -> (2 ^ a <= 2 ^ b)%Z) by (intros; apply Z.pow_le_mono_r; lia).
  destruct signed; simpl; unfold in_s, in_u; intros Hz.
  - pose proof (Hm (8 * Z.of_nat ptr_size - 1)%Z 63%Z ltac:(lia)).
    change (64 - 1)%Z with 63%Z in *. change (8 * 8)%Z with 64%Z in *. simpl in *. lia.
  - pose proof (Hm (8 * Z.of_nat ptr_size)%Z 64%Z ltac:(lia)). change (8 * 8)%Z with 64%Z. simpl in *. lia.
Qed.

Lemma it_size_wire signed : 0 < it_size (wire_size_ty signed).
Proof. destruct signed; simpl; lia. Qed.

Lemma size_try_from_ok signed z :
  in_range (size_ty ptr_size signed) z -> size_try_from ptr_size signed z = Ok z.
Proof. intros Hz. unfold size_try_from. by rewrite bool_decide_eq_true_2. Qed.

Lemma size_try_from_all_ok signed zs :
  Forall (in_range (size_ty ptr_size signed)) zs -> size_try_from_all ptr_size signed zs = Ok zs.
Proof.
  induction 1 as [|z zs Hz _ IH]; simpl; [done|]. by rewrite size_try_from_ok, IH.
Qed.

Lemma decode_element_ok b l rest :
  in_u 32 (Z.of_nat (length l)) ->
  bytes_data b = int_bytes u32 (Z.of_nat (length l)) ++ l ++ rest ->
  exists e b', decode_element b = Done (Ok (e, b')) /\ bytes_data e = l /\ bytes_data b' = rest /\
    bytes_addr e = (bytes_addr b + 4)%Z /\
    bytes_addr b' = (bytes_addr b + 4 + Z.of_nat (length l))%Z.
Proof.
  intros Hl Hb. unfold decode_element.
  assert (Hlen : length (bytes_data b) = 4 + (length l + length rest)).
  { rewrite Hb, !length_app, length_int_bytes. done. }
  rewrite bool_decide_eq_false_2 by (simpl; lia).
  destruct (bytes_split_to_law 4 b) as (h & t & Hsp & Hh & Ht & Hah & Hat); [lia|].
  change (it_size u32) with 4. rewrite Hsp. simpl outcome_bind.
  assert (Hh' : bytes_data h = int_bytes u32 (Z.of_nat (length l))).
  { rewrite Hh, Hb, take_app_le, take_ge; [done|..]; by rewrite length_int_bytes. }
  assert (Ht' : bytes_data t = l ++ rest).
  { rewrite Ht, Hb, drop_app_ge; rewrite length_int_bytes; [done|simpl; lia]. }
  pose proof (int_decode_ok u32 (Z.of_nat (length l)) h ltac:(simpl; lia) Hl Hh') as Hd.
  unfold int_decode in Hd. destruct (read_from_bytes u32 h) as [len|]; [|done].
  simpl in Hd. injection Hd as ->. rewrite Ht', length_app, bool_decide_eq_false_2 by lia.
  rewrite Nat2Z.id.
  destruct (bytes_split_to_law (length l) t) as (e & b' & Hsp' & He & Hb' & Hae & Hab).
  { rewrite Ht', length_app. lia. }
  rewrite Hsp'. simpl. exists e, b'. rewrite He, Hb', Ht', take_app_length, drop_app_length.
  rewrite Hae, Hab, Hat. split_and!; try done; lia.
Qed.

Lemma ty_decode_ok (Hptr : 0 < ptr_size <= 8) :
  (forall t v b, ty_ok t v -> ty_aligned t (bytes_addr b) v -> bytes_data b = ty_bytes t v ->
     ty_decode ptr_size t b = Done (Ok v)) /\
  (forall ts vs b, tys_ok ts vs -> tys_aligned ts (bytes_addr b) vs ->
     bytes_data b = tys_bytes ts vs -> tys_decode ptr_size ts b = Done (Ok vs)).
Proof.
  destruct ty_bytes_length as [Hlen _].
  apply wire_ty_both; simpl.
  - by intros [] b.
  - intros v b _ _ Hb. unfold bool_decode. 
    pose proof (int_decode_ok u8 (Z.b2z v) b) as Hd. unfold int_decode in Hd.
    rewrite Hd; [by destruct v|simpl; lia|by destruct v|by rewrite int_bytes_u8_b2z].
  - intros t z b [Hs Hr] _ Hb. by rewrite (int_decode_ok t z).
  - intros signed z b Hr _ Hb. unfold size_decode.
    rewrite (int_decode_ok (wire_size_ty signed) z); auto using it_size_wire, in_range_size.
    simpl. by rewrite size_try_from_ok.
  - intros s b Hs _ Hb. unfold string_decode. by rewrite Hb, Hs.
  - intros t zs b [Hs Hf] Ha Hb. unfold vec_int_decode. destruct (bytes_data b) eqn:E.
    + by rewrite (concat_int_bytes_nil t zs).
    + rewrite <- E in Hb. destruct Ha as [->|Ha]; [simpl in Hb; congruence|].
      by rewrite (ref_from_bytes_ok t zs).
  - intros bs b _ _ Hb. unfold vec_bool_decode. rewrite Hb.
    assert (Hm : (fun z => negb (z =? 0)%Z) <$> (Z.b2z <$> bs) = bs).
    { rewrite <- list_fmap_compose. rewrite <- (list_fmap_id bs) at 2.
      apply list_fmap_ext. by intros i [] _. }
    rewrite <- Hm at 2. by destruct bs.
  - intros signed zs b Hf Ha Hb. unfold vec_size_decode. destruct (bytes_data b) eqn:E.
    + by rewrite (concat_int_bytes_nil (wire_size_ty signed) zs); [|apply it_size_wire|].
    + rewrite <- E in Hb. destruct Ha as [->|Ha]; [simpl in Hb; congruence|].
      rewrite (ref_from_bytes_ok (wire_size_ty signed) zs);
        [|apply it_size_wire|eapply Forall_impl; eauto using in_range_size|done|done].
      simpl. by rewrite size_try_from_all_ok.
  - auto.
  - intros t IH [v|] b Hok Ha Hb.
    + destruct Hok as [Hok Hl]. rewrite <- (Hlen t v Hok) in Hl.
      destruct (proto_option_some b (ty_bytes t v) Hl Hb) as (b' & -> & Hb').
      by rewrite (IH v b').
    + by rewrite proto_option_none.
  - intros t IH [v|e] b Hok Ha Hb; destruct Hok as [Hok Hl].
    + rewrite <- (Hlen t v Hok) in Hl.
      destruct (proto_result_ok b (ty_bytes t v) Hl Hb) as (b' & -> & Hb').
      by rewrite (IH v b').
    + by rewrite (proto_result_err b e).
  - by intros [] b.
  - intros t IHt ts IHts [v vs] b (Hok & Hl & Hoks) [Ha Has] Hb. simpl in *.
    rewrite <- (Hlen t v Hok) in Hl.
    destruct (decode_element_ok b (ty_bytes t v) (tys_bytes ts vs) Hl Hb)
      as (e & b' & -> & He & Hb' & Hae & Hab). simpl.
    rewrite (IHt v e) by (done || by rewrite Hae). simpl.
    by rewrite (IHts vs b') by (done || by rewrite Hab).
Qed.

(** C13. The default codec round-trips: for every type built from its impls and every
    value they allow, encoding never fails, leaves the context alone and writes exactly
    [encoded_len] bytes, and decoding a buffer with those bytes, aligned where a vector of
    integers lies, gives the value back. *)
Theorem default_codec_roundtrip t v b (r : R)
    (Hptr : 0 < ptr_size <= 8) (Hok : ty_ok t v) (Ha : ty_aligned t (bytes_addr b) v) :
  exists l, ty_encode_to_bytes t v r = (Ok l, r) /\ length l = ty_encoded_len t v /\
    (bytes_data b = l -> ty_decode ptr_size t b = Done (Ok v)).
Proof.
  exists (ty_bytes t v). unfold ty_encode_to_bytes.
  rewrite (writes_to_bytes _ (ty_bytes t v)) by (by apply ty_encode_writes).
  split_and!; [done|by apply ty_bytes_length|]. by apply ty_decode_ok.
Qed.

(** The hand-written [encode_to_bytes] of [Option] and [Result], which allocate once,
    produce the bytes of the default method. *)
Lemma encode_to_bytes_overrides t o x (r : R) :
  option_encode_to_bytes t o r = ty_encode_to_bytes (TyOption t) o r /\
  result_encode_to_bytes t x r = ty_encode_to_bytes (TyResult t) x r.
Proof.
  unfold ty_encode_to_bytes, Encode_encode_to_bytes, option_encode_to_bytes,
    result_encode_to_bytes. split.
  - by destruct o.
  - by destruct x.
Qed.

(** ** Hostile and unlucky buffers *)

Lemma decode_element_done b : is_done (decode_element b).
Proof.
  unfold decode_element. case_bool_decide as Hlt; [done|].
  destruct (bytes_split_to_law (it_size u32) b) as (h & t & -> & _ & Ht & _); [lia|]. simpl.
  destruct (read_from_bytes u32 h) as [len|]; [|done].
  case_bool_decide as Hge; [done|].
  destruct (bytes_split_to_law (Z.to_nat len) t) as (e & b' & -> & _); [lia|]. done.
Qed.

Lemma dec_map_done {X Y} (f : X -> Y) (d : outcome (result X DecodeError)) :
  is_done d -> is_done (dec_map f d).
Proof. by destruct d. Qed.

(** C33. Decoding never panics, whatever bytes a peer sent. *)
Theorem decode_never_panics t b : is_done (ty_decode ptr_size t b).
Proof.
  revert b. apply (wire_ty_mut (fun t => forall b, is_done (ty_decode ptr_size t b))
    (fun ts => forall b, is_done (tys_decode ptr_size ts b))); clear t; simpl; try done.
  - intros t IH b. destruct (proto_option_decode b) as [[b'|]|]; try done; auto using dec_map_done.
  - intros t IH b. destruct (proto_result_decode b) as [[[b'|]|]|]; try done; auto using dec_map_done.
  - intros t IHt ts IHts b. pose proof (decode_element_done b) as He.
    destruct (decode_element b) as [[[e b']|]|]; try done. simpl.
    pose proof (IHt e) as Hd. destruct (ty_decode ptr_size t e) as [[v|]|]; try done. simpl.
    auto using dec_map_done.
Qed.

(** A non-empty [Vec<u32>] after a [u8] in a tuple cannot be decoded from its own
    encoding when the buffer starts at a multiple of four, as allocations do: the vector
    then lies at offset nine, and the decoder asks for an aligned view. *)
Lemma misaligned_vec_is_rejected (n : Z) (zs : list Z) b
    (Halign : align_of u32 = 4%Z) (Haddr : (bytes_addr b mod 4 = 0)%Z)
    (Hn : in_range u8 n) (Hzs : zs ≠ []) (Hlen : in_u 32 (Z.of_nat (length zs * 4)))
    (Hb : bytes_data b = ty_bytes (TyTuple (TyCons (TyInt u8) (TyCons (TyVecInt u32) TyNil)))
                           (n, (zs, tt))) :
  exists e, ty_decode ptr_size (TyTuple (TyCons (TyInt u8) (TyCons (TyVecInt u32) TyNil))) b =
    Done (Err e).
Proof.
  simpl in *.
  destruct (decode_element_ok b (int_bytes u8 n) 
    (int_bytes u32 (Z.of_nat (length (concat (int_bytes u32 <$> zs)))) ++
       concat (int_bytes u32 <$> zs) ++ [])) as (e & b' & -> & He & Hb' & _ & Hab);
    [by rewrite length_int_bytes|done|].
  simpl outcome_bind. rewrite (int_decode_ok u8 n e) by (done || simpl; lia). simpl outcome_bind.
  destruct (decode_element_ok b' (concat (int_bytes u32 <$> zs)) [])
    as (e2 & b2 & -> & He2 & _ & Hae2 & _); [by rewrite length_concat_int_bytes|done|].
  rewrite length_int_bytes in Hab. simpl in Hab. simpl outcome_bind.
  unfold vec_int_decode. pose proof (ref_from_bytes_law u32 e2 ltac:(simpl; lia)) as Hl.
  rewrite bool_decide_eq_false_2 in Hl.
  - destruct Hl as [err ->]. destruct (bytes_data e2) eqn:E; [|eexists; reflexivity].
    symmetry in He2. by apply (concat_int_bytes_nil u32) in He2; [|simpl; lia].
  - rewrite Halign, Hae2, Hab. intros [Hm _].
    replace (bytes_addr b + 4 + 1 + 4)%Z with (1 + (2 * 4 + bytes_addr b))%Z in Hm by lia.
    rewrite <- Z.add_mod_idemp_r, <- (Z.add_mod_idemp_r (2 * 4)), Haddr in Hm by lia.
    discriminate.
Qed.
End Specs.

(** ** Witnesses *)

Section Witnesses.

(** [(u8, String, Option<i64>, Result<Vec<u32>, _>)], decoded at address 16. *)
Definition sample_ty : wire_ty :=
  TyTuple (TyCons (TyInt u8) (TyCons TyString (TyCons (TyOption (TyInt i64))
          (TyCons (TyVecInt u32) TyNil)))).

Definition sample_val : ty_val sample_ty := (7%Z, ([104; 105]%Z, (Some (-3)%Z, ([], tt)))).

Definition sample_bytes : list Z :=
  [1;0;0;0; 7; 2;0;0;0; 104;105; 10;0;0;0; 10;8;253;255;255;255;255;255;255;255; 0;0;0;0]%Z.

Lemma sample_ok : ty_ok 8 sample_ty sample_val.
Proof.
  unfold sample_ty, sample_val. simpl.
  split_and!; try done; try lia; try (vm_compute; done); apply Forall_nil_2.
Qed.

Lemma sample_aligned : ty_aligned sample_ty (bytes_addr (mkSlice 16 sample_bytes)) sample_val.
Proof. simpl. split_and!; try done. by left. Qed.

Lemma default_codec_roundtrip_witness :
  exists l, ty_encode_to_bytes sample_ty sample_val tt = (Ok l, tt) /\
    length l = ty_encoded_len sample_ty sample_val /\
    (bytes_data (mkSlice 16 sample_bytes) = l ->
     ty_decode 8 sample_ty (mkSlice 16 sample_bytes) = Done (Ok sample_val)).
Proof.
  exact (default_codec_roundtrip 8 sample_ty sample_val (mkSlice 16 sample_bytes) tt
           ltac:(lia) sample_ok sample_aligned).
Defined.

(** [(1u8, vec![1u32])] in a fresh buffer. *)
Definition misaligned_ty : wire_ty := TyTuple (TyCons (TyInt u8) (TyCons (TyVecInt u32) TyNil)).

Definition misaligned_bytes : list Z := [1;0;0;0; 1; 4;0;0;0; 1;0;0;0]%Z.

Lemma misaligned_vec_is_rejected_witness :
  exists e, ty_decode 8 misaligned_ty (mkSlice 16 misaligned_bytes) = Done (Err e).
Proof.
  apply (misaligned_vec_is_rejected 8 1 [1%Z]); try done.
Defined.
End Witnesses.
