(* ===== verification/CodecTyping.v ===== *)
(** * What a buffer must hold to be decoded

    A peer can send any bytes. The default codec (DefaultCodec.v) makes a value of them only
    when they hold that value: [ty_reads] says what this is for each type, and the theorem
    that a decoder returns nothing else. *)

From S2P Require Import Prelude Tokio ActorTypes UserCode WireLibs Codec DefaultCodec.

Section Typing.
Context {B : Type} `{ZerocopyCrate B} `{!ProstVarint} `{!ProstWrappers B} `{!ProstChecks B}.
Context (ptr_size : nat).
#[local] Set Default Proof Using "Type*".

(** What a buffer holds, by the type that is read from it. An integer, a string and a vector
    are the whole buffer; any non-zero byte of a vector is [true]; an element of a tuple is
    preceded by its length, and what follows the last one is ignored. *)
Fixpoint ty_reads (t : wire_ty) (b : B) : ty_val t -> Prop :=
  match t return ty_val t -> Prop with
  | TyUnit => fun _ => True
  | TyBool => fun v => exists z, bytes_data b = [z] /\ v = negb (z =? 0)%Z
  | TyInt t => fun z => 0 < it_size t -> in_range t z /\ bytes_data b = int_bytes t z
  | TySize signed => fun z =>
      in_range (size_ty ptr_size signed) z /\ bytes_data b = int_bytes (wire_size_ty signed) z
  | TyString => fun s => utf8_valid s = true /\ bytes_data b = s
  | TyVecInt t => fun zs =>
      0 < it_size t -> Forall (in_range t) zs /\ bytes_data b = concat (int_bytes t <$> zs)
  | TyVecBool => fun bs => bs = (fun z => negb (z =? 0)%Z) <$> bytes_data b
  | TyVecSize signed => fun zs =>
      Forall (in_range (size_ty ptr_size signed)) zs /\
      bytes_data b = concat (int_bytes (wire_size_ty signed) <$> zs)
  | TyTuple ts => tys_reads ts b
  | TyOption t => fun o =>
      match o with
      | Some v => exists field, proto_option_decode b = Ok (Some field) /\ ty_reads t field v
      | None => proto_option_decode b = Ok None
      end
  | TyResult t => fun r =>
      match r with
      | Ok v => exists field, proto_result_decode b = Ok (Some (Ok field)) /\ ty_reads t field v
      | Err e => utf8_valid e = true /\ proto_result_decode b = Ok (Some (Err e))
      end
  end
with tys_reads (ts : wire_tys) (b : B) : tys_val ts -> Prop :=
  match ts return tys_val ts -> Prop with
  | TyNil => fun _ => True
  | TyCons t ts => fun p => exists element rest,
      bytes_data b = int_bytes u32 (Z.of_nat (length (bytes_data element))) ++
                     bytes_data element ++ bytes_data rest /\
      ty_reads t element p.1 /\ tys_reads ts rest p.2
  end.

(** ** Integers read from memory *)

Lemma from_le_range l : is_bytes l -> (0 <= from_le l < 2 ^ (8 * Z.of_nat (length l)))%Z.
Proof.
  induction 1 as [|b l Hb _ IH]; [done|]. cbn [from_le length].
  replace (8 * Z.of_nat (S (length l)))%Z with (8 + 8 * Z.of_nat (length l))%Z by lia.
  rewrite Z.pow_add_r by lia. change (2 ^ 8)%Z with 256%Z. lia.
Qed.

Lemma int_of_bytes_range t l :
  0 < it_size t -> is_bytes l -> length l <= it_size t -> in_range t (int_of_bytes t l).
Proof.
  intros Hs Hb Hl. unfold in_range, int_of_bytes, it_bits.
  pose proof (from_le_range l Hb) as Hr. destruct (it_signed t).
  - unfold in_s, wrap_s. set (w := (8 * Z.of_nat (it_size t))%Z).
    pose proof (Z.mod_pos_bound (from_le l + 2 ^ (w - 1)) (2 ^ w) ltac:(apply Z.pow_pos_nonneg; lia)).
    assert (2 ^ w = 2 * 2 ^ (w - 1))%Z; [|lia].
    rewrite <- Z.pow_succ_r by lia. f_equal. lia.
  - unfold in_u. split; [lia|]. eapply Z.lt_le_trans; [apply Hr|]. apply Z.pow_le_mono_r; lia.
Qed.

Lemma le_bytes_from_le l : is_bytes l -> le_bytes (length l) (from_le l) = l.
Proof.
  induction 1 as [|b l Hb _ IH]; [done|]. cbn [length from_le le_bytes].
  rewrite (Z.mul_comm 256), Z.mod_add, Z.mod_small, Z.div_add, Z.div_small, Z.add_0_l, IH by lia. done.
Qed.

Lemma le_bytes_mod n z : le_bytes n (z mod 2 ^ (8 * Z.of_nat n)) = le_bytes n z.
Proof.
  revert z. induction n as [|n IH]; intros z; [done|]. cbn [le_bytes].
  replace (8 * Z.of_nat (S n))%Z with (8 + 8 * Z.of_nat n)%Z by lia.
  assert (0 < 2 ^ (8 * Z.of_nat n))%Z by (apply Z.pow_pos_nonneg; lia).
  rewrite Z.pow_add_r by lia. change (2 ^ 8)%Z with 256%Z. rewrite Z.rem_mul_r by lia.
  rewrite (Z.mul_comm 256), Z.mod_add, Z.mod_mod, Z.div_add by lia.
  rewrite (Z.div_small (z mod 256)) by (apply Z.mod_pos_bound; lia). by rewrite Z.add_0_l, IH.
Qed.

Lemma int_bytes_of_bytes t l :
  0 < it_size t -> is_bytes l -> length l = it_size t -> int_bytes t (int_of_bytes t l) = l.
Proof.
  intros Hs Hb Hl. unfold int_bytes, int_of_bytes, it_bits. rewrite <- Hl.
  destruct (it_signed t); [|by apply le_bytes_from_le].
  transitivity (le_bytes (length l) (from_le l)); [|by apply le_bytes_from_le].
  rewrite <- (le_bytes_mod _ (wrap_s _ _)), <- (le_bytes_mod _ (from_le l)). f_equal. unfold wrap_s. rewrite Zminus_mod_idemp_l. f_equal. lia.
Qed.

(** The chunks of a buffer of whole chunks are the buffer. *)
Lemma chunks_concat_id k fuel n l :
  0 < n -> length l = k * n -> length l <= fuel ->
  concat (chunks fuel n l) = l /\ Forall (fun c => length c = n) (chunks fuel n l).
Proof.
  intros Hn. revert fuel l. induction k as [|k IH]; intros fuel l Hl Hf.
  - apply length_zero_iff_nil in Hl as ->. by destruct fuel.
  - destruct l as [|x l]; [simpl in Hl; lia|]. destruct fuel as [|fuel]; [simpl in Hf; lia|].
    cbn [chunks]. set (xl := x :: l) in *. assert (length (drop n xl) = k * n) as Hd.
    { rewrite length_drop. lia. }
    destruct (IH fuel (drop n xl) Hd ltac:(lia)) as [Hc Hall]. split.
    + cbn [concat]. by rewrite Hc, take_drop.
    + constructor; [|done]. rewrite length_take. lia.
Qed.

Lemma concat_bytes_of_bytes t (ls : list (list Z)) :
  0 < it_size t -> Forall (fun c => length c = it_size t) ls -> is_bytes (concat ls) ->
  Forall (in_range t) (int_of_bytes t <$> ls) /\ concat (int_bytes t <$> (int_of_bytes t <$> ls)) = concat ls.
Proof.
  intros Hs. induction 1 as [|c ls Hc _ IH]; [by split|]. cbn [concat fmap list_fmap].
  intros [Hb Hbs]%Forall_app. destruct (IH Hbs) as [Hr He]. split.
  - constructor; [|done]. apply int_of_bytes_range; [done..|lia].
  - cbn [concat]. by rewrite int_bytes_of_bytes, He.
Qed.

Lemma read_from_bytes_reads t b z :
  0 < it_size t -> is_bytes (bytes_data b) -> read_from_bytes t b = Ok z ->
  in_range t z /\ bytes_data b = int_bytes t z.
Proof.
  intros Hs Hb Hr. pose proof (read_from_bytes_law t b) as Hl. case_bool_decide as He.
  - rewrite Hl in Hr. simplify_eq. split; [apply int_of_bytes_range; [done..|lia]|].
    by rewrite int_bytes_of_bytes.
  - destruct Hl as [e Hl]. congruence.
Qed.

Lemma ref_from_bytes_reads t b zs :
  0 < it_size t -> is_bytes (bytes_data b) -> ref_from_bytes t b = Ok zs ->
  Forall (in_range t) zs /\ bytes_data b = concat (int_bytes t <$> zs).
Proof.
  intros Hs Hb Hr. pose proof (ref_from_bytes_law t b Hs) as Hl. case_bool_decide as Hm.
  - rewrite Hl in Hr. destruct Hm as [_ [k Hk]%Z.mod_divide]; [|lia]. simplify_eq. unfold ints_of_bytes.
    destruct (chunks_concat_id (Z.to_nat k) (length (bytes_data b)) (it_size t) (bytes_data b))
      as [Hc Hall]; [done|nia|done|].
    rewrite <- Hc in Hb. destruct (concat_bytes_of_bytes t _ Hs Hall Hb) as [? He]. by rewrite He, Hc.
  - destruct Hl as [e Hl]. congruence.
Qed.

Lemma size_try_from_exact signed z v :
  size_try_from ptr_size signed z = Ok v -> z = v /\ in_range (size_ty ptr_size signed) v.
Proof. unfold size_try_from. case_bool_decide; [|done]. by intros [= <-]. Qed.

Lemma size_try_from_all_exact signed zs vs :
  size_try_from_all ptr_size signed zs = Ok vs -> zs = vs /\ Forall (in_range (size_ty ptr_size signed)) vs.
Proof.
  revert vs. induction zs as [|z zs IH]; intros vs He; simpl in He; [by simplify_eq|].
  destruct (size_try_from ptr_size signed z) as [v|] eqn:Ev; [|done]. simpl in He.
  destruct (size_try_from_all ptr_size signed zs) as [vs'|]; [|done]. simplify_eq/=.
  apply size_try_from_exact in Ev as [-> ?]. destruct (IH vs' eq_refl) as [-> ?]. by split; [|constructor].
Qed.

(** An element of a tuple is as long as the four bytes before it say. *)
Lemma decode_element_reads b e b' :
  is_bytes (bytes_data b) -> decode_element b = Done (Ok (e, b')) ->
  bytes_data b = int_bytes u32 (Z.of_nat (length (bytes_data e))) ++ bytes_data e ++ bytes_data b' /\
  is_bytes (bytes_data e) /\ is_bytes (bytes_data b').
Proof.
  intros Hb He. unfold decode_element in He. case_bool_decide as Hlt; [done|].
  destruct (bytes_split_to_law (it_size u32) b) as (h & t & Hsp & Hh & Ht & _); [lia|].
  rewrite Hsp in He. cbn [outcome_bind] in He.
  assert (Hbh : is_bytes (bytes_data h)) by (rewrite Hh; by apply Forall_take).
  assert (Hbt : is_bytes (bytes_data t)) by (rewrite Ht; by apply Forall_drop).
  destruct (read_from_bytes u32 h) as [len|] eqn:Er; [|done].
  apply read_from_bytes_reads in Er as [Hlen Hd]; [|simpl; lia|done].
  case_bool_decide as Hge; [done|]. unfold in_range, in_u in Hlen. simpl in Hlen.
  destruct (bytes_split_to_law (Z.to_nat len) t) as (e2 & b2 & Hsp2 & He2 & Hb2 & _); [lia|].
  rewrite Hsp2 in He. cbn [outcome_bind] in He. injection He as -> ->. split_and!.
  - rewrite He2, Hb2, take_drop, length_take, Nat.min_l, Z2Nat.id, <- Hd, Hh, Ht by lia.
    symmetry. apply take_drop.
  - rewrite He2. by apply Forall_take.
  - rewrite Hb2. by apply Forall_drop.
Qed.

Lemma dec_map_ok {X Y} (f : X -> Y) d v :
  dec_map f d = Done (Ok v) -> exists x, d = Done (Ok x) /\ v = f x.
Proof. destruct d as [[x|]|]; simpl; intros [= <-]. eauto. Qed.

(** C19. Whatever bytes a peer sent, the default codec decodes a value only from a buffer
    that holds it: an integer from its own bytes and no others, a [usize] or [isize] from
    the eight bytes of a number that fits the pointers of the target, a string from its own
    UTF-8 text, a vector from the bytes of its elements, a tuple from elements as long as
    their prefixes say; at every depth. Nothing is truncated, wrapped or replaced. *)
Theorem decoding_is_exact t b v (Hb : is_bytes (bytes_data b))
    (Hd : ty_decode ptr_size t b = Done (Ok v)) : ty_reads t b v.
Proof.
  revert b v Hb Hd. apply (wire_ty_mut
    (fun t => forall b v, is_bytes (bytes_data b) -> ty_decode ptr_size t b = Done (Ok v) -> ty_reads t b v)
    (fun ts => forall b vs, is_bytes (bytes_data b) -> tys_decode ptr_size ts b = Done (Ok vs) ->
       tys_reads ts b vs)); clear t; simpl; try done.
  - intros b v Hb [= Hd]. unfold bool_decode in Hd.
    destruct (read_from_bytes u8 b) as [z|] eqn:Er; simplify_eq/=.
    pose proof (read_from_bytes_law u8 b) as Hl. case_bool_decide as He; [|by destruct Hl; congruence].
    rewrite Hl in Er. destruct (bytes_data b) as [|x [|??]] eqn:Eb; try done. simplify_eq/=.
    exists x. unfold int_of_bytes. cbn [it_signed u8 from_le]. by rewrite Z.mul_0_r, Z.add_0_r.
  - intros t b v Hb [= Hd] Hs. unfold int_decode in Hd.
    destruct (read_from_bytes t b) eqn:Er; simplify_eq/=. by apply read_from_bytes_reads.
  - intros signed b v Hb [= Hd]. unfold size_decode, int_decode in Hd.
    destruct (read_from_bytes _ b) eqn:Er; simplify_eq/=.
    apply size_try_from_exact in Hd as [-> ?]. split; [done|].
    by apply read_from_bytes_reads in Er as [_ ?]; [|destruct signed; simpl; lia|].
  - intros b v Hb [= Hd]. unfold string_decode in Hd.
    destruct (utf8_valid (bytes_data b)) eqn:Eu; by simplify_eq.
  - intros t b v Hb [= Hd] Hs. unfold vec_int_decode in Hd.
    destruct (bytes_data b) eqn:Eb; [by simplify_eq|]. rewrite <- Eb in *.
    destruct (ref_from_bytes t b) eqn:Er; simplify_eq/=. by apply ref_from_bytes_reads.
  - intros b v Hb [= Hd]. unfold vec_bool_decode in Hd. by destruct (bytes_data b); simplify_eq.
  - intros signed b v Hb [= Hd]. unfold vec_size_decode in Hd.
    destruct (bytes_data b) eqn:Eb; [by simplify_eq|]. rewrite <- Eb in *.
    destruct (ref_from_bytes _ b) eqn:Er; simplify_eq/=.
    apply size_try_from_all_exact in Hd as [-> ?].
    by apply ref_from_bytes_reads in Er as [_ ?]; [|destruct signed; simpl; lia|].
  - intros t IH b o Hb Hd.
    destruct (proto_option_decode b) as [[b'|]|] eqn:Eo; [|by simplify_eq|done].
    apply dec_map_ok in Hd as (x & Hx & ->). exists b'. split; [done|].
    apply IH; [|done]. by eapply proto_option_bytes.
  - intros t IH b r Hb Hd.
    destruct (proto_result_decode b) as [[[b'|e]|]|] eqn:Er; [| |done..].
    + apply dec_map_ok in Hd as (x & Hx & ->). exists b'. split; [done|].
      apply IH; [|done]. by eapply proto_result_bytes.
    + simplify_eq. split; [by eapply proto_result_text|done].
  - intros t IHt ts IHts b vs Hb Hd.
    destruct (decode_element b) as [[[e b']|]|] eqn:Ee; simplify_eq/=.
    destruct (decode_element_reads b e b' Hb Ee) as (He & Hbe & Hb').
    destruct (ty_decode ptr_size t e) as [[x|]|] eqn:Ex; simplify_eq/=.
    apply dec_map_ok in Hd as (xs & Hxs & ->). exists e, b'. auto.
Qed.
End Typing.

(** ** Witness: a byte and an optional string, followed by a stray byte *)

Section Witness.

Definition reads_ty : wire_ty := TyTuple (TyCons (TyInt u8) (TyCons (TyOption TyString) TyNil)).

Definition reads_bytes : list Z := [1;0;0;0; 200; 4;0;0;0; 10;2;104;105; 7]%Z.

Lemma reads_bytes_ok : is_bytes (bytes_data (mkSlice 16 reads_bytes)).
Proof. repeat constructor; done. Qed.

Lemma decoding_is_exact_witness :
  ty_reads 8 reads_ty (mkSlice 16 reads_bytes) (200%Z, (Some [104; 105]%Z, tt)).
Proof.
  exact (decoding_is_exact 8 reads_ty (mkSlice 16 reads_bytes) (200%Z, (Some [104; 105]%Z, tt))
           reads_bytes_ok eq_refl).
Defined.
End Witness.
