(* ===== verification/ProstCodec.v ===== *)
(** * The protobuf codec

    Models acktor/src/codec/prost_codec.rs, the alternative of the default codec: scalars are
    prost's own messages (narrow integers through a wider one), vectors are packed fields
    written by hand, tuples are messages of optional byte fields; options and results are
    those of DefaultCodec.v (common_codec.rs). The decoders are prost's, a parameter that
    states what protobuf specifies of them. Floats travel as their bits. *)

From S2P Require Import Prelude Tokio ActorTypes UserCode WireLibs Codec DefaultCodec.

(** ** Zigzag integers *)

(** [(((n << 1) ^ (n >> 31)) as u32) as u64] on [i32]. *)
Definition zigzag32 (n : Z) : Z :=
  wrap_u 32 (Z.lxor (wrap_s 32 (Z.shiftl n 1)) (Z.shiftr n 31)).

(** [((n << 1) ^ (n >> 63)) as u64] on [i64]. *)
Definition zigzag64 (n : Z) : Z :=
  wrap_u 64 (Z.lxor (wrap_s 64 (Z.shiftl n 1)) (Z.shiftr n 63)).

(** What protobuf specifies: 0, -1, 1, -2, 2, ... are 0, 1, 2, 3, 4, ... *)
Definition zigzag (n : Z) : Z := if (0 <=? n)%Z then (2 * n)%Z else (- 2 * n - 1)%Z.

(** ** What prost generates and implements *)

(** The element types of the messages [VecBool], [VecInt32], [VecInt64], [VecUint32] and
    [VecUint64]; [VecFloat] and [VecDouble] are fixed-width. *)
Inductive VecField : Type := FBool | FSint32 | FSint64 | FUint32 | FUint64.

Definition field_range (f : VecField) (z : Z) : Prop :=
  match f with
  | FBool => in_u 1 z
  | FSint32 => in_s 32 z
  | FSint64 => in_s 64 z
  | FUint32 => in_u 32 z
  | FUint64 => in_u 64 z
  end.

(** An element as the varint protobuf specifies. *)
Definition field_varint (f : VecField) (z : Z) : Z :=
  match f with FSint32 | FSint64 => zigzag z | _ => z end.

(** The scalar types that prost implements [Message] for; [ScFloat t] is a float whose bits
    are a [t]. *)
Inductive Scalar : Type := ScUnit | ScBool | ScInt (t : IntTy) | ScFloat (t : IntTy) | ScString | ScBytes.

Definition scalar_val (s : Scalar) : Type :=
  match s with ScUnit => unit | ScBool => bool | ScInt _ | ScFloat _ => Z | ScString | ScBytes => list Z end.

Definition scalar_ok (s : Scalar) : scalar_val s -> Prop :=
  match s with
  | ScUnit | ScBool => fun _ => True
  | ScInt t | ScFloat t => fun z => 0 < it_size t /\ in_range t z
  | ScString => fun l => utf8_valid l = true
  | ScBytes => fun _ => True
  end.

(** The bits of a float with only the sign set. *)
Definition negative_zero (t : IntTy) : Z := (2 ^ (it_bits t - 1))%Z.

(** What arrives. A message leaves out a field equal to its default, and prost compares floats
    with [==], so a negative zero is left out as well and comes back as zero. *)
Definition scalar_received (s : Scalar) : scalar_val s -> scalar_val s :=
  match s with
  | ScFloat t => fun z => if bool_decide (z = negative_zero t) then 0%Z else z
  | _ => id
  end.

(** A length-delimited field. *)
Definition wire_field `{ProstVarint} (field : nat) (l : list Z) : list Z :=
  [tag field] ++ prost_encode_varint (Z.of_nat (length l)) ++ l.

Fixpoint wire_fields `{ProstVarint} (field : nat) (ls : list (list Z)) : list Z :=
  match ls with
  | [] => []
  | l :: ls => wire_field field l ++ wire_fields (S field) ls
  end.

Class ProstGenerated (B : Type) `{BytesCrate B} `{ProstVarint} : Type := {
  scalar_encoded_len (s : Scalar) : scalar_val s -> nat;
  scalar_encode (s : Scalar) : scalar_val s -> list Z;
  scalar_decode (s : Scalar) : B -> result (scalar_val s) string;
  vec_decode : VecField -> B -> result (list Z) string;
  fixed_decode : IntTy -> B -> result (list Z) string;
  tuple_decode : B -> result (list (option B)) string;
  scalar_len_law s v : scalar_ok s v -> length (scalar_encode s v) = scalar_encoded_len s v;
  scalar_law s v b :
    scalar_ok s v -> bytes_data b = scalar_encode s v ->
    scalar_decode s b = Ok (scalar_received s v);
  vec_decode_nil f b : bytes_data b = [] -> vec_decode f b = Ok [];
  vec_decode_packed f zs b :
    let l := concat ((fun z => prost_encode_varint (field_varint f z)) <$> zs) in
    Forall (field_range f) zs -> in_u 64 (Z.of_nat (length l)) ->
    bytes_data b = wire_field 1 l -> vec_decode f b = Ok zs;
  fixed_decode_nil t b : bytes_data b = [] -> fixed_decode t b = Ok [];
  fixed_decode_packed t zs b :
    let l := concat (int_bytes t <$> zs) in
    0 < it_size t -> Forall (in_range t) zs -> in_u 64 (Z.of_nat (length l)) ->
    bytes_data b = wire_field 1 l -> fixed_decode t b = Ok zs;
  tuple_decode_law ls b :
    length ls <= 10 -> Forall (fun l => in_u 64 (Z.of_nat (length l))) ls ->
    bytes_data b = wire_fields 1 ls ->
    exists bs, tuple_decode b = Ok ((Some <$> bs) ++ replicate (10 - length ls) None) /\
      Forall2 (fun b l => bytes_data b = l) bs ls;
}.

(** ** The types of the codec *)

(** [PtCast t wire]: a [t] that travels as a [wire]; [PtVec f t]: a vector of [t] in a
    message with elements [f]; [PtFixed t]: a vector of floats, as their bits in [t]. *)
Inductive prost_ty : Type :=
| PtScalar (s : Scalar)
| PtCast (t wire : IntTy)
| PtVecBool
| PtVec (f : VecField) (t : IntTy)
| PtFixed (t : IntTy)
| PtTuple (ts : prost_tys)
| PtOption (t : prost_ty)
| PtResult (t : prost_ty)
with prost_tys : Type :=
| PtNil
| PtCons (t : prost_ty) (ts : prost_tys).

Scheme prost_ty_mut := Induction for prost_ty Sort Prop
  with prost_tys_mut := Induction for prost_tys Sort Prop.
Combined Scheme prost_ty_both from prost_ty_mut, prost_tys_mut.

Fixpoint prost_val (t : prost_ty) : Type :=
  match t with
  | PtScalar s => scalar_val s
  | PtCast _ _ => Z
  | PtVecBool => list bool
  | PtVec _ _ | PtFixed _ => list Z
  | PtTuple ts => prosts_val ts
  | PtOption t => option (prost_val t)
  | PtResult t => result (prost_val t) (list Z)
  end
with prosts_val (ts : prost_tys) : Type :=
  match ts with
  | PtNil => unit
  | PtCons t ts => (prost_val t * prosts_val ts)%type
  end.

Section ProstCodec.
Context {B R : Type} `{BytesCrate B} `{!ProstVarint} `{!ProstWrappers B} `{!ProstGenerated B}.

(** [to_varint] of the impls: [zigzag32(v as i32)], [zigzag64(v as i64)], [v as u64]. *)
Definition to_varint (f : VecField) (z : Z) : Z :=
  match f with
  | FSint32 => zigzag32 (wrap_s 32 z)
  | FSint64 => zigzag64 (wrap_s 64 z)
  | _ => wrap_u 64 z
  end.

(** ** Packed vectors *)

Definition packed_data_len {T} (to_varint : T -> Z) (values : list T) : nat :=
  sum_list ((fun v => prost_encoded_len_varint (to_varint v)) <$> values).

Definition encoded_len_packed_varint {T} (to_varint : T -> Z) (values : list T) : nat :=
  match values with
  | [] => 0
  | _ => optional_length_delimited_field_encoded_len (packed_data_len to_varint values)
  end.

(** [for &value in values { .. }] *)
Fixpoint encode_all {T} (write : T -> encoder R) (values : list T) : encoder R :=
  match values with
  | [] => enc_ok
  | v :: values => enc_seq (write v) (encode_all write values)
  end.

Definition encode_packed_varint {T} (to_varint : T -> Z) (values : list T) : encoder R :=
  match values with
  | [] => enc_ok
  | _ =>
      encode_field 1 (packed_data_len to_varint values)
        (encode_all (fun v => extend_from_slice (prost_encode_varint (to_varint v))) values)
  end.

Definition encoded_len_packed_fixed (t : IntTy) (values : list Z) : nat :=
  match values with
  | [] => 0
  | _ => optional_length_delimited_field_encoded_len (length values * it_size t)
  end.

(** [to_le_bytes] of each value. *)
Definition encode_packed_fixed (t : IntTy) (values : list Z) : encoder R :=
  match values with
  | [] => enc_ok
  | _ =>
      encode_field 1 (length values * it_size t)
        (encode_all (fun v => extend_from_slice (int_bytes t v)) values)
  end.

(** [<t>::try_from(value)]. *)
Definition int_try_from (t : IntTy) (value : Z) : result Z DecodeError :=
  if bool_decide (in_range t value) then Ok value
  else Err (DecodeOther "out of range integral type conversion attempted").

Fixpoint int_try_from_all (t : IntTy) (zs : list Z) : result (list Z) DecodeError :=
  match zs with
  | [] => Ok []
  | z :: zs =>
      let? v := int_try_from t z in
      let? vs := int_try_from_all t zs in
      Ok (v :: vs)
  end.

(** [as], to an integer type. *)
Definition as_int (t : IntTy) (z : Z) : Z :=
  if it_signed t then wrap_s (it_bits t) z else wrap_u (it_bits t) z.

(** ** Dispatch *)

Fixpoint prost_encoded_len (t : prost_ty) : prost_val t -> nat :=
  match t return prost_val t -> nat with
  | PtScalar s => scalar_encoded_len s
  | PtCast t wire => fun z => scalar_encoded_len (ScInt wire) (as_int wire z)
  | PtVecBool => encoded_len_packed_varint Z.b2z
  | PtVec f t => encoded_len_packed_varint (to_varint f)
  | PtFixed t => encoded_len_packed_fixed t
  | PtTuple ts => prosts_encoded_len ts
  | PtOption t => fun o =>
      match o with
      | Some v => optional_length_delimited_field_encoded_len (prost_encoded_len t v)
      | None => 0
      end
  | PtResult t => fun r =>
      optional_length_delimited_field_encoded_len
        match r with Ok v => prost_encoded_len t v | Err e => length e end
  end
with prosts_encoded_len (ts : prost_tys) : prosts_val ts -> nat :=
  match ts return prosts_val ts -> nat with
  | PtNil => fun _ => 0
  | PtCons t ts => fun p =>
      let element_len := prost_encoded_len t p.1 in
      1 + prost_encoded_len_varint (Z.of_nat element_len) + element_len + prosts_encoded_len ts p.2
  end.

(** [index] counts the elements of a tuple; the field of element [index] is [index + 1]. *)
Fixpoint prost_encode (t : prost_ty) : prost_val t -> encoder R :=
  match t return prost_val t -> encoder R with
  | PtScalar s => fun v => extend_from_slice (scalar_encode s v)
  | PtCast t wire => fun z => extend_from_slice (scalar_encode (ScInt wire) (as_int wire z))
  | PtVecBool => encode_packed_varint Z.b2z
  | PtVec f t => encode_packed_varint (to_varint f)
  | PtFixed t => encode_packed_fixed t
  | PtTuple ts => prosts_encode ts 0
  | PtOption t => fun o =>
      match o with
      | Some v => encode_field 1 (prost_encoded_len t v) (prost_encode t v)
      | None => enc_ok
      end
  | PtResult t => fun r =>
      match r with
      | Ok v => encode_field 1 (prost_encoded_len t v) (prost_encode t v)
      | Err e => encode_field 2 (length e) (extend_from_slice e)
      end
  end
with prosts_encode (ts : prost_tys) (index : nat) : prosts_val ts -> encoder R :=
  match ts return prosts_val ts -> encoder R with
  | PtNil => fun _ => enc_ok
  | PtCons t ts => fun p =>
      enc_seq (encode_field (index + 1) (prost_encoded_len t p.1) (prost_encode t p.1))
        (prosts_encode ts (S index) p.2)
  end.

Fixpoint prost_decode (t : prost_ty) (buf : B) : result (prost_val t) DecodeError :=
  match t return result (prost_val t) DecodeError with
  | PtScalar s => result_map_err DecodeOther (scalar_decode s buf)
  | PtCast t wire =>
      let? value := result_map_err DecodeOther (scalar_decode (ScInt wire) buf) in int_try_from t value
  | PtVecBool =>
      let? message := result_map_err DecodeOther (vec_decode FBool buf) in
      Ok ((fun z => negb (z =? 0)%Z) <$> message)
  | PtVec f t =>
      let? message := result_map_err DecodeOther (vec_decode f buf) in int_try_from_all t message
  | PtFixed t => result_map_err DecodeOther (fixed_decode t buf)
  | PtTuple ts =>
      let? message := result_map_err DecodeOther (tuple_decode buf) in prosts_decode ts message
  | PtOption t =>
      let? o := result_map_err DecodeOther (proto_option_decode buf) in
      match o with
      | Some bytes => result_map Some (prost_decode t bytes)
      | None => Ok None
      end
  | PtResult t =>
      let? o := result_map_err DecodeOther (proto_result_decode buf) in
      match o with
      | Some (Ok ok) => result_map Ok (prost_decode t ok)
      | Some (Err err) => Ok (Err err)
      | None => Err (DecodeOther "missing field `result` in the `Result` message")
      end
  end
with prosts_decode (ts : prost_tys) (fields : list (option B)) : result (prosts_val ts) DecodeError :=
  match ts return result (prosts_val ts) DecodeError with
  | PtNil => Ok tt
  | PtCons t ts =>
      match fields with
      | Some element :: fields =>
          let? v := prost_decode t element in
          result_map (pair v) (prosts_decode ts fields)
      | _ => Err (DecodeOther "missing field in tuple message")
      end
  end.
End ProstCodec.
