(* ===== verification/ProstTheorems.v ===== *)
(** * Round trips of the protobuf codec

    Theorems about ProstCodec.v: the bit tricks of the hand-written vectors compute the
    zigzag numbers of protobuf, and every value of every type of the codec is recovered
    from its encoding, of exactly the announced length, wherever the buffer lies. *)

From S2P Require Import Prelude Tokio ActorTypes UserCode WireLibs Codec DefaultCodec ProstCodec.

(** ** Zigzag *)

Lemma shiftr_sign w n : (0 < w)%Z -> in_s w n ->
  Z.shiftr n (w - 1) = (if (0 <=? n)%Z then 0 else -1)%Z.
Proof.
  unfold in_s. intros Hw Hn. rewrite Z.shiftr_div_pow2 by lia. destruct (Z.leb_spec 0 n).
  - apply Z.div_small. lia.
  - symmetry. apply (Z.div_unique n (2 ^ (w - 1)) (-1) (n + 2 ^ (w - 1))); lia.
Qed.

Lemma wrap_s_congruent w z : (0 <= w)%Z -> exists k, wrap_s w z = (z + k * 2 ^ w)%Z.
Proof.
  intros Hw. unfold wrap_s. exists (- ((z + 2 ^ (w - 1)) / 2 ^ w))%Z.
  rewrite Zmod_eq_full by (apply Z.pow_nonzero; lia). lia.
Qed.

(** Doubling modulo [2 ^ w], then flipping every bit of a negative number. *)
Lemma zigzag_bits w n : (1 < w)%Z -> in_s w n ->
  wrap_u w (Z.lxor (wrap_s w (Z.shiftl n 1)) (Z.shiftr n (w - 1))) = zigzag n.
Proof.
  intros Hw Hn. rewrite shiftr_sign by (done || lia).
  rewrite Z.shiftl_mul_pow2 by lia. change (2 ^ 1)%Z with 2%Z.
  assert (Hp : (2 ^ w = 2 * 2 ^ (w - 1))%Z) by (rewrite <- Z.pow_succ_r by lia; f_equal; lia).
  destruct (wrap_s_congruent w (n * 2)) as [k ->]; [lia|].
  unfold in_s in Hn. unfold zigzag, wrap_u. destruct (Z.leb_spec 0 n).
  - rewrite Z.lxor_0_r, Z_mod_plus_full, Z.mod_small by lia. lia.
  - rewrite Z.lxor_m1_r. unfold Z.lnot.
    replace (Z.pred (- (n * 2 + k * 2 ^ w)))%Z with (- 2 * n - 1 + (- k) * 2 ^ w)%Z by lia.
    rewrite Z_mod_plus_full, Z.mod_small by lia. lia.
Qed.

Lemma zigzag32_spec n : in_s 32 n -> zigzag32 n = zigzag n.
Proof. intros Hn. exact (zigzag_bits 32 n ltac:(lia) Hn). Qed.

Lemma zigzag64_spec n : in_s 64 n -> zigzag64 n = zigzag n.
Proof. intros Hn. exact (zigzag_bits 64 n ltac:(lia) Hn). Qed.

Lemma zigzag_range w n : (0 < w)%Z -> in_s w n -> in_u w (zigzag n).
Proof.
  unfold in_s, in_u, zigzag. intros Hw Hn.
  assert (Hp : (2 ^ w = 2 * 2 ^ (w - 1))%Z) by (rewrite <- Z.pow_succ_r by lia; f_equal; lia).
  destruct (Z.leb_spec 0 n); lia.
Qed.

Lemma zigzag_inj n m : zigzag n = zigzag m -> n = m.
Proof. unfold zigzag. destruct (Z.leb_spec 0 n), (Z.leb_spec 0 m); lia. Qed.

(** C27. The shifts and the exclusive or of [zigzag32] and [zigzag64] compute the zigzag
    number of every [i32] and [i64], without overflow: it fits the unsigned type of the
    same width, and different integers have different numbers. *)
Theorem zigzag_correct n m (Hn : in_s 32 n) (Hm : in_s 64 m) :
  zigzag32 n = zigzag n /\ in_u 32 (zigzag32 n) /\
  zigzag64 m = zigzag m /\ in_u 64 (zigzag64 m) /\
  (forall n', in_s 32 n' -> zigzag32 n' = zigzag32 n -> n' = n) /\
  (forall m', in_s 64 m' -> zigzag64 m' = zigzag64 m -> m' = m).
Proof.
  rewrite zigzag32_spec, zigzag64_spec by done.
  split_and!; [done|by apply zigzag_range|done|by apply zigzag_range|..].
  - intros n' Hn'. rewrite zigzag32_spec by done. apply zigzag_inj.
  - intros m' Hm'. rewrite zigzag64_spec by done. apply zigzag_inj.
Qed.

(** ** Round trips *)

Section RoundTrip.
Context {B R : Type} `{BytesCrate B} `{!ProstVarint} `{!ProstWrappers B} `{!ProstGenerated B}.
#[local] Set Default Proof Using "Type*".
#[local] Opaque int_bytes.

(** The contents of a packed vector. *)
Definition packed (f : VecField) (zs : list Z) : list Z :=
  concat ((fun z => prost_encode_varint (field_varint f z)) <$> zs).

(** A field of a non-empty vector; an empty one is left out. *)
Definition vec_bytes {T} (values : list T) (l : list Z) : list Z :=
  match values with [] => [] | _ => wire_field 1 l end.

Fixpoint prosts_count (ts : prost_tys) : nat :=
  match ts with PtNil => 0 | PtCons _ ts => S (prosts_count ts) end.

(** Values the types allow, small enough for their length prefixes. *)
Fixpoint prost_ok (t : prost_ty) : prost_val t -> Prop :=
  match t return prost_val t -> Prop with
  | PtScalar s => scalar_ok s
  | PtCast t wire => fun z => in_range t z /\ 0 < it_size wire /\ in_range wire z
  | PtVecBool => fun bs => in_u 64 (Z.of_nat (length (packed FBool (Z.b2z <$> bs))))
  | PtVec f t => fun zs =>
      Forall (fun z => in_range t z /\ field_range f z) zs /\
      in_u 64 (Z.of_nat (length (packed f zs)))
  | PtFixed t => fun zs =>
      0 < it_size t /\ Forall (in_range t) zs /\ in_u 64 (Z.of_nat (length zs * it_size t))
  | PtTuple ts => fun vs => prosts_count ts <= 10 /\ prosts_ok ts vs
  | PtOption t => fun o =>
      match o with
      | Some v => prost_ok t v /\ in_u 64 (Z.of_nat (prost_encoded_len t v))
      | None => True
      end
  | PtResult t => fun r =>
      match r with
      | Ok v => prost_ok t v /\ in_u 64 (Z.of_nat (prost_encoded_len t v))
      | Err e => utf8_valid e = true /\ in_u 64 (Z.of_nat (length e))
      end
  end
with prosts_ok (ts : prost_tys) : prosts_val ts -> Prop :=
  match ts return prosts_val ts -> Prop with
  | PtNil => fun _ => True
  | PtCons t ts => fun p =>
      prost_ok t p.1 /\ in_u 64 (Z.of_nat (prost_encoded_len t p.1)) /\ prosts_ok ts p.2
  end.

(** The value that arrives: in it a float that was sent on its own, in a tuple, an option or
    a result, is zero if it was negative zero. *)
Fixpoint prost_received (t : prost_ty) : prost_val t -> prost_val t :=
  match t return prost_val t -> prost_val t with
  | PtScalar s => scalar_received s
  | PtTuple ts => prosts_received ts
  | PtOption t => option_map (prost_received t)
  | PtResult t => result_map (prost_received t)
  | _ => id
  end
with prosts_received (ts : prost_tys) : prosts_val ts -> prosts_val ts :=
  match ts return prosts_val ts -> prosts_val ts with
  | PtNil => id
  | PtCons t ts => fun p => (prost_received t p.1, prosts_received ts p.2)
  end.

(** The wire format, as a function. *)
Fixpoint prost_bytes (t : prost_ty) : prost_val t -> list Z :=
  match t return prost_val t -> list Z with
  | PtScalar s => scalar_encode s
  | PtCast _ wire => scalar_encode (ScInt wire)
  | PtVecBool => fun bs => vec_bytes bs (packed FBool (Z.b2z <$> bs))
  | PtVec f _ => fun zs => vec_bytes zs (packed f zs)
  | PtFixed t => fun zs => vec_bytes zs (concat (int_bytes t <$> zs))
  | PtTuple ts => fun vs => wire_fields 1 (prosts_bytes ts vs)
  | PtOption t => fun o => match o with Some v => wire_field 1 (prost_bytes t v) | None => [] end
  | PtResult t => fun r =>
      match r with Ok v => wire_field 1 (prost_bytes t v) | Err e => wire_field 2 e end
  end
with prosts_bytes (ts : prost_tys) : prosts_val ts -> list (list Z) :=
  match ts return prosts_val ts -> list (list Z) with
  | PtNil => fun _ => []
  | PtCons t ts => fun p => prost_bytes t p.1 :: prosts_bytes ts p.2
  end.

(** *** Scalars *)

Lemma as_int_id t z : in_range t z -> 0 < it_size t -> as_int t z = z.
Proof.
  unfold as_int, in_range. intros Hr Hs. destruct (it_signed t).
  - apply wrap_s_id; [unfold it_bits; lia|done].
  - by apply wrap_u_id.
Qed.

Lemma to_varint_spec f z : field_range f z -> to_varint f z = field_varint f z /\ in_u 64 (field_varint f z).
Proof.
  assert (Hw : forall w, (w <= 64)%Z -> in_u w z -> in_u 64 z).
  { unfold in_u. intros w Hw Hz. pose proof (Z.pow_le_mono_r 2 w 64). lia. }
  destruct f; simpl; intros Hz.
  - rewrite (wrap_u_id 64) by (by apply (Hw 1)%Z). split; [done|by apply (Hw 1)%Z].
  - rewrite (wrap_s_id 32) by (done || lia). rewrite zigzag32_spec by done. split; [done|].
    pose proof (zigzag_range 32 z ltac:(lia) Hz) as Hr. unfold in_u in *. lia.
  - rewrite (wrap_s_id 64) by (done || lia). rewrite zigzag64_spec by done.
    split; [done|]. by apply zigzag_range.
  - rewrite (wrap_u_id 64) by (by apply (Hw 32)%Z). split; [done|by apply (Hw 32)%Z].
  - by rewrite (wrap_u_id 64).
Qed.

Lemma int_try_from_all_ok t zs : Forall (in_range t) zs -> int_try_from_all t zs = Ok zs.
Proof.
  induction 1 as [|z zs Hz _ IH]; simpl; [done|]. unfold int_try_from.
  rewrite bool_decide_eq_true_2 by done. simpl. by rewrite IH.
Qed.

(** *** Vectors *)

Lemma length_wire_field field l :
  in_u 64 (Z.of_nat (length l)) ->
  length (wire_field field l) = optional_length_delimited_field_encoded_len (length l).
Proof.
  intros Hl. unfold wire_field, optional_length_delimited_field_encoded_len.
  rewrite !length_app, prost_varint_len by done. simpl. lia.
Qed.

Lemma field_len_unfold len :
  optional_length_delimited_field_encoded_len len = 1 + prost_encoded_len_varint (Z.of_nat len) + len.
Proof. done. Qed.

Lemma field_writes field len (e : encoder R) l :
  len = length l -> writes e l -> writes (encode_field field len e) (wire_field field l).
Proof. intros -> He. unfold encode_field, wire_field. auto with acktor. Qed.

Lemma encode_all_writes {T} (write : T -> encoder R) (f : T -> list Z) values :
  (forall v, writes (write v) (f v)) -> writes (encode_all write values) (concat (f <$> values)).
Proof.
  intros Hw. induction values as [|v values IH]; simpl; [apply writes_ok|]. by apply writes_seq.
Qed.

(** A vector of values [v] written as the varints of [g v]. *)
Lemma packed_len {T} (tv : T -> Z) (g : T -> Z) f (values : list T) :
  (forall v, v ∈ values -> tv v = field_varint f (g v) /\ in_u 64 (field_varint f (g v))) ->
  packed_data_len tv values = length (packed f (g <$> values)).
Proof.
  unfold packed_data_len, packed. induction values as [|v values IH]; intros Hv; [done|].
  rewrite !fmap_cons. cbn [concat sum_list_with sum_list foldr]. rewrite length_app.
  destruct (Hv v) as [He Hr]; [apply list_elem_of_here|]. rewrite He, prost_varint_len by done. f_equal.
  apply IH. intros v' Hv'. by apply Hv, list_elem_of_further.
Qed.

Lemma packed_bytes {T} (tv : T -> Z) (g : T -> Z) f (values : list T) :
  (forall v, v ∈ values -> tv v = field_varint f (g v) /\ in_u 64 (field_varint f (g v))) ->
  concat ((fun v => prost_encode_varint (tv v)) <$> values) = packed f (g <$> values).
Proof.
  unfold packed. induction values as [|v values IH]; intros Hv; [done|].
  rewrite !fmap_cons. cbn [concat]. destruct (Hv v) as [-> _]; [apply list_elem_of_here|]. f_equal.
  apply IH. intros v' Hv'. by apply Hv, list_elem_of_further.
Qed.

(** A packed vector has the announced length and is written as announced. *)
Lemma packed_spec {T} (tv : T -> Z) (g : T -> Z) f (values : list T) :
  (forall v, v ∈ values -> tv v = field_varint f (g v) /\ in_u 64 (field_varint f (g v))) ->
  in_u 64 (Z.of_nat (length (packed f (g <$> values)))) ->
  let l := vec_bytes values (packed f (g <$> values)) in
  length l = encoded_len_packed_varint tv values /\
  writes (encode_packed_varint (R := R) tv values) l.
Proof.
  intros Hv Hl. pose proof (packed_len tv g f values Hv) as Hlen.
  pose proof (packed_bytes tv g f values Hv) as Hb.
  unfold vec_bytes, encoded_len_packed_varint, encode_packed_varint.
  destruct values as [|v values]; [by split; [|apply writes_ok]|].
  rewrite Hlen, <- Hb. split.
  - rewrite length_wire_field; by rewrite Hb.
  - apply field_writes; [done|].
    apply (encode_all_writes _ (fun v => prost_encode_varint (tv v))). intros x. apply writes_slice.
Qed.

Lemma fixed_spec t (zs : list Z) :
  in_u 64 (Z.of_nat (length zs * it_size t)) ->
  let l := vec_bytes zs (concat (int_bytes t <$> zs)) in
  length l = encoded_len_packed_fixed t zs /\ writes (encode_packed_fixed (R := R) t zs) l.
Proof.
  intros Hl. pose proof (length_concat_int_bytes t zs) as Hlen.
  unfold vec_bytes, encoded_len_packed_fixed, encode_packed_fixed.
  destruct zs as [|z zs]; [by split; [|apply writes_ok]|]. rewrite <- Hlen in *. split.
  - by rewrite length_wire_field.
  - apply field_writes; [done|]. apply (encode_all_writes _ (int_bytes t)).
    intros v. apply writes_slice.
Qed.

Lemma bool_values (bs : list bool) v :
  v ∈ bs -> Z.b2z v = field_varint FBool (Z.b2z v) /\ in_u 64 (field_varint FBool (Z.b2z v)).
Proof. by destruct v. Qed.

Lemma vec_values f t (zs : list Z) :
  Forall (fun z => in_range t z /\ field_range f z) zs ->
  forall v, v ∈ zs -> to_varint f v = field_varint f v /\ in_u 64 (field_varint f v).
Proof. rewrite Forall_forall. intros Hf v Hv. by apply to_varint_spec, Hf. Qed.

#[local] Opaque wire_field optional_length_delimited_field_encoded_len.

(** *** Encoding *)

(** What a type must satisfy, and a tuple from any of its elements on. *)
Definition encodes (t : prost_ty) : Prop := forall v, prost_ok t v ->
  length (prost_bytes t v) = prost_encoded_len t v /\
  writes (prost_encode (R := R) t v) (prost_bytes t v).

Definition encodes_all (ts : prost_tys) : Prop := forall vs index, prosts_ok ts vs ->
  length (wire_fields (S index) (prosts_bytes ts vs)) = prosts_encoded_len ts vs /\
  writes (prosts_encode (R := R) ts index vs) (wire_fields (S index) (prosts_bytes ts vs)).

Lemma prost_encodes : (forall t, encodes t) /\ (forall ts, encodes_all ts).
Proof.
  apply prost_ty_both; unfold encodes, encodes_all; simpl.
  - intros s v Hv. split; [by apply scalar_len_law|apply writes_slice].
  - intros t wire z (Ht & Hs & Hw). rewrite as_int_id by done.
    split; [by apply scalar_len_law|apply writes_slice].
  - intros bs Hl. by apply (packed_spec Z.b2z Z.b2z FBool bs (bool_values bs)).
  - intros f t zs [Hf Hl]. rewrite <- (list_fmap_id zs) in Hl at 1.
    pose proof (packed_spec (to_varint f) id f zs (vec_values f t zs Hf) Hl) as Hp.
    by rewrite list_fmap_id in Hp.
  - intros t zs (_ & _ & Hl). by apply fixed_spec.
  - intros ts IH vs [_ Hok]. by apply IH.
  - intros t IH [v|] Hv; [|by split; [|apply writes_ok]]. destruct Hv as [Hok Hlen].
    destruct (IH v Hok) as [Hl Hw]. rewrite <- Hl in *.
    split; [by apply length_wire_field|]. by apply field_writes.
  - intros t IH [v|e] Hv; destruct Hv as [Hok Hlen].
    + destruct (IH v Hok) as [Hl Hw]. rewrite <- Hl in *.
      split; [by apply length_wire_field|]. by apply field_writes.
    + split; [by apply length_wire_field|]. apply field_writes; [done|apply writes_slice].
  - intros [] index _. split; [done|apply writes_ok].
  - intros t IHt ts IHts [v vs] index (Hok & Hl & Hoks). simpl in *.
    destruct (IHt v Hok) as [Hlen Hw]. destruct (IHts vs (S index) Hoks) as [Hlens Hws].
    rewrite <- Hlen in *. split.
    + rewrite length_app, Hlens, length_wire_field by done.
      rewrite field_len_unfold. lia.
    + rewrite Nat.add_1_r. apply writes_seq; [by apply field_writes|done].
Qed.

(** *** Decoding *)

Definition decodes (t : prost_ty) : Prop := forall v b, prost_ok t v ->
  bytes_data b = prost_bytes t v -> prost_decode t b = Ok (prost_received t v).

Definition decodes_all (ts : prost_tys) : Prop := forall vs bs rest, prosts_ok ts vs ->
  Forall2 (fun b l => bytes_data b = l) bs (prosts_bytes ts vs) ->
  prosts_decode ts ((Some <$> bs) ++ rest) = Ok (prosts_received ts vs).

Lemma prosts_bytes_count ts vs : length (prosts_bytes ts vs) = prosts_count ts.
Proof. revert ts vs. fix IH 1. intros [|t ts] vs; simpl; [done|by rewrite IH]. Qed.

Lemma prosts_bytes_small ts vs : prosts_ok ts vs ->
  Forall (fun l => in_u 64 (Z.of_nat (length l))) (prosts_bytes ts vs).
Proof using All.
  revert ts vs. fix IH 1. intros [|t ts] vs; simpl; [by constructor|]. intros (Hok & Hl & Hoks).
  constructor; [|by apply IH]. by rewrite (proj1 (proj1 prost_encodes t _ Hok)).
Qed.

Lemma bools_back (bs : list bool) : (fun z => negb (z =? 0)%Z) <$> (Z.b2z <$> bs) = bs.
Proof.
  rewrite <- list_fmap_compose. rewrite <- (list_fmap_id bs) at 2.
  apply list_fmap_ext. by intros i [] _.
Qed.

Lemma prost_decodes : (forall t, decodes t) /\ (forall ts, decodes_all ts).
Proof using All.
  destruct prost_encodes as [Henc _].
  apply prost_ty_both; unfold decodes, decodes_all; simpl.
  - intros s v b Hv Hb. by rewrite (scalar_law s v b).
  - intros t wire z b (Ht & Hs & Hw) Hb. rewrite (scalar_law (ScInt wire) z b) by done. simpl.
    unfold int_try_from. by rewrite bool_decide_eq_true_2.
  - intros bs b Hl Hb. destruct bs as [|x bs]; [by rewrite vec_decode_nil|].
    rewrite (vec_decode_packed FBool (Z.b2z <$> (x :: bs)) b);
      [cbn [result_map_err result_bind]; by rewrite bools_back| |done|done].
    apply Forall_fmap, Forall_true. by intros [].
  - intros f t zs b [Hf Hl] Hb. destruct zs as [|z zs]; [by rewrite vec_decode_nil|].
    rewrite (vec_decode_packed f (z :: zs) b);
      [|eapply Forall_impl; [exact Hf|]; by intros ? []|done|done].
    cbn [result_map_err result_bind]. apply int_try_from_all_ok.
    eapply Forall_impl; [exact Hf|]. by intros ? [].
  - intros t zs b (Hs & Hf & Hl) Hb. destruct zs as [|z zs]; [by rewrite fixed_decode_nil|].
    by rewrite (fixed_decode_packed t (z :: zs) b); [|done|done|rewrite length_concat_int_bytes|].
  - intros ts IH vs b [Hc Hok] Hb.
    destruct (tuple_decode_law (prosts_bytes ts vs) b) as (bs & -> & Hbs);
      [by rewrite prosts_bytes_count|by apply prosts_bytes_small|done|]. simpl. by apply IH.
  - intros t IH [v|] b Hok Hb; [|by rewrite proto_option_none]. destruct Hok as [Hok Hl].
    rewrite <- (proj1 (Henc t v Hok)) in Hl.
    destruct (proto_option_some b (prost_bytes t v) Hl Hb) as (b' & -> & Hb'). simpl.
    by rewrite (IH v b').
  - intros t IH [v|e] b Hok Hb; destruct Hok as [Hok Hl].
    + rewrite <- (proj1 (Henc t v Hok)) in Hl.
      destruct (proto_result_ok b (prost_bytes t v) Hl Hb) as (b' & -> & Hb'). simpl.
      by rewrite (IH v b').
    + by rewrite (proto_result_err b e).
  - by intros [].
  - intros t IHt ts IHts [v vs] bs rest (Hok & _ & Hoks) Hbs. simpl in *.
    apply Forall2_cons_inv_r in Hbs as (b & bs' & Hb & Hbs' & ->). rewrite fmap_cons. cbn [app].
    rewrite (IHt v b) by done. cbn [result_bind]. by rewrite (IHts vs bs' rest).
Qed.

(** C20. The protobuf codec round-trips up to the sign of zero: for every type of the codec
    and every value it allows, encoding never fails, leaves the context alone and writes
    exactly [encoded_len] bytes, and decoding any buffer with those bytes, at any address,
    gives the value back, with 0.0 for a float that was -0.0 and was not in a vector,
    whichever messages prost decodes on the way. *)
Theorem prost_codec_roundtrip t v b (r : R) (Hok : prost_ok t v) :
  exists l, Encode_encode_to_bytes (prost_encode t v) r = (Ok l, r) /\
    length l = prost_encoded_len t v /\
    (bytes_data b = l -> prost_decode t b = Ok (prost_received t v)).
Proof.
  exists (prost_bytes t v). destruct (proj1 prost_encodes t v Hok) as [Hl Hw].
  split_and!; [by apply writes_to_bytes|done|]. by apply prost_decodes.
Qed.
End RoundTrip.

(** ** Stand-ins for prost, and a value that travels *)

Section Instance_.

(** Scalars by fixed width, floats left out when they are zero; vectors and tuples as protobuf
    has them. *)
Definition slice_scalar_encode (s : Scalar) : scalar_val s -> list Z :=
  match s with
  | ScUnit => fun _ => []
  | ScBool => fun b => [Z.b2z b]
  | ScInt t => int_bytes t
  | ScFloat t => fun z => if bool_decide (z = 0 \/ z = negative_zero t)%Z then [] else int_bytes t z
  | ScString | ScBytes => id
  end.

Definition slice_int_decode (t : IntTy) (l : list Z) : result Z string :=
  if bool_decide (length l = it_size t) then Ok (int_of_bytes t l) else Err "malformed".

Definition slice_scalar_decode (s : Scalar) (b : slice) : result (scalar_val s) string :=
  match s with
  | ScUnit => Ok tt
  | ScBool => match sl_data b with [z] => Ok (negb (z =? 0)%Z) | _ => Err "malformed" end
  | ScInt t => slice_int_decode t (sl_data b)
  | ScFloat t => match sl_data b with [] => Ok 0%Z | l => slice_int_decode t l end
  | ScString => if utf8_valid (sl_data b) then Ok (sl_data b) else Err "invalid utf-8"
  | ScBytes => Ok (sl_data b)
  end.

Lemma slice_int_decode_ok t z :
  0 < it_size t -> in_range t z -> slice_int_decode t (int_bytes t z) = Ok z.
Proof.
  intros Hs Hr. unfold slice_int_decode.
  by rewrite bool_decide_eq_true_2, int_of_int_bytes by (done || apply length_int_bytes).
Qed.

Fixpoint varints (fuel : nat) (l : list Z) : list Z :=
  match fuel, l with
  | S fuel, _ :: _ =>
      match varint_dec l with Some (z, l') => z :: varints fuel l' | None => [] end
  | _, _ => []
  end.

Definition unzigzag (z : Z) : Z := if Z.even z then (z / 2)%Z else (- ((z + 1) / 2))%Z.

Definition varint_field (f : VecField) (z : Z) : Z :=
  match f with FSint32 | FSint64 => unzigzag z | _ => z end.

(** The contents of the only field of a message. *)
Definition slice_packed (b : slice) : result (list Z) string :=
  match sl_data b with
  | [] => Ok []
  | _ => match slice_field b with Some (10%Z, b') => Ok (sl_data b') | _ => Err "malformed" end
  end.

Definition slice_vec_decode (f : VecField) (b : slice) : result (list Z) string :=
  result_map (fun l => varint_field f <$> varints (length l) l) (slice_packed b).

Definition slice_fixed_decode (t : IntTy) (b : slice) : result (list Z) string :=
  result_map (ints_of_bytes t) (slice_packed b).

(** [n] optional fields from field [i] on, in order. *)
Fixpoint slice_tuple (n i : nat) (b : slice) : list (option slice) :=
  match n with
  | 0 => []
  | S n =>
      match sl_data b with
      | t :: l =>
          match varint_dec l with
          | Some (len, l') =>
              if bool_decide (t = tag i) then
                Some (mkSlice (sl_addr b) (take (Z.to_nat len) l')) ::
                  slice_tuple n (S i) (mkSlice (sl_addr b) (drop (Z.to_nat len) l'))
              else None :: slice_tuple n (S i) b
          | None => None :: slice_tuple n (S i) b
          end
      | [] => None :: slice_tuple n (S i) b
      end
  end.

Lemma varint_dec_one z rest : in_u 64 z -> varint_dec (varint_enc 10 z ++ rest) = Some (z, rest).
Proof.
  unfold in_u. intros Hz. apply (varint_dec_enc 9). split; [lia|]. etransitivity; [apply Hz|]. done.
Qed.

Lemma varint_enc_cons z : exists x l, varint_enc 10 z = x :: l.
Proof. rewrite varint_enc_S. destruct (z <? 128)%Z; eauto. Qed.

Lemma varints_enc fuel (zs : list Z) :
  Forall (in_u 64) zs -> length zs <= fuel -> varints fuel (concat (varint_enc 10 <$> zs)) = zs.
Proof.
  intros Hf. revert fuel. induction Hf as [|z zs Hz Hf IH]; intros fuel Hl; [by destruct fuel|].
  destruct fuel as [|fuel]; [simpl in Hl; lia|]. rewrite fmap_cons. cbn [concat].
  destruct (varint_enc_cons z) as (x & l & He).
  pose proof (varint_dec_one z (concat (varint_enc 10 <$> zs)) Hz) as Hd. rewrite He in *.
  cbn [app varints] in *. rewrite Hd. f_equal. apply IH. simpl in Hl. lia.
Qed.

Lemma unzigzag_zigzag z : unzigzag (zigzag z) = z.
Proof.
  unfold unzigzag, zigzag. destruct (Z.leb_spec 0 z).
  - rewrite Z.even_mul. simpl. rewrite Z.mul_comm. by apply Z.div_mul.
  - replace (-2 * z - 1)%Z with (1 + 2 * (- z - 1))%Z by lia.
    rewrite Z.even_add, Z.even_mul. simpl.
    replace (1 + 2 * (- z - 1) + 1)%Z with (- z * 2)%Z by lia. rewrite Z.div_mul by lia. lia.
Qed.

Lemma varint_field_back f (zs : list Z) : varint_field f <$> (field_varint f <$> zs) = zs.
Proof.
  rewrite <- list_fmap_compose. rewrite <- (list_fmap_id zs) at 2. apply list_fmap_ext.
  intros i z _. destruct f; simpl; auto using unzigzag_zigzag.
Qed.

Lemma slice_packed_field b l :
  in_u 64 (Z.of_nat (length l)) -> sl_data b = wire_field 1 l -> slice_packed b = Ok l.
Proof.
  intros Hl Hb. destruct (slice_field_tagged b 10 l Hl Hb) as [a Ha].
  unfold slice_packed. by rewrite Ha, Hb.
Qed.

Lemma length_varints (zs : list Z) : length zs <= length (concat (varint_enc 10 <$> zs)).
Proof.
  induction zs as [|z zs IH]; [done|]. rewrite fmap_cons. cbn [concat length].
  rewrite length_app. destruct (varint_enc_cons z) as (x & l & ->). cbn [length]. lia.
Qed.

Lemma slice_tuple_fields n i ls b :
  length ls <= n -> Forall (fun l => in_u 64 (Z.of_nat (length l))) ls ->
  sl_data b = wire_fields i ls ->
  exists bs, slice_tuple n i b = (Some <$> bs) ++ replicate (n - length ls) None /\
    Forall2 (fun b l => sl_data b = l) bs ls.
Proof.
  revert i ls b. induction n as [|n IH]; intros i ls b Hn Hf Hb.
  { destruct ls; [|simpl in Hn; lia]. by exists []. }
  destruct Hf as [|l ls Hl Hf]; cbn [wire_fields length] in Hb, Hn.
  - destruct (IH (S i) [] b) as (bs & Hs & Hbs); [simpl; lia|done..|].
    apply Forall2_nil_inv_r in Hbs as ->. exists []. split; [|constructor].
    simpl. rewrite Hb, Hs. simpl. by rewrite Nat.sub_0_r.
  - assert (sl_data b = tag i :: varint_enc 10 (Z.of_nat (length l)) ++ l ++ wire_fields (S i) ls) as Hd.
    { rewrite Hb. unfold wire_field. cbn [app]. by rewrite <- app_assoc. }
    cbn [slice_tuple]. rewrite Hd, varint_dec_one by done. rewrite bool_decide_eq_true_2 by done.
    rewrite Nat2Z.id, take_app_length, drop_app_length.
    destruct (IH (S i) ls (mkSlice (sl_addr b) (wire_fields (S i) ls))) as (bs & -> & Hbs);
      [lia|done..|].
    eexists (_ :: bs). split; [done|]. by constructor.
Qed.

#[local] Obligation Tactic := idtac.

#[global, program] Instance slice_generated : ProstGenerated slice := {|
  scalar_encoded_len s v := length (slice_scalar_encode s v);
  scalar_encode := slice_scalar_encode;
  scalar_decode := slice_scalar_decode;
  vec_decode := slice_vec_decode;
  fixed_decode := slice_fixed_decode;
  tuple_decode b := Ok (slice_tuple 10 1 b);
|}.
Next Obligation. done. Qed.
Next Obligation.
  intros [| |t|t| |] v b Hv Hb; simpl in *; rewrite ?Hb;
    [by destruct v|by destruct v| | |by rewrite Hv|done]; destruct Hv as [Hs Hr].
  - by apply slice_int_decode_ok.
  - pose proof (slice_int_decode_ok t v Hs Hr) as Hd. pose proof (length_int_bytes t v) as Hl.
    destruct (int_bytes t v) as [|x l] eqn:El; [simpl in Hl; lia|].
    case_bool_decide as H0; case_bool_decide as Hz; simplify_eq/=; try done.
    + by destruct H0 as [->|?].
    + by destruct H0; right.
Qed.
Next Obligation. intros f b Hb. simpl in Hb. unfold slice_vec_decode, slice_packed. by rewrite Hb. Qed.
Next Obligation.
  intros f zs b l Hf Hl Hb. unfold slice_vec_decode.
  rewrite (slice_packed_field b l Hl Hb). cbn [result_map]. f_equal.
  assert (l = concat (varint_enc 10 <$> (field_varint f <$> zs))) as ->
    by (by rewrite <- list_fmap_compose).
  rewrite varints_enc; [apply varint_field_back| |apply length_varints].
  apply Forall_fmap. eapply Forall_impl; [exact Hf|]. intros z Hz. by apply to_varint_spec.
Qed.
Next Obligation. intros t b Hb. simpl in Hb. unfold slice_fixed_decode, slice_packed. by rewrite Hb. Qed.
Next Obligation.
  intros t zs b l Hs Hf Hl Hb. unfold slice_fixed_decode.
  rewrite (slice_packed_field b l Hl Hb). cbn [result_map]. unfold l. by rewrite ints_of_int_bytes.
Qed.
Next Obligation.
  intros ls b Hn Hf Hb. destruct (slice_tuple_fields 10 1 ls b Hn Hf Hb) as (bs & -> & Hbs). eauto.
Qed.

(** [(i8, Vec<i16>, Option<String>, f32)], the float a negative zero. *)
Definition prost_sample_ty : prost_ty :=
  PtTuple (PtCons (PtCast (mkIntTy 1 true) i32)
          (PtCons (PtVec FSint32 (mkIntTy 2 true))
          (PtCons (PtOption (PtScalar ScString))
          (PtCons (PtScalar (ScFloat f32)) PtNil)))).

Definition prost_sample : prost_val prost_sample_ty := ((-3)%Z, ([1; -300]%Z, (Some [104; 105]%Z, (2 ^ 31, tt)%Z))).

#[local] Instance field_range_dec f z : Decision (field_range f z).
Proof. destruct f; apply _. Defined.

Definition prost_sample_bytes : list Z :=
  [10;4;253;255;255;255; 18;5;10;3;2;215;4; 26;4;10;2;104;105; 34;0]%Z.

Lemma prost_sample_ok : prost_ok prost_sample_ty prost_sample.
Proof.
  unfold prost_sample_ty, prost_sample. cbn [prost_ok prosts_ok fst snd prosts_count scalar_ok].
  split_and!; try apply I; apply (bool_decide_unpack _); vm_compute; exact I.
Qed.

Lemma prost_codec_roundtrip_witness :
  exists l, Encode_encode_to_bytes (prost_encode prost_sample_ty prost_sample) tt = (Ok l, tt) /\
    length l = prost_encoded_len prost_sample_ty prost_sample /\
    (bytes_data (mkSlice 3 prost_sample_bytes) = l ->
     prost_decode prost_sample_ty (mkSlice 3 prost_sample_bytes) =
       Ok ((-3)%Z, ([1; -300]%Z, (Some [104; 105]%Z, (0%Z, tt))))).
Proof.
  exact (prost_codec_roundtrip prost_sample_ty prost_sample (mkSlice 3 prost_sample_bytes) tt
           prost_sample_ok).
Defined.

(** Its bytes are those of protobuf. *)
Example prost_sample_encoded :
  Encode_encode_to_bytes (prost_encode prost_sample_ty prost_sample) tt = (Ok prost_sample_bytes, tt).
Proof. vm_compute. reflexivity. Qed.

Lemma zigzag_correct_witness :
  zigzag32 (-300) = zigzag (-300) /\ in_u 32 (zigzag32 (-300)) /\
  zigzag64 7 = zigzag 7 /\ in_u 64 (zigzag64 7) /\
  (forall n', in_s 32 n' -> zigzag32 n' = zigzag32 (-300) -> n' = (-300)%Z) /\
  (forall m', in_s 64 m' -> zigzag64 m' = zigzag64 7 -> m' = 7%Z).
Proof.
  exact (zigzag_correct (-300) 7 (bool_decide_unpack (in_s 32 (-300)) I)
           (bool_decide_unpack (in_s 64 7) I)).
Defined.
End Instance_.
