(* ===== verification/ControlCodec.v ===== *)
(** * Control messages on the wire

    Models acktor/src/codec/control_message.rs with the message constructors of
    acktor-ipc-proto/src/control_message.rs: signals, supervisors, observers and
    supervision events. The bytes of the protobuf messages are prost's. *)

From S2P Require Import Prelude Tokio ActorTypes UserCode Observer WireLibs Codec.

(** ** The protobuf messages *)

Record ProtoSignal : Type := mkProtoSignal { ps_signal : Z }.
Record ProtoCronSignal : Type := mkProtoCronSignal { pc_signal : Z }.

(** The names of the two protobuf enums. *)
Definition ProtoSignal_as_str_name (s : Signal) : string :=
  match s with SignalStop => "STOP" | SignalTerminate => "TERMINATE" end.
Definition ProtoSignal_from_str_name (value : string) : option Signal :=
  if bool_decide (value = "STOP") then Some SignalStop
  else if bool_decide (value = "TERMINATE") then Some SignalTerminate else None.

Definition ProtoCronSignal_as_str_name (s : CronSignal) : string :=
  match s with CronPause => "PAUSE" | CronResume => "RESUME" end.
Definition ProtoCronSignal_from_str_name (value : string) : option CronSignal :=
  if bool_decide (value = "PAUSE") then Some CronPause
  else if bool_decide (value = "RESUME") then Some CronResume else None.

Inductive SupervisorType : Type := SupervisorTypeSet (actor_id : Z) | SupervisorTypeUnset.
Inductive ObserverType : Type := ObserverTypeRegister (actor_id : Z) | ObserverTypeUnregister (actor_id : Z).

Inductive SupervisionEventType : Type :=
| EventWarn (actor_id : Z) (err : string)
| EventTerminated (actor_id : Z) (err : option string)
| EventPanicked (actor_id : Z) (info : string)
| EventState (actor_id : Z) (state : Z).

(** A oneof field is absent in a malformed or newer message. *)
Record ProtoSupervisor : Type := mkProtoSupervisor { psu_supervisor : option SupervisorType }.
Record ProtoObserver : Type := mkProtoObserver { po_observer : option ObserverType }.
Record ProtoSupervisionEvent : Type := mkProtoSupervisionEvent { pe_event : option SupervisionEventType }.

Section ControlCodec.
Context {B R E : Type} `{BytesCrate B}.
Context `{!ProstMessage B ProtoSignal} `{!ProstMessage B ProtoCronSignal}.
Context `{!ProstMessage B ProtoSupervisor} `{!ProstMessage B ProtoObserver}.
Context `{!ProstMessage B ProtoSupervisionEvent}.
(** [A::remote_mailbox] of the actor or recipient with an index, [Display] of its error
    and [From<String>] for it. *)
Context (remote_mailbox : ActorId -> option Recipient).
Context (to_string : E -> string) (from_string : string -> E).

Implicit Types (buf : B).

Definition sender_ref (index : ActorId) : SenderRef := mkSenderRef index (remote_mailbox index).

(** [x.register(ctx.ok_or(MissingEncodeContext)?)?]. *)
Definition register_sender (index : ActorId) (ctx : option (EncodeContext R)) : encoder R :=
  match ctx with
  | None => enc_err MissingEncodeContext
  | Some ctx => enc_ctx (Recipient_register (sender_ref index) ctx)
  end.

(** [Recipient::new_with_decode_context(actor_id, ctx)?], keeping the index. *)
Definition decode_sender (actor_id : Z) (ctx : DecodeContext) : result ActorId DecodeError :=
  let? r := Recipient_new_with_decode_context actor_id ctx in Ok (sr_index r).

(** ** Signals *)

Definition Signal_encoded_len (s : Signal) : nat := pm_encoded_len (mkProtoSignal (Signal_as_u8 s)).

Definition Signal_encode (s : Signal) : encoder R :=
  extend_from_slice (pm_encode (mkProtoSignal (Signal_as_u8 s))).

(** [signal.signal as u8]: the field is an [i32]. *)
Definition Signal_decode buf : result Signal DecodeError :=
  let? signal := result_map_err DecodeOther (pm_decode buf) in
  result_map_err (fun _ => DecodeOther "invalid signal value in the `Signal` message")
    (Signal_try_from (wrap_u 8 (ps_signal signal))).

Definition CronSignal_encode (s : CronSignal) : encoder R :=
  extend_from_slice (pm_encode (mkProtoCronSignal (CronSignal_as_u8 s))).

Definition CronSignal_decode buf : result CronSignal DecodeError :=
  let? signal := result_map_err DecodeOther (pm_decode buf) in
  result_map_err (fun _ => DecodeOther "invalid signal value in the `CronSignal` message")
    (CronSignal_try_from (wrap_u 8 (pc_signal signal))).

(** ** Supervisors *)

Definition Supervisor_encode (s : Supervisor) (ctx : option (EncodeContext R)) : encoder R :=
  match s with
  | SupervisorSet r =>
      enc_seq (register_sender (rcp_index r) ctx)
        (extend_from_slice (pm_encode (mkProtoSupervisor
           (Some (SupervisorTypeSet (ActorId_as_local (rcp_index r)))))))
  | SupervisorUnset => extend_from_slice (pm_encode (mkProtoSupervisor (Some SupervisorTypeUnset)))
  end.

Definition Supervisor_decode buf (ctx : option DecodeContext) : result Supervisor DecodeError :=
  let? ctx := ok_or ctx MissingDecodeContext in
  let? supervisor := result_map_err DecodeOther (pm_decode buf) in
  match psu_supervisor supervisor with
  | Some (SupervisorTypeSet actor_id) =>
      let? r := decode_sender actor_id ctx in Ok (SupervisorSet (mkRecipient r))
  | Some SupervisorTypeUnset => Ok SupervisorUnset
  | None => Err (DecodeOther "missing field `supervisor` in the `Supervisor` message")
  end.

(** ** Observers *)

Definition Observer_encode (o : Observer) (ctx : option (EncodeContext R)) : encoder R :=
  match o with
  | ObserverRegister r =>
      enc_seq (register_sender (rcp_index r) ctx)
        (extend_from_slice (pm_encode (mkProtoObserver
           (Some (ObserverTypeRegister (ActorId_as_local (rcp_index r)))))))
  | ObserverUnregister r =>
      enc_seq (register_sender (rcp_index r) ctx)
        (extend_from_slice (pm_encode (mkProtoObserver
           (Some (ObserverTypeUnregister (ActorId_as_local (rcp_index r)))))))
  end.

Definition Observer_decode buf (ctx : option DecodeContext) : result Observer DecodeError :=
  let? ctx := ok_or ctx MissingDecodeContext in
  let? observer := result_map_err DecodeOther (pm_decode buf) in
  match po_observer observer with
  | Some (ObserverTypeRegister actor_id) =>
      let? r := decode_sender actor_id ctx in Ok (ObserverRegister (mkRecipient r))
  | Some (ObserverTypeUnregister actor_id) =>
      let? r := decode_sender actor_id ctx in Ok (ObserverUnregister (mkRecipient r))
  | None => Err (DecodeOther "missing field `observer` in the `Observer` message")
  end.

(** ** Supervision events *)

Definition build_supervision_event_message (event : SupervisionEvent E)
    : ProtoSupervisionEvent * ActorId :=
  match event with
  | SupWarn address error =>
      (mkProtoSupervisionEvent (Some (EventWarn (ActorId_as_local address) (to_string error))), address)
  | SupTerminated address error =>
      (mkProtoSupervisionEvent
         (Some (EventTerminated (ActorId_as_local address) (option_map to_string error))), address)
  | SupPanicked address info =>
      (mkProtoSupervisionEvent (Some (EventPanicked (ActorId_as_local address) info)), address)
  | SupState address state =>
      (mkProtoSupervisionEvent
         (Some (EventState (ActorId_as_local address) (ActorState_as_u8 state))), address)
  end.

Definition SupervisionEvent_encoded_len (event : SupervisionEvent E) : nat :=
  pm_encoded_len (build_supervision_event_message event).1.

Definition SupervisionEvent_encode (event : SupervisionEvent E) (ctx : option (EncodeContext R))
    : encoder R :=
  let (event, address) := build_supervision_event_message event in
  enc_seq (register_sender address ctx) (extend_from_slice (pm_encode event)).

Definition SupervisionEvent_decode buf (ctx : option DecodeContext)
    : result (SupervisionEvent E) DecodeError :=
  let? ctx := ok_or ctx MissingDecodeContext in
  let? event := result_map_err DecodeOther (pm_decode buf) in
  match pe_event event with
  | Some (EventWarn actor_id err) =>
      let? address := decode_sender actor_id ctx in Ok (SupWarn address (from_string err))
  | Some (EventTerminated actor_id err) =>
      let? address := decode_sender actor_id ctx in
      Ok (SupTerminated address (option_map from_string err))
  | Some (EventPanicked actor_id info) =>
      let? address := decode_sender actor_id ctx in Ok (SupPanicked address info)
  | Some (EventState actor_id state) =>
      let? address := decode_sender actor_id ctx in
      let? state := result_map_err
        (fun _ => DecodeOther "invalid actor state value in the `SupervisionEvent` message")
        (ActorState_try_from (wrap_u 8 state)) in
      Ok (SupState address state)
  | None => Err (DecodeOther "missing field `event` in the `SupervisionEvent` message")
  end.

(** ** Theorems *)

(** What a peer makes of an event it receives over a session: the same event about the
    remote address of the sender, with the error rebuilt from its text. *)
Definition event_at_peer (session : Z) (event : SupervisionEvent E) : SupervisionEvent E :=
  let remote a := ActorId_new_remote (ActorId_as_local a) session in
  match event with
  | SupWarn a e => SupWarn (remote a) (from_string (to_string e))
  | SupTerminated a e => SupTerminated (remote a) (option_map (fun e => from_string (to_string e)) e)
  | SupPanicked a info => SupPanicked (remote a) info
  | SupState a s => SupState (remote a) s
  end.

Definition event_address (event : SupervisionEvent E) : ActorId :=
  match event with SupWarn a _ | SupTerminated a _ | SupPanicked a _ | SupState a _ => a end.

Lemma build_message_address event : (build_supervision_event_message event).2 = event_address event.
Proof. by destruct event. Qed.

Lemma ActorState_try_from_as_u8 s : ActorState_try_from (wrap_u 8 (ActorState_as_u8 s)) = Ok s.
Proof. by destruct s. Qed.

(** C38. An event about a local, remote-addressable actor that is sent to another process
    registers exactly that actor's mailbox before the event is written, and arrives as the
    same event about the actor's address over the session. An event about a remote actor,
    or about one without a mailbox, is refused and nothing is written. *)
Theorem supervision_event_travels event (reg : EncodeContext R) written r session b
    (Hvalid : pm_valid (build_supervision_event_message event).1)
    (Hb : bytes_data b = pm_encode (build_supervision_event_message event).1) :
  SupervisionEvent_decode b (Some (mkDecodeContext (Some session))) = Ok (event_at_peer session event) /\
  SupervisionEvent_encode event (Some reg) (written, r) =
    match ActorId_is_remote (event_address event), remote_mailbox (event_address event) with
    | true, _ => (Err EncodeRemoteAddress, (written, r))
    | false, None => (Err NotRemoteAddressable, (written, r))
    | false, Some m =>
        match reg m r with
        | (Ok _, r') => (Ok tt, (written ++ bytes_data b, r'))
        | (Err e, r') => (Err e, (written, r'))
        end
    end.
Proof.
  split.
  - unfold SupervisionEvent_decode. simpl. rewrite (pm_decode_law _ b Hvalid Hb). simpl.
    destruct event; simpl; try done.
    + by destruct e.
    + by rewrite ActorState_try_from_as_u8.
  - rewrite Hb. unfold SupervisionEvent_encode. pose proof (build_message_address event) as Ha.
    destruct (build_supervision_event_message event) as [msg a]. simpl in Ha. subst a. simpl.
    unfold enc_seq, enc_ctx, register_sender, Recipient_register, sender_ref. simpl.
    destruct (ActorId_is_remote (event_address event)); [done|].
    destruct (remote_mailbox (event_address event)) as [m|]; [|done].
    by destruct (reg m r) as [[|] r'].
Qed.

(** The decoder of [Signal] does not refuse every value but 0 and 1, as its error
    message says: the field is cut to eight bits first, so every value that is 0 or 1
    modulo 256 is obeyed as [Stop] or [Terminate]. *)
Lemma signal_value_truncated (v : Z) b
    (Hvalid : pm_valid (mkProtoSignal v)) (Hb : bytes_data b = pm_encode (mkProtoSignal v)) :
  Signal_decode b =
    if (v mod 256 =? 0)%Z then Ok SignalStop
    else if (v mod 256 =? 1)%Z then Ok SignalTerminate
    else Err (DecodeOther "invalid signal value in the `Signal` message").
Proof.
  unfold Signal_decode. rewrite (pm_decode_law _ b Hvalid Hb). simpl.
  unfold wrap_u. change (2 ^ 8)%Z with 256%Z. unfold Signal_try_from.
  destruct (v mod 256)%Z as [|[p|p|]|p]; done.
Qed.
End ControlCodec.

(** ** Instances and witnesses *)

(** Stand-ins for prost: one tag byte and fixed-width fields. *)
Section Instances.

Definition slice_signal_decode (b : slice) : result ProtoSignal string :=
  if bool_decide (length (sl_data b) = 4) then Ok (mkProtoSignal (int_of_bytes i32 (sl_data b)))
  else Err "malformed".

#[global, program] Instance slice_signal : ProstMessage slice ProtoSignal := {|
  pm_encoded_len _ := 4;
  pm_encode m := int_bytes i32 (ps_signal m);
  pm_decode := slice_signal_decode;
  pm_valid m := in_range i32 (ps_signal m);
|}.
Next Obligation. intros m _. apply length_int_bytes. Qed.
Next Obligation.
  intros [s] b Hv Hb. simpl in *. unfold slice_signal_decode. rewrite Hb, length_int_bytes. simpl.
  by rewrite int_of_int_bytes by (done || simpl; lia).
Qed.

Definition event_fields (e : SupervisionEventType) : Z * Z * list Z :=
  match e with
  | EventWarn a err => (1, a, string_bytes err)%Z
  | EventTerminated a None => (2, a, [])%Z
  | EventTerminated a (Some err) => (3, a, string_bytes err)%Z
  | EventPanicked a info => (4, a, string_bytes info)%Z
  | EventState a s => (5, a, int_bytes i32 s)%Z
  end.

Definition event_of_fields (tag a : Z) (l : list Z) : option SupervisionEventType :=
  match tag with
  | 1 => Some (EventWarn a (bytes_string l))
  | 2 => Some (EventTerminated a None)
  | 3 => Some (EventTerminated a (Some (bytes_string l)))
  | 4 => Some (EventPanicked a (bytes_string l))
  | 5 => Some (EventState a (int_of_bytes i32 l))
  | _ => None
  end%Z.

Definition event_encode (m : ProtoSupervisionEvent) : list Z :=
  match pe_event m with
  | None => []
  | Some e => let '(tag, a, l) := event_fields e in tag :: int_bytes u64 a ++ l
  end.

Definition event_decode (b : slice) : result ProtoSupervisionEvent string :=
  match sl_data b with
  | [] => Ok (mkProtoSupervisionEvent None)
  | tag :: l =>
      Ok (mkProtoSupervisionEvent
            (event_of_fields tag (int_of_bytes u64 (take 8 l)) (drop 8 l)))
  end.

Definition event_valid (m : ProtoSupervisionEvent) : Prop :=
  match pe_event m with
  | None => True
  | Some (EventState a s) => in_range u64 a /\ in_range i32 s
  | Some e => in_range u64 (event_fields e).1.2
  end.

#[local] Opaque int_bytes.

#[global, program] Instance slice_event : ProstMessage slice ProtoSupervisionEvent := {|
  pm_encoded_len m := length (event_encode m);
  pm_encode := event_encode;
  pm_decode := event_decode;
  pm_valid := event_valid;
|}.
Next Obligation. done. Qed.
Next Obligation.
  intros [[e|]] b Hv Hb; unfold event_decode; simpl in *; rewrite Hb; [|done].
  assert (Hrt : forall a, in_range u64 a -> int_of_bytes u64 (int_bytes u64 a) = a).
  { intros a Ha. apply int_of_int_bytes; [simpl; lia|done]. }
  unfold event_encode. simpl. destruct e as [a err|a [err|]|a info|a s]; simpl;
    rewrite (take_app_length' (int_bytes u64 a)), ?(drop_app_length' (int_bytes u64 a))
      by (by rewrite length_int_bytes); unfold event_valid in Hv; simpl in Hv.
  all: try by rewrite Hrt, ?bytes_string_bytes.
  destruct Hv as [Ha Hs]. by rewrite Hrt, int_of_int_bytes by (done || simpl; lia).
Qed.

#[local] Transparent int_bytes.

Definition sample_event : SupervisionEvent string := SupWarn (ActorId_new 5) "oops".

Definition sample_mailbox (a : ActorId) : option Recipient := Some (mkRecipient a).

Definition sample_register : EncodeContext (list Recipient) := fun m r => (Ok tt, r ++ [m]).

Definition sample_event_bytes : list Z := [1; 5;0;0;0;0;0;0;0; 111; 111; 112; 115]%Z.

Lemma sample_event_valid :
  pm_valid (build_supervision_event_message (fun s : string => s) sample_event).1.
Proof. by apply (bool_decide_unpack (in_range u64 5)). Qed.

Lemma sample_signal_valid : pm_valid (mkProtoSignal 256).
Proof. by apply (bool_decide_unpack (in_range i32 256)). Qed.

Lemma supervision_event_travels_witness :
  SupervisionEvent_decode (B := slice) (fun s => s) (mkSlice 16 sample_event_bytes)
    (Some (mkDecodeContext (Some 3%Z))) =
    Ok (event_at_peer (fun s => s) (fun s => s) 3 sample_event) /\
  SupervisionEvent_encode (B := slice) sample_mailbox (fun s => s) sample_event
    (Some sample_register) ([], []) =
    (Ok tt, ([] ++ bytes_data (mkSlice 16 sample_event_bytes), [mkRecipient (ActorId_new 5)])).
Proof.
  exact (supervision_event_travels (B := slice) sample_mailbox (fun s => s) (fun s => s) sample_event
           sample_register [] [] 3 (mkSlice 16 sample_event_bytes)
           sample_event_valid eq_refl).
Defined.

(** 256 is obeyed as [Stop]. *)
Lemma signal_value_truncated_witness :
  Signal_decode (mkSlice 16 [0; 1; 0; 0]%Z) = Ok SignalStop.
Proof.
  exact (signal_value_truncated 256 (mkSlice 16 [0; 1; 0; 0]%Z)
           sample_signal_valid eq_refl).
Defined.
End Instances.
