(* ===== verification/Registry.v ===== *)
(** * Registered actors and their labels

    Models acktor-ipc/src/remote/registry.rs (the concurrent map from local indices to
    mailboxes that a node shares with its sessions), acktor-ipc/src/node/actor_mgr.rs (the
    actor that owns the labels) and the error type of sessions. Each registry operation
    holds the lock of its entry, so it is one atomic step. *)

From S2P Require Import Prelude Tokio ActorTypes UserCode WireLibs Codec.

(** [SessionError] of acktor-ipc/src/error.rs; boxed sources are their text. *)
Inductive SessionError : Type :=
| SessionEncodeError (e : EncodeError)
| SessionDecodeError (e : DecodeError)
| SendOutboundMessageFailed (e : string)
| ForwardInboundMessageFailed (e : string)
| InvalidMessageResTxTag (tag : Z)
| ForwardMessageResFailed
| CreateActorFailed (e : string)
| ActorNotFound (label : string)
| HandleInboundMessageFailed (e : string)
| RemoteNodeError (e : string)
| ResponseTimeout
| SessionIoError (e : string)
| SessionSendError (e : string)
| SessionRecvError (e : RecvError string).

(** [ActorRef] of acktor-ipc/src/actor_ref.rs. *)
Inductive ActorRef : Type :=
| ActorRefIndex (id : ActorId)
| ActorRefLabel (label : string).

(** ** The registry *)

Abbreviation registry := (gmap Z Recipient).

Section Registry.
(** Which mailboxes are closed at the time of the call. *)
Context (is_closed : Recipient -> bool).
Implicit Types (reg : registry) (index : Z).

Definition Registry_new : registry := ∅.

Definition Registry_len reg : nat := size reg.

Definition Registry_is_empty reg : bool := bool_decide (size reg = 0).

Definition Registry_retain (predicate : Z -> Recipient -> bool) reg : registry :=
  filter (fun p => predicate p.1 p.2 = true) reg.

(** A closed mailbox is removed when it is looked up. *)
Definition Registry_get index reg : option Recipient * registry :=
  match reg !! index with
  | Some recipient =>
      if is_closed recipient then (None, delete index reg) else (Some recipient, reg)
  | None => (None, reg)
  end.

Definition Registry_contains_index index reg : bool * registry :=
  match reg !! index with
  | Some recipient => if is_closed recipient then (false, delete index reg) else (true, reg)
  | None => (false, reg)
  end.

Definition Registry_remove index reg : option Recipient * registry :=
  (reg !! index, delete index reg).

(** An actor that is registered already is left as it is. *)
Definition Registry_insert (actor : Recipient) reg : bool * registry :=
  let index := ActorId_as_local (rcp_index actor) in
  match reg !! index with
  | Some _ => (false, reg)
  | None => (true, <[index := actor]> reg)
  end.
End Registry.

(** ** The actor manager *)

(** A factory starts an actor; a panic of its task is caught by [tokio::spawn]. *)
Definition RemoteFactory : Type := string -> string -> outcome (result Recipient string).

Record ActorMgr : Type := mkActorMgr {
  actor_labels : gmap string Z;
  factories : gmap Z RemoteFactory;
}.

(** The manager with the registry it shares. *)
Definition MgrState : Type := ActorMgr * registry.

Section ActorMgr.
Context (is_closed : Recipient -> bool).
(** The texts of the errors. *)
Context (no_factory : Z -> string) (label_exists : string -> Z -> string).
Implicit Types (m : ActorMgr) (reg : registry) (label : string).

Definition with_labels m (labels : gmap string Z) : ActorMgr := mkActorMgr labels (factories m).

(** [CronActor::task]: drops closed mailboxes, then the labels that lead nowhere. The
    labels are visited in the order of the map's iterator. *)
Definition ActorMgr_task (order : list (string * Z)) (st : MgrState) : Z * MgrState :=
  let (m, reg) := st in
  let reg := Registry_retain (fun _ mailbox => negb (is_closed mailbox)) reg in
  let '(labels, reg) :=
    fold_left (fun '(labels, reg) '(label, actor_id) =>
      let (keep, reg) := Registry_contains_index is_closed actor_id reg in
      (if keep : bool then labels else delete label labels, reg))
      order (actor_labels m, reg) in
  (60%Z, (with_labels m labels, reg)).

(** [Handler<CreateActor>]; [during] is what sessions do to the registry while the factory
    runs. *)
Definition ActorMgr_create_actor (type_id : Z) label (config : string)
    (during : registry -> registry) (st : MgrState) : result ActorId SessionError * MgrState :=
  let (m, reg) := st in
  match factories m !! type_id with
  | None => (Err (CreateActorFailed (no_factory type_id)), st)
  | Some factory =>
      match actor_labels m !! label with
      | Some actor_id => (Err (CreateActorFailed (label_exists label actor_id)), st)
      | None =>
          let reg := during reg in
          match factory label config with
          | Panicked info => (Err (CreateActorFailed info), (m, reg))
          | Done (Err e) => (Err (CreateActorFailed e), (m, reg))
          | Done (Ok address) =>
              let actor_id := rcp_index address in
              let reg := (Registry_insert address reg).2 in
              (Ok actor_id,
               (with_labels m (<[label := ActorId_as_local actor_id]> (actor_labels m)), reg))
          end
      end
  end.

(** [Handler<GetActor>]. *)
Definition ActorMgr_get_actor label (st : MgrState) : result Recipient SessionError * MgrState :=
  let (m, reg) := st in
  match actor_labels m !! label with
  | None => (Err (ActorNotFound label), st)
  | Some actor_id =>
      let (r, reg) := Registry_get is_closed actor_id reg in
      (ok_or r (ActorNotFound label), (m, reg))
  end.

(** [Handler<AddActor<A>>]. *)
Definition ActorMgr_add_actor label (address : Recipient) (st : MgrState) : bool * MgrState :=
  let (m, reg) := st in
  match actor_labels m !! label with
  | Some _ => (false, st)
  | None =>
      let actor_id := ActorId_as_local (rcp_index address) in
      let (inserted, reg) := Registry_insert address reg in
      if inserted then (true, (with_labels m (<[label := actor_id]> (actor_labels m)), reg))
      else (false, (m, reg))
  end.

(** [Handler<RemoveActor>]. *)
Definition ActorMgr_remove_actor (r : ActorRef) (st : MgrState) : bool * MgrState :=
  let (m, reg) := st in
  match r with
  | ActorRefIndex actor_id =>
      let actor_id := ActorId_as_local actor_id in
      let labels := filter (fun p => p.2 ≠ actor_id) (actor_labels m) in
      let (removed, reg) := Registry_remove actor_id reg in
      (is_some removed, (with_labels m labels, reg))
  | ActorRefLabel label =>
      match actor_labels m !! label with
      | Some actor_id =>
          let (removed, reg) := Registry_remove actor_id reg in
          (is_some removed, (with_labels m (delete label (actor_labels m)), reg))
      | None => (false, st)
      end
  end.
End ActorMgr.

(** ** The manager, its sessions and its actors running together *)

(** Actors that stopped, by local index. *)
Record MgrSys : Type := mkMgrSys {
  sys_mgr : ActorMgr;
  sys_registry : registry;
  sys_stopped : gset Z;
}.

Definition stopped_closed (stopped : gset Z) (r : Recipient) : bool :=
  bool_decide (ActorId_as_local (rcp_index r) ∈ stopped).

Definition local_mailbox (i : Z) : Recipient := mkRecipient (ActorId_new i).

Section System.
Context (no_factory : Z -> string) (label_exists : string -> Z -> string).

Abbreviation closed s := (stopped_closed (sys_stopped s)).

Definition with_mgr (s : MgrSys) (st : MgrState) : MgrSys := mkMgrSys st.1 st.2 (sys_stopped s).

Definition with_registry (s : MgrSys) (reg : registry) : MgrSys :=
  mkMgrSys (sys_mgr s) reg (sys_stopped s).

Definition mgr_state (s : MgrSys) : MgrState := (sys_mgr s, sys_registry s).

(** What can happen: the messages the manager handles, its periodic task, the registry
    operations of sessions ([Proxy::register] and [find_mailbox]) and actors stopping.
    Only local actors are registered, and a factory starts an actor that has no label. *)
Inductive mgr_step : MgrSys -> MgrSys -> Prop :=
| ms_task s order :
    order ≡ₚ map_to_list (actor_labels (sys_mgr s)) ->
    mgr_step s (with_mgr s (ActorMgr_task (closed s) order (mgr_state s)).2)
| ms_create s type_id label config during :
    (forall factory r,
       factories (sys_mgr s) !! type_id = Some factory ->
       factory label config = Done (Ok r) ->
       exists i, r = local_mailbox i /\ forall l, actor_labels (sys_mgr s) !! l ≠ Some i) ->
    (forall reg i r, i ∉ sys_stopped s -> reg !! i = Some r -> during reg !! i = Some r) ->
    (forall reg i r, during reg !! i = Some r -> reg !! i = Some r \/ r = local_mailbox i) ->
    mgr_step s (with_mgr s (ActorMgr_create_actor no_factory label_exists type_id label config
                              during (mgr_state s)).2)
| ms_get s label :
    mgr_step s (with_mgr s (ActorMgr_get_actor (closed s) label (mgr_state s)).2)
| ms_add s label i :
    mgr_step s (with_mgr s (ActorMgr_add_actor label (local_mailbox i) (mgr_state s)).2)
| ms_remove s r :
    mgr_step s (with_mgr s (ActorMgr_remove_actor r (mgr_state s)).2)
| ms_register s i :
    mgr_step s (with_registry s (Registry_insert (local_mailbox i) (sys_registry s)).2)
| ms_find s i :
    mgr_step s (with_registry s (Registry_get (closed s) i (sys_registry s)).2)
| ms_stop s i :
    mgr_step s (mkMgrSys (sys_mgr s) (sys_registry s) ({[i]} ∪ sys_stopped s)).
End System.
