(* ===== verification/RegistryTheorems.v ===== *)
(** * Labels lead to running actors

    Theorems about Registry.v: whatever the manager, the sessions and the actors do, and in
    whatever order, a labelled actor that runs stays registered and two running actors
    never share a label's index; the periodic task drops exactly what is stopped. *)

From S2P Require Import Prelude Tokio ActorTypes UserCode WireLibs Codec Registry.

Section Facts.
Abbreviation closed s := (stopped_closed (sys_stopped s)).
Implicit Types (s : MgrSys) (reg : registry).

(** Only local mailboxes are registered, each under its own index. *)
Definition reg_keyed reg : Prop := forall i r, reg !! i = Some r -> r = local_mailbox i.

Record mgr_inv s : Prop := MkMgrInv {
  inv_keyed : reg_keyed (sys_registry s);
  inv_registered : forall l i, actor_labels (sys_mgr s) !! l = Some i -> i ∉ sys_stopped s ->
    sys_registry s !! i = Some (local_mailbox i);
  inv_one_label : forall l l' i, actor_labels (sys_mgr s) !! l = Some i ->
    actor_labels (sys_mgr s) !! l' = Some i -> i ∉ sys_stopped s -> l = l';
}.

Lemma closed_local s i : closed s (local_mailbox i) = bool_decide (i ∈ sys_stopped s).
Proof. done. Qed.

(** ** Registry operations *)

Lemma Registry_insert_lookup r reg i v :
  (Registry_insert r reg).2 !! i = Some v <->
  reg !! i = Some v \/ (reg !! i = None /\ ActorId_as_local (rcp_index r) = i /\ v = r).
Proof.
  unfold Registry_insert. destruct (reg !! ActorId_as_local (rcp_index r)) eqn:E; simpl.
  - naive_solver congruence.
  - rewrite lookup_insert_Some. destruct (decide (ActorId_as_local (rcp_index r) = i)); naive_solver.
Qed.

Lemma Registry_insert_keyed i reg : reg_keyed reg -> reg_keyed (Registry_insert (local_mailbox i) reg).2.
Proof. intros Hk j r [?|(? & <- & ->)]%Registry_insert_lookup; auto. Qed.

Lemma Registry_get_lookup is_closed i reg j r :
  (Registry_get is_closed i reg).2 !! j = Some r <->
  reg !! j = Some r /\ (i = j -> is_closed r = false).
Proof.
  unfold Registry_get. destruct (reg !! i) as [v|] eqn:E; simpl; [|naive_solver congruence].
  destruct (is_closed v) eqn:Ec; simpl; [rewrite lookup_delete_Some|]; naive_solver congruence.
Qed.

Lemma Registry_get_open is_closed i reg r :
  reg !! i = Some r -> is_closed r = false -> Registry_get is_closed i reg = (Some r, reg).
Proof. unfold Registry_get. by intros -> ->. Qed.

Lemma Registry_retain_lookup pred reg i r :
  Registry_retain pred reg !! i = Some r <-> reg !! i = Some r /\ pred i r = true.
Proof. unfold Registry_retain. by rewrite map_lookup_filter_Some. Qed.

(** With no closed mailbox left, the sweep of the labels only reads the registry. *)
Lemma task_fold (is_closed : Recipient -> bool) reg order (labels : gmap string Z) :
  (forall i r, reg !! i = Some r -> is_closed r = false) ->
  exists labels',
    fold_left (fun '(labels, reg) '(label, actor_id) =>
      let (keep, reg) := Registry_contains_index is_closed actor_id reg in
      (if keep : bool then labels else delete label labels, reg)) order (labels, reg) =
    (labels', reg) /\
    forall l i, labels' !! l = Some i <->
      labels !! l = Some i /\ forall i', (l, i') ∈ order -> is_Some (reg !! i').
Proof.
  intros Hopen. revert labels. induction order as [|[l0 i0] order IH]; intros labels; simpl.
  - exists labels. split; [done|]. set_solver.
  - assert (Hc : Registry_contains_index is_closed i0 reg = (is_some (reg !! i0), reg)).
    { unfold Registry_contains_index. destruct (reg !! i0) as [r|] eqn:E; [|done].
      by rewrite (Hopen i0 r E). }
    rewrite Hc. destruct (IH (if is_some (reg !! i0) then labels else delete l0 labels))
      as (labels' & -> & Hl).
    exists labels'. split; [done|]. intros l i. rewrite Hl. 
    destruct (reg !! i0) eqn:E; simpl.
    + split; intros [Hli Hall]; (split; [done|]); intros i' Hin; [|apply Hall; set_solver].
      apply elem_of_cons in Hin as [Heq|Hin]; [simplify_eq; rewrite E; eauto|eauto].
    + rewrite lookup_delete_Some. split.
      * intros [[Hne Hli] Hall]. split; [done|].
        intros i' [Heq|Hin]%elem_of_cons; [simplify_eq|eauto].
      * intros [Hli Hall]. split_and!; [|done|intros; apply Hall; set_solver].
        intros ->. destruct (Hall i0) as [? Hs]; [set_solver|congruence].
Qed.

Lemma ActorMgr_task_spec is_closed order m reg :
  order ≡ₚ map_to_list (actor_labels m) ->
  exists labels,
    ActorMgr_task is_closed order (m, reg) =
      (60%Z, (with_labels m labels, Registry_retain (fun _ r => negb (is_closed r)) reg)) /\
    forall l i, labels !! l = Some i <->
      actor_labels m !! l = Some i /\ exists r, reg !! i = Some r /\ is_closed r = false.
Proof.
  intros Ho. unfold ActorMgr_task.
  destruct (task_fold is_closed (Registry_retain (fun _ r => negb (is_closed r)) reg) order
              (actor_labels m)) as (labels & -> & Hl).
  { intros i r [_ Hr]%Registry_retain_lookup. by apply negb_true_iff. }
  exists labels. split; [done|]. intros l i. rewrite Hl. split; intros [Hli Hreg]; (split; [done|]).
  - destruct (Hreg i) as [r Hr]; [rewrite Ho; by apply elem_of_map_to_list|].
    apply Registry_retain_lookup in Hr as [? ?%negb_true_iff]. eauto.
  - intros i' Hin. rewrite Ho, elem_of_map_to_list in Hin. simplify_eq.
    destruct Hreg as (r & Hr & Hc). exists r. apply Registry_retain_lookup. by rewrite Hc.
Qed.

(** ** The invariant *)

Lemma mgr_inv_empty fs : mgr_inv (mkMgrSys (mkActorMgr ∅ fs) ∅ ∅).
Proof.
  constructor; simpl; intros until 0; try done.
Qed.

(** Fewer labels and a registry that kept the labelled, running actors. *)
Lemma mgr_inv_shrink s m reg :
  mgr_inv s -> reg_keyed reg ->
  (forall l i, actor_labels m !! l = Some i -> actor_labels (sys_mgr s) !! l = Some i) ->
  (forall l i, actor_labels m !! l = Some i -> i ∉ sys_stopped s ->
     sys_registry s !! i = Some (local_mailbox i) -> reg !! i = Some (local_mailbox i)) ->
  mgr_inv (with_mgr s (m, reg)).
Proof. intros [Hk Hr H1] Hk' Hl Hreg. constructor; simpl; eauto. Qed.

(** A new label for an actor that has none, with its mailbox registered. *)
Lemma mgr_inv_label s label i reg :
  mgr_inv s -> reg_keyed reg ->
  (i ∉ sys_stopped s -> forall l, actor_labels (sys_mgr s) !! l ≠ Some i) ->
  (forall j, j ∉ sys_stopped s -> sys_registry s !! j = Some (local_mailbox j) ->
     reg !! j = Some (local_mailbox j)) ->
  is_Some (reg !! i) ->
  mgr_inv (with_mgr s (with_labels (sys_mgr s) (<[label := i]> (actor_labels (sys_mgr s))), reg)).
Proof.
  intros [Hk Hr H1] Hk' Hfresh Hmono [r Hi]. constructor; simpl; [done|..].
  - intros l j [[<- <-]|[? ?]]%lookup_insert_Some; [|eauto].
    by rewrite Hi, (Hk' _ _ Hi).
  - intros l l' j [[<- <-]|[? Hl]]%lookup_insert_Some [[<- Heq]|[? Hl']]%lookup_insert_Some Hj;
      try done; try (by destruct (Hfresh Hj l')); [|eauto].
    subst. by destruct (Hfresh Hj l).
Qed.

Context (no_factory : Z -> string) (label_exists : string -> Z -> string).

Abbreviation step := (mgr_step no_factory label_exists).

(** The lookup of a running actor, by the manager or by a session, evicts nobody else. *)
Lemma mgr_inv_get s i :
  mgr_inv s -> mgr_inv (with_mgr s (sys_mgr s, (Registry_get (closed s) i (sys_registry s)).2)).
Proof.
  intros Hi. pose proof (Registry_get_lookup (closed s) i (sys_registry s)) as Hg.
  apply mgr_inv_shrink; [done| |done|].
  - intros j r [? _]%Hg. destruct Hi as [Hk _ _]. eauto.
  - intros l j _ Hj ?. apply Hg. split; [done|]. intros ->.
    rewrite closed_local. by rewrite bool_decide_eq_false_2.
Qed.

Lemma mgr_inv_task s order :
  mgr_inv s -> order ≡ₚ map_to_list (actor_labels (sys_mgr s)) ->
  mgr_inv (with_mgr s (ActorMgr_task (closed s) order (mgr_state s)).2).
Proof.
  intros Hi Ho. pose proof Hi as [Hk _ _].
  destruct (ActorMgr_task_spec (closed s) order (sys_mgr s) (sys_registry s) Ho) as (labels & E & Hl).
  unfold mgr_state. rewrite E. simpl. apply mgr_inv_shrink; [done|..].
  - intros i r [? _]%Registry_retain_lookup. eauto.
  - intros l i [? _]%Hl. done.
  - intros l i _ Hi' Hreg. apply Registry_retain_lookup. split; [done|].
    rewrite closed_local. by rewrite bool_decide_eq_false_2.
Qed.

Lemma mgr_inv_create s ty label cfg during :
  mgr_inv s ->
  (forall factory r,
     factories (sys_mgr s) !! ty = Some factory -> factory label cfg = Done (Ok r) ->
     exists i, r = local_mailbox i /\ forall l, actor_labels (sys_mgr s) !! l ≠ Some i) ->
  (forall reg i r, i ∉ sys_stopped s -> reg !! i = Some r -> during reg !! i = Some r) ->
  (forall reg i r, during reg !! i = Some r -> reg !! i = Some r \/ r = local_mailbox i) ->
  mgr_inv (with_mgr s (ActorMgr_create_actor no_factory label_exists ty label cfg during
                         (mgr_state s)).2).
Proof.
  intros Hi Hfac Hmono Hnew. pose proof Hi as [Hk _ _].
  unfold mgr_state, ActorMgr_create_actor. simpl.
  destruct (factories (sys_mgr s) !! ty) as [factory|] eqn:Ef; [|by destruct s].
  destruct (actor_labels (sys_mgr s) !! label) eqn:El; [by destruct s|].
  assert (Hkd : reg_keyed (during (sys_registry s))).
  { intros j r Hj. destruct (Hnew _ _ _ Hj); eauto. }
  destruct (factory label cfg) as [[r|e]|info] eqn:Er; simpl;
    try (by apply mgr_inv_shrink; eauto).
  destruct (Hfac factory r eq_refl Er) as (i & -> & Hfresh). simpl.
  apply mgr_inv_label; [done|by apply Registry_insert_keyed|by intros _|..].
  - intros j Hj Hreg. apply Registry_insert_lookup. left. eauto.
  - destruct (during (sys_registry s) !! i) as [v|] eqn:E.
    + exists v. apply Registry_insert_lookup. by left.
    + exists (local_mailbox i). apply Registry_insert_lookup. by right.
Qed.

Lemma mgr_inv_add s label i :
  mgr_inv s -> mgr_inv (with_mgr s (ActorMgr_add_actor label (local_mailbox i) (mgr_state s)).2).
Proof.
  intros Hi. pose proof Hi as [Hk Hr _]. unfold mgr_state, ActorMgr_add_actor.
  destruct (actor_labels (sys_mgr s) !! label) eqn:El; [by destruct s|].
  pose proof (Registry_insert_lookup (local_mailbox i) (sys_registry s)) as Hins.
  pose proof (Registry_insert_keyed i _ Hk) as Hkd.
  unfold Registry_insert in *. simpl in *.
  destruct (sys_registry s !! i) as [v|] eqn:E; simpl in *; [by destruct s|].
  apply mgr_inv_label; [done|done| |..].
  - intros Hi' l Hl. by rewrite (Hr l i Hl Hi') in E.
  - intros j _ Hj. apply Hins. by left.
  - exists (local_mailbox i). apply Hins. by right.
Qed.

Lemma mgr_inv_remove s r :
  mgr_inv s -> mgr_inv (with_mgr s (ActorMgr_remove_actor r (mgr_state s)).2).
Proof.
  intros Hi. pose proof Hi as [Hk _ H1].
  destruct r as [id|label]; unfold mgr_state, ActorMgr_remove_actor.
  - simpl. apply mgr_inv_shrink; [done|..].
    + intros j r [_ ?]%lookup_delete_Some. eauto.
    + intros l j [? _]%map_lookup_filter_Some. done.
    + intros l j [_ Hj]%map_lookup_filter_Some Hst ?. apply lookup_delete_Some. simpl in Hj. auto.
  - destruct (actor_labels (sys_mgr s) !! label) as [i|] eqn:El; [|by destruct s].
    simpl. apply mgr_inv_shrink; [done|..].
    + intros j r [_ ?]%lookup_delete_Some. eauto.
    + intros l j Hlj. simpl in Hlj. by apply lookup_delete_Some in Hlj as [_ ?].
    + intros l j Hlj Hst ?. simpl in Hlj. apply lookup_delete_Some in Hlj as [Hne Hlj].
      apply lookup_delete_Some. split; [|done]. intros ->. eauto.
Qed.

Lemma mgr_step_inv s s' : mgr_inv s -> step s s' -> mgr_inv s'.
Proof.
  intros Hi Hs. pose proof Hi as [Hk Hr H1].
  destruct Hs as [s order Ho|s ty label cfg during Hfac Hmono Hnew|s label|s label i|s r|s i|s i|s i];
    auto using mgr_inv_task, mgr_inv_create, mgr_inv_add, mgr_inv_remove.
  - unfold mgr_state, ActorMgr_get_actor.
    destruct (actor_labels (sys_mgr s) !! label) as [i|]; [|by destruct s].
    pose proof (mgr_inv_get s i Hi) as Hg.
    by destruct (Registry_get (closed s) i (sys_registry s)).
  - apply (mgr_inv_shrink s (sys_mgr s)); [done|by apply Registry_insert_keyed|done|].
    intros l j _ _ ?. apply Registry_insert_lookup. by left.
  - by apply mgr_inv_get.
  - constructor; simpl; [done| |].
    + intros l j Hl Hj. apply (Hr l j Hl). set_solver.
    + intros l l' j Hl Hl' Hj. apply (H1 l l' j Hl Hl'). set_solver.
Qed.

Lemma mgr_steps_inv s s' : rtc step s s' -> mgr_inv s -> mgr_inv s'.
Proof. induction 1; eauto using mgr_step_inv. Qed.

(** C32. A labelled actor that still runs can be reached, whatever the manager, the
    sessions and the other actors did since the node started: [GetActor] returns its
    mailbox, a session that looks its index up finds it, and no other label leads to it. *)
Theorem labelled_actor_reachable fs s l i
    (Hrun : rtc step (mkMgrSys (mkActorMgr ∅ fs) ∅ ∅) s)
    (Hl : actor_labels (sys_mgr s) !! l = Some i) (Hi : i ∉ sys_stopped s) :
  (ActorMgr_get_actor (closed s) l (mgr_state s)).1 = Ok (local_mailbox i) /\
  (Registry_get (closed s) i (sys_registry s)).1 = Some (local_mailbox i) /\
  (forall l', actor_labels (sys_mgr s) !! l' = Some i -> l' = l).
Proof.
  destruct (mgr_steps_inv _ _ Hrun (mgr_inv_empty fs)) as [Hk Hr H1].
  assert (Hg : Registry_get (closed s) i (sys_registry s) = (Some (local_mailbox i), sys_registry s)).
  { apply Registry_get_open; [by eapply Hr|]. rewrite closed_local. by apply bool_decide_eq_false_2. }
  unfold mgr_state, ActorMgr_get_actor. rewrite Hl, Hg. split_and!; [done|done|].
  intros l' Hl'. by apply (H1 l' l i).
Qed.

(** The periodic task of the manager keeps exactly the open mailboxes and the labels
    that lead to one, in whatever order it visits them. *)
Lemma task_sweeps_exactly is_closed order m reg (Ho : order ≡ₚ map_to_list (actor_labels m)) :
  let '(_, (m', reg')) := ActorMgr_task is_closed order (m, reg) in
  (forall i r, reg' !! i = Some r <-> reg !! i = Some r /\ is_closed r = false) /\
  (forall l i, actor_labels m' !! l = Some i <->
     actor_labels m !! l = Some i /\ exists r, reg !! i = Some r /\ is_closed r = false) /\
  factories m' = factories m.
Proof.
  destruct (ActorMgr_task_spec is_closed order m reg Ho) as (labels & -> & Hl).
  split_and!; [|done|done]. intros i r. by rewrite Registry_retain_lookup, negb_true_iff.
Qed.
End Facts.

(** ** Witnesses *)

Section Witnesses.

Definition no_factory (id : Z) : string := "no factory".
Definition label_exists (l : string) (id : Z) : string := "label exists".

Definition mgr_start : MgrSys := mkMgrSys (mkActorMgr ∅ ∅) ∅ ∅.

(** Actor 1 is added as "a", actor 2 is registered by a session, then actor 2 stops. *)
Definition mgr_added : MgrSys :=
  with_mgr mgr_start (ActorMgr_add_actor "a" (local_mailbox 1) (mgr_state mgr_start)).2.

Definition mgr_end : MgrSys :=
  let s := with_registry mgr_added (Registry_insert (local_mailbox 2) (sys_registry mgr_added)).2 in
  mkMgrSys (sys_mgr s) (sys_registry s) ({[2%Z]} ∪ sys_stopped s).

Lemma mgr_end_reached : rtc (mgr_step no_factory label_exists) mgr_start mgr_end.
Proof.
  eapply rtc_l; [exact (ms_add _ _ mgr_start "a" 1)|].
  eapply rtc_l; [exact (ms_register _ _ mgr_added 2)|].
  apply rtc_once. exact (ms_stop _ _ _ 2).
Qed.

Lemma labelled_actor_reachable_witness :
  (ActorMgr_get_actor (stopped_closed (sys_stopped mgr_end)) "a" (mgr_state mgr_end)).1 =
    Ok (local_mailbox 1) /\
  (Registry_get (stopped_closed (sys_stopped mgr_end)) 1 (sys_registry mgr_end)).1 =
    Some (local_mailbox 1) /\
  (forall l', actor_labels (sys_mgr mgr_end) !! l' = Some 1%Z -> l' = "a").
Proof.
  apply (labelled_actor_reachable no_factory label_exists ∅ mgr_end "a" 1 mgr_end_reached).
  - reflexivity.
  - simpl. set_solver.
Defined.

Lemma task_sweeps_exactly_witness :
  let m := mkActorMgr {["a" := 1%Z]} ∅ in
  let reg : registry := {[1%Z := local_mailbox 1; 2%Z := local_mailbox 2]} in
  let '(_, (m', reg')) :=
    ActorMgr_task (stopped_closed {[1%Z]}) [("a", 1%Z)] (m, reg) in
  (forall i r, reg' !! i = Some r <-> reg !! i = Some r /\ stopped_closed {[1%Z]} r = false) /\
  (forall l i, actor_labels m' !! l = Some i <->
     actor_labels m !! l = Some i /\ exists r, reg !! i = Some r /\ stopped_closed {[1%Z]} r = false) /\
  factories m' = factories m.
Proof.
  intros m reg. apply (task_sweeps_exactly (stopped_closed {[1%Z]}) [("a", 1%Z)] m reg).
  unfold m. simpl. by rewrite map_to_list_singleton.
Defined.
End Witnesses.
