(* ===== verification/ErrorReport.v ===== *)
(** * Errors as text

    Models acktor/src/error/report.rs (the report of an error and of the errors that caused
    it) and what the error types of the two crates say: the [Display], [Debug] and [source]
    of acktor/src/error.rs, acktor/src/codec/error.rs, acktor-ipc/src/error.rs and
    acktor-ipc/src/double_map/errors.rs. A report is what one node sends to the other in
    place of an error. *)

From S2P Require Import Prelude DoubleMap Tokio ActorTypes WireLibs Codec Registry.

(** ** [std::error::Error] *)

(** What a [dyn Error] lets its user see: its [Display] text and the error it came from. *)
Inductive dyn_error : Type :=
| RootError (text : string)
| CausedError (text : string) (source : dyn_error).

Class StdError (E : Type) : Type := {
  display : E -> string;
  source : E -> option dyn_error;
}.

Definition dyn_text (e : dyn_error) : string :=
  match e with RootError text | CausedError text _ => text end.
Definition dyn_source (e : dyn_error) : option dyn_error :=
  match e with RootError _ => None | CausedError _ source => Some source end.

Definition as_dyn `{StdError E} (e : E) : dyn_error :=
  match source e with None => RootError (display e) | Some s => CausedError (display e) s end.

#[global] Instance dyn_StdError : StdError dyn_error := {| display := dyn_text; source := dyn_source |}.

(** [BoxError::from(String)]: an error with this text and no source. An error of the outside
    world (an I/O error, a failed allocation) is likewise known by its text. *)
#[global] Instance string_StdError : StdError string := {| display s := s; source _ := None |}.

(** [iter::successors(first, |e| e.source())]. *)
Fixpoint successors (e : dyn_error) : list dyn_error :=
  e :: match e with CausedError _ s => successors s | RootError _ => [] end.

(** [ErrorReport::report]. *)
Definition report `{StdError E} (e : E) : string :=
  let sources := match source e with Some s => successors s | None => [] end in
  fold_left (fun result s => result +:+ ": " +:+ display s) sources (display e).

(** ** The error types *)

Section Errors.
Context {BoxError : Type} `{StdError BoxError}.

(** [ShortName::of::<M>()]. *)
Context (short_name : string).

Definition SendError_debug {M} (debug : BoxError -> string) (e : SendError BoxError M) : string :=
  match e with
  | SendClosed _ => "Closed(..)"
  | SendFull _ => "Full(..)"
  | SendTimeout _ => "Timeout(..)"
  | SendNoEncodeFn _ => "NoEncodeFn(..)"
  | SendOther trans _ => debug trans
  end.

Definition SendError_display {M} (e : SendError BoxError M) : string :=
  match e with
  | SendClosed _ => "sending on a closed channel"
  | SendFull _ => "sending on a full channel"
  | SendTimeout _ => "timed out waiting on sending"
  | SendNoEncodeFn _ => "no encode function for message type " +:+ short_name
  | SendOther trans _ => display trans
  end.

Definition SendError_source {M} (e : SendError BoxError M) : option dyn_error :=
  match e with
  | SendClosed _ | SendFull _ | SendTimeout _ | SendNoEncodeFn _ => None
  | SendOther trans _ => source trans
  end.

Definition RecvError_display (e : RecvError BoxError) : string :=
  match e with
  | RecvClosed => "receiving on a closed channel"
  | RecvEmpty => "receiving on an empty channel"
  | RecvTimeout => "timed out waiting on receiving"
  | RecvOther e => display e
  end.

Definition RecvError_source (e : RecvError BoxError) : option dyn_error :=
  match e with
  | RecvClosed | RecvEmpty | RecvTimeout => None
  | RecvOther e => source e
  end.
End Errors.

#[global] Instance SendError_StdError `{StdError BoxError} {M} (short_name : string) :
  StdError (SendError BoxError M) :=
  {| display := SendError_display short_name; source := SendError_source |}.

#[global] Instance RecvError_StdError `{StdError BoxError} : StdError (RecvError BoxError) :=
  {| display := RecvError_display; source := RecvError_source |}.

Definition KeyConflictError_display {K1 K2 V} (e : KeyConflictError K1 K2 V) : string :=
  match e with
  | Key1Exists _ _ _ => "key 1 is already present in the map paired with a different key 2"
  | Key2Exists _ _ _ => "key 2 is already present in the map paired with a different key 1"
  | BothKeysExist _ _ _ =>
      "both key 1 and key 2 are already present in the map but in different entries"
  end.

#[global] Instance KeyConflictError_StdError {K1 K2 V} : StdError (KeyConflictError K1 K2 V) :=
  {| display := KeyConflictError_display; source _ := None |}.

Definition EncodeError_display (e : EncodeError) : string :=
  match e with
  | MissingEncodeContext => "missing encode context"
  | EncodeRemoteAddress => "remote address should not be encoded into a message"
  | NotRemoteAddressable => "the actor is not remote addressable"
  | EncodeOther _ => "could not encode the message"
  end.

Definition EncodeError_source (e : EncodeError) : option dyn_error :=
  match e with EncodeOther e => Some (as_dyn e) | _ => None end.

#[global] Instance EncodeError_StdError : StdError EncodeError :=
  {| display := EncodeError_display; source := EncodeError_source |}.

Definition DecodeError_display (e : DecodeError) : string :=
  match e with
  | MissingDecodeContext => "missing decode context"
  | DecodeRemoteAddress => "message should not contain a remote address"
  | UnknownMessageId id => "unknown message id: " +:+ u64_display id
  | MissingRemoteProxy => "decode context does not contain a remote proxy"
  | DecodeOther _ => "could not decode the message"
  end.

Definition DecodeError_source (e : DecodeError) : option dyn_error :=
  match e with DecodeOther e => Some (as_dyn e) | _ => None end.

#[global] Instance DecodeError_StdError : StdError DecodeError :=
  {| display := DecodeError_display; source := DecodeError_source |}.

(** [EncodeError::other] and [DecodeError::other], which every [From] of the two uses; the
    boxed error is kept as its report. *)
Definition EncodeError_other `{StdError E} (err : E) : EncodeError := EncodeOther (report err).
Definition DecodeError_other `{StdError E} (err : E) : DecodeError := DecodeOther (report err).

(** A session waits a minute for an answer; in milliseconds. *)
Definition RESPONSE_TIMEOUT : Z := 60000.

Definition SessionError_display (e : SessionError) : string :=
  match e with
  | SessionEncodeError _ => "could not encode the outbound remote message"
  | SessionDecodeError _ => "could not decode the inbound remote message"
  | SendOutboundMessageFailed _ =>
      "could not send the outbound remote message to the remote node"
  | ForwardInboundMessageFailed _ =>
      "could not forward the inbound remote message to any actor"
  | InvalidMessageResTxTag tag => "invalid message response tag: " +:+ u64_display tag
  | ForwardMessageResFailed => "could not forward the actor message response"
  | CreateActorFailed _ => "could not create the actor on behalf of the remote node"
  | ActorNotFound label => "could not find actor " +:+ label
  | HandleInboundMessageFailed _ => "could not handle inbound remote message"
  | RemoteNodeError e => "remote node returned an error: " +:+ e
  | ResponseTimeout =>
      "no response received from the remote node after " +:+
      u64_display (RESPONSE_TIMEOUT / 1000) +:+ " seconds"
  | SessionIoError e => display e
  | SessionSendError _ => "could not send message"
  | SessionRecvError _ => "could not receive message"
  end.

(** A transparent variant shows the source of the error inside. *)
Definition SessionError_source (e : SessionError) : option dyn_error :=
  match e with
  | SessionEncodeError e => Some (as_dyn e)
  | SessionDecodeError e => Some (as_dyn e)
  | SendOutboundMessageFailed e | ForwardInboundMessageFailed e | CreateActorFailed e
  | HandleInboundMessageFailed e | SessionSendError e => Some (as_dyn e)
  | SessionIoError e => source e
  | SessionRecvError e => Some (as_dyn e)
  | InvalidMessageResTxTag _ | ForwardMessageResFailed | ActorNotFound _ | RemoteNodeError _
  | ResponseTimeout => None
  end.

#[global] Instance SessionError_StdError : StdError SessionError :=
  {| display := SessionError_display; source := SessionError_source |}.

(** [From<SendError<T>>]: the error is boxed. *)
Definition SessionError_from_send {T} (short_name : string) (e : SendError string T) : SessionError :=
  SessionSendError (@report _ (SendError_StdError short_name) e).

(** ** What a report says *)

Lemma fold_report (l : list dyn_error) (init : string) :
  fold_left (fun result s => result +:+ ": " +:+ display s) l init =
  init +:+ fold_right (fun s rest => ": " +:+ display s +:+ rest) "" l.
Proof.
  revert init. induction l as [|s l IH]; intros init; cbn [fold_left fold_right].
  - by rewrite string_app_nil_r.
  - by rewrite IH, !string_app_assoc.
Qed.

(** A report is the text of the error followed by the report of its source, if it has one. *)
Lemma report_source `{StdError E} (e : E) :
  report e =
    match source e with
    | None => display e
    | Some s => display e +:+ ": " +:+ report s
    end.
Proof.
  unfold report at 1. destruct (source e) as [s|]; [|done]. rewrite fold_report. f_equal.
  unfold report. rewrite fold_report. by destruct s as [text|text s].
Qed.

(** An error that is known by its report says what the boxed error would say. *)
Lemma report_as_dyn `{StdError E} (e : E) : report (as_dyn e) = report e.
Proof. rewrite !report_source. unfold as_dyn. by destruct (source e). Qed.

Lemma boxed_report `{StdError E} (text : string) (e : E) :
  report (CausedError text (as_dyn e)) = report (CausedError text (as_dyn (report e))).
Proof.
  rewrite (report_source (CausedError _ _)), (report_source (CausedError _ (as_dyn (report e)))).
  cbn [source dyn_StdError dyn_source]. by rewrite !report_as_dyn.
Qed.

(** The reports the repository's own tests ask for, and one through three layers. *)
Example report_closed :
  @report _ (SendError_StdError "M") (SendClosed tt : SendError string unit) =
    "sending on a closed channel".
Proof. reflexivity. Qed.

Example report_chain :
  report (CausedError "top context" (CausedError "middle context" (RootError "root cause")))
    = "top context: middle context: root cause".
Proof. reflexivity. Qed.

Example report_session :
  report (SessionDecodeError (DecodeError_other "unexpected end of buffer")) =
    "could not decode the inbound remote message: could not decode the message: unexpected end of buffer".
Proof. reflexivity. Qed.

Example report_timeout :
  report ResponseTimeout = "no response received from the remote node after 60 seconds".
Proof. reflexivity. Qed.
