(* ===== verification/IpcMessages.v ===== *)
(** * The messages two nodes exchange

    Models the data of acktor-ipc-proto/src/proto (message.rs, node_message.rs, utils.rs:
    the types prost generates), their constructors in acktor-ipc-proto/src/message.rs and
    utils.rs, its codec of
    acktor/src/codec/ipc_message.rs, and [BinaryMessage] of acktor/src/message/remote.rs. A oneof or message field
    is an option: a peer may leave it out. *)

From S2P Require Import Prelude Tokio ActorTypes UserCode WireLibs Codec.

Inductive ActorRefType : Type :=
| RefIndex (actor_id : Z)
| RefLabel (label : string).

Record ProtoActorRef : Type := mkProtoActorRef { pa_ref : option ActorRefType }.

Definition ProtoActorRef_index (actor_id : Z) : ProtoActorRef := mkProtoActorRef (Some (RefIndex actor_id)).
Definition ProtoActorRef_label (label : string) : ProtoActorRef := mkProtoActorRef (Some (RefLabel label)).

(** [ProtoResult], [ProtoOption], the messages of vectors and the message of tuples. *)
Record ProtoResult : Type := mkProtoResult { pr_result : option (result (list Z) string) }.

Definition ProtoResult_ok (ok : list Z) : ProtoResult := mkProtoResult (Some (Ok ok)).
Definition ProtoResult_err (err : string) : ProtoResult := mkProtoResult (Some (Err err)).

Record ProtoOption : Type := mkProtoOption { po_option : option (list Z) }.

Definition ProtoOption_some (some : list Z) : ProtoOption := mkProtoOption (Some some).
Definition ProtoOption_none : ProtoOption := mkProtoOption None.

Record ProtoVec (T : Type) : Type := mkProtoVec { pv_values : list T }.
Arguments mkProtoVec {T} _.

Definition ProtoVec_new {T} (values : list T) : ProtoVec T := mkProtoVec values.

(** The ten optional fields of [Tuple], in order. *)
Record Tuple : Type := mkTuple { tu_fields : vec (option (list Z)) 10 }.

(** [tuple2] .. [tuple10]: the given fields, the others absent. *)
Definition Tuple_ctor (fields : list (list Z)) : Tuple :=
  mkTuple (fun_to_vec (fun i : fin 10 => fields !! fin_to_nat i)).

Record ResultAddress : Type := mkResultAddress { ra_result : option (result Z string) }.

Definition ResultAddress_ok (actor_id : Z) : ResultAddress := mkResultAddress (Some (Ok actor_id)).
Definition ResultAddress_err (err : string) : ResultAddress := mkResultAddress (Some (Err err)).

Record ActorMessage : Type := mkActorMessage {
  am_actor_id : Z;
  am_message_id : Z;
  am_message : list Z;
  am_tag : option Z;
}.

Definition ActorMessage_send (actor_id message_id : Z) (message : list Z) (tag : Z) : ActorMessage :=
  mkActorMessage actor_id message_id message (Some tag).
Definition ActorMessage_do_send (actor_id message_id : Z) (message : list Z) : ActorMessage :=
  mkActorMessage actor_id message_id message None.

Inductive NodeMessageType : Type :=
| NodeCreateActor (type_id : Z) (label config : string) (tag : Z)
| NodeGetActor (actor : option ProtoActorRef) (tag : Z).

Record NodeMessage : Type := mkNodeMessage { nm_message : option NodeMessageType }.

Definition NodeMessage_create_actor (type_id : Z) (label config : string) (tag : Z) : NodeMessage :=
  mkNodeMessage (Some (NodeCreateActor type_id label config tag)).
Definition NodeMessage_get_actor_by_index (actor_id tag : Z) : NodeMessage :=
  mkNodeMessage (Some (NodeGetActor (Some (ProtoActorRef_index actor_id)) tag)).
Definition NodeMessage_get_actor_by_label (label : string) (tag : Z) : NodeMessage :=
  mkNodeMessage (Some (NodeGetActor (Some (ProtoActorRef_label label)) tag)).

(** [Ok] bytes, or the text of an error. *)
Record ProtoMessageResponse : Type := mkProtoMessageResponse {
  pr_tag : Z;
  pr_response : option (result (list Z) string);
}.

Definition ProtoMessageResponse_new (tag : Z) (result : result (list Z) string)
    : ProtoMessageResponse := mkProtoMessageResponse tag (Some result).

Inductive IpcMessageType : Type :=
| IpcActorMessage (m : ActorMessage)
| IpcNodeMessage (m : NodeMessage)
| IpcMessageResponse (m : ProtoMessageResponse).

Record IpcMessage : Type := mkIpcMessage { im_message : option IpcMessageType }.

Definition IpcMessage_actor_message (m : ActorMessage) : IpcMessage := mkIpcMessage (Some (IpcActorMessage m)).
Definition IpcMessage_node_message (m : NodeMessage) : IpcMessage := mkIpcMessage (Some (IpcNodeMessage m)).
Definition IpcMessage_message_response (m : ProtoMessageResponse) : IpcMessage :=
  mkIpcMessage (Some (IpcMessageResponse m)).

(** [BinaryMessage]: the response channel by name, the contexts by their session. *)
Record BinaryMessage : Type := mkBinaryMessage {
  bm_actor_id : Z;
  bm_message_id : Z;
  bm_bytes : list Z;
  bm_result_tx : option nat;
  bm_decode_msg_ctx : option Z;
  bm_encode_res_ctx : option Z;
}.

Definition BinaryMessage_do_send (actor_id message_id : Z) (bytes : list Z) : BinaryMessage :=
  mkBinaryMessage actor_id message_id bytes None None None.
Definition BinaryMessage_send (actor_id message_id : Z) (bytes : list Z) (tx : nat) : BinaryMessage :=
  mkBinaryMessage actor_id message_id bytes (Some tx) None None.
Definition BinaryMessage_with_decode_context (b : BinaryMessage) (ctx : Z) : BinaryMessage :=
  mkBinaryMessage (bm_actor_id b) (bm_message_id b) (bm_bytes b) (bm_result_tx b) (Some ctx)
    (bm_encode_res_ctx b).
Definition BinaryMessage_with_encode_context (b : BinaryMessage) (ctx : Z) : BinaryMessage :=
  mkBinaryMessage (bm_actor_id b) (bm_message_id b) (bm_bytes b) (bm_result_tx b)
    (bm_decode_msg_ctx b) (Some ctx).

(** ** The codec of the frames (codec/ipc_message.rs) *)

Section IpcCodec.
Context {B R : Type} `{BytesCrate B} `{!ProstMessage B IpcMessage}.

Definition IpcMessage_encoded_len (m : IpcMessage) : nat := pm_encoded_len m.

Definition IpcMessage_encode (m : IpcMessage) (ctx : option (EncodeContext R)) : encoder R :=
  extend_from_slice (pm_encode m).

Definition IpcMessage_decode (buf : B) (ctx : option DecodeContext) : result IpcMessage DecodeError :=
  result_map_err DecodeOther (pm_decode buf).

(** A frame has the announced length, reads back without any context, and what cannot be
    read is an error. *)
Lemma ipc_message_roundtrip m ctx dctx (r : R) b :
  pm_valid m -> bytes_data b = pm_encode m ->
  Encode_encode_to_bytes (IpcMessage_encode m ctx) r = (Ok (bytes_data b), r) /\
  length (bytes_data b) = IpcMessage_encoded_len m /\ IpcMessage_decode b dctx = Ok m.
Proof.
  intros Hv Hb. split_and!.
  - rewrite Hb. by apply writes_to_bytes.
  - rewrite Hb. by apply pm_len_law.
  - unfold IpcMessage_decode. by rewrite (pm_decode_law m b).
Qed.
End IpcCodec.
