(* ===== verification/Session.v ===== *)
(** * Sessions

    Models acktor-ipc/src/session.rs (the actor that owns an IPC connection: tags and the
    map of pending responses, the handlers of outgoing messages, the routing of incoming
    frames, the tasks it spawns and the cleanup of requests nobody answered),
    acktor-ipc/src/session/context.rs (its loop) and session/proxy.rs. What a handler does
    to the outside is returned as a list of events; what the outside answers (the
    connection, the mailboxes, the manager, the clock) are arguments. *)

From S2P Require Import Prelude Tokio ActorTypes UserCode WireLibs Codec Registry IpcMessages.
From S2P Require Import ErrorReport.

(** In milliseconds; [RESPONSE_TIMEOUT] is in ErrorReport.v. *)
Definition CLEANUP_INTERVAL : Z := 15000.

(** [post_stop]: the connection is closed, with the answer of its [close]. *)
Definition Session_post_stop (close : result unit string) : result unit SessionError :=
  result_map_err SessionIoError close.

(** The message a spawned task sends back to its session. *)
Record MessageResponse : Type := mkMessageResponse {
  mr_tag : Z;
  mr_result : result (list Z) string;
}.

(** The messages in the mailbox of a session. *)
Inductive SessionMsg : Type :=
| SmBinary (m : BinaryMessage)
| SmResponse (m : MessageResponse)
| SmRequireCleanup
| SmCreateActor (type_id : Z) (label : string) (config : option string)
| SmGetActor (actor : ActorRef).

(** [Session]: the proxy is the index of the session once it is started; a pending
    response is its sender and the time it was registered. *)
Record Session : Type := mkSession {
  s_tag : Z;
  s_proxy : option Z;
  s_res_map : gmap Z (nat * Z);
}.

(** The context of a session, with the cleanup timers that were spawned and whose message
    was not handled yet. *)
Record SessionContext : Type := mkSessionContext {
  sc_label : string;
  sc_state : ActorState;
  sc_doorplate : ActorId;
  sc_mailbox : bool;
  sc_supervisor : option Recipient;
  sc_require_cleanup : bool;
  sc_timers : nat;
}.

(** The tasks a session spawns: the creation of an actor, and a message for a local actor
    whose response must go back. *)
Inductive STask : Type :=
| TaskCreateActor (type_id : Z) (label config : string) (tag : Z)
| TaskForward (recipient : result Recipient SessionError) (message : BinaryMessage) (tag : Z).

Inductive SEvent : Type :=
| SevFrame (bytes : list Z)
| SevAnswer (tx : nat) (r : result (list Z) SessionError)
| SevAnswerLost (tx : nat)
| SevDropped (tx : nat)
| SevDeliver (to : Recipient) (message : BinaryMessage)
| SevSpawn (t : STask).

Section Session.
Context {B : Type} `{BytesCrate B} `{!ProstMessage B IpcMessage} `{!ProstMessage B ResultAddress}.
(** Response channels whose receiver is gone, mailboxes that are closed, and the order in
    which the map of pending responses is visited. *)
Context (tx_closed : nat -> bool) (is_closed : Recipient -> bool).
Context (iter_order : gmap Z (nat * Z) -> list (Z * (nat * Z))).
Implicit Types (s : Session) (reg : registry) (io : result unit string).

Definition Session_new : Session := mkSession 0 None ∅.

(** [post_start]: the proxy carries the index of the session. *)
Definition Session_post_start (index : Z) s : Session := mkSession (s_tag s) (Some index) (s_res_map s).

Definition Session_next_tag s : Z * Session :=
  (s_tag s, mkSession (wrap_u 64 (s_tag s + 1)) (s_proxy s) (s_res_map s)).

Definition with_res_map s (map : gmap Z (nat * Z)) : Session := mkSession (s_tag s) (s_proxy s) map.

(** [send_ipc_message]: [io] is the answer of the connection. *)
Definition Session_send_ipc_message (ipc_msg : IpcMessage) io : result unit SessionError * list SEvent :=
  match io with
  | Ok _ => (Ok tt, [SevFrame (pm_encode ipc_msg)])
  | Err e => (Err (SendOutboundMessageFailed e), [])
  end.

(** [tx.send(..)] and [tx.send_err(..)] of a response channel. *)
Definition send_answer (tx : nat) (r : result (list Z) SessionError) : bool * list SEvent :=
  if tx_closed tx then (false, [SevAnswerLost tx]) else (true, [SevAnswer tx r]).

(** [encode_context] and [decode_context]. *)
Definition Session_encode_context s : outcome Z :=
  expect (s_proxy s) "proxy is always available after session is started".
Definition Session_decode_context s : outcome Z :=
  expect (s_proxy s) "proxy is always available after session is started".

(** [cleanup_message_res_tx_map]. *)
Definition response_expired (now : Z) (p : nat * Z) : bool :=
  tx_closed p.1 || (RESPONSE_TIMEOUT <=? Z.max 0 (now - p.2))%Z.

Definition Session_cleanup (now : Z) s : Session * list SEvent :=
  let expired := filter (fun p => response_expired now p.2 = true) (iter_order (s_res_map s)) in
  (with_res_map s (filter (fun p => response_expired now p.2 = false) (s_res_map s)),
   expired ≫= (fun p => if tx_closed p.2.1 then [SevDropped p.2.1]
                        else (send_answer p.2.1 (Err ResponseTimeout)).2)).

Definition Session_find_mailbox (actor_id : Z) reg : result Recipient SessionError * registry :=
  let (r, reg) := Registry_get is_closed actor_id reg in
  (ok_or r (ActorNotFound (u64_display actor_id)), reg).

(** ** Outgoing messages *)

(** The part the three requests share: on success the sender is kept under the tag. *)
Definition Session_register_request (ipc_msg : IpcMessage) (tx : nat) (tag now : Z) io s
    : Session * list SEvent :=
  match Session_send_ipc_message ipc_msg io with
  | (Err e, evs) => (s, evs ++ (send_answer tx (Err e)).2)
  | (Ok _, evs) => (with_res_map s (<[tag := (tx, now)]> (s_res_map s)), evs)
  end.

(** [Handler<BinaryMessage>]. *)
Definition Session_handle_binary_message (msg : BinaryMessage) (now : Z) io s : Session * list SEvent :=
  match bm_result_tx msg with
  | Some tx =>
      let (tag, s) := Session_next_tag s in
      Session_register_request
        (IpcMessage_actor_message
           (ActorMessage_send (bm_actor_id msg) (bm_message_id msg) (bm_bytes msg) tag))
        tx tag now io s
  | None =>
      (s, (Session_send_ipc_message
             (IpcMessage_actor_message
                (ActorMessage_do_send (bm_actor_id msg) (bm_message_id msg) (bm_bytes msg))) io).2)
  end.

(** [Handler<RemoteCreateActor<A>>] up to the future it returns; [tx] is the channel of
    that future. [decode_context] panics on a session that was not started. *)
Definition Session_handle_remote_create_actor (type_id : Z) (label : string) (config : option string)
    (tx : nat) (now : Z) io s : outcome (Session * list SEvent) :=
  let (tag, s) := Session_next_tag s in
  let (s, evs) :=
    Session_register_request
      (IpcMessage_node_message
         (NodeMessage_create_actor type_id label (default "" config) tag)) tx tag now io s in
  let! _ := Session_decode_context s in Done (s, evs).

(** [Handler<RemoteGetActor<A>>]. *)
Definition Session_handle_remote_get_actor (actor : ActorRef) (tx : nat) (now : Z) io s
    : outcome (Session * list SEvent) :=
  let (tag, s) := Session_next_tag s in
  let ipc_msg := match actor with
    | ActorRefIndex actor_id =>
        IpcMessage_node_message (NodeMessage_get_actor_by_index (ActorId_as_local actor_id) tag)
    | ActorRefLabel label =>
        IpcMessage_node_message (NodeMessage_get_actor_by_label label tag)
    end in
  let (s, evs) := Session_register_request ipc_msg tx tag now io s in
  let! _ := Session_decode_context s in Done (s, evs).

(** The future both return: the answer of the peer as an address over this session. *)
Definition resolve_address (ctx : DecodeContext) (answer : result B (RecvError string))
    : result SenderRef SessionError :=
  let? bytes := result_map_err SessionRecvError answer in
  let? result := result_map_err (fun e => SessionDecodeError (DecodeOther e)) (pm_decode bytes) in
  match ra_result result with
  | Some (Ok actor_id) =>
      result_map_err SessionDecodeError (Address_new_with_decode_context actor_id ctx)
  | Some (Err e) => Err (RemoteNodeError e)
  | None => Err (SessionDecodeError (DecodeOther "missing field `result` in `ResultAddress`"))
  end.

(** [Handler<MessageResponse>]. *)
Definition Session_handle_message_response_msg (msg : MessageResponse) io : list SEvent :=
  (Session_send_ipc_message
     (IpcMessage_message_response (ProtoMessageResponse_new (mr_tag msg) (mr_result msg))) io).2.

(** ** Incoming frames *)

Definition address_result (r : result ActorId SessionError) : ResultAddress :=
  match r with
  | Ok actor_id => ResultAddress_ok (ActorId_as_local actor_id)
  | Err e => ResultAddress_err (report e)
  end.

(** [handle_node_message]; [by_label] is what the manager answers. *)
Definition Session_handle_node_message (message : NodeMessage)
    (by_label : string -> result Recipient SessionError) io reg
    : result unit SessionError * registry * list SEvent :=
  match nm_message message with
  | Some (NodeCreateActor type_id label config tag) =>
      (Ok tt, reg, [SevSpawn (TaskCreateActor type_id label config tag)])
  | Some (NodeGetActor actor tag) =>
      let (result, reg) := match actor with
        | Some (mkProtoActorRef (Some (RefIndex actor_id))) => Session_find_mailbox actor_id reg
        | Some (mkProtoActorRef (Some (RefLabel label))) => (by_label label, reg)
        | Some (mkProtoActorRef None) =>
            (Err (SessionDecodeError (DecodeOther "missing field `ref` in `ActorRef`")), reg)
        | None =>
            (Err (SessionDecodeError
                    (DecodeOther "missing field `actor` in `NodeMessage::GetActor`")), reg)
        end in
      let bytes := pm_encode (address_result (result_map rcp_index result)) in
      let (r, evs) := Session_send_ipc_message
        (IpcMessage_message_response (ProtoMessageResponse_new tag (Ok bytes))) io in
      (r, reg, evs)
  | None =>
      (Err (SessionDecodeError (DecodeOther "missing field `message` in `NodeMessage`")), reg, [])
  end.

(** [handle_actor_message]; [tx] names the response channel made for a message that
    expects an answer, [forward] is how the mailbox answers one that does not. *)
Definition Session_handle_actor_message (message : ActorMessage) (tx : nat)
    (forward : result unit string) s reg
    : outcome (result unit SessionError * registry * list SEvent) :=
  let '(mkActorMessage actor_id message_id bytes tag) := message in
  match tag with
  | Some tag =>
      let (recipient, reg) := Session_find_mailbox actor_id reg in
      let! encode_ctx := Session_encode_context s in
      let! decode_ctx := Session_decode_context s in
      let message :=
        BinaryMessage_with_decode_context
          (BinaryMessage_with_encode_context
             (BinaryMessage_send actor_id message_id bytes tx) encode_ctx) decode_ctx in
      Done (Ok tt, reg, [SevSpawn (TaskForward recipient message tag)])
  | None =>
      let (recipient, reg) := Session_find_mailbox actor_id reg in
      match recipient with
      | Err e => Done (Err e, reg, [])
      | Ok mailbox =>
          let! decode_ctx := Session_decode_context s in
          let message := BinaryMessage_with_decode_context
            (BinaryMessage_do_send actor_id message_id bytes) decode_ctx in
          match forward with
          | Ok _ => Done (Ok tt, reg, [SevDeliver mailbox message])
          | Err e => Done (Err (ForwardInboundMessageFailed e), reg, [])
          end
      end
  end.

(** [handle_message_response]. *)
Definition Session_handle_message_response (response : ProtoMessageResponse) s
    : result unit SessionError * Session * list SEvent :=
  let tag := pr_tag response in
  match s_res_map s !! tag with
  | None => (Err (InvalidMessageResTxTag tag), s, [])
  | Some (sender, _) =>
      let s := with_res_map s (delete tag (s_res_map s)) in
      let result := match pr_response response with
        | Some (Ok bytes) => Ok bytes
        | Some (Err err) => Err (RemoteNodeError err)
        | None =>
            Err (SessionDecodeError (DecodeOther "missing field `response` in `MessageResponse`"))
        end in
      let (sent, evs) := send_answer sender result in
      (if sent then Ok tt else Err ForwardMessageResFailed, s, evs)
  end.

(** [handle_ipc_message]. *)
Definition Session_handle_ipc_message (message : B)
    (by_label : string -> result Recipient SessionError) (tx : nat) (forward : result unit string)
    io s reg : outcome (result unit SessionError * Session * registry * list SEvent) :=
  match pm_decode message with
  | Err e => Done (Err (SessionDecodeError (DecodeOther e)), s, reg, [])
  | Ok ipc_message =>
      match im_message ipc_message with
      | Some (IpcNodeMessage message) =>
          let '(r, reg, evs) := Session_handle_node_message message by_label io reg in
          Done (r, s, reg, evs)
      | Some (IpcActorMessage message) =>
          let! (r, reg, evs) := Session_handle_actor_message message tx forward s reg in
          Done (r, s, reg, evs)
      | Some (IpcMessageResponse response) =>
          let '(r, s, evs) := Session_handle_message_response response s in
          Done (r, s, reg, evs)
      | None =>
          Done (Err (SessionDecodeError (DecodeOther "missing field `message` in `IpcMessage`")),
                s, reg, [])
      end
  end.

(** ** Spawned tasks *)

(** What a task sends back: [created] is the answer of the manager, [sent] of the mailbox
    and [received] of the response channel. *)
Definition STask_response (t : STask) (created : result ActorId SessionError)
    (sent : result unit string) (received : result (list Z) string) : MessageResponse :=
  match t with
  | TaskCreateActor _ _ _ tag => mkMessageResponse tag (Ok (pm_encode (address_result created)))
  | TaskForward recipient _ tag =>
      let result :=
        let? _ := recipient in
        let? _ := result_map_err ForwardInboundMessageFailed sent in
        result_map_err HandleInboundMessageFailed received in
      mkMessageResponse tag (result_map_err report result)
  end.

Definition STask_tag (t : STask) : Z :=
  match t with TaskCreateActor _ _ _ tag | TaskForward _ _ tag => tag end.
(** ** The loop (session/context.rs) *)

Implicit Types (c : SessionContext).

Definition SessionContext_with_capacity (label : string) (index : Z) : SessionContext :=
  mkSessionContext label Unstarted (ActorId_new index) true None true 0.

Definition SessionContext_set_state (state : ActorState) c : SessionContext :=
  mkSessionContext (sc_label c) state (sc_doorplate c) (sc_mailbox c) (sc_supervisor c)
    (sc_require_cleanup c) (sc_timers c).

Definition SessionContext_take_mailbox c : bool * SessionContext :=
  (sc_mailbox c, mkSessionContext (sc_label c) (sc_state c) (sc_doorplate c) false
                   (sc_supervisor c) (sc_require_cleanup c) (sc_timers c)).

Definition SessionContext_require_cleanup c : SessionContext :=
  mkSessionContext (sc_label c) (sc_state c) (sc_doorplate c) (sc_mailbox c) (sc_supervisor c)
    true (sc_timers c).

Definition SessionContext_set_supervisor (supervisor : option Recipient) c : SessionContext :=
  match supervisor with
  | Some r =>
      if bool_decide (rcp_index r = sc_doorplate c) then c
      else mkSessionContext (sc_label c) (sc_state c) (sc_doorplate c) (sc_mailbox c) (Some r)
             (sc_require_cleanup c) (sc_timers c)
  | None =>
      mkSessionContext (sc_label c) (sc_state c) (sc_doorplate c) (sc_mailbox c) None
        (sc_require_cleanup c) (sc_timers c)
  end.

(** [tokio::spawn] of the timer that will send [RequireCleanup], and its message consumed. *)
Definition spawn_cleanup_timer c : SessionContext :=
  mkSessionContext (sc_label c) (sc_state c) (sc_doorplate c) (sc_mailbox c) (sc_supervisor c)
    false (S (sc_timers c)).

Definition consume_cleanup_timer c : SessionContext :=
  mkSessionContext (sc_label c) (sc_state c) (sc_doorplate c) (sc_mailbox c) (sc_supervisor c)
    (sc_require_cleanup c) (pred (sc_timers c)).

(** [ctx.stop()], [ctx.terminate()] and [set_supervisor], which every actor obeys. *)
Definition SessionContext_signal (m : Signal) c : SessionContext :=
  match m with
  | SignalStop => SessionContext_set_state Stopping c
  | SignalTerminate => SessionContext_set_state Stopped c
  end.

Definition SessionContext_supervise (m : Supervisor) c : SessionContext :=
  SessionContext_set_supervisor (match m with SupervisorSet r => Some r | SupervisorUnset => None end) c.

(** [Handler<RequireCleanup>]. The message is private to the context, and only its timers
    send it. *)
Definition SessionContext_handle_require_cleanup c : SessionContext :=
  if bool_decide (sc_timers c = 0) then c
  else SessionContext_require_cleanup (consume_cleanup_timer c).

(** [envelope.handle(actor, self)]: the handler of each message a session gets. [tx] is the
    channel that the request for an address creates, [now] the time at which a request is
    registered, [io] the answer of the connection. *)
Definition Session_dispatch (m : Msg SessionMsg) (tx : nat) (now : Z) io s c
    : outcome (Session * SessionContext * list SEvent) :=
  match m with
  | MsgUser (SmBinary m) =>
      let (s, evs) := Session_handle_binary_message m now io s in Done (s, c, evs)
  | MsgUser (SmResponse m) => Done (s, c, Session_handle_message_response_msg m io)
  | MsgUser SmRequireCleanup => Done (s, SessionContext_handle_require_cleanup c, [])
  | MsgUser (SmCreateActor type_id label config) =>
      let! (s, evs) := Session_handle_remote_create_actor type_id label config tx now io s in
      Done (s, c, evs)
  | MsgUser (SmGetActor actor) =>
      let! (s, evs) := Session_handle_remote_get_actor actor tx now io s in Done (s, c, evs)
  | MsgSignal m => Done (s, SessionContext_signal m c, [])
  | MsgSupervisor m => Done (s, SessionContext_supervise m c, [])
  end.

(** What a turn of the loop wakes up for: an envelope, which is skipped when its requester
    is gone, the end of the mailbox, a frame, with what the outside answers while it is
    handled, or an error of the connection. *)
Inductive SessionInput : Type :=
| InEnvelope (m : Msg SessionMsg) (tx : nat) (now : Z) (io : result unit string)
| InSkipped
| InMailboxDropped
| InFrame (frame : B) (by_label : string -> result Recipient SessionError) (tx : nat)
    (forward io : result unit string)
| InIoError (connection_gone : bool) (e : string).

Definition SWorld : Type := Session * SessionContext * registry * list SEvent.

(** A due cleanup runs at the start of an iteration, and the next one is scheduled. *)
Definition SessionContext_cleanup_if_due (now : Z) (w : SWorld) : SWorld :=
  let '(s, c, reg, evs) := w in
  if sc_require_cleanup c then
    let (s, evs') := Session_cleanup now s in (s, spawn_cleanup_timer c, reg, evs ++ evs')
  else w.

(** The branch of [select!] that completes. *)
Definition SessionContext_wake (i : SessionInput) (w : SWorld)
    : outcome (option (result unit SessionError) * SWorld) :=
  let '(s, c, reg, evs) := w in
  match i with
  | InEnvelope m tx now io =>
      let! (s, c, evs') := Session_dispatch m tx now io s c in
      Done (None, (s, c, reg, evs ++ evs'))
  | InSkipped => Done (None, w)
  | InMailboxDropped => Done (None, (s, SessionContext_set_state Stopped c, reg, evs))
  | InFrame frame by_label tx forward io =>
      let! (r, s, reg, evs') :=
        Session_handle_ipc_message frame by_label tx forward io s reg in
      Done (None, (s, c, reg, evs ++ evs'))
  | InIoError connection_gone e =>
      Done (if connection_gone then None else Some (Err (SessionIoError e)),
            (s, SessionContext_set_state Stopped c, reg, evs))
  end.

(** [run_loop] from the time [now] on: [LoopWaiting] is [None]. Each input comes with the
    time at which its handling is over and the next iteration starts. *)
Fixpoint SessionContext_run_loop (inputs : list (SessionInput * Z)) (now : Z) (w : SWorld)
    : outcome (option (result unit SessionError) * SWorld) :=
  if bool_decide (sc_state w.1.1.2 = Running) then
    let w := SessionContext_cleanup_if_due now w in
    match inputs with
    | [] => Done (None, w)
    | (i, later) :: inputs =>
        let! (r, w) := SessionContext_wake i w in
        match r with
        | Some r => Done (Some r, w)
        | None => SessionContext_run_loop inputs later w
        end
    end
  else Done (Some (Ok tt), w).
End Session.

(** ** The proxy (session/proxy.rs) *)

Section Proxy.

(** [EncodeContext::register] of [Proxy]: never fails. *)
Definition Proxy_register : EncodeContext registry := fun actor reg =>
  (Ok tt, (Registry_insert actor reg).2).

(** [RemoteProxy::index]: the node started at least one actor before, so an index is not
    zero. *)
Definition Proxy_index (session : ActorId) : outcome Z :=
  if (ActorId_as_local session =? 0)%Z then
    Panicked "session index is always non-zero since it can only be created by a node"
  else Done (ActorId_as_local session).

(** [DecodeContext::remote_proxy]: [None] once the last strong reference is gone. *)
Definition Proxy_decode_context (session : Z) (alive : bool) : DecodeContext :=
  mkDecodeContext (if alive then Some session else None).
End Proxy.
