(* ===== verification/SessionNet.v ===== *)
(** * Two sessions and the link between them

    Each of the two peers sends requests and serves those of the other; the frames of each
    direction arrive in the order they were sent. The steps are the handlers of Session.v;
    what the actors and the manager of each process, the connections and the clock do is
    left open. The system is the setting of the theorems of SessionTheorems.v. *)

From S2P Require Import Prelude Tokio ActorTypes UserCode WireLibs Codec Registry IpcMessages.
From S2P Require Import Session ErrorReport.

(** What a session is asked for. *)
Inductive Request : Type :=
| ReqActor (actor_id message_id : Z) (bytes : list Z)
| ReqCreate (type_id : Z) (label config : string)
| ReqGet (actor : ActorRef).

(** The frame a request travels in. *)
Definition req_frame (req : Request) (tag : Z) : IpcMessage :=
  match req with
  | ReqActor actor_id message_id bytes =>
      IpcMessage_actor_message (ActorMessage_send actor_id message_id bytes tag)
  | ReqCreate type_id label config =>
      IpcMessage_node_message (NodeMessage_create_actor type_id label config tag)
  | ReqGet (ActorRefIndex id) =>
      IpcMessage_node_message (NodeMessage_get_actor_by_index (ActorId_as_local id) tag)
  | ReqGet (ActorRefLabel label) =>
      IpcMessage_node_message (NodeMessage_get_actor_by_label label tag)
  end.

Definition response_frame (m : MessageResponse) : IpcMessage :=
  IpcMessage_message_response (ProtoMessageResponse_new (mr_tag m) (mr_result m)).

Definition ev_frames (evs : list SEvent) : list (list Z) :=
  omap (fun e => match e with SevFrame f => Some f | _ => None end) evs.

Definition ev_tasks (evs : list SEvent) : list STask :=
  omap (fun e => match e with SevSpawn t => Some t | _ => None end) evs.

(** The response channels a session is done with. *)
Definition ev_done (evs : list SEvent) : list nat :=
  omap (fun e => match e with
                 | SevAnswer tx _ | SevAnswerLost tx | SevDropped tx => Some tx
                 | _ => None
                 end) evs.

(** One end: its session, the frames it sent that have not arrived, the tasks it spawned and
    the responses waiting in its mailbox, the requests it made so far in order, and its
    events. *)
Record Peer : Type := mkPeer {
  p_session : Session;
  p_out : list (list Z);
  p_tasks : list STask;
  p_mail : list MessageResponse;
  p_asked : list (nat * Request);
  p_events : list SEvent;
}.

Record Net : Type := mkNet { n_a : Peer; n_b : Peer }.

Definition with_out (p : Peer) (out : list (list Z)) : Peer :=
  mkPeer (p_session p) out (p_tasks p) (p_mail p) (p_asked p) (p_events p).

Definition pending_txs (s : Session) : list nat := (map_to_list (s_res_map s)).*2.*1.

(** The process around a session: the responses of its actors to a binary message, the
    states of its registry, what its manager answers, and how it creates actors. *)
Record PeerEnv : Type := mkPeerEnv {
  pe_responds : BinaryMessage -> result (list Z) string -> Prop;
  pe_registry : registry -> Prop;
  pe_labelled : string -> result Recipient SessionError -> Prop;
  pe_creates : Z -> string -> string -> result ActorId SessionError -> Prop;
}.

(** What reaches the peer of the frames a handler tries to send, when the connection
    answers [io]: a send that fails may have handed the frame over before. *)
Definition on_wire {E} (attempts : list (list Z)) (io : result unit E) (wire : list (list Z)) : Prop :=
  match io with
  | Ok _ => wire = attempts
  | Err _ => wire = [] \/ wire = attempts
  end.

Section Net.
Context {B : Type} `{BytesCrate B} `{!ProstMessage B IpcMessage} `{!ProstMessage B ResultAddress}.
Implicit Types (env : PeerEnv) (p : Peer).

(** The asking side of a request. *)
Definition net_ask (req : Request) (tx : nat) (now : Z) (tx_closed : nat -> bool)
    (io : result unit string) (s : Session) : Session * list SEvent :=
  let (tag, s) := Session_next_tag s in
  Session_register_request (B := B) tx_closed (req_frame req tag) tx tag now io s.

(** The request a command in the mailbox of a session makes. *)
Definition msg_request (m : SessionMsg) : option Request :=
  match m with
  | SmBinary bm =>
      _ ← bm_result_tx bm; Some (ReqActor (bm_actor_id bm) (bm_message_id bm) (bm_bytes bm))
  | SmCreateActor type_id label config => Some (ReqCreate type_id label (default "" config))
  | SmGetActor actor => Some (ReqGet actor)
  | SmResponse _ | SmRequireCleanup => None
  end.

(** What the receiver of a response channel gets. *)
Definition raw_received (r : result (list Z) SessionError) : result B (RecvError string) :=
  match r with
  | Ok l => Ok (bytes_freeze l)
  | Err e => Err (RecvOther (report e))
  end.

(** The environment of a task. *)
Definition task_env env (t : STask) (created : result ActorId SessionError)
    (received : result (list Z) string) : Prop :=
  match t with
  | TaskCreateActor type_id label config _ => pe_creates env type_id label config created
  | TaskForward _ message _ => pe_responds env message received
  end.

Definition task_for (req : Request) (t : STask) : Prop :=
  match req, t with
  | ReqActor a m b, TaskForward _ bm _ =>
      bm_actor_id bm = a /\ bm_message_id bm = m /\ bm_bytes bm = b
  | ReqCreate ty l c, TaskCreateActor ty' l' c' _ => ty' = ty /\ l' = l /\ c' = c
  | _, _ => False
  end.

(** The addresses a process may answer a request for an address with: the one its manager
    gives the actor it creates, or the one its registry or its manager knows. *)
Definition address_of env (req : Request) (x : result ActorId SessionError) : Prop :=
  match req with
  | ReqActor _ _ _ => False
  | ReqCreate type_id label config => pe_creates env type_id label config x
  | ReqGet (ActorRefIndex id) => exists is_closed reg, pe_registry env reg /\
      x = result_map rcp_index (Session_find_mailbox is_closed (ActorId_as_local id) reg).1
  | ReqGet (ActorRefLabel label) => exists r, pe_labelled env label r /\ x = result_map rcp_index r
  end.

(** The results a process may compute for a request: what a task for it sends back, or
    such an address. *)
Definition served env (req : Request) (res : result (list Z) string) : Prop :=
  (exists t created sent received, task_for req t /\ task_env env t created received /\
     res = mr_result (STask_response t created sent received)) \/
  (exists x, res = Ok (pm_encode (address_result x)) /\ address_of env req x).

(** What a peer does, but for the frames: [inp] is the frame that arrived, if it handles
    one, [attempts] those its handler tries to send, and [io] the answer of the connection
    to them. *)
Inductive peer_act env : Peer -> option (list Z) -> list (list Z) -> result unit string -> Peer -> Prop :=
| pa_ask req tx now tx_closed io s out tasks mail asked evs s' evs' :
    tx ∉ asked.*1 ->
    (Z.of_nat (length asked) < 2 ^ 64)%Z ->
    pm_valid (req_frame req (s_tag s)) ->
    net_ask req tx now tx_closed io s = (s', evs') ->
    peer_act env (mkPeer s out tasks mail asked evs) None [pm_encode (req_frame req (s_tag s))] io
      (mkPeer s' out tasks mail (asked ++ [(tx, req)]) (evs ++ evs'))
| pa_notify actor_id message_id bytes io p :
    let m := IpcMessage_actor_message (ActorMessage_do_send actor_id message_id bytes) in
    pm_valid m ->
    peer_act env p None [pm_encode m] io p
| pa_frame f is_closed tx_closed by_label tx forward io reg s out tasks mail asked evs
    r0 s0 reg0 evs0 r s' reg' evs' :
    pe_registry env reg ->
    (forall l, pe_labelled env l (by_label l)) ->
    Session_handle_ipc_message tx_closed is_closed (bytes_freeze f)
      by_label tx forward (Ok tt) s reg = Done (r0, s0, reg0, evs0) ->
    (forall m : IpcMessage, SevFrame (pm_encode m) ∈ evs0 -> pm_valid m) ->
    Session_handle_ipc_message tx_closed is_closed (bytes_freeze f)
      by_label tx forward io s reg = Done (r, s', reg', evs') ->
    peer_act env (mkPeer s out tasks mail asked evs) (Some f) (ev_frames evs0) io
      (mkPeer s' out (tasks ++ ev_tasks evs') mail asked (evs ++ evs'))
| pa_task t created sent received s out tasks1 tasks2 mail asked evs :
    task_env env t created received ->
    peer_act env (mkPeer s out (tasks1 ++ t :: tasks2) mail asked evs) None [] (Ok tt)
      (mkPeer s out (tasks1 ++ tasks2) (mail ++ [STask_response t created sent received])
         asked evs)
| pa_respond m io s out tasks mail asked evs :
    pm_valid (response_frame m) ->
    peer_act env (mkPeer s out tasks (m :: mail) asked evs) None
      (ev_frames (Session_handle_message_response_msg m (Ok tt))) io
      (mkPeer s out tasks mail asked evs)
| pa_cleanup now tx_closed iter_order s out tasks mail asked evs s' evs' :
    (forall m, iter_order m ≡ₚ map_to_list m) ->
    Session_cleanup tx_closed iter_order now s = (s', evs') ->
    peer_act env (mkPeer s out tasks mail asked evs) None [] (Ok tt)
      (mkPeer s' out tasks mail asked (evs ++ evs')).

(** A step of a peer, with the frames on their way to it before and after. *)
Inductive peer_step env : Peer -> list (list Z) -> Peer -> list (list Z) -> Prop :=
| ps_act p inp attempts io wire p' inc :
    peer_act env p inp attempts io p' ->
    on_wire attempts io wire ->
    peer_step env p (option_list inp ++ inc) (with_out p' (p_out p ++ wire)) inc.

(** Either peer makes a step; [env_a] and [env_b] are the two processes. *)
Inductive net_step (env_a env_b : PeerEnv) : Net -> Net -> Prop :=
| ns_a a b a' inc :
    peer_step env_a a (p_out b) a' inc -> net_step env_a env_b (mkNet a b) (mkNet a' (with_out b inc))
| ns_b a b b' inc :
    peer_step env_b b (p_out a) b' inc -> net_step env_a env_b (mkNet a b) (mkNet (with_out a inc) b').

Definition peer_start (index : Z) : Peer :=
  mkPeer (Session_post_start index Session_new) [] [] [] [] [].

Definition net_start (client server : Z) : Net := mkNet (peer_start client) (peer_start server).
End Net.
