(* ===== verification/SessionTheorems.v ===== *)
(** * Requests over a session find their answers

    Theorems about Session.v and SessionNet.v: an answer is the answer to the request it
    is given to, every request is resolved exactly once or still pending, and the
    invariant of a session and of the frames around it from which both follow. The
    invariant is of one peer, whatever stands at the other end of the link. *)

From S2P Require Import Prelude Tokio ActorTypes UserCode WireLibs Codec Registry IpcMessages.
From S2P Require Import Session ErrorReport SessionNet.

Section NetFacts.
Context {B : Type} `{BytesCrate B} `{!ProstMessage B IpcMessage} `{!ProstMessage B ResultAddress}.
#[local] Set Default Proof Using "Type*".

Implicit Types (n : Net) (env : PeerEnv) (req : Request) (tag : Z).
Implicit Types (asked mine theirs : list (nat * Request)).

(** The request a tag was given to. *)
Definition asked_as asked tag (tx : nat) req : Prop :=
  (0 <= tag)%Z /\ asked !! Z.to_nat tag = Some (tx, req).

(** What an answer on a response channel says about the request. *)
Definition answers env req (r : result (list Z) SessionError) : Prop :=
  match r with
  | Ok bytes => served env req (Ok bytes)
  | Err (RemoteNodeError e) => served env req (Err e)
  | Err _ => True
  end.

(** A frame with a request of [asked], or with a message that expects no answer. *)
Definition request_frame_ok asked (f : list Z) : Prop :=
  (exists tag tx req, asked_as asked tag tx req /\ pm_valid (req_frame req tag) /\
     f = pm_encode (req_frame req tag)) \/
  (exists a m b, let msg := IpcMessage_actor_message (ActorMessage_do_send a m b) in
     pm_valid msg /\ f = pm_encode msg).

(** A response of the process [env] to a request of [asked], and a frame with one. *)
Definition response_ok env asked (m : MessageResponse) : Prop :=
  exists tx req, asked_as asked (mr_tag m) tx req /\ served env req (mr_result m).

Definition response_frame_ok env asked (f : list Z) : Prop :=
  exists m, response_ok env asked m /\ pm_valid (response_frame m) /\ f = pm_encode (response_frame m).

(** A frame of a peer that made the requests [mine] and is asked [theirs]. *)
Definition frame_ok env mine theirs (f : list Z) : Prop :=
  request_frame_ok mine f \/ response_frame_ok env theirs f.

Definition task_ok asked (t : STask) : Prop :=
  exists tx req, asked_as asked (STask_tag t) tx req /\ task_for req t.

Definition event_ok env asked (e : SEvent) : Prop :=
  match e with SevAnswer tx r => exists req, (tx, req) ∈ asked /\ answers env req r | _ => True end.

Definition map_ok asked (m : gmap Z (nat * Z)) : Prop :=
  forall tag tx ts, m !! tag = Some (tx, ts) -> exists req, asked_as asked tag tx req.

(** The peer of the process [env], asked [theirs] by the process [env']. *)
Record peer_inv env env' theirs p : Prop := MkPeerInv {
  pi_tag : s_tag (p_session p) = wrap_u 64 (Z.of_nat (length (p_asked p)));
  pi_map : map_ok (p_asked p) (s_res_map (p_session p));
  pi_out : Forall (frame_ok env (p_asked p) theirs) (p_out p);
  pi_tasks : Forall (task_ok theirs) (p_tasks p);
  pi_mail : Forall (response_ok env theirs) (p_mail p);
  pi_events : Forall (event_ok env' (p_asked p)) (p_events p);
  pi_once : pending_txs (p_session p) ++ ev_done (p_events p) ≡ₚ (p_asked p).*1;
  pi_nodup : NoDup (p_asked p).*1;
}.

(** Bytes served for a message to an actor are a response of that actor. *)
Lemma served_actor env actor_id message_id message bytes :
  served env (ReqActor actor_id message_id message) (Ok bytes) ->
  exists bm, bm_actor_id bm = actor_id /\ bm_message_id bm = message_id /\ bm_bytes bm = message /\
    pe_responds env bm (Ok bytes).
Proof.
  intros [(t & created & sent & received & Hfor & Henv & Hres)|(x & _ & [])].
  destruct t as [|recipient bm tag]; [done|]. destruct Hfor as (? & ? & ?). exists bm.
  simpl in Hres, Henv. destruct recipient, sent, received; simplify_eq/=. done.
Qed.

(** ** Growing the requests *)

Lemma asked_as_grow asked asked' tag tx req :
  asked `prefix_of` asked' -> asked_as asked tag tx req -> asked_as asked' tag tx req.
Proof. intros [l ->] [? Hl]. split; [done|]. by apply lookup_app_l_Some. Qed.

Lemma asked_as_new asked tx req :
  asked_as (asked ++ [(tx, req)]) (Z.of_nat (length asked)) tx req.
Proof. split; [lia|]. rewrite Nat2Z.id, lookup_app_r, Nat.sub_diag by done. done. Qed.

(** A response channel belongs to one request. *)
Lemma asked_once (asked : list (nat * Request)) tx req req' :
  NoDup asked.*1 -> (tx, req) ∈ asked -> (tx, req') ∈ asked -> req = req'.
Proof.
  intros Hnd [i Hi]%list_elem_of_lookup [j Hj]%list_elem_of_lookup.
  assert (i = j) as ->; [|by rewrite Hi in Hj; simplify_eq].
  eapply NoDup_lookup; [exact Hnd| |]; rewrite list_lookup_fmap, ?Hi, ?Hj; done.
Qed.

Lemma asked_as_elem asked tag tx req : asked_as asked tag tx req -> (tx, req) ∈ asked.
Proof. intros [_ ?]. by eapply list_elem_of_lookup_2. Qed.

Lemma response_ok_grow env asked asked' m :
  asked `prefix_of` asked' -> response_ok env asked m -> response_ok env asked' m.
Proof. intros Hp (?&?&?&?). unfold response_ok. eauto using asked_as_grow. Qed.

Lemma task_ok_grow asked asked' t : asked `prefix_of` asked' -> task_ok asked t -> task_ok asked' t.
Proof. intros Hp (?&?&?&?). unfold task_ok. eauto using asked_as_grow. Qed.

Lemma frame_ok_grow env mine mine' theirs theirs' f :
  mine `prefix_of` mine' -> theirs `prefix_of` theirs' ->
  frame_ok env mine theirs f -> frame_ok env mine' theirs' f.
Proof.
  intros Hm Ht [[(?&?&?&?&?&?)|?]|(m&?&?&?)]; [left; left|left; by right|right; exists m];
    eauto 10 using asked_as_grow, response_ok_grow.
Qed.

Lemma event_ok_grow env asked asked' e :
  asked `prefix_of` asked' -> event_ok env asked e -> event_ok env asked' e.
Proof.
  intros [l ->]. destruct e as [ |tx r| | | |]; try done. intros (req & ? & ?). exists req.
  split; [|done]. apply elem_of_app. by left.
Qed.

Lemma map_ok_grow asked asked' m : asked `prefix_of` asked' -> map_ok asked m -> map_ok asked' m.
Proof. intros Hp Hm tag tx ts Hl. destruct (Hm _ _ _ Hl) as [req ?]. eauto using asked_as_grow. Qed.

(** The other end asks more, and takes frames off the link. *)
Lemma peer_inv_other env env' theirs theirs' out p :
  theirs `prefix_of` theirs' -> Forall (frame_ok env (p_asked p) theirs') out ->
  peer_inv env env' theirs p -> peer_inv env env' theirs' (with_out p out).
Proof.
  intros Hp Ho []. constructor; simpl; try done.
  - eapply Forall_impl; [done|]. eauto using task_ok_grow.
  - eapply Forall_impl; [done|]. eauto using response_ok_grow.
Qed.

Lemma peer_inv_grow env env' theirs theirs' p :
  theirs `prefix_of` theirs' -> peer_inv env env' theirs p -> peer_inv env env' theirs' p.
Proof.
  intros Hp Hinv. destruct p as [s out tasks mail asked evs].
  apply (peer_inv_other env env' theirs theirs' out (mkPeer s out tasks mail asked evs)); [done| |done].
  eapply Forall_impl; [apply Hinv|]. intros f. by apply frame_ok_grow.
Qed.

Lemma on_wire_forall {E} (P : list Z -> Prop) attempts (io : result unit E) wire :
  Forall P attempts -> on_wire attempts io wire -> Forall P wire.
Proof. intros HP. destruct io; [by intros ->|by intros [->| ->]]. Qed.

(** ** Pending responses *)

Lemma pending_insert (m : gmap Z (nat * Z)) tag tx ts :
  m !! tag = None -> (map_to_list (<[tag := (tx, ts)]> m)).*2.*1 ≡ₚ tx :: (map_to_list m).*2.*1.
Proof. intros Hm. by rewrite map_to_list_insert. Qed.

Lemma pending_delete (m : gmap Z (nat * Z)) tag tx ts :
  m !! tag = Some (tx, ts) -> (map_to_list m).*2.*1 ≡ₚ tx :: (map_to_list (delete tag m)).*2.*1.
Proof. intros Hm. by rewrite <- (map_to_list_delete m tag (tx, ts) Hm). Qed.

Lemma map_to_list_filter_perm (P : Z * (nat * Z) -> Prop) `{forall x, Decision (P x)} (m : gmap Z (nat * Z)) :
  map_to_list (filter P m) ≡ₚ filter P (map_to_list m).
Proof.
  rewrite map_filter_alt. apply map_to_list_to_map.
  eapply sublist_NoDup; [apply (NoDup_fst_map_to_list m)|].
  apply fmap_sublist, sublist_filter.
Qed.

Lemma pending_split (b : nat * Z -> bool) (m : gmap Z (nat * Z)) order :
  order ≡ₚ map_to_list m ->
  (map_to_list m).*2.*1 ≡ₚ
    (map_to_list (filter (fun p => b p.2 = false) m)).*2.*1 ++
    (filter (fun p => b p.2 = true) order).*2.*1.
Proof.
  intros Ho. rewrite map_to_list_filter_perm, Ho. clear Ho.
  induction (map_to_list m) as [|p l IH]; [done|]. cbn [fmap list_fmap].
  destruct (b p.2) eqn:E.
  - rewrite (filter_cons_False (fun p => b p.2 = false)), (filter_cons_True (fun p => b p.2 = true))
      by (simpl; congruence).
    cbn [fmap list_fmap]. rewrite <- Permutation_middle. by rewrite IH.
  - rewrite (filter_cons_True (fun p => b p.2 = false)), (filter_cons_False (fun p => b p.2 = true))
      by (simpl; congruence).
    cbn [fmap list_fmap app]. by rewrite IH.
Qed.

(** ** Handlers *)

Lemma ev_done_app evs evs' : ev_done (evs ++ evs') = ev_done evs ++ ev_done evs'.
Proof. apply omap_app. Qed.

Lemma send_answer_done tx_closed tx r : ev_done (send_answer tx_closed tx r).2 = [tx].
Proof. unfold send_answer. by destruct (tx_closed tx). Qed.

Lemma send_answer_ok env tx_closed tx r asked :
  (exists req, (tx, req) ∈ asked /\ answers env req r) ->
  Forall (event_ok env asked) (send_answer tx_closed tx r).2.
Proof. intros Hr. unfold send_answer. destruct (tx_closed tx); repeat constructor; auto. Qed.

(** A request: the tag is the number of requests made before it. *)
Lemma net_ask_spec req tx now tx_closed io s s' evs :
  net_ask req tx now tx_closed io s = (s', evs) ->
  s_tag s' = wrap_u 64 (s_tag s + 1) /\
  ((io = Ok tt /\ evs = [SevFrame (pm_encode (req_frame req (s_tag s)))] /\
    s_res_map s' = <[s_tag s := (tx, now)]> (s_res_map s)) \/
   (exists e, io = Err e /\ evs = (send_answer tx_closed tx (Err (SendOutboundMessageFailed e))).2 /\
    s_res_map s' = s_res_map s)).
Proof.
  unfold net_ask, Session_next_tag, Session_register_request, Session_send_ipc_message.
  intros He. destruct io as [[]|e]; simplify_eq/=; eauto 10.
Qed.

Lemma decode_frozen (m : IpcMessage) :
  pm_valid m -> pm_decode (bytes_freeze (pm_encode m) : B) = Ok m.
Proof. intros Hv. by apply pm_decode_law; [|apply bytes_freeze_law]. Qed.

(** What a request of the other end makes a peer do. *)
Lemma serve_frame_ok env env' mine theirs f is_closed tx_closed by_label tx forward io reg s r s' reg' evs :
  request_frame_ok theirs f ->
  pe_registry env reg ->
  (forall l, pe_labelled env l (by_label l)) ->
  Session_handle_ipc_message tx_closed is_closed (bytes_freeze f : B)
    by_label tx forward io s reg = Done (r, s', reg', evs) ->
  s' = s /\ ev_done evs = [] /\ Forall (event_ok env' mine) evs /\ Forall (task_ok theirs) (ev_tasks evs) /\
  ((forall m : IpcMessage, SevFrame (pm_encode m) ∈ evs -> pm_valid m) ->
   Forall (response_frame_ok env theirs) (ev_frames evs)).
Proof.
  intros Hf Hreg Hlab He. unfold Session_handle_ipc_message, Session_handle_node_message in He.
  destruct Hf as [(tag & otx & req & Has & Hv & ->)|(a & m & b & Hv & ->)];
    rewrite (decode_frozen _ Hv) in He; simpl in He.
  - destruct req as [a m b|ty l c|[id|l]]; simpl in He.
    + destruct (Session_find_mailbox is_closed a reg) as [rc reg1].
      destruct (Session_encode_context s) as [x|]; simplify_eq/=.
      destruct (Session_decode_context s) as [y|]; simplify_eq/=.
      split_and!; try done; repeat constructor. exists otx, (ReqActor a m b). done.
    + simplify_eq/=. split_and!; try done; repeat constructor. exists otx, (ReqCreate ty l c). done.
    + destruct (Session_find_mailbox is_closed (ActorId_as_local id) reg) as [x reg1] eqn:Ex.
      unfold Session_send_ipc_message in He. destruct io as [u|e]; simplify_eq/=;
        (split_and!; [done|done|by repeat constructor|done|]); [|by constructor].
      intros Hval. constructor; [|done].
      exists (mkMessageResponse tag (Ok (pm_encode (address_result (result_map rcp_index x))))).
      split_and!; [|apply Hval; set_solver|done].
      exists otx, (ReqGet (ActorRefIndex id)). split; [done|]. right.
      exists (result_map rcp_index x). split; [done|]. exists is_closed, reg. by rewrite Ex.
    + unfold Session_send_ipc_message in He. destruct io as [u|e]; simplify_eq/=;
        (split_and!; [done|done|by repeat constructor|done|]); [|by constructor].
      intros Hval. constructor; [|done].
      exists (mkMessageResponse tag
                (Ok (pm_encode (address_result (result_map rcp_index (by_label l)))))).
      split_and!; [|apply Hval; set_solver|done].
      exists otx, (ReqGet (ActorRefLabel l)). split; [done|]. right.
      exists (result_map rcp_index (by_label l)). split; [done|]. by exists (by_label l).
  - destruct (Session_find_mailbox is_closed a reg) as [[rc|e] reg1]; simplify_eq/=;
      [|split_and!; by repeat constructor].
    destruct (Session_decode_context s) as [y|]; simplify_eq/=.
    destruct forward; simplify_eq/=; split_and!; by repeat constructor.
Qed.

(** What receiving a response does. *)
Lemma receive_frame_spec env' asked f is_closed tx_closed by_label tx forward io reg s r s' reg' evs :
  response_frame_ok env' asked f -> map_ok asked (s_res_map s) ->
  Session_handle_ipc_message tx_closed is_closed (bytes_freeze f : B)
    by_label tx forward io s reg = Done (r, s', reg', evs) ->
  s_tag s' = s_tag s /\ Forall (event_ok env' asked) evs /\ ev_tasks evs = [] /\ ev_frames evs = [] /\
  ((s_res_map s' = s_res_map s /\ ev_done evs = []) \/
   (exists tag otx ts, s_res_map s !! tag = Some (otx, ts) /\
      s_res_map s' = delete tag (s_res_map s) /\ ev_done evs = [otx])).
Proof.
  intros ([tag res] & (otx & req & Has & Hsv) & Hv & ->) Hm He.
  unfold Session_handle_ipc_message in He. rewrite (decode_frozen _ Hv) in He. simpl in *.
  unfold Session_handle_message_response in He. simpl in He.
  destruct (s_res_map s !! tag) as [[tx' ts]|] eqn:El; [|simplify_eq/=; split_and!; eauto].
  destruct (Hm _ _ _ El) as (req' & Has'). assert (tx' = otx /\ req' = req) as [-> ->].
  { destruct Has as [_ Ha], Has' as [_ Ha']. rewrite Ha in Ha'. by simplify_eq. }
  assert (Hok : exists req', (otx, req') ∈ asked /\ answers env' req'
     match match res with Ok b => Some (Ok b) | Err e => Some (Err e) end with
     | Some (Ok b) => Ok b | Some (Err e) => Err (RemoteNodeError e) | None => Err ResponseTimeout end).
  { exists req. split; [by eapply asked_as_elem|]. by destruct res. }
  revert He. unfold send_answer. destruct (tx_closed otx), res; intros; simplify_eq/=;
    (split_and!; [done|by repeat constructor|done|done|right; eauto 10]).
Qed.

Lemma cleanup_spec env' asked now tx_closed iter_order s s' evs :
  (forall m, iter_order m ≡ₚ map_to_list m) -> map_ok asked (s_res_map s) ->
  Session_cleanup tx_closed iter_order now s = (s', evs) ->
  s_tag s' = s_tag s /\ map_ok asked (s_res_map s') /\ Forall (event_ok env' asked) evs /\
  pending_txs s ≡ₚ pending_txs s' ++ ev_done evs.
Proof.
  intros Ho Hm He. unfold Session_cleanup in He. simplify_eq/=. split_and!; [done|..].
  - intros tag tx ts [Hl _]%map_lookup_filter_Some. eauto.
  - apply Forall_bind, Forall_forall. intros [tag [tx ts]] Hin.
    apply list_elem_of_filter in Hin as [_ Hin].
    rewrite Ho, elem_of_map_to_list in Hin. destruct (Hm _ _ _ Hin) as [req Ha].
    simpl. destruct (tx_closed tx); [by repeat constructor|]. apply send_answer_ok.
    exists req. split; [by eapply asked_as_elem|done].
  - unfold pending_txs. simpl.
    rewrite (pending_split (response_expired tx_closed now) (s_res_map s) (iter_order (s_res_map s)))
      by apply Ho.
    apply Permutation_app_head. match goal with |- ?a ≡ₚ ?b => assert (a = b) as ->; [|done] end.
    induction (filter _ (iter_order (s_res_map s))) as [|[tag [tx ts]] l IH]; [done|].
    cbn [fmap list_fmap mbind list_bind]. rewrite IH, ev_done_app. cbn [fst snd].
    destruct (tx_closed tx) eqn:E; [done|]. by rewrite send_answer_done.
Qed.

(** ** The invariant *)

Lemma peer_inv_start env env' theirs index : peer_inv env env' theirs (peer_start index).
Proof. constructor; simpl; try done. constructor. Qed.

(** The requests do not depend on the frames a handler tries to send. *)
Lemma peer_inv_sends env env' theirs attempts (io : result unit string) wire p out :
  Forall (frame_ok env (p_asked p) theirs) attempts -> on_wire attempts io wire ->
  Forall (frame_ok env (p_asked p) theirs) out ->
  peer_inv env env' theirs p -> peer_inv env env' theirs (with_out p (out ++ wire)).
Proof.
  intros Ha Hw Ho Hinv. apply (peer_inv_other _ _ theirs theirs).
  - reflexivity.
  - apply Forall_app_2; [done|]. by apply (on_wire_forall _ attempts io).
  - done.
Qed.

Lemma peer_ask_inv env env' theirs req tx now tx_closed io s out tasks mail asked evs s' evs' :
  tx ∉ asked.*1 -> (Z.of_nat (length asked) < 2 ^ 64)%Z -> pm_valid (req_frame req (s_tag s)) ->
  net_ask req tx now tx_closed io s = (s', evs') ->
  peer_inv env env' theirs (mkPeer s out tasks mail asked evs) ->
  peer_inv env env' theirs (mkPeer s' out tasks mail (asked ++ [(tx, req)]) (evs ++ evs')) /\
  frame_ok env (asked ++ [(tx, req)]) theirs (pm_encode (req_frame req (s_tag s))).
Proof.
  intros Htx Hlt Hv He [Ht Hm Hout Hta Hma Hev Ho Hn]. simpl in *.
  apply net_ask_spec in He as [Ht' Hcase].
  rewrite (wrap_u_id 64) in Ht by (unfold in_u; lia).
  assert (Hp : asked `prefix_of` asked ++ [(tx, req)]) by by eexists.
  split; [constructor; simpl; try done|].
  - rewrite Ht', Ht, length_app. simpl. f_equal. lia.
  - destruct Hcase as [(-> & -> & ->)|(e & -> & -> & ->)]; [|by eapply map_ok_grow].
    intros tag tx' ts [[<- [= <- <-]]|[_ Hl]]%lookup_insert_Some; [|by eapply map_ok_grow].
    exists req. rewrite Ht. apply asked_as_new.
  - eapply Forall_impl; eauto using frame_ok_grow.
  - apply Forall_app_2; [eapply Forall_impl; eauto using event_ok_grow|].
    destruct Hcase as [(-> & -> & _)|(e & -> & -> & _)]; [by repeat constructor|].
    apply send_answer_ok. exists req. split; [set_solver|done].
  - rewrite ev_done_app, fmap_app, <- Ho. simpl.
    unfold pending_txs in *. destruct Hcase as [(-> & -> & ->)|(e & -> & -> & ->)].
    + rewrite pending_insert.
      * simpl. rewrite app_nil_r. apply Permutation_cons_append.
      * destruct (s_res_map s !! s_tag s) as [[tx' ts]|] eqn:El; [|done].
        destruct (Hm _ _ _ El) as (req' & _ & Hl). rewrite Ht, Nat2Z.id in Hl.
        by rewrite lookup_ge_None_2 in Hl.
    + by rewrite send_answer_done, app_assoc.
  - rewrite fmap_app. apply NoDup_app. split_and!; [done| |simpl; by apply NoDup_singleton].
    intros x Hx Hx'. simpl in Hx'. by apply list_elem_of_singleton in Hx' as ->.
  - left. left. exists (s_tag s), tx, req. rewrite Ht in *. split_and!; [apply asked_as_new|done..].
Qed.

(** Handling a frame the other end sent. *)
Lemma peer_frame_inv env env' theirs f is_closed tx_closed by_label tx forward io reg
    s out tasks mail asked evs r0 s0 reg0 evs0 r s' reg' evs' :
  frame_ok env' theirs asked f ->
  pe_registry env reg ->
  (forall l, pe_labelled env l (by_label l)) ->
  Session_handle_ipc_message tx_closed is_closed (bytes_freeze f : B)
    by_label tx forward (Ok tt) s reg = Done (r0, s0, reg0, evs0) ->
  (forall m : IpcMessage, SevFrame (pm_encode m) ∈ evs0 -> pm_valid m) ->
  Session_handle_ipc_message tx_closed is_closed (bytes_freeze f : B)
    by_label tx forward io s reg = Done (r, s', reg', evs') ->
  peer_inv env env' theirs (mkPeer s out tasks mail asked evs) ->
  peer_inv env env' theirs (mkPeer s' out (tasks ++ ev_tasks evs') mail asked (evs ++ evs')) /\
  Forall (frame_ok env asked theirs) (ev_frames evs0).
Proof.
  intros Hf Hreg Hlab H0 Hval He [Ht Hm Hout Hta Hma Hev Ho Hn]. simpl in *.
  destruct Hf as [Hf|Hf].
  - destruct (serve_frame_ok env env' asked theirs _ _ _ _ _ _ _ _ _ _ _ _ _ Hf Hreg Hlab H0)
      as (_ & _ & _ & _ & Hfr).
    destruct (serve_frame_ok env env' asked theirs _ _ _ _ _ _ _ _ _ _ _ _ _ Hf Hreg Hlab He)
      as (-> & Hd & Hev' & Hta' & _).
    split; [constructor; simpl; try done; try by apply Forall_app_2|].
    + by rewrite ev_done_app, Hd, app_nil_r.
    + eapply Forall_impl; [by apply Hfr|]. intros ?. by right.
  - destruct (receive_frame_spec env' asked _ _ _ _ _ _ _ _ _ _ _ _ _ Hf Hm H0)
      as (_ & _ & _ & -> & _).
    destruct (receive_frame_spec env' asked _ _ _ _ _ _ _ _ _ _ _ _ _ Hf Hm He)
      as (Ht' & Hev' & -> & _ & Hcase).
    split; [|done].
    constructor; simpl; try done; [by rewrite Ht'| |by rewrite app_nil_r|by apply Forall_app_2|].
    + destruct Hcase as [[-> _]|(tag & otx & ts & _ & -> & _)]; [done|].
      intros tag' tx' ts' [_ ?]%lookup_delete_Some. eauto.
    + rewrite ev_done_app, <- Ho. unfold pending_txs.
      destruct Hcase as [[-> ->]|(tag & otx & ts & El & -> & ->)]; [by rewrite app_nil_r|].
      rewrite (pending_delete _ _ _ _ El). simpl.
      rewrite app_assoc, Permutation_app_comm. simpl. done.
Qed.

Lemma peer_act_inv env env' theirs p inp attempts io p' :
  peer_act (B := B) env p inp attempts io p' ->
  Forall (frame_ok env' theirs (p_asked p)) (option_list inp) -> peer_inv env env' theirs p ->
  peer_inv env env' theirs p' /\ Forall (frame_ok env (p_asked p') theirs) attempts /\
  p_out p' = p_out p /\ p_asked p `prefix_of` p_asked p'.
Proof.
  intros Hs Hinc Hinv. assert (forall l : list (nat * Request), l `prefix_of` l) by reflexivity.
  destruct Hs; simpl in *.
  - destruct (peer_ask_inv env env' theirs req tx now tx_closed io s out tasks mail asked evs s' evs')
      as [??]; try done. split_and!; [done|by apply Forall_singleton|done|by eexists].
  - split_and!; try done. constructor; [|done].
    left. right. by exists actor_id, message_id, bytes.
  - apply Forall_cons in Hinc as [Hf _].
    destruct (peer_frame_inv env env' theirs f is_closed tx_closed by_label tx forward io reg
      s out tasks mail asked evs r0 s0 reg0 evs0 r s' reg' evs') as [??]; done.
  - split_and!; try done. destruct Hinv as [? ? ? Hta Hma]. simpl in *.
    apply Forall_app in Hta as [Hta1 [(tx & req & Has & Hfor) Hta2]%Forall_cons].
    constructor; simpl; try done; [by apply Forall_app_2|].
    apply Forall_app_2; [done|]. constructor; [|done]. exists tx, req.
    split; [by destruct t|]. left. by exists t, created, sent, received.
  - destruct Hinv as [? ? ? ? Hma]. simpl in *. apply Forall_cons in Hma as [Hm1 Hma].
    split_and!; try done. constructor; [|done]. right. by exists m.
  - destruct Hinv as [Ht Hm ? ? ? ? Ho]. simpl in *. split_and!; try done.
    destruct (cleanup_spec env' asked now tx_closed iter_order s s' evs') as (Ht' & Hm' & Hev' & Hp);
      try done.
    constructor; simpl; try done; [by rewrite Ht'|by apply Forall_app_2|].
    rewrite ev_done_app, <- Ho, Hp. rewrite <- app_assoc.
    apply Permutation_app_head, Permutation_app_comm.
Qed.

Lemma peer_step_inv env env' theirs p inc p' inc' :
  peer_step (B := B) env p inc p' inc' ->
  Forall (frame_ok env' theirs (p_asked p)) inc -> peer_inv env env' theirs p ->
  peer_inv env env' theirs p' /\ Forall (frame_ok env' theirs (p_asked p')) inc' /\
  p_asked p `prefix_of` p_asked p'.
Proof.
  intros [p0 inp attempts io wire p1 inc0 Hact Hw] Hinc Hinv.
  apply Forall_app in Hinc as [Hinp Hinc].
  destruct (peer_act_inv _ _ _ _ _ _ _ _ Hact Hinp Hinv) as (Hinv' & Hat & Hout & Hpre).
  split_and!; [| |done].
  - eapply peer_inv_sends; [done..|rewrite <- Hout; apply Hinv'|done].
  - eapply Forall_impl; [done|]. intros f. by apply frame_ok_grow.
Qed.

(** ** Two sessions *)

Section TwoSessions.
Context (env_a env_b : PeerEnv).
Abbreviation step := (net_step (B := B) env_a env_b).

Definition net_inv n : Prop :=
  peer_inv env_a env_b (p_asked (n_b n)) (n_a n) /\ peer_inv env_b env_a (p_asked (n_a n)) (n_b n).

Lemma net_step_inv n n' : step n n' -> net_inv n -> net_inv n'.
Proof.
  intros Hs. destruct Hs as [a b a' inc Hs|a b b' inc Hs]; intros [Ha Hb]; simpl in *;
    (eapply peer_step_inv in Hs as (Hp & Hinc & Hpre); [|by eapply pi_out|done]);
    split; simpl; try done; by eapply peer_inv_other.
Qed.

Lemma net_steps_inv client server n : rtc step (net_start client server) n -> net_inv n.
Proof.
  intros Hrun. assert (net_inv (net_start client server)) as Hi by (split; apply peer_inv_start).
  induction Hrun; eauto using net_step_inv.
Qed.

(** C6. Answers are never mixed up, in either direction: over any run of two sessions that
    ask each other, bytes given to a response channel are what the other process computed
    for the very request that channel was registered for, and so is a remote error. *)
Theorem response_correlation client server n tx r (Hrun : rtc step (net_start client server) n) :
  (SevAnswer tx r ∈ p_events (n_a n) ->
   exists req, (tx, req) ∈ p_asked (n_a n) /\
     match r with
     | Ok bytes => served env_b req (Ok bytes)
     | Err (RemoteNodeError e) => served env_b req (Err e)
     | Err _ => True
     end) /\
  (SevAnswer tx r ∈ p_events (n_b n) ->
   exists req, (tx, req) ∈ p_asked (n_b n) /\
     match r with
     | Ok bytes => served env_a req (Ok bytes)
     | Err (RemoteNodeError e) => served env_a req (Err e)
     | Err _ => True
     end).
Proof.
  apply net_steps_inv in Hrun as [Ha Hb].
  split; intros Hev; eapply (proj1 (Forall_forall _ _)) in Hev;
    [exact Hev|by eapply pi_events|exact Hev|by eapply pi_events].
Qed.

(** C7. No request is forgotten and none is resolved twice, by either session: the response
    channels of all requests it made so far are, each once, those still pending and those
    it is done with (answered, or dropped because nobody waits). *)
Theorem request_resolved_once client server n p
    (Hrun : rtc step (net_start client server) n) (Hp : p = n_a n \/ p = n_b n) :
  NoDup (pending_txs (p_session p) ++ ev_done (p_events p)) /\
  pending_txs (p_session p) ++ ev_done (p_events p) ≡ₚ (p_asked p).*1.
Proof.
  apply net_steps_inv in Hrun as [Ha Hb].
  assert (exists env env' theirs, peer_inv env env' theirs p) as (env & env' & theirs & [_ _ _ _ _ _ Ho Hn])
    by (destruct Hp as [->| ->]; eauto).
  by rewrite Ho.
Qed.
End TwoSessions.
End NetFacts.

(** ** A run, as witness *)

(** Stand-ins for prost on the messages of the run: one tag byte, fixed-width fields, then
    the payload. *)
Section Instances.

Definition ipc_valid (m : IpcMessage) : Prop :=
  match im_message m with
  | None => True
  | Some (IpcActorMessage (mkActorMessage a i b (Some t))) =>
      in_range u64 a /\ in_range u64 i /\ in_range u64 t
  | Some (IpcNodeMessage (mkNodeMessage (Some (NodeGetActor (Some (mkProtoActorRef (Some (RefIndex id)))) t)))) =>
      in_range u64 id /\ in_range u64 t
  | Some (IpcMessageResponse (mkProtoMessageResponse t (Some _))) => in_range u64 t
  | _ => False
  end.

#[global] Instance ipc_valid_dec m : Decision (ipc_valid m).
Proof. unfold ipc_valid. repeat case_match; apply _. Defined.

(** Bytes of a message that is not valid are never those of one that is. *)
Definition ipc_encode (m : IpcMessage) : list Z :=
  if decide (ipc_valid m) then
    match im_message m with
    | Some (IpcActorMessage (mkActorMessage a i b (Some t))) =>
        1%Z :: int_bytes u64 a ++ int_bytes u64 i ++ int_bytes u64 t ++ b
    | Some (IpcMessageResponse (mkProtoMessageResponse t (Some (Ok b)))) =>
        2%Z :: int_bytes u64 t ++ b
    | Some (IpcMessageResponse (mkProtoMessageResponse t (Some (Err e)))) =>
        3%Z :: int_bytes u64 t ++ string_bytes e
    | Some (IpcNodeMessage (mkNodeMessage (Some (NodeGetActor (Some (mkProtoActorRef (Some (RefIndex id)))) t)))) =>
        4%Z :: int_bytes u64 id ++ int_bytes u64 t
    | _ => []
    end
  else [].

Lemma ipc_encode_valid m : ipc_encode m ≠ [] -> ipc_valid m.
Proof. unfold ipc_encode. by case_decide. Qed.

Definition ipc_decode (b : slice) : result IpcMessage string :=
  match sl_data b with
  | 1%Z :: l =>
      Ok (IpcMessage_actor_message (mkActorMessage (int_of_bytes u64 (take 8 l))
            (int_of_bytes u64 (take 8 (drop 8 l))) (drop 24 l)
            (Some (int_of_bytes u64 (take 8 (drop 16 l))))))
  | 2%Z :: l =>
      Ok (IpcMessage_message_response
            (mkProtoMessageResponse (int_of_bytes u64 (take 8 l)) (Some (Ok (drop 8 l)))))
  | 3%Z :: l =>
      Ok (IpcMessage_message_response
            (mkProtoMessageResponse (int_of_bytes u64 (take 8 l)) (Some (Err (bytes_string (drop 8 l))))))
  | 4%Z :: l =>
      Ok (IpcMessage_node_message
            (NodeMessage_get_actor_by_index (int_of_bytes u64 (take 8 l)) (int_of_bytes u64 (drop 8 l))))
  | _ => Ok (mkIpcMessage None)
  end.

#[local] Opaque int_bytes.

(** Reading an integer off the front of a buffer. *)
Lemma take_int t z l : 0 < it_size t -> in_range t z -> int_of_bytes t (take (it_size t) (int_bytes t z ++ l)) = z.
Proof.
  intros Ht Hz. by rewrite (take_app_length' (int_bytes t z)), int_of_int_bytes by (done || by rewrite length_int_bytes).
Qed.

Lemma drop_int t z l : drop (it_size t) (int_bytes t z ++ l) = l.
Proof. by rewrite (drop_app_length' (int_bytes t z)) by by rewrite length_int_bytes. Qed.

Lemma drop_int_more t z l n : drop (it_size t + n) (int_bytes t z ++ l) = drop n l.
Proof. by rewrite <- drop_drop, drop_int. Qed.

#[global, program] Instance slice_ipc : ProstMessage slice IpcMessage := {|
  pm_encoded_len m := length (ipc_encode m);
  pm_encode := ipc_encode;
  pm_decode := ipc_decode;
  pm_valid := ipc_valid;
|}.
Next Obligation. done. Qed.
Next Obligation.
  intros m b Hv Hb. unfold ipc_encode in Hb. rewrite decide_True in Hb by done.
  assert (Hs : 0 < it_size u64) by (simpl; lia).
  destruct m as [[[[a i x [t|]]|[[[ty lb c tag|[[[[id|lb]|]]|] t]|]]|[t [[x|e]|]]]|]];
    unfold ipc_valid in Hv; simpl in Hv; try done; unfold ipc_decode; simpl in Hb; rewrite Hb; simpl;
    change 24 with (it_size u64 + (it_size u64 + (it_size u64 + 0)));
    change 16 with (it_size u64 + (it_size u64 + 0)); change 8 with (it_size u64);
    rewrite ?drop_int_more, ?drop_int, ?drop_0, ?take_int by tauto; try done.
  - rewrite int_of_int_bytes by tauto. done.
  - by rewrite bytes_string_bytes.
Qed.

#[local] Transparent int_bytes.

Definition address_encode (m : ResultAddress) : list Z :=
  match ra_result m with
  | Some (Ok z) => 1%Z :: int_bytes u64 z
  | Some (Err e) => 2%Z :: string_bytes e
  | None => []
  end.

Definition address_decode (b : slice) : result ResultAddress string :=
  match sl_data b with
  | 1%Z :: l => Ok (ResultAddress_ok (int_of_bytes u64 l))
  | 2%Z :: l => Ok (ResultAddress_err (bytes_string l))
  | _ => Ok (mkResultAddress None)
  end.

Definition address_valid (m : ResultAddress) : Prop :=
  match ra_result m with Some (Ok z) => in_range u64 z | _ => True end.

#[global, program] Instance slice_address : ProstMessage slice ResultAddress := {|
  pm_encoded_len m := length (address_encode m);
  pm_encode := address_encode;
  pm_decode := address_decode;
  pm_valid := address_valid;
|}.
Next Obligation. done. Qed.
Next Obligation.
  intros [[[z|e]|]] b Hv Hb; simpl in *; unfold address_decode; rewrite Hb; simpl; try done.
  - by rewrite int_of_int_bytes by (done || simpl; lia).
  - by rewrite bytes_string_bytes.
Qed.
End Instances.

Section Witnesses.


(** Actor 5 answers message 9 with one byte. *)
Definition w_responds (m : BinaryMessage) (r : result (list Z) string) : Prop :=
  bm_message_id m = 9%Z /\ r = Ok [42%Z].

(** Processes whose manager and whose factories may do anything. *)
Definition w_env (responds : BinaryMessage -> result (list Z) string -> Prop) : PeerEnv :=
  mkPeerEnv responds (fun _ => True) (fun _ _ => True) (fun _ _ _ _ => True).

Definition w_idle : PeerEnv := w_env (fun _ _ => False).

Abbreviation w_step responds :=
  (net_step (B := slice) w_idle (w_env responds)).

Definition w_req : Request := ReqActor 5 9 [1; 2]%Z.

Definition w_registry : registry := {[5%Z := mkRecipient (ActorId_new 5)]}.

(** The task a request of actor 5 for message 9 makes the other session spawn. *)
Definition w_task (bytes : list Z) : STask :=
  TaskForward (Ok (mkRecipient (ActorId_new 5)))
    (BinaryMessage_with_decode_context
       (BinaryMessage_with_encode_context (BinaryMessage_send 5 9 bytes 0) 4) 4) 0.

(** A request, and the answer of the actor. *)
Lemma w_request_run responds bytes answer :
  task_env (w_env responds) (w_task bytes) (Err ResponseTimeout) (Ok answer) ->
  exists n, rtc (w_step responds) (net_start 3 4) n /\
    (100, ReqActor 5 9 bytes) ∈ p_asked (n_a n) /\ SevAnswer 100 (Ok answer) ∈ p_events (n_a n).
Proof.
  intros Hr. eexists. split.
  - eapply rtc_l.
    { eapply ns_a, (ps_act _ _ None).
      - apply (pa_ask _ (ReqActor 5 9 bytes) 100 0 (fun _ => false) (Ok tt));
          [set_solver|done| |reflexivity].
        by apply (bool_decide_unpack (in_range u64 5 /\ in_range u64 9 /\ in_range u64 0)).
      - done. }
    eapply rtc_l.
    { eapply ns_b, (ps_act _ _ (Some _)).
      - eapply (pa_frame _ _ (fun _ => false) (fun _ => false) (fun _ => Err ResponseTimeout)
                 0 (Ok tt) (Ok tt) w_registry); [done|done|vm_compute; reflexivity| |vm_compute; reflexivity].
        intros m Hm. apply list_elem_of_singleton in Hm. discriminate.
      - done. }
    eapply rtc_l.
    { eapply ns_b, (ps_act _ _ None).
      - by apply (pa_task _ (w_task bytes) (Err ResponseTimeout) (Ok tt) (Ok answer) _ _ [] []).
      - done. }
    eapply rtc_l.
    { eapply ns_b, (ps_act _ _ None).
      - apply (pa_respond _ _ (Ok tt)). by apply (bool_decide_unpack (in_range u64 0)).
      - done. }
    eapply rtc_l; [|apply rtc_refl].
    eapply ns_a, (ps_act _ _ (Some _)).
    + eapply (pa_frame _ _ (fun _ => false) (fun _ => false) (fun _ => Err ResponseTimeout)
                0 (Ok tt) (Ok tt) ∅); [done|done|vm_compute; reflexivity| |vm_compute; reflexivity].
      intros m Hm. apply list_elem_of_singleton in Hm. discriminate.
    + done.
  - simpl. split; [left|right; left].
Qed.

Lemma w_run : exists n, rtc (w_step w_responds) (net_start 3 4) n /\
  (100, w_req) ∈ p_asked (n_a n) /\ SevAnswer 100 (Ok [42%Z]) ∈ p_events (n_a n).
Proof. by apply w_request_run. Qed.

Lemma response_correlation_witness :
  exists n, rtc (w_step w_responds) (net_start 3 4) n /\
    exists req, (100, req) ∈ p_asked (n_a n) /\
      served (B := slice) (w_env w_responds) req (Ok [42%Z]).
Proof.
  destruct w_run as (n & Hrun & _ & Hev). exists n. split; [exact Hrun|].
  exact (proj1 (response_correlation _ _ 3 4 n 100 (Ok [42%Z]) Hrun) Hev).
Defined.

Lemma request_resolved_once_witness :
  exists n, rtc (w_step w_responds) (net_start 3 4) n /\
    NoDup (pending_txs (p_session (n_a n)) ++ ev_done (p_events (n_a n))) /\
    pending_txs (p_session (n_a n)) ++ ev_done (p_events (n_a n)) ≡ₚ (p_asked (n_a n)).*1.
Proof.
  destruct w_run as (n & Hrun & _). exists n. split; [exact Hrun|].
  exact (request_resolved_once _ _ 3 4 n (n_a n) Hrun (or_introl eq_refl)).
Defined.
End Witnesses.
