(* ===== verification/SessionLoop.v ===== *)
(** * The loop of a session

    Theorems about the cleanup of pending responses and the message loop of Session.v: the
    sweep resolves exactly the requests nobody waits for or nobody answered in time, and
    as long as the session runs there is always exactly one sweep to come. *)

From S2P Require Import Prelude Tokio ActorTypes UserCode WireLibs Codec Registry IpcMessages.
From S2P Require Import Session ErrorReport SessionNet SessionTheorems.

Section Cleanup.
Context (tx_closed : nat -> bool) (iter_order : gmap Z (nat * Z) -> list (Z * (nat * Z))).
Implicit Types (s : Session).

Lemma response_expired_true now p :
  response_expired tx_closed now p = true <->
  tx_closed p.1 = true \/ (RESPONSE_TIMEOUT <= now - p.2)%Z.
Proof.
  unfold response_expired. rewrite orb_true_iff, Z.leb_le. unfold RESPONSE_TIMEOUT.
  split; (intros [?|?]; [by left|right; lia]).
Qed.

Lemma response_expired_false now p :
  response_expired tx_closed now p = false <->
  tx_closed p.1 = false /\ (now - p.2 < RESPONSE_TIMEOUT)%Z.
Proof.
  rewrite <- not_true_iff_false, response_expired_true.
  destruct (tx_closed p.1); split; intros Hp; [exfalso; auto|destruct Hp; done|split; [done|]|].
  - destruct (decide (RESPONSE_TIMEOUT <= now - p.2)%Z); [exfalso; auto|lia].
  - intros [?|?]; [done|lia].
Qed.

Lemma sweep_spec now s (Ho : forall m, iter_order m ≡ₚ map_to_list m) :
  let '(s', evs) := Session_cleanup tx_closed iter_order now s in
  (forall tag tx ts, s_res_map s' !! tag = Some (tx, ts) <->
     s_res_map s !! tag = Some (tx, ts) /\ tx_closed tx = false /\
     (now - ts < RESPONSE_TIMEOUT)%Z) /\
  (forall e, e ∈ evs <-> exists tag tx ts, s_res_map s !! tag = Some (tx, ts) /\
     ((tx_closed tx = true /\ e = SevDropped tx) \/
      (tx_closed tx = false /\ (RESPONSE_TIMEOUT <= now - ts)%Z /\
       e = SevAnswer tx (Err ResponseTimeout)))) /\
  s_tag s' = s_tag s /\ s_proxy s' = s_proxy s.
Proof.
  unfold Session_cleanup. split_and!; [..|done|done].
  - intros tag tx ts. simpl. rewrite map_lookup_filter_Some. simpl.
    by rewrite response_expired_false.
  - intros e. rewrite list_elem_of_bind. split.
    + intros ([tag [tx ts]] & He & Hin). apply list_elem_of_filter in Hin as [Hx Hin].
      rewrite Ho, elem_of_map_to_list in Hin. simpl in *. apply response_expired_true in Hx.
      exists tag, tx, ts. split; [done|]. unfold send_answer in He.
      destruct (tx_closed tx) eqn:E; apply list_elem_of_singleton in He as ->; [by left|right].
      destruct Hx as [Hx|Hx]; simpl in Hx; [congruence|done].
    + intros (tag & tx & ts & Hl & He). exists (tag, (tx, ts)). unfold send_answer. simpl. split.
      * destruct He as [[-> ->]|(-> & _ & ->)]; by apply list_elem_of_singleton.
      * apply list_elem_of_filter. rewrite Ho, elem_of_map_to_list. split; [|done]. simpl.
        apply response_expired_true. simpl. tauto.
Qed.

(** The cleanup sweep resolves exactly the requests that need it: a pending response
    survives it when its requester still waits and has waited less than the timeout; a
    requester that waited longer is told [ResponseTimeout], and one that is gone is
    forgotten silently. The tags and the proxy are untouched. *)
Lemma cleanup_resolves_exactly now s (Ho : forall m, iter_order m ≡ₚ map_to_list m) :
  let '(s', evs) := Session_cleanup tx_closed iter_order now s in
  (forall tag tx ts, s_res_map s' !! tag = Some (tx, ts) <->
     s_res_map s !! tag = Some (tx, ts) /\ tx_closed tx = false /\
     (now - ts < RESPONSE_TIMEOUT)%Z) /\
  (forall e, e ∈ evs <-> exists tag tx ts, s_res_map s !! tag = Some (tx, ts) /\
     ((tx_closed tx = true /\ e = SevDropped tx) \/
      (tx_closed tx = false /\ (RESPONSE_TIMEOUT <= now - ts)%Z /\
       e = SevAnswer tx (Err ResponseTimeout)))) /\
  s_tag s' = s_tag s /\ s_proxy s' = s_proxy s.
Proof. by apply sweep_spec. Qed.
End Cleanup.

Section Loop.
Context {B : Type} `{BytesCrate B} `{!ProstMessage B IpcMessage} `{!ProstMessage B ResultAddress}.
Context (tx_closed : nat -> bool) (is_closed : Recipient -> bool).
Context (iter_order : gmap Z (nat * Z) -> list (Z * (nat * Z))).
#[local] Set Default Proof Using "Type*".

Abbreviation run_loop := (SessionContext_run_loop (B := B) tx_closed is_closed iter_order).
Abbreviation handle := (Session_handle_ipc_message (B := B) tx_closed is_closed).
Implicit Types (s : Session) (c : SessionContext) (i : @SessionInput B).

(** Either a sweep is due, or its timer runs (or its message waits). *)
Definition one_sweep c : Prop := sc_timers c = if sc_require_cleanup c then 0 else 1.

(** A started session keeps its proxy. *)
Definition started (s : Session) : Prop := is_Some (s_proxy s).

(** The time of the clock at the end of a schedule. *)
Definition end_time (inputs : list (@SessionInput B * Z)) (now : Z) : Z := fold_left (fun _ p => p.2) inputs now.

Lemma set_state_sweep st c : one_sweep c -> one_sweep (SessionContext_set_state st c).
Proof. done. Qed.

Lemma handle_message_response_proxy resp s :
  s_proxy (Session_handle_message_response tx_closed resp s).1.2 = s_proxy s.
Proof.
  unfold Session_handle_message_response.
  destruct (s_res_map s !! pr_tag resp) as [[tx ts]|]; [|done].
  by destruct (send_answer tx_closed tx _).
Qed.

(** A started session handles any frame without panicking. *)
Lemma handle_done frame by_label tx forward io s reg :
  started s ->
  exists r s' reg' evs,
    handle frame by_label tx forward io s reg = Done (r, s', reg', evs) /\ s_proxy s' = s_proxy s.
Proof.
  intros [p Hp]. unfold Session_handle_ipc_message.
  destruct (pm_decode frame) as [[[m|]]|e]; [|simpl; eauto 10..].
  destruct m as [[a i b [t|]]|m|m]; simpl.
  - unfold Session_handle_actor_message, Session_encode_context, Session_decode_context.
    rewrite Hp. simpl. destruct (Session_find_mailbox _ _ _). simpl. eauto 10.
  - unfold Session_handle_actor_message, Session_decode_context. rewrite Hp. simpl.
    destruct (Session_find_mailbox _ _ _) as [[r|e] reg']; simpl; [|eauto 10].
    destruct forward; simpl; eauto 10.
  - destruct (Session_handle_node_message _ _ _ _ _) as [[r reg'] evs]. eauto 10.
  - pose proof (handle_message_response_proxy m s) as Hq.
    destruct (Session_handle_message_response tx_closed m s) as [[r s'] evs]. simpl in Hq. eauto 10.
Qed.

Lemma cleanup_if_due_inv now s c reg evs :
  one_sweep c ->
  exists s' c' evs', SessionContext_cleanup_if_due tx_closed iter_order now (s, c, reg, evs) =
      (s', c', reg, evs') /\
    one_sweep c' /\ s_proxy s' = s_proxy s /\ sc_state c' = sc_state c /\ sc_require_cleanup c' = false.
Proof.
  unfold one_sweep, SessionContext_cleanup_if_due. intros Hc.
  destruct (sc_require_cleanup c) eqn:E.
  - unfold Session_cleanup. eexists _, _, _. split; [done|]. simpl. rewrite Hc. done.
  - eexists s, c, evs. rewrite E. done.
Qed.

(** The session after one of the three requests, which takes the next tag. *)
Definition requested (now : Z) io s s' : Prop :=
  exists ipc_msg tx, s' = (Session_register_request (B := B) tx_closed ipc_msg tx (s_tag s) now io
                             (Session_next_tag s).2).1.

Lemma requested_frame now io s s' :
  requested now io s s' -> s_proxy s' = s_proxy s /\ s_tag s' = wrap_u 64 (s_tag s + 1).
Proof.
  intros (msg & tx & ->). unfold Session_register_request.
  by destruct (Session_send_ipc_message msg io) as [[] ?].
Qed.

(** A request gets a fresh tag, so it replaces no other one. *)
Lemma requested_keeps now io s s' tag p :
  requested now io s s' -> s_tag s ≠ tag -> s_res_map s !! tag = Some p -> s_res_map s' !! tag = Some p.
Proof.
  intros (msg & tx & ->) Hne Hp. unfold Session_register_request.
  destruct (Session_send_ipc_message msg io) as [[] ?]; simpl; [|done]. by rewrite lookup_insert_ne.
Qed.

Ltac destruct_request now io s :=
  match goal with |- context [Session_register_request ?cl ?msg ?x ?t now io ?s1] =>
    let Hr := fresh "Hr" in
    assert (requested now io s (Session_register_request cl msg x t now io s1).1) as Hr
      by (eexists _, _; reflexivity);
    destruct (Session_register_request cl msg x t now io s1) as [? ?]; simpl in Hr
  end.

(** A started session handles any message without panicking. *)
Lemma dispatch_done m tx now io s c :
  started s ->
  exists s' c' evs, Session_dispatch (B := B) tx_closed m tx now io s c = Done (s', c', evs) /\
    (one_sweep c -> one_sweep c') /\ (s' = s \/ requested now io s s').
Proof.
  intros [p Hp].
  destruct m as [[m|m| |ty lbl cfg|a]|[]|[r|]]; simpl; try (by eauto 10 using set_state_sweep).
  - unfold Session_handle_binary_message. destruct (bm_result_tx m) as [rx|]; simpl; [|eauto 10].
    destruct_request now io s. eauto 10.
  - unfold SessionContext_handle_require_cleanup, one_sweep. case_bool_decide as E; [eauto 10|].
    eexists _, _, _. split; [done|]. split; [|by left]. simpl. destruct (sc_require_cleanup c); lia.
  - unfold Session_handle_remote_create_actor. simpl. destruct_request now io s.
    unfold Session_decode_context. rewrite (proj1 (requested_frame _ _ _ _ Hr)), Hp. simpl. eauto 10.
  - unfold Session_handle_remote_get_actor. simpl. destruct_request now io s.
    unfold Session_decode_context. rewrite (proj1 (requested_frame _ _ _ _ Hr)), Hp. simpl. eauto 10.
  - eexists _, _, _. split; [done|]. unfold SessionContext_supervise. simpl. by case_bool_decide; auto.
Qed.

(** How the loop of a session returns. *)
Definition good_return (r : result unit SessionError) : Prop :=
  r = Ok tt \/ exists e, r = Err (SessionIoError e).

Lemma wake_inv i s c reg evs :
  started s -> one_sweep c ->
  exists r s' c' reg' evs',
    SessionContext_wake tx_closed is_closed i (s, c, reg, evs) =
      Done (r, (s', c', reg', evs')) /\ one_sweep c' /\ s_proxy s' = s_proxy s /\
    forall x, r = Some x -> good_return x /\ sc_state c' = Stopped.
Proof.
  intros Hs Hc. destruct i as [m tx now io| | |frame by_label tx forward io|gone e]; simpl.
  - destruct (dispatch_done m tx now io s c Hs) as (s' & c' & evs' & -> & Hc' & Hr).
    eexists _, _, _, _, _. split; [done|]. split_and!; [auto| |done].
    destruct Hr as [->|Hr]; [done|by apply requested_frame in Hr as []].
  - by eexists _, _, _, _, _.
  - eexists _, _, _, _, _. by split; [|split; [apply set_state_sweep|]].
  - destruct (handle_done frame by_label tx forward io s reg Hs) as (r & s' & reg' & evs' & -> & Hp).
    by eexists _, _, _, _, _.
  - eexists _, _, _, _, _. split; [done|]. split_and!; [by apply set_state_sweep|done|].
    intros x Hx. destruct gone; simplify_eq. split; [right; eauto|done].
Qed.

#[local] Arguments SessionContext_cleanup_if_due : simpl never.
#[local] Arguments SessionContext_wake : simpl never.

Lemma loop_sound inputs now s c reg evs (Hs : started s) (Hc : one_sweep c) :
  exists r s' c' reg' evs',
    run_loop inputs now (s, c, reg, evs) = Done (r, (s', c', reg', evs')) /\
    one_sweep c' /\ s_proxy s' = s_proxy s /\
    match r with
    | None => sc_state c' = Running /\ sc_require_cleanup c' = false /\ sc_timers c' = 1
    | Some r => sc_state c' ≠ Running /\ good_return r
    end.
Proof.
  revert now s c reg evs Hs Hc. induction inputs as [|[i later] inputs IH]; intros now s c reg evs Hs Hc;
    cbn [SessionContext_run_loop fst snd]; (case_bool_decide as Hr; [|eexists _, _, _, _, _; unfold good_return; eauto 10]);
    destruct (cleanup_if_due_inv now s c reg evs Hc) as (s1 & c1 & evs1 & -> & Hc1 & Hp1 & Hst & Hrc).
  - eexists _, _, _, _, _. split; [done|]. split_and!; [done..|by rewrite Hst|done|].
    unfold one_sweep in Hc1. by rewrite Hrc in Hc1.
  - destruct (wake_inv i s1 c1 reg evs1) as (r & s2 & c2 & reg2 & evs2 & -> & Hc2 & Hp2 & Hx);
      [unfold started; by rewrite Hp1|done|].
    simpl. rewrite Hp1 in Hp2. destruct r as [r|].
    + destruct (Hx r eq_refl) as [Hg Hs2]. eexists _, _, _, _, _. rewrite Hs2. eauto 10.
    + destruct (IH later s2 c2 reg2 evs2) as (r & s3 & c3 & reg3 & evs3 & -> & Hc3 & Hp3 & H3);
        [unfold started; by rewrite Hp2|done|].
      rewrite Hp2 in Hp3. eauto 10.
Qed.

(** C17. The loop of a started session never panics, whatever messages and frames arrive
    and whatever the clock and the outside do: none of the handlers it runs fails to find
    the proxy, and none of them drops it. It returns only when the session has left the
    state [Running], with success or an I/O error of the connection; and while it waits,
    exactly one timer for the next sweep is under way. *)
Theorem session_loop_sound inputs now s c reg evs (Hs : started s) (Hc : one_sweep c) :
  exists r s' c' reg' evs',
    run_loop inputs now (s, c, reg, evs) = Done (r, (s', c', reg', evs')) /\
    one_sweep c' /\ s_proxy s' = s_proxy s /\
    match r with
    | None => sc_state c' = Running /\ sc_require_cleanup c' = false /\ sc_timers c' = 1
    | Some r => sc_state c' ≠ Running /\ good_return r
    end.
Proof. by apply loop_sound. Qed.

(** ** No request waits for ever *)

(** The requester was told something. *)
Definition told (tx : nat) (evs : list SEvent) : Prop := exists r, SevAnswer tx r ∈ evs.

(** A request is pending, or its requester was told. *)
Definition owed tag tx ts (w : SWorld) : Prop :=
  s_res_map w.1.1.1 !! tag = Some (tx, ts) \/ told tx w.2.

Lemma told_app tx evs evs' : told tx evs \/ told tx evs' -> told tx (evs ++ evs').
Proof. unfold told. intros [[r ?]|[r ?]]; exists r; apply elem_of_app; auto. Qed.

(** The tag of a pending request has been given out, and the next [n] tags are larger: the
    counter of tags has 64 bits. *)
Definition tag_room tag (n : nat) s : Prop := (0 <= tag < s_tag s)%Z /\ (s_tag s + Z.of_nat n < 2 ^ 64)%Z.

Lemma tag_room_step tag n s s' :
  tag_room tag (S n) s -> s_tag s' = s_tag s \/ s_tag s' = wrap_u 64 (s_tag s + 1) -> tag_room tag n s'.
Proof.
  unfold tag_room, wrap_u. intros [? ?] [-> | ->]; [split; lia|]. rewrite Z.mod_small by lia. split; lia.
Qed.

(** Whatever frame arrives, a pending request stays pending or is told. *)
Lemma frame_keeps_pending frame by_label rx forward io s reg r s' reg' evs tag tx ts :
  tx_closed tx = false ->
  handle frame by_label rx forward io s reg = Done (r, s', reg', evs) ->
  s_res_map s !! tag = Some (tx, ts) ->
  s_res_map s' !! tag = Some (tx, ts) \/ told tx evs.
Proof.
  intros Hx He Hp. unfold Session_handle_ipc_message in He.
  destruct (pm_decode frame) as [[[[a|m|m]|]]|e]; simpl in He; [..|by simplify_eq/=; left|by simplify_eq/=; left].
  - destruct (Session_handle_actor_message is_closed a rx forward s reg) as [[[r1 reg1] evs1]|];
      by simplify_eq/=; left.
  - destruct (Session_handle_node_message is_closed m by_label io reg) as [[r1 reg1] evs1].
    by simplify_eq; left.
  - destruct (Session_handle_message_response tx_closed m s) as [[r1 s1] evs1] eqn:Em. simplify_eq.
    unfold Session_handle_message_response in Em.
    destruct (decide (pr_tag m = tag)) as [<-|Hne].
    + rewrite Hp in Em. unfold send_answer in Em. rewrite Hx in Em. simplify_eq/=. right.
      eexists. apply list_elem_of_here.
    + left. destruct (s_res_map s !! pr_tag m) as [[tx' ts']|]; [|by simplify_eq].
      destruct (send_answer tx_closed tx' _). simplify_eq/=. by rewrite lookup_delete_ne.
Qed.

Lemma owed_cleanup tag tx ts now s c reg evs :
  (forall m, iter_order m ≡ₚ map_to_list m) -> tx_closed tx = false ->
  owed tag tx ts (s, c, reg, evs) ->
  owed tag tx ts (SessionContext_cleanup_if_due tx_closed iter_order now (s, c, reg, evs)) /\
  (sc_require_cleanup c = true -> (RESPONSE_TIMEOUT <= now - ts)%Z ->
   told tx (SessionContext_cleanup_if_due tx_closed iter_order now (s, c, reg, evs)).2).
Proof.
  intros Ho Hx Hw. unfold SessionContext_cleanup_if_due.
  destruct (sc_require_cleanup c); [|done].
  pose proof (sweep_spec tx_closed iter_order now s Ho) as Hsw.
  destruct (Session_cleanup tx_closed iter_order now s) as [s' evs'].
  destruct Hsw as (Hkeep & Hev & _). unfold owed in *. simpl in *.
  destruct Hw as [Hw|Hw]; [|assert (told tx (evs ++ evs')) by (apply told_app; by left); by split; [right|]].
  destruct (decide (RESPONSE_TIMEOUT <= now - ts)%Z) as [Hl|Hl].
  - assert (told tx evs') as Ht; [|assert (told tx (evs ++ evs')) by (apply told_app; by right); by split; [right|]].
    exists (Err ResponseTimeout). apply Hev. exists tag, tx, ts. auto 6.
  - split; [|done]. left. apply Hkeep. split_and!; [done..|lia].
Qed.

(** What handling one input does to a request whose requester still waits. *)
Lemma frame_tags frame by_label rx forward io s reg r s' reg' evs :
  handle frame by_label rx forward io s reg = Done (r, s', reg', evs) -> s_tag s' = s_tag s.
Proof.
  unfold Session_handle_ipc_message. intros He.
  destruct (pm_decode frame) as [[[[a|m|m]|]]|e]; simpl in He; [..|by simplify_eq/=|by simplify_eq/=].
  - destruct (Session_handle_actor_message is_closed a rx forward s reg) as [[[r1 reg1] evs1]|]; by simplify_eq/=.
  - destruct (Session_handle_node_message is_closed m by_label io reg) as [[r1 reg1] evs1]. by simplify_eq.
  - unfold Session_handle_message_response in He.
    destruct (s_res_map s !! pr_tag m) as [[tx' ts']|]; [|by simplify_eq/=].
    destruct (send_answer tx_closed tx' _). by simplify_eq/=.
Qed.

(** What handling one input does to a request whose requester still waits. *)
Lemma owed_wake tag tx ts i s c reg evs r w' n :
  tx_closed tx = false -> started s -> owed tag tx ts (s, c, reg, evs) -> tag_room tag (S n) s ->
  SessionContext_wake tx_closed is_closed i (s, c, reg, evs) = Done (r, w') ->
  owed tag tx ts w' /\ tag_room tag n w'.1.1.1.
Proof.
  intros Hx Hs Hw Hroom He. pose proof (fun s' => tag_room_step tag n s s' Hroom) as Hn.
  unfold SessionContext_wake in He. unfold owed in *. simpl in Hw.
  destruct i as [m rx now io| | |frame by_label rx forward io|gone e];
    [|simplify_eq/=; auto..| |simplify_eq/=; auto].
  - destruct (dispatch_done m rx now io s c Hs) as (s' & c' & evs' & Hd & _ & Hr). rewrite Hd in He.
    simplify_eq/=. split; [|apply Hn; destruct Hr as [->|Hr]; [by left|right; by apply requested_frame in Hr as []]].
    destruct Hw as [Hw|Hw]; [|right; apply told_app; by left]. left.
    destruct Hr as [->|Hr]; [done|]. eapply requested_keeps; [done| |done]. destruct Hroom; lia.
  - destruct (handle frame by_label rx forward io s reg) as [[[[r1 s1] reg1] evs1]|] eqn:Eh; [|done].
    simplify_eq/=. split; [|apply Hn; left; by eapply frame_tags].
    destruct Hw as [Hw|Hw]; [|right; apply told_app; by left].
    destruct (frame_keeps_pending _ _ _ _ _ _ _ _ _ _ _ tag tx ts Hx Eh Hw); [by left|].
    right. apply told_app. by right.
Qed.

Lemma cleanup_idle now w :
  sc_require_cleanup w.1.1.2 = false -> SessionContext_cleanup_if_due tx_closed iter_order now w = w.
Proof. destruct w as [[[s c] reg] evs]. unfold SessionContext_cleanup_if_due. simpl. by intros ->. Qed.

Lemma cleanup_tags now w :
  s_tag (SessionContext_cleanup_if_due tx_closed iter_order now w).1.1.1 = s_tag w.1.1.1.
Proof.
  destruct w as [[[s c] reg] evs]. unfold SessionContext_cleanup_if_due. by destruct (sc_require_cleanup c).
Qed.

Lemma cleanup_done now w :
  sc_require_cleanup (SessionContext_cleanup_if_due tx_closed iter_order now w).1.1.2 = false /\
  sc_state (SessionContext_cleanup_if_due tx_closed iter_order now w).1.1.2 = sc_state w.1.1.2.
Proof.
  destruct w as [[[s c] reg] evs]. unfold SessionContext_cleanup_if_due.
  destruct (sc_require_cleanup c) eqn:E; [|done]. by destruct (Session_cleanup _ _ _ _).
Qed.

Lemma run_loop_app inputs inputs' now w :
  run_loop (inputs ++ inputs') now w =
    match run_loop inputs now w with
    | Done (None, w') => run_loop inputs' (end_time inputs now) w'
    | o => o
    end.
Proof.
  revert now w. induction inputs as [|[i later] inputs IH]; intros now w.
  - cbn [app SessionContext_run_loop end_time fold_left]. case_bool_decide as Hr.
    + destruct (cleanup_done now w) as [Hc Hs].
      destruct inputs' as [|[i later] inputs']; cbn [SessionContext_run_loop];
        rewrite Hs, bool_decide_eq_true_2, (cleanup_idle _ _ Hc) by done; done.
    + by destruct inputs' as [|[]]; cbn [SessionContext_run_loop]; rewrite bool_decide_eq_false_2.
  - cbn [app SessionContext_run_loop]. case_bool_decide; [|done].
    destruct (SessionContext_wake _ _ i _) as [[[r|] w']|]; simpl; [done|apply IH|done].
Qed.

Lemma owed_run tag tx ts inputs now s c reg evs w' n :
  (forall m, iter_order m ≡ₚ map_to_list m) -> tx_closed tx = false -> started s -> one_sweep c ->
  owed tag tx ts (s, c, reg, evs) -> tag_room tag (length inputs + n) s ->
  run_loop inputs now (s, c, reg, evs) = Done (None, w') ->
  owed tag tx ts w' /\ tag_room tag n w'.1.1.1.
Proof.
  intros Ho Hx. revert now s c reg evs.
  induction inputs as [|[i later] inputs IH]; intros now s c reg evs Hs Hc Hw Hroom He;
    cbn [SessionContext_run_loop fst snd] in He; (case_bool_decide as Hr; [|done]);
    destruct (owed_cleanup tag tx ts now s c reg evs Ho Hx Hw) as [Hw1 _];
    pose proof (cleanup_tags now (s, c, reg, evs)) as Ht;
    destruct (cleanup_if_due_inv now s c reg evs Hc) as (s1 & c1 & evs1 & He1 & Hc1 & Hp1 & _);
    rewrite He1 in *; simpl in Ht;
    (assert (forall k, tag_room tag k s -> tag_room tag k s1) as Hroom1
      by (intros k; unfold tag_room; by rewrite Ht)).
  - simplify_eq. auto.
  - assert (started s1) as Hs1 by (unfold started; by rewrite Hp1).
    destruct (wake_inv i s1 c1 reg evs1 Hs1 Hc1) as (r & s2 & c2 & reg2 & evs2 & Ew & Hc2 & Hp2 & _).
    rewrite Ew in He. destruct r as [r|]; simpl in He; [done|].
    destruct (owed_wake tag tx ts i s1 c1 reg evs1 None (s2, c2, reg2, evs2) (length inputs + n)
      Hx Hs1 Hw1 (Hroom1 _ Hroom)) as [Hw2 Hroom2]; [exact Ew|].
    eapply IH; [|exact Hc2|exact Hw2|exact Hroom2|exact He]. unfold started. by rewrite Hp2.
Qed.

(** Once told, a requester stays told. *)
Lemma told_cleanup tx now w :
  told tx w.2 -> told tx (SessionContext_cleanup_if_due tx_closed iter_order now w).2.
Proof.
  destruct w as [[[s c] reg] evs]. unfold SessionContext_cleanup_if_due. simpl. intros Ht.
  destruct (sc_require_cleanup c); [|done].
  destruct (Session_cleanup tx_closed iter_order now s). apply told_app. by left.
Qed.

Lemma told_wake tx i w r w' :
  SessionContext_wake tx_closed is_closed i w = Done (r, w') ->
  told tx w.2 -> told tx w'.2.
Proof.
  destruct w as [[[s c] reg] evs]. unfold SessionContext_wake. intros He Ht. simpl in Ht.
  destruct i as [m rx now io| | |frame by_label rx forward io|gone e]; [|by simplify_eq..| |by simplify_eq].
  - destruct (Session_dispatch tx_closed m rx now io s c) as [[[? ?] ?]|]; simplify_eq/=.
    apply told_app. by left.
  - destruct (handle frame by_label rx forward io s reg) as [[[[? ?] ?] ?]|]; simplify_eq/=.
    apply told_app. by left.
Qed.

Lemma told_run tx inputs now w r w' :
  run_loop inputs now w = Done (r, w') -> told tx w.2 -> told tx w'.2.
Proof.
  revert now w. induction inputs as [|[i later] inputs IH]; intros now w He Ht;
    cbn [SessionContext_run_loop] in He; (case_bool_decide; [|by simplify_eq]);
    apply (told_cleanup tx now) in Ht; [by simplify_eq|].
  destruct (SessionContext_wake _ _ i _) as [[r1 w2]|] eqn:Ew; simpl in He; [|done].
  pose proof (told_wake _ _ _ _ _ Ew Ht). destruct r1; [by simplify_eq|]. by eapply IH.
Qed.

(** The message of the timer makes a sweep due at once. *)
Lemma wake_cleanup rx t io s c reg evs :
  sc_timers c <> 0 ->
  SessionContext_wake (B := B) tx_closed is_closed (InEnvelope (MsgUser SmRequireCleanup) rx t io) (s, c, reg, evs) =
    Done (None, (s, SessionContext_require_cleanup (consume_cleanup_timer c), reg, evs ++ [])).
Proof.
  intros Hc. unfold SessionContext_wake, Session_dispatch, SessionContext_handle_require_cleanup.
  by rewrite bool_decide_eq_false_2.
Qed.

(** C12. No request waits for ever: once the message of the cleanup timer has been handled
    at a time [now] at which the request is older than the response timeout, the requester
    has been told something, the answer of the peer, the error of the send or that it timed
    out, before the loop waits for anything else; and this is so whatever messages, frames
    and other requests the session handled since, and whatever follows. *)
Theorem request_times_out before start rx t io now after tag tx ts s c reg evs w'
    (Ho : forall m, iter_order m ≡ₚ map_to_list m) (Hs : one_sweep c) (Hstart : started s)
    (Hp : s_res_map s !! tag = Some (tx, ts)) (Hx : tx_closed tx = false)
    (Htags : tag_room tag (length before) s)
    (Hlate : (RESPONSE_TIMEOUT <= now - ts)%Z)
    (Hrun : run_loop (before ++ (InEnvelope (MsgUser SmRequireCleanup) rx t io, now) :: after) start
              (s, c, reg, evs) = Done (None, w')) :
  exists r, SevAnswer tx r ∈ w'.2.
Proof.
  rewrite run_loop_app in Hrun.
  destruct (loop_sound before start s c reg evs Hstart Hs)
    as (r1 & s1 & c1 & reg1 & evs1 & He1 & Hs1 & _ & Hend).
  rewrite He1 in Hrun. destruct r1; [done|]. destruct Hend as (Hr1 & Hq1 & Ht1).
  rewrite <- (Nat.add_0_r (length before)) in Htags.
  destruct (owed_run tag tx ts before start s c reg evs _ 0 Ho Hx Hstart Hs (or_introl Hp) Htags He1)
    as [Hw1 _].
  cbn [SessionContext_run_loop fst snd] in Hrun. rewrite bool_decide_eq_true_2 in Hrun by done.
  rewrite cleanup_idle, wake_cleanup, app_nil_r in Hrun by (done || lia). cbn [outcome_bind] in Hrun.
  set (c2 := SessionContext_require_cleanup (consume_cleanup_timer c1)) in *.
  destruct (owed_cleanup tag tx ts now s1 c2 reg1 evs1 Ho Hx Hw1) as [_ Htold].
  specialize (Htold eq_refl Hlate).
  destruct after as [|[i later] after]; cbn [SessionContext_run_loop fst snd] in Hrun;
    rewrite bool_decide_eq_true_2 in Hrun by done; [by simplify_eq|].
  destruct (SessionContext_wake _ _ i _) as [[[r|] w3]|] eqn:Ew; [done| |done].
  exact (told_run _ _ _ _ _ _ Hrun (told_wake _ _ _ _ _ Ew Htold)).
Qed.
End Loop.

(** ** Witnesses *)

Section Witnesses.

Definition w_session : Session :=
  mkSession 2 (Some 3%Z) {[0%Z := (10, 0%Z); 1%Z := (11, 50000%Z)]}.

(** At 60 seconds the request of the start has timed out, the later one has not. *)
Lemma cleanup_resolves_exactly_witness :
  let '(s', evs) := Session_cleanup (fun _ => false) map_to_list 60000 w_session in
  (forall tag tx ts, s_res_map s' !! tag = Some (tx, ts) <->
     s_res_map w_session !! tag = Some (tx, ts) /\ false = false /\
     (60000 - ts < RESPONSE_TIMEOUT)%Z) /\
  (forall e, e ∈ evs <-> exists tag tx ts, s_res_map w_session !! tag = Some (tx, ts) /\
     ((false = true /\ e = SevDropped tx) \/
      (false = false /\ (RESPONSE_TIMEOUT <= 60000 - ts)%Z /\
       e = SevAnswer tx (Err ResponseTimeout)))) /\
  s_tag s' = s_tag w_session /\ s_proxy s' = s_proxy w_session.
Proof.
  exact (cleanup_resolves_exactly (fun _ => false) map_to_list 60000 w_session
           (fun m => Permutation_refl (map_to_list m))).
Defined.

Definition w_context : SessionContext :=
  SessionContext_set_state Running (SessionContext_with_capacity "peer" 3).

Definition w_bad_frame : @SessionInput slice :=
  InFrame (mkSlice 16 [9%Z]) (fun _ => Err ResponseTimeout) 0 (Ok tt) (Ok tt).

Definition w_timer : @SessionInput slice := InEnvelope (MsgUser SmRequireCleanup) 0 0 (Ok tt).

(** Another request, for the address of an actor, on channel [12]. *)
Definition w_request : @SessionInput slice :=
  InEnvelope (MsgUser (SmGetActor (ActorRefLabel "db"))) 12 100 (Ok tt).

(** A frame nobody can read, a request, the first timer, and the mailbox dropped. *)
Definition w_inputs : list (@SessionInput slice * Z) :=
  [(w_bad_frame, 10%Z); (w_request, 100%Z); (w_timer, 15000%Z); (InMailboxDropped, 15001%Z)].

Lemma session_loop_sound_witness :
  exists r s' c' reg' evs',
    SessionContext_run_loop (B := slice) (fun _ => false) (fun _ => false)
      map_to_list w_inputs 0 (w_session, w_context, ∅, []) = Done (r, (s', c', reg', evs')) /\
    one_sweep c' /\ s_proxy s' = s_proxy w_session /\
    match r with
    | None => sc_state c' = Running /\ sc_require_cleanup c' = false /\ sc_timers c' = 1
    | Some r => sc_state c' ≠ Running /\ good_return r
    end.
Proof.
  exact (session_loop_sound (fun _ => false) (fun _ => false) map_to_list
           w_inputs 0 w_session w_context ∅ [] (ex_intro _ 3%Z eq_refl) eq_refl).
Defined.

(** The request of the start is not answered. The timer fires at 15 seconds, when it is too
    early, and later at 60 seconds: the sweep that follows finds it too old. *)
Lemma request_times_out_witness :
  exists w', SessionContext_run_loop (B := slice) (fun _ => false) (fun _ => false)
      map_to_list
      ([(w_bad_frame, 5%Z); (w_request, 100%Z); (w_timer, 15000%Z)] ++ (w_timer, 60000%Z) :: []) 0
      (w_session, w_context, ∅, []) = Done (None, w') /\
    exists r, SevAnswer 10 r ∈ w'.2.
Proof.
  eexists. split; [vm_compute; reflexivity|].
  eapply (request_times_out (B := slice) (fun _ => false) (fun _ => false) map_to_list
           [(w_bad_frame, 5%Z); (w_request, 100%Z); (w_timer, 15000%Z)] 0 0 0 (Ok tt) 60000 [] 0 10 0
           w_session w_context ∅ []).
  - exact (fun m => Permutation_refl (map_to_list m)).
  - exact eq_refl.
  - exact (ex_intro _ 3%Z eq_refl).
  - exact eq_refl.
  - exact eq_refl.
  - by apply (bool_decide_unpack ((0 <= 0 < 2)%Z /\ (2 + 3 < 2 ^ 64)%Z)).
  - by apply (bool_decide_unpack (RESPONSE_TIMEOUT <= 60000 - 0)%Z).
  - vm_compute. reflexivity.
Defined.
End Witnesses.
