(* ===== verification/Node.v ===== *)
(** * The node

    Models acktor-ipc/src/node.rs (the actor that owns the listeners, the sessions and the
    actor manager, with the handlers of its commands), acktor-ipc/src/node/context.rs (its
    loop, which accepts connections with one task per listener) and [terminate_actor] of
    acktor/src/utils.rs. What a step does to the outside is returned as a list of effects;
    what the outside answers (connections, mailboxes, the manager, fresh indices) comes
    with each input. *)

From S2P Require Import Prelude HashMap DoubleMap Tokio ActorTypes UserCode Observer.
From S2P Require Import WireLibs Codec Registry Session ErrorReport.

(** [NodeError] of acktor-ipc/src/error.rs. *)
Inductive NodeError : Type :=
| ConnectFailed (e : string)
| CreateSessionFailed (e : string)
| SessionNotFound (session : string)
| NodeSessionError (e : SessionError)
| NodeSendError (e : string)
| NodeRecvError (e : RecvError string).

Definition NodeError_display (e : NodeError) : string :=
  match e with
  | ConnectFailed _ => "could not connect to the remote endpoint"
  | CreateSessionFailed _ => "could not create a new session"
  | SessionNotFound session => "could not find the session " +:+ session
  | NodeSessionError e => display e
  | NodeSendError _ => "could not send message"
  | NodeRecvError _ => "could not receive message"
  end.

Definition NodeError_source (e : NodeError) : option dyn_error :=
  match e with
  | ConnectFailed e | CreateSessionFailed e | NodeSendError e => Some (as_dyn e)
  | SessionNotFound _ => None
  | NodeSessionError e => source e
  | NodeRecvError e => Some (as_dyn e)
  end.

#[global] Instance NodeError_StdError : StdError NodeError :=
  {| display := NodeError_display; source := NodeError_source |}.

(** [From<SendError<T>>]: the error is boxed. *)
Definition NodeError_from_send {T} (short_name : string) (e : SendError string T) : NodeError :=
  NodeSendError (@report _ (SendError_StdError short_name) e).

Inductive NodeEvent : Type :=
| SessionCreated (session : ActorId) (label : string)
| SessionDeleted (session : ActorId).

(** A listener is known by its identity and says at which endpoint it listens. *)
Record IpcListener : Type := mkIpcListener {
  listener_id : nat;
  local_endpoint : string;
}.

(** [Node]. An address is the index of its actor, a join handle the index of the actor
    whose task it joins. *)
Record Node : Type := mkNode {
  listener_labels : gset string;
  listeners : list IpcListener;
  nd_registry : registry;
  nd_actor_mgr : option ActorId;
  sessions : DoubleMap ActorId string ActorId;
  children : gmap Recipient ActorId;
  nd_observers : ObserverSet;
  nd_factories : option (gmap Z RemoteFactory);
  nd_actor_labels : option (gmap string Z);
}.

Record AcceptTask : Type := mkAcceptTask {
  at_label : string;
  at_listener : IpcListener;
}.

Record NodeContext : Type := mkNodeContext {
  nc_label : string;
  nc_state : ActorState;
  nc_doorplate : ActorId;
  nc_mailbox : bool;
  nc_accept_tasks : list AcceptTask;
}.

(** The commands and control messages of a node. [Connect] carries the answer of
    [T::connect], the two that ask the manager carry its answer, [type_id] is
    [A::TYPE_ID.as_u64()]. *)
Inductive NodeMsg : Type :=
| AddListener (listener : IpcListener)
| RemoveListener (label : string)
| Connect (connected : result string string) (session_label : option string)
| AddActor (sent : bool) (answer : option bool)
| RemoveActor (sent : bool) (answer : option bool)
| RemoteCreateActor (session : ActorRef) (type_id : Z) (label : string) (config : option string)
| RemoteGetActor (session actor : ActorRef)
| NodeSupervision (event : SupervisionEvent SessionError)
| NodeObserver (msg : Observer)
| NodeSignal (signal : Signal).

Inductive NodeAnswer : Type :=
| AnswerUnit
| AnswerBool (b : bool)
| AnswerSession (r : result ActorId NodeError)
| AnswerFuture (session : result ActorId NodeError) (command : SessionMsg).

Inductive NodeEffect : Type :=
| EffAccept (listener : IpcListener)
| EffAbortAccept (listener : IpcListener)
| EffAcceptDone (listener : IpcListener)
| EffSession (c : SessionContext)
| EffStartMgr (index : ActorId) (m : ActorMgr)
| EffNotify (sent : list (Recipient * NodeEvent))
| EffTerminate (child : Recipient)
| EffAbort (child : Recipient)
| EffJoin (task : ActorId)
| EffHandled (msg : NodeMsg).

(** What the outside answers while an input is handled: the index the next actor gets, the
    mailboxes of the observers, and the orders in which the set of observers and the map of
    sessions are visited. *)
Record NodeEnv : Type := mkNodeEnv {
  env_fresh : Z;
  env_do_send : Recipient -> result unit (SendError string NodeEvent);
  env_closed : Recipient -> bool;
  env_order : ObserverSet -> list Recipient;
  env_session_order : gmap ActorId (string * ActorId) -> list (ActorId * (string * ActorId));
}.

Implicit Types (nd : Node) (c : NodeContext) (env : NodeEnv).

(** ** Building a node *)

Definition Node_default : Node :=
  mkNode ∅ [] Registry_new None DoubleMap_default ∅ ObserverSet_new (Some ∅) (Some ∅).

Definition Node_new : Node := Node_default.

Definition set_listeners (labels : gset string) (l : list IpcListener) nd : Node :=
  mkNode labels l (nd_registry nd) (nd_actor_mgr nd) (sessions nd) (children nd)
    (nd_observers nd) (nd_factories nd) (nd_actor_labels nd).

Definition set_sessions (s : DoubleMap ActorId string ActorId) (ch : gmap Recipient ActorId)
    nd : Node :=
  mkNode (listener_labels nd) (listeners nd) (nd_registry nd) (nd_actor_mgr nd) s ch
    (nd_observers nd) (nd_factories nd) (nd_actor_labels nd).

Definition set_observers (o : ObserverSet) nd : Node :=
  mkNode (listener_labels nd) (listeners nd) (nd_registry nd) (nd_actor_mgr nd) (sessions nd)
    (children nd) o (nd_factories nd) (nd_actor_labels nd).

(** [with_listener]: replaces a listener on the same endpoint. *)
Definition Node_with_listener (listener : IpcListener) nd : Node :=
  let label := local_endpoint listener in
  if bool_decide (label ∈ listener_labels nd) then
    set_listeners (listener_labels nd)
      (filter (fun l => local_endpoint l ≠ label) (listeners nd) ++ [listener]) nd
  else set_listeners ({[label]} ∪ listener_labels nd) (listeners nd ++ [listener]) nd.

Definition Node_with_actor (label : string) (actor : ActorId) nd : Node :=
  match nd_actor_labels nd with
  | None => nd
  | Some labels =>
      if is_some (labels !! label) then nd
      else
        let (inserted, reg) := Registry_insert (mkRecipient actor) (nd_registry nd) in
        mkNode (listener_labels nd) (listeners nd) reg (nd_actor_mgr nd) (sessions nd)
          (children nd) (nd_observers nd) (nd_factories nd)
          (Some (if inserted : bool then <[label := ActorId_as_local actor]> labels else labels))
  end.

Definition Node_with_factory (type_id : Z) (factory : RemoteFactory) nd : Node :=
  match nd_factories nd with
  | None => nd
  | Some fs =>
      mkNode (listener_labels nd) (listeners nd) (nd_registry nd) (nd_actor_mgr nd)
        (sessions nd) (children nd) (nd_observers nd) (Some (<[type_id := factory]> fs))
        (nd_actor_labels nd)
  end.

(** ** Sessions *)

Definition Node_notify env (event : NodeEvent) nd : Node * list NodeEffect :=
  let (sent, o) := notify_observers (env_do_send env) (env_closed env)
                     (env_order env (nd_observers nd)) event (nd_observers nd) in
  (set_observers o nd, [EffNotify sent]).

(** [Session::create(endpoint, |child_ctx| ...)]: a fresh context whose supervisor is the
    node. A session has no [pre_start] of its own, so it is always started. *)
Definition Session_create (endpoint : string) (index : Z) (supervisor : ActorId)
    : result (ActorId * SessionContext) string :=
  let child_ctx := SessionContext_with_capacity endpoint index in
  let child_ctx := SessionContext_set_supervisor (Some (mkRecipient supervisor)) child_ctx in
  Ok (sc_doorplate child_ctx, child_ctx).

Definition session_label_exists (label : string) : string :=
  "session with label '" +:+ label +:+ "' already exists".

(** [create_session] on a connection from [endpoint]. The answer of [sessions.insert] is
    ignored, and the observers are told last. *)
Definition Node_create_session env (endpoint : string) (session_label : option string) c nd
    : result ActorId NodeError * Node * list NodeEffect :=
  let label := default endpoint session_label in
  if DoubleMap_contains_key2 (sessions nd) label
  then (Err (CreateSessionFailed (session_label_exists label)), nd, [])
  else
    match nd_actor_mgr nd with
    | None => (Err (CreateSessionFailed "actor manager does not exist"), nd, [])
    | Some _ =>
        match Session_create endpoint (env_fresh env) (nc_doorplate c) with
        | Err e => (Err (CreateSessionFailed e), nd, [])
        | Ok (address, child_ctx) =>
            let (_, s) := DoubleMap_insert (sessions nd) address label address in
            let nd := set_sessions s (<[mkRecipient address := address]> (children nd)) nd in
            let (nd, evs) := Node_notify env (SessionCreated address label) nd in
            (Ok address, nd, EffSession child_ctx :: evs)
        end
    end.

Section Node.
(** [ActorId::to_string]. *)
Context (display : ActorId -> string).

Definition Node_get_session (session_ref : ActorRef) nd : result ActorId NodeError :=
  match session_ref with
  | ActorRefIndex index =>
      ok_or (DoubleMap_get_by_key1 (sessions nd) index) (SessionNotFound (display index))
  | ActorRefLabel label =>
      ok_or (DoubleMap_get_by_key2 (sessions nd) label) (SessionNotFound label)
  end.

(** ** Hooks *)

(** [post_start]: starts the manager with the labels and factories collected so far. *)
Definition Node_post_start env nd : result unit NodeError * Node * list NodeEffect :=
  let fs := default ∅ (nd_factories nd) in
  let labels := default ∅ (nd_actor_labels nd) in
  let address := ActorId_new (env_fresh env) in
  (Ok tt,
   mkNode (listener_labels nd) (listeners nd) (nd_registry nd) (Some address) (sessions nd)
     (<[mkRecipient address := address]> (children nd)) (nd_observers nd) None None,
   [EffStartMgr address (mkActorMgr labels fs)]).

(** [terminate_actor]: a child that cannot be told is aborted; its task is awaited. *)
Definition terminate_actor (sent : bool) (address : Recipient) (join_handle : ActorId)
    : list NodeEffect :=
  (if sent then [EffTerminate address] else [EffAbort address]) ++ [EffJoin join_handle].

(** [post_stop]: all children are terminated; [order] is that of the drained map. *)
Definition Node_post_stop (sent : Recipient -> bool) (order : list (Recipient * ActorId)) nd
    : result unit NodeError * Node * list NodeEffect :=
  (Ok tt, set_sessions (sessions nd) ∅ nd,
   order ≫= (fun p => terminate_actor (sent p.1) p.1 p.2)).

(** ** Handlers *)

Definition NodeContext_set_state (state : ActorState) c : NodeContext :=
  mkNodeContext (nc_label c) state (nc_doorplate c) (nc_mailbox c) (nc_accept_tasks c).

Definition set_accept_tasks (tasks : list AcceptTask) c : NodeContext :=
  mkNodeContext (nc_label c) (nc_state c) (nc_doorplate c) (nc_mailbox c) tasks.

Definition Node_add_listener (listener : IpcListener) nd : bool * Node :=
  let label := local_endpoint listener in
  if bool_decide (label ∈ listener_labels nd) then (false, nd)
  else (true, set_listeners ({[label]} ∪ listener_labels nd) (listeners nd ++ [listener]) nd).

(** [abort_accept_task]. *)
Definition NodeContext_abort_accept_task (label : string) c : NodeContext * list NodeEffect :=
  (set_accept_tasks (filter (fun t => at_label t ≠ label) (nc_accept_tasks c)) c,
   (fun t => EffAbortAccept (at_listener t)) <$>
     filter (fun t => at_label t = label) (nc_accept_tasks c)).

Definition Node_remove_listener (label : string) nd c : bool * Node * NodeContext * list NodeEffect :=
  if bool_decide (label ∈ listener_labels nd) then
    let nd := set_listeners (listener_labels nd ∖ {[label]}) (listeners nd) nd in
    let (c, evs) := NodeContext_abort_accept_task label c in
    (true, nd, c, evs)
  else (false, nd, c, []).

Definition Node_connect env (connected : result string string) (session_label : option string) c nd
    : result ActorId NodeError * Node * list NodeEffect :=
  match connected with
  | Err e => (Err (ConnectFailed e), nd, [])
  | Ok endpoint => Node_create_session env endpoint session_label c nd
  end.

(** [AddActor] and [RemoveActor] are forwarded to the manager: [sent] says whether its
    mailbox took the message, [answer] is [None] when it was dropped. *)
Definition Node_ask_mgr (sent : bool) (answer : option bool) nd : bool :=
  match nd_actor_mgr nd with
  | Some _ => if sent then default false answer else false
  | None => false
  end.

(** The future of [RemoteCreateActor] and [RemoteGetActor], which sends a command to the
    session: how its mailbox answers, and what the command resolves to. *)
Definition remote_actor_future (session : result ActorId NodeError) (sent : result unit string)
    (received : result (result SenderRef SessionError) (RecvError string))
    : result SenderRef NodeError :=
  let? _ := session in
  let? _ := result_map_err NodeSendError sent in
  let? answer := result_map_err NodeRecvError received in
  result_map_err NodeSessionError answer.

(** [Handler<SupervisionEvent<Session>>]. *)
Definition Node_supervise env (event : SupervisionEvent SessionError) nd : Node * list NodeEffect :=
  match event with
  | SupWarn _ _ => (nd, [])
  | SupTerminated session _ =>
      let (s, _) := DoubleMap_retain (fun (_ : unit) (_ : ActorId) (_ : string) (v : ActorId) =>
                      (bool_decide (v ≠ session), v, tt))
                      (env_session_order env (primary (sessions nd))) tt (sessions nd) in
      let nd := set_sessions s (delete (mkRecipient session) (children nd)) nd in
      Node_notify env (SessionDeleted session) nd
  | _ => (nd, [])
  end.

Definition Node_signal (signal : Signal) c : NodeContext :=
  match signal with
  | SignalStop => NodeContext_set_state Stopping c
  | SignalTerminate => NodeContext_set_state Stopped c
  end.

(** The handler of an envelope. *)
Definition Node_handle env (msg : NodeMsg) nd c : NodeAnswer * Node * NodeContext * list NodeEffect :=
  match msg with
  | AddListener listener => let (b, nd) := Node_add_listener listener nd in (AnswerBool b, nd, c, [])
  | RemoveListener label =>
      let '(b, nd, c, evs) := Node_remove_listener label nd c in (AnswerBool b, nd, c, evs)
  | Connect connected session_label =>
      let '(r, nd, evs) := Node_connect env connected session_label c nd in
      (AnswerSession r, nd, c, evs)
  | AddActor sent answer | RemoveActor sent answer =>
      (AnswerBool (Node_ask_mgr sent answer nd), nd, c, [])
  | RemoteCreateActor session type_id label config =>
      (AnswerFuture (Node_get_session session nd) (SmCreateActor type_id label config), nd, c, [])
  | RemoteGetActor session actor =>
      (AnswerFuture (Node_get_session session nd) (SmGetActor actor), nd, c, [])
  | NodeSupervision event => let (nd, evs) := Node_supervise env event nd in (AnswerUnit, nd, c, evs)
  | NodeObserver msg =>
      (AnswerUnit, set_observers (Observer_handle (nc_doorplate c) msg (nd_observers nd)) nd, c, [])
  | NodeSignal signal => (AnswerUnit, nd, Node_signal signal c, [])
  end.

(** ** The loop *)

Definition NodeContext_with_capacity (label : string) (index : Z) : NodeContext :=
  mkNodeContext label Unstarted (ActorId_new index) true [].

Definition NodeContext_take_mailbox c : bool * NodeContext :=
  (nc_mailbox c,
   mkNodeContext (nc_label c) (nc_state c) (nc_doorplate c) false (nc_accept_tasks c)).

(** The two loops at the start of [recv_or_accept]: tasks of removed listeners are aborted,
    new listeners get a task. *)
Definition NodeContext_sync_tasks nd c : Node * NodeContext * list NodeEffect :=
  let kept := filter (fun t => at_label t ∈ listener_labels nd) (nc_accept_tasks c) in
  let dropped := filter (fun t => at_label t ∉ listener_labels nd) (nc_accept_tasks c) in
  let spawned := (fun l => mkAcceptTask (local_endpoint l) l) <$> listeners nd in
  (set_listeners (listener_labels nd) [] nd, set_accept_tasks (kept ++ spawned) c,
   ((fun t => EffAbortAccept (at_listener t)) <$> dropped) ++ (EffAccept <$> listeners nd)).

(** What [recv_or_accept] waits for: an envelope ([None] when the mailbox is dropped), or
    the end of the accept task at a position, which panicked or gave a connection from an
    endpoint or an error. *)
Inductive NodeInput : Type :=
| NInEnvelope (msg : option NodeMsg)
| NInAccepted (index : nat) (r : result string string)
| NInPanicked (index : nat).

Inductive LoopEvent : Type :=
| LoopEnvelope (msg : option NodeMsg)
| LoopAccept (r : result string string) (label : string)
| LoopListenerPanicked (label : string).

(** The rest of [recv_or_accept]; [None] when no task is at that position. *)
Definition NodeContext_recv_or_accept (i : NodeInput) nd c
    : option (LoopEvent * Node * NodeContext * list NodeEffect) :=
  match i with
  | NInEnvelope msg => Some (LoopEnvelope msg, nd, c, [])
  | NInAccepted index r =>
      task ← nc_accept_tasks c !! index;
      let tasks := delete index (nc_accept_tasks c) in
      Some (LoopAccept r (at_label task), nd,
            set_accept_tasks (tasks ++ [mkAcceptTask (at_label task) (at_listener task)]) c,
            [EffAcceptDone (at_listener task); EffAccept (at_listener task)])
  | NInPanicked index =>
      task ← nc_accept_tasks c !! index;
      Some (LoopListenerPanicked (at_label task),
            set_listeners (listener_labels nd ∖ {[at_label task]}) (listeners nd) nd,
            set_accept_tasks (delete index (nc_accept_tasks c)) c,
            [EffAcceptDone (at_listener task)])
  end.

(** The body of the loop after an event. *)
Definition NodeContext_on_event env (e : LoopEvent) nd c : Node * NodeContext * list NodeEffect :=
  match e with
  | LoopEnvelope (Some msg) =>
      let '(_, nd, c, evs) := Node_handle env msg nd c in (nd, c, EffHandled msg :: evs)
  | LoopEnvelope None => (nd, NodeContext_set_state Stopped c, [])
  | LoopAccept (Ok endpoint) _ =>
      let '(_, nd, evs) := Node_create_session env endpoint None c nd in (nd, c, evs)
  | LoopAccept (Err _) _ => (nd, c, [])
  | LoopListenerPanicked _ => (nd, NodeContext_set_state Stopped c, [])
  end.

(** One iteration. An input that cannot occur leaves the loop waiting. *)
Definition NodeContext_turn env (i : NodeInput) nd c : Node * NodeContext * list NodeEffect :=
  let '(nd, c, evs) := NodeContext_sync_tasks nd c in
  match NodeContext_recv_or_accept i nd c with
  | None => (nd, c, evs)
  | Some (e, nd, c, evs') =>
      let '(nd, c, evs'') := NodeContext_on_event env e nd c in (nd, c, evs ++ evs' ++ evs'')
  end.

(** [run_loop] from the effects so far: [None] when it still waits at the end of the inputs. *)
Fixpoint NodeContext_run_loop (inputs : list (NodeEnv * NodeInput)) nd c (evs : list NodeEffect)
    : option (result unit NodeError) * Node * NodeContext * list NodeEffect :=
  if bool_decide (nc_state c = Running) then
    match inputs with
    | [] => let '(nd, c, evs') := NodeContext_sync_tasks nd c in (None, nd, c, evs ++ evs')
    | (env, i) :: inputs =>
        let '(nd, c, evs') := NodeContext_turn env i nd c in
        NodeContext_run_loop inputs nd c (evs ++ evs')
    end
  else
    (Some (Ok tt), nd, set_accept_tasks [] c,
     evs ++ ((fun t => EffAbortAccept (at_listener t)) <$> nc_accept_tasks c)).
End Node.
