(* ===== verification/NodeTheorems.v ===== *)
(** * What holds of a node

    Over any run of the loop of Node.v: accept tasks and listeners correspond one to one,
    and no listener outlives the loop; the sessions stay registered, supervised and
    addressable until they are reported terminated. *)

From S2P Require Import Prelude HashMap DoubleMap DoubleMapFacts Tokio ActorTypes UserCode.
From S2P Require Import Observer WireLibs Codec Registry Session Node.

(** What a program can build before it starts the node. *)
Inductive node_built : Node -> Prop :=
| built_new : node_built Node_new
| built_listener l nd : node_built nd -> node_built (Node_with_listener l nd)
| built_actor label actor nd : node_built nd -> node_built (Node_with_actor label actor nd)
| built_factory t f nd : node_built nd -> node_built (Node_with_factory t f nd).

(** The loop of a node from [post_start] on, as [ActorContext::run] composes them. *)
Definition node_run (display : ActorId -> string) nd0 env0 (label : string) (index : Z)
    (inputs : list (NodeEnv * NodeInput))
    : option (result unit NodeError) * Node * NodeContext * list NodeEffect :=
  let '(_, nd1, evs1) := Node_post_start env0 nd0 in
  NodeContext_run_loop display inputs nd1
    (NodeContext_set_state Running (NodeContext_with_capacity label index)) evs1.

(** The labels of the listeners that wait for a task and of those that have one. *)
Definition covered nd c : list string :=
  (local_endpoint <$> listeners nd) ++ (at_label <$> nc_accept_tasks c).

Definition labels_inv nd c : Prop :=
  NoDup (covered nd c) /\ forall l, l ∈ covered nd c <-> l ∈ listener_labels nd.

(** Accept tasks that were spawned, and those that are over. *)
Definition ev_accepting (evs : list NodeEffect) : list IpcListener :=
  omap (fun e => match e with EffAccept l => Some l | _ => None end) evs.

Definition ev_accept_over (evs : list NodeEffect) : list IpcListener :=
  omap (fun e => match e with EffAbortAccept l | EffAcceptDone l => Some l | _ => None end) evs.

Definition accounted (evs : list NodeEffect) (tasks : list AcceptTask) : Prop :=
  ev_accepting evs ≡ₚ ev_accept_over evs ++ (at_listener <$> tasks).

(** Effects that are not about accept tasks. *)
Definition quiet (e : NodeEffect) : Prop :=
  match e with EffAccept _ | EffAbortAccept _ | EffAcceptDone _ => False | _ => True end.

Section AcceptTasks.
Context (display : ActorId -> string).

Lemma ev_accepting_app evs evs' : ev_accepting (evs ++ evs') = ev_accepting evs ++ ev_accepting evs'.
Proof. apply omap_app. Qed.

Lemma ev_over_app evs evs' : ev_accept_over (evs ++ evs') = ev_accept_over evs ++ ev_accept_over evs'.
Proof. apply omap_app. Qed.

Lemma ev_accepting_spawn (ls : list IpcListener) :
  ev_accepting (EffAccept <$> ls) = ls /\ ev_accept_over (EffAccept <$> ls) = [].
Proof. induction ls as [|l ls [IH1 IH2]]; [done|]. split; simpl; by f_equal. Qed.

Lemma ev_accepting_abort (ts : list AcceptTask) :
  ev_accepting ((fun t => EffAbortAccept (at_listener t)) <$> ts) = [] /\
  ev_accept_over ((fun t => EffAbortAccept (at_listener t)) <$> ts) = at_listener <$> ts.
Proof. induction ts as [|t ts [IH1 IH2]]; [done|]. split; simpl; by f_equal. Qed.

Lemma quiet_evs evs : Forall quiet evs -> ev_accepting evs = [] /\ ev_accept_over evs = [].
Proof. induction 1 as [|e evs He _ [IH1 IH2]]; [done|]. by destruct e; simpl. Qed.

Lemma accounted_quiet evs evs' tasks :
  Forall quiet evs' -> accounted evs tasks -> accounted (evs ++ evs') tasks.
Proof.
  intros [Ha Ho]%quiet_evs. unfold accounted. by rewrite ev_accepting_app, ev_over_app, Ha, Ho, !app_nil_r.
Qed.

(** New tasks, and tasks that end. *)
Lemma accounted_spawn evs tasks (ls : list IpcListener) :
  accounted evs tasks ->
  accounted (evs ++ (EffAccept <$> ls)) (tasks ++ ((fun l => mkAcceptTask (local_endpoint l) l) <$> ls)).
Proof.
  unfold accounted. intros H. destruct (ev_accepting_spawn ls) as [Ha Ho].
  rewrite ev_accepting_app, ev_over_app, Ha, Ho, H, app_nil_r, fmap_app, <- list_fmap_compose.
  rewrite (list_fmap_ext (at_listener ∘ _) id) by done. by rewrite list_fmap_id, app_assoc.
Qed.

Lemma accounted_abort evs tasks gone kept :
  tasks ≡ₚ gone ++ kept -> accounted evs tasks ->
  accounted (evs ++ ((fun t => EffAbortAccept (at_listener t)) <$> gone)) kept.
Proof.
  unfold accounted. intros Hp H. destruct (ev_accepting_abort gone) as [Ha Ho].
  rewrite ev_accepting_app, ev_over_app, Ha, Ho, app_nil_r, H, Hp, fmap_app. by rewrite app_assoc.
Qed.

Lemma accounted_abort_all evs tasks :
  accounted evs tasks ->
  accounted (evs ++ ((fun t => EffAbortAccept (at_listener t)) <$> tasks)) [].
Proof. apply accounted_abort. by rewrite app_nil_r. Qed.

(** Building keeps one listener per label. *)
Lemma built_labels nd c : node_built nd -> nc_accept_tasks c = [] -> labels_inv nd c.
Proof.
  intros Hb Hc. unfold labels_inv, covered. rewrite Hc. simpl. rewrite app_nil_r.
  induction Hb as [|l nd Hb [Hnd Hin]|label a nd Hb IH|t f nd Hb IH].
  - split; [apply NoDup_nil_2|set_solver].
  - unfold Node_with_listener. case_bool_decide as Hl; simpl; rewrite fmap_app; simpl.
    + assert (Hin' : forall x, x ∈ local_endpoint <$> filter (fun l' => local_endpoint l' ≠ local_endpoint l)
                                                         (listeners nd) <->
                               x ≠ local_endpoint l /\ x ∈ listener_labels nd).
      { intros x. rewrite <- Hin, !list_elem_of_fmap. setoid_rewrite list_elem_of_filter. naive_solver. }
      split.
      * apply NoDup_app. split_and!; [|set_solver|apply NoDup_singleton].
        eapply sublist_NoDup; [exact Hnd|]. apply fmap_sublist, sublist_filter.
      * intros x. rewrite elem_of_app, Hin', list_elem_of_singleton.
        destruct (decide (x = local_endpoint l)); set_solver.
    + split; [apply NoDup_app; split_and!; [done|set_solver|apply NoDup_singleton]|set_solver].
  - unfold Node_with_actor. repeat case_match; done.
  - unfold Node_with_factory. by case_match.
Qed.

(** The two loops of [recv_or_accept] move every listener into a task and abort none. *)
Lemma sync_tasks_spec nd c :
  labels_inv nd c ->
  NodeContext_sync_tasks nd c =
    (set_listeners (listener_labels nd) [] nd,
     set_accept_tasks (nc_accept_tasks c ++
       ((fun l => mkAcceptTask (local_endpoint l) l) <$> listeners nd)) c,
     EffAccept <$> listeners nd).
Proof.
  intros [_ Hin]. unfold NodeContext_sync_tasks.
  assert (Hall : forall t, t ∈ nc_accept_tasks c -> at_label t ∈ listener_labels nd).
  { intros t Ht. apply Hin. unfold covered. rewrite elem_of_app. right. by apply list_elem_of_fmap_2. }
  rewrite filter_keep_all by done.
  rewrite filter_drop_all; [done|]. intros t Ht Hn. by apply Hn, Hall.
Qed.

Definition accept_inv nd c (evs : list NodeEffect) : Prop :=
  labels_inv nd c /\ accounted evs (nc_accept_tasks c).

(** What leaves the listeners and the tasks alone. *)
Definition same_accept nd c nd' c' : Prop :=
  listener_labels nd' = listener_labels nd /\ listeners nd' = listeners nd /\
  nc_accept_tasks c' = nc_accept_tasks c.

Lemma accept_inv_frame nd c nd' c' evs evs' :
  same_accept nd c nd' c' -> Forall quiet evs' -> accept_inv nd c evs ->
  accept_inv nd' c' (evs ++ evs').
Proof.
  intros (Hl & Hs & Ht) Hq [Hi Ha]. unfold accept_inv, labels_inv, covered.
  rewrite Hl, Hs, Ht. split; [done|]. by apply accounted_quiet.
Qed.

Lemma notify_frame env event nd c :
  let (nd', evs) := Node_notify env event nd in same_accept nd c nd' c /\ Forall quiet evs.
Proof.
  unfold Node_notify. destruct (notify_observers _ _ _ _ _) as [sent o].
  split; [done|]. by repeat constructor.
Qed.

Lemma create_session_frame env endpoint label nd c :
  let '(_, nd', evs) := Node_create_session env endpoint label c nd in
  same_accept nd c nd' c /\ Forall quiet evs.
Proof.
  unfold Node_create_session.
  destruct (DoubleMap_contains_key2 _ _); [by repeat constructor|].
  destruct (nd_actor_mgr nd); [|by repeat constructor]. simpl.
  destruct (DoubleMap_insert _ _ _ _) as [r s].
  match goal with |- context [Node_notify ?e ?ev ?n] => pose proof (notify_frame e ev n c) as Hn;
    destruct (Node_notify e ev n) as [nd' evs] end.
  destruct Hn as [Hn Hq]. split; [done|]. by constructor.
Qed.

Lemma supervise_frame env event nd c :
  let (nd', evs) := Node_supervise env event nd in same_accept nd c nd' c /\ Forall quiet evs.
Proof.
  unfold Node_supervise. destruct event; try by repeat constructor.
  destruct (DoubleMap_retain _ _ _ _) as [s u].
  match goal with |- context [Node_notify ?e ?ev ?n] => apply (notify_frame e ev n c) end.
Qed.

(** The two handlers that change listeners. They run when none waits for a task. *)
Lemma add_listener_accept l nd c evs :
  listeners nd = [] -> accept_inv nd c evs -> accept_inv (Node_add_listener l nd).2 c evs.
Proof.
  unfold Node_add_listener. intros Hl [[Hnd Hin] Ha]. case_bool_decide as Hd; [by split|].
  split; [|done]. unfold labels_inv, covered in *. rewrite Hl in *. simpl in *.
  split; [constructor; [by rewrite Hin|done]|set_solver].
Qed.

Lemma remove_listener_accept label nd c evs :
  listeners nd = [] -> accept_inv nd c evs ->
  let '(_, nd', c', evs') := Node_remove_listener label nd c in accept_inv nd' c' (evs ++ evs').
Proof.
  unfold Node_remove_listener. intros Hl [[Hnd Hin] Ha].
  case_bool_decide as Hd; [|by rewrite app_nil_r]. simpl. split.
  - unfold labels_inv, covered in *. rewrite Hl in *. simpl in *. split.
    + eapply sublist_NoDup; [exact Hnd|]. apply fmap_sublist, sublist_filter.
    + intros x. rewrite elem_of_difference, <- Hin, !list_elem_of_fmap.
      setoid_rewrite list_elem_of_filter. set_solver.
  - apply accounted_abort with (nc_accept_tasks c); [|done]. apply (filter_split (fun t => at_label t = label)).
Qed.

Lemma handle_accept env msg nd c evs :
  listeners nd = [] -> accept_inv nd c evs ->
  let '(_, nd', c', evs') := Node_handle display env msg nd c in accept_inv nd' c' (evs ++ evs').
Proof.
  intros Hl Hi. destruct msg; simpl;
    try (apply (accept_inv_frame nd c); [done|by constructor|done]).
  - pose proof (add_listener_accept listener nd c evs Hl Hi) as H.
    destruct (Node_add_listener listener nd). by rewrite app_nil_r.
  - pose proof (remove_listener_accept label nd c evs Hl Hi) as H.
    by destruct (Node_remove_listener label nd c) as [[[? ?] ?] ?].
  - unfold Node_connect. destruct connected as [endpoint|e]; [|by rewrite app_nil_r].
    pose proof (create_session_frame env endpoint session_label nd c) as H.
    destruct (Node_create_session env endpoint session_label c nd) as [[r nd'] evs'].
    destruct H as [Hs Hq]. by apply (accept_inv_frame nd c).
  - pose proof (supervise_frame env event nd c) as H. destruct (Node_supervise env event nd).
    destruct H as [Hs Hq]. by apply (accept_inv_frame nd c).
  - apply (accept_inv_frame nd c); [by destruct signal|by constructor|done].
Qed.

Lemma sync_accept nd c evs :
  accept_inv nd c evs ->
  let '(nd', c', evs') := NodeContext_sync_tasks nd c in
  accept_inv nd' c' (evs ++ evs') /\ listeners nd' = [].
Proof.
  intros [Hl Ha]. rewrite sync_tasks_spec by done.
  split; [split; [|by apply accounted_spawn]|done].
  revert Hl. unfold labels_inv, covered. simpl.
  assert (at_label <$> nc_accept_tasks c ++ ((fun l => mkAcceptTask (local_endpoint l) l) <$> listeners nd)
          ≡ₚ (local_endpoint <$> listeners nd) ++ (at_label <$> nc_accept_tasks c)) as Hp.
  { rewrite fmap_app, <- list_fmap_compose, Permutation_app_comm. done. }
  by setoid_rewrite Hp.
Qed.

(** A task that ended is replaced, or given up with its label. *)
Lemma recv_accept i nd c evs e nd' c' evs' :
  listeners nd = [] -> accept_inv nd c evs ->
  NodeContext_recv_or_accept i nd c = Some (e, nd', c', evs') ->
  accept_inv nd' c' (evs ++ evs') /\ listeners nd' = [].
Proof.
  intros Hl [[Hnd Hin] Ha] Hr. unfold labels_inv, covered in *. rewrite Hl in *. simpl in *.
  destruct i as [msg|index r|index]; simpl in Hr; simplify_eq.
  - rewrite app_nil_r. by split; [split; [unfold labels_inv, covered; rewrite Hl|]|].
  - destruct (nc_accept_tasks c !! index) as [t|] eqn:Et; simplify_eq/=.
    pose proof (delete_Permutation _ _ _ Et) as Hp. split; [split|done].
    + unfold labels_inv, covered. simpl. rewrite Hl. simpl.
      assert (at_label <$> delete index (nc_accept_tasks c) ++ [mkAcceptTask (at_label t) (at_listener t)]
              ≡ₚ at_label <$> nc_accept_tasks c) as Hq.
      { rewrite fmap_app, Permutation_app_comm. simpl. by rewrite Hp at 2. }
      by setoid_rewrite Hq.
    + unfold accounted in *. rewrite ev_accepting_app, ev_over_app, Ha. simpl. rewrite fmap_app. simpl.
      rewrite Hp at 1. simpl. by rewrite <- !app_assoc.
  - destruct (nc_accept_tasks c !! index) as [t|] eqn:Et; simplify_eq/=.
    pose proof (delete_Permutation _ _ _ Et) as Hp. split; [split|done].
    + unfold labels_inv, covered. simpl. rewrite Hl. simpl. rewrite Hp in Hnd. simpl in Hnd.
      apply NoDup_cons in Hnd as [Ht Hnd]. split; [done|]. intros x.
      rewrite elem_of_difference, <- Hin. rewrite Hp at 2. simpl. set_solver.
    + unfold accounted in *. rewrite ev_accepting_app, ev_over_app, Ha. simpl.
      rewrite app_nil_r. rewrite Hp at 1. simpl. by rewrite <- app_assoc.
Qed.

Lemma on_event_accept env e nd c evs :
  listeners nd = [] -> accept_inv nd c evs ->
  let '(nd', c', evs') := NodeContext_on_event display env e nd c in accept_inv nd' c' (evs ++ evs').
Proof.
  intros Hl Hi. destruct e as [[msg|]|[endpoint|e] label|label]; simpl;
    try (apply (accept_inv_frame nd c); [done|by constructor|done]).
  - assert (accept_inv nd c (evs ++ [EffHandled msg])) as Hi'.
    { apply (accept_inv_frame nd c); [done|by repeat constructor|done]. }
    pose proof (handle_accept env msg nd c _ Hl Hi') as H.
    destruct (Node_handle display env msg nd c) as [[[a nd'] c'] evs']. by rewrite <- app_assoc in H.
  - pose proof (create_session_frame env endpoint None nd c) as H.
    destruct (Node_create_session env endpoint None c nd) as [[r nd'] evs'].
    destruct H as [Hs Hq]. by apply (accept_inv_frame nd c).
Qed.

Lemma turn_accept env i nd c evs :
  accept_inv nd c evs ->
  let '(nd', c', evs') := NodeContext_turn display env i nd c in accept_inv nd' c' (evs ++ evs').
Proof.
  intros Hi. unfold NodeContext_turn. pose proof (sync_accept nd c evs Hi) as Hs.
  destruct (NodeContext_sync_tasks nd c) as [[nd1 c1] evs1]. destruct Hs as [Hs Hl].
  destruct (NodeContext_recv_or_accept i nd1 c1) as [[[[e nd2] c2] evs2]|] eqn:Er; [|done].
  destruct (recv_accept i nd1 c1 _ e nd2 c2 evs2 Hl Hs Er) as [H2 Hl2].
  pose proof (on_event_accept env e nd2 c2 _ Hl2 H2) as H3.
  destruct (NodeContext_on_event display env e nd2 c2) as [[nd3 c3] evs3]. by rewrite <- !app_assoc in H3.
Qed.

(** C39. The tasks that accept connections follow the listeners exactly. Whatever is built
    and whatever arrives: when the loop waits, there is one accept task for each label the
    node listens on and no other; every task that was ever spawned is running or was
    aborted or is over; and once the loop has returned, always without an error, none is
    running. *)
Theorem accept_tasks_exact nd0 env0 label index inputs (Hb : node_built nd0) :
  let '(r, nd, c, evs) := node_run display nd0 env0 label index inputs in
  ev_accepting evs ≡ₚ ev_accept_over evs ++ (at_listener <$> nc_accept_tasks c) /\
  match r with
  | None => listeners nd = [] /\
      at_label <$> nc_accept_tasks c ≡ₚ elements (listener_labels nd)
  | Some r => r = Ok tt /\ nc_accept_tasks c = []
  end.
Proof.
  unfold node_run. simpl. set (nd1 := mkNode _ _ _ _ _ _ _ _ _). set (c1 := NodeContext_set_state _ _).
  set (evs1 := [EffStartMgr _ _]).
  assert (accept_inv nd1 c1 evs1) as Hi by (split; [by apply (built_labels nd0 c1)|by unfold accounted]).
  clearbody nd1 c1 evs1. clear nd0 Hb.
  revert nd1 c1 evs1 Hi. induction inputs as [|[env i] inputs IH]; intros nd c evs Hi; cbn [NodeContext_run_loop].
  - case_bool_decide as Hs.
    + pose proof (sync_accept nd c evs Hi) as H.
      destruct (NodeContext_sync_tasks nd c) as [[nd' c'] evs'].
      destruct H as [[[Hnd Hin] Ha] Hl]. split_and!; [exact Ha|done|].
      unfold covered in *. rewrite Hl in *. simpl in *.
      apply NoDup_Permutation; [done|apply NoDup_elements|]. intros x. by rewrite elem_of_elements.
    + split; [|done]. apply (accounted_abort_all evs _ (proj2 Hi)).
  - case_bool_decide as Hs.
    + pose proof (turn_accept env i nd c evs Hi) as H.
      destruct (NodeContext_turn display env i nd c) as [[nd' c'] evs']. by apply IH.
    + split; [|done]. apply (accounted_abort_all evs _ (proj2 Hi)).
Qed.
End AcceptTasks.

(** ** Sessions *)

Section Sessions.
#[local] Set Default Proof Using "All".
Context (display : ActorId -> string) (self mgr : ActorId).
Implicit Types (used : gset ActorId) (evs : list NodeEffect).

Definition registered nd (a : ActorId) : Prop := is_Some (primary (sessions nd) !! a).

Definition reported_terminated evs (a : ActorId) : Prop :=
  exists e, EffHandled (NodeSupervision (SupTerminated a e)) ∈ evs.

(** The invariant of the sessions; [used] are the indices taken so far. *)
Record sess_inv nd used evs : Prop := MkSessInv {
  si_sync : Inv (sessions nd);
  si_key a l v : primary (sessions nd) !! a = Some (l, v) -> v = a;
  si_mgr : nd_actor_mgr nd = Some mgr;
  si_children r : is_Some (children nd !! r) <-> r = mkRecipient mgr \/ registered nd (rcp_index r);
  si_used a : a = self \/ a = mgr \/ registered nd a -> a ∈ used;
  si_created ch : EffSession ch ∈ evs ->
    sc_supervisor ch = Some (mkRecipient self) /\
    (registered nd (sc_doorplate ch) \/ reported_terminated evs (sc_doorplate ch));
}.

(** What has the same sessions. *)
Definition same_sessions nd nd' : Prop :=
  sessions nd' = sessions nd /\ children nd' = children nd /\ nd_actor_mgr nd' = nd_actor_mgr nd.

Lemma sess_inv_frame nd nd' used used' evs evs' :
  same_sessions nd nd' -> used ⊆ used' -> (forall ch, EffSession ch ∉ evs') ->
  sess_inv nd used evs -> sess_inv nd' used' (evs ++ evs').
Proof.
  intros (Hs & Hc & Hm) Hu Hev [H1 H2 H3 H4 H5 H6].
  constructor; unfold registered in *; rewrite ?Hs, ?Hc, ?Hm; [done..| |].
  - intros a Ha. by apply Hu, H5.
  - intros ch [Hin|Hin]%elem_of_app; [|by apply Hev in Hin]. destruct (H6 ch Hin) as [? [?|[e He]]].
    + by split; [|left].
    + split; [done|]. right. exists e. apply elem_of_app. by left.
Qed.

Lemma sess_inv_used nd used used' evs : used ⊆ used' -> sess_inv nd used evs -> sess_inv nd used' evs.
Proof. intros Hu [H1 H2 H3 H4 H5 H6]. constructor; [done..| |done]. intros a Ha. by apply Hu, H5. Qed.

Lemma notify_sessions env event nd :
  let (nd', evs) := Node_notify env event nd in
  same_sessions nd nd' /\ (forall ch, EffSession ch ∉ evs).
Proof.
  unfold Node_notify. destruct (notify_observers _ _ _ _ _) as [sent o]. split; [done|]. set_solver.
Qed.

(** A session for an index that was never used: [sessions.insert] cannot fail, so ignoring
    its answer loses nothing. *)
Lemma create_session_cases env endpoint label c nd used evs :
  sess_inv nd used evs -> nc_doorplate c = self -> ActorId_new (env_fresh env) ∉ used ->
  let a := ActorId_new (env_fresh env) in
  let l := default endpoint label in
  let '(r, nd', evs') := Node_create_session env endpoint label c nd in
  (exists a', secondary (sessions nd) !! l = Some a' /\
     r = Err (CreateSessionFailed (session_label_exists l)) /\ nd' = nd /\ evs' = []) \/
  (secondary (sessions nd) !! l = None /\ r = Ok a /\
     sessions nd' = mkDoubleMap (<[a := (l, a)]> (primary (sessions nd)))
                      (<[l := a]> (secondary (sessions nd))) /\
     children nd' = <[mkRecipient a := a]> (children nd) /\
     nd_actor_mgr nd' = nd_actor_mgr nd /\
     exists ch evs'', evs' = EffSession ch :: evs'' /\ (forall ch, EffSession ch ∉ evs'') /\
       sc_doorplate ch = a /\ sc_supervisor ch = Some (mkRecipient self)).
Proof.
  intros Hi Hself Hfresh. unfold Node_create_session, DoubleMap_contains_key2.
  set (l := default endpoint label). set (a := ActorId_new (env_fresh env)) in *.
  destruct (hm_contains_key (secondary (sessions nd)) l) eqn:El.
  { left. destruct (proj1 (hm_contains_true _ _) El) as [a' Ha']. by exists a'. }
  apply (proj1 (hm_contains_false _ _)) in El.
  rewrite (si_mgr _ _ _ Hi). unfold Session_create. simpl. fold a.
  unfold SessionContext_set_supervisor. simpl. rewrite Hself.
  assert (a ≠ self) as Hne by (intros ->; apply Hfresh; apply (si_used _ _ _ Hi); by left).
  rewrite bool_decide_eq_false_2 by done. simpl.
  assert (primary (sessions nd) !! a = None) as Hp.
  { apply eq_None_not_Some. intros Hr. apply Hfresh, (si_used _ _ _ Hi). by right; right. }
  unfold DoubleMap_insert. rewrite Hp, (proj2 (hm_contains_false _ _) El). simpl.
  match goal with |- context [Node_notify ?e ?ev ?n] => pose proof (notify_sessions e ev n) as Hn;
    destruct (Node_notify e ev n) as [nd' evs'] end.
  destruct Hn as [(Hs & Hc & Hm) Hev]. simpl in *.
  right. split_and!; [done..|by rewrite Hm, (si_mgr _ _ _ Hi)|]. by eexists _, _.
Qed.

Lemma create_session_inv env endpoint label c nd used evs :
  sess_inv nd used evs -> nc_doorplate c = self -> ActorId_new (env_fresh env) ∉ used ->
  let '(_, nd', evs') := Node_create_session env endpoint label c nd in
  sess_inv nd' ({[ActorId_new (env_fresh env)]} ∪ used) (evs ++ evs').
Proof.
  intros Hi Hself Hfresh.
  pose proof (create_session_cases env endpoint label c nd used evs Hi Hself Hfresh) as Hc.
  destruct (Node_create_session env endpoint label c nd) as [[r nd'] evs']. simpl in Hc.
  destruct Hc as [(a' & _ & _ & -> & ->)|(El & _ & Hs & Hch & Hm & ch & evs'' & -> & Hq & Hd & Hsup)].
  { by apply (sess_inv_frame nd nd used); [| |set_solver|]; [|set_solver|]. }
  set (a := ActorId_new (env_fresh env)) in *. set (l := default endpoint label) in *.
  destruct Hi as [H1 H2 H3 H4 H5 H6].
  assert (primary (sessions nd) !! a = None) as Hp.
  { apply eq_None_not_Some. intros Hr. apply Hfresh, H5. by right; right. }
  constructor; unfold registered in *; rewrite ?Hs, ?Hch, ?Hm; simpl.
  - by apply Inv_add.
  - intros b l' v. destruct (decide (a = b)) as [<-|Hne]; simplify_map_eq; [naive_solver|apply H2].
  - done.
  - intros [b]. simpl. destruct (decide (a = b)) as [<-|Hne].
    + rewrite !lookup_insert_eq. naive_solver.
    + rewrite (lookup_insert_ne (children nd)), (lookup_insert_ne (primary _)) by naive_solver. apply H4.
  - intros b Hb. destruct (decide (a = b)) as [<-|Hne]; simplify_map_eq; [set_solver|].
    apply elem_of_union_r. by apply H5.
  - intros ch' [Hin|[Heq|Hin]%elem_of_cons]%elem_of_app.
    + destruct (H6 ch' Hin) as [? [Hr|[e He]]]; (split; [done|]).
      * left. destruct (decide (a = sc_doorplate ch')) as [<-|Hne]; by simplify_map_eq.
      * right. exists e. set_solver.
    + simplify_eq. split; [done|]. left. rewrite Hd. by simplify_map_eq.
    + by apply Hq in Hin.
Qed.

Lemma supervise_terminated env a e nd :
  (forall m, env_session_order env m ≡ₚ map_to_list m) -> Inv (sessions nd) ->
  (forall k l v, primary (sessions nd) !! k = Some (l, v) -> v = k) ->
  forall k, primary (sessions (Node_supervise env (SupTerminated a e) nd).1) !! k =
    if decide (k = a) then None else primary (sessions nd) !! k.
Proof.
  intros Ho Hi Hkey k. unfold Node_supervise.
  pose proof (retain_pure (fun _ _ v => bool_decide (v ≠ a)) (env_session_order env (primary (sessions nd)))
                (sessions nd) k Hi (Ho _)) as Hr.
  destruct (DoubleMap_retain _ _ _ _) as [s u]. simpl in Hr.
  match goal with |- context [Node_notify ?e ?ev ?n] => pose proof (notify_sessions e ev n) as Hn;
    destruct (Node_notify e ev n) as [nd' evs'] end.
  destruct Hn as [(Hs & _ & _) _]. simpl in *. rewrite Hs. simpl. rewrite Hr.
  destruct (primary (sessions nd) !! k) as [[l v]|] eqn:Ek; simpl; [|by case_decide].
  rewrite (Hkey k l v Ek) in *. case_bool_decide; by case_decide.
Qed.

Lemma supervise_inv env event nd used evs :
  sess_inv nd used evs -> (forall m, env_session_order env m ≡ₚ map_to_list m) ->
  (forall a e, event = SupTerminated a e -> a ≠ mgr) ->
  EffHandled (NodeSupervision event) ∈ evs ->
  let (nd', evs') := Node_supervise env event nd in sess_inv nd' used (evs ++ evs').
Proof.
  intros Hi Ho Hmgr Hev. unfold Node_supervise.
  destruct event as [? ?|a e|? ?|? ?]; try (by apply (sess_inv_frame nd nd used); [| |set_solver|]).
  pose proof (supervise_terminated env a e nd Ho (si_sync _ _ _ Hi) (si_key _ _ _ Hi)) as Hs.
  unfold Node_supervise in Hs.
  pose proof (retain_Inv (fun (_ : unit) (_ : ActorId) (_ : string) v => (bool_decide (v ≠ a), v, tt))
                (env_session_order env (primary (sessions nd))) tt (sessions nd)
                (si_sync _ _ _ Hi) (Ho _)) as Hinv.
  destruct (DoubleMap_retain _ _ _ _) as [s u]. simpl in *.
  match goal with |- context [Node_notify ?e ?ev ?n] => pose proof (notify_sessions e ev n) as Hn;
    destruct (Node_notify e ev n) as [nd' evs'] end.
  destruct Hn as [Hsame Hq]. eapply sess_inv_frame; [exact Hsame|done|done|].
  simpl in Hs. rewrite (proj1 Hsame) in Hs. simpl in Hs.
  destruct Hi as [H1 H2 H3 H4 H5 H6]. unfold registered in *.
  constructor; unfold registered; simpl; try setoid_rewrite Hs; [done| |done| | |].
  - intros k l v. case_decide; [done|apply H2].
  - intros [k]. simpl. destruct (decide (k = a)) as [->|Hne].
    + rewrite lookup_delete_eq. split; [by intros [? ?]|].
      intros [?|[? ?]]; [|done]. exfalso. apply (Hmgr a e); [done|congruence].
    + rewrite lookup_delete_ne by naive_solver. apply H4.
  - intros k Hk. apply H5. destruct (decide (k = a)); [|done].
    destruct Hk as [?|[?|[? ?]]]; [by left|by right; left|done].
  - intros ch Hch. destruct (H6 ch Hch) as [? Hor]. split; [done|].
    case_decide as Ha; [|done]. right. exists e. by rewrite Ha.
Qed.

(** What the model asks of an input: the sessions are visited in some order of the map, and
    an event about a session is not about the manager. *)
Definition input_ok (p : NodeEnv * NodeInput) : Prop :=
  (forall m, env_session_order p.1 m ≡ₚ map_to_list m) /\
  forall a e, p.2 = NInEnvelope (Some (NodeSupervision (SupTerminated a e))) -> a ≠ mgr.

Lemma handle_inv env msg nd c used evs :
  sess_inv nd used evs -> nc_doorplate c = self -> ActorId_new (env_fresh env) ∉ used ->
  input_ok (env, NInEnvelope (Some msg)) -> EffHandled msg ∈ evs ->
  let '(_, nd', c', evs') := Node_handle display env msg nd c in
  sess_inv nd' ({[ActorId_new (env_fresh env)]} ∪ used) (evs ++ evs') /\ nc_doorplate c' = self.
Proof.
  intros Hi Hself Hfresh [Ho Hok] Hev.
  assert (forall nd' evs', same_sessions nd nd' -> (forall ch, EffSession ch ∉ evs') ->
    sess_inv nd' ({[ActorId_new (env_fresh env)]} ∪ used) (evs ++ evs')) as Hframe.
  { intros nd' evs' Hs Hq. apply (sess_inv_frame nd nd' used); [done|set_solver|done|done]. }
  destruct msg; simpl; try (split; [by apply Hframe; [|set_solver]|done]).
  - unfold Node_add_listener. case_bool_decide; (split; [by apply Hframe; [|set_solver]|done]).
  - unfold Node_remove_listener. case_bool_decide; simpl; (split; [|done]); apply Hframe; try done.
    + intros ch (t & ? & _)%list_elem_of_fmap. done.
    + set_solver.
  - unfold Node_connect. destruct connected as [endpoint|e];
      [|split; [by apply Hframe; [|set_solver]|done]].
    pose proof (create_session_inv env endpoint session_label c nd used evs Hi Hself Hfresh) as H.
    by destruct (Node_create_session env endpoint session_label c nd) as [[r nd'] evs'].
  - pose proof (supervise_inv env event nd used evs Hi Ho) as H.
    destruct (Node_supervise env event nd) as [nd' evs']. split; [|done].
    apply (sess_inv_used nd' used); [set_solver|].
    apply H; [|done]. intros a e ->. by apply (Hok a e).
  - split; [by apply Hframe; [|set_solver]|]. by destruct signal.
Qed.

Lemma on_event_inv env e nd c used evs :
  sess_inv nd used evs -> nc_doorplate c = self -> ActorId_new (env_fresh env) ∉ used ->
  (forall msg, e = LoopEnvelope (Some msg) -> input_ok (env, NInEnvelope (Some msg))) ->
  let '(nd', c', evs') := NodeContext_on_event display env e nd c in
  sess_inv nd' ({[ActorId_new (env_fresh env)]} ∪ used) (evs ++ evs') /\ nc_doorplate c' = self.
Proof.
  intros Hi Hself Hfresh Hok.
  assert (sess_inv nd ({[ActorId_new (env_fresh env)]} ∪ used) (evs ++ [])) as Hsame.
  { rewrite app_nil_r. apply (sess_inv_used nd used); [set_solver|done]. }
  destruct e as [[msg|]|[endpoint|e] label|label]; simpl; try done.
  - assert (sess_inv nd used (evs ++ [EffHandled msg])) as Hi'.
    { by apply (sess_inv_frame nd nd used); [| |set_solver|]. }
    pose proof (handle_inv env msg nd c used _ Hi' Hself Hfresh (Hok msg eq_refl)) as H.
    destruct (Node_handle display env msg nd c) as [[[a nd'] c'] evs'].
    rewrite <- app_assoc in H. apply H. set_solver.
  - pose proof (create_session_inv env endpoint None c nd used evs Hi Hself Hfresh) as H.
    by destruct (Node_create_session env endpoint None c nd) as [[r nd'] evs'].
Qed.

Lemma turn_inv env i nd c used evs :
  sess_inv nd used evs -> nc_doorplate c = self -> ActorId_new (env_fresh env) ∉ used ->
  input_ok (env, i) ->
  let '(nd', c', evs') := NodeContext_turn display env i nd c in
  sess_inv nd' ({[ActorId_new (env_fresh env)]} ∪ used) (evs ++ evs') /\ nc_doorplate c' = self.
Proof.
  intros Hi Hself Hfresh Hok. unfold NodeContext_turn.
  destruct (NodeContext_sync_tasks nd c) as [[nd1 c1] evs1] eqn:Es.
  assert (sess_inv nd1 used (evs ++ evs1) /\ nc_doorplate c1 = self) as [Hi1 Hself1].
  { unfold NodeContext_sync_tasks in Es. simplify_eq. split; [|done].
    apply (sess_inv_frame nd _ used); [done|done| |done].
    intros ch. rewrite elem_of_app, !list_elem_of_fmap. naive_solver. }
  destruct (NodeContext_recv_or_accept i nd1 c1) as [[[[e nd2] c2] evs2]|] eqn:Er;
    [|split; [by apply (sess_inv_used _ used); [set_solver|]|done]].
  assert ((sess_inv nd2 used ((evs ++ evs1) ++ evs2) /\ nc_doorplate c2 = self) /\
          (forall msg, e = LoopEnvelope (Some msg) -> i = NInEnvelope (Some msg))) as [[Hi2 Hself2] He].
  { destruct i as [msg|index r|index]; simpl in Er.
    - simplify_eq. by rewrite app_nil_r; split; [|naive_solver].
    - destruct (nc_accept_tasks c1 !! index); simplify_eq/=.
      split; [split; [|done]|done]. by apply (sess_inv_frame nd2 _ used); [| |set_solver|].
    - destruct (nc_accept_tasks c1 !! index); simplify_eq/=.
      split; [split; [|done]|done]. by apply (sess_inv_frame nd1 _ used); [| |set_solver|]. }
  pose proof (on_event_inv env e nd2 c2 used _ Hi2 Hself2 Hfresh) as H.
  destruct (NodeContext_on_event display env e nd2 c2) as [[nd3 c3] evs3].
  rewrite <- !app_assoc in H. apply H. intros msg Hm. by rewrite <- (He msg Hm).
Qed.

Lemma loop_inv inputs nd c used evs :
  sess_inv nd used evs -> nc_doorplate c = self ->
  NoDup ((fun p => env_fresh p.1) <$> inputs) ->
  (forall p, p ∈ inputs -> ActorId_new (env_fresh p.1) ∉ used) -> Forall input_ok inputs ->
  let '(_, nd', c', evs') := NodeContext_run_loop display inputs nd c evs in
  exists used', sess_inv nd' used' evs' /\ nc_doorplate c' = self /\
    forall a, a ∈ used' -> a ∈ used \/ exists p, p ∈ inputs /\ a = ActorId_new (env_fresh p.1).
Proof.
  revert nd c used evs. induction inputs as [|[env i] inputs IH]; intros nd c used evs Hi Hself Hnd Hfr Hok;
    cbn [NodeContext_run_loop].
  - case_bool_decide as Hs.
    + unfold NodeContext_sync_tasks. exists used. split_and!; [|done|by left].
      apply (sess_inv_frame nd _ used); [done|done| |done].
      intros ch. rewrite elem_of_app, !list_elem_of_fmap. naive_solver.
    + exists used. split_and!; [|done|by left]. apply (sess_inv_frame nd _ used); [done|done| |done].
      intros ch. rewrite list_elem_of_fmap. naive_solver.
  - case_bool_decide as Hs.
    + apply Forall_cons in Hok as [Hok1 Hok]. apply NoDup_cons in Hnd as [Hnin Hnd].
      pose proof (turn_inv env i nd c used evs Hi Hself (Hfr (env, i) ltac:(left)) Hok1) as H.
      destruct (NodeContext_turn display env i nd c) as [[nd' c'] evs']. destruct H as [H Hself'].
      assert (forall p, p ∈ inputs -> ActorId_new (env_fresh p.1) ∉ {[ActorId_new (env_fresh env)]} ∪ used) as Hfr'.
      { intros p Hp. apply not_elem_of_union. split; [|by apply Hfr; right].
        rewrite elem_of_singleton. intros [=Heq]. apply Hnin. simpl. rewrite <- Heq.
        by apply (list_elem_of_fmap_2 (fun p => env_fresh p.1)). }
      specialize (IH nd' c' _ _ H Hself' Hnd Hfr' Hok).
      destruct (NodeContext_run_loop display inputs nd' c' (evs ++ evs')) as [[[r nd2] c2] evs2].
      destruct IH as (used' & Hu & Hc & Hor). exists used'. split_and!; [done..|].
      intros a Ha. destruct (Hor a Ha) as [[->%elem_of_singleton|?]%elem_of_union|(p & Hp & ->)];
        [right; exists (env, i); by split; [left|]|by left|].
      right. exists p. by split; [right|].
    + exists used. split_and!; [|done|by left]. apply (sess_inv_frame nd _ used); [done|done| |done].
      intros ch. rewrite list_elem_of_fmap. naive_solver.
Qed.

(** A node as [run_loop] finds it, when the indices handed out since are all different. *)
Lemma started_inv nd0 env0 :
  node_built nd0 -> mgr = ActorId_new (env_fresh env0) ->
  let '(_, nd1, evs1) := Node_post_start env0 nd0 in sess_inv nd1 {[self; mgr]} evs1.
Proof.
  intros Hb Hmgr. simpl. rewrite <- Hmgr.
  assert (sessions nd0 = DoubleMap_new /\ children nd0 = ∅) as [Hs Hc].
  { induction Hb as [|l nd Hb IH|label a nd Hb IH|t f nd Hb IH]; [done| | |].
    - unfold Node_with_listener. by case_bool_decide.
    - unfold Node_with_actor. repeat case_match; simpl; tauto.
    - unfold Node_with_factory. case_match; simpl; tauto. }
  constructor; unfold registered; simpl; rewrite ?Hs, ?Hc; simpl.
  - apply Inv_empty.
  - intros a l v. by rewrite lookup_empty.
  - done.
  - intros [r]. simpl. rewrite lookup_empty. destruct (decide (r = mgr)) as [->|Hne].
    + rewrite lookup_insert_eq. naive_solver.
    + rewrite lookup_insert_ne, lookup_empty by naive_solver.
      split; [by intros [? ?]|]. intros [?|[? ?]]; [congruence|done].
  - intros a. rewrite lookup_empty. intros [?|[?|[? ?]]]; set_solver.
  - intros ch Hin. set_solver.
Qed.
End Sessions.

Section SessionTheorems.
Context (display : ActorId -> string).

(** Everything the theorems ask of a run: the indices handed out are all different. *)
Definition run_ok (index : Z) env0 (inputs : list (NodeEnv * NodeInput)) : Prop :=
  NoDup (index :: env_fresh env0 :: ((fun p => env_fresh p.1) <$> inputs)) /\
  Forall (input_ok (ActorId_new (env_fresh env0))) inputs.

Lemma run_inv nd0 env0 label index inputs :
  node_built nd0 -> run_ok index env0 inputs ->
  let '(_, nd, c, evs) := node_run display nd0 env0 label index inputs in
  exists used, sess_inv (ActorId_new index) (ActorId_new (env_fresh env0)) nd used evs /\
    nc_doorplate c = ActorId_new index /\
    forall i, ActorId_new i ∈ used -> i ∈ index :: env_fresh env0 :: ((fun p => env_fresh p.1) <$> inputs).
Proof.
  intros Hb [Hnd Hok]. apply NoDup_cons in Hnd as [Hself Hnd]. apply NoDup_cons in Hnd as [Hmgr Hnd].
  pose proof (started_inv display (ActorId_new index) (ActorId_new (env_fresh env0)) nd0 env0 Hb eq_refl) as Hi.
  unfold node_run. destruct (Node_post_start env0 nd0) as [[r nd1] evs1].
  set (c1 := NodeContext_set_state _ _).
  pose proof (loop_inv display (ActorId_new index) (ActorId_new (env_fresh env0)) inputs nd1 c1 _ evs1 Hi) as H.
  assert (forall p, p ∈ inputs ->
    ActorId_new (env_fresh p.1) ∉ ({[ActorId_new index; ActorId_new (env_fresh env0)]} : gset ActorId)) as Hfr.
  { intros p Hp. pose proof (list_elem_of_fmap_2 (fun p => env_fresh p.1) _ _ Hp) as Hin.
    unfold ActorId_new. rewrite elem_of_union, !elem_of_singleton. simpl in Hin.
    intros [Heq|Heq]; injection Heq as Heq; rewrite Heq in Hin;
      [apply Hself; by right|by apply Hmgr]. }
  specialize (H eq_refl Hnd Hfr Hok).
  destruct (NodeContext_run_loop display inputs nd1 c1 evs1) as [[[res nd] c] evs].
  destruct H as (used & Hu & Hc & Hor). exists used. split_and!; [done..|].
  intros i Hin. destruct (Hor _ Hin) as [Hs|(p & Hp & Heq)].
  - unfold ActorId_new in Hs. set_unfold in Hs. destruct Hs; simplify_eq; set_solver.
  - unfold ActorId_new in Heq. simplify_eq. right; right. by apply (list_elem_of_fmap_2 (fun p => env_fresh p.1)).
Qed.

Lemma get_session_index nd a :
  Node_get_session display (ActorRefIndex a) nd =
    match primary (sessions nd) !! a with
    | Some (_, v) => Ok v
    | None => Err (SessionNotFound (display a))
    end.
Proof.
  unfold Node_get_session, DoubleMap_get_by_key1.
  by destruct (primary (sessions nd) !! a) as [[l v]|].
Qed.

Lemma get_session_label nd l a :
  Inv (sessions nd) -> primary (sessions nd) !! a = Some (l, a) ->
  Node_get_session display (ActorRefLabel l) nd = Ok a.
Proof.
  intros Hi Hp. unfold Node_get_session, DoubleMap_get_by_key2.
  rewrite (Inv_ps _ _ _ _ Hi Hp). simpl. by rewrite Hp.
Qed.

(** C15. No session is lost. Whatever the node is told and whoever connects: every session
    it ever created has the node as its supervisor, and until that session was reported
    terminated it is found by its index and by its label, and is among the children that
    [post_stop] will terminate; those children are the sessions and the manager, nothing
    else. In particular [sessions.insert], whose answer is ignored, never fails. *)
Theorem sessions_registered nd0 env0 label index inputs
    (Hb : node_built nd0) (Hrun : run_ok index env0 inputs) :
  let '(_, nd, c, evs) := node_run display nd0 env0 label index inputs in
  (forall ch, EffSession ch ∈ evs ->
    sc_supervisor ch = Some (mkRecipient (nc_doorplate c)) /\
    ((exists e, EffHandled (NodeSupervision (SupTerminated (sc_doorplate ch) e)) ∈ evs) \/
     Node_get_session display (ActorRefIndex (sc_doorplate ch)) nd = Ok (sc_doorplate ch) /\
     exists l, Node_get_session display (ActorRefLabel l) nd = Ok (sc_doorplate ch))) /\
  (forall r, is_Some (children nd !! r) <->
    r = mkRecipient (ActorId_new (env_fresh env0)) \/
    Node_get_session display (ActorRefIndex (rcp_index r)) nd = Ok (rcp_index r)).
Proof.
  pose proof (run_inv nd0 env0 label index inputs Hb Hrun) as H.
  destruct (node_run display nd0 env0 label index inputs) as [[[res nd] c] evs].
  destruct H as (used & [H1 H2 H3 H4 H5 H6] & Hc & _). rewrite Hc. unfold registered in *. split.
  - intros ch Hch. destruct (H6 ch Hch) as [Hs [[[l v] Hp]|Ht]]; (split; [done|]); [right|by left].
    pose proof (H2 _ _ _ Hp) as ->. rewrite get_session_index, Hp.
    split; [done|]. exists l. by apply get_session_label.
  - intros [a]. rewrite H4, get_session_index. simpl. f_equiv.
    destruct (primary (sessions nd) !! a) as [[l v]|] eqn:Ep; [|split; [by intros [? ?]|done]].
    pose proof (H2 _ _ _ Ep) as ->. by split.
Qed.

(** C40. The label of a session is free again once the session is reported terminated, and
    only then: a new session under the label is refused before, and replaces it after. The
    report of a session that panicked changes nothing, so its label stays taken and its
    dead address is still handed out. *)
Theorem session_label_freed nd0 env0 label index inputs env endpoint l a info e
    (Hb : node_built nd0) (Hrun : run_ok index env0 inputs)
    (Hnew : env_fresh env ∉ index :: env_fresh env0 :: ((fun p => env_fresh p.1) <$> inputs))
    (Ho : forall m, env_session_order env m ≡ₚ map_to_list m) res nd c evs
    (Hend : node_run display nd0 env0 label index inputs = (res, nd, c, evs))
    (Hmgr : a ≠ ActorId_new (env_fresh env0))
    (Hl : Node_get_session display (ActorRefLabel l) nd = Ok a) :
  let fresh := ActorId_new (env_fresh env) in
  Node_create_session env endpoint (Some l) c nd =
    (Err (CreateSessionFailed (session_label_exists l)), nd, []) /\
  Node_supervise env (SupPanicked a info) nd = (nd, []) /\
  (let (nd', _) := Node_supervise env (SupTerminated a e) nd in
   Node_get_session display (ActorRefIndex a) nd' = Err (SessionNotFound (display a)) /\
   let '(r, nd'', _) := Node_create_session env endpoint (Some l) c nd' in
   r = Ok fresh /\ Node_get_session display (ActorRefLabel l) nd'' = Ok fresh).
Proof.
  pose proof (run_inv nd0 env0 label index inputs Hb Hrun) as H.
  rewrite Hend in H.
  destruct H as (used & Hi & Hc & Hused). intros fresh.
  assert (fresh ∉ used) as Hfresh by (intros Hin%Hused; done).
  assert (secondary (sessions nd) !! l = Some a) as Hsec.
  { unfold Node_get_session, DoubleMap_get_by_key2 in Hl.
    destruct (secondary (sessions nd) !! l) as [k|] eqn:Es; [|done]. simpl in Hl.
    destruct (primary (sessions nd) !! k) as [[l' v]|] eqn:Ep; simplify_eq/=.
    by rewrite (si_key _ _ _ _ _ Hi _ _ _ Ep). }
  split_and!; [|done|].
  { unfold Node_create_session, DoubleMap_contains_key2. simpl.
    by rewrite (proj2 (hm_contains_true _ _) (ex_intro _ _ Hsec)). }
  set (event := SupTerminated a e).
  assert (sess_inv (ActorId_new index) (ActorId_new (env_fresh env0)) nd used
            (evs ++ [EffHandled (NodeSupervision event)])) as Hi'.
  { by apply (sess_inv_frame display _ _ nd nd used); [| |set_solver|]. }
  pose proof (supervise_inv display _ _ env event nd used _ Hi' Ho) as Hs.
  pose proof (supervise_terminated display (ActorId_new index) (ActorId_new (env_fresh env0))
    env a e nd Ho (si_sync _ _ _ _ _ Hi) (si_key _ _ _ _ _ Hi)) as Ht.
  fold event in Ht. destruct (Node_supervise env event nd) as [nd' evs']. simpl in Ht.
  specialize (Hs ltac:(naive_solver) ltac:(set_solver)).
  pose proof (create_session_cases display _ _ env endpoint (Some l) c nd' used _ Hs Hc Hfresh) as Hcr.
  rewrite get_session_index, (Ht a), decide_True by done. split; [done|].
  destruct (Node_create_session env endpoint (Some l) c nd') as [[r' nd''] evs'']. simpl in Hcr.
  destruct Hcr as [(b & Hb' & _)|(Hf & -> & Hs'' & _)].
  - exfalso. apply (Inv_sp _ _ _ (si_sync _ _ _ _ _ Hs)) in Hb' as [v Hv]. rewrite Ht in Hv.
    case_decide; [done|]. apply (Inv_ps _ _ _ _ (si_sync _ _ _ _ _ Hi)) in Hv. congruence.
  - split; [done|]. unfold Node_get_session, DoubleMap_get_by_key2. rewrite Hs''. simpl.
    rewrite lookup_insert_eq. simpl. by rewrite lookup_insert_eq.
Qed.
End SessionTheorems.

(** ** Concrete runs *)

Section Runs.

Definition w_env (fresh : Z) : NodeEnv :=
  mkNodeEnv fresh (fun _ => Ok tt) (fun _ => false) elements map_to_list.

Definition w_display (a : ActorId) : string := "id".

(** A node with two listeners, the second of which replaces a first one. *)
Definition w_node : Node :=
  Node_with_listener (mkIpcListener 2 "b") (Node_with_listener (mkIpcListener 1 "b")
    (Node_with_listener (mkIpcListener 0 "a") Node_new)).

(** Two connections, one of them under a label, a listener removed, a session ended. *)
Definition w_inputs : list (NodeEnv * NodeInput) :=
  [(w_env 2, NInAccepted 0 (Ok "peer"));
   (w_env 3, NInEnvelope (Some (Connect (Ok "server") (Some "main"))));
   (w_env 4, NInEnvelope (Some (RemoveListener "a")));
   (w_env 5, NInEnvelope (Some (NodeSupervision (SupTerminated (ActorId_new 2) None))))].

Lemma w_built : node_built w_node.
Proof. repeat constructor. Qed.

Lemma w_run_ok : run_ok 0 (w_env 1) w_inputs.
Proof.
  split; [by apply (bool_decide_unpack _); vm_compute|].
  repeat constructor; simpl; try done; intros a e Heq; by simplify_eq.
Qed.

Lemma accept_tasks_exact_witness :
  let '(r, nd, c, evs) := node_run w_display w_node (w_env 1) "node" 0 w_inputs in
  ev_accepting evs ≡ₚ ev_accept_over evs ++ (at_listener <$> nc_accept_tasks c) /\
  match r with
  | None => listeners nd = [] /\
      at_label <$> nc_accept_tasks c ≡ₚ elements (listener_labels nd)
  | Some r => r = Ok tt /\ nc_accept_tasks c = []
  end.
Proof. exact (accept_tasks_exact w_display w_node (w_env 1) "node" 0 w_inputs w_built). Defined.

Lemma sessions_registered_witness :
  let '(_, nd, c, evs) := node_run w_display w_node (w_env 1) "node" 0 w_inputs in
  (forall ch, EffSession ch ∈ evs ->
    sc_supervisor ch = Some (mkRecipient (nc_doorplate c)) /\
    ((exists e, EffHandled (NodeSupervision (SupTerminated (sc_doorplate ch) e)) ∈ evs) \/
     Node_get_session w_display (ActorRefIndex (sc_doorplate ch)) nd = Ok (sc_doorplate ch) /\
     exists l, Node_get_session w_display (ActorRefLabel l) nd = Ok (sc_doorplate ch))) /\
  (forall r, is_Some (children nd !! r) <->
    r = mkRecipient (ActorId_new (env_fresh (w_env 1))) \/
    Node_get_session w_display (ActorRefIndex (rcp_index r)) nd = Ok (rcp_index r)).
Proof.
  exact (sessions_registered w_display w_node (w_env 1) "node" 0 w_inputs w_built w_run_ok).
Defined.

(** The session under the label [main] runs on; the run from its concrete end. *)
Lemma w_new : env_fresh (w_env 6) ∉ 0%Z :: env_fresh (w_env 1) :: ((fun p => env_fresh p.1) <$> w_inputs).
Proof. by apply (bool_decide_unpack _); vm_compute. Qed.

Definition w_end : option (result unit NodeError) * Node * NodeContext * list NodeEffect :=
  node_run w_display w_node (w_env 1) "node" 0 w_inputs.

Definition w_nd : Node := w_end.1.1.2.
Definition w_c : NodeContext := w_end.1.2.

Lemma w_end_eq : w_end = (w_end.1.1.1, w_nd, w_c, w_end.2).
Proof. unfold w_nd, w_c. generalize w_end. by intros [[[? ?] ?] ?]. Qed.

Lemma w_main : Node_get_session w_display (ActorRefLabel "main") w_nd = Ok (ActorId_new 3).
Proof. vm_compute. reflexivity. Qed.

Lemma session_label_freed_witness :
  let fresh := ActorId_new (env_fresh (w_env 6)) in
  Node_create_session (w_env 6) "again" (Some "main") w_c w_nd =
    (Err (CreateSessionFailed (session_label_exists "main")), w_nd, []) /\
  Node_supervise (w_env 6) (SupPanicked (ActorId_new 3) "boom") w_nd = (w_nd, []) /\
  (let (nd', _) := Node_supervise (w_env 6) (SupTerminated (ActorId_new 3) None) w_nd in
   Node_get_session w_display (ActorRefIndex (ActorId_new 3)) nd' =
     Err (SessionNotFound (w_display (ActorId_new 3))) /\
   let '(r, nd'', _) := Node_create_session (w_env 6) "again" (Some "main") w_c nd' in
   r = Ok fresh /\ Node_get_session w_display (ActorRefLabel "main") nd'' = Ok fresh).
Proof.
  exact (session_label_freed w_display w_node (w_env 1) "node" 0 w_inputs (w_env 6) "again" "main"
    (ActorId_new 3) "boom" None w_built w_run_ok w_new (fun m => reflexivity _) w_end.1.1.1 w_nd w_c w_end.2
    w_end_eq ltac:(done) w_main).
Defined.
End Runs.
