(* ===== verification/NodeCall.v ===== *)
(** * Asking another node for an actor

    The composition of Node.v with SessionNet.v: a node that is asked for an actor of
    another node ([RemoteGetActor], [RemoteCreateActor]) picks the session and sends it a
    command; the session asks its peer; the future the node returned resolves to what the
    process at the other end knows. *)

From S2P Require Import Prelude HashMap DoubleMap DoubleMapFacts Tokio ActorTypes UserCode.
From S2P Require Import Observer WireLibs Codec Registry IpcMessages Session ErrorReport.
From S2P Require Import SessionNet SessionTheorems Node NodeTheorems.

Section Commands.
Context {B : Type} `{BytesCrate B} `{!ProstMessage B IpcMessage} `{!ProstMessage B ResultAddress}.
Implicit Types (env : PeerEnv) (nd : Node) (c : NodeContext).

(** The handlers of a session for its commands make the requests SessionNet.v asks. *)
Lemma get_actor_asks tx_closed actor tx now io s p :
  s_proxy s = Some p ->
  Session_handle_remote_get_actor (B := B) tx_closed actor tx now io s =
    Done (net_ask (B := B) (ReqGet actor) tx now tx_closed io s).
Proof.
  intros Hp. unfold Session_handle_remote_get_actor, net_ask, Session_register_request,
    Session_decode_context, req_frame.
  unfold Session_next_tag, Session_send_ipc_message. destruct actor, io; simpl; by rewrite Hp.
Qed.

Lemma create_actor_asks tx_closed type_id label config tx now io s p :
  s_proxy s = Some p ->
  Session_handle_remote_create_actor (B := B) tx_closed type_id label config tx now io s =
    Done (net_ask (B := B) (ReqCreate type_id label (default "" config)) tx now tx_closed io s).
Proof.
  intros Hp. unfold Session_handle_remote_create_actor, net_ask, Session_register_request,
    Session_decode_context, req_frame.
  unfold Session_next_tag, Session_send_ipc_message. destruct io; simpl; by rewrite Hp.
Qed.

(** A session the node finds is one of those it keeps. *)
Lemma get_session_known display session nd a :
  Node_get_session display session nd = Ok a ->
  exists k l, primary (sessions nd) !! k = Some (l, a).
Proof.
  unfold Node_get_session, DoubleMap_get_by_key1, DoubleMap_get_by_key2.
  destruct session as [i|label].
  - destruct (primary (sessions nd) !! i) as [[l a']|] eqn:E; intros ?; simplify_eq/=. eauto.
  - destruct (secondary (sessions nd) !! label) as [k|]; [|done]. simpl.
    destruct (primary (sessions nd) !! k) as [[l a']|] eqn:E; intros ?; simplify_eq/=. eauto.
Qed.

(** Bytes served for a request for an address are an encoded address result. *)
Lemma served_address env req res :
  (forall a m b, req ≠ ReqActor a m b) -> served (B := B) env req res ->
  exists x, res = Ok (pm_encode (address_result x)) /\ address_of env req x.
Proof.
  intros Hreq [(t & created & sent & received & Hfor & Henv & ->)|Hx]; [|done].
  destruct req as [a m b|ty l cfg|actor]; [by destruct (Hreq a m b)| |by destruct t].
  destruct t as [ty' l' cfg' tag|]; [|done]. destruct Hfor as (-> & -> & ->). by exists created.
Qed.

(** What the future of the command makes of an answer that is an address result. *)
Lemma resolve_served (client : Z) x :
  pm_valid (address_result x) ->
  resolve_address (Proxy_decode_context client true)
    (raw_received (B := B) (Ok (pm_encode (address_result x)))) =
    match x with
    | Ok id => Ok (mkSenderRef (ActorId_new_remote (ActorId_as_local id) client) None)
    | Err e => Err (RemoteNodeError (report e))
    end.
Proof.
  intros Hv. unfold resolve_address. simpl.
  rewrite (pm_decode_law (address_result x)) by (done || apply bytes_freeze_law). by destruct x.
Qed.

(** C10. An address obtained from another node is the address of an actor that node knows.
    A node is asked for an actor of another node, by index or by label, or asked to create
    one there; it finds the session and sends it a command, the session asks its peer,
    whatever else the two sessions do. If the response channel of that command is resolved,
    the future of the node gives the address of an actor the other process created, or that
    its registry or its manager knows, reached over this very session; or the report of the
    error that process had; or the report of what stopped the session from answering. The
    other side never hands out anything else. *)
Theorem remote_address_known display node_env env_a env_b nd c msg cmd req client server n tx r
    (Hmsg : (Node_handle display node_env msg nd c).1.1.1 =
            AnswerFuture (Ok (ActorId_new client)) cmd)
    (Hcmd : msg_request cmd = Some req)
    (Hrun : rtc (net_step (B := B) env_a env_b) (net_start client server) n)
    (Hasked : (tx, req) ∈ p_asked (n_a n))
    (Hev : SevAnswer tx r ∈ p_events (n_a n))
    (Hvalid : forall x, address_of env_b req x -> pm_valid (address_result x)) :
  (exists k l, primary (sessions nd) !! k = Some (l, ActorId_new client)) /\
  match remote_actor_future (Ok (ActorId_new client)) (Ok tt)
          (Ok (resolve_address (Proxy_decode_context client true) (raw_received (B := B) r))) with
  | Ok address => exists id, address_of env_b req (Ok id) /\
      address = mkSenderRef (ActorId_new_remote (ActorId_as_local id) client) None
  | Err (NodeSessionError (RemoteNodeError text)) =>
      exists e, address_of env_b req (Err e) /\ text = report e
  | Err (NodeSessionError (SessionRecvError (RecvOther text))) =>
      exists e, r = Err e /\ text = report e
  | Err _ => False
  end.
Proof.
  assert (Hreq : forall a m b, req ≠ ReqActor a m b).
  { intros a m b ->. destruct msg; simpl in Hmsg; repeat case_match; simplify_eq/=. }
  split.
  { destruct msg; simpl in Hmsg; repeat case_match; simplify_eq/=; by eapply get_session_known. }
  apply net_steps_inv in Hrun as [[_ _ _ _ _ Hevs _ Hnd] _].
  rewrite Forall_forall in Hevs. destruct (Hevs _ Hev) as (req' & Hreq' & Hans).
  assert (req' = req) as -> by by eapply asked_once.
  destruct r as [bytes|e]; cbn in Hans.
  - apply served_address in Hans as (x & [= ->] & Hx); [|done].
    rewrite resolve_served by auto. destruct x as [id|e]; cbn; eauto.
  - cbn. eauto.
Qed.
End Commands.

(** ** A look-up by index, from a node with a session under the label [main] *)

Section Witnesses.

Definition w_home : PeerEnv :=
  mkPeerEnv (fun _ _ => False) (fun reg => reg = w_registry)
    (fun label x => x = Err (ActorNotFound label)) (fun _ _ _ _ => False).

Definition w_get : Request := ReqGet (ActorRefIndex (ActorId_new 5)).

Definition w_found : list Z := pm_encode (B := slice) (address_result (Ok (ActorId_new 5))).

Lemma w_get_run : exists n,
  rtc (net_step (B := slice) w_idle w_home) (net_start 3 4) n /\
  (100, w_get) ∈ p_asked (n_a n) /\ SevAnswer 100 (Ok w_found) ∈ p_events (n_a n).
Proof.
  eexists. split.
  - eapply rtc_l.
    { eapply ns_a, (ps_act _ _ None).
      - apply (pa_ask _ w_get 100 0 (fun _ => false) (Ok tt)); [set_solver|done| |reflexivity].
        by apply (bool_decide_unpack (in_range u64 5 /\ in_range u64 0)).
      - done. }
    eapply rtc_l.
    { eapply ns_b, (ps_act _ _ (Some _)).
      - eapply (pa_frame _ _ (fun _ => false) (fun _ => false) (fun l => Err (ActorNotFound l))
                 0 (Ok tt) (Ok tt) w_registry);
          [done|done|vm_compute; reflexivity| |vm_compute; reflexivity].
        intros m Hm. apply list_elem_of_singleton in Hm. injection Hm as Hm.
        apply ipc_encode_valid. intros E. cbn in Hm. by rewrite E in Hm.
      - done. }
    eapply rtc_l; [|apply rtc_refl].
    eapply ns_a, (ps_act _ _ (Some _)).
    + eapply (pa_frame _ _ (fun _ => false) (fun _ => false) (fun _ => Err ResponseTimeout)
                0 (Ok tt) (Ok tt) ∅); [done|done|vm_compute; reflexivity| |vm_compute; reflexivity].
      intros m Hm. apply list_elem_of_singleton in Hm. discriminate.
    + done.
  - simpl. split; [left|right; left].
Qed.

Lemma w_home_valid x : address_of w_home w_get x -> pm_valid (B := slice) (address_result x).
Proof.
  intros (is_closed & reg & -> & ->). unfold Session_find_mailbox, Registry_get.
  change (w_registry !! ActorId_as_local (ActorId_new 5)) with (Some (mkRecipient (ActorId_new 5))).
  cbv beta iota. destruct (is_closed _); [exact I|]. by apply (bool_decide_unpack (in_range u64 5)).
Qed.

Lemma remote_address_known_witness :
  exists r : result (list Z) SessionError, r = Ok w_found /\
  (exists k l, primary (sessions w_nd) !! k = Some (l, ActorId_new 3)) /\
  match remote_actor_future (Ok (ActorId_new 3)) (Ok tt)
          (Ok (resolve_address (Proxy_decode_context 3 true) (raw_received (B := slice) r))) with
  | Ok address => exists id, address_of w_home w_get (Ok id) /\
      address = mkSenderRef (ActorId_new_remote (ActorId_as_local id) 3) None
  | Err (NodeSessionError (RemoteNodeError text)) =>
      exists e, address_of w_home w_get (Err e) /\ text = report e
  | Err (NodeSessionError (SessionRecvError (RecvOther text))) =>
      exists e, r = Err e /\ text = report e
  | Err _ => False
  end.
Proof.
  destruct w_get_run as (n & Hrun & Hasked & Hev). exists (Ok w_found). split; [reflexivity|].
  exact (remote_address_known w_display (w_env 6) w_idle w_home w_nd w_c
           (RemoteGetActor (ActorRefLabel "main") (ActorRefIndex (ActorId_new 5)))
           (SmGetActor (ActorRefIndex (ActorId_new 5))) w_get 3 4 n 100 (Ok w_found)
           ltac:(vm_compute; reflexivity) eq_refl Hrun Hasked Hev w_home_valid).
Defined.

(** The address is that of actor 5 over session 3. *)
Lemma w_found_address :
  resolve_address (Proxy_decode_context 3 true) (raw_received (B := slice) (Ok w_found)) =
    Ok (mkSenderRef (ActorId_new_remote 5 3) None).
Proof. vm_compute. reflexivity. Qed.
End Witnesses.
