(* ===== verification/NodeSystem.v ===== *)
(** * A node and its sessions

    The node of Node.v with its mailbox, and the tasks of the sessions it created, as one
    system: a session that ends reports it the way every actor does (actor.rs, [spawn]), with
    a send that does not wait for room in the mailbox of the node. What the tables of the
    node say is compared with what the sessions do. A step of the node is one iteration of
    its loop; a session that ends while the node is inside an iteration ends after it, since
    the envelope of that iteration has left the mailbox already. *)

From S2P Require Import Prelude HashMap DoubleMap DoubleMapFacts Tokio ActorTypes UserCode.
From S2P Require Import Context Lifecycle Address AddressTheorems Observer WireLibs Codec Registry.
From S2P Require Import Session ErrorReport Node NodeTheorems.

(** The command in an envelope: a signal is a command of the node too. What sets a
    supervisor, which a node has none of, and a message with a time budget, which no user of
    a node sends, are [None]. *)
Definition envelope_msg (e : Envelope NodeMsg) : option NodeMsg :=
  match e with
  | DefaultEnvelopeProxy (Some (MsgUser m)) _ => Some m
  | DefaultEnvelopeProxy (Some (MsgSignal s)) _ => Some (NodeSignal s)
  | _ => None
  end.

(** The response channel of an envelope: a message whose requester is gone is skipped. *)
Definition envelope_tx (e : Envelope NodeMsg) : option nat :=
  match e with DefaultEnvelopeProxy _ tx | TimedEnvelopeProxy _ tx _ => tx end.

(** The session whose end a command reports. *)
Definition ended_session (m : NodeMsg) : option ActorId :=
  match m with NodeSupervision (SupTerminated a _) => Some a | _ => None end.

Definition envelope_report (e : Envelope NodeMsg) : option ActorId :=
  m ← envelope_msg e; ended_session m.

Definition input_report (i : NodeInput) : option ActorId :=
  match i with NInEnvelope (Some m) => ended_session m | _ => None end.

(** The sessions created by an iteration. *)
Definition created_sessions (evs : list NodeEffect) : list ActorId :=
  omap (fun e => match e with EffSession ch => Some (sc_doorplate ch) | _ => None end) evs.

(** ** What one iteration does to the table of sessions *)

Section Turn.
Context (display : ActorId -> string) (self mgr : ActorId).
#[local] Set Default Proof Using "All".
Implicit Types (evs : list NodeEffect) (used : gset ActorId).

Lemma created_app evs evs' : created_sessions (evs ++ evs') = created_sessions evs ++ created_sessions evs'.
Proof. apply omap_app. Qed.

Lemma created_none evs : (forall ch, EffSession ch ∉ evs) -> created_sessions evs = [].
Proof.
  induction evs as [|e evs IH]; intros Hev; [done|]. change (e :: evs) with ([e] ++ evs). rewrite created_app.
  rewrite IH by (intros ch Hc; apply (Hev ch); by right).
  destruct e; try done. exfalso. apply (Hev c). by left.
Qed.

(** The session [gone] leaves the table, or the session [fresh] enters it, or nothing. *)
Definition table_change (gone : option ActorId) (fresh : ActorId) nd nd' evs : Prop :=
  (created_sessions evs = [] /\ forall a, registered nd' a <-> registered nd a /\ gone ≠ Some a) \/
  (created_sessions evs = [fresh] /\ gone = None /\
   forall a, registered nd' a <-> registered nd a \/ a = fresh).

Lemma table_same fresh nd nd' evs :
  sessions nd' = sessions nd -> (forall ch, EffSession ch ∉ evs) -> table_change None fresh nd nd' evs.
Proof. intros Hs Hev. left. split; [by apply created_none|]. intros a. unfold registered. rewrite Hs. naive_solver. Qed.

Lemma table_prepend gone fresh nd nd' nd'' evs evs' :
  sessions nd' = sessions nd -> (forall ch, EffSession ch ∉ evs) ->
  table_change gone fresh nd' nd'' evs' -> table_change gone fresh nd nd'' (evs ++ evs').
Proof.
  intros Hs Hev. unfold table_change, registered. rewrite created_app, (created_none evs Hev), Hs. done.
Qed.

Lemma create_table env endpoint label c nd used evs :
  sess_inv self mgr nd used evs -> nc_doorplate c = self -> ActorId_new (env_fresh env) ∉ used ->
  let '(_, nd', evs') := Node_create_session env endpoint label c nd in
  table_change None (ActorId_new (env_fresh env)) nd nd' evs'.
Proof.
  intros Hi Hself Hfresh.
  pose proof (create_session_cases display self mgr env endpoint label c nd used evs Hi Hself Hfresh) as Hc.
  destruct (Node_create_session env endpoint label c nd) as [[r nd'] evs']. simpl in Hc.
  destruct Hc as [(a' & _ & _ & -> & ->)|(_ & _ & Hs & _ & _ & ch & evs'' & -> & Hq & Hd & _)].
  { by apply table_same; [|set_solver]. }
  right. split_and!; [|done|].
  - change (created_sessions (EffSession ch :: evs'')) with (sc_doorplate ch :: created_sessions evs'').
    by rewrite (created_none evs'' Hq), Hd.
  - intros a. unfold registered. rewrite Hs. simpl. rewrite lookup_insert_is_Some'. naive_solver.
Qed.

Lemma supervise_table env event fresh nd used evs :
  sess_inv self mgr nd used evs -> (forall m, env_session_order env m ≡ₚ map_to_list m) ->
  let (nd', evs') := Node_supervise env event nd in
  table_change (ended_session (NodeSupervision event)) fresh nd nd' evs'.
Proof.
  intros Hi Ho. destruct event as [a e|a e|a i|a st]; simpl; try by apply table_same; [|set_solver].
  pose proof (supervise_terminated display self mgr env a e nd Ho (si_sync _ _ _ _ _ Hi) (si_key _ _ _ _ _ Hi)) as Hs.
  unfold Node_supervise in *. destruct (DoubleMap_retain _ _ _ _) as [t u]. simpl in *.
  match goal with |- context [Node_notify ?e ?ev ?n] => pose proof (notify_sessions display self mgr e ev n) as Hn;
    destruct (Node_notify e ev n) as [nd' evs'] end.
  destruct Hn as [_ Hq]. left. split; [by apply created_none|]. intros b. unfold registered. simpl in Hs.
  rewrite Hs. case_decide as Hb; [subst; split; [by intros [? ?]|naive_solver]|naive_solver].
Qed.

Lemma handle_table env msg nd c used evs :
  sess_inv self mgr nd used evs -> nc_doorplate c = self -> ActorId_new (env_fresh env) ∉ used ->
  (forall m, env_session_order env m ≡ₚ map_to_list m) ->
  let '(_, nd', c', evs') := Node_handle display env msg nd c in
  table_change (ended_session msg) (ActorId_new (env_fresh env)) nd nd' evs'.
Proof.
  intros Hi Hself Hfresh Ho.
  destruct msg; try by apply table_same; [|set_solver].
  - simpl. unfold Node_add_listener. case_bool_decide; by apply table_same; [|set_solver].
  - simpl. unfold Node_remove_listener. case_bool_decide; simpl; apply table_same; try done.
    + intros ch (t & ? & _)%list_elem_of_fmap. done.
    + set_solver.
  - cbn [Node_handle]. unfold Node_connect. destruct connected as [endpoint|e]; [|by apply table_same; [|set_solver]].
    pose proof (create_table env endpoint session_label c nd used evs Hi Hself Hfresh) as Ht.
    by destruct (Node_create_session env endpoint session_label c nd) as [[r nd'] evs'].
  - cbn [Node_handle].
    pose proof (supervise_table env event (ActorId_new (env_fresh env)) nd used evs Hi Ho) as Ht.
    by destruct (Node_supervise env event nd) as [nd' evs'].
Qed.

Lemma on_event_table env e nd c used evs :
  sess_inv self mgr nd used evs -> nc_doorplate c = self -> ActorId_new (env_fresh env) ∉ used ->
  (forall m, env_session_order env m ≡ₚ map_to_list m) ->
  let '(nd', c', evs') := NodeContext_on_event display env e nd c in
  table_change (match e with LoopEnvelope (Some m) => ended_session m | _ => None end)
    (ActorId_new (env_fresh env)) nd nd' evs'.
Proof.
  intros Hi Hself Hfresh Ho.
  destruct e as [[msg|]|[endpoint|e] label|label]; cbn [NodeContext_on_event];
    try by apply table_same; [|set_solver].
  - pose proof (handle_table env msg nd c used evs Hi Hself Hfresh Ho) as Ht.
    destruct (Node_handle display env msg nd c) as [[[a nd'] c'] evs'].
    by apply (table_prepend _ _ nd nd nd' [EffHandled msg]); [|set_solver|].
  - pose proof (create_table env endpoint None c nd used evs Hi Hself Hfresh) as Ht.
    by destruct (Node_create_session env endpoint None c nd) as [[r nd'] evs'].
Qed.

Lemma sync_same nd c :
  let '(nd', c', evs') := NodeContext_sync_tasks nd c in
  sessions nd' = sessions nd /\ nc_doorplate c' = nc_doorplate c /\ (forall ch, EffSession ch ∉ evs').
Proof.
  unfold NodeContext_sync_tasks. split_and!; [done..|]. intros ch. rewrite elem_of_app, !list_elem_of_fmap.
  naive_solver.
Qed.

Lemma sync_inv nd c used evs : sess_inv self mgr nd used evs ->
  let '(nd', _, evs') := NodeContext_sync_tasks nd c in sess_inv self mgr nd' used (evs ++ evs').
Proof.
  intros Hi. unfold NodeContext_sync_tasks.
  apply (sess_inv_frame display self mgr nd _ used used); [done|done| |done].
  intros ch. rewrite elem_of_app, !list_elem_of_fmap. naive_solver.
Qed.

Lemma turn_table env i nd c used evs :
  sess_inv self mgr nd used evs -> nc_doorplate c = self -> ActorId_new (env_fresh env) ∉ used ->
  (forall m, env_session_order env m ≡ₚ map_to_list m) ->
  let '(nd', c', evs') := NodeContext_turn display env i nd c in
  table_change (input_report i) (ActorId_new (env_fresh env)) nd nd' evs'.
Proof.
  intros Hi Hself Hfresh Ho. unfold NodeContext_turn.
  pose proof (sync_same nd c) as Hs. pose proof (sync_inv nd c used evs Hi) as Hi1.
  destruct (NodeContext_sync_tasks nd c) as [[nd1 c1] evs1]. destruct Hs as (Hs & Hc & Hq).
  destruct (NodeContext_recv_or_accept i nd1 c1) as [[[[e nd2] c2] evs2]|] eqn:Er.
  2: { destruct i as [msg|k r|k]; simpl in Er; [done|..]; by apply table_same. }
  assert (sessions nd2 = sessions nd1 /\ nc_doorplate c2 = nc_doorplate c1 /\ same_sessions nd1 nd2 /\
    (forall ch, EffSession ch ∉ evs2) /\
    input_report i = match e with LoopEnvelope (Some m) => ended_session m | _ => None end)
    as (Hs2 & Hc2 & Hsame & Hq2 & ->).
  { destruct i as [msg|k r|k]; simpl in Er; [simplify_eq; by split_and!; [..|set_solver|]| |];
      destruct (nc_accept_tasks c1 !! k); simplify_eq/=; by split_and!; [..|set_solver|]. }
  assert (sess_inv self mgr nd2 used ((evs ++ evs1) ++ evs2)) as Hi2
    by by apply (sess_inv_frame display self mgr nd1 nd2 used used).
  pose proof (on_event_table env e nd2 c2 used _ Hi2 ltac:(by rewrite Hc2, Hc) Hfresh Ho) as Ht.
  destruct (NodeContext_on_event display env e nd2 c2) as [[nd3 c3] evs3].
  apply (table_prepend _ _ nd nd1); [done..|]. by apply (table_prepend _ _ nd1 nd2).
Qed.
End Turn.

(** ** The system *)

Section System.
Context {chan : Type -> Type} `{TokioMpsc chan} (display : ActorId -> string).
#[local] Set Default Proof Using "Type*".

Abbreviation Mail := (SendState chan (Envelope NodeMsg)).

(** [ns_running] are the sessions whose task runs, [ns_unheard] those that ended without
    the node being told that they terminated, [ns_used] the indices handed out. *)
Record NodeSys : Type := mkNodeSys {
  ns_node : Node;
  ns_ctx : NodeContext;
  ns_mail : Mail;
  ns_used : gset ActorId;
  ns_running : gset ActorId;
  ns_unheard : gset ActorId;
}.

Implicit Types (s : NodeSys) (mail : Mail).

Definition mail_queue mail : list (Envelope NodeMsg) := cv_queue (mpsc_view (ss_chan mail)).
Definition mail_closed mail : bool := cv_closed (mpsc_view (ss_chan mail)).

(** The sessions whose reports wait in the mailbox. *)
Definition waiting_reports mail : list ActorId := omap envelope_report (mail_queue mail).

(** The last act of the task of a session, with the node as its supervisor
    ([try_notify_supervisor] of its outcome); [true] if the mailbox took the event. The code
    ignores that answer. *)
Definition report_end (a : ActorId) (r : result (result unit SessionError) PanicInfo) mail
    : outcome (bool * Mail) :=
  let! (sent, mail) := LocalAddress_try_do_send (BoxError := string)
    (OutPlain (MsgUser (NodeSupervision (terminal_event r a)))) mail in
  Done (is_ok sent, mail).

(** Whether the node has been told that the session terminated. *)
Definition told_terminated (r : result (result unit SessionError) PanicInfo) (sent : bool) : bool :=
  sent && is_ok r.

(** Others send commands, in whatever way: they append to the mailbox, and none of them
    reports the end of a session. *)
Definition others_send mail mail' : Prop :=
  exists es, mail_queue mail' = mail_queue mail ++ es /\ Forall (fun e => envelope_report e = None) es /\
    mail_closed mail' = mail_closed mail.

Definition receives mail (e : Envelope NodeMsg) mail' : Prop :=
  Mailbox_recv (B := string) (ss_chan mail) = (Ready (Ok e), ss_chan mail').

Definition fresh_for env (used : gset ActorId) : Prop :=
  ActorId_new (env_fresh env) ∉ used /\ forall m, env_session_order env m ≡ₚ map_to_list m.

(** An iteration of the node that handles a command, or skips an envelope, or is woken by an
    accept task; others sending to the node; a session ending. *)
Inductive sys_step : NodeSys -> NodeSys -> Prop :=
| sys_command env e m nd c mail mail' used running unheard nd' c' evs :
    nc_state c = Running -> receives mail e mail' -> envelope_msg e = Some m -> fresh_for env used ->
    NodeContext_turn display env (NInEnvelope (Some m)) nd c = (nd', c', evs) ->
    sys_step (mkNodeSys nd c mail used running unheard)
      (mkNodeSys nd' c' mail' ({[ActorId_new (env_fresh env)]} ∪ used)
         (list_to_set (created_sessions evs) ∪ running) unheard)
| sys_skip e nd c mail mail' used running unheard nd' c' evs :
    nc_state c = Running -> receives mail e mail' ->
    envelope_msg e = None \/ is_some (envelope_tx e) = true ->
    NodeContext_sync_tasks nd c = (nd', c', evs) ->
    sys_step (mkNodeSys nd c mail used running unheard) (mkNodeSys nd' c' mail' used running unheard)
| sys_accept env i nd c mail used running unheard nd' c' evs :
    nc_state c = Running -> (forall m, i ≠ NInEnvelope m) -> fresh_for env used ->
    NodeContext_turn display env i nd c = (nd', c', evs) ->
    sys_step (mkNodeSys nd c mail used running unheard)
      (mkNodeSys nd' c' mail ({[ActorId_new (env_fresh env)]} ∪ used)
         (list_to_set (created_sessions evs) ∪ running) unheard)
| sys_others nd c mail mail' used running unheard :
    others_send mail mail' ->
    sys_step (mkNodeSys nd c mail used running unheard) (mkNodeSys nd c mail' used running unheard)
| sys_end a r sent nd c mail mail' used running unheard :
    a ∈ running -> report_end a r mail = Done (sent, mail') ->
    sys_step (mkNodeSys nd c mail used running unheard)
      (mkNodeSys nd c mail' used (running ∖ {[a]})
         (if told_terminated r sent then unheard else {[a]} ∪ unheard)).

(** A node that was just started, with what others have sent to it already. *)
Definition sys_start nd0 env0 (label : string) (index : Z) mail : NodeSys :=
  mkNodeSys (Node_post_start env0 nd0).1.2
    (NodeContext_set_state Running (NodeContext_with_capacity label index)) mail
    {[ActorId_new index; ActorId_new (env_fresh env0)]} ∅ ∅.

(** ** The invariant *)

Section Invariant.
Context (self mgr : ActorId).

Record sys_inv s : Prop := MkSysInv {
  sv_sessions : exists evs, sess_inv self mgr (ns_node s) (ns_used s) evs;
  sv_self : nc_doorplate (ns_ctx s) = self;
  sv_mgr : ~ registered (ns_node s) mgr;
  sv_registered a : registered (ns_node s) a <->
    a ∈ ns_running s \/ a ∈ ns_unheard s \/ a ∈ waiting_reports (ns_mail s);
  sv_unheard : ns_running s ## ns_unheard s;
  sv_waiting a : a ∈ waiting_reports (ns_mail s) -> a ∉ ns_running s /\ a ∉ ns_unheard s;
  sv_once : NoDup (waiting_reports (ns_mail s));
  sv_plain e : e ∈ mail_queue (ns_mail s) -> envelope_report e ≠ None -> envelope_tx e = None;
  sv_open : mail_closed (ns_mail s) = false;
}.

Lemma receives_queue mail e mail' : receives mail e mail' ->
  mail_queue mail = e :: mail_queue mail' /\ mail_closed mail' = mail_closed mail.
Proof.
  unfold receives, Mailbox_recv, Receiver_recv, mail_queue, mail_closed.
  pose proof (mpsc_poll_recv_law (ss_chan mail)) as Hl. unfold cv_poll_recv in Hl.
  destruct (mpsc_poll_recv (ss_chan mail)) as [[|[v'|]] c] eqn:Ep; [done| |done]. intros ?; simplify_eq/=.
  destruct (cv_queue (mpsc_view (ss_chan mail))) as [|v q] eqn:Eq.
  - by destruct (cv_disconnected _).
  - injection Hl as -> ->. done.
Qed.

Lemma waiting_cons mail e mail' : mail_queue mail = e :: mail_queue mail' ->
  waiting_reports mail = option_list (envelope_report e) ++ waiting_reports mail'.
Proof. unfold waiting_reports. intros ->. simpl. by destruct (envelope_report e). Qed.

Lemma waiting_send mail mail' es : mail_queue mail' = mail_queue mail ++ es ->
  Forall (fun e => envelope_report e = None) es -> waiting_reports mail' = waiting_reports mail.
Proof.
  unfold waiting_reports. intros -> Hes. rewrite omap_app.
  replace (omap envelope_report es) with (@nil ActorId); [by rewrite app_nil_r|].
  induction Hes as [|e es He Hes IH]; [done|]. simpl. by rewrite He.
Qed.

(** An iteration: the report [gone] leaves the mailbox, if it was one. *)
Lemma inv_iteration env i nd c mail mail' used running unheard nd' c' evs :
  sys_inv (mkNodeSys nd c mail used running unheard) ->
  fresh_for env used -> NodeContext_turn display env i nd c = (nd', c', evs) ->
  waiting_reports mail = option_list (input_report i) ++ waiting_reports mail' ->
  (forall e, e ∈ mail_queue mail' -> e ∈ mail_queue mail) -> mail_closed mail' = mail_closed mail ->
  sys_inv (mkNodeSys nd' c' mail' ({[ActorId_new (env_fresh env)]} ∪ used)
             (list_to_set (created_sessions evs) ∪ running) unheard).
Proof.
  intros [[h Hs] Hself Hm Hreg Hun Hwait Honce Hplain Hopen] [Hfresh Ho] Ht Hq Hin Hcl. simpl in *.
  assert (forall a e, i = NInEnvelope (Some (NodeSupervision (SupTerminated a e))) -> a ≠ mgr) as Hok.
  { intros a e -> ->. simpl in Hq. apply Hm, Hreg. right; right. rewrite Hq. by left. }
  pose proof (turn_inv display self mgr env i nd c used h Hs Hself Hfresh (conj Ho Hok)) as Hi.
  pose proof (turn_table display self mgr env i nd c used h Hs Hself Hfresh Ho) as Hc.
  rewrite Ht in Hi, Hc. destruct Hi as [Hi Hself'].
  set (a := ActorId_new (env_fresh env)) in *.
  assert (forall b, registered nd b -> b ∈ used) as Hu by (intros b Hb; apply (si_used _ _ _ _ _ Hs); auto).
  assert (~ registered nd a) as Hna by (intros ?%Hu; done).
  assert (mgr ∈ used) as Hmu by (apply (si_used _ _ _ _ _ Hs); auto).
  destruct Hc as [[Hcr Hc]|(Hcr & Hg & Hc)]; rewrite Hcr; simpl.
  - constructor; simpl; [by eexists|done|by rewrite Hc; naive_solver|..|by rewrite Hcl].
    + intros b. rewrite Hc, Hreg, Hq.
      assert (forall g, input_report i = Some g -> g ∉ running /\ g ∉ unheard /\ g ∉ waiting_reports mail') as Hgone.
      { intros g Hg. rewrite Hg in Hq. simpl in Hq. rewrite Hq in Honce, Hwait.
        apply NoDup_cons in Honce as [Hn _]. destruct (Hwait g) as [? ?]; [by left|done]. }
      destruct (input_report i) as [g|] eqn:Eg; simpl; [|set_solver].
      destruct (Hgone g eq_refl) as (? & ? & ?). rewrite elem_of_cons.
      split; [intros [[?|[?|[->|?]]] ?]; set_solver|].
      intros [Hr|[Hr|Hr]]; (split; [set_solver|intros [= ->]; set_solver]).
    + set_solver.
    + intros b Hb. rewrite Hq in Hwait. destruct (Hwait b); [apply elem_of_app; by right|]. set_solver.
    + rewrite Hq in Honce. by apply NoDup_app in Honce as (_ & _ & ?).
    + intros e He. by apply Hplain, Hin.
  - rewrite Hg in Hq. simpl in Hq.
    assert (a ∉ running /\ a ∉ unheard /\ a ∉ waiting_reports mail) as (? & ? & ?)
      by (split_and!; intros ?; apply Hna, Hreg; auto).
    constructor; simpl; rewrite <- ?Hq; [by eexists|done| | |set_solver|..|done| |by rewrite Hcl].
    + rewrite Hc. intros [?|?]; [done|]. congruence.
    + intros b. rewrite Hc, Hreg. set_solver.
    + intros b Hb. destruct (Hwait b Hb). split; [|done]. intros [?|?]%elem_of_union; [|done].
      set_solver.
    + intros e He. by apply Hplain, Hin.
Qed.

Lemma report_end_cases a r mail :
  mail_closed mail = false ->
  exists mail', report_end a r mail = Done (negb (cv_full (mpsc_view (ss_chan mail))), mail') /\
    mail_closed mail' = false /\
    mail_queue mail' = mail_queue mail ++
      (if cv_full (mpsc_view (ss_chan mail)) then []
       else [pack (MsgUser (NodeSupervision (terminal_event r a))) None]).
Proof.
  unfold mail_closed, mail_queue. intros Ho. unfold report_end, LocalAddress_try_do_send.
  destruct (try_send_cases (ss_chan mail) (pack (MsgUser (NodeSupervision (terminal_event r a))) None))
    as [c' [(_ & Hc & _)|[(Hs & _ & Hf & Hv)|(Hs & _ & Hf & Hv)]]]; [congruence|..];
    simpl; rewrite Hs; simpl; rewrite Hf; eexists; (split; [done|]); simpl; rewrite Hv;
    by rewrite ?app_nil_r.
Qed.

Lemma terminal_report a (r : result (result unit SessionError) PanicInfo) :
  envelope_report (pack (MsgUser (NodeSupervision (terminal_event r a))) None) =
    if is_ok r then Some a else None.
Proof. by destruct r as [[[]|e]|info]. Qed.

(** An envelope that is skipped carries no report, since reports ask for no response. *)
Lemma inv_skip e nd c mail mail' used running unheard nd' c' evs :
  sys_inv (mkNodeSys nd c mail used running unheard) -> receives mail e mail' ->
  envelope_msg e = None \/ is_some (envelope_tx e) = true ->
  NodeContext_sync_tasks nd c = (nd', c', evs) ->
  sys_inv (mkNodeSys nd' c' mail' used running unheard).
Proof using Type* display.
  intros [[h Hs] Hself Hm Hreg Hun Hwait Honce Hplain Hopen] Hr Hsk Ht. simpl in *.
  apply receives_queue in Hr as [Hq Hcl].
  assert (waiting_reports mail = waiting_reports mail') as Hw.
  { rewrite (waiting_cons _ _ _ Hq). destruct (envelope_report e) as [g|] eqn:Eg; [|done].
    destruct Hsk as [Hn|Hn]; [unfold envelope_report in Eg; by rewrite Hn in Eg|].
    rewrite (Hplain e) in Hn; [done|rewrite Hq; by left|congruence]. }
  pose proof (sync_inv display self mgr nd c used h Hs) as Hs'.
  pose proof (sync_same display self mgr nd c) as Hsame. rewrite Ht in Hs', Hsame.
  destruct Hsame as (Hss & Hd & _). unfold registered in *.
  constructor; simpl; unfold registered; rewrite ?Hss, <- ?Hw, ?Hcl, ?Hd; eauto.
  intros e' He'. apply Hplain. rewrite Hq. by right.
Qed.

Lemma inv_others nd c mail mail' used running unheard :
  sys_inv (mkNodeSys nd c mail used running unheard) -> others_send mail mail' ->
  sys_inv (mkNodeSys nd c mail' used running unheard).
Proof.
  intros [[h Hs] Hself Hm Hreg Hun Hwait Honce Hplain Hopen] (es & Hq & Hes & Hcl). simpl in *.
  pose proof (waiting_send _ _ _ Hq Hes) as Hw.
  constructor; simpl; rewrite ?Hw, ?Hcl; eauto.
  intros e. rewrite Hq. intros [He|He]%elem_of_app; [by apply Hplain|].
  rewrite Forall_forall in Hes. by rewrite (Hes e He).
Qed.

(** A session ends: its report is queued, or it counts as unheard. *)
Lemma inv_end a r sent nd c mail mail' used running unheard :
  sys_inv (mkNodeSys nd c mail used running unheard) ->
  a ∈ running -> report_end a r mail = Done (sent, mail') ->
  sys_inv (mkNodeSys nd c mail' used (running ∖ {[a]})
             (if told_terminated r sent then unheard else {[a]} ∪ unheard)).
Proof using Type* display.
  intros [[h Hs] Hself Hm Hreg Hun Hwait Honce Hplain Hopen] Ha He. simpl in *.
  destruct (report_end_cases a r mail Hopen) as (mail1 & He1 & Hcl & Hq).
  rewrite He1 in He. simplify_eq. unfold told_terminated.
  assert (a ∉ unheard /\ a ∉ waiting_reports mail) as [Hau Haw].
  { split; [set_solver|]. intros Hin. by destruct (Hwait a Hin). }
  assert (waiting_reports mail' = waiting_reports mail ++
            (if negb (cv_full (mpsc_view (ss_chan mail))) && is_ok r then [a] else [])) as Hw.
  { unfold waiting_reports. rewrite Hq, omap_app. f_equal. destruct (cv_full _); [done|]. simpl.
    rewrite terminal_report. by destruct (is_ok r). }
  constructor; simpl; rewrite ?Hw; [by eexists|done|done|..|done].
  - intros b. rewrite Hreg. destruct (decide (b = a)) as [->|Hne]; destruct (_ && _); set_solver.
  - destruct (_ && _); set_solver.
  - intros b. destruct (_ && _); [|set_solver].
    intros [Hb|Hb]%elem_of_app; [destruct (Hwait b Hb); set_solver|set_solver].
  - destruct (_ && _); [|by rewrite app_nil_r]. apply NoDup_app. split_and!; [done| |apply NoDup_singleton].
    set_solver.
  - intros e. rewrite Hq. intros [He|He]%elem_of_app; [by apply Hplain|].
    destruct (cv_full _); [set_solver|]. by apply list_elem_of_singleton in He as ->.
Qed.

Lemma step_inv s s' : sys_step s s' -> sys_inv s -> sys_inv s'.
Proof.
  intros Hs Hi. destruct Hs as [env e m nd c mail mail' used running unheard nd' c' evs Hst Hr Hm Hf Ht
    | |env i nd c mail used running unheard nd' c' evs Hst Hne Hf Ht| |];
    eauto using inv_skip, inv_others, inv_end.
  - apply receives_queue in Hr as [Hq Hcl]. apply (inv_iteration _ _ _ _ _ _ _ _ _ _ _ _ Hi Hf Ht).
    + rewrite (waiting_cons _ _ _ Hq). unfold envelope_report. by rewrite Hm.
    + rewrite Hq. by right.
    + done.
  - apply (inv_iteration _ _ _ _ _ _ _ _ _ _ _ _ Hi Hf Ht); [|done..].
    destruct i; [by destruct (Hne msg)|done..].
Qed.

Lemma steps_inv s s' : rtc sys_step s s' -> sys_inv s -> sys_inv s'.
Proof. induction 1; eauto using step_inv. Qed.
End Invariant.

Lemma built_sessions nd : node_built nd -> sessions nd = DoubleMap_default.
Proof.
  induction 1 as [|l nd _ IH|lbl a nd _ IH|t f nd _ IH]; [done|..].
  - unfold Node_with_listener. by case_bool_decide.
  - unfold Node_with_actor. destruct (nd_actor_labels nd); [|done]. destruct (is_some _); [done|].
    by destruct (Registry_insert _ _).
  - unfold Node_with_factory. by destruct (nd_factories nd).
Qed.

Lemma start_inv nd0 env0 label index mail :
  node_built nd0 -> mail_closed mail = false ->
  Forall (fun e => envelope_report e = None) (mail_queue mail) ->
  sys_inv (ActorId_new index) (ActorId_new (env_fresh env0)) (sys_start nd0 env0 label index mail).
Proof using All.
  intros Hb Ho Hq.
  assert (waiting_reports mail = []) as Hw by (by rewrite (waiting_send (mkSendState (mpsc_channel 0) 0)
    mail (mail_queue mail)); unfold waiting_reports, mail_queue; simpl; rewrite ?mpsc_channel_law).
  pose proof (started_inv display (ActorId_new index) (ActorId_new (env_fresh env0)) nd0 env0 Hb eq_refl) as Hi.
  assert (forall a, ~ registered (Node_post_start env0 nd0).1.2 a) as Hr.
  { intros a. unfold registered. simpl. rewrite (built_sessions nd0 Hb). simpl. rewrite lookup_empty.
    by intros [? ?]. }
  constructor; cbn [sys_start ns_node ns_ctx ns_mail ns_used ns_running ns_unheard]; rewrite ?Hw.
  - eexists. exact Hi.
  - done.
  - apply Hr.
  - intros a. pose proof (Hr a). set_solver.
  - set_solver.
  - by intros a ?%elem_of_nil.
  - constructor.
  - intros e He Hn. rewrite Forall_forall in Hq. by rewrite (Hq e He) in Hn.
  - done.
Qed.

(** C16. The table of sessions follows the sessions. Over any run of a node, its sessions and
    whoever else sends to the node: a session is found in the table exactly as long as its
    task runs, or its last report waits in the mailbox, or it ended without the node being
    told; these cases exclude each other, and no report waits twice. A session that ends is
    told of exactly when it did not panic and the mailbox had room at that moment, since the
    task does not wait for room: otherwise the dead session stays in the table for good. *)
Theorem node_tracks_sessions nd0 env0 label index mail s
    (Hb : node_built nd0) (Hopen : mail_closed mail = false)
    (Hq : Forall (fun e => envelope_report e = None) (mail_queue mail))
    (Hrun : rtc sys_step (sys_start nd0 env0 label index mail) s) :
  (forall a, Node_get_session display (ActorRefIndex a) (ns_node s) = Ok a <->
     a ∈ ns_running s \/ a ∈ waiting_reports (ns_mail s) \/ a ∈ ns_unheard s) /\
  NoDup (elements (ns_running s) ++ waiting_reports (ns_mail s) ++ elements (ns_unheard s)) /\
  (forall a r, a ∈ ns_running s ->
     let told := negb (cv_full (mpsc_view (ss_chan (ns_mail s)))) in
     exists mail', report_end a r (ns_mail s) = Done (told, mail') /\
       waiting_reports mail' = waiting_reports (ns_mail s) ++ (if told_terminated r told then [a] else [])).
Proof.
  pose proof (steps_inv _ _ _ _ Hrun (start_inv nd0 env0 label index mail Hb Hopen Hq))
    as [[h Hs] _ _ Hreg Hun Hwait Honce _ Ho].
  split_and!.
  - intros a. rewrite get_session_index.
    transitivity (registered (ns_node s) a); [|rewrite Hreg; naive_solver].
    unfold registered. destruct (primary (sessions (ns_node s)) !! a) as [[l v]|] eqn:Ea.
    + rewrite (si_key _ _ _ _ _ Hs _ _ _ Ea). naive_solver.
    + split; [done|by intros [? ?]].
  - rewrite !NoDup_app. setoid_rewrite elem_of_app. setoid_rewrite elem_of_elements.
    split_and!; [apply NoDup_elements| |done| |apply NoDup_elements].
    + intros a Ha [Hw|Hu]; [by destruct (Hwait a Hw)|set_solver].
    + intros a Hw. by destruct (Hwait a Hw).
  - intros a r _. destruct (report_end_cases a r (ns_mail s) Ho) as (mail' & -> & _ & Hq').
    exists mail'. split; [done|]. unfold waiting_reports. rewrite Hq', omap_app. f_equal.
    unfold told_terminated. destruct (cv_full _); [done|]. simpl. rewrite terminal_report.
    by destruct (is_ok r).
Qed.
End System.

(** ** A run, as witness: a session ends while the mailbox of the node is full *)

Section Run.

Abbreviation mail1 q := (mkSendState (ChanView q 1 0 1 false) 0 : SendState chan_view (Envelope NodeMsg)).

Definition w_command : Envelope NodeMsg := pack (MsgUser (Connect (Err "refused") None)) None.

Definition w_first : Node * NodeContext * list NodeEffect :=
  NodeContext_turn w_display (w_env 2) (NInAccepted 0 (Ok "peer"))
    (Node_post_start (w_env 1) w_node).1.2
    (NodeContext_set_state Running (NodeContext_with_capacity "node" 0)).

Definition w_second : Node * NodeContext * list NodeEffect :=
  NodeContext_turn w_display (w_env 3) (NInEnvelope (Some (Connect (Err "refused") None)))
    w_first.1.1 w_first.1.2.

Definition w_after : NodeSys (chan := chan_view) :=
  mkNodeSys w_second.1.1 w_second.1.2 (mail1 []) {[ActorId_new 3; ActorId_new 2; ActorId_new 0; ActorId_new 1]}
    ∅ {[ActorId_new 2]}.

Lemma triple_eta {X Y Z} (x : X * Y * Z) : x = (x.1.1, x.1.2, x.2).
Proof. by destruct x as [[? ?] ?]. Qed.

Lemma w_fresh n (used : gset ActorId) : bool_decide (ActorId_new n ∉ used) = true -> fresh_for (w_env n) used.
Proof. intros Hb%bool_decide_eq_true. by split. Qed.

Lemma w_sys_run : rtc (sys_step w_display) (sys_start w_node (w_env 1) "node" 0 (mail1 [])) w_after.
Proof.
  eapply rtc_l.
  { eapply (sys_accept _ (w_env 2) (NInAccepted 0 (Ok "peer"))); [done|done|by apply w_fresh|].
    apply triple_eta. }
  eapply rtc_l.
  { apply (sys_others _ _ _ _ (mail1 [w_command])). exists [w_command]. split_and!; [done| |done]. by apply Forall_singleton. }
  eapply rtc_l.
  { apply (sys_end _ (ActorId_new 2) (Ok (Ok tt)) false _ _ _ (mail1 [w_command])); [|done].
    apply (bool_decide_unpack _). by vm_compute. }
  eapply rtc_l.
  { eapply (sys_command _ (w_env 3) w_command _ _ _ _ (mail1 [])); [by vm_compute|done|done|by apply w_fresh|].
    apply triple_eta. }
  match goal with |- rtc _ ?x _ => assert (x = w_after) as ->; [|apply rtc_refl] end.
  unfold w_after. f_equal.
Qed.

Lemma w_open : mail_closed (mail1 []) = false.
Proof. done. Qed.

Lemma w_no_report : Forall (fun e => envelope_report e = None) (mail_queue (mail1 [])).
Proof. constructor. Qed.

(** Nothing runs, nothing waits, and the session is still there. *)
Lemma node_tracks_sessions_witness :
  (ns_running w_after = ∅ /\ waiting_reports (ns_mail w_after) = []) /\
  Node_get_session w_display (ActorRefIndex (ActorId_new 2)) (ns_node w_after) = Ok (ActorId_new 2).
Proof.
  split; [done|].
  apply (proj1 (node_tracks_sessions w_display w_node (w_env 1) "node" 0 (mail1 []) w_after w_built w_open
                  w_no_report w_sys_run)).
  right; right. by apply elem_of_singleton.
Defined.
End Run.
