(* ===== verification/Remote.v ===== *)
(** * Addresses of actors in other processes

    Models acktor/src/address/remote.rs (the proxy interface, [RemoteAddress] and
    [RemoteRecipient] with their eight ways to send, and the task that decodes a response),
    codec/table.rs (the codec of a message behind [dyn Any]), address.rs (an [Address] is
    local or remote) and the recipients of address/recipient.rs that can be reached from
    another process. The Rust types of messages and responses are a universe: a type is an
    identifier, and [dyn Any] is a value with the identifier of its type. *)

From S2P Require Import Prelude Tokio ActorTypes UserCode WireLibs Codec IpcMessages Address.
From S2P Require Import Registry ErrorReport.

(** ** Message types *)

(** [TypeId] with what Rust knows of the types the program uses: their values, the response
    type of a message ([Message::Result]) and its identifier ([MessageId::ID]). *)
Class MessageTypes (TypeId : Type) : Type := {
  ty : TypeId -> Type;
  result_of : TypeId -> TypeId;
  message_id : TypeId -> Z;
}.

Section Any.
Context {TypeId : Type} `{EqDecision TypeId} `{!MessageTypes TypeId}.

Definition Any : Type := { k : TypeId & ty k }.

Definition Any_type_id (a : Any) : TypeId := projT1 a.

(** [downcast] and [downcast_ref]. *)
Definition downcast (k : TypeId) (a : Any) : option (ty k) :=
  match decide (projT1 a = k) with
  | left Heq => Some (eq_rect (projT1 a) ty (projT2 a) k Heq)
  | right _ => None
  end.
End Any.
Arguments Any TypeId {_}.

(** [Encode::encode_to_bytes] and [Decode::decode] of each type: user code or derived. *)
Class TypeCodec (TypeId B R : Type) `{!MessageTypes TypeId} : Type := {
  encode_ty (k : TypeId) : ty k -> option (EncodeContext R) -> R -> result (list Z) EncodeError * R;
  decode_ty (k : TypeId) : B -> option DecodeContext -> result (ty k) DecodeError;
}.

(** ** Codec tables (codec/table.rs) *)

Record MessageCodec (TypeId B R : Type) `{!MessageTypes TypeId} : Type := mkMessageCodec {
  mc_message_id : Z;
  mc_encode_msg : Any TypeId -> option (EncodeContext R) -> R ->
    outcome (result (list Z) EncodeError * R);
  mc_decode_res : B -> option DecodeContext -> result (Any TypeId) DecodeError;
}.
Arguments mkMessageCodec {TypeId B R _} _ _ _.
Arguments mc_message_id {TypeId B R _} _.
Arguments mc_encode_msg {TypeId B R _} _ _ _ _.
Arguments mc_decode_res {TypeId B R _} _ _ _.

Definition CodecTable (TypeId B R : Type) `{Countable TypeId} `{!MessageTypes TypeId} : Type :=
  gmap TypeId (MessageCodec TypeId B R).

(** ** Remote proxies *)

(** How a send ends: [None] while it still waits for room. *)
Definition sending (P : Type) : Type := outcome (option (result unit (SendError string unit)) * P).

(** [trait RemoteProxy]; [rp_closed] is a poll of the future. [R] is what its encode context changes, [P] what its sends change. *)
Record RemoteProxy (R P : Type) : Type := mkRemoteProxy {
  rp_index : Z;
  rp_encode_context : option (EncodeContext R);
  rp_decode_context : option DecodeContext;
  rp_closed : P -> Poll unit;
  rp_is_closed : P -> bool;
  rp_capacity : P -> nat;
  rp_do_send : BinaryMessage -> P -> sending P;
  rp_try_do_send : BinaryMessage -> P -> sending P;
  rp_do_send_timeout : BinaryMessage -> P -> sending P;
  rp_blocking_do_send : BinaryMessage -> P -> sending P;
}.
Arguments mkRemoteProxy {R P} _ _ _ _ _ _ _ _ _ _.
Arguments rp_index {R P} _.
Arguments rp_encode_context {R P} _.
Arguments rp_decode_context {R P} _.
Arguments rp_closed {R P} _ _.
Arguments rp_is_closed {R P} _ _.
Arguments rp_capacity {R P} _ _.
Arguments rp_do_send {R P} _ _ _.
Arguments rp_try_do_send {R P} _ _ _.
Arguments rp_do_send_timeout {R P} _ _ _.
Arguments rp_blocking_do_send {R P} _ _ _.

(** What sends change: the registry, the proxy, and the name of the next channel. *)
Record RemoteState (R P : Type) : Type := mkRemoteState {
  rs_registry : R;
  rs_proxy : P;
  rs_next : nat;
}.
Arguments mkRemoteState {R P} _ _ _.
Arguments rs_registry {R P} _.
Arguments rs_proxy {R P} _.
Arguments rs_next {R P} _.

Section Remote.
Context {TypeId B R P : Type} `{Countable TypeId} `{!MessageTypes TypeId}
  `{!TypeCodec TypeId B R}.
Implicit Types (st : RemoteState R P) (proxy : RemoteProxy R P).

Abbreviation Codec := (MessageCodec TypeId B R).

(** The task that decodes a response: it owns the raw receiver and the sender of the typed
    channel; a [RemoteAddress] decodes through the codec, a [RemoteRecipient] directly. *)
Record DecodeTask : Type := mkDecodeTask {
  dt_raw : nat;
  dt_tx : nat;
  dt_message : TypeId;
  dt_codec : option Codec;
  dt_context : option DecodeContext;
}.

(** [decode_res]: what the task sends on the typed channel when the raw one resolves.
    (When the caller drops its receiver first, it sends nothing.) *)
Definition decode_res (codec : Codec) (m : TypeId) (ctx : option DecodeContext)
    (raw : result B (RecvError string)) : result (ty (result_of m)) string :=
  match raw with
  | Err e => Err (report e)
  | Ok bytes =>
      match mc_decode_res codec bytes ctx with
      | Ok boxed =>
          match downcast (result_of m) boxed with
          | Some res => Ok res
          | None => Err (report (DecodeOther "downcast failed"))
          end
      | Err e => Err (report (DecodeOther (report e)))
      end
  end.

(** [decode_res_with_bound]. *)
Definition decode_res_with_bound (m : TypeId) (ctx : option DecodeContext)
    (raw : result B (RecvError string)) : result (ty (result_of m)) string :=
  match raw with
  | Err e => Err (report e)
  | Ok bytes =>
      result_map_err (fun e => report (DecodeOther (report e)))
        (decode_ty (result_of m) bytes ctx)
  end.

Definition DecodeTask_run (t : DecodeTask) (raw : result B (RecvError string))
    : result (ty (result_of (dt_message t))) string :=
  match dt_codec t with
  | Some codec => decode_res codec (dt_message t) (dt_context t) raw
  | None => decode_res_with_bound (dt_message t) (dt_context t) raw
  end.

(** ** [RemoteAddress] *)

Record RemoteAddress : Type := mkRemoteAddress {
  rma_actor_id : ActorId;
  rma_codec_table : CodecTable TypeId B R;
  rma_proxy : RemoteProxy R P;
}.
Implicit Types (a : RemoteAddress).

Definition RemoteAddress_new (index : Z) (codec_table : CodecTable TypeId B R) proxy : RemoteAddress :=
  mkRemoteAddress (ActorId_new_remote index (rp_index proxy)) codec_table proxy.

Definition RemoteAddress_index a : ActorId := rma_actor_id a.

Definition RemoteAddress_closed a (p : P) : Poll unit := rp_closed (rma_proxy a) p.
Definition RemoteAddress_is_closed a (p : P) : bool := rp_is_closed (rma_proxy a) p.

Definition RemoteAddress_capacity a (p : P) : nat := rp_capacity (rma_proxy a) p.

(** [let (raw_tx, raw_rx) = oneshot::channel()]. *)
Definition remote_channel st : nat * RemoteState R P :=
  (rs_next st, mkRemoteState (rs_registry st) (rs_proxy st) (S (rs_next st))).

Section Sends.
(** A message of the caller's type, and the same message as [dyn Any]. *)
Context {M : Type} (erase : M -> Any TypeId).
Implicit Types (msg : M).

(** What the sends with a response have in common; [op] is the proxy's way to send. *)
Definition RemoteAddress_send_via (op : BinaryMessage -> P -> sending P) a msg st
    : outcome (option (result nat (SendError string M)) * RemoteState R P * list DecodeTask) :=
  match rma_codec_table a !! Any_type_id (erase msg) with
  | None => Done (Some (Err (SendNoEncodeFn msg)), st, [])
  | Some codec =>
      let! (encoded, reg) :=
        mc_encode_msg codec (erase msg) (rp_encode_context (rma_proxy a)) (rs_registry st) in
      let st := mkRemoteState reg (rs_proxy st) (rs_next st) in
      match encoded with
      | Err e => Done (Some (Err (SendOther (report e) msg)), st, [])
      | Ok bytes =>
          let (raw, st) := remote_channel st in
          let! (sent, p) :=
            op (BinaryMessage_send (ActorId_as_local (RemoteAddress_index a)) (mc_message_id codec)
                  bytes raw) (rs_proxy st) in
          let st := mkRemoteState (rs_registry st) p (rs_next st) in
          match sent with
          | None => Done (None, st, [])
          | Some (Err e) => Done (Some (Err (SendError_with_msg e msg)), st, [])
          | Some (Ok _) =>
              let (tx, st) := remote_channel st in
              Done (Some (Ok tx), st,
                    [mkDecodeTask raw tx (Any_type_id (erase msg)) (Some codec)
                       (rp_decode_context (rma_proxy a))])
          end
      end
  end.

(** And those without. *)
Definition RemoteAddress_do_send_via (op : BinaryMessage -> P -> sending P) a msg st
    : outcome (option (result unit (SendError string M)) * RemoteState R P) :=
  match rma_codec_table a !! Any_type_id (erase msg) with
  | None => Done (Some (Err (SendNoEncodeFn msg)), st)
  | Some codec =>
      let! (encoded, reg) :=
        mc_encode_msg codec (erase msg) (rp_encode_context (rma_proxy a)) (rs_registry st) in
      let st := mkRemoteState reg (rs_proxy st) (rs_next st) in
      match encoded with
      | Err e => Done (Some (Err (SendOther (report e) msg)), st)
      | Ok bytes =>
          let! (sent, p) :=
            op (BinaryMessage_do_send (ActorId_as_local (RemoteAddress_index a)) (mc_message_id codec)
                  bytes) (rs_proxy st) in
          Done (result_map_err (fun e => SendError_with_msg e msg) <$> sent,
                mkRemoteState (rs_registry st) p (rs_next st))
      end
  end.

Definition RemoteAddress_send a := RemoteAddress_send_via (rp_do_send (rma_proxy a)) a.
Definition RemoteAddress_do_send a := RemoteAddress_do_send_via (rp_do_send (rma_proxy a)) a.
Definition RemoteAddress_try_send a := RemoteAddress_send_via (rp_try_do_send (rma_proxy a)) a.
Definition RemoteAddress_try_do_send a := RemoteAddress_do_send_via (rp_try_do_send (rma_proxy a)) a.
Definition RemoteAddress_send_timeout a := RemoteAddress_send_via (rp_do_send_timeout (rma_proxy a)) a.
Definition RemoteAddress_do_send_timeout a :=
  RemoteAddress_do_send_via (rp_do_send_timeout (rma_proxy a)) a.
Definition RemoteAddress_blocking_send a := RemoteAddress_send_via (rp_blocking_do_send (rma_proxy a)) a.
Definition RemoteAddress_blocking_do_send a :=
  RemoteAddress_do_send_via (rp_blocking_do_send (rma_proxy a)) a.
End Sends.

(** ** [RemoteRecipient]: one message type, encoded without a table *)

Record RemoteRecipient : Type := mkRemoteRecipient {
  rr_actor_id : ActorId;
  rr_proxy : RemoteProxy R P;
}.
Implicit Types (rr : RemoteRecipient).

Definition RemoteRecipient_new (index : Z) proxy : RemoteRecipient :=
  mkRemoteRecipient (ActorId_new_remote index (rp_index proxy)) proxy.

Definition RemoteRecipient_index rr : ActorId := rr_actor_id rr.

(** The decode task is spawned before the message is sent. *)
Definition RemoteRecipient_send_via (k : TypeId) (op : BinaryMessage -> P -> sending P) rr
    (msg : ty k) st
    : outcome (option (result nat (SendError string (ty k))) * RemoteState R P * list DecodeTask) :=
  let (encoded, reg) := encode_ty k msg (rp_encode_context (rr_proxy rr)) (rs_registry st) in
  let st := mkRemoteState reg (rs_proxy st) (rs_next st) in
  match encoded with
  | Err e => Done (Some (Err (SendOther (report e) msg)), st, [])
  | Ok bytes =>
      let (raw, st) := remote_channel st in
      let (tx, st) := remote_channel st in
      let tasks := [mkDecodeTask raw tx k None (rp_decode_context (rr_proxy rr))] in
      let! (sent, p) :=
        op (BinaryMessage_send (ActorId_as_local (RemoteRecipient_index rr)) (message_id k) bytes raw)
           (rs_proxy st) in
      let st := mkRemoteState (rs_registry st) p (rs_next st) in
      match sent with
      | None => Done (None, st, tasks)
      | Some (Err e) => Done (Some (Err (SendError_with_msg e msg)), st, tasks)
      | Some (Ok _) => Done (Some (Ok tx), st, tasks)
      end
  end.

Definition RemoteRecipient_do_send_via (k : TypeId) (op : BinaryMessage -> P -> sending P) rr
    (msg : ty k) st : outcome (option (result unit (SendError string (ty k))) * RemoteState R P) :=
  let (encoded, reg) := encode_ty k msg (rp_encode_context (rr_proxy rr)) (rs_registry st) in
  let st := mkRemoteState reg (rs_proxy st) (rs_next st) in
  match encoded with
  | Err e => Done (Some (Err (SendOther (report e) msg)), st)
  | Ok bytes =>
      let! (sent, p) :=
        op (BinaryMessage_do_send (ActorId_as_local (RemoteRecipient_index rr)) (message_id k) bytes)
           (rs_proxy st) in
      Done (result_map_err (fun e => SendError_with_msg e msg) <$> sent,
            mkRemoteState (rs_registry st) p (rs_next st))
  end.

Definition RemoteRecipient_send k rr := RemoteRecipient_send_via k (rp_do_send (rr_proxy rr)) rr.
Definition RemoteRecipient_do_send k rr := RemoteRecipient_do_send_via k (rp_do_send (rr_proxy rr)) rr.
Definition RemoteRecipient_try_send k rr := RemoteRecipient_send_via k (rp_try_do_send (rr_proxy rr)) rr.
Definition RemoteRecipient_try_do_send k rr :=
  RemoteRecipient_do_send_via k (rp_try_do_send (rr_proxy rr)) rr.
Definition RemoteRecipient_send_timeout k rr :=
  RemoteRecipient_send_via k (rp_do_send_timeout (rr_proxy rr)) rr.
Definition RemoteRecipient_do_send_timeout k rr :=
  RemoteRecipient_do_send_via k (rp_do_send_timeout (rr_proxy rr)) rr.
Definition RemoteRecipient_blocking_send k rr :=
  RemoteRecipient_send_via k (rp_blocking_do_send (rr_proxy rr)) rr.
Definition RemoteRecipient_blocking_do_send k rr :=
  RemoteRecipient_do_send_via k (rp_blocking_do_send (rr_proxy rr)) rr.
End Remote.
Arguments DecodeTask TypeId B R {_}.
Arguments RemoteAddress TypeId B R P {_ _ _}.
Arguments RemoteRecipient R P : clear implicits.
