(* ===== verification/SessionProxy.v ===== *)
(** * The proxy of a session

    Models the sends of acktor-ipc/src/session/proxy.rs: a [Proxy] implements the interface
    of Remote.v with the mailbox of its session, so a message for a remote actor is queued
    as a message for the session. The laws a client relies on ([RemoteProxyLaws]) are a
    class, which the last section discharges for this implementation. *)

From S2P Require Import Prelude Tokio ActorTypes UserCode WireLibs Codec Registry IpcMessages.
From S2P Require Import Address AddressTheorems Session Remote.

(** ** What clients rely on *)

(** A send never panics, and a message it reports sent is the last one queued. *)
Definition delivers {P} (queue : P -> list BinaryMessage) (op : BinaryMessage -> P -> sending P)
    : Prop :=
  forall m p, exists o p', op m p = Done (o, p') /\
    (o = Some (Ok tt) -> last (queue p') = Some m).

(** A send that does not wait changes nothing but the end of the queue. *)
Definition delivers_now {P} (queue : P -> list BinaryMessage) (op : BinaryMessage -> P -> sending P)
    : Prop :=
  forall m p, exists r p', op m p = Done (Some r, p') /\
    queue p' = if is_ok r then queue p ++ [m] else queue p.

(** Inside the runtime a blocking send panics. *)
Definition delivers_blocking {P} `{CallContext} (queue : P -> list BinaryMessage)
    (op : BinaryMessage -> P -> sending P) : Prop :=
  if in_runtime then forall m p, exists info, op m p = Panicked info else delivers queue op.

Class RemoteProxyLaws {R P : Type} `{CallContext} (proxy : RemoteProxy R P) (queue : P -> list BinaryMessage)
    : Prop := {
  rp_closed_law p : rp_closed proxy p = closed_poll (rp_is_closed proxy p);
  rp_do_send_law : delivers queue (rp_do_send proxy);
  rp_try_do_send_law : delivers_now queue (rp_try_do_send proxy);
  rp_do_send_timeout_law : delivers queue (rp_do_send_timeout proxy);
  rp_blocking_do_send_law : delivers_blocking queue (rp_blocking_do_send proxy);
}.

Lemma delivers_now_delivers {P} (queue : P -> list BinaryMessage) op :
  delivers_now queue op -> delivers queue op.
Proof.
  intros Hd m p. destruct (Hd m p) as (r & p' & Hop & Hq). exists (Some r), p'. split; [done|].
  intros [= ->]. rewrite Hq. simpl. by rewrite last_snoc.
Qed.

(** ** The implementation *)

Section Proxy.
Context {chan : Type -> Type} `{TokioMpsc chan} `{CallContext}.

Abbreviation SessionMail := (SendState chan (Envelope SessionMsg)).
Implicit Types (p : SessionMail).

(** What other tasks do to the mailbox while a send waits, and the timer of a send. *)
Context (others : list (chan (Envelope SessionMsg) -> chan (Envelope SessionMsg))).
Context (timer : list bool).

(** Awaiting a send with a timeout: like [SendFuture_await], with the timer looked at by
    each poll. *)
Fixpoint SendTimeoutFuture_await {M} (f : SendFuture M) (timer : list bool)
    (others : list (chan (Envelope M) -> chan (Envelope M))) (s : SendState chan (Envelope M))
    : outcome (option (result (option nat) (SendError string (Outgoing M))) *
               SendState chan (Envelope M)) :=
  let! (r, s) := SendTimeoutFuture_poll (default true (head timer)) f s in
  match r, others with
  | Ready r, _ => Done (Some r, s)
  | Pending, [] => Done (None, s)
  | Pending, g :: others =>
      SendTimeoutFuture_await f (tail timer) others (mkSendState (g (ss_chan s)) (ss_next s))
  end.

(** [map_err(|e| e.without_msg())]; the response channel of a [do_send] is [None]. *)
Definition drop_msg {X} (r : result X (SendError string (Outgoing SessionMsg)))
    : result unit (SendError string unit) :=
  result_map_err SendError_without_msg (result_map (fun _ => tt) r).

Definition to_session (msg : BinaryMessage) : Outgoing SessionMsg := OutPlain (MsgUser (SmBinary msg)).

Definition Proxy_do_send (msg : BinaryMessage) p : sending SessionMail :=
  let (f, p) := LocalAddress_do_send (to_session msg) p in
  let! (r, p) := SendFuture_await (BoxError := string) f others p in
  Done (drop_msg <$> r, p).

Definition Proxy_try_do_send (msg : BinaryMessage) p : sending SessionMail :=
  let! (r, p) := LocalAddress_try_do_send (BoxError := string) (to_session msg) p in
  Done (Some (drop_msg r), p).

Definition Proxy_do_send_timeout (msg : BinaryMessage) p : sending SessionMail :=
  let (f, p) := LocalAddress_do_send_timeout (to_session msg) p in
  let! (r, p) := SendTimeoutFuture_await f timer others p in
  Done (drop_msg <$> r, p).

Definition Proxy_blocking_do_send (msg : BinaryMessage) p : sending SessionMail :=
  let! (r, p) := LocalAddress_blocking_do_send (BoxError := string) (to_session msg) others p in
  Done (drop_msg <$> r, p).

Definition Proxy_closed p : Poll unit := LocalAddress_closed p.
Definition Proxy_is_closed p : bool := LocalAddress_is_closed p.
Definition Proxy_capacity p : nat := LocalAddress_capacity p.

(** [impl RemoteProxy for Proxy] over the session with this index. *)
Definition Proxy_impl (session : Z) : RemoteProxy registry SessionMail :=
  mkRemoteProxy session (Some Proxy_register) (Some (Proxy_decode_context session true))
    Proxy_closed Proxy_is_closed Proxy_capacity Proxy_do_send Proxy_try_do_send
    Proxy_do_send_timeout Proxy_blocking_do_send.

(** The binary messages in the mailbox of the session. *)
Definition binary_of (e : Envelope SessionMsg) : option BinaryMessage :=
  match e with
  | DefaultEnvelopeProxy (Some (MsgUser (SmBinary m))) _ => Some m
  | _ => None
  end.

Definition session_queue p : list BinaryMessage := omap binary_of (cv_queue (mpsc_view (ss_chan p))).
End Proxy.

(** ** The laws hold *)

Section Laws.
Context {chan : Type -> Type} `{TokioMpsc chan} `{CallContext}.
#[local] Set Default Proof Using "Type*".
Implicit Types (p : SendState chan (Envelope SessionMsg)) (m : BinaryMessage).

Lemma session_queue_snoc p c n m tx :
  mpsc_view (ss_chan p) = AddressTheorems.queued (mpsc_view c) (pack_out (to_session m) tx) ->
  session_queue p = session_queue (mkSendState c n) ++ [m].
Proof. unfold session_queue. intros ->. simpl. by rewrite omap_app. Qed.

Lemma session_await m tx others p :
  exists o p', SendFuture_await (BoxError := string)
      (mkSendFuture (pack_out (to_session m) tx) tx (is_timed (to_session m))) others p = Done (o, p') /\
    (drop_msg <$> o = Some (Ok tt) -> last (session_queue p') = Some m).
Proof.
  destruct (SendFuture_await_cases (BoxError := string) (to_session m) tx others p)
    as (o & p' & Ho & _ & Hcase).
  exists o, p'. split; [done|]. destruct o as [[rx|e]|]; simpl; try done.
  intros _. destruct Hcase as (_ & c & _ & _ & Hv).
  rewrite (session_queue_snoc p' c 0 m tx Hv). by rewrite last_snoc.
Qed.

Lemma SendTimeoutFuture_await_cases m tx timer others p :
  exists o p', SendTimeoutFuture_await
      (mkSendFuture (pack_out (to_session m) tx) tx (is_timed (to_session m))) timer others p = Done (o, p') /\
    (drop_msg <$> o = Some (Ok tt) -> last (session_queue p') = Some m).
Proof.
  revert timer p. induction others as [|g others IH]; intros timer p; simpl;
    unfold SendTimeoutFuture_poll; simpl;
    destruct (try_send_cases (ss_chan p) (pack_out (to_session m) tx))
      as [c' [(Ht & ? & Hv)|[(Ht & ? & ? & Hv)|(Ht & ? & ? & Hv)]]]; simpl in Ht; rewrite Ht; simpl.
  - eexists (Some (Err _)), _. by split; [|].
  - destruct (default true (head timer)); simpl; [by eexists (Some (Err _)), _|by eexists None, _].
  - eexists (Some (Ok _)), _. split; [done|]. intros _.
    rewrite (session_queue_snoc (mkSendState c' (ss_next p)) (ss_chan p) 0 m tx Hv). by rewrite last_snoc.
  - eexists (Some (Err _)), _. by split; [|].
  - destruct (default true (head timer)); simpl; [by eexists (Some (Err _)), _|apply IH].
  - eexists (Some (Ok _)), _. split; [done|]. intros _.
    rewrite (session_queue_snoc (mkSendState c' (ss_next p)) (ss_chan p) 0 m tx Hv). by rewrite last_snoc.
Qed.

#[export] Instance Proxy_laws others timer session :
  RemoteProxyLaws (Proxy_impl others timer session) session_queue.
Proof.
  split; simpl.
  - done.
  - intros m p. unfold Proxy_do_send, LocalAddress_do_send.
    destruct (session_await m None others p) as (o & p' & -> & Ho). simpl. eauto.
  - intros m p. unfold Proxy_try_do_send, LocalAddress_try_do_send.
    destruct (try_send_cases (ss_chan p) (pack_out (to_session m) None))
      as [c' [(Ht & ? & Hv)|[(Ht & ? & ? & Hv)|(Ht & ? & ? & Hv)]]]; rewrite Ht; simpl;
      eexists _, _; (split; [done|]); simpl.
    + unfold session_queue. simpl. by rewrite Hv.
    + unfold session_queue. simpl. by rewrite Hv.
    + unfold session_queue. simpl. rewrite Hv. simpl. by rewrite omap_app.
  - intros m p. unfold Proxy_do_send_timeout, LocalAddress_do_send_timeout, LocalAddress_do_send.
    destruct (SendTimeoutFuture_await_cases m None timer others p) as (o & p' & -> & Ho). simpl. eauto.
  - unfold delivers_blocking, Proxy_blocking_do_send, LocalAddress_blocking_do_send,
      LocalAddress_do_send, block_on.
    destruct in_runtime; intros m p; [simpl; eauto|].
    destruct (session_await m None others p) as (o & p' & -> & Ho). simpl. eauto.
Qed.
End Laws.
