(* ===== verification/RemoteAddressable.v ===== *)
(** * Actors that can be reached from other processes

    Models what [#[derive(RemoteAddressable)]] of acktor-derive/src/remote_addressable.rs
    generates for an actor and its list of messages (the codec table, the handler of binary
    messages and the compile-time check that the identifiers are unique), and the
    recipients of acktor/src/address/recipient.rs that turn binary messages into typed ones
    ([RemoteAddressableProxy]). *)

From S2P Require Import Prelude Tokio ActorTypes UserCode WireLibs Codec IpcMessages Remote.
From S2P Require Import Registry ErrorReport.

Section Derive.
Context {TypeId B R : Type} `{Countable TypeId} `{!MessageTypes TypeId} `{!TypeCodec TypeId B R}.

(** [codec_table()]: one entry per message of the list, inserted in order. *)
Definition derived_codec (k : TypeId) : MessageCodec TypeId B R :=
  mkMessageCodec (message_id k)
    (fun any ctx r =>
       let! m := expect (downcast k any) "TypeId invariant" in Done (encode_ty k m ctx r))
    (fun bytes ctx =>
       let? r := decode_ty (result_of k) bytes ctx in Ok (existT (result_of k) r)).

Definition derived_codec_table (messages : list TypeId) : CodecTable TypeId B R :=
  fold_left (fun map k => <[k := derived_codec k]> map) messages ∅.

(** The two loops of the [const] assertion. *)
Fixpoint uniqueness_check_from (id : Z) (ids : list Z) : bool :=
  match ids with
  | [] => true
  | id' :: ids => if (id =? id')%Z then false else uniqueness_check_from id ids
  end.

Fixpoint uniqueness_check (ids : list Z) : bool :=
  match ids with
  | [] => true
  | id :: ids => if uniqueness_check_from id ids then uniqueness_check ids else false
  end.

(** ** The handler of binary messages *)

(** The actor: handling a message changes it, and what its response channel gives. *)
Context {A : Type}.
Context (handler : forall k : TypeId, ty k -> A -> A * result (ty (result_of k)) (RecvError string)).

(** [send_result]: what the raw response channel is sent. *)
Definition send_result (k : TypeId) (res : result (ty (result_of k)) (RecvError string))
    (ctx : option (EncodeContext R)) (r : R) : result (list Z) string * R :=
  match res with
  | Ok v =>
      match encode_ty (result_of k) v ctx r with
      | (Ok bytes, r) => (Ok bytes, r)
      | (Err e, r) => (Err (report e), r)
      end
  | Err e => (Err (report e), r)
  end.

(** One arm of the generated match; [respond] says whether there is a response channel. *)
Definition derived_arm (k : TypeId) (bytes : B) (respond : bool) (decode_msg_ctx : option DecodeContext)
    (encode_res_ctx : option (EncodeContext R)) (a : A) (r : R)
    : A * option (result (list Z) string) * R :=
  match decode_ty k bytes decode_msg_ctx with
  | Ok msg =>
      let (a, res) := handler k msg a in
      if respond then
        let (out, r) := send_result k res encode_res_ctx r in (a, Some out, r)
      else (a, None, r)
  | Err e => (a, if respond then Some (Err (report e)) else None, r)
  end.

(** [Handler<BinaryMessage>::handle]: the first arm with the identifier. *)
Definition BinaryMessage_handle (messages : list TypeId) (msg_id : Z) (bytes : B) (respond : bool)
    (decode_msg_ctx : option DecodeContext) (encode_res_ctx : option (EncodeContext R)) (a : A) (r : R)
    : A * option (result (list Z) string) * R :=
  match List.find (fun k => (message_id k =? msg_id)%Z) messages with
  | Some k => derived_arm k bytes respond decode_msg_ctx encode_res_ctx a r
  | None =>
      (a, if respond then Some (Err (report (UnknownMessageId msg_id))) else None, r)
  end.

(** ** A typed channel behind a remote mailbox (address/recipient.rs) *)

(** What the task of [remote_mailbox] wakes up for: a message with the bytes it carries, or
    one of the two channels closed; [sent] says whether the typed channel took the message. *)
Inductive ForwardInput : Type :=
| FwMessage (m : BinaryMessage) (bytes : B) (decode_msg_ctx : option DecodeContext) (sent : bool)
| FwInboundClosed
| FwOutboundClosed.

(** One turn for the recipient of messages of type [k] with this index: what it sends on,
    and whether the task goes on. *)
Definition RemoteAddressableProxy_turn (k : TypeId) (index : Z) (i : ForwardInput)
    : option (ty k) * bool :=
  match i with
  | FwInboundClosed | FwOutboundClosed => (None, false)
  | FwMessage m bytes decode_msg_ctx sent =>
      if negb (bm_actor_id m =? index)%Z || negb (bm_message_id m =? message_id k)%Z
         || is_some (bm_result_tx m)
      then (None, true)
      else
        match decode_ty k bytes decode_msg_ctx with
        | Ok message => (Some message, sent)
        | Err e => (None, true)
        end
  end.

(** The loop: the messages it tried to send on, in order, and whether it still runs. *)
Fixpoint RemoteAddressableProxy_loop (k : TypeId) (index : Z) (inputs : list ForwardInput)
    : list (ty k) * bool :=
  match inputs with
  | [] => ([], true)
  | i :: inputs =>
      let (out, go) := RemoteAddressableProxy_turn k index i in
      let (outs, running) := if go : bool then RemoteAddressableProxy_loop k index inputs else ([], false) in
      (option_list out ++ outs, running)
  end.
End Derive.

(** ** Facts *)

Section DeriveFacts.
Context {TypeId B R : Type} `{Countable TypeId} `{!MessageTypes TypeId} `{!TypeCodec TypeId B R}.
#[local] Set Default Proof Using "Type*".

Lemma downcast_same (k : TypeId) (m : ty k) : downcast k (existT k m) = Some m.
Proof.
  unfold downcast. simpl. destruct (decide (k = k)) as [Heq|]; [|done].
  by rewrite (Eqdep_dec.UIP_dec (fun a b => decide (a = b)) Heq eq_refl).
Qed.

Lemma uniqueness_check_from_spec id ids : uniqueness_check_from id ids = true <-> id ∉ ids.
Proof.
  induction ids as [|id' ids IH]; simpl; [set_solver|].
  destruct (Z.eqb_spec id id') as [->|Hne]; [set_solver|]. rewrite IH. set_solver.
Qed.

(** The assertion accepts exactly the lists without repetition. *)
Lemma uniqueness_check_spec ids : uniqueness_check ids = true <-> NoDup ids.
Proof.
  induction ids as [|id ids IH]; simpl; [by split; [constructor|]|].
  rewrite NoDup_cons, <- uniqueness_check_from_spec, <- IH.
  destruct (uniqueness_check_from id ids); naive_solver.
Qed.

Lemma codec_table_fold messages (map : CodecTable TypeId B R) k :
  fold_left (fun map k => <[k := derived_codec k]> map) messages map !! k =
    if decide (k ∈ messages) then Some (derived_codec k) else map !! k.
Proof.
  revert map. induction messages as [|k' messages IH]; intros map; cbn [fold_left]; [by rewrite decide_False by set_solver|].
  rewrite IH. unfold CodecTable in *. destruct (decide (k = k')) as [->|Hne].
  - rewrite lookup_insert_eq. repeat case_decide; set_solver.
  - rewrite lookup_insert_ne by done. repeat case_decide; set_solver.
Qed.

Lemma derived_codec_table_lookup messages k :
  (derived_codec_table messages : CodecTable TypeId B R) !! k =
    if decide (k ∈ messages) then Some (derived_codec k) else None.
Proof. unfold derived_codec_table. rewrite codec_table_fold. by case_decide. Qed.

(** With unique identifiers, the first arm with the identifier of a message is its own. *)
Lemma find_message messages k :
  NoDup (message_id <$> messages) -> k ∈ messages ->
  List.find (fun k' => (message_id k' =? message_id k)%Z) messages = Some k.
Proof.
  induction messages as [|k' messages IH]; simpl; intros Hnd Hin; [set_solver|].
  apply NoDup_cons in Hnd as [Hn Hnd]. apply elem_of_cons in Hin as [->|Hin].
  - by rewrite Z.eqb_refl.
  - destruct (Z.eqb_spec (message_id k') (message_id k)) as [He|He]; [|by apply IH].
    destruct Hn. rewrite He. by apply list_elem_of_fmap_2.
Qed.
End DeriveFacts.
