(* ===== verification/RemoteTheorems.v ===== *)
(** * Talking to an actor in another process

    Theorems about Remote.v and RemoteAddressable.v, for any proxy that keeps its promises
    (SessionProxy.v): a send queues the encoded message or hands the message back; an
    address with the derived codec table and a typed recipient behave the same; a typed
    channel receives exactly what is meant for it; and a call through two sessions runs the
    very handler of the message and brings back its very result. *)

From S2P Require Import Prelude Tokio ActorTypes UserCode WireLibs Codec Registry IpcMessages.
From S2P Require Import Session ErrorReport SessionNet SessionTheorems Address Remote SessionProxy RemoteAddressable.

Section Sends.
Context {TypeId B R P : Type} `{Countable TypeId} `{!MessageTypes TypeId} `{!TypeCodec TypeId B R}.
Context (proxy : RemoteProxy R P) (queue : P -> list BinaryMessage).
Context `{CallContext} `{!RemoteProxyLaws proxy queue}.
#[local] Set Default Proof Using "Type*".
Implicit Types (st : RemoteState R P) (messages : list TypeId) (k : TypeId).

(** The bytes of a message, and the registry once they are made. *)
Abbreviation encoded st k m := (encode_ty k m (rp_encode_context proxy) (rs_registry st)).

(** An address made from the table the macro generates. *)
Abbreviation address messages index := (RemoteAddress_new index (derived_codec_table messages) proxy).

(** Runs the proxy's send [op] of the goal. *)
Ltac run_op Hop o p :=
  unfold RemoteAddress_index, RemoteRecipient_index; simpl;
  match type of Hop with delivers _ ?op =>
    match goal with |- context [op ?m ?q] =>
      let Ho := fresh "Ho" in
      destruct (Hop m q) as (o & p & Ho & Hq); rewrite ?Ho; simpl
    end
  end.

Lemma send_via_cases {M} (erase : M -> Any TypeId) messages index op msg st :
  delivers queue op ->
  let k := projT1 (erase msg) in
  exists (o : option (result nat (SendError string M))) st' tasks,
    RemoteAddress_send_via erase op (address messages index) msg st = Done (o, st', tasks) /\
    match o with
    | None => tasks = []
    | Some (Err e) => tasks = [] /\ SendError_msg e = msg
    | Some (Ok tx) => k ∈ messages /\ exists bytes,
        (encoded st k (projT2 (erase msg))).1 = Ok bytes /\
        rs_registry st' = (encoded st k (projT2 (erase msg))).2 /\
        last (queue (rs_proxy st')) = Some (BinaryMessage_send index (message_id k) bytes (rs_next st)) /\
        tx = S (rs_next st) /\ rs_next st' = S tx /\
        tasks = [mkDecodeTask (rs_next st) tx k (Some (derived_codec k)) (rp_decode_context proxy)]
    end.
Proof.
  intros Hop. unfold RemoteAddress_send_via, Any_type_id.
  destruct (erase msg) as [k m]. simpl. rewrite derived_codec_table_lookup.
  destruct (decide (k ∈ messages)) as [Hin|Hnin]; [|by eexists (Some (Err _)), _, _].
  simpl. rewrite downcast_same. simpl.
  destruct (encoded st k m) as [[bytes|e] reg]; simpl;
    [|by eexists (Some (Err _)), _, _].
  run_op Hop o p.
  destruct o as [[[]|e]|].
  - eexists (Some (Ok _)), _, _. split; [done|]. split; [done|]. exists bytes. simpl.
    split_and!; try done. by apply Hq.
  - eexists (Some (Err _)), _, _. split; [done|]. split; [done|]. by destruct e.
  - by eexists None, _, _.
Qed.

(** Sending to an actor in another process, outside of the runtime where it blocks, never
    panics, and neither loses nor doubles
    a message. For each of the four ways to ask for a response: if the caller gets a
    response channel, the last message queued with the session is the encoding of the very
    message, under its identifier and for the right actor, and one task decodes the
    response into that channel; if the caller gets an error, it gets its message back, and
    a message the actor is not addressable with is refused untouched. *)
Lemma remote_send_correct {M} (erase : M -> Any TypeId) messages index msg st send
    (Hctx : in_runtime = false)
    (Hsend : In send [RemoteAddress_send erase (address messages index);
                      RemoteAddress_try_send erase (address messages index);
                      RemoteAddress_send_timeout erase (address messages index);
                      RemoteAddress_blocking_send erase (address messages index)]) :
  let k := projT1 (erase msg) in
  exists (o : option (result nat (SendError string M))) st' tasks,
    send msg st = Done (o, st', tasks) /\
    (k ∉ messages -> o = Some (Err (SendNoEncodeFn msg)) /\ st' = st) /\
    match o with
    | None => tasks = []
    | Some (Err e) => tasks = [] /\ SendError_msg e = msg
    | Some (Ok tx) => exists bytes,
        (encoded st k (projT2 (erase msg))).1 = Ok bytes /\
        last (queue (rs_proxy st')) = Some (BinaryMessage_send index (message_id k) bytes (rs_next st)) /\
        tasks = [mkDecodeTask (rs_next st) tx k (Some (derived_codec k)) (rp_decode_context proxy)]
    end.
Proof.
  intros k.
  assert (exists op, delivers queue op /\
            send = RemoteAddress_send_via erase op (address messages index)) as (op & Hop & ->).
  { destruct Hsend as [<-|[<-|[<-|[<-|[]]]]]; eexists; (split; [|reflexivity]); simpl.
    - apply rp_do_send_law.
    - by apply delivers_now_delivers, rp_try_do_send_law.
    - apply rp_do_send_timeout_law.
    - pose proof (rp_blocking_do_send_law (proxy := proxy) (queue := queue)) as Hb.
      unfold delivers_blocking in Hb. by rewrite Hctx in Hb. }
  destruct (send_via_cases erase messages index op msg st Hop) as (o & st' & tasks & Ho & Hcase).
  exists o, st', tasks. split; [done|]. split.
  - intros Hnin. unfold RemoteAddress_send_via in Ho. simpl in Ho.
    rewrite derived_codec_table_lookup, decide_False in Ho by done. by simplify_eq.
  - destruct o as [[tx|e]|]; [|done..]. fold k in Hcase.
    destruct Hcase as (_ & bytes & He & _ & Hl & -> & _ & ->). by exists bytes.
Qed.

(** C21. The erased and the typed way to reach an actor agree: for a message of the actor's
    list, sending through an [Address] with the derived table does to the registry and to
    the proxy what sending through a typed [Recipient] does, with the same outcome, and the
    two tasks decode every response alike. The branches that the table's type erasure adds
    ("TypeId invariant", "downcast failed") are never taken. *)
Theorem erased_and_typed_agree messages index op k (m : ty k) st (Hin : k ∈ messages)
    (Hop : delivers queue op) :
  exists o st1 st2 tasks1 tasks2,
    RemoteAddress_send_via (existT k) op (address messages index) m st = Done (o, st1, tasks1) /\
    RemoteRecipient_send_via k op (RemoteRecipient_new index proxy) m st = Done (o, st2, tasks2) /\
    rs_registry st1 = rs_registry st2 /\ rs_proxy st1 = rs_proxy st2 /\
    (forall tx, o = Some (Ok tx) -> exists raw ctx,
       tasks1 = [mkDecodeTask raw tx k (Some (derived_codec k)) ctx] /\
       tasks2 = [mkDecodeTask raw tx k None ctx]) /\
    (forall raw, decode_res (derived_codec k) k (rp_decode_context proxy) raw =
                 decode_res_with_bound k (rp_decode_context proxy) raw).
Proof.
  unfold RemoteAddress_send_via, RemoteRecipient_send_via. simpl.
  rewrite derived_codec_table_lookup, decide_True by done. simpl. rewrite downcast_same. simpl.
  assert (forall raw, decode_res (derived_codec k) k (rp_decode_context proxy) raw =
                 decode_res_with_bound k (rp_decode_context proxy) raw) as Hdec.
  { intros [bytes|e]; simpl; [|done].
    destruct (decode_ty (result_of k) bytes (rp_decode_context proxy)); simpl; [|done].
    by rewrite downcast_same. }
  destruct (encoded st k m) as [[bytes|e] reg]; simpl;
    [|by eexists (Some (Err _)), _, _, _, _].
  run_op Hop o p.
  destruct o as [[[]|e]|].
  - eexists (Some (Ok _)), _, _, _, _. split_and!; try done. intros tx [= <-]. by eexists _, _.
  - by eexists (Some (Err _)), _, _, _, _.
  - by eexists None, _, _, _, _.
Qed.
End Sends.

(** ** A typed channel behind a remote mailbox *)

Section Forwarding.
Context {TypeId B R : Type} `{Countable TypeId} `{!MessageTypes TypeId} `{!TypeCodec TypeId B R}.
#[local] Set Default Proof Using "Type*".

(** A message for this recipient: addressed to it, of its type, and wanting no response. *)
Definition meant_for (k : TypeId) (index : Z) (m : BinaryMessage) : Prop :=
  bm_actor_id m = index /\ bm_message_id m = message_id k /\ bm_result_tx m = None.

#[global] Instance meant_for_dec k index m : Decision (meant_for k index m).
Proof. unfold meant_for. apply _. Defined.

(** What an arriving message is worth to the recipient. *)
Definition forwarded (k : TypeId) (index : Z) (i : ForwardInput (B := B)) : option (ty k) :=
  match i with
  | FwMessage m bytes ctx _ =>
      if decide (meant_for k index m) then
        match decode_ty k bytes ctx with Ok v => Some v | Err _ => None end
      else None
  | _ => None
  end.

(** The inputs after which the task is over. *)
Definition ends_forwarding (k : TypeId) (index : Z) (i : ForwardInput (B := B)) : Prop :=
  match i with
  | FwMessage m bytes ctx sent => is_Some (forwarded k index i) /\ sent = false
  | _ => True
  end.

Lemma turn_spec k index i :
  RemoteAddressableProxy_turn k index i = (forwarded k index i, snd (RemoteAddressableProxy_turn k index i)) /\
  (snd (RemoteAddressableProxy_turn k index i) = false <-> ends_forwarding k index i).
Proof.
  destruct i as [m bytes ctx sent| |]; simpl; [|by split..].
  assert (negb (bm_actor_id m =? index)%Z || negb (bm_message_id m =? message_id k)%Z
          || is_some (bm_result_tx m) = negb (bool_decide (meant_for k index m))) as ->.
  { case_bool_decide as Hm; simpl; unfold meant_for in Hm.
    - destruct Hm as (-> & -> & ->). by rewrite !Z.eqb_refl.
    - destruct (Z.eqb_spec (bm_actor_id m) index), (Z.eqb_spec (bm_message_id m) (message_id k));
        destruct (bm_result_tx m) eqn:Etx; simpl; try done; naive_solver. }
  case_bool_decide; [rewrite decide_True by done|rewrite decide_False by done]; simpl.
  - destruct (decode_ty k bytes ctx); simpl; split; try done; [naive_solver|].
    split; [done|]. naive_solver.
  - split; [done|]. naive_solver.
Qed.

(** C22. The task behind the remote mailbox of a typed channel passes on exactly the
    messages meant for it, decoded and in order, until a channel closes: nothing sent to
    another actor, of another type, or waiting for a response gets through, and a message
    that does not decode is skipped without ending the task. *)
Theorem forwards_exactly k index inputs :
  exists before rest, inputs = before ++ rest /\
    (RemoteAddressableProxy_loop k index inputs).1 =
      omap (forwarded k index) (before ++ take 1 rest) /\
    (forall i, i ∈ before -> ~ ends_forwarding k index i) /\
    match rest with
    | [] => (RemoteAddressableProxy_loop k index inputs).2 = true
    | i :: _ => ends_forwarding k index i /\ (RemoteAddressableProxy_loop k index inputs).2 = false
    end.
Proof.
  induction inputs as [|i inputs IH]; simpl;
    [exists [], []; split_and!; try done; set_solver|].
  destruct (turn_spec k index i) as [Ht He]. rewrite Ht. clear Ht.
  destruct (snd (RemoteAddressableProxy_turn k index i)).
  - destruct IH as (before & rest & -> & Hout & Hb & Hrest).
    destruct (RemoteAddressableProxy_loop k index (before ++ rest)) as [outs running]. simpl in *.
    exists (i :: before), rest. split_and!; [done| | |done].
    + rewrite Hout. simpl. by destruct (forwarded k index i).
    + intros i' [->|Hi']%elem_of_cons; [|by apply Hb]. intros Hend. by apply He in Hend.
  - exists [], (i :: inputs). split_and!; [done| |set_solver|by apply He|done].
    simpl. by destruct (forwarded k index i).
Qed.
End Forwarding.

(** ** A call through two sessions *)

(** What decoding makes of an encoded value in another process: user codecs decide; an
    address, for one, becomes a remote one. *)
Class TypeCodecLaws {TypeId B R : Type} `{!BytesCrate B} `{!MessageTypes TypeId}
    `{!TypeCodec TypeId B R} (travels : forall k : TypeId, ty k -> ty k -> Prop) : Prop :=
  encode_decode k v ctx r bytes r' b dctx v' :
    encode_ty k v ctx r = (Ok bytes, r') -> bytes_data b = bytes -> decode_ty k b dctx = Ok v' ->
    travels k v v'.

Section Call.
Context {TypeId B : Type} `{Countable TypeId} `{!BytesCrate B} `{!ProstMessage B IpcMessage}
  `{!ProstMessage B ResultAddress} `{!MessageTypes TypeId} `{!TypeCodec TypeId B registry}.
Context (travels : forall k : TypeId, ty k -> ty k -> Prop) `{!TypeCodecLaws travels}.
Context (registries : registry -> Prop) (labelled : string -> result Recipient SessionError -> Prop).
Context (creates : Z -> string -> string -> result ActorId SessionError -> Prop).
(** The process of the caller, and the actor on the other side. *)
Context (caller : PeerEnv) {A : Type} (messages : list TypeId).
Context (handler : forall k : TypeId, ty k -> A -> A * result (ty (result_of k)) (RecvError string)).
Context {chan : Type -> Type} `{TokioMpsc chan}.
Context `{CallContext}.
#[local] Set Default Proof Using "Type*".

(** The responses of an actor with the derived handler to a binary message that a session
    forwards to it, with the contexts of that session. *)
Definition actor_responds (bm : BinaryMessage) (res : result (list Z) string) : Prop :=
  exists alive a a' reg reg',
    BinaryMessage_handle handler messages (bm_message_id bm) (bytes_freeze (bm_bytes bm)) true
      ((fun s => Proxy_decode_context s alive) <$> bm_decode_msg_ctx bm)
      ((fun _ => Proxy_register) <$> bm_encode_res_ctx bm) a reg = (a', Some res, reg').

Abbreviation callee := (mkPeerEnv actor_responds registries labelled creates).
Abbreviation step := (net_step (B := B) caller callee).

(** The request a session makes of a queued message is the one SessionNet.v asks. *)
Lemma binary_message_asks tx_closed actor_id msg_id bytes tx now io s :
  Session_handle_binary_message (B := B) tx_closed (BinaryMessage_send actor_id msg_id bytes tx) now io s =
    net_ask (B := B) (ReqActor actor_id msg_id bytes) tx now tx_closed io s.
Proof. done. Qed.

(** Bytes served for a message of the actor come from its handler. *)
Lemma served_by_handler k index bytes out
    (Huniq : NoDup (message_id <$> messages)) (Hin : k ∈ messages) :
  served (B := B) callee (ReqActor index (message_id k) bytes) (Ok out) ->
  exists dctx ectx m a a' v reg reg',
    decode_ty k (bytes_freeze bytes) dctx = Ok m /\ handler k m a = (a', Ok v) /\
    encode_ty (result_of k) v ectx reg = (Ok out, reg').
Proof.
  intros (bm & _ & Hid & Hbytes & alive & a0 & a1 & reg & reg' & Hh)%served_actor.
  unfold BinaryMessage_handle in Hh. rewrite Hid, Hbytes, find_message in Hh by done.
  unfold derived_arm in Hh.
  destruct (decode_ty k _ _) as [m|] eqn:Ed; [|done].
  destruct (handler k m a0) as [a2 res] eqn:Eh. unfold send_result in Hh.
  destruct res as [v|]; [|done].
  destruct (encode_ty (result_of k) v _ reg) as [[l|e] reg2] eqn:Ee; simplify_eq/=.
  by eexists _, _, m, a0, _, v, reg, _.
Qed.

(** C9. A call of an actor in another process is a call of its handler. A message is sent
    through an [Address] over the proxy of a session; the session asks its peer; whatever
    else the two sessions do, if the response channel of that message is resolved and its
    decode task gives the caller a value, then the handler of the actor for that very
    message type ran on what the message becomes in the other process, and the value is
    what its response becomes on the way back. *)
Theorem remote_call_runs_handler {M} client server others timer (erase : M -> Any TypeId) k (m : ty k) msg index st st' tx raw
    codec ctx bm n r v
    (Huniq : uniqueness_check (message_id <$> messages) = true)
    (Herase : erase msg = existT k m)
    (Hsend : RemoteAddress_send erase
       (RemoteAddress_new index (derived_codec_table messages)
          (Proxy_impl (chan := chan) others timer client)) msg st =
       Done (Some (Ok tx), st', [mkDecodeTask raw tx k codec ctx]))
    (Hbm : last (session_queue (rs_proxy st')) = Some bm)
    (Hrun : rtc step (net_start client server) n)
    (Hasked : (raw, ReqActor (bm_actor_id bm) (bm_message_id bm) (bm_bytes bm)) ∈ p_asked (n_a n))
    (Hev : SevAnswer raw r ∈ p_events (n_a n))
    (Hv : DecodeTask_run (mkDecodeTask raw tx k codec ctx) (raw_received r) = Ok v) :
  exists m' a a' v', travels k m m' /\ handler k m' a = (a', Ok v') /\ travels (result_of k) v' v.
Proof.
  apply uniqueness_check_spec in Huniq.
  destruct (send_via_cases (Proxy_impl others timer client) session_queue erase messages index _ msg st
              (rp_do_send_law (RemoteProxyLaws := Proxy_laws others timer client)))
    as (o & st2 & tasks & Ho & Hcase).
  unfold RemoteAddress_send in Hsend. simpl in Hsend, Ho. rewrite Ho in Hsend.
  injection Hsend as -> -> ->. rewrite Herase in Hcase. simpl in Hcase.
  destruct Hcase as (Hin & bytes & Henc & _ & Hlast & _ & _ & [= -> -> ->]).
  simpl in Hlast. rewrite Hbm in Hlast. injection Hlast as ->. simpl in *.
  apply net_steps_inv in Hrun as [[_ _ _ _ _ Hevs _ Hnd] _].
  rewrite Forall_forall in Hevs. destruct (Hevs _ Hev) as (req & Hreq & Hans).
  assert (req = ReqActor index (message_id k) bytes) as -> by by eapply asked_once.
  destruct r as [out|e]; [|done]. cbn in Hv, Hans.
  destruct (served_by_handler k index bytes out Huniq Hin Hans)
    as (dctx & ectx & m' & a & a' & v' & reg & reg' & Hd & Hh & He).
  destruct (decode_ty (result_of k) (bytes_freeze out) (Some (Proxy_decode_context client true))) as [v2|] eqn:Ed; [|done].
  simpl in Hv. rewrite downcast_same in Hv. simplify_eq.
  exists m', a, a', v'. split_and!; [|done|].
  - destruct (encode_ty k m _ _) as [r1 reg1] eqn:Em. simpl in Henc. subst r1.
    eapply encode_decode; [exact Em|apply bytes_freeze_law|exact Hd].
  - eapply encode_decode; [exact He|apply bytes_freeze_law|exact Ed].
Qed.
End Call.

(** ** Witnesses: a greeting and its reply, both strings *)

Section Witnesses.

Inductive WMessage : Type := WHello | WReply.

#[global] Instance WMessage_eq_dec : EqDecision WMessage.
Proof. solve_decision. Defined.

#[global, program] Instance WMessage_countable : Countable WMessage := {|
  encode k := match k with WHello => 1%positive | WReply => 2%positive end;
  decode p := Some (if decide (p = 1%positive) then WHello else WReply);
|}.
Next Obligation. by intros []. Qed.

#[global] Instance WMessage_types : MessageTypes WMessage := {|
  ty _ := string;
  result_of _ := WReply;
  message_id k := match k with WHello => 9%Z | WReply => 10%Z end;
|}.

#[global] Instance WMessage_codec : TypeCodec WMessage slice registry := {|
  encode_ty _ v _ r := (Ok (string_bytes v), r);
  decode_ty _ b _ := Ok (bytes_string (sl_data b));
|}.

#[global] Instance w_travels : TypeCodecLaws (B := slice) (R := registry) (fun (k : WMessage) (v v' : ty k) => v = v').
Proof.
  intros k v ctx r bytes r' b dctx v' [= <- <-] Hb [= <-]. simpl in *. rewrite Hb.
  by rewrite bytes_string_bytes.
Qed.

(** An actor that counts the greetings it answers. *)
Definition w_handler (k : WMessage) (m : ty k) (a : nat)
    : nat * result (ty (result_of k)) (RecvError string) :=
  (S a, Ok (m ++ "!")%string).

(** The callers of the examples run outside of the runtime. *)
#[export] Instance w_context : CallContext := false.

Abbreviation w_proxy := (Proxy_impl (chan := chan_view) [] [] 3).

Definition w_state : RemoteState registry (SendState chan_view (Envelope SessionMsg)) :=
  mkRemoteState ∅ (mkSendState (mpsc_channel 4) 0) 100.

Definition w_address : RemoteAddress WMessage slice registry (SendState chan_view (Envelope SessionMsg)) :=
  RemoteAddress_new 5 (derived_codec_table [WHello]) w_proxy.

Lemma remote_send_correct_witness :
  exists o st' tasks,
    RemoteAddress_try_send (existT WHello) w_address "hi"%string w_state = Done (o, st', tasks) /\
    (WHello ∉ [WHello] -> o = Some (Err (SendNoEncodeFn "hi"%string)) /\ st' = w_state) /\
    match o with
    | None => tasks = []
    | Some (Err e) => tasks = [] /\ SendError_msg e = "hi"%string
    | Some (Ok tx) => exists bytes,
        Ok (string_bytes "hi") = Ok (E := EncodeError) bytes /\
        last (session_queue (rs_proxy st')) = Some (BinaryMessage_send 5 9 bytes 100) /\
        tasks = [mkDecodeTask 100 tx WHello (Some (derived_codec WHello))
                   (Some (Proxy_decode_context 3 true))]
    end.
Proof.
  exact (remote_send_correct w_proxy session_queue (existT WHello) [WHello] 5 "hi"%string w_state
           (RemoteAddress_try_send (existT WHello) w_address) eq_refl (or_intror (or_introl eq_refl))).
Defined.

Lemma erased_and_typed_agree_witness :
  exists o st1 st2 tasks1 tasks2,
    RemoteAddress_send_via (existT WHello) (rp_do_send w_proxy) w_address "hi"%string w_state =
      Done (o, st1, tasks1) /\
    RemoteRecipient_send_via WHello (rp_do_send w_proxy) (RemoteRecipient_new 5 w_proxy) "hi"%string
      w_state = Done (o, st2, tasks2) /\
    rs_registry st1 = rs_registry st2 /\ rs_proxy st1 = rs_proxy st2 /\
    (forall tx, o = Some (Ok tx) -> exists raw ctx,
       tasks1 = [mkDecodeTask raw tx WHello (Some (derived_codec WHello)) ctx] /\
       tasks2 = [mkDecodeTask raw tx WHello None ctx]) /\
    (forall raw : result slice (RecvError string),
       decode_res (derived_codec WHello) WHello (rp_decode_context w_proxy) raw =
       decode_res_with_bound WHello (rp_decode_context w_proxy) raw).
Proof.
  exact (erased_and_typed_agree w_proxy session_queue [WHello] 5 (rp_do_send w_proxy) WHello
           "hi"%string w_state (list_elem_of_here WHello [])
           (rp_do_send_law (RemoteProxyLaws := Proxy_laws [] [] 3))).
Defined.

Lemma w_call_run : exists n,
  rtc (net_step (B := slice) w_idle (w_env (actor_responds [WHello] w_handler)))
    (net_start 3 4) n /\
  (100, ReqActor 5 9 (string_bytes "hi")) ∈ p_asked (n_a n) /\
  SevAnswer 100 (Ok (string_bytes "hi!")) ∈ p_events (n_a n).
Proof.
  apply w_request_run. exists true, 0, 1, (∅ : registry), (∅ : registry). vm_compute. reflexivity.
Qed.

Lemma remote_call_runs_handler_witness :
  exists m' a a' v', "hi"%string = m' /\ w_handler WHello m' a = (a', Ok v') /\ v' = "hi!"%string.
Proof.
  destruct w_call_run as (n & Hrun & Hasked & Hev).
  exact (remote_call_runs_handler (B := slice) (fun (k : WMessage) (v v' : ty k) => v = v')
           (fun _ => True) (fun _ _ => True) (fun _ _ _ _ => True) w_idle [WHello] w_handler
           3 4 [] [] (existT WHello) WHello "hi"%string "hi"%string 5 w_state _ 101 100 _ _
           (BinaryMessage_send 5 9 (string_bytes "hi") 100) n (Ok (string_bytes "hi!")) "hi!"%string
           eq_refl eq_refl eq_refl eq_refl Hrun Hasked Hev eq_refl).
Defined.
End Witnesses.
