(* ===== verification/Senders.v ===== *)
(** * One interface for everything a message can be sent to

    Models acktor/src/address/sender.rs (the traits [SenderInfo] and [Sender]),
    acktor/src/address.rs ([Address], which is local or remote) and the recipients of
    acktor/src/address/recipient.rs ([Recipient], [SenderProxy], [RemoteAddressableProxy])
    as implementations of that interface.

    A send that waits is given its schedule: what the other tasks do to the channel between
    two polls ([others]) and what its timer says at each poll ([timer]). *)

From S2P Require Import Prelude Tokio ActorTypes UserCode WireLibs Codec IpcMessages Address Remote.
From S2P Require Import Registry ErrorReport.

(** ** [dyn Sender] (address/sender.rs) *)

(** How a send ends: it still waits; it fails with the message; or the message is sent, and
    the caller has the response channel, if it asked for one. *)
Definition SendOutcome (Message : Type) : Type :=
  option (result (option nat) (SendError string Message)).

(** [W] is what the sends change; [sn_closed] is a poll of the future. *)
Record Sender (W Message : Type) : Type := mkSender {
  sn_index : ActorId;
  sn_closed : W -> Poll unit;
  sn_is_closed : W -> bool;
  sn_capacity : W -> nat;
  sn_remote_mailbox : option Recipient;
  sn_send : Message -> W -> outcome (SendOutcome Message * W);
  sn_do_send : Message -> W -> outcome (SendOutcome Message * W);
  sn_try_send : Message -> W -> outcome (SendOutcome Message * W);
  sn_try_do_send : Message -> W -> outcome (SendOutcome Message * W);
  sn_send_timeout : Message -> W -> outcome (SendOutcome Message * W);
  sn_do_send_timeout : Message -> W -> outcome (SendOutcome Message * W);
  sn_blocking_send : Message -> W -> outcome (SendOutcome Message * W);
  sn_blocking_do_send : Message -> W -> outcome (SendOutcome Message * W);
}.
Arguments mkSender {W Message} _ _ _ _ _ _ _ _ _ _ _ _ _.
Arguments sn_index {W Message} _.
Arguments sn_closed {W Message} _ _.
Arguments sn_is_closed {W Message} _ _.
Arguments sn_capacity {W Message} _ _.
Arguments sn_remote_mailbox {W Message} _.
Arguments sn_send {W Message} _ _ _.
Arguments sn_do_send {W Message} _ _ _.
Arguments sn_try_send {W Message} _ _ _.
Arguments sn_try_do_send {W Message} _ _ _.
Arguments sn_send_timeout {W Message} _ _ _.
Arguments sn_do_send_timeout {W Message} _ _ _.
Arguments sn_blocking_send {W Message} _ _ _.
Arguments sn_blocking_do_send {W Message} _ _ _.

(** [SenderInfo::is_remote]. *)
Definition Sender_is_remote {W Message} (s : Sender W Message) : bool :=
  ActorId_is_remote (sn_index s).

(** The forms in which the components report a send. *)
Definition sent_unit {Message} (r : result unit (SendError string Message)) : SendOutcome Message :=
  Some (result_map (fun _ => None) r).

Definition sent_rx {Message} (r : result nat (SendError string Message))
    : result (option nat) (SendError string Message) :=
  result_map Some r.

(** ** [Recipient]: a shared sender *)

Record DynRecipient (W Message : Type) : Type := Recipient_new { rc_sender : Sender W Message }.
Arguments Recipient_new {W Message} _.
Arguments rc_sender {W Message} _.

(** [PartialEq] of recipients, and of addresses. *)
Definition Recipient_eqb {W W' Message Message'} (r : DynRecipient W Message)
    (r' : DynRecipient W' Message') : bool :=
  bool_decide (sn_index (rc_sender r) = sn_index (rc_sender r')).

(** [impl Sender for Recipient]: every method forwards. *)
Definition Recipient_sender {W Message} (r : DynRecipient W Message) : Sender W Message :=
  mkSender (sn_index (rc_sender r))
    (fun w => sn_closed (rc_sender r) w)
    (fun w => sn_is_closed (rc_sender r) w)
    (fun w => sn_capacity (rc_sender r) w)
    (sn_remote_mailbox (rc_sender r))
    (fun msg w => sn_send (rc_sender r) msg w)
    (fun msg w => sn_do_send (rc_sender r) msg w)
    (fun msg w => sn_try_send (rc_sender r) msg w)
    (fun msg w => sn_try_do_send (rc_sender r) msg w)
    (fun msg w => sn_send_timeout (rc_sender r) msg w)
    (fun msg w => sn_do_send_timeout (rc_sender r) msg w)
    (fun msg w => sn_blocking_send (rc_sender r) msg w)
    (fun msg w => sn_blocking_do_send (rc_sender r) msg w).

(** ** Recipients backed by a channel (address/recipient.rs) *)

Section ChannelRecipients.
Context {M : Type} {chan : Type -> Type} `{TokioMpsc chan} `{CallContext}.
Context (others : list (chan M -> chan M)) (timer : list bool).
Implicit Types (c : chan M) (msg : M).

(** Awaiting a send on the channel. *)
Fixpoint channel_await {X} (poll : bool -> chan M -> Poll X * chan M) (timer : list bool)
    (others : list (chan M -> chan M)) c : option X * chan M :=
  let (p, c) := poll (default true (head timer)) c in
  match p, others with
  | Ready r, _ => (Some r, c)
  | Pending, [] => (None, c)
  | Pending, g :: others => channel_await poll (tail timer) others (g c)
  end.

Definition channel_do_send msg c : outcome (SendOutcome M * chan M) :=
  let (r, c) := channel_await (fun _ => SenderProxy_do_send msg) timer others c in
  Done (result_map (fun _ => None) <$> r, c).

Definition channel_try_do_send msg c : outcome (SendOutcome M * chan M) :=
  let (r, c) := SenderProxy_try_do_send msg c in Done (sent_unit r, c).

Definition channel_do_send_timeout msg c : outcome (SendOutcome M * chan M) :=
  let (r, c) := channel_await (fun elapsed => SenderProxy_do_send_timeout elapsed msg) timer others c in
  Done (result_map (fun _ => None) <$> r, c).

Definition channel_blocking_do_send msg c : outcome (SendOutcome M * chan M) :=
  block_on (channel_do_send msg c).

Definition channel_refuse (text : string) msg c : outcome (SendOutcome M * chan M) :=
  let (r, c) := SenderProxy_send text msg c in Done (Some (sent_rx r), c).

(** [impl Sender for SenderProxy]; [blocking_do_send] waits as [do_send] does, outside of
    the runtime. *)
Definition SenderProxy_sender (p : SenderProxy) : Sender (chan M) M :=
  mkSender (SenderProxy_index p)
    (fun c => closed_poll (mpsc_is_closed c)) (fun c => mpsc_is_closed c) (fun c => mpsc_capacity c) None
    (channel_refuse "Recipient created with Recipient::create does not support send")
    channel_do_send
    (channel_refuse "Recipient created with Recipient::create does not support try_send")
    channel_try_do_send
    (channel_refuse "Recipient created with Recipient::create does not support send_timeout")
    channel_do_send_timeout
    (channel_refuse "Recipient created with Recipient::create does not support blocking_send")
    channel_blocking_do_send.

(** [Recipient::create] with its conversion. *)
Definition Recipient_create_dyn (capacity : nat) (next_index : Z)
    : DynRecipient (chan M) M * chan M * Z :=
  let '(p, c, next) := Recipient_create capacity next_index in
  (Recipient_new (SenderProxy_sender p), c, next).

Record RemoteAddressableProxy : Type := mkRemoteAddressableProxy { rap_index : Z }.

Definition RemoteAddressableProxy_index (p : RemoteAddressableProxy) : ActorId :=
  ActorId_new (rap_index p).

(** [remote_mailbox]: a channel as large as the recipient's, whose sender has its index; the
    task that empties it is [RemoteAddressableProxy_loop] of RemoteAddressable.v. *)
Definition RemoteAddressableProxy_remote_mailbox (p : RemoteAddressableProxy) c
    : SenderProxy * chan BinaryMessage :=
  (mkSenderProxy (rap_index p), mpsc_channel (mpsc_max_capacity c)).

(** Its sends repeat those of [SenderProxy]. *)
Definition RemoteAddressableProxy_sender (p : RemoteAddressableProxy) : Sender (chan M) M :=
  mkSender (RemoteAddressableProxy_index p)
    (fun c => closed_poll (mpsc_is_closed c)) (fun c => mpsc_is_closed c) (fun c => mpsc_capacity c)
    (Some (mkRecipient (ActorId_new (rap_index p))))
    (channel_refuse "Recipient created with Recipient::create does not support send")
    channel_do_send
    (channel_refuse "Recipient created with Recipient::create does not support try_send")
    channel_try_do_send
    (channel_refuse "Recipient created with Recipient::create does not support send_timeout")
    channel_do_send_timeout
    (channel_refuse "Recipient created with Recipient::create does not support blocking_send")
    channel_blocking_do_send.

Definition Recipient_create_remote (capacity : nat) (next_index : Z)
    : DynRecipient (chan M) M * chan M * Z :=
  (Recipient_new (RemoteAddressableProxy_sender (mkRemoteAddressableProxy next_index)),
   mpsc_channel capacity, wrap_u 64 (next_index + 1)).
End ChannelRecipients.

(** ** Recipients in another process *)

(** What the sends of a remote sender change: its proxy and registry, and the decode tasks
    spawned so far. *)
Record RemoteWorld (TypeId B R P : Type) `{!MessageTypes TypeId} : Type := mkRemoteWorld {
  rw_state : RemoteState R P;
  rw_tasks : list (DecodeTask TypeId B R);
}.
Arguments mkRemoteWorld {TypeId B R P _} _ _.
Arguments rw_state {TypeId B R P _} _.
Arguments rw_tasks {TypeId B R P _} _.

Section RemoteSenders.
Context {TypeId B R P : Type} `{Countable TypeId} `{!MessageTypes TypeId}
  `{!TypeCodec TypeId B R}.

Abbreviation World := (RemoteWorld TypeId B R P).
Implicit Types (w : World).

Definition remote_answered {M}
    (f : RemoteState R P -> outcome (option (result nat (SendError string M)) * RemoteState R P *
                                     list (DecodeTask TypeId B R))) w : outcome (SendOutcome M * World) :=
  let! (r, st, tasks) := f (rw_state w) in
  Done (sent_rx <$> r, mkRemoteWorld st (rw_tasks w ++ tasks)).

Definition remote_unanswered {M}
    (f : RemoteState R P -> outcome (option (result unit (SendError string M)) * RemoteState R P)) w
    : outcome (SendOutcome M * World) :=
  let! (r, st) := f (rw_state w) in
  Done (result_map (fun _ => None) <$> r, mkRemoteWorld st (rw_tasks w)).

(** [impl Sender for RemoteRecipient]. *)
Definition RemoteRecipient_sender (k : TypeId) (rr : RemoteRecipient R P) : Sender World (ty k) :=
  mkSender (RemoteRecipient_index rr)
    (fun w => rp_closed (rr_proxy rr) (rs_proxy (rw_state w)))
    (fun w => rp_is_closed (rr_proxy rr) (rs_proxy (rw_state w)))
    (fun w => rp_capacity (rr_proxy rr) (rs_proxy (rw_state w))) None
    (fun msg => remote_answered (RemoteRecipient_send k rr msg))
    (fun msg => remote_unanswered (RemoteRecipient_do_send k rr msg))
    (fun msg => remote_answered (RemoteRecipient_try_send k rr msg))
    (fun msg => remote_unanswered (RemoteRecipient_try_do_send k rr msg))
    (fun msg => remote_answered (RemoteRecipient_send_timeout k rr msg))
    (fun msg => remote_unanswered (RemoteRecipient_do_send_timeout k rr msg))
    (fun msg => remote_answered (RemoteRecipient_blocking_send k rr msg))
    (fun msg => remote_unanswered (RemoteRecipient_blocking_do_send k rr msg)).

(** [Recipient::new_remote]. *)
Definition Recipient_new_remote (k : TypeId) (index : Z) (proxy : RemoteProxy R P)
    : DynRecipient World (ty k) :=
  Recipient_new (RemoteRecipient_sender k (RemoteRecipient_new index proxy)).

(** ** [Address] (address.rs) *)

(** An address of an actor whose messages are [M], each of which is a value of some type.
    [codec_table] is the table of the actor, and [remote_addressable] whether its
    [remote_mailbox] converts the address, as the derived one does. *)
Context {M : Type} {chan : Type -> Type} `{TokioMpsc chan} `{CallContext} (erase : Outgoing M -> Any TypeId).
Context (codec_table : CodecTable TypeId B R) (remote_addressable : bool).
Context (others : list (chan (Envelope M) -> chan (Envelope M))) (timer : list bool).

Inductive Address : Type :=
| InnerLocal (a : LocalAddress)
| InnerRemote (a : RemoteAddress TypeId B R P).

Record AddressWorld : Type := mkAddressWorld {
  aw_local : SendState chan (Envelope M);
  aw_remote : World;
}.
Implicit Types (a : Address) (aw : AddressWorld) (msg : Outgoing M).

Definition Address_new (next_index : Z) : Address * Z :=
  let (a, next) := LocalAddress_new next_index in (InnerLocal a, next).

Definition Address_new_remote (index : Z) (proxy : RemoteProxy R P) : Address :=
  InnerRemote (RemoteAddress_new index codec_table proxy).

Definition Address_index a : ActorId :=
  match a with
  | InnerLocal address => LocalAddress_index address
  | InnerRemote address => RemoteAddress_index address
  end.

Definition Address_eqb (a a' : Address) : bool :=
  bool_decide (Address_index a = Address_index a').

Definition Address_closed a aw : Poll unit :=
  match a with
  | InnerLocal _ => LocalAddress_closed (aw_local aw)
  | InnerRemote address => RemoteAddress_closed address (rs_proxy (rw_state (aw_remote aw)))
  end.

Definition Address_is_closed a aw : bool :=
  match a with
  | InnerLocal _ => LocalAddress_is_closed (aw_local aw)
  | InnerRemote address => RemoteAddress_is_closed address (rs_proxy (rw_state (aw_remote aw)))
  end.

Definition Address_capacity a aw : nat :=
  match a with
  | InnerLocal _ => LocalAddress_capacity (aw_local aw)
  | InnerRemote address => RemoteAddress_capacity address (rs_proxy (rw_state (aw_remote aw)))
  end.

(** Which part of the world a branch works on. *)
Definition in_local {X} (f : SendState chan (Envelope M) -> outcome (X * SendState chan (Envelope M))) aw
    : outcome (X * AddressWorld) :=
  let! (x, s) := f (aw_local aw) in Done (x, mkAddressWorld s (aw_remote aw)).

Definition in_remote {X} (f : World -> outcome (X * World)) aw : outcome (X * AddressWorld) :=
  let! (x, w) := f (aw_remote aw) in Done (x, mkAddressWorld (aw_local aw) w).

(** Awaiting the future of a local send, with a timeout or without. *)
Fixpoint local_timeout_await (f : SendFuture M) (timer : list bool)
    (others : list (chan (Envelope M) -> chan (Envelope M))) (s : SendState chan (Envelope M))
    : outcome (SendOutcome (Outgoing M) * SendState chan (Envelope M)) :=
  let! (p, s) := SendTimeoutFuture_poll (default true (head timer)) f s in
  match p, others with
  | Ready r, _ => Done (Some r, s)
  | Pending, [] => Done (None, s)
  | Pending, g :: others =>
      local_timeout_await f (tail timer) others (mkSendState (g (ss_chan s)) (ss_next s))
  end.

Definition Address_send a msg aw : outcome (SendOutcome (Outgoing M) * AddressWorld) :=
  match a with
  | InnerLocal _ =>
      in_local (fun s => let (f, s) := LocalAddress_send msg s in SendFuture_await f others s) aw
  | InnerRemote address => in_remote (remote_answered (RemoteAddress_send erase address msg)) aw
  end.

Definition Address_do_send a msg aw : outcome (SendOutcome (Outgoing M) * AddressWorld) :=
  match a with
  | InnerLocal _ =>
      in_local (fun s => let (f, s) := LocalAddress_do_send msg s in SendFuture_await f others s) aw
  | InnerRemote address => in_remote (remote_unanswered (RemoteAddress_do_send erase address msg)) aw
  end.

Definition Address_try_send a msg aw : outcome (SendOutcome (Outgoing M) * AddressWorld) :=
  match a with
  | InnerLocal _ =>
      in_local (fun s => let! (r, s) := LocalAddress_try_send msg s in Done (Some r, s)) aw
  | InnerRemote address => in_remote (remote_answered (RemoteAddress_try_send erase address msg)) aw
  end.

Definition Address_try_do_send a msg aw : outcome (SendOutcome (Outgoing M) * AddressWorld) :=
  match a with
  | InnerLocal _ =>
      in_local (fun s => let! (r, s) := LocalAddress_try_do_send msg s in Done (sent_unit r, s)) aw
  | InnerRemote address => in_remote (remote_unanswered (RemoteAddress_try_do_send erase address msg)) aw
  end.

Definition Address_send_timeout a msg aw : outcome (SendOutcome (Outgoing M) * AddressWorld) :=
  match a with
  | InnerLocal _ =>
      in_local (fun s => let (f, s) := LocalAddress_send_timeout msg s in
                         local_timeout_await f timer others s) aw
  | InnerRemote address => in_remote (remote_answered (RemoteAddress_send_timeout erase address msg)) aw
  end.

Definition Address_do_send_timeout a msg aw : outcome (SendOutcome (Outgoing M) * AddressWorld) :=
  match a with
  | InnerLocal _ =>
      in_local (fun s => let (f, s) := LocalAddress_do_send_timeout msg s in
                         local_timeout_await f timer others s) aw
  | InnerRemote address =>
      in_remote (remote_unanswered (RemoteAddress_do_send_timeout erase address msg)) aw
  end.

Definition Address_blocking_send a msg aw : outcome (SendOutcome (Outgoing M) * AddressWorld) :=
  match a with
  | InnerLocal _ => in_local (LocalAddress_blocking_send msg others) aw
  | InnerRemote address => in_remote (remote_answered (RemoteAddress_blocking_send erase address msg)) aw
  end.

Definition Address_blocking_do_send a msg aw : outcome (SendOutcome (Outgoing M) * AddressWorld) :=
  match a with
  | InnerLocal _ => in_local (LocalAddress_blocking_do_send msg others) aw
  | InnerRemote address =>
      in_remote (remote_unanswered (RemoteAddress_blocking_do_send erase address msg)) aw
  end.

Definition reserve_refused : SendError string unit :=
  SendOther "remote address does not support reserve" tt.

Definition Address_reserve a aw : Poll (result unit (SendError string unit)) * AddressWorld :=
  match a with
  | InnerLocal _ =>
      let (r, s) := LocalAddress_reserve (aw_local aw) in (r, mkAddressWorld s (aw_remote aw))
  | InnerRemote _ => (Ready (Err reserve_refused), aw)
  end.

Definition Address_try_reserve a aw : result unit (SendError string unit) * AddressWorld :=
  match a with
  | InnerLocal _ =>
      let (r, s) := LocalAddress_try_reserve (aw_local aw) in (r, mkAddressWorld s (aw_remote aw))
  | InnerRemote _ => (Err reserve_refused, aw)
  end.

Definition Address_reserve_owned a aw : Poll (result unit (SendError string unit)) * AddressWorld :=
  match a with
  | InnerLocal _ =>
      let (r, s) := LocalAddress_reserve_owned (aw_local aw) in (r, mkAddressWorld s (aw_remote aw))
  | InnerRemote _ => (Ready (Err reserve_refused), aw)
  end.

Definition Address_try_reserve_owned a aw : result unit (SendError string unit) * AddressWorld :=
  match a with
  | InnerLocal _ =>
      let (r, s) := LocalAddress_try_reserve_owned (aw_local aw) in (r, mkAddressWorld s (aw_remote aw))
  | InnerRemote _ => (Err reserve_refused, aw)
  end.

(** [Address::remote_addressable]. *)
Definition Address_remote_addressable a : option Recipient :=
  match a with
  | InnerLocal _ => if remote_addressable then Some (mkRecipient (Address_index a)) else None
  | InnerRemote _ => None
  end.

(** [impl Sender for Address]. *)
Definition Address_sender a : Sender AddressWorld (Outgoing M) :=
  mkSender (Address_index a) (Address_closed a) (Address_is_closed a) (Address_capacity a)
    (Address_remote_addressable a)
    (Address_send a) (Address_do_send a) (Address_try_send a) (Address_try_do_send a)
    (Address_send_timeout a) (Address_do_send_timeout a)
    (Address_blocking_send a) (Address_blocking_do_send a).

(** [From<Address> for Recipient]. *)
Definition Recipient_from_address a : DynRecipient AddressWorld (Outgoing M) :=
  Recipient_new (Address_sender a).
End RemoteSenders.
Arguments Address TypeId B R P {_ _ _}.
Arguments AddressWorld TypeId B R P {_} M chan.
