(* ===== verification/SenderTheorems.v ===== *)
(** * Whatever a message is sent to, nothing is lost

    The promise of the [Sender] trait as a class, discharged for every sender of the
    framework (Senders.v): local addresses, addresses and recipients in another process,
    channels, channels that can be reached from another process, and recipients that share
    any of them. *)

From S2P Require Import Prelude Tokio ActorTypes UserCode WireLibs Codec Registry IpcMessages.
From S2P Require Import Session ErrorReport SessionNet SessionTheorems Address AddressTheorems.
From S2P Require Import Remote SessionProxy RemoteAddressable RemoteTheorems Senders.

(** ** The promise *)

(** What a send establishes when it reports success: of the message, the response channel
    the caller gets, and the states before and after. *)
Definition took_relation (W Message : Type) : Type := Message -> option nat -> W -> W -> Prop.

(** A send returns, with a response channel if one was asked for; when it fails, the caller
    has its message back. *)
Definition sound_send {W Message} (took : took_relation W Message) (answered : bool)
    (op : Message -> W -> outcome (SendOutcome Message * W)) : Prop :=
  forall msg w, exists o w', op msg w = Done (o, w') /\
    match o with
    | None => True
    | Some (Ok rx) => is_some rx = answered /\ took msg rx w w'
    | Some (Err e) => SendError_msg e = msg
    end.

(** A blocking send inside the runtime panics, unless it refuses the message at once. *)
Definition panics_or_refuses {W Message} (op : Message -> W -> outcome (SendOutcome Message * W)) : Prop :=
  forall msg w, (exists info, op msg w = Panicked info) \/
    exists e w', op msg w = Done (Some (Err e), w') /\ SendError_msg e = msg.

Definition sound_blocking {W Message} `{CallContext} (took : took_relation W Message) (answered : bool)
    (op : Message -> W -> outcome (SendOutcome Message * W)) : Prop :=
  if in_runtime then panics_or_refuses op else sound_send took answered op.

Lemma sound_blocking_intro {W Message} `{CallContext} (took : took_relation W Message) answered op :
  (in_runtime = true -> panics_or_refuses op) -> (in_runtime = false -> sound_send took answered op) ->
  sound_blocking took answered op.
Proof. unfold sound_blocking. destruct in_runtime; auto. Qed.

Lemma delivers_blocking_elim {P} `{CallContext} (queue : P -> list BinaryMessage) op :
  delivers_blocking queue op ->
  (in_runtime = true -> forall m p, exists info, op m p = Panicked info) /\
  (in_runtime = false -> delivers queue op).
Proof. unfold delivers_blocking. destruct in_runtime; by split. Qed.

Class SenderLaws {W Message : Type} `{CallContext} (s : Sender W Message) (took : took_relation W Message)
    : Prop := {
  sn_closed_law w : sn_closed s w = closed_poll (sn_is_closed s w);
  sn_send_law : sound_send took true (sn_send s);
  sn_do_send_law : sound_send took false (sn_do_send s);
  sn_try_send_law : sound_send took true (sn_try_send s);
  sn_try_do_send_law : sound_send took false (sn_try_do_send s);
  sn_send_timeout_law : sound_send took true (sn_send_timeout s);
  sn_do_send_timeout_law : sound_send took false (sn_do_send_timeout s);
  sn_blocking_send_law : sound_blocking took true (sn_blocking_send s);
  sn_blocking_do_send_law : sound_blocking took false (sn_blocking_do_send s);
}.

#[export] Instance Recipient_laws {W Message} `{CallContext} (r : DynRecipient W Message) took :
  SenderLaws (rc_sender r) took -> SenderLaws (Recipient_sender r) took.
Proof. by intros []. Qed.

(** ** Channels *)

Section Channels.
Context {M : Type} {chan : Type -> Type} `{TokioMpsc chan} `{CallContext}.
#[local] Set Default Proof Using "Type*".
Implicit Types (c : chan M) (m : M).

(** The message is the last one in the channel. *)
Definition channel_took : took_relation (chan M) M :=
  fun m _ _ c' => last (cv_queue (mpsc_view c')) = Some m.

(** One look at the channel by a send that waits. *)
Definition sound_poll m (poll : chan M -> Poll (result unit (SendError string M)) * chan M) : Prop :=
  forall c, exists p c', poll c = (p, c') /\
    match p with
    | Pending => True
    | Ready (Ok _) => last (cv_queue (mpsc_view c')) = Some m
    | Ready (Err e) => SendError_msg e = m
    end.

Lemma queued_last (v : chan_view M) m : last (cv_queue (cv_with_queue v (cv_queue v ++ [m]))) = Some m.
Proof. simpl. by rewrite last_snoc. Qed.

Lemma sound_poll_do_send m : sound_poll m (SenderProxy_do_send m).
Proof.
  intros c. unfold SenderProxy_do_send.
  destruct (try_send_cases c m) as [c' [(-> & _ & _)|[(-> & _ & _)|(-> & _ & _ & Hv)]]];
    simpl; eexists _, _; (split; [done|]); try done. rewrite Hv. apply queued_last.
Qed.

Lemma sound_poll_do_send_timeout elapsed m : sound_poll m (SenderProxy_do_send_timeout elapsed m).
Proof.
  intros c. unfold SenderProxy_do_send_timeout.
  destruct (try_send_cases c m) as [c' [(-> & _ & _)|[(-> & _ & _)|(-> & _ & _ & Hv)]]];
    simpl; eexists _, _; (split; [done|]); [done|by destruct elapsed|]. rewrite Hv. apply queued_last.
Qed.

Lemma sound_await m poll timer others c : (forall elapsed, sound_poll m (poll elapsed)) ->
  exists o c', channel_await poll timer others c = (o, c') /\
    match o with
    | None => True
    | Some (Ok _) => last (cv_queue (mpsc_view c')) = Some m
    | Some (Err e) => SendError_msg e = m
    end.
Proof.
  intros Hp. revert timer c. induction others as [|g others IH]; intros timer c; simpl;
    destruct (Hp (default true (head timer)) c) as (p & c' & -> & Hcase);
    destruct p as [|[[]|e]]; eauto.
Qed.

Lemma channel_refuse_sound text : sound_send channel_took true (channel_refuse text).
Proof. intros m c. by eexists (Some (Err _)), _. Qed.

Lemma channel_refuse_blocking text : sound_blocking channel_took true (channel_refuse text).
Proof.
  unfold sound_blocking. destruct in_runtime; [|apply channel_refuse_sound].
  intros m c. right. by eexists _, _.
Qed.

Lemma channel_do_send_sound others timer : sound_send channel_took false (channel_do_send others timer).
Proof.
  intros m c. unfold channel_do_send.
  destruct (sound_await m (fun _ => SenderProxy_do_send m) timer others c) as (o & c' & -> & Hcase);
    [intros _; apply sound_poll_do_send|].
  simpl. eexists _, _. split; [done|]. by destruct o as [[[]|e]|].
Qed.

Lemma channel_blocking_sound others timer :
  sound_blocking channel_took false (channel_blocking_do_send others timer).
Proof.
  pose proof (channel_do_send_sound others timer) as Hs.
  unfold sound_blocking, channel_blocking_do_send, block_on. destruct in_runtime; [|exact Hs].
  intros m c. left. eauto.
Qed.

Lemma channel_do_send_timeout_sound others timer :
  sound_send channel_took false (channel_do_send_timeout others timer).
Proof.
  intros m c. unfold channel_do_send_timeout.
  destruct (sound_await m (fun elapsed => SenderProxy_do_send_timeout elapsed m) timer others c)
    as (o & c' & -> & Hcase); [intros elapsed; apply sound_poll_do_send_timeout|].
  simpl. eexists _, _. split; [done|]. by destruct o as [[[]|e]|].
Qed.

Lemma channel_try_do_send_sound : sound_send channel_took false channel_try_do_send.
Proof.
  intros m c. unfold channel_try_do_send, SenderProxy_try_do_send.
  destruct (try_send_cases c m) as [c' [(-> & _ & _)|[(-> & _ & _)|(-> & _ & _ & Hv)]]];
    simpl; eexists _, _; (split; [done|]); simpl; try done.
  split; [done|]. unfold channel_took. rewrite Hv. apply queued_last.
Qed.

#[export] Instance SenderProxy_laws others timer p :
  SenderLaws (SenderProxy_sender others timer p) channel_took.
Proof.
  split; simpl; auto using channel_refuse_sound, channel_refuse_blocking, channel_do_send_sound,
    channel_blocking_sound, channel_do_send_timeout_sound, channel_try_do_send_sound.
Qed.

#[export] Instance RemoteAddressableProxy_laws others timer p :
  SenderLaws (RemoteAddressableProxy_sender others timer p) channel_took.
Proof.
  split; simpl; auto using channel_refuse_sound, channel_refuse_blocking, channel_do_send_sound,
    channel_blocking_sound, channel_do_send_timeout_sound, channel_try_do_send_sound.
Qed.
End Channels.

(** ** Other processes *)

Section RemoteLaws.
Context {TypeId B R P : Type} `{Countable TypeId} `{!MessageTypes TypeId} `{!TypeCodec TypeId B R}.
Context (proxy : RemoteProxy R P) (queue : P -> list BinaryMessage) `{CallContext} `{!RemoteProxyLaws proxy queue}.
#[local] Set Default Proof Using "Type*".
Implicit Types (w : RemoteWorld TypeId B R P) (st : RemoteState R P) (k : TypeId).

(** The last message queued with the session is the encoding of the message, and if the
    caller has a response channel, there is a task that decodes the response into it. *)
Definition remote_took (index : Z) {M} (erase : M -> Any TypeId)
    : took_relation (RemoteWorld TypeId B R P) M :=
  fun msg rx w w' => let k := projT1 (erase msg) in exists bytes,
    (encode_ty k (projT2 (erase msg)) (rp_encode_context proxy) (rs_registry (rw_state w))).1 = Ok bytes /\
    match rx with
    | Some tx => exists raw codec,
        last (queue (rs_proxy (rw_state w'))) = Some (BinaryMessage_send index (message_id k) bytes raw) /\
        mkDecodeTask raw tx k codec (rp_decode_context proxy) ∈ rw_tasks w'
    | None =>
        last (queue (rs_proxy (rw_state w'))) = Some (BinaryMessage_do_send index (message_id k) bytes)
    end.

Section ByTable.
Context {M : Type} (erase : M -> Any TypeId) (messages : list TypeId) (index : Z).

Abbreviation target := (RemoteAddress_new index (derived_codec_table messages) proxy).

Lemma address_answered_sound op : delivers queue op ->
  sound_send (remote_took index erase) true
    (fun msg => remote_answered (RemoteAddress_send_via erase op target msg)).
Proof.
  intros Hop msg w. unfold remote_answered.
  destruct (send_via_cases proxy queue erase messages index op msg (rw_state w) Hop)
    as (o & st' & tasks & -> & Hcase).
  simpl. eexists _, _. split; [done|]. destruct o as [[tx|e]|]; simpl; [|by destruct Hcase|done].
  destruct Hcase as (_ & bytes & Henc & _ & Hl & _ & _ & ->). split; [done|]. exists bytes.
  split; [done|]. eexists _, _. split; [exact Hl|]. apply elem_of_app. right. apply list_elem_of_here.
Qed.

(** Inside the runtime every send that reaches the session panics; a message that has no
    codec or cannot be encoded is refused before. *)
Lemma address_answered_panics op : (forall m p, exists info, op m p = Panicked info) ->
  panics_or_refuses (fun msg => remote_answered (B := B) (RemoteAddress_send_via erase op target msg)).
Proof.
  intros Hop msg [st tasks]. unfold remote_answered, RemoteAddress_send_via, Any_type_id. simpl.
  destruct (erase msg) as [k m]. simpl. rewrite derived_codec_table_lookup.
  case_decide as Hin; [|right; by eexists _, _].
  simpl. rewrite downcast_same. simpl.
  destruct (encode_ty k m _ (rs_registry st)) as [[bytes|e] reg]; simpl; [|right; by eexists _, _].
  left. edestruct Hop as [info ->]. simpl. eauto.
Qed.

Lemma address_unanswered_panics op : (forall m p, exists info, op m p = Panicked info) ->
  panics_or_refuses (fun msg => remote_unanswered (B := B) (RemoteAddress_do_send_via erase op target msg)).
Proof.
  intros Hop msg [st tasks]. unfold remote_unanswered, RemoteAddress_do_send_via, Any_type_id. simpl.
  destruct (erase msg) as [k m]. simpl. rewrite derived_codec_table_lookup.
  case_decide as Hin; [|right; by eexists _, _].
  simpl. rewrite downcast_same. simpl.
  destruct (encode_ty k m _ (rs_registry st)) as [[bytes|e] reg]; simpl; [|right; by eexists _, _].
  left. edestruct Hop as [info ->]. simpl. eauto.
Qed.

Lemma address_unanswered_sound op : delivers queue op ->
  sound_send (remote_took index erase) false
    (fun msg => remote_unanswered (RemoteAddress_do_send_via erase op target msg)).
Proof.
  intros Hop msg [st tasks]. unfold remote_unanswered, RemoteAddress_do_send_via, Any_type_id,
    remote_took. simpl.
  destruct (erase msg) as [k m]. simpl. rewrite derived_codec_table_lookup.
  case_decide as Hin; [|by eexists (Some (Err _)), _].
  simpl. rewrite downcast_same. simpl.
  destruct (encode_ty k m _ (rs_registry st)) as [[bytes|e] reg] eqn:Ee; simpl;
    [|by eexists (Some (Err _)), _].
  unfold RemoteAddress_index. simpl.
  destruct (Hop (BinaryMessage_do_send index (message_id k) bytes) (rs_proxy st))
    as (o & p & Ho & Hq). rewrite Ho. simpl.
  eexists _, _. split; [done|]. destruct o as [[[]|e]|]; simpl; [|by destruct e|done].
  split; [done|]. exists bytes. auto.
Qed.
End ByTable.

Section Typed.
Context (k : TypeId) (index : Z).

Abbreviation recipient := (RemoteRecipient_new index proxy).

Lemma recipient_answered_sound op : delivers queue op ->
  sound_send (remote_took index (existT k)) true
    (fun msg => remote_answered (RemoteRecipient_send_via k op recipient msg)).
Proof.
  intros Hop msg [st tasks]. unfold remote_answered, RemoteRecipient_send_via, remote_took. simpl.
  destruct (encode_ty k msg _ (rs_registry st)) as [[bytes|e] reg] eqn:Ee; simpl;
    [|by eexists (Some (Err _)), _].
  unfold RemoteRecipient_index. simpl.
  destruct (Hop (BinaryMessage_send index (message_id k) bytes (rs_next st)) (rs_proxy st))
    as (o & p & Ho & Hq). rewrite Ho. simpl.
  destruct o as [[[]|e]|]; simpl; eexists _, _; (split; [done|]); simpl; [|by destruct e|done].
  split; [done|]. exists bytes. split; [done|]. eexists _, _. split; [by apply Hq|].
  apply elem_of_app. right. apply list_elem_of_here.
Qed.

Lemma recipient_answered_panics op : (forall m p, exists info, op m p = Panicked info) ->
  panics_or_refuses (fun msg => remote_answered (B := B) (RemoteRecipient_send_via k op recipient msg)).
Proof.
  intros Hop msg [st tasks]. unfold remote_answered, RemoteRecipient_send_via. simpl.
  destruct (encode_ty k msg _ (rs_registry st)) as [[bytes|e] reg]; simpl; [|right; by eexists _, _].
  left. edestruct Hop as [info ->]. simpl. eauto.
Qed.

Lemma recipient_unanswered_panics op : (forall m p, exists info, op m p = Panicked info) ->
  panics_or_refuses (fun msg => remote_unanswered (B := B) (RemoteRecipient_do_send_via k op recipient msg)).
Proof.
  intros Hop msg [st tasks]. unfold remote_unanswered, RemoteRecipient_do_send_via. simpl.
  destruct (encode_ty k msg _ (rs_registry st)) as [[bytes|e] reg]; simpl; [|right; by eexists _, _].
  left. edestruct Hop as [info ->]. simpl. eauto.
Qed.

Lemma recipient_unanswered_sound op : delivers queue op ->
  sound_send (remote_took index (existT k)) false
    (fun msg => remote_unanswered (RemoteRecipient_do_send_via k op recipient msg)).
Proof.
  intros Hop msg [st tasks]. unfold remote_unanswered, RemoteRecipient_do_send_via, remote_took. simpl.
  destruct (encode_ty k msg _ (rs_registry st)) as [[bytes|e] reg] eqn:Ee; simpl;
    [|by eexists (Some (Err _)), _].
  unfold RemoteRecipient_index. simpl.
  destruct (Hop (BinaryMessage_do_send index (message_id k) bytes) (rs_proxy st))
    as (o & p & Ho & Hq). rewrite Ho. simpl.
  eexists _, _. split; [done|]. destruct o as [[[]|e]|]; simpl; [|by destruct e|done].
  split; [done|]. exists bytes. auto.
Qed.
End Typed.

(** The four ways a proxy sends. *)
Lemma proxy_delivers :
  delivers queue (rp_do_send proxy) /\ delivers queue (rp_try_do_send proxy) /\
  delivers queue (rp_do_send_timeout proxy) /\ delivers_blocking queue (rp_blocking_do_send proxy).
Proof.
  split_and!; [apply rp_do_send_law|by apply delivers_now_delivers, rp_try_do_send_law|
    apply rp_do_send_timeout_law|apply rp_blocking_do_send_law].
Qed.

#[export] Instance RemoteRecipient_laws k index :
  SenderLaws (RemoteRecipient_sender k (RemoteRecipient_new index proxy))
    (remote_took index (existT k)).
Proof.
  destruct proxy_delivers as (? & ? & ? & [? ?]%delivers_blocking_elim).
  split; simpl; [intros; apply rp_closed_law|..|apply sound_blocking_intro; intros|apply sound_blocking_intro; intros];
    first [apply recipient_answered_sound|apply recipient_unanswered_sound
          |apply recipient_answered_panics|apply recipient_unanswered_panics]; auto.
Qed.
End RemoteLaws.

(** ** Addresses *)

Section AddressLaws.
Context {TypeId B R P : Type} `{Countable TypeId} `{!MessageTypes TypeId} `{!TypeCodec TypeId B R}.
Context (proxy : RemoteProxy R P) (queue : P -> list BinaryMessage) `{CallContext} `{!RemoteProxyLaws proxy queue}.
Context {M : Type} {chan : Type -> Type} `{TokioMpsc chan}.
Context (erase : Outgoing M -> Any TypeId) (messages : list TypeId) (remote_addressable : bool).
Context (others : list (chan (Envelope M) -> chan (Envelope M))) (timer : list bool).
#[local] Set Default Proof Using "Type*".

Abbreviation World := (AddressWorld TypeId B R P M chan).
Implicit Types (w : World) (msg : Outgoing M).

(** The envelope with the message is the last one in the mailbox, with the response channel
    made for it. *)
Definition local_took : took_relation World (Outgoing M) :=
  fun msg rx w w' =>
    last (cv_queue (mpsc_view (ss_chan (aw_local w')))) = Some (pack_out msg rx) /\
    (is_some rx = true -> rx = Some (ss_next (aw_local w))).

Definition address_remote_took (index : Z) : took_relation World (Outgoing M) :=
  fun msg rx w w' => remote_took proxy queue index erase msg rx (aw_remote w) (aw_remote w').

Lemma sound_in_remote index answered op :
  sound_send (remote_took proxy queue index erase) answered op ->
  sound_send (address_remote_took index) answered (fun msg => in_remote (op msg)).
Proof.
  intros Hop msg [l w]. unfold in_remote. simpl. destruct (Hop msg w) as (o & w' & -> & Ho).
  simpl. eexists _, _. split; [done|]. exact Ho.
Qed.

Lemma panics_in_remote op :
  panics_or_refuses op -> panics_or_refuses (fun msg => in_remote (B := B) (R := R) (P := P) (M := M) (chan := chan) (op msg)).
Proof.
  intros Hop msg [l w]. unfold in_remote. simpl.
  destruct (Hop msg w) as [[info ->]|(e & w' & -> & He)]; [left|right]; simpl; eauto.
Qed.

#[export] Instance Address_remote_laws index :
  SenderLaws
    (Address_sender erase remote_addressable others timer
       (Address_new_remote (derived_codec_table messages) index proxy))
    (address_remote_took index).
Proof.
  destruct (proxy_delivers proxy queue) as (? & ? & ? & [? ?]%delivers_blocking_elim).
  split; simpl; [intros; apply rp_closed_law|..|apply sound_blocking_intro; intros|apply sound_blocking_intro; intros];
    first [apply sound_in_remote|apply panics_in_remote];
    first [apply (address_answered_sound proxy queue)|apply (address_unanswered_sound proxy queue)
          |apply (address_answered_panics proxy queue)|apply (address_unanswered_panics proxy queue)]; auto.
Qed.

#[local] Set Default Proof Using "Type".

(** How a local send ends. *)
Definition local_end msg (tx : option nat) (o : SendOutcome (Outgoing M)) (v : chan_view (Envelope M)) : Prop :=
  match o with
  | None => True
  | Some (Ok rx) => rx = tx /\ last (cv_queue v) = Some (pack_out msg tx)
  | Some (Err e) => SendError_msg e = msg
  end.

Lemma sound_in_local (answered : bool)
    (op : Outgoing M -> SendState chan (Envelope M) -> outcome (SendOutcome (Outgoing M) * SendState chan (Envelope M))) :
  (forall msg s, exists o s', op msg s = Done (o, s') /\
     local_end msg (if answered then Some (ss_next s) else None) o (mpsc_view (ss_chan s'))) ->
  sound_send local_took answered (fun msg => in_local (op msg)).
Proof.
  intros Hop msg [s w]. unfold in_local. simpl. destruct (Hop msg s) as (o & s' & -> & Ho).
  simpl. eexists _, _. split; [done|]. destruct o as [[rx|e]|]; [|done..].
  destruct Ho as [-> Hl]. unfold local_took. simpl. by destruct answered.
Qed.

Lemma local_await_end msg tx others' s : exists o s',
  SendFuture_await (BoxError := string) (mkSendFuture (pack_out msg tx) tx (is_timed msg)) others' s =
    Done (o, s') /\ local_end msg tx o (mpsc_view (ss_chan s')).
Proof.
  destruct (SendFuture_await_cases (BoxError := string) msg tx others' s) as (o & s' & -> & _ & Ho).
  eexists _, _. split; [done|]. destruct o as [[rx|e]|]; [|by destruct Ho as [-> _]|done].
  destruct Ho as (-> & c & _ & _ & ->). split; [done|]. simpl. by rewrite last_snoc.
Qed.

Lemma local_timeout_end msg tx timer' others' s : exists o s',
  local_timeout_await (mkSendFuture (pack_out msg tx) tx (is_timed msg)) timer' others' s =
    Done (o, s') /\ local_end msg tx o (mpsc_view (ss_chan s')).
Proof.
  revert timer' s. induction others' as [|g others' IH]; intros timer' s; simpl;
    unfold SendTimeoutFuture_poll; simpl;
    destruct (try_send_cases (ss_chan s) (pack_out msg tx))
      as [c' [(-> & _ & _)|[(-> & _ & _)|(-> & _ & _ & Hv)]]]; simpl; rewrite ?unpack_pack_out; simpl.
  1, 4: by eexists (Some (Err _)), _.
  1, 3: destruct (default true (head timer')); simpl;
    [by eexists (Some (Err _)), _|first [apply IH|by eexists None, _]].
  all: eexists (Some (Ok _)), _; split; [done|]; simpl; rewrite Hv; simpl; by rewrite last_snoc.
Qed.

Lemma local_try_end msg s : exists o s',
  (let! (r, s) := LocalAddress_try_send msg s in Done (Some r : SendOutcome (Outgoing M), s)) = Done (o, s') /\
     local_end msg (Some (ss_next s)) o (mpsc_view (ss_chan s')).
Proof.
  unfold LocalAddress_try_send, oneshot_new. simpl.
  destruct (try_send_cases (ss_chan s) (pack_out msg (Some (ss_next s))))
    as [c' [(-> & _ & _)|[(-> & _ & _)|(-> & _ & _ & Hv)]]]; rewrite ?unpack_pack_out; simpl.
  1, 2: by eexists (Some (Err _)), _.
  eexists (Some (Ok _)), _; split; [done|]; simpl; rewrite Hv; simpl; by rewrite last_snoc.
Qed.

Lemma local_try_do_end msg s : exists o s',
  (let! (r, s) := LocalAddress_try_do_send msg s in Done (sent_unit r, s)) = Done (o, s') /\
     local_end msg None o (mpsc_view (ss_chan s')).
Proof.
  unfold LocalAddress_try_do_send.
  destruct (try_send_cases (ss_chan s) (pack_out msg None))
    as [c' [(-> & _ & _)|[(-> & _ & _)|(-> & _ & _ & Hv)]]]; rewrite ?unpack_pack_out; simpl.
  1, 2: by eexists (Some (Err _)), _.
  eexists (Some (Ok _)), _; split; [done|]; simpl; rewrite Hv; simpl; by rewrite last_snoc.
Qed.

#[export] Instance Address_local_laws la :
  SenderLaws (Address_sender erase remote_addressable others timer (InnerLocal (R := R) (P := P) la))
    local_took.
Proof.
  split; simpl; [done|..|apply sound_blocking_intro; intros Hrun|apply sound_blocking_intro; intros Hrun];
    try (intros msg aw; left; unfold Address_blocking_send, Address_blocking_do_send,
           LocalAddress_blocking_send, LocalAddress_blocking_do_send, block_on; rewrite Hrun; by eexists);
    apply sound_in_local; intros msg s; simpl; unfold LocalAddress_blocking_send, LocalAddress_blocking_do_send, block_on;
    try rewrite Hrun;
    [apply (local_await_end msg (Some (ss_next s)) others (mkSendState (ss_chan s) (S (ss_next s))))
    |apply (local_await_end msg None)
    |apply local_try_end
    |apply local_try_do_end
    |apply (local_timeout_end msg (Some (ss_next s)) timer others (mkSendState (ss_chan s) (S (ss_next s))))
    |apply (local_timeout_end msg None)
    |apply (local_await_end msg (Some (ss_next s)) others (mkSendState (ss_chan s) (S (ss_next s))))
    |apply (local_await_end msg None)].
Qed.
End AddressLaws.

(** ** Every sender *)

Section Built.
Context {TypeId B R P : Type} `{Countable TypeId} `{!MessageTypes TypeId} `{!TypeCodec TypeId B R}.
Context (proxy : RemoteProxy R P) (queue : P -> list BinaryMessage) `{CallContext} `{!RemoteProxyLaws proxy queue}.
Context {M : Type} {chan : Type -> Type} `{TokioMpsc chan}.
Context (erase : Outgoing M -> Any TypeId) (messages : list TypeId) (remote_addressable : bool).
#[local] Set Default Proof Using "Type*".

(** The senders a program can hold, with what their success means: for any schedule of the
    sends that wait, and sharing a sender through recipients as often as one likes. *)
Inductive Built : forall W Message, Sender W Message -> took_relation W Message -> Prop :=
| built_local others timer a :
    Built _ _ (Address_sender (B := B) (R := R) (P := P) (chan := chan) erase remote_addressable others timer
                 (InnerLocal a))
      local_took
| built_remote others timer index :
    Built _ _ (Address_sender (B := B) (chan := chan) erase remote_addressable others timer
                 (Address_new_remote (derived_codec_table messages) index proxy))
      (address_remote_took proxy queue erase index)
| built_channel X others timer p :
    Built _ _ (SenderProxy_sender (M := X) (chan := chan) others timer p) channel_took
| built_reachable_channel X others timer p :
    Built _ _ (RemoteAddressableProxy_sender (M := X) (chan := chan) others timer p) channel_took
| built_typed k index :
    Built _ _ (RemoteRecipient_sender (B := B) k (RemoteRecipient_new index proxy))
      (remote_took proxy queue index (existT k))
| built_recipient W Message s took :
    Built W Message s took -> Built W Message (Recipient_sender (Recipient_new s)) took.

Lemma built_laws {W Message} (s : Sender W Message) took : Built W Message s took -> SenderLaws s took.
Proof. induction 1; apply _. Qed.

(** C14. Nothing sent is lost, whatever it is sent to: an address of a local actor, an
    address or a typed recipient of an actor in another process, a channel, a channel
    reachable from other processes, or a recipient that shares one of these. Each of the
    eight ways to send returns without panicking, the two that block outside of the runtime:
    if it fails the caller has its very message back, and if it succeeds the message, or its
    encoding, is the last one queued, with a response channel exactly if the caller asked
    for one. Inside the runtime the two that block panic, as documented, unless they hand
    the message back at once. *)
Theorem every_sender_sound {W Message} (s : Sender W Message) took answered blocking op
    (Hb : Built W Message s took)
    (Hop : In (answered, blocking, op)
       [(true, false, sn_send s); (false, false, sn_do_send s);
        (true, false, sn_try_send s); (false, false, sn_try_do_send s);
        (true, false, sn_send_timeout s); (false, false, sn_do_send_timeout s);
        (true, true, sn_blocking_send s); (false, true, sn_blocking_do_send s)]) msg w :
  if blocking && in_runtime then
    (exists info, op msg w = Panicked info) \/
    exists e w', op msg w = Done (Some (Err e), w') /\ SendError_msg e = msg
  else exists o w', op msg w = Done (o, w') /\
    match o with
    | None => True
    | Some (Ok rx) => is_some rx = answered /\ took msg rx w w'
    | Some (Err e) => SendError_msg e = msg
    end.
Proof.
  destruct (built_laws s took Hb) as [_ ? ? ? ? ? ? Hbs Hbd]. unfold sound_blocking in *.
  simpl in Hop. destruct_or? Hop; simplify_eq/=; auto.
  - destruct in_runtime; exact (Hbs msg w).
  - destruct in_runtime; exact (Hbd msg w).
Qed.

(** Awaiting the end of any sender is over exactly when the sender is closed. *)
Lemma every_sender_closed {W Message} (s : Sender W Message) took w : Built W Message s took ->
  sn_closed s w = Ready tt <-> sn_is_closed s w = true.
Proof.
  intros Hb. destruct (built_laws s took Hb) as [Hc]. rewrite Hc. by destruct (sn_is_closed s w).
Qed.
End Built.

(** ** Witness: a recipient shared by a recipient, over a typed recipient *)

Section Witness.

Abbreviation w_typed :=
  (RemoteRecipient_sender (B := slice) WHello
     (RemoteRecipient_new 5 (Proxy_impl (chan := chan_view) [] [] 3))).

Abbreviation w_shared := (Recipient_sender (Recipient_new (Recipient_sender (Recipient_new w_typed)))).

Lemma every_sender_sound_witness :
  exists o w', sn_try_send w_shared "hi"%string (mkRemoteWorld w_state []) = Done (o, w') /\
    match o with
    | None => True
    | Some (Ok rx) => is_some rx = true /\
        remote_took (Proxy_impl (chan := chan_view) [] [] 3) session_queue 5 (existT WHello) "hi"%string rx
          (mkRemoteWorld w_state []) w'
    | Some (Err e) => SendError_msg e = "hi"%string
    end.
Proof.
  exact (every_sender_sound (Proxy_impl (chan := chan_view) [] [] 3) session_queue
           (M := nat) (fun _ => existT WHello "hi"%string) [WHello] true w_shared _ true false
           (sn_try_send w_shared)
           (built_recipient _ _ _ _ _ _ _ _ _
              (built_recipient _ _ _ _ _ _ _ _ _ (built_typed _ _ _ _ _ WHello 5)))
           (or_intror (or_intror (or_introl eq_refl))) "hi"%string (mkRemoteWorld w_state [])).
Defined.
End Witness.
