(* ===== verification/IpcMethod.v ===== *)
(** * Connections between nodes

    Models acktor-ipc/src/ipc_method.rs ([IpcConnection], the interface a node uses),
    ipc_method/websocket.rs and ipc_method/pipe.rs. The transports (tungstenite's streams and
    sinks, tokio_util's length delimited frames, the sockets) are not part of the repository:
    what they answer at each await is an argument, the future being dropped there included,
    and what the connection asked of them is returned as a list of events. *)

From S2P Require Import Prelude.

Inductive ErrorKind : Type := ConnectionAborted | OtherError | SystemError (code : Z).

(** [std::io::Error]. *)
Record IoError : Type := mkIoError { io_kind : ErrorKind; io_text : string }.

Definition IoError_other (text : string) : IoError := mkIoError OtherError text.
Definition IoError_from (kind : ErrorKind) : IoError := mkIoError kind "".

(** What became of a future: it returned, or it was dropped before. *)
Inductive awaited (A : Type) : Type :=
| Returned (r : result A IoError)
| Dropped.
Arguments Returned {A} _.
Arguments Dropped {A}.

(** What a connection did: it took a frame off the transport, or handed one over. *)
Inductive ConnEvent (Frame : Type) : Type :=
| ConnRead (f : Frame)
| ConnWrote (f : Frame).
Arguments ConnRead {Frame} _.
Arguments ConnWrote {Frame} _.

(** The answer of a sink to one message. A message can have been handed over although the send
    failed or was dropped, while the sink was flushed. *)
Inductive SinkAnswer (E : Type) : Type :=
| SinkOk
| SinkErr (written : bool) (e : E)
| SinkDropped (written : bool).
Arguments SinkOk {E}.
Arguments SinkErr {E} _ _.
Arguments SinkDropped {E} _.

(** The answer of a stream to [next().await]: an item, the end, or the await was dropped
    (which takes no item off the stream). *)
Inductive StreamAnswer (T E : Type) : Type :=
| StreamItem (r : result T E)
| StreamEnd
| StreamDropped.
Arguments StreamItem {T E} _.
Arguments StreamEnd {T E}.
Arguments StreamDropped {T E}.

Definition event_payload {F} (payload : F -> option (list Z)) (want_read : bool) (e : ConnEvent F)
    : option (list Z) :=
  match e with
  | ConnRead f => if want_read then payload f else None
  | ConnWrote f => if want_read then None else payload f
  end.

Definition returned_payload (r : awaited (list Z)) : option (list Z) :=
  match r with Returned (Ok b) => Some b | _ => None end.

(** [IpcConnection]: its send and receive halves, and what its documentation promises. A
    frame either carries a message or belongs to the transport. A call of [recv] that
    returns a message has read exactly the frame of that message, and one that does not,
    because it failed or was dropped, has read none; a call of [send] that returns has
    written one frame. *)
Class IpcConnection (C Frame SendEnv RecvEnv : Type) : Type := {
  conn_send : list Z -> SendEnv -> C -> awaited unit * C * list (ConnEvent Frame);
  conn_recv : RecvEnv -> C -> awaited (list Z) * C * list (ConnEvent Frame);
  conn_payload : Frame -> option (list Z);
  conn_recv_law env c :
    let '(r, _, evs) := conn_recv env c in
    omap (event_payload conn_payload true) evs = option_list (returned_payload r) /\
    omap (event_payload conn_payload false) evs = [];
  conn_send_law buf env c :
    let '(r, _, evs) := conn_send buf env c in
    omap (event_payload conn_payload true) evs = [] /\
    omap (event_payload conn_payload false) evs `sublist_of` [buf] /\
    (r = Returned (Ok tt) -> omap (event_payload conn_payload false) evs = [buf]);
}.

(** ** WebSocket *)

Inductive WebSocketMessage : Type :=
| WsText (text : string)
| WsBinary (payload : list Z)
| WsPing (payload : list Z)
| WsPong (payload : list Z)
| WsClose
| WsFrame.

Inductive WebSocketError : Type := WsErrorIo (e : IoError) | WsErrorElse (text : string).

Definition ws_error_to_io_error (e : WebSocketError) : IoError :=
  match e with WsErrorIo e => e | WsErrorElse text => IoError_other text end.

Record WebSocketConnection : Type := mkWebSocketConnection {
  ws_peer_addr : string;
  ws_pending_pong : option (list Z);
}.

Record WebSocketListener : Type := mkWebSocketListener { wl_local_addr : string }.

(** [bind] with the answer of the TCP socket. *)
Definition WebSocketListener_bind (local_addr : string) (socket : result unit IoError)
    : result WebSocketListener IoError :=
  let? _ := socket in Ok (mkWebSocketListener local_addr).

Definition WebSocketListener_local_endpoint (l : WebSocketListener) : string := wl_local_addr l.

Definition WebSocketConnection_new (peer_addr : string) : WebSocketConnection :=
  mkWebSocketConnection peer_addr None.

(** [accept]: the socket answers with the address of the peer, then the handshake follows. *)
Definition WebSocketListener_accept (socket : result string IoError)
    (handshake : result unit WebSocketError) (l : WebSocketListener)
    : result WebSocketConnection IoError :=
  let? peer_addr := socket in
  let? _ := result_map_err ws_error_to_io_error handshake in
  Ok (WebSocketConnection_new peer_addr).

Definition WebSocketConnection_connect (peer_addr : string) (handshake : result unit WebSocketError)
    : result WebSocketConnection IoError :=
  let? _ := result_map_err ws_error_to_io_error handshake in
  Ok (WebSocketConnection_new peer_addr).

Definition WebSocketConnection_peer_endpoint (c : WebSocketConnection) : string := ws_peer_addr c.

(** [close] with the answer of the sink. *)
Definition WebSocketConnection_close (sink : result unit WebSocketError) (c : WebSocketConnection)
    : result unit IoError := result_map_err ws_error_to_io_error sink.

Abbreviation WsSink := (SinkAnswer WebSocketError).
Abbreviation WsStream := (StreamAnswer WebSocketMessage WebSocketError).
Abbreviation WsEvent := (ConnEvent WebSocketMessage).

(** [WebSocketConnection::send]. *)
Definition WebSocketConnection_send (msg : WebSocketMessage) (sink : WsSink)
    : awaited unit * list WsEvent :=
  match sink with
  | SinkOk => (Returned (Ok tt), [ConnWrote msg])
  | SinkErr written e =>
      (Returned (Err (ws_error_to_io_error e)), if written then [ConnWrote msg] else [])
  | SinkDropped written => (Dropped, if written then [ConnWrote msg] else [])
  end.

(** [WebSocketConnection::recv]. *)
Definition WebSocketConnection_recv (stream : WsStream) : awaited WebSocketMessage * list WsEvent :=
  match stream with
  | StreamItem (Ok m) => (Returned (Ok m), [ConnRead m])
  | StreamItem (Err e) => (Returned (Err (ws_error_to_io_error e)), [])
  | StreamEnd => (Returned (Err (IoError_from ConnectionAborted)), [])
  | StreamDropped => (Dropped, [])
  end.

Definition with_pending_pong (pong : option (list Z)) (c : WebSocketConnection) : WebSocketConnection :=
  mkWebSocketConnection (ws_peer_addr c) pong.

(** The [if let] that opens an iteration of the loop of [recv]. *)
Definition ws_send_pong (sink : WsSink) (c : WebSocketConnection)
    : awaited unit * WebSocketConnection * list WsEvent :=
  match ws_pending_pong c with
  | Some payload =>
      match WebSocketConnection_send (WsPong payload) sink with
      | (Returned (Ok tt), evs) => (Returned (Ok tt), with_pending_pong None c, evs)
      | (r, evs) => (r, c, evs)
      end
  | None => (Returned (Ok tt), c, [])
  end.

(** The [match] that closes it: [None] starts the next iteration. *)
Definition ws_on_message (message : WebSocketMessage) (c : WebSocketConnection)
    : option (result (list Z) IoError) * WebSocketConnection :=
  match message with
  | WsBinary payload => (Some (Ok payload), c)
  | WsPing payload => (None, with_pending_pong (Some payload) c)
  | WsPong _ => (None, c)
  | WsClose => (Some (Err (mkIoError ConnectionAborted "received close message")), c)
  | _ => (Some (Err (IoError_other "received non-binary message")), c)
  end.

(** [recv], with the answers of sink and stream in each iteration; it is dropped when there
    are no more. *)
Fixpoint ws_recv (env : list (WsSink * WsStream)) (c : WebSocketConnection)
    : awaited (list Z) * WebSocketConnection * list WsEvent :=
  match env with
  | [] => (Dropped, c, [])
  | (sink, stream) :: env =>
      match ws_send_pong sink c with
      | (Dropped, c, evs) => (Dropped, c, evs)
      | (Returned (Err e), c, evs) => (Returned (Err e), c, evs)
      | (Returned (Ok _), c, evs) =>
          match WebSocketConnection_recv stream with
          | (Dropped, evs') => (Dropped, c, evs ++ evs')
          | (Returned (Err e), evs') => (Returned (Err e), c, evs ++ evs')
          | (Returned (Ok message), evs') =>
              match ws_on_message message c with
              | (Some r, c) => (Returned r, c, evs ++ evs')
              | (None, c) =>
                  let '(r, c, evs'') := ws_recv env c in (r, c, evs ++ evs' ++ evs'')
              end
          end
      end
  end.

(** [send]. *)
Definition ws_send (buf : list Z) (sink : WsSink) (c : WebSocketConnection)
    : awaited unit * WebSocketConnection * list WsEvent :=
  let (r, evs) := WebSocketConnection_send (WsBinary buf) sink in (r, c, evs).

Definition ws_payload (m : WebSocketMessage) : option (list Z) :=
  match m with WsBinary payload => Some payload | _ => None end.

(** ** Pipes *)

Record PipeListener : Type := mkPipeListener { pl_name : string; pl_accept_counter : Z }.

(** [new] with the answers of [to_ns_name] and of the creation of the socket. *)
Definition PipeListener_new (name : string) (ns_name socket : result unit IoError)
    : result PipeListener IoError :=
  let? _ := ns_name in
  let? _ := socket in
  Ok (mkPipeListener name 0).

Definition PipeListener_local_endpoint (l : PipeListener) : string := pl_name l.

Record PipeConnection : Type := mkPipeConnection { pc_name : string }.

(** [accept] with the answer of the socket. *)
Definition PipeListener_accept (socket : result unit IoError)
    (l : PipeListener) : result PipeConnection IoError * PipeListener :=
  match socket with
  | Err e => (Err e, l)
  | Ok _ =>
      let id := pl_accept_counter l in
      (Ok (mkPipeConnection (pl_name l +:+ "#" +:+ u64_display id)),
       mkPipeListener (pl_name l) (wrap_u 64 (id + 1)))
  end.

Definition PipeConnection_connect (name : string) (ns_name socket : result unit IoError)
    : result PipeConnection IoError :=
  let? _ := ns_name in
  let? _ := socket in
  Ok (mkPipeConnection name).

Definition PipeConnection_peer_endpoint (c : PipeConnection) : string := pc_name c.

(** [close] with the answer of the sink. *)
Definition PipeConnection_close (sink : result unit IoError) (c : PipeConnection) : result unit IoError :=
  sink.

Definition pipe_send (buf : list Z) (sink : SinkAnswer IoError) (c : PipeConnection)
    : awaited unit * PipeConnection * list (ConnEvent (list Z)) :=
  match sink with
  | SinkOk => (Returned (Ok tt), c, [ConnWrote buf])
  | SinkErr written e => (Returned (Err e), c, if written then [ConnWrote buf] else [])
  | SinkDropped written => (Dropped, c, if written then [ConnWrote buf] else [])
  end.

Definition pipe_recv (stream : StreamAnswer (list Z) IoError) (c : PipeConnection)
    : awaited (list Z) * PipeConnection * list (ConnEvent (list Z)) :=
  match stream with
  | StreamItem (Ok frame) => (Returned (Ok frame), c, [ConnRead frame])
  | StreamItem (Err e) => (Returned (Err e), c, [])
  | StreamEnd => (Returned (Err (IoError_from ConnectionAborted)), c, [])
  | StreamDropped => (Dropped, c, [])
  end.
