(* ===== verification/IpcMethodTheorems.v ===== *)
(** * Facts about connections

    The two implementations of [IpcConnection], what two ends that are connected deliver
    (proved against the interface), and the answers of a WebSocket connection to pings. *)

From S2P Require Import Prelude IpcMethod.

#[local] Set Default Proof Using "Type*".

(** ** The implementations *)

Lemma ws_send_pong_inv sink c :
  let '(r, c', evs) := ws_send_pong sink c in
  omap (event_payload ws_payload true) evs = [] /\
  omap (event_payload ws_payload false) evs = [].
Proof.
  unfold ws_send_pong, WebSocketConnection_send. repeat (case_match; simplify_eq/=; auto).
Qed.

Lemma ws_recv_law env c :
  let '(r, _, evs) := ws_recv env c in
  omap (event_payload ws_payload true) evs = option_list (returned_payload r) /\
  omap (event_payload ws_payload false) evs = [].
Proof.
  revert c. induction env as [|[sink stream] env IH]; intros c; cbn [ws_recv]; [done|].
  pose proof (ws_send_pong_inv sink c) as Hp.
  destruct (ws_send_pong sink c) as [[[[[]|e]|] c1] evs]; destruct Hp as [Hr Hw]; [|done|done].
  destruct stream as [[m|e]| |]; cbn [WebSocketConnection_recv];
    [|split; rewrite omap_app, ?Hr, ?Hw; done..].
  destruct m; cbn [ws_on_message]; try (split; rewrite omap_app, ?Hr, ?Hw; done).
  - specialize (IH (with_pending_pong (Some payload) c1)).
    destruct (ws_recv env _) as [[r c2] evs']. destruct IH as [<- Hw'].
    split; rewrite !omap_app, ?Hr, ?Hw, ?Hw'; done.
  - specialize (IH c1). destruct (ws_recv env _) as [[r c2] evs']. destruct IH as [<- Hw'].
    split; rewrite !omap_app, ?Hr, ?Hw, ?Hw'; done.
Qed.

Lemma ws_send_law buf sink c :
  let '(r, _, evs) := ws_send buf sink c in
  omap (event_payload ws_payload true) evs = [] /\
  omap (event_payload ws_payload false) evs `sublist_of` [buf] /\
  (r = Returned (Ok tt) -> omap (event_payload ws_payload false) evs = [buf]).
Proof. destruct sink as [|[]|[]]; simpl; repeat split; try done; apply sublist_nil_l. Qed.

#[export] Instance WebSocketConnection_ipc :
  IpcConnection WebSocketConnection WebSocketMessage WsSink (list (WsSink * WsStream)) :=
  Build_IpcConnection _ _ _ _ ws_send ws_recv ws_payload ws_recv_law ws_send_law.

Lemma pipe_recv_law stream c :
  let '(r, _, evs) := pipe_recv stream c in
  omap (event_payload Some true) evs = option_list (returned_payload r) /\
  omap (event_payload Some false) evs = [].
Proof. destruct stream as [[]| |]; done. Qed.

Lemma pipe_send_law buf sink c :
  let '(r, _, evs) := pipe_send buf sink c in
  omap (event_payload Some true) evs = [] /\
  omap (event_payload Some false) evs `sublist_of` [buf] /\
  (r = Returned (Ok tt) -> omap (event_payload Some false) evs = [buf]).
Proof. destruct sink as [|[]|[]]; simpl; repeat split; try done; apply sublist_nil_l. Qed.

#[export] Instance PipeConnection_ipc :
  IpcConnection PipeConnection (list Z) (SinkAnswer IoError) (StreamAnswer (list Z) IoError) :=
  Build_IpcConnection _ _ _ _ pipe_send pipe_recv Some pipe_recv_law pipe_send_law.

(** ** Two ends *)

(** A use of a connection: calls of [send] and [recv] in any order. *)
Inductive ConnOp (SendEnv RecvEnv : Type) : Type :=
| OpSend (buf : list Z) (env : SendEnv)
| OpRecv (env : RecvEnv).
Arguments OpSend {SendEnv RecvEnv} _ _.
Arguments OpRecv {SendEnv RecvEnv} _.

Section Ends.
Context {C Frame SE RE : Type} `{IC : !IpcConnection C Frame SE RE}.
Implicit Types (c : C) (evs : list (ConnEvent Frame)).

(** The messages whose [send] returned, those [recv] returned, and the events. *)
Fixpoint conn_run (ops : list (ConnOp SE RE)) c
    : list (list Z) * list (list Z) * C * list (ConnEvent Frame) :=
  match ops with
  | [] => ([], [], c, [])
  | OpSend buf env :: ops =>
      let '(r, c, evs) := conn_send buf env c in
      let '(done, got, c, evs') := conn_run ops c in
      (match r with Returned (Ok tt) => buf :: done | _ => done end, got, c, evs ++ evs')
  | OpRecv env :: ops =>
      let '(r, c, evs) := conn_recv env c in
      let '(done, got, c, evs') := conn_run ops c in
      (done, option_list (returned_payload r) ++ got, c, evs ++ evs')
  end.

Definition op_buf (op : ConnOp SE RE) : option (list Z) :=
  match op with OpSend buf _ => Some buf | OpRecv _ => None end.

Definition payloads_read evs : list (list Z) := omap (event_payload conn_payload true) evs.
Definition payloads_written evs : list (list Z) := omap (event_payload conn_payload false) evs.

Lemma conn_run_spec ops c :
  let '(done, got, _, evs) := conn_run ops c in
  payloads_read evs = got /\
  done `sublist_of` payloads_written evs /\
  payloads_written evs `sublist_of` omap op_buf ops.
Proof.
  unfold payloads_read, payloads_written. revert c.
  induction ops as [|[buf env|env] ops IH]; intros c; cbn [conn_run]; [done|..].
  - pose proof (conn_send_law buf env c) as Hs. destruct (conn_send buf env c) as [[r c1] evs].
    specialize (IH c1). destruct (conn_run ops c1) as [[[done got] c2] evs'].
    destruct Hs as (Hr & Hw & Hok), IH as (Hg & Hd & Hb). rewrite !omap_app, Hr, Hg. cbn [omap list_omap op_buf].
    split; [done|split].
    + destruct r as [[[]|e]|].
      * rewrite Hok; [|done]. by apply (sublist_app [buf] [buf]).
      * by apply (sublist_app [] _ done); [apply sublist_nil_l|].
      * by apply (sublist_app [] _ done); [apply sublist_nil_l|].
    + by apply (sublist_app _ [buf]).
  - pose proof (conn_recv_law env c) as Hs. destruct (conn_recv env c) as [[r c1] evs].
    specialize (IH c1). destruct (conn_run ops c1) as [[[done got] c2] evs'].
    destruct Hs as (Hr & Hw), IH as (Hg & Hd & Hb). by rewrite !omap_app, Hr, Hw, Hg.
Qed.
End Ends.

(** C23. Two ends of a transport that delivers what was written in order: whatever sends and
    receives fail or are dropped on either side, the messages [recv] returns are the
    messages that were sent, one for one, in order and without loss; every send that
    returned is among them in turn. *)
Theorem connection_framing {C Frame SE RE C' Frame' SE' RE'}
    `{!IpcConnection C Frame SE RE} `{!IpcConnection C' Frame' SE' RE'}
    (opsA : list (ConnOp SE RE)) (a : C) (opsB : list (ConnOp SE' RE')) (b : C')
    (Hwire : payloads_read (conn_run opsB b).2 `prefix_of` payloads_written (conn_run opsA a).2) :
  exists written,
    (conn_run opsA a).1.1.1 `sublist_of` written /\
    written `sublist_of` omap op_buf opsA /\
    (conn_run opsB b).1.1.2 `prefix_of` written.
Proof.
  pose proof (conn_run_spec opsA a) as HA. pose proof (conn_run_spec opsB b) as HB.
  destruct (conn_run opsA a) as [[[doneA gotA] a'] evsA].
  destruct (conn_run opsB b) as [[[doneB gotB] b'] evsB]; simpl in *.
  destruct HA as (_ & Hd & Hb), HB as (Hg & _ & _). exists (payloads_written evsA).
  by rewrite <- Hg.
Qed.

(** A ping arrives between two messages; the receiver is dropped while it answers. *)
Lemma connection_framing_witness :
  let opsA : list (ConnOp WsSink (list (WsSink * WsStream))) := [OpSend [1%Z] SinkOk; OpSend [2%Z] SinkOk] in
  let opsB : list (ConnOp WsSink (list (WsSink * WsStream))) :=
    [OpRecv [(SinkOk, StreamItem (Ok (WsBinary [1%Z])))];
     OpRecv [(SinkOk, StreamItem (Ok (WsPing [7%Z]))); (SinkDropped false, StreamDropped)];
     OpRecv [(SinkOk, StreamItem (Ok (WsBinary [2%Z])))]] in
  let c := WebSocketConnection_new "peer" in
  (conn_run opsB c).1.1.2 = [[1%Z]; [2%Z]] /\
  exists written,
    (conn_run opsA c).1.1.1 `sublist_of` written /\
    written `sublist_of` omap op_buf opsA /\
    (conn_run opsB c).1.1.2 `prefix_of` written.
Proof.
  split; [reflexivity|].
  apply connection_framing. by exists [].
Defined.

(** ** Pings *)

(** The last frame read, and whether a pong was written since. *)
Definition PingMon : Type := option WebSocketMessage * bool.

Definition mon_step (s : PingMon) (e : WsEvent) : option PingMon :=
  match e with
  | ConnRead f =>
      match s with
      | (Some (WsPing _), false) => None
      | _ => Some (Some f, false)
      end
  | ConnWrote (WsPong p) =>
      match s.1 with
      | Some (WsPing p') => if bool_decide (p = p') then Some (s.1, true) else None
      | _ => None
      end
  | ConnWrote _ => Some s
  end.

Fixpoint mon_run (s : PingMon) (evs : list WsEvent) : option PingMon :=
  match evs with [] => Some s | e :: evs => s ← mon_step s e; mon_run s evs end.

Lemma mon_run_app s evs evs' : mon_run s (evs ++ evs') = s ← mon_run s evs; mon_run s evs'.
Proof.
  revert s. induction evs as [|e evs IH]; intros s; simpl; [done|].
  destruct (mon_step s e); simpl; auto.
Qed.

(** What a connection remembers against what the monitor saw. *)
Definition pong_owed (c : WebSocketConnection) (s : PingMon) : Prop :=
  match ws_pending_pong c with
  | Some p => s.1 = Some (WsPing p)
  | None => match s.1 with Some (WsPing _) => s.2 = true | _ => True end
  end.

Definition good_trace (c : WebSocketConnection) (evs : list WsEvent) (s : PingMon) : Prop :=
  exists s', mon_run s evs = Some s' /\ pong_owed c s'.

Lemma good_trace_app c evs evs' s s' :
  mon_run s evs = Some s' -> good_trace c evs' s' -> good_trace c (evs ++ evs') s.
Proof. intros E (s2 & E2 & Ho). exists s2. by rewrite mon_run_app, E. Qed.

Lemma ws_send_pong_good sink c s :
  pong_owed c s ->
  let '(r, c', evs) := ws_send_pong sink c in
  good_trace c' evs s /\ (r = Returned (Ok tt) -> ws_pending_pong c' = None).
Proof.
  unfold pong_owed, good_trace, ws_send_pong, WebSocketConnection_send. intros Ho.
  destruct (ws_pending_pong c) as [p|] eqn:Hc.
  - destruct s as [l b]; simpl in Ho; subst l.
    destruct sink as [|[] e|[]]; simpl; rewrite ?Hc, ?(bool_decide_true (p = p)) by done;
      (split; [eexists; split; [reflexivity|unfold pong_owed; simpl; by rewrite ?Hc]|done]).
  - simpl. split; [|done]. exists s. unfold pong_owed. by rewrite Hc.
Qed.

Lemma read_good c c' m s :
  pong_owed c s -> ws_pending_pong c = None ->
  (ws_on_message m c).2 = c' -> good_trace c' [ConnRead m] s.
Proof.
  intros Ho Hp <-. unfold good_trace, pong_owed in *. rewrite Hp in Ho.
  assert (E : mon_step s (ConnRead m) = Some (Some m, false)).
  { destruct s as [[[]|] []]; done. }
  exists (Some m, false). cbn [mon_run]. rewrite E. split; [done|].
  destruct m; simpl; rewrite ?Hp; done.
Qed.

Lemma ws_recv_good env c s :
  pong_owed c s -> let '(_, c', evs) := ws_recv env c in good_trace c' evs s.
Proof.
  revert c s. induction env as [|[sink stream] env IH]; intros c s Ho; cbn [ws_recv]; [by exists s|].
  pose proof (ws_send_pong_good sink c s Ho) as Hp.
  destruct (ws_send_pong sink c) as [[[[[]|e]|] c1] evs]; destruct Hp as [Hg Hn]; [|done|done].
  specialize (Hn eq_refl).
  destruct stream as [[m|e]| |]; cbn [WebSocketConnection_recv]; [|by rewrite app_nil_r..].
  destruct Hg as (s1 & E1 & Ho1).
  pose proof (read_good c1 _ m s1 Ho1 Hn eq_refl) as Hg.
  destruct (ws_on_message m c1) as [[r|] c2]; [by apply (good_trace_app _ _ _ _ s1)|].
  destruct Hg as (s2 & E2 & Ho2). specialize (IH c2 s2 Ho2).
  destruct (ws_recv env c2) as [[r c3] evs'].
  apply (good_trace_app _ _ _ _ s1 E1). by apply (good_trace_app _ _ _ _ s2).
Qed.

Lemma ws_run_good ops c s :
  pong_owed c s -> good_trace (conn_run ops c).1.2 (conn_run ops c).2 s.
Proof.
  revert c s. induction ops as [|[buf env|env] ops IH]; intros c s Ho; cbn [conn_run]; [by exists s|..].
  - cbn [conn_send WebSocketConnection_ipc]. unfold ws_send.
    assert (E : mon_run s (WebSocketConnection_send (WsBinary buf) env).2 = Some s).
    { by destruct env as [|[]|[]]. }
    destruct (WebSocketConnection_send _ _) as [r evs]; simpl in E.
    specialize (IH c s Ho). destruct (conn_run ops c) as [[[done got] c2] evs']; simpl in *.
    by apply (good_trace_app _ _ _ _ s).
  - cbn [conn_recv WebSocketConnection_ipc].
    pose proof (ws_recv_good env c s Ho) as Hg. destruct (ws_recv env c) as [[r c1] evs].
    destruct Hg as (s1 & E1 & Ho1). specialize (IH c1 s1 Ho1).
    destruct (conn_run ops c1) as [[[done got] c2] evs']; simpl in *.
    by apply (good_trace_app _ _ _ _ s1).
Qed.

Definition is_read (e : WsEvent) : bool := match e with ConnRead _ => true | _ => false end.

(** A monitor that owes no pong has seen one since the last ping. *)
Lemma mon_answered p t2 s1 s2 :
  mon_run s1 t2 = Some s2 -> s1 = (Some (WsPing p), false) -> Forall (fun e => is_read e = false) t2 ->
  s2.2 = true -> ConnWrote (WsPong p) ∈ t2.
Proof.
  revert s1. induction t2 as [|e t2 IH]; intros s1 E -> Ht H2; simpl in E; [by simplify_eq|].
  apply Forall_cons in Ht as [He Ht]. destruct e as [f|f]; [done|].
  destruct (mon_step _ (ConnWrote f)) as [s|] eqn:Es; simpl in E; [|done].
  destruct f; simpl in Es; try (simplify_eq; apply list_elem_of_further; by eapply IH).
  case_bool_decide; simplify_eq. apply list_elem_of_here.
Qed.

Lemma mon_run_reads f t2 s1 s2 :
  mon_run s1 t2 = Some s2 -> s1.1 = Some f -> Forall (fun e => is_read e = false) t2 -> s2.1 = Some f.
Proof.
  revert s1. induction t2 as [|e t2 IH]; intros s1 E H1 Ht; simpl in E; [by simplify_eq|].
  apply Forall_cons in Ht as [He Ht]. destruct e as [g|g]; [done|].
  destruct (mon_step _ (ConnWrote g)) as [s|] eqn:Es; simpl in E; [|done].
  apply (IH s E); [|done]. destruct g; simpl in Es; try (by simplify_eq).
  destruct s1 as [[[]|] b]; simplify_eq/=; case_bool_decide; by simplify_eq/=.
Qed.

Definition last_read (t : list WsEvent) : option WebSocketMessage :=
  last (omap (fun e => match e with ConnRead f => Some f | _ => None end) t).

Lemma mon_last_read t s : mon_run (None, false) t = Some s -> s.1 = last_read t.
Proof.
  revert s. induction t as [|e t IH] using rev_ind; intros s E; simpl in E; [by simplify_eq|].
  rewrite mon_run_app in E. unfold last_read in *. rewrite omap_app.
  destruct (mon_run (None, false) t) as [s0|]; simpl in E; [|done].
  specialize (IH s0 eq_refl).
  destruct (mon_step s0 e) as [s1|] eqn:Es; simplify_eq/=.
  destruct e as [f|f]; simpl.
  - rewrite last_snoc. destruct s0 as [[[]|] []]; by simplify_eq/=.
  - rewrite app_nil_r, <- IH. destruct f; simplify_eq/=; try done.
    destruct s0 as [[[]|] b]; simplify_eq/=; case_bool_decide; by simplify_eq/=.
Qed.

(** C24. However sends and receives of a WebSocket connection are interleaved, fail or are
    dropped, a ping is answered with its own payload before the next frame is read, and a
    pong that is written answers the frame that was read last. *)
Theorem pings_answered peer (ops : list (ConnOp WsSink (list (WsSink * WsStream)))) t1 t2 p :
  let trace := (conn_run ops (WebSocketConnection_new peer)).2 in
  (forall f t3, trace = t1 ++ ConnRead (WsPing p) :: t2 ++ ConnRead f :: t3 ->
     Forall (fun e => is_read e = false) t2 -> ConnWrote (WsPong p) ∈ t2) /\
  (trace = t1 ++ ConnWrote (WsPong p) :: t2 -> last_read t1 = Some (WsPing p)).
Proof.
  intros trace. destruct (ws_run_good ops (WebSocketConnection_new peer) (None, false)) as (s & E & _);
    [done|]. fold trace in E. split.
  - intros f t3 Et Ht. rewrite Et, mon_run_app in E. apply bind_Some in E as (s1 & E1 & E).
    cbn [mon_run] in E. apply bind_Some in E as (s2 & E2 & E). rewrite mon_run_app in E.
    apply bind_Some in E as (s3 & E3 & E). cbn [mon_run] in E. apply bind_Some in E as (s4 & E4 & _).
    assert (s2 = (Some (WsPing p), false)) as Hs2 by (destruct s1 as [[[]|] []]; by simplify_eq/=).
    eapply (mon_answered p t2 s2 s3 E3 Hs2 Ht).
    assert (Hl : s3.1 = Some (WsPing p)) by (apply (mon_run_reads _ _ _ _ E3); [by subst|done]).
    destruct s3 as [l []]; simplify_eq/=; done.
  - intros Et. rewrite Et, mon_run_app in E. apply bind_Some in E as (s1 & E1 & E).
    cbn [mon_run] in E. apply bind_Some in E as (s2 & E2 & _).
    rewrite <- (mon_last_read _ _ E1). destruct s1 as [[[]|] b]; simplify_eq/=; case_bool_decide; by simplify_eq.
Qed.

(** The first answer is dropped, the next call of [recv] retries it. *)
Lemma pings_answered_witness :
  let ops : list (ConnOp WsSink (list (WsSink * WsStream))) :=
    [OpRecv [(SinkOk, StreamItem (Ok (WsPing [7%Z]))); (SinkDropped false, StreamDropped)];
     OpRecv [(SinkOk, StreamItem (Ok (WsBinary [2%Z])))]] in
  ConnWrote (WsPong [7%Z]) ∈ [ConnWrote (WsPong [7%Z])].
Proof.
  intros ops.
  refine ((proj1 (pings_answered "peer" ops [] [ConnWrote (WsPong [7%Z])] [7%Z]))
           (WsBinary [2%Z]) [] eq_refl _).
  by repeat constructor.
Defined.

(** ** What the receiver gets *)

Definition ws_control (m : WebSocketMessage) : bool :=
  match m with WsPing _ | WsPong _ => true | _ => false end.

(** With a working sink, [recv] returns the next message behind any number of pings and
    pongs: the loop ends. *)
Lemma ws_recv_returns control payload c env :
  Forall (fun m => ws_control m = true) control ->
  (ws_recv (((fun m => (SinkOk, StreamItem (Ok m))) <$> control ++ [WsBinary payload]) ++ env) c).1.1 =
  Returned (Ok payload).
Proof.
  intros Hc. revert c. induction Hc as [|m control Hm Hc IH]; intros c; cbn [fmap list_fmap app ws_recv].
  - unfold ws_send_pong. by destruct (ws_pending_pong c).
  - destruct (ws_send_pong SinkOk c) as [[[[[]|e]|] c1] evs] eqn:E;
      [|unfold ws_send_pong in E; destruct (ws_pending_pong c); simplify_eq/=..].
    simpl. destruct m; try done; simpl.
    + specialize (IH (with_pending_pong (Some payload0) c1)). by destruct (ws_recv _ _) as [[]].
    + specialize (IH c1). by destruct (ws_recv _ _) as [[]].
Qed.

(** The names of accepted pipe connections are distinct until the counter wraps. *)
Fixpoint accept_names (l : PipeListener) (n : nat) : list string :=
  match n with
  | 0 => []
  | S n =>
      match PipeListener_accept (Ok tt) l with
      | (Ok c, l) => pc_name c :: accept_names l n
      | (Err _, l) => accept_names l n
      end
  end.

Lemma accept_names_fresh nm id n x :
  (0 <= id)%Z -> (id + Z.of_nat n <= 2 ^ 64)%Z ->
  x ∈ accept_names (mkPipeListener nm id) n ->
  exists id', (id <= id' < id + Z.of_nat n)%Z /\ x = nm +:+ "#" +:+ u64_display id'.
Proof.
  revert id. induction n as [|n IH]; intros id H0 Hn Hx; cbn in Hx; [set_solver|].
  apply elem_of_cons in Hx as [->|Hx]; [exists id; split; [lia|done]|].
  destruct n as [|n]; [cbn in Hx; set_solver|].
  rewrite (wrap_u_id 64 (id + 1)) in Hx by (unfold in_u; lia).
  apply IH in Hx as (id' & Hid & ->); [|lia..]. exists id'. split; [lia|done].
Qed.

Lemma accept_names_NoDup name ns_name socket l n :
  PipeListener_new name ns_name socket = Ok l ->
  (Z.of_nat n <= 2 ^ 64)%Z -> NoDup (accept_names l n).
Proof.
  intros Hl Hn. destruct ns_name, socket; simplify_eq/=.
  enough (H : forall id, (0 <= id)%Z -> (id + Z.of_nat n <= 2 ^ 64)%Z ->
                NoDup (accept_names (mkPipeListener name id) n)) by (apply H; lia).
  clear Hn. induction n as [|n IH]; intros id H0 H1; cbn; [constructor|].
  destruct n as [|n]; [repeat constructor; by apply not_elem_of_nil|].
  rewrite (wrap_u_id 64 (id + 1)) by (unfold in_u; lia). constructor.
  - intros Hx. apply accept_names_fresh in Hx as (id' & Hid & E); [|lia..].
    do 2 apply string_app_inj in E. apply (inj u64_display) in E. lia.
  - apply IH; lia.
Qed.
