(* ===== verification/LinkNet.v ===== *)
(** * Two sessions over a connection

    The sessions of SessionNet.v, each with its end of a connection of IpcMethod.v (any
    implementation of [IpcConnection]) in place of the lists of frames: a handler sends with
    [conn_send] and sees its answer, the loop receives with [conn_recv], whose future may
    fail or be dropped, and the transport has frames of its own. The system refines that of
    SessionNet.v, so what is shown of it holds of sessions over WebSockets and pipes. *)

From S2P Require Import Prelude Tokio ActorTypes UserCode WireLibs Codec Registry IpcMessages.
From S2P Require Import Session ErrorReport SessionNet SessionTheorems IpcMethod IpcMethodTheorems.

(** One end: its session, its connection, whether its loop still runs (it stops when [recv]
    fails), and the frames it wrote that were not read yet. *)
Record End (C Frame : Type) : Type := mkEnd {
  e_peer : Peer;
  e_conn : C;
  e_open : bool;
  e_wire : list Frame;
}.
Arguments mkEnd {C Frame} _ _ _ _.
Arguments e_peer {C Frame} _.
Arguments e_conn {C Frame} _.
Arguments e_open {C Frame} _.
Arguments e_wire {C Frame} _.

Definition with_wire {C Frame} (e : End C Frame) (wire : list Frame) : End C Frame :=
  mkEnd (e_peer e) (e_conn e) (e_open e) wire.

Record Link (C Frame : Type) : Type := mkLink { l_a : End C Frame; l_b : End C Frame }.
Arguments mkLink {C Frame} _ _.
Arguments l_a {C Frame} _.
Arguments l_b {C Frame} _.

Definition frames_read {F} (evs : list (ConnEvent F)) : list F :=
  omap (fun e => match e with ConnRead f => Some f | ConnWrote _ => None end) evs.

Definition frames_written {F} (evs : list (ConnEvent F)) : list F :=
  omap (fun e => match e with ConnWrote f => Some f | ConnRead _ => None end) evs.

Section Link.
Context {B : Type} `{BytesCrate B} `{!ProstMessage B IpcMessage} `{!ProstMessage B ResultAddress}.
Context {C Frame SE RE : Type} `{IC : !IpcConnection C Frame SE RE}.
(** [io_text] is the report of an I/O error. *)
Context (io_text : IoError -> string).
Implicit Types (env : PeerEnv) (c : C) (evs : list (ConnEvent Frame)) (e : End C Frame).

(** A handler sends at most one frame, and is not dropped while it does. *)
Inductive conn_sends : list (list Z) -> result unit string -> C -> C -> list (ConnEvent Frame) -> Prop :=
| sends_none io c : conn_sends [] io c c []
| sends_one buf senv r c c' evs :
    conn_send buf senv c = (Returned r, c', evs) ->
    conn_sends [buf] (result_map_err io_text r) c c' evs.

(** A step of an end, with the frames on their way to it before and after: the session acts
    by itself, a frame is received and handled, [recv] returns no frame, or the transport
    writes a frame of its own. *)
Inductive end_step env : End C Frame -> list Frame -> End C Frame -> list Frame -> Prop :=
| es_act p attempts io p' c c' evs wire inc :
    peer_act env p None attempts io p' ->
    conn_sends attempts io c c' evs ->
    end_step env (mkEnd p c true wire) (frames_read evs ++ inc)
      (mkEnd p' c' true (wire ++ frames_written evs)) inc
| es_frame p renv f attempts io p' c c1 evs1 c2 evs2 wire inc :
    conn_recv renv c = (Returned (Ok f), c1, evs1) ->
    peer_act env p (Some f) attempts io p' ->
    conn_sends attempts io c1 c2 evs2 ->
    end_step env (mkEnd p c true wire) (frames_read (evs1 ++ evs2) ++ inc)
      (mkEnd p' c2 true (wire ++ frames_written (evs1 ++ evs2))) inc
| es_no_frame p renv r c c' evs wire inc :
    conn_recv renv c = (r, c', evs) ->
    returned_payload r = None ->
    end_step env (mkEnd p c true wire) (frames_read evs ++ inc)
      (mkEnd p c' (match r with Dropped => true | Returned _ => false end)
         (wire ++ frames_written evs)) inc
| es_control f p c open wire inc :
    conn_payload f = None ->
    end_step env (mkEnd p c open wire) inc (mkEnd p c open (wire ++ [f])) inc.

Inductive link_step (env_a env_b : PeerEnv) : Link C Frame -> Link C Frame -> Prop :=
| ls_a a b a' inc :
    end_step env_a a (e_wire b) a' inc -> link_step env_a env_b (mkLink a b) (mkLink a' (with_wire b inc))
| ls_b a b b' inc :
    end_step env_b b (e_wire a) b' inc -> link_step env_a env_b (mkLink a b) (mkLink (with_wire a inc) b').

Definition link_start (client server : Z) (conn_a conn_b : C) : Link C Frame :=
  mkLink (mkEnd (peer_start client) conn_a true []) (mkEnd (peer_start server) conn_b true []).

(** ** The refinement *)

(** The peer an end stands for: the messages in the frames it wrote are on their way. *)
Definition end_peer e : Peer := with_out (e_peer e) (omap conn_payload (e_wire e)).

Definition link_net (l : Link C Frame) : Net := mkNet (end_peer (l_a l)) (end_peer (l_b l)).

#[local] Set Default Proof Using "Type*".

Lemma payloads_of_read evs : omap conn_payload (frames_read evs) = omap (event_payload conn_payload true) evs.
Proof.
  induction evs as [|[f|f] evs IH]; [done| |exact IH].
  simpl. destruct (conn_payload f); [f_equal|]; exact IH.
Qed.

Lemma payloads_of_written evs :
  omap conn_payload (frames_written evs) = omap (event_payload conn_payload false) evs.
Proof.
  induction evs as [|[f|f] evs IH]; [done|exact IH|].
  simpl. destruct (conn_payload f); [f_equal|]; exact IH.
Qed.

Lemma conn_sends_law attempts io c c' evs :
  conn_sends attempts io c c' evs ->
  omap conn_payload (frames_read evs) = [] /\
  on_wire attempts io (omap conn_payload (frames_written evs)).
Proof.
  intros [io' c0|buf senv r c0 c1 evs0 Hs]; [split; [done|by destruct io'; [|left]]|].
  rewrite payloads_of_read, payloads_of_written.
  pose proof (conn_send_law buf senv c0) as Hl. rewrite Hs in Hl. destruct Hl as (Hr & Hw & Hok).
  split; [done|]. destruct r as [[]|e]; simpl; [by apply Hok|].
  inversion Hw as [|x l1 l2 Hl|x l1 l2 Hl]; apply sublist_nil_r in Hl as ->; [by right|by left].
Qed.

Lemma conn_recv_frames renv c r c' evs :
  conn_recv renv c = (r, c', evs) ->
  omap conn_payload (frames_read evs) = option_list (returned_payload r) /\
  omap conn_payload (frames_written evs) = [].
Proof.
  intros Hr. rewrite payloads_of_read, payloads_of_written.
  pose proof (conn_recv_law renv c) as Hl. by rewrite Hr in Hl.
Qed.

Lemma peer_act_with_out env p inp attempts io p' out :
  peer_act (B := B) env p inp attempts io p' ->
  peer_act (B := B) env (with_out p out) inp attempts io (with_out p' out).
Proof. intros []; by econstructor. Qed.

Lemma end_step_refines env e inc e' inc' :
  end_step env e inc e' inc' ->
  peer_step (B := B) env (end_peer e) (omap conn_payload inc)
    (end_peer e') (omap conn_payload inc') \/
  (end_peer e' = end_peer e /\ omap conn_payload inc' = omap conn_payload inc).
Proof.
  assert (Hact : forall p inp attempts io wire p' out inc,
    peer_act (B := B) env p inp attempts io p' -> on_wire attempts io wire ->
    peer_step (B := B) env (with_out p out) (option_list inp ++ inc)
      (with_out p' (out ++ wire)) inc).
  { intros p inp attempts io wire p' out inc0 Ha Hw.
    exact (ps_act _ (with_out p out) inp attempts io wire (with_out p' out) inc0
             (peer_act_with_out _ _ _ _ _ _ out Ha) Hw). }
  intros [p attempts io p' c c' evs wire inc0 Ha [Hr Hw]%conn_sends_law
         |p renv f attempts io p' c c1 evs1 c2 evs2 wire inc0 [Hr1 Hw1]%conn_recv_frames Ha [Hr Hw]%conn_sends_law
         |p renv r c c' evs wire inc0 [Hr Hw]%conn_recv_frames Hn
         |f p c open wire inc0 Hf]; unfold end_peer; simpl.
  - left. rewrite !omap_app, Hr. by apply (Hact p None attempts io).
  - left. unfold frames_read, frames_written in *.
    rewrite !omap_app, Hr, Hr1, Hw1. by apply (Hact p (Some f) attempts io).
  - rewrite !omap_app, Hr, Hw, Hn, app_nil_r. by right.
  - rewrite omap_app. simpl. rewrite Hf, app_nil_r. by right.
Qed.

Lemma end_peer_with_wire e wire :
  omap conn_payload wire = omap conn_payload (e_wire e) -> end_peer (with_wire e wire) = end_peer e.
Proof. unfold end_peer. simpl. by intros ->. Qed.

(** C11. Sessions over connections behave as sessions over a lossless link: for any
    connections that keep the promises of [IpcConnection], whatever sends and receives fail
    or are dropped and whatever frames the transports add, a run of two sessions over them
    is a run of the two sessions of SessionNet.v, with the same requests, tasks and answers;
    the frames on their way are the messages written and not yet received. *)
Theorem sessions_over_connections env_a env_b client server conn_a conn_b l
    (Hrun : rtc (link_step env_a env_b) (link_start client server conn_a conn_b) l) :
  rtc (net_step (B := B) env_a env_b) (net_start client server) (link_net l).
Proof.
  assert (H1 : forall l l', link_step env_a env_b l l' ->
    rtc (net_step (B := B) env_a env_b) (link_net l) (link_net l')).
  { intros l1 l2 [a b a' inc Hs|a b b' inc Hs]; unfold link_net; simpl;
      apply end_step_refines in Hs as [Hs|[Hp Hi]].
    - by apply rtc_once, (ns_a _ _ (end_peer a) (end_peer b)).
    - by rewrite Hp, (end_peer_with_wire b).
    - by apply rtc_once, (ns_b _ _ (end_peer a) (end_peer b)).
    - by rewrite Hp, (end_peer_with_wire a). }
  change (net_start client server) with (link_net (link_start client server conn_a conn_b)).
  induction Hrun as [|l1 l2 l3 Hs _ IH]; [done|]. etrans; eauto.
Qed.
End Link.

(** ** A run over WebSockets, as witness *)

Abbreviation w_link_step :=
  (link_step (B := slice) (C := WebSocketConnection) io_text w_idle (w_env w_responds)).

Definition w_link_start : Link WebSocketConnection WebSocketMessage :=
  link_start 3 4 (WebSocketConnection_new "a") (WebSocketConnection_new "b").

(** The client's transport pings before its request is sent; the server's [recv] takes the
    ping, is dropped while it answers, and the next [recv] answers and returns the request,
    for which a task is spawned. *)
Lemma w_link_run : exists l, rtc w_link_step w_link_start l /\
  ws_pending_pong (e_conn (l_b l)) = None /\ p_tasks (e_peer (l_b l)) = [w_task [1; 2]%Z] /\
  e_wire (l_b l) = [WsPong [7%Z]].
Proof.
  eexists. split.
  - eapply rtc_l. { by apply ls_a, (es_control _ _ (WsPing [7%Z])). }
    eapply rtc_l.
    { eapply ls_a, (es_act _ _ _ _ _ _ _ _ [ConnWrote (WsBinary (ipc_encode (req_frame w_req 0)))]
                      _ []).
      - apply (pa_ask _ w_req 100 0 (fun _ => false) (Ok tt));
          [set_solver|done| |reflexivity].
        by apply (bool_decide_unpack (in_range u64 5 /\ in_range u64 9 /\ in_range u64 0)).
      - by apply (sends_one _ _ SinkOk (Ok tt)). }
    eapply rtc_l.
    { eapply ls_b, (es_no_frame _ _ _ [(SinkOk, StreamItem (Ok (WsPing [7%Z]))); (SinkDropped false, StreamDropped)]
                      Dropped _ _ [ConnRead (WsPing [7%Z])]); reflexivity. }
    eapply rtc_l; [|apply rtc_refl].
    eapply ls_b, (es_frame _ _ _ [(SinkOk, StreamItem (Ok (WsBinary (ipc_encode (req_frame w_req 0)))))]
                    _ _ (Ok tt) _ _ _ [ConnWrote (WsPong [7%Z]); ConnRead (WsBinary (ipc_encode (req_frame w_req 0)))]
                    _ []).
    + reflexivity.
    + eapply (pa_frame _ _ (fun _ => false) (fun _ => false) (fun _ => Err ResponseTimeout)
                0 (Ok tt) (Ok tt) w_registry); [done|done|vm_compute; reflexivity| |vm_compute; reflexivity].
      intros m Hm. apply list_elem_of_singleton in Hm. discriminate.
    + apply sends_none.
  - done.
Qed.

Lemma sessions_over_connections_witness : exists l, rtc w_link_step w_link_start l /\
  rtc (net_step (B := slice) w_idle (w_env w_responds)) (net_start 3 4) (link_net l).
Proof.
  destruct w_link_run as (l & Hrun & _). exists l. split; [exact Hrun|].
  exact (sessions_over_connections _ _ _ 3 4 _ _ l Hrun).
Defined.
