(* ===== verification/Adaptor.v ===== *)
(** * The adaptor for WebAssembly

    Models acktor-ipc-proto/src/adaptor.rs: [ActorAdaptor], which stands in for a session
    where there is no async runtime. The function that sends a frame is an argument of each
    call; what it is called with, and what is put into a response channel, is returned as a
    list of events. *)

From S2P Require Import Prelude WireLibs IpcMessages.

Record ParsedActorMessage : Type := mkParsedActorMessage {
  pam_actor_id : Z;
  pam_message_id : Z;
  pam_message : list Z;
}.

(** A sender is the name of its channel, with the time it was registered. *)
Record ActorAdaptor : Type := mkActorAdaptor {
  ad_tag : Z;
  ad_result_senders : gmap Z (nat * Z);
}.

(** [send_func] is called with a frame; a response is put into a channel ([tag] is the one it
    was found under). *)
Inductive AdEvent : Type :=
| AdFrame (bytes : list Z)
| AdResult (tag : Z) (tx : nat) (bytes : list Z).

Section Adaptor.
Context {B : Type} `{BytesCrate B} `{!ProstMessage B IpcMessage}.
(** Whether arithmetic overflow panics (a debug build) or wraps around. *)
Context (overflow_checks : bool).
Context {E : Type}.
Implicit Types (a : ActorAdaptor) (answer : result unit E).

Definition ActorAdaptor_new : ActorAdaptor := mkActorAdaptor 0 ∅.

Definition ActorAdaptor_next_tag a : outcome (Z * ActorAdaptor) :=
  let tag := ad_tag a in
  if overflow_checks && bool_decide (¬ in_u 64 (tag + 1)) then Panicked "attempt to add with overflow"
  else Done (tag, mkActorAdaptor (wrap_u 64 (tag + 1)) (ad_result_senders a)).

(** [now - *timestamp < timeout]. *)
Definition sender_kept (now timeout : Z) (p : nat * Z) : bool := (wrap_s 64 (now - p.2) <? timeout)%Z.

Definition ActorAdaptor_cleanup (now timeout : Z) a : outcome ActorAdaptor :=
  if overflow_checks &&
     bool_decide (Exists (fun p => ¬ in_s 64 (now - p.2.2)) (map_to_list (ad_result_senders a)))
  then Panicked "attempt to subtract with overflow"
  else Done (mkActorAdaptor (ad_tag a)
               (filter (fun p => sender_kept now timeout p.2 = true) (ad_result_senders a))).

Definition ActorAdaptor_do_send (actor_id message_id : Z) (message : list Z) answer
    : result unit E * list AdEvent :=
  (answer, [AdFrame (pm_encode (IpcMessage_actor_message
                                  (ActorMessage_do_send actor_id message_id message)))]).

Definition ActorAdaptor_send (actor_id message_id : Z) (message : list Z) (result_tx : nat)
    (timestamp : Z) answer a : outcome (result unit E * ActorAdaptor * list AdEvent) :=
  let! (tag, a) := ActorAdaptor_next_tag a in
  let a := mkActorAdaptor (ad_tag a) (<[tag := (result_tx, timestamp)]> (ad_result_senders a)) in
  Done (answer, a,
        [AdFrame (pm_encode (IpcMessage_actor_message
                               (ActorMessage_send actor_id message_id message tag)))]).

Definition ActorAdaptor_parse (msg : B) a
    : result (option ParsedActorMessage) string * ActorAdaptor * list AdEvent :=
  match pm_decode msg with
  | Err e => (Err e, a, [])
  | Ok ipc_msg =>
      match im_message ipc_msg with
      | Some (IpcActorMessage (mkActorMessage actor_id message_id message None)) =>
          (Ok (Some (mkParsedActorMessage actor_id message_id message)), a, [])
      | Some (IpcMessageResponse (mkProtoMessageResponse tag (Some response))) =>
          match response with
          | Ok ok =>
              match ad_result_senders a !! tag with
              | Some (rx, _) =>
                  (Ok None, mkActorAdaptor (ad_tag a) (delete tag (ad_result_senders a)),
                   [AdResult tag rx ok])
              | None => (Ok None, a, [])
              end
          | Err err => (Err err, a, [])
          end
      | _ => (Err "unsupported ipc message", a, [])
      end
  end.

(** ** Uses of an adaptor *)

Inductive AdOp : Type :=
| AdDoSend (actor_id message_id : Z) (message : list Z) (answer : result unit E)
| AdSend (actor_id message_id : Z) (message : list Z) (result_tx : nat) (timestamp : Z)
    (answer : result unit E)
| AdCleanup (now timeout : Z)
| AdParse (msg : B).

Definition ad_step (op : AdOp) a : outcome (ActorAdaptor * list AdEvent) :=
  match op with
  | AdDoSend actor_id message_id message answer =>
      Done (a, (ActorAdaptor_do_send actor_id message_id message answer).2)
  | AdSend actor_id message_id message tx timestamp answer =>
      let! (_, a, evs) := ActorAdaptor_send actor_id message_id message tx timestamp answer a in
      Done (a, evs)
  | AdCleanup now timeout => let! a := ActorAdaptor_cleanup now timeout a in Done (a, [])
  | AdParse msg => let '(_, a, evs) := ActorAdaptor_parse msg a in Done (a, evs)
  end.

Fixpoint ad_run (ops : list AdOp) a : outcome (ActorAdaptor * list AdEvent) :=
  match ops with
  | [] => Done (a, [])
  | op :: ops =>
      let! (a, evs) := ad_step op a in
      let! (a, evs') := ad_run ops a in Done (a, evs ++ evs')
  end.

Definition ad_sent (op : AdOp) : option (Z * Z * list Z * nat) :=
  match op with
  | AdSend actor_id message_id message tx _ _ => Some (actor_id, message_id, message, tx)
  | _ => None
  end.

Definition ad_result_tag (e : AdEvent) : option Z :=
  match e with AdResult tag _ _ => Some tag | AdFrame _ => None end.

End Adaptor.
