(* ===== verification/AdaptorTheorems.v ===== *)
(** * Correlation of responses in the adaptor

    Any use of an [ActorAdaptor]: every response that is put into a channel answers the
    request made with that channel. The wire format of the witness is the one of the
    sessions. *)

From S2P Require Import Prelude WireLibs IpcMessages SessionTheorems Adaptor.

Section AdaptorTheorems.
Context {B : Type} `{BytesCrate B} `{!ProstMessage B IpcMessage} (overflow_checks : bool) {E : Type}.
Implicit Types (a : ActorAdaptor) (ops : list (AdOp (B := B) (E := E))) (evs : list AdEvent).

Abbreviation ad_step := (ad_step (B := B) (E := E) overflow_checks).
Abbreviation ad_run := (ad_run (B := B) (E := E) overflow_checks).

(** The [n]-th send was made with these arguments, under the tag [n]. *)
Definition sent_under ops evs (tag : Z) (tx : nat) : Prop :=
  exists actor_id message_id message,
    omap ad_sent ops !! Z.to_nat tag = Some (actor_id, message_id, message, tx) /\
    AdFrame (pm_encode (IpcMessage_actor_message
                          (ActorMessage_send actor_id message_id message tag))) ∈ evs.

Definition answered_by ops (tag : Z) (bytes : list Z) : Prop :=
  exists raw, AdParse raw ∈ ops /\
    pm_decode raw = Ok (IpcMessage_message_response (ProtoMessageResponse_new tag (Ok bytes))).

(** What a run has established: tags count the sends, the senders kept are those of sends,
    and the results delivered answer sends that are no longer kept. *)
Record ad_inv ops a evs : Prop := mkAdInv {
  inv_tag : ad_tag a = Z.of_nat (length (omap ad_sent ops));
  inv_kept tag tx ts : ad_result_senders a !! tag = Some (tx, ts) ->
    (0 <= tag)%Z /\ sent_under ops evs tag tx;
  inv_results tag tx bytes : AdResult tag tx bytes ∈ evs ->
    ad_result_senders a !! tag = None /\ (0 <= tag < ad_tag a)%Z /\
    sent_under ops evs tag tx /\ answered_by ops tag bytes;
  inv_once : NoDup (omap ad_result_tag evs);
}.

Lemma sent_under_mono ops evs op evs' tag tx :
  sent_under ops evs tag tx -> sent_under (ops ++ [op]) (evs ++ evs') tag tx.
Proof.
  intros (x & y & z & Hl & He). exists x, y, z. split; [|set_solver].
  rewrite omap_app. by apply lookup_app_l_Some.
Qed.

Lemma answered_by_mono ops op tag bytes : answered_by ops tag bytes -> answered_by (ops ++ [op]) tag bytes.
Proof. intros (raw & Hr & Hd). exists raw. set_solver. Qed.

#[local] Hint Resolve sent_under_mono answered_by_mono : core.

(** A step that neither sends a request nor delivers a result. *)
Lemma ad_inv_quiet ops a evs op a' evs' :
  ad_inv ops a evs -> ad_sent op = None -> omap ad_result_tag evs' = [] ->
  ad_tag a' = ad_tag a -> ad_result_senders a' ⊆ ad_result_senders a ->
  ad_inv (ops ++ [op]) a' (evs ++ evs').
Proof.
  intros [Ht Hk Hr Hn] Hs He Et Hsub.
  assert (Hq : forall tag tx bytes, AdResult tag tx bytes ∈ evs' -> False).
  { intros tag tx bytes Hin. assert (Hc : tag ∈ omap ad_result_tag evs').
    { apply list_elem_of_omap. by eexists. } rewrite He in Hc. set_solver. }
  constructor.
  - rewrite omap_app, length_app, Et, Ht. simpl. rewrite Hs. simpl. lia.
  - intros tag tx ts Hl. eapply lookup_weaken, Hk in Hl as [? ?]; eauto.
  - intros tag tx bytes [Hin|Hin]%elem_of_app; [|by apply Hq in Hin].
    apply Hr in Hin as (Hnone & Hlt & ? & ?). rewrite Et.
    split; [by eapply lookup_weaken_None|eauto].
  - by rewrite omap_app, He, app_nil_r.
Qed.

#[local] Ltac quiet_step :=
  eapply ad_inv_quiet;
    [eassumption|reflexivity|reflexivity|reflexivity|first [reflexivity|apply map_filter_subseteq]].

Lemma ad_inv_send ops a evs op a' evs' actor_id message_id message tx ts answer :
  op = AdSend actor_id message_id message tx ts answer ->
  (Z.of_nat (length (omap ad_sent (ops ++ [op]))) < 2 ^ 64)%Z ->
  ad_inv ops a evs -> ad_step op a = Done (a', evs') -> ad_inv (ops ++ [op]) a' (evs ++ evs').
Proof.
  intros -> Hfew [Ht Hk Hr Hn] Hstep. cbn [ad_step] in Hstep.
  unfold ActorAdaptor_send, ActorAdaptor_next_tag in Hstep.
  rewrite omap_app, length_app in Hfew. simpl in Hfew.
  rewrite wrap_u_id in Hstep by (unfold in_u; lia).
  destruct (overflow_checks && _); simplify_eq/=.
  assert (Hnew : sent_under (ops ++ [AdSend actor_id message_id message tx ts answer])
     (evs ++ [AdFrame (pm_encode (IpcMessage_actor_message
        (ActorMessage_send actor_id message_id message (ad_tag a))))]) (ad_tag a) tx).
  { exists actor_id, message_id, message. split; [|set_solver].
    rewrite omap_app, Ht, Nat2Z.id. by apply list_lookup_middle. }
  constructor; simpl.
  - rewrite omap_app, length_app. simpl. lia.
  - intros tag tx' ts' [[<- ?]|[Hne Hl]]%lookup_insert_Some; simplify_eq.
    + split; [lia|done].
    + apply Hk in Hl as [? ?]. eauto.
  - intros tag tx' bytes [Hin|Hin]%elem_of_app; [|set_solver].
    apply Hr in Hin as (Hnone & Hlt & ? & ?). repeat split; [|lia..|eauto|eauto].
    rewrite lookup_insert_ne by lia. done.
  - rewrite omap_app. simpl. by rewrite app_nil_r.
Qed.

Lemma ad_inv_parse ops a evs msg a' evs' :
  ad_inv ops a evs -> ad_step (AdParse msg) a = Done (a', evs') ->
  ad_inv (ops ++ [AdParse msg]) a' (evs ++ evs').
Proof.
  intros Hinv Hstep. pose proof Hinv as [Ht Hk Hr Hn]. cbn [ad_step] in Hstep.
  unfold ActorAdaptor_parse in Hstep.
  destruct (pm_decode msg) as [[m]|e] eqn:Hd; [simpl in Hstep|simplify_eq; quiet_step].
  destruct m as [[[? ? ? []]|[]|[tag [[ok|err]|]]]|]; simplify_eq/=; try quiet_step.
  destruct (ad_result_senders a !! tag) as [[tx ts]|] eqn:Hl; simplify_eq; [|quiet_step].
  destruct (Hk _ _ _ Hl) as [H0 Hs].
  assert (Hlt : (tag < ad_tag a)%Z).
  { destruct Hs as (x & y & z & Hx & _). apply lookup_lt_Some in Hx. lia. }
  constructor; simpl.
  - rewrite omap_app, length_app. simpl. lia.
  - intros tag' tx' ts' [Hne Hl']%lookup_delete_Some. apply Hk in Hl' as [? ?]. eauto.
  - intros tag' tx' bytes [Hin|Hin]%elem_of_app.
    + pose proof Hin as Hin'. apply Hr in Hin as (Hnone & Hlt' & ? & ?).
      repeat split; [|lia..|eauto|eauto]. apply lookup_delete_None. by right.
    + apply list_elem_of_singleton in Hin. simplify_eq.
      repeat split; [by rewrite lookup_delete_eq|lia..|eauto|].
      exists msg. split; [set_solver|]. rewrite Hd. done.
  - rewrite omap_app. simpl. apply NoDup_app. split; [done|]. split; [|apply NoDup_singleton].
    intros tag' Hin [= ->]%list_elem_of_singleton.
    apply list_elem_of_omap in Hin as (e & He & Htag). destruct e; simplify_eq/=.
    apply Hr in He as (Hnone & _). congruence.
Qed.

Lemma ad_step_inv ops a evs op a' evs' :
  (Z.of_nat (length (omap ad_sent (ops ++ [op]))) < 2 ^ 64)%Z ->
  ad_inv ops a evs -> ad_step op a = Done (a', evs') -> ad_inv (ops ++ [op]) a' (evs ++ evs').
Proof.
  intros Hfew Hinv Hstep. destruct op.
  - simplify_eq/=. quiet_step.
  - by eapply ad_inv_send.
  - simpl in Hstep. unfold ActorAdaptor_cleanup in Hstep. destruct (overflow_checks && _); simplify_eq/=.
    quiet_step.
  - by apply ad_inv_parse with a.
Qed.

Lemma ad_run_inv ops0 ops a evs a' evs' :
  (Z.of_nat (length (omap ad_sent (ops0 ++ ops))) < 2 ^ 64)%Z ->
  ad_inv ops0 a evs -> ad_run ops a = Done (a', evs') -> ad_inv (ops0 ++ ops) a' (evs ++ evs').
Proof.
  revert ops0 a evs a' evs'. induction ops as [|op ops IH]; intros ops0 a evs a' evs' Hfew Hinv Hrun;
    cbn [ad_run] in Hrun; [simplify_eq; by rewrite !app_nil_r|].
  destruct (ad_step op a) as [[a1 evs1]|] eqn:Hstep; simpl in Hrun; [|done].
  destruct (ad_run ops a1) as [[a2 evs2]|] eqn:Hrest; simplify_eq/=.
  rewrite (cons_middle op), app_assoc in Hfew |- *. rewrite app_assoc.
  eapply IH; [done| |done]. eapply ad_step_inv; [|done|done].
  rewrite omap_app, length_app in Hfew. lia.
Qed.

(** For any use of an adaptor with fewer than 2^64 requests: a response that is put into
    a channel came in a frame that answers the request made with that channel, under the tag
    only that request has, and a request gets at most one. *)
Lemma adaptor_correlation ops a evs
    (Hfew : (Z.of_nat (length (omap ad_sent ops)) < 2 ^ 64)%Z)
    (Hrun : ad_run ops ActorAdaptor_new = Done (a, evs)) :
  NoDup (omap ad_result_tag evs) /\
  forall tag tx bytes, AdResult tag tx bytes ∈ evs ->
    sent_under ops evs tag tx /\ answered_by ops tag bytes.
Proof.
  assert (Hinv : ad_inv [] ActorAdaptor_new []).
  { constructor; simpl; [done|set_solver|set_solver|constructor]. }
  destruct (ad_run_inv [] ops _ [] a evs Hfew Hinv Hrun) as [_ _ Hr Hn].
  split; [done|]. intros tag tx bytes Hin. by apply Hr in Hin as (_ & _ & ? & ?).
Qed.
End AdaptorTheorems.

(** A request under tag 0, and a frame with its response. *)
Lemma adaptor_correlation_witness :
  let ops : list (AdOp (B := slice) (E := unit)) :=
    [AdSend 5 9 [1%Z] 77 0 (Ok tt); AdParse (mkSlice 0 (2%Z :: int_bytes u64 0 ++ [42%Z]))] in
  sent_under ops [AdFrame (ipc_encode (IpcMessage_actor_message (ActorMessage_send 5 9 [1%Z] 0)));
                  AdResult 0 77 [42%Z]] 0 77.
Proof.
  intros ops.
  refine (proj1 (proj2 (adaptor_correlation true ops (mkActorAdaptor 1 ∅) _ _ _) 0%Z 77 [42%Z] _)).
  - by apply (bool_decide_unpack _).
  - reflexivity.
  - apply list_elem_of_further, list_elem_of_here.
Defined.
