(* ===== verification/AdaptorNet.v ===== *)
(** * An adaptor and the session it talks to

    The adaptor of Adaptor.v at one end of a link, a session of SessionNet.v at the other:
    what the adaptor's user and the session's process do is left open. The session keeps the
    invariant of SessionTheorems.v, which is of one peer; with the adaptor's own it follows
    that a response in a channel is what the other process computed for that request. *)

From S2P Require Import Prelude Tokio ActorTypes UserCode WireLibs Codec Registry IpcMessages.
From S2P Require Import Session ErrorReport SessionNet SessionTheorems Adaptor.

(** The adaptor, its frames that have not arrived, the requests made so far and its events;
    and the session. *)
Record AdNet : Type := mkAdNet {
  an_adaptor : ActorAdaptor;
  an_out : list (list Z);
  an_asked : list (nat * Request);
  an_events : list AdEvent;
  an_peer : Peer;
}.

Definition ad_frames (evs : list AdEvent) : list (list Z) :=
  omap (fun e => match e with AdFrame f => Some f | AdResult _ _ _ => None end) evs.

(** The channels a response was put into. *)
Definition ad_result_txs (evs : list AdEvent) : list nat :=
  omap (fun e => match e with AdResult _ tx _ => Some tx | AdFrame _ => None end) evs.

Definition ad_pending (a : ActorAdaptor) : list nat := (map_to_list (ad_result_senders a)).*2.*1.

Section AdNet.
Context {B : Type} `{BytesCrate B} `{!ProstMessage B IpcMessage} `{!ProstMessage B ResultAddress}.
Context (overflow_checks : bool).
Context {E : Type} (env : PeerEnv).
Implicit Types (a : ActorAdaptor) (p : Peer) (answer : result unit E) (asked : list (nat * Request)).

Inductive ad_net_step : AdNet -> AdNet -> Prop :=
| as_send actor_id message_id message tx timestamp answer wire a out asked evs p r a' evs' :
    tx ∉ asked.*1 ->
    (Z.of_nat (length asked) < 2 ^ 64)%Z ->
    pm_valid (req_frame (ReqActor actor_id message_id message) (ad_tag a)) ->
    ActorAdaptor_send overflow_checks actor_id message_id message tx timestamp answer a =
      Done (r, a', evs') ->
    on_wire (ad_frames evs') answer wire ->
    ad_net_step (mkAdNet a out asked evs p)
      (mkAdNet a' (out ++ wire) (asked ++ [(tx, ReqActor actor_id message_id message)])
         (evs ++ evs') p)
| as_do_send actor_id message_id message answer wire a out asked evs p :
    pm_valid (IpcMessage_actor_message (ActorMessage_do_send actor_id message_id message)) ->
    on_wire (ad_frames (ActorAdaptor_do_send actor_id message_id message answer).2) answer wire ->
    ad_net_step (mkAdNet a out asked evs p)
      (mkAdNet a (out ++ wire) asked
         (evs ++ (ActorAdaptor_do_send actor_id message_id message answer).2) p)
| as_cleanup now timeout a out asked evs p a' :
    ActorAdaptor_cleanup overflow_checks now timeout a = Done a' ->
    ad_net_step (mkAdNet a out asked evs p) (mkAdNet a' out asked evs p)
| as_parse f p_rest a out asked evs p r a' evs' :
    p_out p = f :: p_rest ->
    ActorAdaptor_parse (bytes_freeze f) a = (r, a', evs') ->
    ad_net_step (mkAdNet a out asked evs p)
      (mkAdNet a' out asked (evs ++ evs') (with_out p p_rest))
| as_session a out asked evs p p' out' :
    peer_step env p out p' out' ->
    ad_net_step (mkAdNet a out asked evs p) (mkAdNet a out' asked evs p').

Definition ad_net_start (index : Z) : AdNet := mkAdNet ActorAdaptor_new [] [] [] (peer_start index).

(** ** The invariant *)

#[local] Set Default Proof Using "Type*".

(** The adaptor answers no requests. *)
Definition no_answers : PeerEnv :=
  mkPeerEnv (fun _ _ => False) (fun _ => False) (fun _ _ => False) (fun _ _ _ _ => False).

Definition ad_event_ok asked (e : AdEvent) : Prop :=
  match e with
  | AdResult _ tx bytes => exists req, (tx, req) ∈ asked /\ served env req (Ok bytes)
  | AdFrame _ => True
  end.

Record ad_net_inv (n : AdNet) : Prop := MkAdNetInv {
  ai_peer : peer_inv env no_answers (an_asked n) (an_peer n);
  ai_out : Forall (frame_ok no_answers (an_asked n) (p_asked (an_peer n))) (an_out n);
  ai_tag : ad_tag (an_adaptor n) = wrap_u 64 (Z.of_nat (length (an_asked n)));
  ai_map : map_ok (an_asked n) (ad_result_senders (an_adaptor n));
  ai_events : Forall (ad_event_ok (an_asked n)) (an_events n);
  ai_once : ad_pending (an_adaptor n) ++ ad_result_txs (an_events n) ⊆+ (an_asked n).*1;
  ai_nodup : NoDup (an_asked n).*1;
  ai_actors : Forall (fun x => exists id m b, x.2 = ReqActor id m b) (an_asked n);
}.

Lemma ad_net_inv_start index : ad_net_inv (ad_net_start index).
Proof. constructor; simpl; try done; [apply peer_inv_start|constructor]. Qed.

Lemma ad_event_ok_grow asked asked' e : asked `prefix_of` asked' -> ad_event_ok asked e -> ad_event_ok asked' e.
Proof.
  intros [l ->]. destruct e as [|tag tx bytes]; [done|]. intros (req & ? & ?). exists req.
  split; [|done]. apply elem_of_app. by left.
Qed.

Lemma ad_result_txs_app evs evs' : ad_result_txs (evs ++ evs') = ad_result_txs evs ++ ad_result_txs evs'.
Proof. apply omap_app. Qed.

Lemma ad_send_inv n actor_id message_id message tx timestamp answer wire r a' evs' :
  let req := ReqActor actor_id message_id message in
  tx ∉ (an_asked n).*1 -> (Z.of_nat (length (an_asked n)) < 2 ^ 64)%Z ->
  pm_valid (req_frame req (ad_tag (an_adaptor n))) ->
  ActorAdaptor_send overflow_checks actor_id message_id message tx timestamp answer (an_adaptor n) =
    Done (r, a', evs') ->
  on_wire (ad_frames evs') answer wire -> ad_net_inv n ->
  ad_net_inv (mkAdNet a' (an_out n ++ wire) (an_asked n ++ [(tx, req)]) (an_events n ++ evs') (an_peer n)).
Proof.
  intros req Htx Hlt Hv Hs Hw []. unfold ActorAdaptor_send, ActorAdaptor_next_tag in Hs.
  rewrite (wrap_u_id 64) in ai_tag0 by (unfold in_u; lia).
  destruct (overflow_checks && _); simplify_eq/=.
  assert (Hp : an_asked n `prefix_of` an_asked n ++ [(tx, req)]) by by eexists.
  constructor; simpl; try done.
  - by eapply peer_inv_grow.
  - apply Forall_app_2; [eapply Forall_impl; [done|]; intros f; by apply frame_ok_grow|].
    eapply on_wire_forall; [|exact Hw]. apply Forall_singleton. left. left.
    exists (ad_tag (an_adaptor n)), tx, req. rewrite ai_tag0 in *.
    split_and!; [apply asked_as_new|done..].
  - rewrite ai_tag0, length_app. simpl. f_equal. lia.
  - intros tag tx' ts [[<- [= <- <-]]|[_ Hl]]%lookup_insert_Some.
    + exists req. rewrite ai_tag0. apply asked_as_new.
    + destruct (ai_map0 _ _ _ Hl) as [req' ?]. exists req'. by eapply asked_as_grow.
  - apply Forall_app_2; [eapply Forall_impl; eauto using ad_event_ok_grow|by repeat constructor].
  - rewrite ad_result_txs_app, app_nil_r, fmap_app. unfold ad_pending in *. simpl.
    rewrite pending_insert.
    + simpl. rewrite <- Permutation_cons_append. by apply submseteq_skip.
    + destruct (ad_result_senders (an_adaptor n) !! ad_tag (an_adaptor n)) as [[tx' ts]|] eqn:El; [|done].
      destruct (ai_map0 _ _ _ El) as (req' & _ & Hl). rewrite ai_tag0, Nat2Z.id in Hl.
      by rewrite lookup_ge_None_2 in Hl.
  - rewrite fmap_app. apply NoDup_app. split_and!; [done| |simpl; by apply NoDup_singleton].
    intros x Hx Hx'. simpl in Hx'. by apply list_elem_of_singleton in Hx' as ->.
  - apply Forall_app_2; [done|]. apply Forall_singleton. by exists actor_id, message_id, message.
Qed.
Lemma ad_parse_inv n f p_rest r a' evs' :
  p_out (an_peer n) = f :: p_rest ->
  ActorAdaptor_parse (bytes_freeze f : B) (an_adaptor n) = (r, a', evs') -> ad_net_inv n ->
  ad_net_inv (mkAdNet a' (an_out n) (an_asked n) (an_events n ++ evs') (with_out (an_peer n) p_rest)).
Proof.
  intros Hout Hs []. pose proof (pi_out _ _ _ _ ai_peer0) as Hf. rewrite Hout in Hf.
  apply Forall_cons in Hf as [Hf Hrest].
  assert (Hp : peer_inv env no_answers (an_asked n) (with_out (an_peer n) p_rest))
    by by eapply peer_inv_other.
  assert (Hquiet : a' = an_adaptor n -> evs' = [] ->
    ad_net_inv (mkAdNet a' (an_out n) (an_asked n) (an_events n ++ evs') (with_out (an_peer n) p_rest))).
  { intros -> ->. by constructor; simpl; rewrite ?app_nil_r. }
  unfold ActorAdaptor_parse in Hs.
  destruct Hf as [[(tag & tx & req & _ & Hv & ->)|(id & m & b & Hv & ->)]
                 |([tag res] & (otx & req & Has & Hsv) & Hv & ->)];
    rewrite (decode_frozen _ Hv) in Hs.
  - destruct req as [| |[]]; simplify_eq/=; auto.
  - simplify_eq/=; auto.
  - destruct res as [bytes|e]; simpl in Hs; [|simplify_eq; auto].
    destruct (ad_result_senders (an_adaptor n) !! tag) as [[tx ts]|] eqn:El; simplify_eq/=; auto.
    destruct (ai_map0 _ _ _ El) as (req' & Has').
    assert (tx = otx /\ req' = req) as [-> ->].
    { destruct Has as [_ Ha], Has' as [_ Ha']. simpl in Ha. rewrite Ha in Ha'. by simplify_eq. }
    constructor; simpl; try done.
    + intros tag' tx' ts' [_ ?]%lookup_delete_Some. eauto.
    + apply Forall_app_2; [done|]. apply Forall_singleton. exists req.
      split; [by eapply asked_as_elem|done].
    + unfold ad_pending in *. simpl. rewrite ad_result_txs_app.
      rewrite (pending_delete _ _ _ _ El) in ai_once0. simpl in *.
      by rewrite (assoc_L (++)), <- Permutation_cons_append.
Qed.

Lemma ad_cleanup_inv n now timeout a' :
  ActorAdaptor_cleanup overflow_checks now timeout (an_adaptor n) = Done a' -> ad_net_inv n ->
  ad_net_inv (mkAdNet a' (an_out n) (an_asked n) (an_events n) (an_peer n)).
Proof.
  intros Hs []. unfold ActorAdaptor_cleanup in Hs. destruct (overflow_checks && _); simplify_eq/=.
  constructor; simpl; try done.
  - intros tag tx ts [Hl _]%map_lookup_filter_Some. eauto.
  - etrans; [|exact ai_once0]. apply submseteq_app; [|done]. unfold ad_pending. simpl.
    do 2 apply fmap_submseteq. apply map_to_list_submseteq, map_filter_subseteq.
Qed.

Lemma ad_net_step_inv n n' : ad_net_step n n' -> ad_net_inv n -> ad_net_inv n'.
Proof.
  intros [actor_id message_id message tx timestamp answer wire a out asked evs p r a' evs' Htx Hlt Hv Hs Hw
         |actor_id message_id message answer wire a out asked evs p Hv Hw
         |now timeout a out asked evs p a' Hs
         |f p_rest a out asked evs p r a' evs' Hout Hs
         |a out asked evs p p' out' Hs] Hinv.
  - by apply (ad_send_inv (mkAdNet a out asked evs p) actor_id message_id message tx timestamp answer wire r).
  - destruct Hinv. constructor; simpl in *; try done.
    + apply Forall_app_2; [done|]. eapply on_wire_forall; [|exact Hw]. apply Forall_singleton.
      left. right. by exists actor_id, message_id, message.
    + apply Forall_app_2; [done|]. by repeat constructor.
    + by rewrite ad_result_txs_app, app_nil_r.
  - by eapply (ad_cleanup_inv (mkAdNet a out asked evs p)).
  - by eapply (ad_parse_inv (mkAdNet a out asked evs p)).
  - destruct Hinv. simpl in *.
    destruct (peer_step_inv _ _ _ _ _ _ _ Hs ai_out0 ai_peer0) as (? & ? & _). by constructor.
Qed.

(** C26. A call through an adaptor is answered by the actor it was made to: whatever the user
    of the adaptor, the session at the other end and its process do, a response that is put
    into a channel is what an actor of that process answered to the very request made with
    that channel, and a channel gets at most one. *)
Theorem adaptor_call_answered index n (Hrun : rtc ad_net_step (ad_net_start index) n) :
  NoDup (ad_result_txs (an_events n)) /\
  forall tag tx bytes, AdResult tag tx bytes ∈ an_events n ->
    exists bm, (tx, ReqActor (bm_actor_id bm) (bm_message_id bm) (bm_bytes bm)) ∈ an_asked n /\
      pe_responds env bm (Ok bytes).
Proof.
  assert (Hinv : ad_net_inv n).
  { pose proof (ad_net_inv_start index) as Hi. induction Hrun; eauto using ad_net_step_inv. }
  destruct Hinv. split.
  - apply submseteq_Permutation in ai_once0 as [l Hl]. rewrite Hl in ai_nodup0.
    apply NoDup_app in ai_nodup0 as [Hn _]. by apply NoDup_app in Hn as (_ & _ & ?).
  - intros tag tx bytes Hin. eapply (proj1 (Forall_forall _ _) ai_events0) in Hin as (req & Hreq & Hs).
    pose proof (proj1 (Forall_forall _ _) ai_actors0 _ Hreq) as (id & m & b & Hr). simpl in Hr. subst req.
    apply served_actor in Hs as (bm & <- & <- & <- & ?). by exists bm.
Qed.
End AdNet.

(** ** A call, as witness *)

Abbreviation w_ad_step := (ad_net_step (B := slice) (E := unit) true (w_env w_responds)).

Lemma w_ad_run : exists n, rtc w_ad_step (ad_net_start 4) n /\ AdResult 0 100 [42%Z] ∈ an_events n.
Proof.
  eexists. split.
  - eapply rtc_l.
    { eapply (as_send _ _ 5 9 [1; 2]%Z 100 0 (Ok tt)); [set_solver|done| |reflexivity|done].
      by apply (bool_decide_unpack (in_range u64 5 /\ in_range u64 9 /\ in_range u64 0)). }
    eapply rtc_l.
    { eapply as_session, (ps_act _ _ (Some _)).
      - eapply (pa_frame _ _ (fun _ => false) (fun _ => false) (fun _ => Err ResponseTimeout)
                 0 (Ok tt) (Ok tt) w_registry); [done|done|vm_compute; reflexivity| |vm_compute; reflexivity].
        intros m Hm. apply list_elem_of_singleton in Hm. discriminate.
      - done. }
    eapply rtc_l.
    { eapply as_session, (ps_act _ _ None).
      - by apply (pa_task _ (w_task [1; 2]%Z) (Err ResponseTimeout) (Ok tt) (Ok [42%Z]) _ _ [] []).
      - done. }
    eapply rtc_l.
    { eapply as_session, (ps_act _ _ None).
      - apply (pa_respond _ _ (Ok tt)). by apply (bool_decide_unpack (in_range u64 0)).
      - done. }
    eapply rtc_l; [|apply rtc_refl]. by eapply as_parse.
  - simpl. right. left.
Qed.

Lemma adaptor_call_answered_witness : exists n, rtc w_ad_step (ad_net_start 4) n /\
  NoDup (ad_result_txs (an_events n)) /\
  exists bm, (100, ReqActor (bm_actor_id bm) (bm_message_id bm) (bm_bytes bm)) ∈ an_asked n /\
    w_responds bm (Ok [42%Z]).
Proof.
  destruct w_ad_run as (n & Hrun & Hev). exists n. split; [exact Hrun|].
  destruct (adaptor_call_answered _ _ 4 n Hrun) as [Hn Hr]. split; [exact Hn|].
  exact (Hr 0%Z 100 [42%Z] Hev).
Defined.
