(* ===== verification/StableId.v ===== *)
(** * Stable type ids and message ids

    Models acktor/src/stable_type_id.rs, acktor/src/message/index.rs and the macros that
    derive the two traits, acktor-derive/src/stable_id.rs and message_id.rs: what the
    derived code computes for a declaration, and the ids of the types a program builds from
    its declarations. The hash is a parameter. *)

From S2P Require Import Prelude WireLibs.

(** [sha2_const::Sha256]. *)
Class Sha256 : Type := {
  sha256 : list Z -> list Z;
  sha256_length l : length (sha256 l) = 32;
  sha256_bytes l : is_bytes (sha256 l);
}.

Definition take16 (arr : list Z) : list Z := take 16 arr.

(** The sixteen bytes of a [StableTypeId]. *)
Definition StableTypeId : Type := list Z.

Section StableTypeId.
Context `{Sha256}.
Implicit Types (id : StableTypeId).

Definition from_stable_type_name (type_name : string) : StableTypeId :=
  take16 (sha256 (string_bytes type_name)).

Definition combine id (other : list Z) : StableTypeId := take16 (sha256 (id ++ other)).

Definition from_be_bytes (l : list Z) : Z := from_le (reverse l).

Definition as_u64 id : Z := from_be_bytes (take 8 id).
Definition as_u128 id : Z := from_be_bytes id.

Definition Box_TYPE_ID id : StableTypeId := combine (from_stable_type_name "alloc::boxed::Box") id.
Definition Arc_TYPE_ID id : StableTypeId := combine (from_stable_type_name "alloc::sync::Arc") id.

(** The control messages; [id] is the id of their type parameter. *)
Definition Signal_TYPE_ID : StableTypeId := from_stable_type_name "acktor::signal::Signal".
Definition CronSignal_TYPE_ID : StableTypeId := from_stable_type_name "acktor::cron::CronSignal".
Definition Supervisor_TYPE_ID id : StableTypeId :=
  combine (from_stable_type_name "acktor::supervisor::Supervisor") id.
Definition SupervisionEvent_TYPE_ID id : StableTypeId :=
  combine (from_stable_type_name "acktor::supervisor::SupervisionEvent") id.
Definition Observer_TYPE_ID id : StableTypeId :=
  combine (from_stable_type_name "acktor::observer::Observer") id.

(** [MessageId::ID] of the control messages. *)
Definition Signal_ID : Z := as_u64 Signal_TYPE_ID.
Definition CronSignal_ID : Z := as_u64 CronSignal_TYPE_ID.
Definition Supervisor_ID id : Z := as_u64 (Supervisor_TYPE_ID id).
Definition SupervisionEvent_ID id : Z := as_u64 (SupervisionEvent_TYPE_ID id).
Definition Observer_ID id : Z := as_u64 (Observer_TYPE_ID id).
End StableTypeId.

(** ** Declarations and what is derived for them *)

(** The type of a const parameter is known by the last segment of its path, if it is one. *)
Inductive GenericParam : Type :=
| GpLifetime
| GpType (ident : string)
| GpConst (ident : string) (ty : option string).

(** The attribute [#[custom_id(..)]]: not a list, or a list whose literal parses or not. *)
Inductive CustomIdAttr : Type := AttrNotList | AttrList (lit : option Z).

Record DeriveInput : Type := mkDeriveInput {
  di_module_path : string;
  di_ident : string;
  di_generics : list GenericParam;
  di_custom_id : option CustomIdAttr;
}.

(** A [.combine(..)] of the derived code: the id of a type parameter, or the hash of the
    bytes of a const parameter, as an integer of a width. *)
Inductive Combine : Type :=
| CombineType (ident : string)
| CombineConst (ident : string) (t : IntTy).

Record StableIdImpl : Type := mkStableIdImpl {
  si_type_name : string;
  si_combines : list Combine;
  si_extra_bounds : list string;
}.

Definition combine_const_param (ty : option string) : result IntTy string :=
  let SUPPORTED := "StableId derive only supports legal const generic parameter types" in
  match ty with
  | None => Err SUPPORTED
  | Some name =>
      if bool_decide (name = "u8") then Ok (mkIntTy 1 false)
      else if bool_decide (name = "u16") then Ok (mkIntTy 2 false)
      else if bool_decide (name = "u32") then Ok (mkIntTy 4 false)
      else if bool_decide (name = "u64") then Ok (mkIntTy 8 false)
      else if bool_decide (name = "u128") then Ok (mkIntTy 16 false)
      else if bool_decide (name = "i8") then Ok (mkIntTy 1 true)
      else if bool_decide (name = "i16") then Ok (mkIntTy 2 true)
      else if bool_decide (name = "i32") then Ok (mkIntTy 4 true)
      else if bool_decide (name = "i64") then Ok (mkIntTy 8 true)
      else if bool_decide (name = "i128") then Ok (mkIntTy 16 true)
      else if bool_decide (name = "usize") then Ok u64
      else if bool_decide (name = "isize") then Ok i64
      else if bool_decide (name = "bool") then Ok u8
      else if bool_decide (name = "char") then Ok u32
      else Err SUPPORTED
  end.

(** The loop of [stable_id::expand]. *)
Fixpoint expand_params (params : list GenericParam) : result (list Combine * list string) string :=
  match params with
  | [] => Ok ([], [])
  | GpLifetime :: params => expand_params params
  | GpType ident :: params =>
      result_map (fun '(combines, bounds) => (CombineType ident :: combines, ident :: bounds))
        (expand_params params)
  | GpConst ident ty :: params =>
      let? t := combine_const_param ty in
      result_map (fun '(combines, bounds) => (CombineConst ident t :: combines, bounds))
        (expand_params params)
  end.

Definition stable_type_name (ast : DeriveInput) : string := di_module_path ast +:+ "::" +:+ di_ident ast.

(** [stable_id::expand]; an error is a [compile_error!]. *)
Definition stable_id_expand (ast : DeriveInput) : result StableIdImpl string :=
  let? (combines, bounds) := expand_params (di_generics ast) in
  Ok (mkStableIdImpl (stable_type_name ast) combines bounds).

Definition get_custom_id (ast : DeriveInput) : result (option Z) string :=
  match di_custom_id ast with
  | None => Ok None
  | Some AttrNotList => Err "the correct syntax is `#[custom_id(<u64 value>)]`"
  | Some (AttrList None) => Err "expected integer literal"
  | Some (AttrList (Some lit)) =>
      if bool_decide (in_u 64 lit) then Ok (Some lit) else Err "number too large to fit in target type"
  end.

(** [MessageIdStable] comes with the derived [StableId]. *)
Inductive MessageIdImpl : Type :=
| MessageIdCustom (value : Z)
| MessageIdStable (extra_bounds : list string) (stable_id_impl : StableIdImpl).

(** [message_id::expand]. *)
Definition message_id_expand (ast : DeriveInput) : result MessageIdImpl string :=
  let? custom_id := get_custom_id ast in
  match custom_id with
  | Some value => Ok (MessageIdCustom value)
  | None =>
      let bounds := omap (fun p => match p with GpType ident => Some ident | _ => None end)
                      (di_generics ast) in
      result_map (MessageIdStable bounds) (stable_id_expand ast)
  end.

(** ** The types of a program *)

(** A declared type applied to the arguments of its type and const parameters, in order;
    lifetimes have no part in an id. *)
Inductive rust_ty : Type :=
| RTy (name : string) (args : rust_args)
with rust_args : Type :=
| RNil
| RType (t : rust_ty) (args : rust_args)
| RConst (v : Z) (args : rust_args).

Scheme rust_ty_mut := Induction for rust_ty Sort Prop
  with rust_args_mut := Induction for rust_args Sort Prop.
Combined Scheme rust_ty_both from rust_ty_mut, rust_args_mut.

Section Ids.
Context `{Sha256}.
(** The declarations of the program, by their full names. *)
Context (decl_of : string -> option DeriveInput).

(** The derived impl; a declaration for which the macro fails does not compile. *)
Definition derived_impl (name : string) : option StableIdImpl :=
  ast ← decl_of name;
  match stable_id_expand ast with Ok impl => Some impl | Err _ => None end.

(** [take16(Sha256(value bytes))], the bytes in big-endian order. *)
Definition const_param_id (t : IntTy) (v : Z) : list Z := take16 (sha256 (reverse (int_bytes t v))).

(** [TYPE_ID] of the derived impl, at the arguments of the type. *)
Fixpoint TYPE_ID (t : rust_ty) : StableTypeId :=
  match t with
  | RTy name args =>
      match derived_impl name with
      | Some impl =>
          fold_left combine (combined_ids (si_combines impl) args)
            (from_stable_type_name (si_type_name impl))
      | None => []
      end
  end
with combined_ids (combines : list Combine) (args : rust_args) : list StableTypeId :=
  match combines, args with
  | CombineType _ :: combines, RType t args => TYPE_ID t :: combined_ids combines args
  | CombineConst _ t :: combines, RConst v args => const_param_id t v :: combined_ids combines args
  | _, _ => []
  end.

(** The arguments fit the parameters of the declaration. *)
Fixpoint ty_formed (t : rust_ty) : Prop :=
  match t with
  | RTy name args =>
      match derived_impl name with
      | Some impl => args_formed (si_combines impl) args
      | None => False
      end
  end
with args_formed (combines : list Combine) (args : rust_args) : Prop :=
  match combines, args with
  | [], RNil => True
  | CombineType _ :: combines, RType t args => ty_formed t /\ args_formed combines args
  | CombineConst _ t :: combines, RConst v args =>
      (0 < it_size t /\ in_range t v) /\ args_formed combines args
  | _, _ => False
  end.

(** [MessageId::ID]. *)
Definition MessageId_ID (t : rust_ty) : option Z :=
  match t with
  | RTy name _ =>
      ast ← decl_of name;
      match message_id_expand ast with
      | Ok (MessageIdCustom value) => Some value
      | Ok (MessageIdStable _ _) => Some (as_u64 (TYPE_ID t))
      | Err _ => None
      end
  end.

Fixpoint ty_names (t : rust_ty) : list string :=
  match t with RTy name args => name :: args_names args end
with args_names (args : rust_args) : list string :=
  match args with
  | RNil => []
  | RType t args => ty_names t ++ args_names args
  | RConst _ args => args_names args
  end.
End Ids.
