(* ===== verification/StableIdTheorems.v ===== *)
(** * Distinct types have distinct ids, up to the hash

    [ty_hashed] lists what is hashed to compute the id of a type. Two different types of a
    program get the same message id only if two of the inputs hashed for them collide on 64
    bits, or the name of a type is, byte for byte, two of the hashes that were computed. *)

From S2P Require Import Prelude WireLibs StableId.

#[local] Set Default Proof Using "Type*".

Section Facts.
Context `{Sha256}.
Implicit Types (l : list (list Z)).

Abbreviation hash16 x := (take16 (sha256 x)).

Lemma hash16_length x : length (hash16 x) = 16.
Proof. unfold take16. rewrite length_take, sha256_length. done. Qed.

(** Two inputs, one of each list, whose hashes agree in their first 64 bits. *)
Definition collide l1 l2 : Prop :=
  exists x y, x ∈ l1 /\ y ∈ l2 /\ x ≠ y /\ take 8 (sha256 x) = take 8 (sha256 y).

(** A name that is two hashes of inputs of the list. *)
Definition name_of_ids (names : list string) l : Prop :=
  exists n x y, n ∈ names /\ x ∈ l /\ y ∈ l /\ string_bytes n = hash16 x ++ hash16 y.

Lemma collide_mono l1 l2 l1' l2' : l1 ⊆ l1' -> l2 ⊆ l2' -> collide l1 l2 -> collide l1' l2'.
Proof. intros H1 H2 (x & y & Hx & Hy & ?). exists x, y. auto. Qed.

Lemma name_of_ids_mono names names' l l' :
  names ⊆ names' -> l ⊆ l' -> name_of_ids names l -> name_of_ids names' l'.
Proof. intros Hn Hl (n & x & y & ? & ? & ? & ?). exists n, x, y. auto. Qed.

Lemma hash8_inj x y l1 l2 :
  x ∈ l1 -> y ∈ l2 -> take 8 (sha256 x) = take 8 (sha256 y) -> x = y \/ collide l1 l2.
Proof. intros ?? E. destruct (decide (x = y)); [by left|right; by exists x, y]. Qed.

Lemma hash16_inj x y l1 l2 : x ∈ l1 -> y ∈ l2 -> hash16 x = hash16 y -> x = y \/ collide l1 l2.
Proof.
  unfold take16. intros ?? E. apply hash8_inj; [done..|].
  change 8 with (8 `min` 16). by rewrite <- !take_take, E.
Qed.

(** *** Chains of [combine] *)

Definition chain (name : list Z) l : list Z := fold_left combine l (hash16 name).

(** The input of the last hash of a chain. *)
Definition chain_input (name : list Z) l : list Z :=
  match last l with Some o => chain name (removelast l) ++ o | None => name end.

(** The inputs of all its hashes. *)
Definition chain_inputs (name : list Z) l : list (list Z) :=
  (fun n => chain_input name (take n l)) <$> seq 0 (S (length l)).
#[local] Arguments chain_inputs : simpl never.

Lemma chain_input_snoc name l o : chain_input name (l ++ [o]) = chain name l ++ o.
Proof. unfold chain_input. by rewrite last_snoc, removelast_last. Qed.

Lemma chain_hash name l : chain name l = hash16 (chain_input name l).
Proof.
  destruct l as [|o l _] using rev_ind; [done|].
  rewrite chain_input_snoc. unfold chain. by rewrite fold_left_app.
Qed.

Lemma chain_input_in name l l' : l `prefix_of` l' -> chain_input name l ∈ chain_inputs name l'.
Proof.
  intros [k ->]. unfold chain_inputs. apply list_elem_of_fmap. exists (length l).
  rewrite take_app_length. split; [done|]. apply elem_of_seq. rewrite length_app. lia.
Qed.

(** Hashes of inputs of the list. *)
Definition hashes_of l (os : list (list Z)) : Prop := Forall (fun o => exists x, x ∈ l /\ o = hash16 x) os.

Lemma hashes_of_mono l l' os : l ⊆ l' -> hashes_of l os -> hashes_of l' os.
Proof. intros Hl Hf. eapply Forall_impl; [exact Hf|]. intros o (x & ? & ?). exists x. auto. Qed.

Lemma chain_inj names n1 n2 os1 os2 l1 l2 k1 k2 :
  n1 ∈ names -> n2 ∈ names -> hashes_of l1 os1 -> hashes_of l2 os2 ->
  os1 `prefix_of` k1 -> os2 `prefix_of` k2 ->
  chain_inputs (string_bytes n1) k1 ⊆ l1 -> chain_inputs (string_bytes n2) k2 ⊆ l2 ->
  chain_input (string_bytes n1) os1 = chain_input (string_bytes n2) os2 ->
  (n1 = n2 /\ os1 = os2) \/ collide l1 l2 \/ name_of_ids names (l1 ++ l2).
Proof.
  intros Hn1 Hn2 H1 H2 Hp1 Hp2 Hl1 Hl2. revert os2 H2 Hp2.
  induction os1 as [|o1 os1 IH] using rev_ind; intros os2 H2 Hp2 E;
    destruct os2 as [|o2 os2 _] using rev_ind; rewrite ?chain_input_snoc in E;
    try apply prefix_app_l in Hp1 as Hq1; try apply prefix_app_l in Hp2 as Hq2.
  - left. split; [|done]. apply (f_equal bytes_string) in E. unfold chain_input in E. simpl in E.
    by rewrite !bytes_string_bytes in E.
  - right; right. apply Forall_app in H2 as [_ [(x & Hx & ->) _]%Forall_cons].
    exists n1, (chain_input (string_bytes n2) os2), x. rewrite <- chain_hash.
    pose proof (Hl2 _ (chain_input_in (string_bytes n2) os2 k2 Hq2)). set_solver.
  - right; right. apply Forall_app in H1 as [_ [(x & Hx & ->) _]%Forall_cons].
    exists n2, (chain_input (string_bytes n1) os1), x. rewrite <- chain_hash.
    pose proof (Hl1 _ (chain_input_in (string_bytes n1) os1 k1 Hq1)). set_solver.
  - apply Forall_app in H1 as [H1 _], H2 as [H2 _].
    apply app_inj_1 in E as [E ->]; [|by rewrite !chain_hash, !hash16_length].
    rewrite !chain_hash in E.
    apply (hash16_inj _ _ l1 l2) in E as [E|E]; [|by auto|by apply Hl1, chain_input_in|by apply Hl2, chain_input_in].
    destruct (IH H1 Hq1 os2 H2 Hq2 E) as [[-> ->]|?]; auto.
Qed.

(** Why two types, or two lists of arguments, are told apart. *)
Definition apart names l1 l2 : Prop := collide l1 l2 \/ name_of_ids names (l1 ++ l2).

Lemma apart_mono names names' l1 l2 l1' l2' :
  names ⊆ names' -> l1 ⊆ l1' -> l2 ⊆ l2' -> apart names l1 l2 -> apart names' l1' l2'.
Proof.
  intros Hn H1 H2 [?|?]; [left; by eapply collide_mono|right].
  eapply name_of_ids_mono; [exact Hn| |done]. clear Hn. set_solver.
Qed.

(** *** Types *)

Context (decl_of : string -> option DeriveInput).
Hypothesis decl_name : forall n ast, decl_of n = Some ast -> stable_type_name ast = n.

Lemma derived_impl_name n impl : derived_impl decl_of n = Some impl -> si_type_name impl = n.
Proof using decl_name.
  unfold derived_impl, stable_id_expand. intros (ast & Hd & E)%bind_Some. rewrite <- (decl_name _ _ Hd).
  by destruct (expand_params _) as [[]|]; simplify_eq/=.
Qed.

Abbreviation TYPE_ID := (TYPE_ID decl_of).
Abbreviation combined_ids := (combined_ids decl_of).
Abbreviation ty_formed := (ty_formed decl_of).
Abbreviation args_formed := (args_formed decl_of).

(** The input of the hash that is the id of a type. *)
Definition ty_input (t : rust_ty) : list Z :=
  match t with
  | RTy name args =>
      match derived_impl decl_of name with
      | Some impl => chain_input (string_bytes name) (combined_ids (si_combines impl) args)
      | None => []
      end
  end.

(** Everything that is hashed to compute it: the name, what [combine] appends to the hash so
    far, and the same for the arguments. *)
Fixpoint ty_hashed (t : rust_ty) : list (list Z) :=
  match t with
  | RTy name args =>
      match derived_impl decl_of name with
      | Some impl =>
          chain_inputs (string_bytes name) (combined_ids (si_combines impl) args) ++
          args_hashed (si_combines impl) args
      | None => []
      end
  end
with args_hashed (combines : list Combine) (args : rust_args) : list (list Z) :=
  match combines, args with
  | CombineType _ :: combines, RType t args => ty_hashed t ++ args_hashed combines args
  | CombineConst _ t :: combines, RConst v args => reverse (int_bytes t v) :: args_hashed combines args
  | _, _ => []
  end.

Lemma ty_input_in t : ty_formed t -> ty_input t ∈ ty_hashed t.
Proof using Type.
  destruct t as [name args]. cbn [StableId.ty_formed ty_input ty_hashed].
  destruct (derived_impl decl_of name) as [impl|]; [|done].
  intros _. rewrite elem_of_app. left. by apply chain_input_in.
Qed.

Lemma TYPE_ID_hash t : ty_formed t -> TYPE_ID t = hash16 (ty_input t).
Proof.
  destruct t as [name args]. simpl. destruct (derived_impl decl_of name) as [impl|] eqn:E; [|done].
  intros _. rewrite (derived_impl_name _ _ E). by rewrite <- chain_hash.
Qed.

Lemma combined_ids_hashes cs args : args_formed cs args -> hashes_of (args_hashed cs args) (combined_ids cs args).
Proof.
  revert args. induction cs as [|[i|i t] cs IH]; intros [|t' args|v args] Hf; try done.
  - by constructor.
  - destruct Hf as [Ht Hf]. cbn [StableId.combined_ids args_hashed]. constructor.
    + exists (ty_input t'). rewrite TYPE_ID_hash by done. split; [|done].
      rewrite elem_of_app. left. by apply ty_input_in.
    + eapply hashes_of_mono; [|by apply IH]. set_solver.
  - destruct Hf as [_ Hf]. cbn [StableId.combined_ids args_hashed]. constructor; [eexists; split; [by left|done]|].
    eapply hashes_of_mono; [|by apply IH]. set_solver.
Qed.

Lemma const_bytes_inj t v v' :
  0 < it_size t -> in_range t v -> in_range t v' ->
  reverse (int_bytes t v) = reverse (int_bytes t v') -> v = v'.
Proof using Type.
  intros Hs Hv Hv' E. apply (f_equal reverse) in E. rewrite !reverse_involutive in E.
  by rewrite <- (int_of_int_bytes t v), <- (int_of_int_bytes t v'), E.
Qed.

Lemma types_inj :
  (forall t1 t2, ty_formed t1 -> ty_formed t2 -> ty_input t1 = ty_input t2 ->
     t1 = t2 \/ apart (ty_names t1 ++ ty_names t2) (ty_hashed t1) (ty_hashed t2)) /\
  (forall a1 cs a2, args_formed cs a1 -> args_formed cs a2 -> combined_ids cs a1 = combined_ids cs a2 ->
     a1 = a2 \/ apart (args_names a1 ++ args_names a2) (args_hashed cs a1) (args_hashed cs a2)).
Proof.
  apply rust_ty_both.
  - intros n1 a1 IH [n2 a2] H1 H2 E. cbn [StableId.ty_formed ty_input ty_hashed ty_names] in *.
    destruct (derived_impl decl_of n1) as [i1|] eqn:E1; [|done].
    destruct (derived_impl decl_of n2) as [i2|] eqn:E2; [|done].
    set (k1 := combined_ids (si_combines i1) a1) in *. set (k2 := combined_ids (si_combines i2) a2) in *.
    assert (Hk1 : hashes_of (chain_inputs (string_bytes n1) k1 ++ args_hashed (si_combines i1) a1) k1).
    { eapply hashes_of_mono; [|by apply combined_ids_hashes]. set_solver. }
    assert (Hk2 : hashes_of (chain_inputs (string_bytes n2) k2 ++ args_hashed (si_combines i2) a2) k2).
    { eapply hashes_of_mono; [|by apply combined_ids_hashes]. set_solver. }
    assert (Hn1 : n1 ∈ (n1 :: args_names a1) ++ n2 :: args_names a2) by by left.
    assert (Hn2 : n2 ∈ (n1 :: args_names a1) ++ n2 :: args_names a2) by (rewrite elem_of_app; right; by left).
    destruct (chain_inj _ n1 n2 k1 k2 _ _ k1 k2 Hn1 Hn2 Hk1 Hk2) as [[-> Ek]|?];
      [done|done|by apply list_subseteq_app_l..|done| |by right].
    rewrite E1 in E2. simplify_eq. destruct (IH _ _ H1 H2 Ek) as [->|Hn]; [by left|right].
    revert Hn. apply apart_mono; set_solver.
  - intros [|[i|i ty] cs] [|t2 a2|v a2] H1 H2 E; simpl in *; try done. by left.
  - intros t1 IHt a1 IHa [|[i|i ty] cs] [|t2 a2|v a2] H1 H2 E; simpl in *; try done.
    destruct H1 as [Ht1 H1], H2 as [Ht2 H2]. injection E as Et E.
    rewrite !TYPE_ID_hash in Et by done.
    apply (hash16_inj _ _ (ty_hashed t1) (ty_hashed t2)) in Et as [Et|Hc]; [| |by apply ty_input_in..].
    + destruct (IHt _ Ht1 Ht2 Et) as [->|Hn]; [|right; revert Hn; apply apart_mono; set_solver].
      destruct (IHa _ _ H1 H2 E) as [->|Hn]; [by left|right; revert Hn; apply apart_mono; set_solver].
    + right; left. revert Hc. apply collide_mono; set_solver.
  - intros v1 a1 IHa [|[i|i ty] cs] [|t2 a2|v2 a2] H1 H2 E; simpl in *; try done.
    destruct H1 as [[Hs Hv1] H1], H2 as [[_ Hv2] H2]. injection E as Ev E.
    apply (hash16_inj _ _ [reverse (int_bytes ty v1)] [reverse (int_bytes ty v2)]) in Ev
      as [Ev|Hc]; [| |by left..].
    + apply const_bytes_inj in Ev as ->; [|done..].
      destruct (IHa _ _ H1 H2 E) as [->|Hn]; [by left|right; revert Hn; apply apart_mono; set_solver].
    + right; left. revert Hc. apply collide_mono; set_solver.
Qed.

(** *** Projections *)

Lemma from_le_inj (l1 l2 : list Z) :
  is_bytes l1 -> is_bytes l2 -> length l1 = length l2 -> from_le l1 = from_le l2 -> l1 = l2.
Proof.
  intros H1. revert l2. induction H1 as [|b1 l1 Hb1 H1 IH]; intros [|b2 l2] H2 Hl E; simpl in *; try done.
  apply Forall_cons in H2 as [Hb2 H2]. assert (b1 = b2 /\ from_le l1 = from_le l2) as [-> E'] by lia.
  f_equal. apply IH; [done|lia|done].
Qed.

Lemma as_u64_inj x y :
  as_u64 (hash16 x) = as_u64 (hash16 y) -> take 8 (sha256 x) = take 8 (sha256 y).
Proof.
  unfold as_u64, from_be_bytes, take16. rewrite !take_take. change (8 `min` 16) with 8. intros E.
  assert (Hb : forall z, is_bytes (reverse (take 8 (sha256 z)))).
  { intros z. unfold is_bytes. apply Forall_reverse, Forall_take, sha256_bytes. }
  apply from_le_inj in E; [by apply (inj reverse)|done|done|].
  rewrite !length_reverse, !length_take, !sha256_length. done.
Qed.
End Facts.


(** A hash that keeps the first 32 bytes of its input, and two types whose names agree there. *)
#[local, program] Instance prefix_sha256 : Sha256 :=
  {| sha256 l := take 32 (((fun z => z mod 256)%Z <$> l) ++ replicate 32 0%Z) |}.
Next Obligation. intros l. cbn beta. rewrite length_take, length_app, length_replicate. lia. Qed.
Next Obligation.
  intros l. apply Forall_take, Forall_app. split.
  - apply Forall_fmap, Forall_true. intros z. apply Z.mod_pos_bound. lia.
  - by apply Forall_replicate.
Qed.

Definition w_module : string := "pingpong::messages::of::the::app".

Definition w_decl (n : string) : option DeriveInput :=
  if bool_decide (n = w_module +:+ "::" +:+ "Ping") then Some (mkDeriveInput w_module "Ping" [] None)
  else if bool_decide (n = w_module +:+ "::" +:+ "Pong") then Some (mkDeriveInput w_module "Pong" [] None)
  else None.

