(* ===== verification/DeriveCodec.v ===== *)
(** * The derived codecs

    Models the macros [#[derive(Encode)]] and [#[derive(Decode)]] of acktor-derive
    (common.rs, encode.rs, decode.rs): the configuration they read from the attribute
    [#[codec(method, Bridge)]], and the functions they generate for each of the four
    methods, with and without a bridge type. The libraries that do the encoding are
    parameters, with their documented behaviour as laws. *)

From S2P Require Import Prelude WireLibs Codec.

(** ** The libraries, for one type *)

(** serde_json: writing can fail; what was written reads back if JSON can represent it, and
    a number that is not finite, which is written as [null], is not such a value. *)
Class SerdeJson (T : Type) : Type := {
  json_to_vec : T -> result (list Z) string;
  json_from_slice : list Z -> result T string;
  json_valid : T -> Prop;
  json_law v l : json_valid v -> json_to_vec v = Ok l -> json_from_slice l = Ok v;
}.

(** zerocopy: the memory of a value, of a fixed size. *)
Class ZerocopyType (T : Type) : Type := {
  zc_size_of : nat;
  zc_as_bytes : T -> list Z;
  zc_read_from_bytes : list Z -> result T string;
  zc_length v : length (zc_as_bytes v) = zc_size_of;
  zc_law v : zc_read_from_bytes (zc_as_bytes v) = Ok v;
}.

(** rkyv: an archive can be accessed only where it is aligned. *)
Class Rkyv (B T : Type) `{BytesCrate B} : Type := {
  rk_align : Z;
  rk_to_bytes : T -> result (list Z) string;
  rk_from_bytes : B -> result T string;
  rk_law v l b :
    rk_to_bytes v = Ok l -> bytes_data b = l -> (bytes_addr b mod rk_align = 0)%Z -> rk_from_bytes b = Ok v;
}.

(** ** The attribute *)

Inductive CodecMethod : Type := MethodProst | MethodZerocopy | MethodRkyv | MethodSerdeJson.

(** A type as the macro sees it: a bare identifier or something else. *)
Inductive SynType : Type := TyIdent (ident : string) | TyElse (tokens : string).

Record CodecConfig : Type := mkCodecConfig { cc_method : CodecMethod; cc_bridge : option SynType }.

(** The attribute [codec] of a declaration: not a list, or a list whose arguments parse to an
    identifier and an optional type, or not. *)
Inductive CodecAttr : Type :=
| CodecNotList
| CodecList (args : result (string * option SynType) string).

Definition is_self_type (ty : SynType) (name : string) : bool :=
  match ty with TyIdent ident => bool_decide (ident = name) | TyElse _ => false end.

Definition detect_codec_config (attr : option CodecAttr) (name : string) : result CodecConfig string :=
  match attr with
  | None => Err "missing required attribute `#[codec(method)]`"
  | Some (CodecList args) =>
      let? (ident, bridge) := args in
      let? backend :=
        if bool_decide (ident = "prost") then Ok MethodProst
        else if bool_decide (ident = "serde_json") then Ok MethodSerdeJson
        else if bool_decide (ident = "zerocopy") then Ok MethodZerocopy
        else if bool_decide (ident = "rkyv") then Ok MethodRkyv
        else Err "unknown codec method" in
      match bridge with
      | Some ty =>
          if is_self_type ty name then Err "bridge type must differ from the derived type"
          else Ok (mkCodecConfig backend bridge)
      | None => Ok (mkCodecConfig backend bridge)
      end
  | Some CodecNotList => Err "the correct syntax is `#[codec(method)]` or `#[codec(method, Bridge)]`"
  end.

Section DeriveCodec.
Context {B R : Type} `{BytesCrate B}.

(** A method, with the library's implementation for the type it works on. *)
Inductive Backend (X : Type) : Type :=
| Prost (lib : ProstMessage B X)
| Json (lib : SerdeJson X)
| Zerocopy (lib : ZerocopyType X)
| RkyvArchive (lib : Rkyv B X).
Arguments Prost {X} _.
Arguments Json {X} _.
Arguments Zerocopy {X} _.
Arguments RkyvArchive {X} _.

(** The three functions of the generated [impl Encode], and the one of [impl Decode]. *)
Record EncodeImpl (T : Type) : Type := mkEncodeImpl {
  ei_encoded_len : T -> nat;
  ei_encode : T -> encoder R;
  ei_encode_to_bytes : T -> R -> result (list Z) EncodeError * R;
}.
Arguments mkEncodeImpl {T} _ _ _.
Arguments ei_encoded_len {T} _ _.
Arguments ei_encode {T} _ _.
Arguments ei_encode_to_bytes {T} _ _ _.

Definition DecodeImpl (T : Type) : Type := B -> result T DecodeError.

(** [match to_vec(v) { Ok(vec) => vec.len(), Err(_) => 0 }], and what is written. *)
Definition vec_len (vec : result (list Z) string) : nat := match vec with Ok l => length l | Err _ => 0 end.

Definition vec_encode (vec : result (list Z) string) : encoder R :=
  match vec with Ok l => extend_from_slice l | Err e => enc_err (EncodeOther e) end.

Definition vec_to_bytes (vec : result (list Z) string) (r : R) : result (list Z) EncodeError * R :=
  (result_map_err EncodeOther vec, r).

(** [encode::expand] without a bridge type. *)
Definition derive_encode {T} (backend : Backend T) : EncodeImpl T :=
  match backend with
  | Prost _ =>
      mkEncodeImpl pm_encoded_len (fun v => extend_from_slice (pm_encode v))
        (fun v => Encode_encode_to_bytes (extend_from_slice (pm_encode v)))
  | Json _ =>
      mkEncodeImpl (fun v => vec_len (json_to_vec v)) (fun v => vec_encode (json_to_vec v))
        (fun v => vec_to_bytes (json_to_vec v))
  | Zerocopy _ =>
      mkEncodeImpl (fun _ => zc_size_of) (fun v => extend_from_slice (zc_as_bytes v))
        (fun v => Encode_encode_to_bytes (extend_from_slice (zc_as_bytes v)))
  | RkyvArchive _ =>
      mkEncodeImpl (fun v => vec_len (rk_to_bytes v)) (fun v => vec_encode (rk_to_bytes v))
        (fun v => vec_to_bytes (rk_to_bytes v))
  end.

(** [encode::expand] with one; [from] is [From<&Self>] of the bridge. *)
Definition derive_encode_bridge {T Bridge} (backend : Backend Bridge) (from : T -> Bridge) : EncodeImpl T :=
  match backend with
  | Prost _ =>
      mkEncodeImpl (fun v => let bridge := from v in pm_encoded_len bridge)
        (fun v => let bridge := from v in extend_from_slice (pm_encode bridge))
        (fun v r => let bridge := from v in (Ok (pm_encode bridge), r))
  | Json _ =>
      mkEncodeImpl (fun v => let bridge := from v in vec_len (json_to_vec bridge))
        (fun v => let bridge := from v in vec_encode (json_to_vec bridge))
        (fun v => let bridge := from v in vec_to_bytes (json_to_vec bridge))
  | Zerocopy _ =>
      mkEncodeImpl (fun _ => zc_size_of)
        (fun v => let bridge := from v in extend_from_slice (zc_as_bytes bridge))
        (fun v => Encode_encode_to_bytes
                    (let bridge := from v in extend_from_slice (zc_as_bytes bridge)))
  | RkyvArchive _ =>
      mkEncodeImpl (fun v => let bridge := from v in vec_len (rk_to_bytes bridge))
        (fun v => let bridge := from v in vec_encode (rk_to_bytes bridge))
        (fun v => let bridge := from v in vec_to_bytes (rk_to_bytes bridge))
  end.

(** [decode::expand] without a bridge type. *)
Definition derive_decode {T} (backend : Backend T) : DecodeImpl T :=
  match backend with
  | Prost _ => fun buf => result_map_err DecodeOther (pm_decode buf)
  | Json _ => fun buf => result_map_err DecodeOther (json_from_slice (bytes_data buf))
  | Zerocopy _ => fun buf => result_map_err DecodeOther (zc_read_from_bytes (bytes_data buf))
  | RkyvArchive _ => fun buf => result_map_err DecodeOther (rk_from_bytes buf)
  end.

(** [decode::expand] with one; [try_from] is [TryFrom<Bridge>] of the type, its error turned
    into a [DecodeError]. *)
Definition derive_decode_bridge {T Bridge} (backend : Backend Bridge) (try_from : Bridge -> result T DecodeError)
    : DecodeImpl T :=
  match backend with
  | Prost _ => fun buf => let? bridge := result_map_err DecodeOther (pm_decode buf) in try_from bridge
  | Json _ => fun buf =>
      match json_from_slice (bytes_data buf) with
      | Ok bridge => try_from bridge
      | Err err => Err (DecodeOther err)
      end
  | Zerocopy _ => fun buf =>
      let? bridge := result_map_err DecodeOther (zc_read_from_bytes (bytes_data buf)) in try_from bridge
  | RkyvArchive _ => fun buf =>
      match rk_from_bytes buf with
      | Ok bridge => try_from bridge
      | Err err => Err (DecodeOther err)
      end
  end.

(** ** Facts *)

(** What the library asks of a value, and of the place where a buffer lies. *)
Definition backend_valid {X} (backend : Backend X) (v : X) : Prop :=
  match backend with Prost _ => pm_valid v | Json _ => json_valid v | _ => True end.

Definition backend_aligned {X} (backend : Backend X) (b : B) : Prop :=
  match backend with RkyvArchive _ => (bytes_addr b mod rk_align = 0)%Z | _ => True end.

(** The three functions of an [impl Encode] agree: either all fail with the same error and
    nothing is written, or they produce [l], of the announced length. *)
Definition encodes {T} (impl : EncodeImpl T) (v : T) (l : list Z) : Prop :=
  length l = ei_encoded_len impl v /\ writes (ei_encode impl v) l /\
  forall r, ei_encode_to_bytes impl v r = (Ok l, r).

Definition refuses {T} (impl : EncodeImpl T) (v : T) (e : EncodeError) : Prop :=
  ei_encoded_len impl v = 0 /\ (forall s, ei_encode impl v s = (Err e, s)) /\
  forall r, ei_encode_to_bytes impl v r = (Err e, r).

Lemma slice_encodes l :
  writes (R := R) (extend_from_slice l) l /\
  forall r : R, Encode_encode_to_bytes (extend_from_slice l) r = (Ok l, r).
Proof. split; [apply writes_slice|]. intros r. apply writes_to_bytes, writes_slice. Qed.

Lemma derive_encode_spec {X} (backend : Backend X) v :
  backend_valid backend v ->
  (exists e, refuses (derive_encode backend) v e) \/
  (exists l, encodes (derive_encode backend) v l /\
     forall b, bytes_data b = l -> backend_aligned backend b -> derive_decode backend b = Ok v).
Proof.
  destruct backend as [lib|lib|lib|lib]; intros Hv; cbn in Hv |- *; unfold encodes, refuses; cbn.
  - right. exists (pm_encode v). split; [split; [by apply pm_len_law|apply slice_encodes]|].
    intros b Hb _. by rewrite (pm_decode_law v).
  - destruct (json_to_vec v) as [l|e] eqn:E; [right; exists l|left; by exists (EncodeOther e)].
    split; [by split; [|split; [apply writes_slice|]]|]. intros b -> _. by rewrite (json_law v l Hv E).
  - right. exists (zc_as_bytes v). split; [split; [apply zc_length|apply slice_encodes]|].
    intros b -> _. by rewrite zc_law.
  - destruct (rk_to_bytes v) as [l|e] eqn:E; [right; exists l|left; by exists (EncodeOther e)].
    split; [by split; [|split; [apply writes_slice|]]|]. intros b Hb Ha. by rewrite (rk_law v l b E Hb Ha).
Qed.

(** A bridge only changes the value that is encoded. *)
Lemma derive_encode_bridge_eq {T X} (backend : Backend X) (from : T -> X) v :
  (forall l, encodes (derive_encode backend) (from v) l -> encodes (derive_encode_bridge backend from) v l) /\
  (forall e, refuses (derive_encode backend) (from v) e -> refuses (derive_encode_bridge backend from) v e).
Proof.
  destruct backend as [lib|lib|lib|lib]; split; unfold encodes, refuses; cbn; by auto.
Qed.

Lemma derive_decode_bridge_eq {T X} (backend : Backend X) (try_from : X -> result T DecodeError) b x :
  derive_decode backend b = Ok x -> derive_decode_bridge backend try_from b = try_from x.
Proof.
  destruct backend as [lib|lib|lib|lib]; cbn; intros E;
    [destruct (pm_decode b)|destruct (json_from_slice _)|destruct (zc_read_from_bytes _)|destruct (rk_from_bytes b)];
    by simplify_eq/=.
Qed.

(** The configuration that is accepted names a known method and no bridge to itself. *)
Lemma detect_codec_config_spec attr name config :
  detect_codec_config attr name = Ok config -> cc_bridge config ≠ Some (TyIdent name).
Proof.
  unfold detect_codec_config. intros E Hb.
  destruct attr as [[|[[ident [ty|]]|]]|]; simplify_eq/=; try done.
  all: repeat (case_bool_decide; simplify_eq/=); try done.
  all: destruct (is_self_type ty name) eqn:Es; simplify_eq/=; rewrite bool_decide_true in Es by done; done.
Qed.

(** For each of the four methods and any bridge whose conversions are inverse, on the values
    that the library recovers: the derived [encode], [encoded_len] and [encode_to_bytes]
    agree, on failure too, where nothing is written; and the derived [decode] returns the
    value that was encoded, where the buffer is aligned as the library asks (rkyv does). *)
Lemma derived_codec_roundtrip {T Bridge} (backend : Backend Bridge) (from : T -> Bridge)
    (try_from : Bridge -> result T DecodeError) v
    (Hbridge : try_from (from v) = Ok v) (Hvalid : backend_valid backend (from v)) :
  (exists e, refuses (derive_encode_bridge backend from) v e) \/
  (exists l, encodes (derive_encode_bridge backend from) v l /\
     forall b, bytes_data b = l -> backend_aligned backend b ->
       derive_decode_bridge backend try_from b = Ok v).
Proof.
  destruct (derive_encode_bridge_eq backend from v) as [He Hr].
  destruct (derive_encode_spec backend (from v) Hvalid) as [[e ?]|(l & ? & Hd)]; [left|right]; eauto.
  exists l. split; [auto|]. intros b Hb Ha. by rewrite (derive_decode_bridge_eq _ _ _ _ (Hd b Hb Ha)).
Qed.
End DeriveCodec.

(** A pair of bytes through zerocopy, bridged to the number they spell. *)
Definition w_read (l : list Z) : result (bool * bool) string :=
  match l with [a; b] => Ok (negb (a =? 0)%Z, negb (b =? 0)%Z) | _ => Err "size mismatch" end.

Lemma w_read_law (v : bool * bool) : w_read [Z.b2z v.1; Z.b2z v.2] = Ok v.
Proof. by destruct v as [[|] [|]]. Qed.

#[local] Instance pair_zerocopy : ZerocopyType (bool * bool) :=
  {| zc_size_of := 2;
     zc_as_bytes v := [Z.b2z v.1; Z.b2z v.2];
     zc_read_from_bytes := w_read;
     zc_length _ := eq_refl;
     zc_law := w_read_law |}.

#[local] Instance pair_json : SerdeJson (bool * bool) :=
  {| json_to_vec v := Ok [Z.b2z v.1; Z.b2z v.2]; json_from_slice := w_read; json_valid _ := True;
     json_law v l _ E := match E in _ = r return match r with Ok l => w_read l = Ok v | Err _ => True end with
                       | eq_refl => w_read_law v end |}.

(** Archives are aligned to sixteen bytes. *)
#[local, program] Instance pair_rkyv : Rkyv slice (bool * bool) :=
  {| rk_align := 16;
     rk_to_bytes v := Ok [Z.b2z v.1; Z.b2z v.2];
     rk_from_bytes b :=
       if bool_decide ((bytes_addr b) mod 16 = 0)%Z then w_read (bytes_data b) else Err "unaligned" |}.
Next Obligation. intros v l b [= <-] Hb Ha. cbn beta. by rewrite Hb, w_read_law, bool_decide_true. Qed.

Definition w_from (v : nat) : bool * bool := (Nat.odd (v / 2), Nat.odd v).
Definition w_try_from (x : bool * bool) : result nat DecodeError :=
  Ok ((if x.1 then 2 else 0) + (if x.2 then 1 else 0)).

Lemma derived_codec_roundtrip_witness :
  let backend := Zerocopy (B := slice) (bool * bool) pair_zerocopy in
  (exists e, refuses (R := unit) (derive_encode_bridge backend w_from) 2 e) \/
  (exists l, encodes (R := unit) (derive_encode_bridge backend w_from) 2 l /\
     forall b, bytes_data b = l -> backend_aligned backend b ->
       derive_decode_bridge backend w_try_from b = Ok 2).
Proof. exact (derived_codec_roundtrip (Zerocopy (B := slice) (bool * bool) pair_zerocopy) w_from w_try_from 2 eq_refl I). Defined.
