(* ===== verification/DeriveMessage.v ===== *)
(** * The macros that read one attribute

    Models [#[derive(Message)]] (acktor-derive/src/message.rs), [#[remote]] (remote_attr.rs)
    and the part of [#[derive(RemoteAddressable)]] (remote_addressable.rs) that reads the
    list of messages and puts the generated items together. What is inside those items is
    in RemoteAddressable.v. The parser of syn is a parameter; an error is the
    [compile_error!] the macro expands to. *)

From S2P Require Import Prelude DeriveCodec.

(** [syn::Meta]: the attribute alone, with tokens in delimiters, or with a value. *)
Inductive Meta (Tokens : Type) : Type :=
| MetaPath
| MetaList (tokens : Tokens)
| MetaNameValue (tokens : Tokens).
Arguments MetaPath {Tokens}.
Arguments MetaList {Tokens} _.
Arguments MetaNameValue {Tokens} _.

(** An attribute; its path is its segments. *)
Record Attribute (Tokens : Type) : Type := mkAttribute {
  at_path : list string;
  at_meta : Meta Tokens;
}.
Arguments mkAttribute {Tokens} _ _.
Arguments at_path {Tokens} _.
Arguments at_meta {Tokens} _.

Record DeclInput (Tokens : Type) : Type := mkDeclInput {
  dcl_ident : string;
  dcl_attrs : list (Attribute Tokens);
}.
Arguments mkDeclInput {Tokens} _ _.
Arguments dcl_ident {Tokens} _.
Arguments dcl_attrs {Tokens} _.

(** The generated [impl Message]. *)
Record MessageImpl : Type := mkMessageImpl { mi_name : string; mi_result : SynType }.

(** The items [#[derive(RemoteAddressable)]] generates for a type and its messages. *)
Inductive GeneratedItem : Type :=
| ImplRemoteAddressable (name : string)
| ImplCodec (name : string) (messages : list SynType)
| ImplHandlerBinaryMessage (name : string) (arms : list SynType)
| UniquenessCheck (ids : list SynType).

(** An item of an impl block: a function, by its name, or something else. *)
Inductive ImplItem : Type := ImplFn (ident : string) | ImplOther (tokens : string).

(** An impl block: the segments of the path of its trait, if it has one. *)
Record ItemImpl : Type := mkItemImpl {
  ii_trait : option (list string);
  ii_self_ty : SynType;
  ii_items : list ImplItem;
}.

Definition shim_method : ImplItem := ImplFn "remote_mailbox".

(** [remote_attr::expand], of what parsing the annotated item gave. *)
Definition remote_expand (input : result ItemImpl string) : result ItemImpl string :=
  let? item := input in
  match ii_trait item with
  | Some path =>
      if bool_decide (last path = Some "Actor") then
        Ok (mkItemImpl (ii_trait item) (ii_self_ty item) (ii_items item ++ [shim_method]))
      else Err "#[remote] must be applied to an `impl Actor for ..` block"
  | None => Err "#[remote] must be applied to an `impl Actor for ..` block"
  end.

(** Whether [A::remote_mailbox] of an impl block is its own and not the default one. *)
Definition overrides_remote_mailbox (item : ItemImpl) : bool :=
  existsb (fun i => match i with ImplFn ident => bool_decide (ident = "remote_mailbox") | ImplOther _ => false end)
    (ii_items item).

Section Derive.
Context {Tokens : Type}.
(** [parse_args::<syn::Type>()] of a list, [Punctuated::parse_terminated], and what
    [parse_args_with] says of an attribute that is no list. *)
Context (parse_type : Tokens -> result SynType string).
Context (parse_types : Tokens -> result (list SynType) string).
Context (no_list_error : Attribute Tokens -> string).
Implicit Types (ast : DeclInput Tokens) (attr : Attribute Tokens).

Definition is_ident attr (name : string) : bool := bool_decide (at_path attr = [name]).

Definition find_attr ast (name : string) : option (Attribute Tokens) :=
  List.find (fun attr => is_ident attr name) (dcl_attrs ast).

Definition get_result_type ast : result SynType string :=
  match find_attr ast "result_type" with
  | None => Err "missing required attribute `#[result_type(T)]`"
  | Some attr =>
      match at_meta attr with
      | MetaList list => parse_type list
      | _ => Err "the correct syntax is `#[result_type(T)]`"
      end
  end.

(** [message::expand]. *)
Definition message_expand ast : result MessageImpl string :=
  let? result_type := get_result_type ast in Ok (mkMessageImpl (dcl_ident ast) result_type).

Definition parse_message_list ast : result (list SynType) string :=
  match find_attr ast "message" with
  | None =>
      Err "`#[derive(RemoteAddressable)]` requires a `#[message(..)]` attribute listing at least one message type"
  | Some attr =>
      let? list := match at_meta attr with
                   | MetaList tokens => parse_types tokens
                   | _ => Err (no_list_error attr)
                   end in
      match list with
      | [] => Err "`#[message(..)]` requires at least one message type"
      | _ => Ok list
      end
  end.

(** [remote_addressable::expand]. *)
Definition remote_addressable_expand ast : result (list GeneratedItem) string :=
  let? messages := parse_message_list ast in
  let name := dcl_ident ast in
  Ok [ImplRemoteAddressable name; ImplCodec name messages; ImplHandlerBinaryMessage name messages;
      UniquenessCheck messages].

(** ** Facts *)

(** Only the first attribute of a name is read. *)
Lemma find_attr_first ast name before attr after :
  dcl_attrs ast = before ++ attr :: after -> Forall (fun a => is_ident a name = false) before ->
  is_ident attr name = true -> find_attr ast name = Some attr.
Proof.
  unfold find_attr. intros -> Hb Ha. induction Hb as [|a before Hn Hb IH]; simpl; [by rewrite Ha|].
  by rewrite Hn.
Qed.

Lemma find_attr_absent ast name :
  Forall (fun a => is_ident a name = false) (dcl_attrs ast) -> find_attr ast name = None.
Proof.
  unfold find_attr. induction 1 as [|a l Hn Hb IH]; simpl; [done|]. by rewrite Hn.
Qed.

(** Whatever the macro generates, it is for a list of at least one message, and the codec
    table, the handler and the assertion are for the same list. *)
Lemma generated_for_one_list ast items :
  remote_addressable_expand ast = Ok items ->
  exists attr tokens messages,
    find_attr ast "message" = Some attr /\ at_meta attr = MetaList tokens /\
    parse_types tokens = Ok messages /\ messages ≠ [] /\
    items = [ImplRemoteAddressable (dcl_ident ast); ImplCodec (dcl_ident ast) messages;
             ImplHandlerBinaryMessage (dcl_ident ast) messages; UniquenessCheck messages].
Proof.
  unfold remote_addressable_expand, parse_message_list.
  destruct (find_attr ast "message") as [attr|]; [|done].
  destruct (at_meta attr) as [|tokens|tokens] eqn:Hm; simpl; try done.
  destruct (parse_types tokens) as [[|m ms]|e] eqn:Hp; simpl; intros ?; simplify_eq.
  by exists attr, tokens, (m :: ms).
Qed.

(** The result type of a message is the one its attribute names. *)
Lemma message_result_type ast impl :
  message_expand ast = Ok impl ->
  mi_name impl = dcl_ident ast /\
  exists attr tokens, find_attr ast "result_type" = Some attr /\ at_meta attr = MetaList tokens /\
    parse_type tokens = Ok (mi_result impl).
Proof.
  unfold message_expand, get_result_type.
  destruct (find_attr ast "result_type") as [attr|]; [|done].
  destruct (at_meta attr) as [|tokens|tokens] eqn:Hm; simpl; try done.
  destruct (parse_type tokens) as [ty|e] eqn:Hp; simpl; intros ?; simplify_eq.
  split; [done|]. by exists attr, tokens.
Qed.
End Derive.

(** The annotated block keeps its items, in order, and [remote_mailbox] converts the
    address; any other block is refused. *)
Lemma remote_expand_spec item :
  match remote_expand (Ok item) with
  | Ok item' =>
      (exists path, ii_trait item = Some path /\ last path = Some "Actor") /\
      ii_trait item' = ii_trait item /\ ii_self_ty item' = ii_self_ty item /\
      ii_items item `prefix_of` ii_items item' /\ overrides_remote_mailbox item' = true
  | Err _ => ~ exists path, ii_trait item = Some path /\ last path = Some "Actor"
  end.
Proof.
  unfold remote_expand. simpl. destruct (ii_trait item) as [path|] eqn:Ht; [|by intros (? & ? & ?)].
  case_bool_decide as Hl; [|intros (p & [= <-] & ?); done].
  split_and!; simpl; [by exists path|done..|by eexists|].
  unfold overrides_remote_mailbox. simpl. by rewrite existsb_app, orb_true_r.
Qed.
